(* ===== verification/_CoqProject ===== *)
-Q . S2P
Prelude.v
Config.v
Segments.v
IoDirect.v
PwritevToy.v
Probe.v
FaultProbe.v
Watermark.v
ScrapPage.v
Heap.v
Queue.v
PcQueueToy.v
MutexFix.v
PageIndex.v
Stats.v
Otflush.v
Engine.v
Pipeline.v
System.v
Schedule.v
Simulation.v
SimFlush.v
SimWrite.v
Faults.v
Apart.v
Guarantees.v
Typed.v
Progress.v
CloseErrors.v
Sweep.v
Close.v
SecondChance.v
Benchmark.v
Lifecycle.v
Workload.v
OrderRepro.v
Soak.v
SoakVerdict.v
Divergence.v
Pool.v
Locks.v
LockUse.v
Coupling.v
