(* ===== verification/Prelude.v ===== *)
(** * NoxDB: a verification of the write engine

    NoxDB (the C sources under [src/src], public interface [src/include/noxdb.h]) is a
    write-only storage engine. [nox_write] sends large aligned writes straight to the file with
    [O_DIRECT] and collects the rest in 256 KB scrap pages in memory; two background threads
    complete and write the pages. This library models the engine and proves what its comments
    promise, with the places where the code does less than that as theorems too.

    ** The program

    - [noxdb.c] opens the engine, routes each write, cuts it at page boundaries and merges each
      chunk into the scrap page of its base ([scrap_write_chunk]), and closes the engine.
    - [scrap_page.c] is the page: an entry array of covered segments, kept coalesced, and the
      data zone; it lists, reads and fills the holes of a page.
    - [page_index.c] maps a page base to its resident page: hashed buckets of intrusive chains.
    - [queue.c] is the intrusive FIFO between the callers, Stage-1 and Stage-2.
    - [otflush.c] is the flusher. Stage-1 takes a partial page from Queue-1, waits at the
      writeback guard for older pages of the same base, reads its holes from the file without
      the page lock, applies them, and pushes the page to Queue-2. Stage-2 takes runs of
      adjacent pages from Queue-2, detaches them from the index, writes them and frees them.
    - [watermark.c] is the admission gate that stalls callers while too many pages are live.
    - [io_direct.c] wraps the transfers; [nox_stats.c] counts; [noxdb_config.h] has the numbers.
    - Under [src/bench], [order_repro.c] and [otflush_soak.c] drive the engine with many threads
      and compare the file with what they wrote, and [benchmark.c] drives it with one;
      [o_direct_probe.c] and [fault_probe.c] measure the alignment a disk asks for and the page
      faults of an allocation; [pwritev_toy.c], [pc_queue_toy.c] and [mutex_fix.c] are study
      programs for the gather write, for condition variables and for a mutex.

    ** The model

    A machine integer is a [Z] with its wrap-around written out ([u8] .. [u64], [s64]); a memory
    block is a function [Z -> byte] with its capacity given where it is accessed, and [memcpy]
    and [memset] are partial. Heap pages live in a finite map from addresses; every link
    ([next], [qnext], [head], [tail], bucket) is an address in it, and a dereference of a page
    that is not there makes the operation [None]: [None] is undefined behaviour throughout.
    The kernel is a parameter, the class [Posix] of [IoDirect], and [PosixLaws] states what the
    manual pages say of [pread], [pwrite(v)] and [posix_memalign]: short transfers and errors at
    any call. [mem_file] is an instance with a scripted kernel. The allocator's answers, the
    clock and the outcomes of the fallible calls of the constructors are arguments.

    Threads are transition functions, one transition per critical section or system call, over
    the state they share: [stage1_step], [stage2_step], [fg_step] (a caller of [nox_write]) and
    [close_step] (the caller of [nox_close]). A blocked thread stays where it is. [sys_step]
    interleaves any number of callers with the two flusher threads. That a critical section can
    be one transition is itself shown, in a second, finer model: [LockUse] has each function as
    the sequence of its operations on mutexes and condition variables, and [Coupling] has the
    life of the pages with the mutexes of shards and pages taken and given back one at a time.

    ** The files

    - [Prelude]: integers, bytes, buffers, tactics. [Config]: [noxdb_config.h]; [NOX_MAX_ENTRIES]
      is a parameter with the range its static assertion allows.
    - [Segments]: the entry array ([coalesce_insert], [scrap_page_hole_ranges], the counter).
      [ScrapPage]: the rest of [scrap_page.c]. [Heap]: the page store and list segments.
    - [IoDirect], [Watermark], [Queue], [PageIndex], [Stats], [Otflush], [Engine]: one file each.
      [Watermark] and [Queue] also model their condition variables, with spurious wake-ups, as
      transition systems; [PageIndex] and [Queue] refine a finite map and a list.
    - [Pipeline]: the abstract write pipeline. Its state is the resident map, the two queues and
      the hands of the stages as lists, the disk, and the chunks in flight. The [view] of a state
      is the newest byte of the pipeline for each offset, over the disk. The bytes that errors
      may have spoiled, and the pages Stage-1 may give up, are a parameter, the class [Damage];
      [agree] is equality where nothing is damaged. A detach by a pointer that now belongs to a
      page of another base is a transition of its own, [ps_detach_stale].
    - [System]: the interleaved system, the history of calls, and the engine as opened.
      [Schedule]: executable schedules, and the sample engine of the witnesses.
    - [Simulation], [SimFlush], [SimWrite]: the simulation of the pipeline by the system; the
      relation and its data structures, the two stages, the callers and their chunk loop.
    - [Faults]: runs in which anything may fail, each transition with what it loses ([step_loss],
      [losing_run]): a range of bytes or a page given up, to an error; or [LostOrder], a range the
      engine silently keeps no order for (a direct write over live pages, a page unlinked by a
      pointer that was allocated again). The simulation of such runs and the history of their
      calls. Every run is one ([engine_loses]).
    - [Apart]: when the silent losses cannot occur. [calls_apart], a decidable condition on the
      calls made: no two of their pages share a bucket of the index and no direct call meets one
      of them. [low_pages_apart]: the first 610 pages of a file are in different buckets.
    - [Guarantees], [Typed], [Progress], [Close]: the theorems on the whole engine; [Typed] is
      the ranges of the integers it keeps. [SecondChance]: closing after pages were given up.
      [CloseErrors]: [nox_close] beside the stages, and what it returns after an error. [Sweep]:
      the walk of the index in the middle of it, one access at a time ([PageIndex.foreach_step]),
      because the walk takes no lock. [Lifecycle]: the resources of an engine from open to close.
      [Divergence]: runs outside the assumptions. [Pool]: several threads per stage.
    - [Locks]: mutexes, condition variables, programs over them ([prog], a free monad) and the
      discipline that rules deadlock out ([safe]), whatever the program. [LockUse]: each function
      of the engine as such a program, [lk_nox_write] for [nox_write] and so on, its branches on
      data left open. [Coupling]: callers and flusher threads between [page_index_get_or_create],
      [page_index_detach_if] and [scrap_page_free], for any number of threads per stage.
    - [Workload]: drivers whose threads own disjoint parts of the file; what they execute is a
      run of the engine. [OrderRepro], [Soak] and [SoakVerdict] are the two drivers on top of
      it: a driver's worker is a caller of the engine, its own loop around the calls is a
      transition, and the rest of its [main], before and after, is a function of what the calls
      return and the workers leave. [Benchmark] is the single-threaded driver: its two loops
      are caller 0 of the engine.
    - [Probe] and [FaultProbe]: the two probes, over a kernel, a sysfs and an allocator that are
      parameters. [PwritevToy], [PcQueueToy], [MutexFix]: the study programs.

    ** What is shown

    - The file. [Guarantees.drained_file_is_history]: after any concurrent execution the drained
      file is what the calls, performed one after the other, would have written.
      [Guarantees.engine_refines_pipeline] is the refinement behind it: no transition of any
      thread changes the view of the pipeline except an accepted chunk, which changes exactly
      its bytes. [SimWrite.chunk_loop_partitions] and [SimWrite.direct_write_exact] connect a
      call with its chunks. Bytes in [lost] are excepted; without an error those are only the
      ones of [LostOrder], and there are none when the calls keep apart.
    - Errors. [Guarantees.errors_contained]: batches of Stage-2, direct writes, hole reads and
      page allocations may fail anywhere; what is lost is within their ranges, an error reports
      it (unless the order was lost, silently), and nothing else is affected. [Progress.drain_terminates] holds whatever fails, and
      [Close.close_contains_failures] as long as no page is given up. Where pages were,
      [SecondChance.close_second_chance]: [nox_close] still completes, and they get a second
      chance, on the schedules in which its walk of the index is over before the stages move;
      [Divergence.sweep_use_after_free]: on others the walk races with the stages.
    - Safety and invariants. [Guarantees.engine_safe], [Typed.engine_state_typed] (every integer
      of the state is within its C type), [Guarantees.page_conservation],
      [Guarantees.hole_read_after_writeback], [Guarantees.never_busy_default_pool].
    - Locks. [LockUse.locks_never_deadlock]: any number of threads of any kind, interleaved at
      every operation on a mutex, keep the order shard, page, one of the rest, never deadlock on
      them, wait on conditions with nothing else held, and meet in the same guarded state only
      where one of them goes there without the mutex, as Stage-2 does at the pages it has taken
      and the walks over the index do; [LockUse.closer_walk_meets_stage2]: that happens.
      [Coupling.coupling_keeps_pages]: the lock of a page is taken before that of its shard is
      given back, and so no thread ever locks or holds a page that was freed, with any number of
      threads per stage and addresses that are used again.
    - Liveness. [Progress.drain_terminates] and [Close.close_keeps_contract] bound the rounds of
      any fair schedule by 24 per pending page and a constant: each page costs at most 24
      transitions of the measure [work], and the sweep of the empty index 1024 more. [Queue.queue_no_lost_wakeup] and
      [Watermark.gate_no_lost_wakeup] justify treating a wait as a test of its predicate.
    - The components. Coalescing, merging, hole reading and filling, the gather write with its
      retry budget, the index, the queue, the statistics, opening with all its unwinding.
    - Errors reported and resources. [CloseErrors.close_reports_errors]: a latched error is never lost by
      [nox_close]. [Engine.open_all_or_nothing] and [Lifecycle.open_close_roundtrip]: nothing is
      held after a failed open or after the close, each thing is released once, and the close
      releases in one order.
    - The drivers. [OrderRepro.order_repro_passes] and [Soak.soak_integrity]: the comparisons
      they make succeed under every interleaving, by the contract of [nox_close].
      [SoakVerdict.soak_verdict_exact] and [SoakVerdict.soak_latency]: what a PASS of the soak
      driver says. [Benchmark.benchmark_contract]: the large writes meet no buffered page, which
      is here derived and not assumed, and the file ends as the two filled regions.
    - The probes. [Probe.matrix_sound]: no cell of the sweep says other than what happened, on any
      kernel whose writes make progress; [Probe.probe_write_all_hangs],
      [Probe.residency_passes_unmeasured] and [Probe.sections_agree]: where the probe falls short.
      [FaultProbe.fault_main_verdicts]: what the arms count and when the verdict is empty.
    - The study programs. [PwritevToy.toy_equals_engine]: the loop worked out there is the one
      in the engine. [PcQueueToy.pc_queue_correct]: no abort, no deadlock, no lost item in the
      correct mode; [PcQueueToy.broken_modes]: how the other two modes fail.
      [MutexFix.mutex_fix_counts]: no increment is lost.
    - Departures. [Divergence], [Pool.grown_pool_loses_update] and
      [Watermark.rearm_strands_sleeper]. [Divergence.direct_write_overtaken] and
      [Divergence.stale_detach_loses_update] are the two silent losses, happening.

    The theorems on the engine are about [engine_run]: an engine opened on a file while no page
    is live, with one thread per stage as configured. They assume of the callers that ranges do
    not overlap a call in progress ([call_ok]), and of the allocator ([fg_ok]) that the address it
    returns is not allocated, that the zone is aligned, and that it succeeds only while fewer than
    2^32 - 2 pages are live. Addresses of freed pages may come back at any time, and a direct
    write may meet live pages. What is lost is the list of an [engine_losing] run; a state that
    is [healthy] (no call has failed and no background error is latched or about to be) has lost
    nothing but, perhaps, order, and the theorems that promise the whole file are about such
    states. The drivers are shown to keep their calls apart, so theirs promise it outright.

    ** Fuel

    Chains are walked with fuel one more than the number of pages, and the gather write with
    five rounds per buffer plus one: the theorems show that they end before the fuel does. The
    chunk loop is given [size / 256K + 2] rounds, which is enough for any alignment. The write
    loop of the probe takes its fuel as an argument: on a device that makes progress one round
    per byte is enough, and on one that does not no fuel is. The loop over a zone in
    [FaultProbe] has one round per block and one to leave. The drivers, [PcQueueToy] and
    [MutexFix] are step relations or step functions over lists of labels and need none.

    ** What is not modelled

    The text of messages and reports (structured lines stand for it); the measurement hooks
    [NOX_EAGER_ZERO] and [NOX_REPRO_STALL]; the memory model of C. Where threads can
    meet at guarded state is [LockUse.locks_never_deadlock]; the page that Stage-2 writes and frees without its
    mutex is out of reach of every other thread ([Coupling.coupling_keeps_pages]), [base] is never
    written after the allocation and [detached] only by the Stage-2 thread that has the page; the
    walk of [page_index_foreach], which takes no lock, is modelled one access at a time. Of the
    drivers and the probes: parsing of numbers, the clock and the times they report, terminal
    styling, [sscanf] on a line of [/proc/self/status]. The tests.

    ** Order of work

    The components bottom up, then the pipeline and its simulation, the theorems on the whole
    engine without and with errors, closing, the drivers on top, and the locks below. Every
    program under [src/src] and [src/bench] but the tests is modelled. What is left is the tests,
    as concrete runs of the model. *)
From stdpp Require Import base numbers list gmap relations.
From Corelib Require Import Init.Byte.
From Stdlib.Strings Require Byte.
From Stdlib Require Export Lia ZifyBool ZArith.

#[global] Open Scope Z_scope.

(** * Notation scope, hint databases, automation *)

Declare Scope nox_scope.
Delimit Scope nox_scope with nox.
#[global] Open Scope nox_scope.

Create HintDb nox.
Create Rewrite HintDb nox_arith.

(** Case analysis on the conditionals of the goal, then of the hypotheses. *)
Ltac case_ifs :=
  repeat match goal with
         | |- context [if ?b then _ else _] => let E := fresh "E" in destruct b eqn:E
         | H : context [if ?b then _ else _] |- _ => let E := fresh "E" in destruct b eqn:E
         end.

(** Case analysis on the [match]es of the goal on a term that is not itself a [match]. *)
Ltac case_goal :=
  match goal with
  | |- context [match ?x with _ => _ end] =>
      lazymatch x with
      | context [match _ with _ => _ end] => fail
      | _ => let E := fresh "E" in destruct x eqn:E
      end
  end.

(** [lia] from contradictory hypotheses, whatever the goal. *)
Ltac contra_lia := exfalso; lia.

(** Inverts a hypothesis of the form [Some _ = Some _], pairs included. *)
Ltac inv_some :=
  repeat match goal with
         | H : Some _ = Some _ |- _ => injection H as H; subst
         | H : None = Some _ |- _ => discriminate H
         | H : (_, _) = (_, _) |- _ => injection H as H; subst
         end.

(** Steps through a computation in the option monad that is known to return. *)
Ltac bind_inv H :=
  match type of H with
  | mbind ?f ?m = Some _ =>
      let E := fresh "E" in destruct m eqn:E; cbn [mbind option_bind] in H; [|discriminate H]
  end.

(** * Machine integers

    Unsigned C arithmetic is arithmetic on [Z] reduced modulo the width of the type; a
    conversion to a signed 64-bit type maps the upper half to negative numbers. *)

Definition u8 (x : Z) : Z := x mod 2 ^ 8.
Definition u16 (x : Z) : Z := x mod 2 ^ 16.
Definition u32 (x : Z) : Z := x mod 2 ^ 32.
Definition u64 (x : Z) : Z := x mod 2 ^ 64.
Definition s64 (x : Z) : Z := (x + 2 ^ 63) mod 2 ^ 64 - 2 ^ 63.

Lemma u8_small x : 0 <= x < 2 ^ 8 -> u8 x = x.
Proof. apply Z.mod_small. Qed.
Lemma u32_small x : 0 <= x < 2 ^ 32 -> u32 x = x.
Proof. apply Z.mod_small. Qed.
Lemma u64_small x : 0 <= x < 2 ^ 64 -> u64 x = x.
Proof. apply Z.mod_small. Qed.
Lemma s64_small x : - 2 ^ 63 <= x < 2 ^ 63 -> s64 x = x.
Proof. intros H. unfold s64. rewrite Z.mod_small; lia. Qed.
Lemma u64_range x : 0 <= u64 x < 2 ^ 64.
Proof. apply Z.mod_pos_bound. lia. Qed.
Lemma u32_range x : 0 <= u32 x < 2 ^ 32.
Proof. apply Z.mod_pos_bound. lia. Qed.
Lemma u64_u64 x : u64 (u64 x) = u64 x.
Proof. apply Z.mod_mod. lia. Qed.
Lemma u64_add_l x y : u64 (u64 x + y) = u64 (x + y).
Proof. apply Zplus_mod_idemp_l. Qed.

(** Clearing the low [k] bits of a word rounds it down to a multiple of [2 ^ k]. *)
Lemma land_lnot_ones x k w :
  0 <= k <= w -> 0 <= x < 2 ^ w ->
  Z.land x ((Z.lnot (2 ^ k - 1)) mod 2 ^ w) = x - x mod 2 ^ k.
Proof.
  intros Hk Hx.
  rewrite <- Z.land_ones, (Z.land_comm (Z.lnot _)), Z.land_assoc, Z.land_ones by lia.
  rewrite (Z.mod_small x) by lia.
  replace (2 ^ k - 1) with (Z.ones k) by (rewrite Z.ones_equiv; lia).
  rewrite <- Z.ldiff_land, Z.ldiff_ones_r, Z.shiftr_div_pow2, Z.shiftl_mul_pow2 by lia.
  pose proof (Z.div_mod x (2 ^ k)). lia.
Qed.

(** * Byte buffers

    A C buffer is a function from indices to bytes; the capacity of the object is an
    argument of the operations that may leave it, and leaving it is undefined behaviour,
    the [None] of the option monad. *)

#[export] Instance byte_eq_decision : EqDecision byte := Byte.byte_eq_dec.

Abbreviation buf := (Z -> byte).

Definition in_range (lo len i : Z) : bool := (lo <=? i) && (i <? lo + len).

Lemma in_range_spec lo len i : in_range lo len i = true <-> lo <= i < lo + len.
Proof. unfold in_range. lia. Qed.

Definition buf_put (dst : buf) (doff : Z) (src : buf) (len : Z) : buf :=
  fun i => if in_range doff len i then src (i - doff) else dst i.

Definition buf_drop (k : Z) (b : buf) : buf := fun i => b (k + i).

Definition memcpy (cap : Z) (dst : buf) (doff : Z) (src : buf) (len : Z) : option buf :=
  if (0 <=? doff) && (0 <=? len) && (doff + len <=? cap)
  then Some (buf_put dst doff src len) else None.

Definition memset (cap : Z) (dst : buf) (doff : Z) (v : byte) (len : Z) : option buf :=
  memcpy cap dst doff (fun _ => v) len.

Lemma buf_put_in dst doff src len i :
  doff <= i < doff + len -> buf_put dst doff src len i = src (i - doff).
Proof. intros H. unfold buf_put. by rewrite (proj2 (in_range_spec _ _ _)). Qed.

Lemma buf_put_out dst doff src len i :
  ~ (doff <= i < doff + len) -> buf_put dst doff src len i = dst i.
Proof.
  intros H. unfold buf_put. destruct (in_range doff len i) eqn:E; [|done].
  by apply in_range_spec in E.
Qed.

Lemma memcpy_ok cap dst doff src len :
  0 <= doff -> 0 <= len -> doff + len <= cap ->
  memcpy cap dst doff src len = Some (buf_put dst doff src len).
Proof.
  intros H1 H2 H3. unfold memcpy. rewrite (proj2 (Z.leb_le _ _) H1),
    (proj2 (Z.leb_le _ _) H2), (proj2 (Z.leb_le _ _) H3). done.
Qed.

Lemma memset_ok cap dst doff v len :
  0 <= doff -> 0 <= len -> doff + len <= cap ->
  memset cap dst doff v len = Some (buf_put dst doff (fun _ => v) len).
Proof. apply memcpy_ok. Qed.

(** Buffers are compared byte by byte. *)
Definition buf_eq (b1 b2 : buf) : Prop := forall i, b1 i = b2 i.
Infix "≈" := buf_eq (at level 70, no associativity) : nox_scope.

#[export] Instance buf_eq_equivalence : Equivalence buf_eq.
Proof.
  split; unfold buf_eq; [done | intros ?? H i; by rewrite H |].
  intros ??? H1 H2 i. by rewrite H1.
Qed.

#[export] Instance buf_put_proper :
  Proper (buf_eq ==> eq ==> buf_eq ==> eq ==> buf_eq) buf_put.
Proof.
  intros d1 d2 Hd ? o -> s1 s2 Hs ? l -> i. unfold buf_put.
  case_ifs; [apply Hs | apply Hd].
Qed.

#[export] Hint Rewrite Z.add_0_r Z.add_0_l Z.sub_0_r Z.sub_diag : nox_arith.
#[export] Hint Resolve u32_range u64_range : nox.

(** * Integers in memory

    The bytes of an unsigned integer, least significant first, as the machines the program is
    built for store them. *)

Definition byte_val (b : byte) : Z := Z.of_N (Byte.to_N b).
Definition byte_of (v : Z) : byte := default Byte.x00 (Byte.of_N (Z.to_N (v mod 256))).

(** The [n] bytes of [v], and the value of the [n] bytes at [off]. *)
Definition le_bytes (v : Z) : buf := fun i => byte_of (v / 2 ^ (8 * i)).
Fixpoint le_value (n : nat) (b : buf) (off : Z) : Z :=
  match n with
  | O => 0
  | S n => byte_val (b off) + 256 * le_value n b (off + 1)
  end.

Lemma byte_val_of v : byte_val (byte_of v) = v mod 256.
Proof.
  unfold byte_val, byte_of. pose proof (Z.mod_pos_bound v 256 ltac:(lia)) as Hr.
  destruct (Byte.of_N (Z.to_N (v mod 256))) as [b|] eqn:E; cbn [default from_option id].
  - apply Byte.to_of_N in E. rewrite E. lia.
  - apply Byte.of_N_None_iff in E. lia.
Qed.

Lemma le_value_ext n b b' off off' :
  (forall i, 0 <= i < Z.of_nat n -> b (off + i) = b' (off' + i)) ->
  le_value n b off = le_value n b' off'.
Proof.
  revert off off'. induction n as [|n IH]; intros off off' Hb; [done|]. cbn [le_value].
  pose proof (Hb 0 ltac:(lia)) as H0. rewrite !Z.add_0_r in H0. rewrite H0.
  rewrite (IH (off + 1) (off' + 1)); [done|]. intros i Hi. rewrite <- !Z.add_assoc. apply Hb. lia.
Qed.

Lemma le_value_from n v k :
  0 <= k -> le_value n (le_bytes v) k = (v / 2 ^ (8 * k)) mod 2 ^ (8 * Z.of_nat n).
Proof.
  revert k. induction n as [|n IH]; intros k Hk; cbn [le_value].
  - by rewrite Z.mod_1_r.
  - rewrite IH by lia. unfold le_bytes. rewrite byte_val_of.
    replace (8 * (k + 1)) with (8 * k + 8) by lia.
    rewrite Z.pow_add_r, <- Z.div_div by lia.
    replace (8 * Z.of_nat (S n)) with (8 + 8 * Z.of_nat n) by lia. rewrite Z.pow_add_r by lia.
    rewrite Z.rem_mul_r by lia. done.
Qed.

(** Storing an integer of [n] bytes and reading it back. *)
Lemma le_roundtrip n v : 0 <= v < 2 ^ (8 * Z.of_nat n) -> le_value n (le_bytes v) 0 = v.
Proof. intros Hv. rewrite le_value_from, Z.mul_0_r, Z.div_1_r by lia. by apply Z.mod_small. Qed.

(** * Lists *)

Lemma last_app_some {A} (l1 l2 : list A) (x : A) :
  last l2 = Some x -> last (l1 ++ l2) = Some x.
Proof. intros H. rewrite last_app. by rewrite H. Qed.

(** The list less one occurrence of each of [xs] in turn; [None] when one of them is not there:
    giving back a resource that is not held, or is given back already. *)
Fixpoint take_out {A} `{EqDecision A} (x : A) (l : list A) : option (list A) :=
  match l with
  | [] => None
  | y :: l => if decide (x = y) then Some l else (y ::.) <$> take_out x l
  end.

Fixpoint take_out_all {A} `{EqDecision A} (xs l : list A) : option (list A) :=
  match xs with [] => Some l | x :: xs => l ← take_out x l; take_out_all xs l end.

Section TakeOut.
Context {A : Type} `{EqDecision A}.

Lemma take_out_ok (x : A) l k : l ≡ₚ x :: k -> exists k', take_out x l = Some k' /\ k' ≡ₚ k.
Proof.
  revert k. induction l as [|y l IH]; intros k Hp; [by apply Permutation_nil_cons in Hp|]. cbn [take_out].
  destruct (decide (x = y)) as [->|Hne]; [exists l; split; [done|by apply Permutation_cons_inv in Hp]|].
  assert (x ∈ l) as Hx by (assert (x ∈ y :: l) as Hin by (rewrite Hp; left); set_solver).
  apply elem_of_Permutation in Hx as [l' Hl']. destruct (IH l' Hl') as (k' & -> & Hk').
  exists (y :: k'). split; [done|]. rewrite Hk'. rewrite Hl' in Hp.
  rewrite (Permutation_swap x y l') in Hp. by apply Permutation_cons_inv in Hp.
Qed.

Lemma take_out_all_ok (xs l k : list A) :
  l ≡ₚ xs ++ k -> exists k', take_out_all xs l = Some k' /\ k' ≡ₚ k.
Proof.
  revert l. induction xs as [|x xs IH]; intros l Hp; [by exists l|]. cbn [take_out_all].
  destruct (take_out_ok x l (xs ++ k) Hp) as (l' & -> & Hl'). cbn [mbind option_bind]. by apply IH.
Qed.

Lemma take_out_perm (x : A) l k : take_out x l = Some k -> l ≡ₚ x :: k.
Proof.
  revert k. induction l as [|y l IH]; intros k; [done|]. cbn [take_out].
  destruct (decide (x = y)) as [->|_]; [by intros [= ->]|].
  destruct (take_out x l) as [k'|]; [|done]. intros [= <-].
  rewrite (IH k' eq_refl). apply Permutation_swap.
Qed.

Lemma take_out_all_perm (xs l k : list A) : take_out_all xs l = Some k -> l ≡ₚ xs ++ k.
Proof.
  revert l. induction xs as [|x xs IH]; intros l; cbn [take_out_all]; [by intros [= ->]|].
  destruct (take_out x l) as [l'|] eqn:E; [|done]. intros Hk%IH.
  rewrite (take_out_perm _ _ _ E). cbn. by rewrite Hk.
Qed.

Lemma take_out_every (xs l : list A) : l ≡ₚ xs -> take_out_all xs l = Some [].
Proof.
  intros Hp. destruct (take_out_all_ok xs l []) as (k & -> & Hk); [by rewrite app_nil_r|].
  symmetry in Hk. by apply Permutation_nil in Hk as ->.
Qed.

Lemma take_out_all_app (xs ys l : list A) :
  take_out_all (xs ++ ys) l = take_out_all xs l ≫= take_out_all ys.
Proof. revert l. induction xs as [|x xs IH]; intros l; [done|]. cbn. destruct (take_out x l); cbn; auto. Qed.

End TakeOut.

(** [memcmp(a, b, n) == 0]. *)
Fixpoint memcmp_eq (a b : buf) (n : nat) : bool :=
  match n with
  | O => true
  | S n => bool_decide (a (Z.of_nat n) = b (Z.of_nat n)) && memcmp_eq a b n
  end.

Lemma memcmp_eq_ok a b n :
  (forall i, 0 <= i < Z.of_nat n -> a i = b i) -> memcmp_eq a b n = true.
Proof.
  induction n as [|n IH]; intros Hab; [done|]. cbn [memcmp_eq]. rewrite IH by (intros; apply Hab; lia).
  rewrite bool_decide_true by (apply Hab; lia). done.
Qed.

(** Sums over a list. *)
Definition zsum {A} (f : A -> Z) (l : list A) : Z := foldr (fun x acc => f x + acc) 0 l.

Lemma zsum_app {A} (f : A -> Z) l1 l2 : zsum f (l1 ++ l2) = zsum f l1 + zsum f l2.
Proof. unfold zsum. induction l1 as [|x l1 IH]; cbn; [done|]. lia. Qed.

Lemma zsum_insert {A} (f : A -> Z) l i x y :
  l !! i = Some x -> zsum f (<[i := y]> l) = zsum f l - f x + f y.
Proof.
  revert i. induction l as [|z l IH]; intros [|i] E; try done.
  - injection E as ->. cbn. lia.
  - change (f z + zsum f (<[i := y]> l) = f z + zsum f l - f x + f y). rewrite (IH i E). lia.
Qed.

Lemma zsum_ext {A} (f g : A -> Z) l : (forall x, x ∈ l -> f x = g x) -> zsum f l = zsum g l.
Proof.
  unfold zsum. induction l as [|x l IH]; intros Hfg; cbn; [done|].
  rewrite IH by (intros; apply Hfg; by right). rewrite Hfg by (by left). done.
Qed.

Lemma zsum_le {A} (f g : A -> Z) l : (forall x, x ∈ l -> f x <= g x) -> zsum f l <= zsum g l.
Proof.
  unfold zsum. induction l as [|x l IH]; intros Hfg; cbn; [lia|].
  pose proof (Hfg x ltac:(by left)). specialize (IH ltac:(intros; apply Hfg; by right)). lia.
Qed.

Lemma zsum_const {A} (c : Z) (l : list A) : zsum (fun _ => c) l = c * Z.of_nat (length l).
Proof. unfold zsum. induction l as [|x l IH]; cbn -[Z.of_nat]; lia. Qed.

Lemma zsum_nonneg {A} (f : A -> Z) l : (forall x, x ∈ l -> 0 <= f x) -> 0 <= zsum f l.
Proof. intros Hf. pose proof (zsum_le (fun _ => 0) f l Hf). rewrite zsum_const in *. lia. Qed.

Lemma zsum_lookup_le {A} (f : A -> Z) l i x :
  (forall y, y ∈ l -> 0 <= f y) -> l !! i = Some x -> f x <= zsum f l.
Proof.
  revert i. induction l as [|z l IH]; intros [|i] Hf E; try done; cbn in *; fold (zsum f l) in *.
  - injection E as ->. pose proof (zsum_nonneg f l ltac:(intros; apply Hf; by right)). lia.
  - specialize (IH i ltac:(intros; apply Hf; by right) E). pose proof (Hf z ltac:(by left)). lia.
Qed.

Lemma forallb_false {A} (f : A -> bool) (l : list A) :
  forallb f l = false -> exists x, x ∈ l /\ f x = false.
Proof.
  induction l as [|x l IH]; cbn; [done|]. destruct (f x) eqn:E; cbn.
  - intros (y & Hy & Hf)%IH. exists y. split; [by right|done].
  - intros _. exists x. split; [left|done].
Qed.

(** * Inverting a computation in the option monad *)

(** Inverts one bind of [E : x ≫= f = Some r] and takes the pairs of its result apart. *)
Ltac bind_step E :=
  match type of E with
  | mbind _ ?x = Some _ =>
      let F := fresh "F" in
      destruct x as [?|] eqn:F; [cbn [mbind option_bind] in E|discriminate E]
  end;
  repeat match type of E with
  | match ?p with (_, _) => _ end = _ => is_var p; destruct p as [? ?]; cbn [mbind option_bind] in E
  end.
