(* ===== verification/Config.v ===== *)
(** Compile-time constants and macros of [src/src/noxdb_config.h], the build-time overridable
    entry count as a class, and the facts about alignment and page bases that the other
    files use. *)
From stdpp Require Import base numbers.
From S2P Require Import Prelude.

Definition NOX_BLOCK_SIZE : Z := 4096.
Definition NOX_DIRECT_THRESHOLD : Z := 1 * 1024 * 1024.
Definition NOX_DATAZONE_SIZE : Z := 256 * 1024.

(** [NOX_MAX_ENTRIES] may be overridden by the build; [scrap_page.h] restricts it by a
    static assertion to what the one-byte [number] field can hold. Every theorem of the
    development holds for each legal value; the witnesses use the default, 64. *)
Class NoxConfig := {
  NOX_MAX_ENTRIES : Z;
  NOX_MAX_ENTRIES_range : 1 <= NOX_MAX_ENTRIES <= 255
}.

#[global] Hint Resolve NOX_MAX_ENTRIES_range : nox.

Definition default_config : NoxConfig.
Proof. refine {| NOX_MAX_ENTRIES := 64 |}. lia. Defined.

(** Size in bytes of the packed header: four scalars in 8 bytes, then the entry array. *)
Definition NOX_HEADER_SIZE `{NoxConfig} : Z := 8 + NOX_MAX_ENTRIES * 8.

Definition NOX_INDEX_SHARD_BITS : Z := 6.
Definition NOX_INDEX_SHARDS : Z := Z.shiftl 1 NOX_INDEX_SHARD_BITS.
Definition NOX_CACHELINE : Z := 64.

Definition NOX_TAG_OPEN : Z := 0.
Definition NOX_TAG_FULL : Z := 1.
Definition NOX_TAG_SEALED : Z := 2.
Definition NOX_TAG_FLUSHING : Z := 3.

Definition NOX_STAGE1_THREADS : Z := 1.
Definition NOX_STAGE2_THREADS : Z := 1.
Definition NOX_BCOUNT_BUSY_THRESHOLD : Z := Z.shiftl 4 20.
Definition NOX_PWRITEV_MAX_IOV : Z := 8.
Definition NOX_QUEUE_WARN_DEPTH : Z := 4096.
Definition NOX_WATERMARK_HIGH : Z := 4096.

(** The low mark follows whatever high mark the build selects, in [uint32_t] arithmetic. *)
Definition NOX_WATERMARK_LOW (high : Z) : Z := u32 (high / 4 * 3).

Definition NOX_WB_GUARD_BITS : Z := 13.
Definition NOX_WB_GUARD_SLOTS : Z := Z.shiftl 1 NOX_WB_GUARD_BITS.

(** The alignment test on an address, an offset or a length, as the code writes it. *)
Definition NOX_IS_ALIGNED (x : Z) : bool := Z.land (u64 x) (NOX_BLOCK_SIZE - 1) =? 0.

(** The base of the 256KB page an offset belongs to: the low 18 bits cleared. *)
Definition NOX_PAGE_BASE (off : Z) : Z :=
  Z.land (u64 off) (u64 (Z.lnot (NOX_DATAZONE_SIZE - 1))).

Definition aligned (m x : Z) : Prop := x mod m = 0.

Lemma NOX_IS_ALIGNED_spec x : NOX_IS_ALIGNED x = true <-> aligned NOX_BLOCK_SIZE x.
Proof.
  unfold NOX_IS_ALIGNED, aligned, NOX_BLOCK_SIZE, u64.
  change (4096 - 1) with (Z.ones 12). rewrite Z.land_ones, Z.eqb_eq by lia.
  change (2 ^ 12) with 4096. change (2 ^ 64) with (4096 * 2 ^ 52).
  rewrite Z.rem_mul_r, Z.mul_comm, Z.mod_add, Z.mod_mod by lia. done.
Qed.

Lemma NOX_PAGE_BASE_eq off :
  0 <= off < 2 ^ 64 -> NOX_PAGE_BASE off = off - off mod NOX_DATAZONE_SIZE.
Proof.
  intros H. unfold NOX_PAGE_BASE. rewrite u64_small by lia.
  apply (land_lnot_ones off 18 64); lia.
Qed.

Lemma NOX_PAGE_BASE_bounds off :
  0 <= off < 2 ^ 64 ->
  0 <= NOX_PAGE_BASE off <= off /\ off < NOX_PAGE_BASE off + NOX_DATAZONE_SIZE /\
  aligned NOX_DATAZONE_SIZE (NOX_PAGE_BASE off).
Proof.
  intros H. rewrite NOX_PAGE_BASE_eq by done. unfold aligned, NOX_DATAZONE_SIZE.
  pose proof (Z.mod_pos_bound off (256 * 1024)).
  pose proof (Z.mod_le off (256 * 1024)).
  repeat split; try lia.
  rewrite Zminus_mod_idemp_r, Z.sub_diag. done.
Qed.

(** The page base is the unique aligned base whose page contains the offset. *)
Lemma NOX_PAGE_BASE_unique off b :
  0 <= off < 2 ^ 64 -> aligned NOX_DATAZONE_SIZE b ->
  b <= off < b + NOX_DATAZONE_SIZE -> NOX_PAGE_BASE off = b.
Proof.
  unfold aligned. intros H Hb Hr. rewrite NOX_PAGE_BASE_eq by done.
  unfold NOX_DATAZONE_SIZE in *.
  apply Z.mod_divide in Hb as [k ->]; [|lia].
  replace off with ((off - k * (256 * 1024)) + k * (256 * 1024)) at 2 by lia.
  rewrite Z.mod_add, Z.mod_small by lia. lia.
Qed.

Lemma aligned_zone_block x : aligned NOX_DATAZONE_SIZE x -> aligned NOX_BLOCK_SIZE x.
Proof.
  unfold aligned, NOX_DATAZONE_SIZE, NOX_BLOCK_SIZE. intros H.
  apply Z.mod_divide in H as [k ->]; [|lia].
  replace (k * (256 * 1024)) with (k * 64 * 4096) by lia. apply Z.mod_mul. lia.
Qed.

Lemma aligned_add m x y : m <> 0 -> aligned m x -> aligned m y -> aligned m (x + y).
Proof. unfold aligned. intros ? Hx Hy. rewrite Zplus_mod, Hx, Hy. by apply Z.mod_0_l. Qed.

Lemma aligned_sub m x y : m <> 0 -> aligned m x -> aligned m y -> aligned m (x - y).
Proof. unfold aligned. intros ? Hx Hy. rewrite Zminus_mod, Hx, Hy. by apply Z.mod_0_l. Qed.

Lemma aligned_trans m k x : 0 < m -> 0 < k -> aligned m k -> aligned k x -> aligned m x.
Proof. unfold aligned. intros Hm Hk. rewrite !Z.mod_divide by lia. intros. by transitivity k. Qed.

Lemma NOX_WATERMARK_LOW_lt high : 1 <= high < 2 ^ 32 -> NOX_WATERMARK_LOW high < high.
Proof.
  intros H. unfold NOX_WATERMARK_LOW.
  pose proof (Z.div_mod high 4). pose proof (Z.mod_pos_bound high 4).
  rewrite u32_small; lia.
Qed.

(** [lia] after unfolding the size constants. *)
Ltac sz := unfold NOX_DATAZONE_SIZE, NOX_BLOCK_SIZE, NOX_DIRECT_THRESHOLD in *; lia.
