(* ===== verification/Segments.v ===== *)
(** The scrap-page header of [src/src/scrap_page.h] and the pure bookkeeping on it from
    [src/src/scrap_page.c]: [coalesce_insert], the full test and the enumeration of holes,
    with the invariant that the entry array is the canonical decomposition of the covered
    bytes into maximal segments. *)
From stdpp Require Import base numbers list sets.
From S2P Require Import Prelude Config.

(** * Data *)

Record scrap_entry := mk_entry { e_offset : Z; e_size : Z }.

Record scrap_header := mk_header {
  counter : Z;
  ssd_id : Z;
  number : Z;
  tag : Z;
  entries : list scrap_entry
}.

Inductive scrap_status := SCRAP_OK | SCRAP_OVERFLOW.

#[export] Instance scrap_entry_eq_dec : EqDecision scrap_entry.
Proof. solve_decision. Defined.
#[export] Instance scrap_header_eq_dec : EqDecision scrap_header.
Proof. solve_decision. Defined.
#[export] Instance scrap_status_eq_dec : EqDecision scrap_status.
Proof. solve_decision. Defined.

(** The entries in use: the first [number] slots of the array. *)
Definition segments (h : scrap_header) : list scrap_entry :=
  take (Z.to_nat (number h)) (entries h).

Definition seg_end (e : scrap_entry) : Z := u32 (e_offset e + e_size e).

(** * Operations *)

Section Operations.
Context `{NoxConfig}.

(** Loop (1) of [coalesce_insert]: the segments that end strictly before the new one, and
    the rest. *)
Fixpoint ci_before (new_off : Z) (es : list scrap_entry)
  : list scrap_entry * list scrap_entry :=
  match es with
  | e :: r =>
      if seg_end e <? new_off
      then let '(out, rest) := ci_before new_off r in (e :: out, rest)
      else ([], es)
  | [] => ([], [])
  end.

(** Loop (2): absorb every segment that overlaps or touches the growing range. *)
Fixpoint ci_absorb (new_off new_end : Z) (es : list scrap_entry)
  : Z * Z * list scrap_entry :=
  match es with
  | e :: r =>
      if e_offset e <=? new_end
      then ci_absorb (if e_offset e <? new_off then e_offset e else new_off)
                     (if new_end <? seg_end e then seg_end e else new_end) r
      else (new_off, new_end, es)
  | [] => (new_off, new_end, [])
  end.

(** Loop (4): copy the remaining segments while the scratch array has room. *)
Fixpoint ci_after (n : Z) (es : list scrap_entry) : option (list scrap_entry) :=
  match es with
  | e :: r =>
      if NOX_MAX_ENTRIES + 1 <=? n then None
      else match ci_after (n + 1) r with
           | Some out => Some (e :: out)
           | None => None
           end
  | [] => Some []
  end.

(** The commit loop's running sum of the segment sizes, in [uint32_t]. *)
Fixpoint ci_total (total : Z) (out : list scrap_entry) : Z :=
  match out with
  | e :: r => ci_total (u32 (total + e_size e)) r
  | [] => total
  end.

Definition coalesce_insert (h : scrap_header) (off len : Z)
  : scrap_status * scrap_header :=
  let '(before, rest) := ci_before off (segments h) in
  let '(new_off, new_end, after) := ci_absorb off (u32 (off + len)) rest in
  let n := Z.of_nat (length before) in
  if NOX_MAX_ENTRIES + 1 <=? n then (SCRAP_OVERFLOW, h)
  else
    let merged := mk_entry new_off (u32 (new_end - new_off)) in
    match ci_after (n + 1) after with
    | None => (SCRAP_OVERFLOW, h)
    | Some tail =>
        let out := before ++ merged :: tail in
        let n := Z.of_nat (length out) in
        if NOX_MAX_ENTRIES <? n then (SCRAP_OVERFLOW, h)
        else (SCRAP_OK,
              {| counter := ci_total 0 out;
                 ssd_id := ssd_id h;
                 number := u8 n;
                 tag := tag h;
                 entries := out ++ drop (length out) (entries h) |})
    end.

(** The forward walk of [scrap_page_hole_ranges]: [None] for the cursor is the early
    return taken when [max] ranges were written. *)
Fixpoint hole_loop (max cursor : Z) (es out : list scrap_entry)
  : list scrap_entry * option Z :=
  match es with
  | e :: r =>
      let seg_off := e_offset e in
      if cursor <? seg_off then
        if max <=? Z.of_nat (length out) then (out, None)
        else hole_loop max (u32 (seg_off + e_size e)) r
               (out ++ [mk_entry cursor (u32 (seg_off - cursor))])
      else hole_loop max (u32 (seg_off + e_size e)) r out
  | [] => (out, Some cursor)
  end.

Definition hole_ranges (h : scrap_header) (max : Z) : list scrap_entry :=
  match hole_loop max 0 (segments h) [] with
  | (out, None) => out
  | (out, Some cursor) =>
      if (cursor <? NOX_DATAZONE_SIZE) && (Z.of_nat (length out) <? max)
      then out ++ [mk_entry cursor (u32 (NOX_DATAZONE_SIZE - cursor))]
      else out
  end.

Definition is_full (h : scrap_header) : bool := counter h =? NOX_DATAZONE_SIZE.

(** The header [scrap_page_alloc] starts a page with: zeroed, then [ssd_id] and [tag]. *)
Definition fresh_header (ssd : Z) : scrap_header :=
  {| counter := 0; ssd_id := u16 ssd; number := 0; tag := NOX_TAG_OPEN;
     entries := replicate (Z.to_nat NOX_MAX_ENTRIES) (mk_entry 0 0) |}.

(** The header after [scrap_page_apply_holes]: one segment over the whole zone. *)
Definition collapse_header (h : scrap_header) : scrap_header :=
  {| counter := NOX_DATAZONE_SIZE; ssd_id := ssd_id h; number := 1; tag := tag h;
     entries := <[0%nat := mk_entry 0 NOX_DATAZONE_SIZE]> (entries h) |}.

Definition set_tag (t : Z) (h : scrap_header) : scrap_header :=
  {| counter := counter h; ssd_id := ssd_id h; number := number h; tag := t;
     entries := entries h |}.

End Operations.

(** * Well-formed segment lists *)

(** Sorted, non-empty, inside the zone, and separated by at least one byte: every segment
    is maximal. *)
Fixpoint segs_wf (lo : Z) (es : list scrap_entry) : Prop :=
  match es with
  | e :: r => lo <= e_offset e /\ 0 < e_size e /\
              e_offset e + e_size e <= NOX_DATAZONE_SIZE /\
              segs_wf (e_offset e + e_size e + 1) r
  | [] => True
  end.

Definition covers (es : list scrap_entry) (x : Z) : Prop :=
  exists e, e ∈ es /\ e_offset e <= x < e_offset e + e_size e.

Definition coversb (es : list scrap_entry) (x : Z) : bool :=
  existsb (fun e => in_range (e_offset e) (e_size e) x) es.

Fixpoint seg_total (es : list scrap_entry) : Z :=
  match es with
  | e :: r => e_size e + seg_total r
  | [] => 0
  end.

Definition header_wf `{NoxConfig} (h : scrap_header) : Prop :=
  Z.of_nat (length (entries h)) = NOX_MAX_ENTRIES /\
  0 <= number h <= NOX_MAX_ENTRIES /\
  segs_wf 0 (segments h) /\
  counter h = seg_total (segments h).

Lemma covers_nil x : covers [] x <-> False.
Proof. unfold covers. set_solver. Qed.

Lemma covers_cons e es x :
  covers (e :: es) x <-> e_offset e <= x < e_offset e + e_size e \/ covers es x.
Proof. unfold covers. set_solver. Qed.

Lemma covers_app es1 es2 x : covers (es1 ++ es2) x <-> covers es1 x \/ covers es2 x.
Proof. unfold covers. set_solver. Qed.

Lemma coversb_spec es x : coversb es x = true <-> covers es x.
Proof.
  induction es as [|e es IH]; cbn; [rewrite covers_nil; done|].
  rewrite orb_true_iff, in_range_spec, covers_cons, IH. done.
Qed.

#[export] Instance covers_dec es x : Decision (covers es x).
Proof. destruct (coversb es x) eqn:E; [left|right]; rewrite <- coversb_spec, E; done. Defined.

Lemma segs_wf_weaken lo lo' es : lo' <= lo -> segs_wf lo es -> segs_wf lo' es.
Proof. destruct es; cbn; intuition lia. Qed.

Lemma segs_wf_covers lo es x :
  segs_wf lo es -> covers es x -> lo <= x < NOX_DATAZONE_SIZE.
Proof.
  revert lo. induction es as [|e es IH]; intros lo; cbn; [by rewrite covers_nil|].
  intros (H1 & H2 & H3 & H4). rewrite covers_cons. intros [?|Hc]; [lia|].
  apply IH in H4; [|done]. lia.
Qed.

Lemma segs_wf_elem lo es e :
  segs_wf lo es -> e ∈ es ->
  lo <= e_offset e /\ 0 < e_size e /\ e_offset e + e_size e <= NOX_DATAZONE_SIZE.
Proof.
  revert lo. induction es as [|d es IH]; intros lo; cbn; [set_solver|].
  intros (H1 & H2 & H3 & H4) [-> | He]%elem_of_cons; [lia|].
  apply IH in H4; [|done]. lia.
Qed.

(** The first position a segment appended to [es] may start at. *)
Fixpoint segs_hi (lo : Z) (es : list scrap_entry) : Z :=
  match es with
  | e :: r => segs_hi (e_offset e + e_size e + 1) r
  | [] => lo
  end.

Lemma segs_wf_app lo es1 es2 :
  segs_wf lo (es1 ++ es2) <-> segs_wf lo es1 /\ segs_wf (segs_hi lo es1) es2.
Proof. revert lo. induction es1 as [|e es1 IH]; intros lo; cbn; [tauto|]. rewrite IH. tauto. Qed.

Lemma segs_hi_le lo es : segs_wf lo es -> lo <= segs_hi lo es.
Proof.
  revert lo. induction es as [|e es IH]; intros lo; cbn; [lia|].
  intros (H1 & H2 & H3 & H4). apply IH in H4. lia.
Qed.

Lemma seg_end_small lo es e :
  0 <= lo -> segs_wf lo es -> e ∈ es -> seg_end e = e_offset e + e_size e.
Proof.
  intros Hlo Hwf He. destruct (segs_wf_elem _ _ _ Hwf He) as (?&?&?).
  apply u32_small. sz.
Qed.

(** ** The loops of [coalesce_insert] *)

Lemma ci_before_spec lo off es :
  0 <= lo -> segs_wf lo es ->
  let '(out, rest) := ci_before off es in
  es = out ++ rest /\ segs_hi lo out <= Z.max lo off /\
  (forall e, e ∈ rest -> off <= e_offset e + e_size e).
Proof.
  revert lo. induction es as [|e es IH]; intros lo Hlo Hwf; cbn; [split_and!; set_solver by lia|].
  assert (He : seg_end e = e_offset e + e_size e) by (eapply seg_end_small; eauto; set_solver).
  destruct Hwf as (H1 & H2 & H3 & H4).
  rewrite He. destruct (_ <? off) eqn:E.
  - specialize (IH (e_offset e + e_size e + 1)).
    destruct (ci_before off es) as [out rest]. destruct IH as (-> & Hhi & Hr); [lia|done|].
    split_and!; [done| cbn; lia | done].
  - split_and!; [done|cbn; lia|]. intros d [->|Hd]%elem_of_cons; [lia|].
    apply (segs_wf_elem _ _ _ H4) in Hd. lia.
Qed.

Lemma ci_absorb_spec lo no ne es :
  0 <= lo -> segs_wf lo es -> no < ne -> ne <= NOX_DATAZONE_SIZE ->
  (forall e, e ∈ es -> no <= e_offset e + e_size e) ->
  let '(no', ne', rest) := ci_absorb no ne es in
  Z.min no lo <= no' <= no /\ ne <= ne' <= NOX_DATAZONE_SIZE /\ segs_wf (ne' + 1) rest /\
  (exists skipped, es = skipped ++ rest) /\
  (forall x, no' <= x < ne' \/ covers rest x <-> no <= x < ne \/ covers es x).
Proof.
  revert lo no ne. induction es as [|e es IH]; intros lo no ne Hlo Hwf Hn Hne Hall; cbn.
  { split_and!; try lia; first [done | by exists []]. }
  assert (He : seg_end e = e_offset e + e_size e) by (eapply seg_end_small; eauto; set_solver).
  destruct Hwf as (H1 & H2 & H3 & H4). pose proof (Hall e ltac:(set_solver)) as Hte.
  rewrite He. destruct (e_offset e <=? ne) eqn:E.
  - set (no1 := if e_offset e <? no then e_offset e else no).
    set (ne1 := if ne <? e_offset e + e_size e then e_offset e + e_size e else ne).
    assert (Hno1 : no1 = Z.min no (e_offset e)) by (unfold no1; case_ifs; lia).
    assert (Hne1 : ne1 = Z.max ne (e_offset e + e_size e)) by (unfold ne1; case_ifs; lia).
    specialize (IH (e_offset e + e_size e + 1) no1 ne1).
    destruct (ci_absorb no1 ne1 es) as [[no' ne'] rest].
    destruct IH as (Hb1 & Hb2 & Hw & (sk & ->) & Hc); [lia|done|lia|lia| |].
    { intros d Hd. pose proof (Hall d ltac:(set_solver)). lia. }
    split_and!; try lia; [done | by exists (e :: sk) |].
    intros x. rewrite covers_cons, Hc. assert (no1 <= x < ne1 <-> no <= x < ne \/
      e_offset e <= x < e_offset e + e_size e) by lia. tauto.
  - split_and!; try lia; [cbn; split_and!; auto; lia | by exists [] | done].
Qed.

Lemma ci_after_eq `{NoxConfig} n es :
  n <= NOX_MAX_ENTRIES + 1 ->
  ci_after n es = if n + Z.of_nat (length es) <=? NOX_MAX_ENTRIES + 1 then Some es else None.
Proof.
  revert n. induction es as [|e es IH]; intros n Hn; cbn [ci_after length].
  { case_ifs; [done|contra_lia]. }
  destruct (_ <=? n) eqn:E.
  - case_ifs; [contra_lia|done].
  - rewrite IH by lia. replace (n + Z.of_nat (S (length es))) with (n + 1 + Z.of_nat (length es))
      by lia. case_ifs; done.
Qed.

Lemma ci_total_eq total lo es :
  0 <= total -> 0 <= lo -> segs_wf lo es -> total <= lo ->
  ci_total total es = total + seg_total es /\ total + seg_total es <= Z.max total NOX_DATAZONE_SIZE.
Proof.
  revert total lo. induction es as [|e es IH]; intros total lo Ht Hlo Hwf Hle; cbn; [lia|].
  destruct Hwf as (H1 & H2 & H3 & H4).
  rewrite u32_small by sz.
  destruct (IH (total + e_size e) (e_offset e + e_size e + 1)) as [-> ?]; [lia..|done|lia|].
  sz.
Qed.

Lemma seg_total_le lo es : 0 <= lo -> segs_wf lo es -> lo + seg_total es <= Z.max lo NOX_DATAZONE_SIZE.
Proof. intros Hlo Hwf. eapply (ci_total_eq lo lo es); auto; lia. Qed.

(** ** The reference insertion: [coalesce_insert] without the capacity limit *)

Definition seg_insert (es : list scrap_entry) (off len : Z) : list scrap_entry :=
  let '(before, rest) := ci_before off es in
  let '(new_off, new_end, after) := ci_absorb off (off + len) rest in
  before ++ mk_entry new_off (new_end - new_off) :: after.

Lemma seg_insert_spec es off len :
  segs_wf 0 es -> 0 <= off -> 0 < len -> off + len <= NOX_DATAZONE_SIZE ->
  segs_wf 0 (seg_insert es off len) /\
  (forall x, covers (seg_insert es off len) x <-> off <= x < off + len \/ covers es x).
Proof.
  intros Hwf Hoff Hlen Hend. unfold seg_insert.
  pose proof (ci_before_spec 0 off es ltac:(lia) Hwf) as Hb.
  destruct (ci_before off es) as [before rest]. destruct Hb as (-> & Hhi & Hr).
  apply segs_wf_app in Hwf as [Hwb Hwr].
  pose proof (segs_hi_le _ _ Hwb) as Hge.
  pose proof (ci_absorb_spec (segs_hi 0 before) off (off + len) rest
                ltac:(lia) Hwr ltac:(lia) Hend Hr) as Ha.
  destruct (ci_absorb off (off + len) rest) as [[no ne] after].
  destruct Ha as (H1 & H2 & H3 & _ & H5). split.
  - rewrite segs_wf_app. split; [done|]. cbn. split_and!; try lia.
    eapply segs_wf_weaken; [|exact H3]. lia.
  - intros x. specialize (H5 x). rewrite !covers_app, covers_cons. cbn [e_offset e_size].
    replace (no + (ne - no)) with ne by lia. tauto.
Qed.

(** ** [coalesce_insert] against the reference insertion *)

Section Coalesce.
Context `{NoxConfig}.

Lemma segments_take (out es : list scrap_entry) n :
  n = Z.of_nat (length out) -> take (Z.to_nat n) (out ++ es) = out.
Proof. intros ->. rewrite Nat2Z.id. apply take_app_length. Qed.

Lemma number_length h :
  header_wf h -> number h = Z.of_nat (length (segments h)).
Proof. intros (H1 & H2 & _). unfold segments. rewrite length_take. lia. Qed.

(** The header of a successful insertion. *)
Definition insert_header (h : scrap_header) (out : list scrap_entry) : scrap_header :=
  {| counter := seg_total out; ssd_id := ssd_id h; number := Z.of_nat (length out);
     tag := tag h; entries := out ++ drop (length out) (entries h) |}.

Lemma coalesce_insert_eq h off len :
  header_wf h -> 0 <= off -> 0 < len -> off + len <= NOX_DATAZONE_SIZE ->
  let out := seg_insert (segments h) off len in
  coalesce_insert h off len =
    if Z.of_nat (length out) <=? NOX_MAX_ENTRIES
    then (SCRAP_OK, insert_header h out) else (SCRAP_OVERFLOW, h).
Proof.
  intros Hwf Hoff Hlen Hend out. pose proof NOX_MAX_ENTRIES_range as Hmax.
  pose proof (number_length h Hwf) as Hnum. destruct Hwf as (Hel & Hn & Hsw & Hct).
  pose proof (seg_insert_spec _ off len Hsw Hoff Hlen Hend) as [Hout _].
  pose proof (ci_total_eq 0 0 _ ltac:(lia) ltac:(lia) Hout ltac:(lia)) as [Htot _].
  subst out. unfold seg_insert, coalesce_insert in *.
  rewrite (u32_small (off + len)) by sz.
  pose proof (ci_before_spec 0 off _ ltac:(lia) Hsw) as Hb.
  destruct (ci_before off (segments h)) as [before rest].
  destruct Hb as (Hsplit & Hhi & Hr). rewrite Hsplit in Hsw. apply segs_wf_app in Hsw as [Hwb Hwr].
  pose proof (segs_hi_le _ _ Hwb) as Hge.
  pose proof (ci_absorb_spec (segs_hi 0 before) off (off + len) rest ltac:(lia) Hwr ltac:(lia) Hend Hr) as Ha.
  destruct (ci_absorb off (off + len) rest) as [[no ne] after]. destruct Ha as (H1 & H2 & _).
  set (out := before ++ mk_entry no (ne - no) :: after) in *.
  rewrite (u32_small (ne - no)) by sz.
  assert (Hbl : Z.of_nat (length before) <= number h)
    by (rewrite Hnum, Hsplit, length_app; lia).
  destruct (_ <=? Z.of_nat (length before)) eqn:E1; [contra_lia|].
  assert (Hol : Z.of_nat (length out) = Z.of_nat (length before) + 1 + Z.of_nat (length after))
    by (unfold out; rewrite length_app; cbn; lia).
  rewrite ci_after_eq by lia.
  destruct (_ + Z.of_nat (length after) <=? _) eqn:E2; fold out.
  - rewrite Z.ltb_antisym. destruct (Z.of_nat (length out) <=? _) eqn:E4; cbn; [|done].
    unfold insert_header. rewrite Htot, u8_small, Z.add_0_l by lia. done.
  - destruct (Z.of_nat (length out) <=? _) eqn:E4; [contra_lia|done].
Qed.

Lemma insert_header_wf h out :
  header_wf h -> segs_wf 0 out -> Z.of_nat (length out) <= NOX_MAX_ENTRIES ->
  header_wf (insert_header h out) /\ segments (insert_header h out) = out.
Proof.
  intros (Hel & Hn & _) Hout Hle.
  assert (Hseg : segments (insert_header h out) = out) by (by apply segments_take).
  split; [|done]. unfold header_wf. rewrite Hseg. cbn [insert_header entries number counter].
  rewrite length_app, length_drop. split_and!; try done; lia.
Qed.

End Coalesce.

(** ** Canonicity: a well-formed list is determined by the bytes it covers *)

Lemma segs_wf_head_first lo e es x :
  segs_wf lo (e :: es) -> covers (e :: es) x -> e_offset e <= x.
Proof.
  cbn. intros (H1 & H2 & H3 & H4) [?|Hc]%covers_cons; [lia|].
  eapply segs_wf_covers in Hc; [|done]. lia.
Qed.

Lemma segs_wf_head_end lo e es :
  segs_wf lo (e :: es) -> ~ covers (e :: es) (e_offset e + e_size e).
Proof.
  cbn. intros (H1 & H2 & H3 & H4) [?|Hc]%covers_cons; [lia|].
  eapply segs_wf_covers in Hc; [|done]. lia.
Qed.

Lemma segs_wf_head_eq lo e es d ds :
  segs_wf lo (e :: es) -> segs_wf lo (d :: ds) ->
  (forall x, covers (e :: es) x <-> covers (d :: ds) x) -> e = d.
Proof.
  intros He Hd Hc.
  assert (Hoff : e_offset e = e_offset d).
  { assert (covers (e :: es) (e_offset e)) as H1 by (rewrite covers_cons; cbn in He; lia).
    assert (covers (d :: ds) (e_offset d)) as H2 by (rewrite covers_cons; cbn in Hd; lia).
    rewrite Hc in H1. rewrite <- Hc in H2.
    apply (segs_wf_head_first _ _ _ _ Hd) in H1. apply (segs_wf_head_first _ _ _ _ He) in H2. lia. }
  pose proof (segs_wf_head_end _ _ _ He) as E1. pose proof (segs_wf_head_end _ _ _ Hd) as E2.
  rewrite Hc, covers_cons in E1. rewrite <- Hc, covers_cons in E2.
  cbn in He, Hd. destruct e, d; cbn in *. f_equal; lia.
Qed.

Lemma segs_wf_canonical lo es ds :
  segs_wf lo es -> segs_wf lo ds -> (forall x, covers es x <-> covers ds x) -> es = ds.
Proof.
  revert lo ds. induction es as [|e es IH]; intros lo [|d ds] He Hd Hc; [done|..].
  - exfalso. apply (covers_nil (e_offset d)), Hc, covers_cons. cbn in Hd. lia.
  - exfalso. apply (covers_nil (e_offset e)), Hc, covers_cons. cbn in He. lia.
  - assert (e = d) as -> by (eapply segs_wf_head_eq; eauto). f_equal.
    cbn in He, Hd. destruct He as (?&?&?&He), Hd as (_&_&_&Hd).
    eapply IH; [exact He|exact Hd|]. intros x. specialize (Hc x). rewrite !covers_cons in Hc.
    split; intros Hx; [apply (segs_wf_covers _ _ _ He) in Hx as ?
                      |apply (segs_wf_covers _ _ _ Hd) in Hx as ?];
      destruct Hc as [Hc1 Hc2]; [destruct Hc1|destruct Hc2]; auto; lia.
Qed.

(** ** Byte counts and fullness *)

Definition full_zone : list scrap_entry := [mk_entry 0 NOX_DATAZONE_SIZE].

Lemma full_zone_wf : segs_wf 0 full_zone.
Proof. cbn. sz. Qed.

Lemma full_zone_covers x : covers full_zone x <-> 0 <= x < NOX_DATAZONE_SIZE.
Proof. unfold full_zone. rewrite covers_cons, covers_nil. cbn. intuition lia. Qed.

Lemma seg_total_nonneg lo es : segs_wf lo es -> 0 <= seg_total es /\ (seg_total es = 0 -> es = []).
Proof.
  revert lo. induction es as [|e es IH]; intros lo; cbn; [auto with lia|].
  intros (?&?&?&Hr). apply IH in Hr as [? _]. lia.
Qed.

Lemma seg_total_bound lo es :
  0 <= lo -> segs_wf lo es -> es <> [] -> lo + seg_total es <= NOX_DATAZONE_SIZE.
Proof.
  revert lo. induction es as [|e es IH]; intros lo Hlo; cbn; [done|].
  intros (?&?&?&Hr) _. destruct es as [|d es]; [cbn; lia|].
  apply IH in Hr; [lia..|done].
Qed.

Lemma seg_total_full_zone es :
  segs_wf 0 es -> seg_total es = NOX_DATAZONE_SIZE -> es = full_zone.
Proof.
  destruct es as [|e es]; cbn; [sz|]. intros (?&?&?&Hr) Ht.
  destruct es as [|d es].
  - destruct e as [o s]; unfold full_zone; cbn in *. repeat f_equal; lia.
  - apply seg_total_bound in Hr; [lia..|done].
Qed.

Lemma full_iff_covers es :
  segs_wf 0 es ->
  seg_total es = NOX_DATAZONE_SIZE <-> (forall x, 0 <= x < NOX_DATAZONE_SIZE -> covers es x).
Proof.
  intros Hwf. split.
  - intros ->%seg_total_full_zone x Hx; [|done]. by apply full_zone_covers.
  - intros Hall. assert (es = full_zone) as ->; [|cbn; lia].
    eapply segs_wf_canonical; [done|apply full_zone_wf|]. intros x. rewrite full_zone_covers.
    split; [by eapply segs_wf_covers|auto].
Qed.

(** The number of positions of [lo, lo + n) that [es] covers. *)
Definition covered_count (es : list scrap_entry) (lo n : Z) : Z :=
  Z.of_nat (length (filter (covers es) (seqZ lo n))).

Lemma covered_count_split es lo n m :
  0 <= n -> 0 <= m ->
  covered_count es lo (n + m) = covered_count es lo n + covered_count es (lo + n) m.
Proof.
  intros. unfold covered_count. rewrite seqZ_app, filter_app, length_app by lia. lia.
Qed.

Lemma filter_length_all {A} (P : A -> Prop) `{forall x, Decision (P x)} (l : list A) :
  (forall x, x ∈ l -> P x) -> length (filter P l) = length l.
Proof.
  induction l as [|a l IH]; intros Hl; [done|].
  rewrite filter_cons_True by set_solver. cbn. rewrite IH; set_solver.
Qed.

Lemma filter_length_none {A} (P : A -> Prop) `{forall x, Decision (P x)} (l : list A) :
  (forall x, x ∈ l -> ~ P x) -> length (filter P l) = 0%nat.
Proof.
  induction l as [|a l IH]; intros Hl; [done|].
  rewrite filter_cons_False by set_solver. apply IH. set_solver.
Qed.

Lemma filter_ext_in {A} (P Q : A -> Prop) `{forall x, Decision (P x), forall x, Decision (Q x)}
    (l : list A) :
  (forall x, x ∈ l -> P x <-> Q x) -> filter P l = filter Q l.
Proof.
  induction l as [|a l IH]; intros Hl; [done|].
  assert (filter P l = filter Q l) as E by (apply IH; set_solver).
  rewrite !filter_cons, E. pose proof (Hl a ltac:(set_solver)).
  repeat case_decide; tauto || done.
Qed.

Lemma covered_count_all es lo n :
  0 <= n -> (forall x, lo <= x < lo + n -> covers es x) -> covered_count es lo n = n.
Proof.
  intros Hn Hc. unfold covered_count. rewrite filter_length_all, length_seqZ; [lia|].
  intros x Hx%elem_of_seqZ. apply Hc. lia.
Qed.

Lemma covered_count_none es lo n :
  (forall x, lo <= x < lo + n -> ~ covers es x) -> covered_count es lo n = 0.
Proof.
  intros Hc. unfold covered_count. rewrite filter_length_none; [done|].
  intros x Hx%elem_of_seqZ. apply Hc. lia.
Qed.

Lemma covered_count_ext es ds lo n :
  (forall x, lo <= x < lo + n -> covers es x <-> covers ds x) ->
  covered_count es lo n = covered_count ds lo n.
Proof.
  intros Hc. unfold covered_count. do 2 f_equal. apply filter_ext_in.
  intros x Hx%elem_of_seqZ. apply Hc. lia.
Qed.

Lemma covered_count_total lo es :
  0 <= lo <= NOX_DATAZONE_SIZE -> segs_wf lo es ->
  covered_count es lo (NOX_DATAZONE_SIZE - lo) = seg_total es.
Proof.
  revert lo. induction es as [|e es IH]; intros lo Hlo Hwf.
  { apply covered_count_none. intros x _ Hc. by apply covers_nil in Hc. }
  pose proof Hwf as Hwf0. destruct Hwf as (H1 & H2 & H3 & H4).
  assert (Hwe : segs_wf (e_offset e + e_size e) es) by (eapply segs_wf_weaken; [|exact H4]; lia).
  replace (NOX_DATAZONE_SIZE - lo) with ((e_offset e - lo) + (e_size e +
    (NOX_DATAZONE_SIZE - (e_offset e + e_size e)))) by lia.
  rewrite !covered_count_split by lia. replace (lo + (e_offset e - lo)) with (e_offset e) by lia.
  rewrite (covered_count_none _ lo), (covered_count_all _ (e_offset e)).
  - rewrite (covered_count_ext _ es), IH; [cbn; lia | lia | done |].
    intros x Hx. rewrite covers_cons. intuition lia.
  - lia.
  - intros x Hx. apply covers_cons. lia.
  - intros x Hx Hc. eapply segs_wf_head_first in Hc; [|exact Hwf0]. lia.
Qed.

(** ** Holes: the complement of the segments *)

Fixpoint gaps (cursor : Z) (es : list scrap_entry) : list scrap_entry :=
  match es with
  | e :: r =>
      (if cursor <? e_offset e then [mk_entry cursor (e_offset e - cursor)] else [])
        ++ gaps (e_offset e + e_size e) r
  | [] => if cursor <? NOX_DATAZONE_SIZE
          then [mk_entry cursor (NOX_DATAZONE_SIZE - cursor)] else []
  end.

Lemma segs_wf_next e es :
  segs_wf (e_offset e + e_size e + 1) es -> segs_wf (e_offset e + e_size e) es.
Proof. apply segs_wf_weaken. lia. Qed.

#[local] Hint Resolve segs_wf_next : nox.

Lemma gaps_wf cursor es : 0 <= cursor -> segs_wf cursor es -> segs_wf cursor (gaps cursor es).
Proof.
  revert cursor. induction es as [|e es IH]; intros cursor Hc Hwf.
  - cbn. destruct (_ <? _) eqn:E; cbn; lia.
  - destruct Hwf as (H1 & H2 & H3 & H4). cbn [gaps].
    assert (segs_wf (e_offset e + e_size e) (gaps (e_offset e + e_size e) es)) as Hg
      by (apply IH; [lia|auto with nox]).
    destruct (_ <? _) eqn:E; cbn; split_and?; try lia;
      (eapply segs_wf_weaken; [|exact Hg]; lia).
Qed.

Lemma gaps_cover cursor es x :
  0 <= cursor -> segs_wf cursor es -> cursor <= x < NOX_DATAZONE_SIZE ->
  covers (gaps cursor es) x <-> ~ covers es x.
Proof.
  revert cursor. induction es as [|e es IH]; intros cursor Hc Hwf Hx.
  - cbn. destruct (_ <? _) eqn:E; [|lia]. rewrite covers_cons, !covers_nil. cbn. intuition lia.
  - destruct Hwf as (H1 & H2 & H3 & H4). cbn [gaps]. rewrite covers_app, covers_cons.
    destruct (decide (x < e_offset e + e_size e)) as [Hlt|Hge].
    + assert (~ covers es x) by (intros Hes; eapply segs_wf_covers in Hes; [|exact H4]; lia).
      assert (~ covers (gaps (e_offset e + e_size e) es) x).
      { intros Hg. eapply segs_wf_covers in Hg; [|apply gaps_wf; auto with nox; lia]. lia. }
      destruct (_ <? _) eqn:E; rewrite ?covers_cons, ?covers_nil; cbn; intuition lia.
    + rewrite IH; [|lia|auto with nox|lia].
      destruct (_ <? _) eqn:E; rewrite ?covers_cons, ?covers_nil; cbn; intuition lia.
Qed.

Lemma gaps_length cursor es : (length (gaps cursor es) <= S (length es))%nat.
Proof.
  revert cursor. induction es as [|e es IH]; intros cursor; cbn [gaps].
  - case_ifs; cbn; lia.
  - rewrite length_app. specialize (IH (e_offset e + e_size e)). case_ifs; cbn; lia.
Qed.

(** What [hole_ranges] returns from the state its walk ended in. *)
Definition hole_finish (max : Z) (st : list scrap_entry * option Z) : list scrap_entry :=
  match st with
  | (out, None) => out
  | (out, Some cursor) =>
      if (cursor <? NOX_DATAZONE_SIZE) && (Z.of_nat (length out) <? max)
      then out ++ [mk_entry cursor (u32 (NOX_DATAZONE_SIZE - cursor))]
      else out
  end.

Lemma hole_loop_eq max cursor es out :
  0 <= cursor -> segs_wf cursor es -> Z.of_nat (length out) <= max ->
  hole_finish max (hole_loop max cursor es out) = take (Z.to_nat max) (out ++ gaps cursor es).
Proof.
  revert cursor out. induction es as [|e es IH]; intros cursor out Hc Hwf Hlen.
  - cbn [hole_loop hole_finish gaps]. destruct (cursor <? _) eqn:E1; cbn [andb].
    + rewrite u32_small by sz. destruct (_ <? max) eqn:E2.
      * rewrite take_ge; [done|]. rewrite length_app. cbn. lia.
      * rewrite take_app_le, take_ge by lia. done.
    + rewrite app_nil_r, take_ge by lia. done.
  - destruct Hwf as (H1 & H2 & H3 & H4). cbn [hole_loop gaps].
    rewrite !(u32_small (e_offset e + e_size e)) by sz.
    destruct (cursor <? e_offset e) eqn:E1.
    + rewrite u32_small by sz. destruct (max <=? _) eqn:E2.
      * cbn [hole_finish]. rewrite take_app_le, take_ge by lia. done.
      * rewrite IH, <- app_assoc; [done|lia|auto with nox|]. rewrite length_app. cbn. lia.
    + rewrite IH; [done|lia|auto with nox|lia].
Qed.

Lemma hole_ranges_take `{NoxConfig} h max :
  header_wf h -> 0 <= max -> hole_ranges h max = take (Z.to_nat max) (gaps 0 (segments h)).
Proof.
  intros (_ & _ & Hwf & _) Hmax.
  exact (hole_loop_eq max 0 (segments h) [] ltac:(lia) Hwf Hmax).
Qed.

Lemma hole_ranges_eq `{NoxConfig} h :
  header_wf h -> hole_ranges h (NOX_MAX_ENTRIES + 1) = gaps 0 (segments h).
Proof.
  intros Hwf. pose proof NOX_MAX_ENTRIES_range. rewrite hole_ranges_take by (done || lia).
  apply take_ge. pose proof (gaps_length 0 (segments h)).
  pose proof (number_length h Hwf). destruct Hwf as (_ & Hn & _). lia.
Qed.

Lemma is_full_iff `{NoxConfig} h :
  header_wf h -> is_full h = true <-> segments h = full_zone.
Proof.
  intros (_ & _ & Hwf & Hc). unfold is_full. rewrite Z.eqb_eq, Hc. split.
  - by apply seg_total_full_zone.
  - intros ->. done.
Qed.

Lemma fresh_header_wf `{NoxConfig} ssd : header_wf (fresh_header ssd).
Proof.
  pose proof NOX_MAX_ENTRIES_range. unfold header_wf, segments. cbn.
  rewrite length_replicate. split_and!; try done; lia.
Qed.

Lemma collapse_header_wf `{NoxConfig} h :
  header_wf h -> header_wf (collapse_header h) /\ segments (collapse_header h) = full_zone.
Proof.
  intros (Hl & Hn & _). pose proof NOX_MAX_ENTRIES_range.
  assert (Hs : segments (collapse_header h) = full_zone).
  { unfold segments, collapse_header. cbn [number entries].
    destruct (entries h) as [|e es]; [cbn in Hl; lia|]. done. }
  split; [|done]. unfold header_wf. rewrite Hs. cbn [collapse_header entries number counter].
  rewrite length_insert. split_and!; [lia..|apply full_zone_wf|done].
Qed.

Lemma set_tag_wf `{NoxConfig} t h : header_wf h -> header_wf (set_tag t h).
Proof. done. Qed.

#[export] Hint Resolve fresh_header_wf set_tag_wf full_zone_wf : nox.

(** * Properties *)

(** C19: [coalesce_insert] keeps the entry array the canonical decomposition of the covered
    bytes. On success the new header is well formed (sorted, disjoint, non-adjacent
    segments inside the zone, [number] and [counter] exact), covers exactly the old bytes and
    the inserted range, and keeps [ssd_id] and [tag]. On overflow the header is untouched,
    and no well-formed segment list for that set of bytes fits the array at all. *)
Theorem coalesce_insert_correct `{NoxConfig} (h : scrap_header) (off len : Z) :
  header_wf h -> 0 <= off -> 0 < len -> off + len <= NOX_DATAZONE_SIZE ->
  let grown x := off <= x < off + len \/ covers (segments h) x in
  match coalesce_insert h off len with
  | (SCRAP_OK, h') =>
      header_wf h' /\ (forall x, covers (segments h') x <-> grown x) /\
      ssd_id h' = ssd_id h /\ tag h' = tag h
  | (SCRAP_OVERFLOW, h') =>
      h' = h /\
      forall es, segs_wf 0 es -> (forall x, covers es x <-> grown x) ->
                 NOX_MAX_ENTRIES < Z.of_nat (length es)
  end.
Proof.
  intros Hwf Hoff Hlen Hend grown. rewrite coalesce_insert_eq by done.
  destruct (seg_insert_spec (segments h) off len) as [Hins Hcov]; [apply Hwf|done..|].
  destruct (_ <=? _) eqn:E.
  - destruct (insert_header_wf h (seg_insert (segments h) off len)) as [Hw Hs]; [done..|lia|].
    rewrite Hs. done.
  - split; [done|]. intros es Hes Hc.
    rewrite (segs_wf_canonical 0 es (seg_insert (segments h) off len)); [lia|done..|].
    intros x. rewrite Hcov. apply Hc.
Qed.

(** A page that received two touching writes and one detached write. *)
Definition sample_header : scrap_header :=
  let ins o l h := (@coalesce_insert default_config h o l).2 in
  ins 9000 16 (ins 150 50 (ins 100 50 (@fresh_header default_config 0))).

Lemma sample_header_wf : @header_wf default_config sample_header.
Proof. vm_compute. intuition discriminate. Qed.

Lemma coalesce_insert_correct_witness :
  @coalesce_insert default_config sample_header 180 8820 =
    (SCRAP_OK, insert_header sample_header [mk_entry 100 8916]) /\
  (forall x, covers [mk_entry 100 8916] x <->
             180 <= x < 180 + 8820 \/ covers (segments sample_header) x).
Proof.
  pose proof (@coalesce_insert_correct default_config sample_header 180 8820
                sample_header_wf ltac:(lia) ltac:(lia) ltac:(sz)) as Hc.
  assert (@coalesce_insert default_config sample_header 180 8820 =
          (SCRAP_OK, insert_header sample_header [mk_entry 100 8916])) as E
    by (vm_compute; reflexivity).
  rewrite E in Hc. split; [exact E|]. exact (proj1 (proj2 Hc)).
Defined.

(** [counter] is the number of valid bytes of the page, so [scrap_page_is_full] answers
    yes exactly when every byte of the 256KB zone is covered; the entry array of a full page
    is then the single segment over the whole zone. *)
Theorem counter_counts_bytes `{NoxConfig} (h : scrap_header) :
  header_wf h ->
  counter h = covered_count (segments h) 0 NOX_DATAZONE_SIZE /\
  (is_full h = true <-> forall x, 0 <= x < NOX_DATAZONE_SIZE -> covers (segments h) x) /\
  (is_full h = true -> number h = 1 /\ segments h = full_zone).
Proof.
  intros Hwf. pose proof (is_full_iff h Hwf) as Hf. pose proof (number_length h Hwf) as Hn.
  destruct Hwf as (_ & _ & Hwf & Hc). split_and!.
  - rewrite Hc, <- (covered_count_total 0 (segments h)) by (done || sz). f_equal; lia.
  - rewrite <- full_iff_covers, <- Hc by done. apply Z.eqb_eq.
  - intros E. apply Hf in E. rewrite Hn, E. done.
Qed.

Lemma counter_counts_bytes_witness :
  counter sample_header = 116 /\
  covered_count (segments sample_header) 0 NOX_DATAZONE_SIZE = 116.
Proof.
  pose proof (@counter_counts_bytes default_config sample_header sample_header_wf) as [H _].
  split; [vm_compute; reflexivity | rewrite <- H; vm_compute; reflexivity].
Defined.

(** [scrap_page_hole_ranges] lists the complement of the segments. With room for [max]
    ranges it writes the first [max] holes; with the room its callers give it
    ([NOX_MAX_ENTRIES + 1]) it writes them all, sorted, disjoint and non-empty, and a byte of
    the zone is in a hole exactly when no segment covers it. A full page has no hole. *)
Lemma hole_ranges_complement `{NoxConfig} (h : scrap_header) (max : Z) :
  header_wf h -> 0 <= max ->
  let holes := hole_ranges h (NOX_MAX_ENTRIES + 1) in
  hole_ranges h max = take (Z.to_nat max) holes /\
  segs_wf 0 holes /\
  (forall x, 0 <= x < NOX_DATAZONE_SIZE -> covers holes x <-> ~ covers (segments h) x) /\
  (holes = [] <-> is_full h = true).
Proof.
  intros Hwf Hmax holes. unfold holes. rewrite hole_ranges_eq, hole_ranges_take by done.
  pose proof (is_full_iff h Hwf) as Hf. destruct Hwf as (_ & _ & Hwf & _).
  pose proof (gaps_cover 0 (segments h)) as Hg. split_and!; [done|..].
  - by apply gaps_wf.
  - intros x Hx. by apply Hg.
  - rewrite Hf. split; [|by intros ->]. intros E. rewrite E in Hg.
    apply (segs_wf_canonical 0); [done|apply full_zone_wf|]. intros x. rewrite full_zone_covers.
    split; [by eapply segs_wf_covers|]. intros Hx. destruct (decide (covers (segments h) x)); [done|].
    exfalso. apply (covers_nil x), Hg; [lia|done..].
Qed.

Lemma hole_ranges_complement_witness :
  hole_ranges sample_header 2 = [mk_entry 0 100; mk_entry 200 8800] /\
  take 2 (hole_ranges sample_header 65) =
    [mk_entry 0 100; mk_entry 200 8800].
Proof.
  pose proof (@hole_ranges_complement default_config sample_header 2
                sample_header_wf ltac:(lia)) as [H _].
  split; [vm_compute; reflexivity|].
  change 2%nat with (Z.to_nat 2). etransitivity; [symmetry; exact H|]. vm_compute. reflexivity.
Defined.
