(* ===== verification/IoDirect.v ===== *)
(** The O_DIRECT layer of [src/src/io_direct.c]: positioned reads and writes, the bounce
    buffer, and the resuming gather write [io_direct_pwritev_all].

    The kernel is a parameter: the class [Posix] is the interface of the system calls the
    layer issues on its one open file, the class [PosixLaws] states the documented behaviour
    the engine relies on, and [mem_file] is a concrete file with a scripted kernel that
    satisfies the laws. *)
From stdpp Require Import base numbers list.
From Corelib Require Import Init.Byte.
From S2P Require Import Prelude Config.

(** * The system-call interface *)

Inductive errno := EINVAL | EINTR | ENOMEM | EIO | EOTHER (code : Z).
#[export] Instance errno_eq_dec : EqDecision errno.
Proof. solve_decision. Defined.

(** The [ssize_t] of a transfer: a byte count, or -1 with [errno] set. *)
Inductive sysret := SysOk (n : Z) | SysErr (e : errno).
#[export] Instance sysret_eq_dec : EqDecision sysret.
Proof. solve_decision. Defined.

(** [struct iovec]: the address of a source buffer, its bytes, and its length. *)
Record iovec := mk_iov { iov_base : Z; iov_data : buf; iov_len : Z }.

Fixpoint iov_total (iov : list iovec) : Z :=
  match iov with
  | v :: r => iov_len v + iov_total r
  | [] => 0
  end.

(** The bytes of the buffers, one after the other. *)
Fixpoint iov_gather (iov : list iovec) : buf :=
  match iov with
  | v :: r => fun i => if i <? iov_len v then iov_data v i else iov_gather r (i - iov_len v)
  | [] => fun _ => x00
  end.

(** The system calls on the open file. [pwrite(2)] is [pwritev(2)] of one buffer;
    [posix_memalign(3)] returns the address of a block or fails. *)
Class Posix (S : Type) := {
  file_byte : S -> Z -> byte;
  sys_pread : S -> Z -> Z -> sysret * buf * S;
  sys_pwritev : S -> list iovec -> Z -> sysret * S;
  posix_memalign : S -> Z -> Z -> option Z
}.

(** What the manual pages say of them and the engine relies on. A read past the end of the
    file is short, and a short read of a regular file means end of file, so that the bytes
    it did not return read as zero. A successful write stores a prefix of the gathered
    bytes; a failed one leaves every byte outside its range alone. *)
Class PosixLaws (S : Type) `{Posix S} := {
  pread_ok : forall s len off n b s',
    sys_pread s len off = (SysOk n, b, s') ->
    0 <= n <= len /\
    (forall i, 0 <= i < n -> b i = file_byte s (off + i)) /\
    (forall i, n <= i < len -> file_byte s (off + i) = x00) /\
    file_byte s' ≈ file_byte s;
  pread_err : forall s len off e b s',
    sys_pread s len off = (SysErr e, b, s') -> file_byte s' ≈ file_byte s;
  pwritev_ok : forall s iov off n s',
    sys_pwritev s iov off = (SysOk n, s') ->
    0 <= n <= iov_total iov /\ file_byte s' ≈ buf_put (file_byte s) off (iov_gather iov) n;
  pwritev_err : forall s iov off e s',
    sys_pwritev s iov off = (SysErr e, s') ->
    forall x, ~ (off <= x < off + iov_total iov) -> file_byte s' x = file_byte s x;
  memalign_ok : forall s align len a,
    posix_memalign s align len = Some a -> aligned align a
}.

(** The lines the layer prints to [stderr]. *)
Inductive io_op := OpPwrite | OpPread | OpPwritev.
Inductive diag :=
| DiagEinval (op : io_op) (off len addr : Z)
| DiagZeroWrite (off : Z)
| DiagShortWrite (w off : Z)
| DiagStalled (off : Z).

(** * Operations *)

(** The flags of [open(2)] on Linux and the mode 0644. *)
Definition O_RDWR : Z := 2.
Definition O_CREAT : Z := 64.
Definition O_DIRECT : Z := 16384.
Definition MODE_0644 : Z := 420.

(** [open]: the descriptor [open(2)] returns for flags and mode, or -1. *)
Definition io_direct_open (open : Z -> Z -> Z) : Z := open (Z.lor (Z.lor O_RDWR O_DIRECT) O_CREAT) MODE_0644.

Section Operations.
Context {S : Type} `{Posix S}.

(** The report printed when the kernel rejects a transfer with [EINVAL]. *)
Definition report_einval (e : errno) (op : io_op) (off len addr : Z) : list diag :=
  if decide (e = EINVAL) then [DiagEinval op off len addr] else [].

Definition io_direct_pwrite (s : S) (addr : Z) (b : buf) (len off : Z)
  : sysret * S * list diag :=
  let src := if NOX_IS_ALIGNED addr then Some addr
             else posix_memalign s NOX_BLOCK_SIZE len in
  match src with
  | None => (SysErr ENOMEM, s, [])
  | Some a =>
      match sys_pwritev s [mk_iov a b len] off with
      | (SysErr e, s') => (SysErr e, s', report_einval e OpPwrite off len addr)
      | (SysOk n, s') => (SysOk n, s', [])
      end
  end.

(** Reads into the buffer at [addr]; the buffer returned holds the bytes read. *)
Definition io_direct_pread (s : S) (addr len off : Z) : sysret * buf * S * list diag :=
  match sys_pread s len off with
  | (SysErr e, b, s') => (SysErr e, b, s', report_einval e OpPread off len addr)
  | (SysOk n, b, s') => (SysOk n, b, s', [])
  end.

Definition NOX_IO_MAX_STALL : Z := 4.

(** How many leading buffers [n] bytes fill, and the sum of their lengths. *)
Fixpoint iov_complete_count (iov : list iovec) (n : Z) : nat * Z :=
  match iov with
  | v :: r =>
      if iov_len v <=? n
      then let '(k, done) := iov_complete_count r (n - iov_len v) in
           (Datatypes.S k, iov_len v + done)
      else (0%nat, 0)
  | [] => (0%nat, 0)
  end.

(** The [while] loop of [io_direct_pwritev_all] on the buffers not yet complete; [None] is
    running out of fuel. *)
Fixpoint pwritev_loop (fuel : nat) (total : Z) (iov : list iovec) (cur_off stall : Z)
    (s : S) (log : list diag) : option (sysret * S * list diag) :=
  match fuel with
  | O => None
  | Datatypes.S fuel =>
      match iov with
      | [] => Some (SysOk total, s, log)
      | v :: _ =>
          match sys_pwritev s iov cur_off with
          | (SysErr e, s') =>
              if decide (e = EINTR) then
                if stall - 1 <? 0 then Some (SysErr EINTR, s', log)
                else pwritev_loop fuel total iov cur_off (stall - 1) s' log
              else Some (SysErr e, s', log ++ report_einval e OpPwritev cur_off total (iov_base v))
          | (SysOk w, s') =>
              if w =? 0 then Some (SysErr EIO, s', log ++ [DiagZeroWrite cur_off])
              else
                let log := if w mod NOX_BLOCK_SIZE =? 0 then log
                           else log ++ [DiagShortWrite w cur_off] in
                let '(k, done) := iov_complete_count iov w in
                if (k =? 0)%nat then
                  if stall - 1 <? 0 then Some (SysErr EIO, s', log ++ [DiagStalled cur_off])
                  else pwritev_loop fuel total iov cur_off (stall - 1) s' log
                else pwritev_loop fuel total (drop k iov) (s64 (cur_off + done))
                       NOX_IO_MAX_STALL s' log
          end
      end
  end.

(** Between two completions the loop makes at most [NOX_IO_MAX_STALL + 1] calls, so this
    much fuel covers every run. *)
Definition pwritev_fuel (iov : list iovec) : nat := Datatypes.S (5 * length iov).

Definition io_direct_pwritev_all (s : S) (iov : list iovec) (off : Z)
  : option (sysret * S * list diag) :=
  pwritev_loop (pwritev_fuel iov) (u64 (iov_total iov)) iov off NOX_IO_MAX_STALL s [].

Definition io_direct_pwrite_all (s : S) (addr : Z) (b : buf) (len off : Z)
  : option (sysret * S * list diag) :=
  io_direct_pwritev_all s [mk_iov addr b len] off.

End Operations.

(** * Lemmas on gathered buffers *)

Definition iov_wf (iov : list iovec) : Prop := Forall (fun v => 0 <= iov_len v) iov.

Lemma iov_total_nonneg iov : iov_wf iov -> 0 <= iov_total iov.
Proof. induction 1; cbn; lia. Qed.

Lemma iov_total_app iov1 iov2 : iov_total (iov1 ++ iov2) = iov_total iov1 + iov_total iov2.
Proof. induction iov1; cbn; lia. Qed.

Lemma iov_gather_app_r iov1 iov2 i :
  iov_wf iov1 -> 0 <= i -> iov_gather (iov1 ++ iov2) (iov_total iov1 + i) = iov_gather iov2 i.
Proof.
  intros Hwf Hi. induction Hwf as [|v iov1 Hv Hwf IH]; cbn; [done|].
  pose proof (iov_total_nonneg _ Hwf). destruct (_ <? _) eqn:E; [contra_lia|].
  rewrite <- IH. f_equal. lia.
Qed.

Lemma iov_complete_count_spec iov n :
  iov_wf iov -> 0 <= n ->
  let '(k, done) := iov_complete_count iov n in
  (k <= length iov)%nat /\ done = iov_total (take k iov) /\ 0 <= done <= n.
Proof.
  intros Hwf. revert n. induction Hwf as [|v iov Hv Hwf IH]; intros n Hn; cbn; [lia|].
  destruct (_ <=? n) eqn:E; [|cbn; lia]. specialize (IH (n - iov_len v) ltac:(lia)).
  destruct (iov_complete_count iov (n - iov_len v)) as [k done]. cbn. lia.
Qed.

(** * The resuming write *)

Section PwritevAll.
Context {S : Type} `{PosixLaws S}.

(** The file while the buffers [iov] are being written at [off] over the contents [f0]:
    everything up to [cur] is stored, nothing outside the range has changed. *)
Definition writing (f0 : buf) (off : Z) (iov : list iovec) (cur : Z) (f : buf) : Prop :=
  (forall x, off <= x < cur -> f x = iov_gather iov (x - off)) /\
  (forall x, ~ (off <= x < off + iov_total iov) -> f x = f0 x).

Lemma writing_done f0 off iov f :
  writing f0 off iov (off + iov_total iov) f ->
  f ≈ buf_put f0 off (iov_gather iov) (iov_total iov).
Proof.
  intros [H1 H2] x. destruct (decide (off <= x < off + iov_total iov)).
  - rewrite buf_put_in by done. auto.
  - rewrite buf_put_out by done. auto.
Qed.

Lemma writing_err f0 off pre iov s cur e s' :
  iov_wf pre -> iov_wf iov -> cur = off + iov_total pre ->
  writing f0 off (pre ++ iov) cur (file_byte s) ->
  sys_pwritev s iov cur = (SysErr e, s') ->
  writing f0 off (pre ++ iov) cur (file_byte s').
Proof.
  intros Hp Hi -> [H1 H2] Hs. apply iov_total_nonneg in Hp, Hi.
  pose proof (pwritev_err _ _ _ _ _ Hs) as Hx.
  split; intros x Hr; rewrite Hx; auto; rewrite ?iov_total_app in *; lia.
Qed.

Lemma writing_ok f0 off pre iov s cur w s' k :
  iov_wf pre -> iov_wf iov -> cur = off + iov_total pre ->
  writing f0 off (pre ++ iov) cur (file_byte s) ->
  sys_pwritev s iov cur = (SysOk w, s') ->
  iov_total (take k iov) <= w ->
  writing f0 off (pre ++ iov) (cur + iov_total (take k iov)) (file_byte s').
Proof.
  intros Hp Hi -> [H1 H2] Hs Hk. pose proof (iov_total_nonneg _ Hp).
  pose proof (iov_total_nonneg _ Hi).
  apply pwritev_ok in Hs as [Hw Hf]. split; intros x Hr; rewrite Hf.
  - destruct (decide (x < off + iov_total pre)).
    + rewrite buf_put_out by lia. auto with lia.
    + rewrite buf_put_in by lia. rewrite <- (iov_gather_app_r pre) by (done || lia).
      f_equal. lia.
  - rewrite iov_total_app in Hr. rewrite buf_put_out by lia. apply H2.
    rewrite iov_total_app. lia.
Qed.

Lemma pwritev_loop_spec fuel f0 off pre iov cur stall total s log :
  iov_wf pre -> iov_wf iov -> cur = off + iov_total pre ->
  0 <= off -> off + iov_total (pre ++ iov) < 2 ^ 63 -> 0 <= stall <= NOX_IO_MAX_STALL ->
  1 <= Z.of_nat fuel -> 5 * Z.of_nat (length iov) + stall - 3 <= Z.of_nat fuel ->
  writing f0 off (pre ++ iov) cur (file_byte s) ->
  exists r s' log', pwritev_loop fuel total iov cur stall s log = Some (r, s', log') /\
    match r with
    | SysOk n => n = total /\ writing f0 off (pre ++ iov) (off + iov_total (pre ++ iov)) (file_byte s')
    | SysErr _ => writing f0 off (pre ++ iov) off (file_byte s')
    end.
Proof.
  unfold NOX_IO_MAX_STALL.
  revert pre iov cur stall s log. induction fuel as [|fuel IH];
    intros pre iov cur stall s log Hp Hi -> Hoff Hend Hst Hf1 Hf2 Hw; [lia|].
  pose proof (iov_total_nonneg _ Hp) as Hpn. pose proof (iov_total_nonneg _ Hi) as Hin.
  rewrite iov_total_app in Hend.
  assert (Hweak : forall cur f, off <= cur -> writing f0 off (pre ++ iov) cur f ->
                                writing f0 off (pre ++ iov) off f)
    by (intros c f Hc [A B]; split; [intros; lia | exact B]).
  cbn [pwritev_loop]. destruct iov as [|v iov'] eqn:Eiov.
  { exists (SysOk total), s, log. split; [done|]. split; [done|].
    rewrite app_nil_r in Hw |- *. exact Hw. }
  rewrite <- Eiov in *. assert (Hlen : (1 <= length iov)%nat) by (subst; cbn; lia).
  destruct (sys_pwritev s iov (off + iov_total pre)) as [[w|e] s'] eqn:Es.
  - pose proof (pwritev_ok _ _ _ _ _ Es) as [Hwr _].
    assert (Hok := fun k => writing_ok f0 off pre iov s _ w s' k Hp Hi eq_refl Hw Es).
    destruct (w =? 0) eqn:Ew.
    { do 3 eexists. split; [done|]. apply (Hweak (off + iov_total pre)); [lia|].
      pose proof (Hok 0%nat) as Hk. rewrite take_0, Z.add_0_r in Hk. apply Hk. cbn. lia. }
    pose proof (iov_complete_count_spec iov w Hi ltac:(lia)) as Hc.
    destruct (iov_complete_count iov w) as [k done]. destruct Hc as (Hk1 & -> & Hk2).
    specialize (Hok k ltac:(lia)). destruct (k =? 0)%nat eqn:Ek.
    + apply Nat.eqb_eq in Ek as ->. rewrite take_0, Z.add_0_r in Hok.
      destruct (stall - 1 <? 0) eqn:Est.
      * do 3 eexists. split; [done|]. eapply Hweak; [|exact Hok]. lia.
      * apply IH; auto; try lia. rewrite iov_total_app. lia.
    + apply Nat.eqb_neq in Ek.
      assert (Hsplit : pre ++ iov = (pre ++ take k iov) ++ drop k iov)
        by (by rewrite <- app_assoc, take_drop).
      assert (Htd : iov_total (take k iov) + iov_total (drop k iov) = iov_total iov)
        by (by rewrite <- iov_total_app, take_drop).
      assert (Hwd : iov_wf (drop k iov)) by (by apply Forall_drop).
      pose proof (iov_total_nonneg _ Hwd).
      rewrite s64_small, Hsplit by lia. rewrite Hsplit in Hok.
      unfold NOX_IO_MAX_STALL.
      apply IH; auto; try (rewrite ?iov_total_app, ?length_drop; lia).
      apply Forall_app. split; [done|by apply Forall_take].
  - assert (Herr := writing_err f0 off pre iov s _ e s' Hp Hi eq_refl Hw Es).
    destruct (decide (e = EINTR)) as [->|].
    + destruct (stall - 1 <? 0) eqn:Est.
      * do 3 eexists. split; [done|]. eapply Hweak; [|exact Herr]. lia.
      * apply IH; auto; try lia. rewrite iov_total_app. lia.
    + do 3 eexists. split; [done|]. eapply Hweak; [|exact Herr]. lia.
Qed.

Lemma pwrite_spec s addr b len off w s' log :
  io_direct_pwrite s addr b len off = (w, s', log) ->
  match w with
  | SysOk n => 0 <= n <= len /\ file_byte s' ≈ buf_put (file_byte s) off b n
  | SysErr _ => forall x, ~ (off <= x < off + len) -> file_byte s' x = file_byte s x
  end.
Proof.
  unfold io_direct_pwrite. intros E.
  destruct (if NOX_IS_ALIGNED addr then _ else _) as [a0|]; [|by injection E as <- <- _].
  destruct (sys_pwritev _ _ _) as [[n|e] x1] eqn:Ew; injection E as <- <- _.
  - apply pwritev_ok in Ew as [Hn Ew]. cbn [iov_total iov_len] in Hn. split; [lia|]. rewrite Ew.
    intros y. unfold buf_put. destruct (in_range off n y) eqn:Ey; [|done].
    apply in_range_spec in Ey. cbn [iov_gather iov_len iov_data]. destruct (_ <? _) eqn:E2; [done|lia].
  - intros x Hx. apply (pwritev_err _ _ _ _ _ Ew). cbn [iov_total iov_len]. lia.
Qed.

Lemma pwritev_all_spec s iov off :
  iov_wf iov -> 0 <= off -> off + iov_total iov < 2 ^ 63 ->
  exists r s' log, io_direct_pwritev_all s iov off = Some (r, s', log) /\
    (forall x, ~ (off <= x < off + iov_total iov) -> file_byte s' x = file_byte s x) /\
    match r with
    | SysOk n => n = iov_total iov /\
                 file_byte s' ≈ buf_put (file_byte s) off (iov_gather iov) (iov_total iov)
    | SysErr _ => True
    end.
Proof.
  intros Hwf Hoff Hend. pose proof (iov_total_nonneg _ Hwf) as Hn.
  unfold io_direct_pwritev_all. rewrite u64_small by lia.
  destruct (pwritev_loop_spec (pwritev_fuel iov) (file_byte s) off [] iov off NOX_IO_MAX_STALL
    (iov_total iov) s []) as (r & s' & log & E & Hr); auto;
    unfold pwritev_fuel, NOX_IO_MAX_STALL; try lia; [by apply Forall_nil| cbn; lia | |].
  { split; [intros; lia|done]. }
  exists r, s', log. split; [done|]. destruct r as [n|e].
  - destruct Hr as [-> Hr]. split; [apply Hr|]. split; [done|]. by apply writing_done.
  - split; [apply Hr|done].
Qed.

End PwritevAll.

(** * A concrete file with a scripted kernel *)

Inductive outcome := Full | Short (n : Z) | Fail (e : errno).

(** The bytes of the file, its size, and what the next calls do. *)
Record mem_file := mk_file { mf_bytes : buf; mf_size : Z; mf_script : list outcome }.

Definition mf_byte (f : mem_file) (x : Z) : byte :=
  if in_range 0 (mf_size f) x then mf_bytes f x else x00.

Definition mf_next (f : mem_file) : outcome * list outcome :=
  match mf_script f with
  | o :: r => (o, r)
  | [] => (Full, [])
  end.

Definition mf_set_script (f : mem_file) (l : list outcome) : mem_file :=
  mk_file (mf_bytes f) (mf_size f) l.

Definition mf_pread (f : mem_file) (len off : Z) : sysret * buf * mem_file :=
  let '(o, l) := mf_next f in
  let f' := mf_set_script f l in
  match o with
  | Fail e => (SysErr e, fun _ => x00, f')
  | _ => if NOX_IS_ALIGNED len && NOX_IS_ALIGNED off && (0 <=? len) && (0 <=? off)
         then (SysOk (Z.max 0 (Z.min len (mf_size f - off))), fun i => mf_byte f (off + i), f')
         else (SysErr EINVAL, fun _ => x00, f')
  end.

Definition mf_store (f : mem_file) (iov : list iovec) (off n : Z) (l : list outcome) : mem_file :=
  mk_file (buf_put (mf_byte f) off (iov_gather iov) n) (Z.max (mf_size f) (off + n)) l.

Definition mf_iov_ok (iov : list iovec) : bool :=
  forallb (fun v => NOX_IS_ALIGNED (iov_base v) && NOX_IS_ALIGNED (iov_len v) &&
                    (0 <=? iov_len v)) iov.

Definition mf_pwritev (f : mem_file) (iov : list iovec) (off : Z) : sysret * mem_file :=
  let '(o, l) := mf_next f in
  if mf_iov_ok iov && NOX_IS_ALIGNED off && (0 <=? off) && (0 <=? iov_total iov) then
    match o with
    | Fail e => (SysErr e, mf_set_script f l)
    | Short n => let n := Z.max 0 (Z.min n (iov_total iov)) in (SysOk n, mf_store f iov off n l)
    | Full => (SysOk (iov_total iov), mf_store f iov off (iov_total iov) l)
    end
  else (SysErr EINVAL, mf_set_script f l).

(** The allocator of the concrete file hands out one aligned address. *)
#[export] Instance mem_file_posix : Posix mem_file := {
  file_byte := mf_byte;
  sys_pread := mf_pread;
  sys_pwritev := mf_pwritev;
  posix_memalign := fun _ align _ => Some (7 * align)
}.

Lemma mf_store_byte f iov off n l :
  0 <= off -> 0 <= n -> mf_byte (mf_store f iov off n l) ≈ buf_put (mf_byte f) off (iov_gather iov) n.
Proof.
  intros Hoff Hn x. unfold mf_byte at 1, mf_store. cbn [mf_size mf_bytes].
  destruct (in_range 0 _ x) eqn:E; [done|].
  rewrite buf_put_out; unfold mf_byte; [|unfold in_range in E; lia].
  destruct (in_range 0 (mf_size f) x) eqn:E2; [|done]. unfold in_range in *. lia.
Qed.

#[export] Instance mem_file_laws : PosixLaws mem_file.
Proof.
  split.
  - intros s len off n b s'. cbn. unfold mf_pread. destruct (mf_next s) as [o l].
    destruct (_ && (0 <=? off)) eqn:E; destruct o; intros [= <- <- <-];
      (split_and!; try lia; try done); intros i Hi; unfold mf_byte, in_range;
      (destruct (_ && (_ <? _)) eqn:E2; [contra_lia|done]).
  - intros s len off e b s'. cbn. unfold mf_pread. destruct (mf_next s) as [o l].
    destruct o; repeat case_ifs; intros [= <- <- <-]; done.
  - intros s iov off n s'. cbn. unfold mf_pwritev. destruct (mf_next s) as [o l].
    destruct (_ && (0 <=? iov_total iov)) eqn:E; [|done].
    destruct o; intros [= <- <-]; (split; [lia|apply mf_store_byte; lia]).
  - intros s iov off e s'. cbn. unfold mf_pwritev. destruct (mf_next s) as [o l].
    destruct (_ && (0 <=? iov_total iov)) eqn:E; [destruct o|]; intros [= <- <-] x _; done.
  - intros s align len a. cbn. intros [= <-]. unfold aligned. apply Z_mod_mult.
Qed.

(** * Properties *)

(** C24: [io_direct_pwritev_all] always returns, within [5 * iovcnt] system calls whatever the
    kernel does (short writes, [EINTR], zero-byte writes). When it returns a count, the
    count is the total length and the file holds every byte of every buffer at its place,
    and nothing else changed; when it fails, no byte outside the range was touched. *)
Theorem pwritev_all_total {S : Type} `{PosixLaws S} (s : S) (iov : list iovec) (off : Z) :
  iov_wf iov -> 0 <= off -> off + iov_total iov < 2 ^ 63 ->
  exists r s' log, io_direct_pwritev_all s iov off = Some (r, s', log) /\
    (forall x, ~ (off <= x < off + iov_total iov) -> file_byte s' x = file_byte s x) /\
    match r with
    | SysOk n => n = iov_total iov /\
                 file_byte s' ≈ buf_put (file_byte s) off (iov_gather iov) (iov_total iov)
    | SysErr _ => True
    end.
Proof. apply pwritev_all_spec. Qed.

(** Two blocks written through an interrupted call and a write cut inside the second block. *)
Definition sample_iov : list iovec :=
  [mk_iov 4096 (fun _ => x01) 4096; mk_iov 8192 (fun _ => x02) 4096].

Definition sample_file : mem_file := mk_file (fun _ => x07) 20480 [Fail EINTR; Short 6144; Full].

Lemma pwritev_all_total_witness :
  (io_direct_pwritev_all sample_file sample_iov 4096 ≫= fun '(r, s', log) =>
     Some (r, log, map (file_byte s') [4095; 4096; 8191; 8192; 12287; 12288])) =
  Some (SysOk 8192, [DiagShortWrite 6144 4096], [x07; x01; x01; x02; x02; x07]) /\
  exists r s' log, io_direct_pwritev_all sample_file sample_iov 4096 = Some (r, s', log) /\
    forall x, ~ (4096 <= x < 4096 + 8192) -> file_byte s' x = file_byte sample_file x.
Proof.
  split; [vm_compute; reflexivity|].
  destruct (pwritev_all_total sample_file sample_iov 4096) as (r & s' & log & E & Hout & _);
    [repeat constructor; cbn; lia | lia | cbn; lia |].
  exists r, s', log. split; [exact E|exact Hout].
Defined.
