(* ===== verification/PwritevToy.v ===== *)
(** The study program [src/bench/pwritev_toy.c]: the short-write fixup before it was moved into
    [src/src/io_direct.c], over an injected writer, with the scripted fake writer of its unit
    test. The engine's routine is shown to be the same function, and the unit test (part C) to
    pass. *)
From stdpp Require Import base numbers list.
From Corelib Require Import Init.Byte.
From S2P Require Import Prelude Config IoDirect.

Definition TOY_MAX_IOV : Z := 8.
Definition TOY_NBUF : nat := 3.
Definition TOY_BUFLEN : Z := NOX_DATAZONE_SIZE.
Definition TOY_TOTAL : Z := Z.of_nat TOY_NBUF * TOY_BUFLEN.
Definition TOY_MAX_STALL : Z := 4.

(** * The fixup *)

(** The loop of the toy's [iov_complete_count], with its three variables. *)
Fixpoint complete_loop (iov : list iovec) (n done : Z) (k : nat) : nat * Z :=
  match iov with
  | v :: r => if iov_len v <=? n then complete_loop r (n - iov_len v) (done + iov_len v) (S k)
              else (k, done)
  | [] => (k, done)
  end.

Definition toy_iov_complete_count (iov : list iovec) (n : Z) : nat * Z := complete_loop iov n 0 0.

(** The lines the toy prints to [stderr]. *)
Inductive toy_diag :=
| ToyEintrStorm
| ToyEinval (off : Z) (iov : list iovec)
| ToyZeroWrite (off : Z)
| ToyShortWrite (w off : Z)
| ToyStuck (off : Z).

Section PwritevAll.
Context {C : Type} (wr : C -> list iovec -> Z -> sysret * C).

(** The [while] loop: [i] is the first buffer not yet fully written. [None] is running out of
    fuel. *)
Fixpoint toy_loop (fuel : nat) (total : Z) (iov : list iovec) (i : nat) (cur_off stall : Z)
    (c : C) (log : list toy_diag) : option (sysret * C * list toy_diag) :=
  match fuel with
  | O => None
  | S fuel =>
      if (i <? length iov)%nat then
        match wr c (drop i iov) cur_off with
        | (SysErr e, c) =>
            if decide (e = EINTR) then
              if stall - 1 <? 0 then Some (SysErr EINTR, c, log ++ [ToyEintrStorm])
              else toy_loop fuel total iov i cur_off (stall - 1) c log
            else Some (SysErr e, c,
                       if decide (e = EINVAL) then log ++ [ToyEinval cur_off (drop i iov)] else log)
        | (SysOk w, c) =>
            if w =? 0 then Some (SysErr EIO, c, log ++ [ToyZeroWrite cur_off])
            else
              let log := if w mod NOX_BLOCK_SIZE =? 0 then log
                         else log ++ [ToyShortWrite w cur_off] in
              let '(k, done) := toy_iov_complete_count (drop i iov) w in
              if (k =? 0)%nat then
                if stall - 1 <? 0 then Some (SysErr EIO, c, log ++ [ToyStuck cur_off])
                else toy_loop fuel total iov i cur_off (stall - 1) c log
              else toy_loop fuel total iov (i + k) (s64 (cur_off + done)) TOY_MAX_STALL c log
        end
      else Some (SysOk total, c, log)
  end.

Definition pwritev_all (c : C) (iov : list iovec) (off : Z) : option (sysret * C * list toy_diag) :=
  toy_loop (S (5 * length iov)) (u64 (iov_total iov)) iov 0 off TOY_MAX_STALL c [].

End PwritevAll.

(** * The fake writer *)

(** [repeat_last]: past the script, keep replaying its last entry. [seen] holds the offset and
    the buffer count of the first sixteen calls. *)
Record canned_t := mk_canned { cn_ret : Z; cn_err : errno }.
Record fake_t := mk_fake {
  fk_disk : buf;
  fk_disk_len : Z;
  fk_script : list canned_t;
  fk_repeat_last : bool;
  fk_calls : nat;
  fk_seen : list (Z * nat)
}.

(** The copy loop: [left] bytes still to store at [pos]. *)
Fixpoint fake_gather (disk_len : Z) (iov : list iovec) (left pos : Z) (disk : buf) : buf :=
  match iov with
  | [] => disk
  | v :: r =>
      if 0 <? left then
        let chunk := if iov_len v <? left then iov_len v else left in
        let disk := if pos + chunk <=? disk_len then buf_put disk pos (iov_data v) chunk else disk in
        fake_gather disk_len r (left - chunk) (pos + chunk) disk
      else disk
  end.

Definition fake_pwritev (f : fake_t) (iov : list iovec) (off : Z) : sysret * fake_t :=
  let total := iov_total iov in
  let full := mk_canned total (EOTHER 0) in
  let c := match fk_script f !! fk_calls f with
           | Some c => c
           | None => if fk_repeat_last f then default full (last (fk_script f)) else full
           end in
  let seen := if (fk_calls f <? 16)%nat then fk_seen f ++ [(off, length iov)] else fk_seen f in
  let step disk := mk_fake disk (fk_disk_len f) (fk_script f) (fk_repeat_last f)
                     (S (fk_calls f)) seen in
  if cn_ret c <? 0 then (SysErr (cn_err c), step (fk_disk f))
  else
    let n := if total <? cn_ret c then total else cn_ret c in
    (SysOk n, step (fake_gather (fk_disk_len f) iov n off (fk_disk f))).

(** * The tests *)

Definition fill_pattern (which : Z) : buf :=
  fun j => byte_of (u8 (0x10 * (which + 1) + Z.land j 0x0F)).

(** The test buffers at the addresses [alloc_zone] returned, as [ARM] sets them up. *)
Definition arm (addrs : list Z) : list iovec :=
  imap (fun b a => mk_iov a (fill_pattern (Z.of_nat b)) TOY_BUFLEN) (take TOY_NBUF addrs).

(** The expected image: the buffers copied one after the other. *)
Definition expect_image (junk : buf) : buf :=
  foldl (fun e b => buf_put e (Z.of_nat b * TOY_BUFLEN) (fill_pattern (Z.of_nat b)) TOY_BUFLEN) junk
    (seq 0 TOY_NBUF).

Section PartC.
Context (addrs : list Z) (junk : buf).

Definition fresh_fake (script : list canned_t) (repeat_last : bool) : fake_t :=
  mk_fake (fun _ => xaa) TOY_TOTAL script repeat_last 0 [].

Definition run_case (script : list canned_t) (repeat_last : bool) : option (sysret * fake_t) :=
  '(rc, f, _) ← pwritev_all fake_pwritev (fresh_fake script repeat_last) (arm addrs) 0;
  Some (rc, f).

Definition identical (f : fake_t) : bool :=
  memcmp_eq (fk_disk f) (expect_image junk) (Z.to_nat TOY_TOTAL).
Definition completes (rc : sysret) : bool := bool_decide (rc = SysOk TOY_TOTAL).
Definition fails (rc : sysret) : bool := match rc with SysErr _ => true | SysOk _ => false end.
Definition resumes (f : fake_t) (k : nat) (off : Z) (cnt : nat) : bool :=
  bool_decide (fk_seen f !! k = Some (off, cnt)).

(** The seven cases of [part_c], each with its checks; [resumes] is the pair of checks on the
    offset and the buffer count of a call. The check that the buffers are untouched has no
    counterpart: they are not part of the state. *)
Definition case_c1 := '(rc, f) ← run_case [] false;
  Some [completes rc; (fk_calls f =? 1)%nat; identical f].
Definition case_c2 := '(rc, f) ← run_case [mk_canned TOY_BUFLEN (EOTHER 0)] false;
  Some [completes rc; (fk_calls f =? 2)%nat; resumes f 1 TOY_BUFLEN (TOY_NBUF - 1); identical f].
Definition case_c3 := '(rc, f) ← run_case [mk_canned (700 * 1024) (EOTHER 0)] false;
  Some [completes rc; (fk_calls f =? 2)%nat; resumes f 1 (2 * TOY_BUFLEN) 1; identical f].
Definition case_c4 := '(rc, f) ← run_case [mk_canned 100003 (EOTHER 0)] false;
  Some [completes rc; (fk_calls f =? 2)%nat; resumes f 1 0 TOY_NBUF; identical f].
Definition case_c5 := '(rc, f) ← run_case [mk_canned 0 (EOTHER 0)] true;
  Some [fails rc; (fk_calls f =? 1)%nat].
Definition case_c6 := '(rc, f) ← run_case [mk_canned 1000 (EOTHER 0)] true;
  Some [fails rc; (Z.of_nat (fk_calls f) =? TOY_MAX_STALL + 1)].
Definition case_c7 := '(rc, f) ← run_case [mk_canned (-1) EINTR] false;
  Some [completes rc; (fk_calls f =? 2)%nat; identical f].

(** The checks of [part_c], in order. *)
Definition part_c : option (list bool) :=
  c1 ← case_c1; c2 ← case_c2; c3 ← case_c3; c4 ← case_c4; c5 ← case_c5; c6 ← case_c6;
  c7 ← case_c7; Some (c1 ++ c2 ++ c3 ++ c4 ++ c5 ++ c6 ++ c7).

End PartC.

(** Parts A and B on a real file: one gather write read back and compared, and a gather write
    whose lengths are aligned only in total. *)
Section PartAB.
Context {S : Type} `{Posix S} (addrs : list Z) (junk : buf).

Definition part_a (s : S) : list bool * S :=
  let '(w, s) := sys_pwritev s (arm addrs) 0 in
  let '(r, rb, s) := sys_pread s TOY_TOTAL 0 in
  ([completes w; completes r; memcmp_eq rb (expect_image junk) (Z.to_nat TOY_TOTAL)], s).

Definition torn (l0 l1 l2 : Z) : list iovec :=
  zip_with (fun v l => mk_iov (iov_base v) (iov_data v) l) (arm addrs) [l0; l1; l2].

Definition part_b1 (s : S) : list bool * S :=
  let '(w, s) := sys_pwritev s (torn 4097 4095 4096) (1024 * 1024) in
  ([bool_decide (w = SysErr EINVAL)], s).

(** What the probe of the device's alignment unit prints. *)
Inductive block_info := Info4Kn | Info512e (n : Z) | InfoUnexpected (e : errno).

Definition part_b2 (s : S) : block_info * S :=
  let '(w, s) := sys_pwritev s (torn (4096 + 512) (4096 - 512) 4096) (2 * 1024 * 1024) in
  (match w with
   | SysErr e => if decide (e = EINVAL) then Info4Kn else InfoUnexpected e
   | SysOk n => Info512e n
   end, s).

Definition part_a_b (s : S) : list bool * block_info * S :=
  let '(ca, s) := part_a s in
  let '(cb, s) := part_b1 s in
  let '(i, s) := part_b2 s in
  (ca ++ cb, i, s).

End PartAB.

(** [main]: the exit code from the checks. *)
Definition toy_exit (checks : list bool) : Z := if forallb id checks then 0 else 1.

(** * The engine's routine is the toy's *)

Lemma complete_loop_eq iov n done k :
  complete_loop iov n done k =
    let '(k', d') := iov_complete_count iov n in ((k + k')%nat, done + d').
Proof.
  revert n done k. induction iov as [|v iov IH]; intros n done k; cbn.
  - f_equal; lia.
  - destruct (iov_len v <=? n); [|f_equal; lia]. rewrite IH.
    destruct (iov_complete_count iov (n - iov_len v)) as [k' d']. f_equal; lia.
Qed.

Lemma toy_count_eq iov n : toy_iov_complete_count iov n = iov_complete_count iov n.
Proof. unfold toy_iov_complete_count. rewrite complete_loop_eq. by destruct (iov_complete_count _ _). Qed.

Lemma complete_count_le iov n : ((iov_complete_count iov n).1 <= length iov)%nat.
Proof.
  revert n. induction iov as [|v iov IH]; intros n; cbn; [lia|].
  destruct (iov_len v <=? n); cbn; [|lia]. specialize (IH (n - iov_len v)).
  destruct (iov_complete_count _ _). cbn in *. lia.
Qed.

(** The result and the state, without the printed lines. *)
Definition outcome_of {A B D} (x : A * B * D) : A * B := x.1.

Lemma toy_loop_eq {S} `{Posix S} fuel total iov i cur stall (s : S) log log' :
  (i <= length iov)%nat ->
  outcome_of <$> toy_loop sys_pwritev fuel total iov i cur stall s log =
  outcome_of <$> pwritev_loop fuel total (drop i iov) cur stall s log'.
Proof.
  revert i cur stall s log log'. induction fuel as [|fuel IH]; intros i cur stall s log log' Hi; [done|].
  cbn [toy_loop pwritev_loop]. destruct (i <? length iov)%nat eqn:Ei.
  - destruct (drop i iov) as [|v r] eqn:Ed.
    { apply (f_equal length) in Ed. rewrite length_drop in Ed. cbn in Ed. lia. }
    rewrite <- Ed. destruct (sys_pwritev s (drop i iov) cur) as [[w|e] s'].
    + destruct (w =? 0); [done|]. rewrite toy_count_eq.
      pose proof (complete_count_le (drop i iov) w) as Hk. rewrite length_drop in Hk.
      destruct (iov_complete_count (drop i iov) w) as [k done]. cbn in Hk.
      destruct (k =? 0)%nat; [destruct (stall - 1 <? 0); [done|by apply IH]|].
      rewrite drop_drop. apply IH. lia.
    + destruct (decide (e = EINTR)); [|done]. destruct (stall - 1 <? 0); [done|by apply IH].
  - assert (drop i iov = []) as -> by (apply drop_ge; lia). done.
Qed.

(** C25: The engine's gather write is the study program's. On every kernel, every list of
    buffers and every offset, [io_direct_pwritev_all] returns what the toy's [pwritev_all]
    returns when it calls [pwritev], and leaves the file in the same state: the move into the
    engine changed only what is printed. *)
Theorem toy_equals_engine {S : Type} `{Posix S} (s : S) (iov : list iovec) (off : Z) :
  outcome_of <$> io_direct_pwritev_all s iov off = outcome_of <$> pwritev_all sys_pwritev s iov off.
Proof.
  unfold io_direct_pwritev_all, pwritev_all. symmetry.
  apply (toy_loop_eq _ _ _ 0). lia.
Qed.

(** * The fake writer obeys the laws *)

Lemma fake_gather_spec disk_len iov left pos disk :
  iov_wf iov -> 0 <= left <= iov_total iov -> pos + left <= disk_len ->
  fake_gather disk_len iov left pos disk ≈ buf_put disk pos (iov_gather iov) left.
Proof.
  intros Hw. revert left pos disk. induction Hw as [|v iov Hv Hw IH]; intros left pos disk Hl Hp;
    cbn [fake_gather iov_total] in *; [intros x; by rewrite buf_put_out by lia|].
  destruct (0 <? left) eqn:E0; [|intros x; by rewrite buf_put_out by lia].
  set (chunk := if iov_len v <? left then iov_len v else left).
  assert (Hc : 0 <= chunk <= left /\ chunk <= iov_len v /\ (left - chunk) <= iov_total iov /\
               (chunk = iov_len v \/ left - chunk = 0))
    by (subst chunk; pose proof (iov_total_nonneg _ Hw); destruct (iov_len v <? left) eqn:E; lia).
  destruct (pos + chunk <=? disk_len) eqn:E; [|lia]. rewrite IH by lia. intros x.
  destruct (decide (pos <= x < pos + left)) as [Hx|Hx].
  - rewrite (buf_put_in disk pos (iov_gather (v :: iov))) by lia. cbn [iov_gather].
    destruct (decide (x < pos + chunk)).
    + rewrite buf_put_out, buf_put_in by lia. destruct (x - pos <? iov_len v) eqn:E2; [done|lia].
    + rewrite buf_put_in by lia. destruct (x - pos <? iov_len v) eqn:E2; [lia|]. f_equal. lia.
  - rewrite !buf_put_out by lia. done.
Qed.

(** The image of the fake disk, and its writer where the range fits. *)
Definition fake_byte (f : fake_t) (x : Z) : byte :=
  if in_range 0 (fk_disk_len f) x then fk_disk f x else x00.
Definition fits (f : fake_t) (iov : list iovec) (off : Z) : bool :=
  forallb (fun v => 0 <=? iov_len v) iov && (0 <=? off) && (off + iov_total iov <=? fk_disk_len f).

Definition fake_posix : Posix fake_t := {|
  file_byte := fake_byte;
  sys_pread := fun f _ _ => (SysErr EIO, fun _ => x00, f);
  sys_pwritev := fun f iov off => if fits f iov off then fake_pwritev f iov off else (SysErr EINVAL, f);
  posix_memalign := fun _ _ _ => None
|}.

Lemma fits_wf f iov off :
  fits f iov off = true -> iov_wf iov /\ 0 <= off /\ off + iov_total iov <= fk_disk_len f.
Proof.
  unfold fits. rewrite !andb_true_iff, forallb_forall. intros [[Hf Ho] He]. split; [|lia].
  apply Forall_forall. intros v Hv. apply list_elem_of_In, Hf in Hv. lia.
Qed.

Definition fake_laws : PosixLaws fake_t (H := fake_posix).
Proof.
  split; cbn.
  - done.
  - by intros s len off e b s' [= _ _ <-].
  - intros f iov off n f' E. destruct (fits f iov off) eqn:Ef; [|done].
    apply fits_wf in Ef as (Hw & Ho & He). unfold fake_pwritev in E.
    set (c := match fk_script f !! fk_calls f with Some c => c | None => _ end) in E.
    clearbody c. pose proof (iov_total_nonneg _ Hw). destruct (cn_ret c <? 0) eqn:Ec; [done|].
    injection E as <- <-. set (n := if iov_total iov <? cn_ret c then _ else _).
    assert (0 <= n <= iov_total iov) by (subst n; destruct (iov_total iov <? cn_ret c) eqn:E; lia).
    split; [done|]. intros x. unfold fake_byte. cbn [fk_disk fk_disk_len].
    rewrite (fake_gather_spec (fk_disk_len f) iov n off (fk_disk f) Hw ltac:(done) ltac:(lia) x).
    destruct (decide (off <= x < off + n)).
    + rewrite !buf_put_in by lia. rewrite (proj2 (in_range_spec _ _ _)); [done|lia].
    + by rewrite !buf_put_out.
  - intros f iov off e f' E x _. destruct (fits f iov off); [|by injection E as _ <-].
    unfold fake_pwritev in E. destruct (cn_ret _ <? 0); [|done]. by injection E as _ <-.
  - done.
Qed.

(** A loop that starts within the fake disk stays within it. *)
Lemma fake_loop_eq fuel total f0 iov off : forall i cur stall f log,
  fits f0 iov off = true -> off + iov_total iov < 2 ^ 63 -> fk_disk_len f = fk_disk_len f0 ->
  (i <= length iov)%nat -> cur = off + iov_total (take i iov) ->
  toy_loop fake_pwritev fuel total iov i cur stall f log =
  toy_loop (sys_pwritev (Posix := fake_posix)) fuel total iov i cur stall f log.
Proof.
  induction fuel as [|fuel IH]; intros i cur stall f log Hf Hmax Hd Hi Hc; [done|].
  pose proof (fits_wf _ _ _ Hf) as (Hw & Ho & He). cbn [toy_loop].
  destruct (i <? length iov)%nat eqn:Ei; [|done].
  assert (Hsum : iov_total (take i iov) + iov_total (drop i iov) = iov_total iov)
    by (by rewrite <- iov_total_app, take_drop).
  assert (Hwd : iov_wf (drop i iov)) by (by apply Forall_drop).
  assert (Hwt : iov_wf (take i iov)) by (by apply Forall_take).
  pose proof (iov_total_nonneg _ Hwd). pose proof (iov_total_nonneg _ Hwt).
  assert (Hfits : fits f (drop i iov) cur = true).
  { unfold fits. rewrite !andb_true_iff, forallb_forall, Hd. split; [split; [|lia]|lia].
    intros v Hv%list_elem_of_In. apply Z.leb_le. revert v Hv. by apply Forall_forall. }
  cbn [sys_pwritev fake_posix]. rewrite Hfits.
  destruct (fake_pwritev f (drop i iov) cur) as [[w|e] f'] eqn:Ew.
  - assert (Hd' : fk_disk_len f' = fk_disk_len f0).
    { unfold fake_pwritev in Ew. destruct (cn_ret _ <? 0); [done|]. by injection Ew as _ <-. }
    destruct (w =? 0); [done|]. rewrite toy_count_eq.
    assert (Hw0 : 0 <= w).
    { pose proof (pwritev_ok (PosixLaws := fake_laws) f (drop i iov) cur w f') as Hok. cbn in Hok.
      rewrite Hfits in Hok. apply Hok in Ew as [Hok' _]. lia. }
    pose proof (iov_complete_count_spec (drop i iov) w Hwd Hw0) as Hk.
    destruct (iov_complete_count (drop i iov) w) as [k done]. destruct Hk as (Hk & -> & _).
    rewrite length_drop in Hk.
    destruct (k =? 0)%nat; [destruct (stall - 1 <? 0); [done|by apply IH]|].
    assert (Htk : iov_total (take (i + k) iov) = iov_total (take i iov) + iov_total (take k (drop i iov)))
      by (by rewrite <- iov_total_app, take_take_drop).
    assert (Hle : iov_total (take k (drop i iov)) <= iov_total (drop i iov)).
    { rewrite <- (take_drop k (drop i iov)) at 2. rewrite iov_total_app.
      pose proof (iov_total_nonneg (drop k (drop i iov)) ltac:(by apply Forall_drop)). lia. }
    assert (0 <= iov_total (take k (drop i iov))) by (apply iov_total_nonneg; by apply Forall_take).
    rewrite s64_small by lia. apply IH; auto; lia.
  - assert (Hd' : fk_disk_len f' = fk_disk_len f0).
    { unfold fake_pwritev in Ew. destruct (cn_ret _ <? 0); [|done]. by injection Ew as _ <-. }
    destruct (decide (e = EINTR)); [|done]. destruct (stall - 1 <? 0); [done|by apply IH].
Qed.

Lemma fake_len_loop fuel total iov : forall i cur stall f log r f' log',
  toy_loop fake_pwritev fuel total iov i cur stall f log = Some (r, f', log') ->
  fk_disk_len f' = fk_disk_len f.
Proof.
  assert (Hstep : forall f v off r f', fake_pwritev f v off = (r, f') -> fk_disk_len f' = fk_disk_len f).
  { intros f v off r f'. unfold fake_pwritev. destruct (cn_ret _ <? 0); by intros [= _ <-]. }
  induction fuel as [|fuel IH]; intros i cur stall f log r f' log' E; [done|]. cbn [toy_loop] in E.
  destruct (i <? length iov)%nat; [|by injection E as _ <- _].
  destruct (fake_pwritev f (drop i iov) cur) as [[w|e] f1] eqn:Ew; apply Hstep in Ew; rewrite <- Ew.
  - destruct (w =? 0); [by injection E as _ <- _|].
    destruct (toy_iov_complete_count _ _) as [k done].
    destruct (k =? 0)%nat; [|by eapply IH].
    destruct (stall - 1 <? 0); [by injection E as _ <- _|by eapply IH].
  - destruct (decide _); [|by injection E as _ <- _].
    destruct (stall - 1 <? 0); [by injection E as _ <- _|by eapply IH].
Qed.

(** * The unit test *)

Section Test.
Context (a0 a1 a2 : Z) (rest : list Z) (junk : buf).
Let addrs := a0 :: a1 :: a2 :: rest.

Lemma arm_wf : iov_wf (arm addrs).
Proof. repeat constructor; cbn; unfold TOY_BUFLEN, NOX_DATAZONE_SIZE; lia. Qed.

Lemma arm_total : iov_total (arm addrs) = TOY_TOTAL.
Proof. reflexivity. Qed.

(** The gathered buffers are the expected image. *)
Lemma arm_image x : 0 <= x < TOY_TOTAL -> iov_gather (arm addrs) x = expect_image junk x.
Proof.
  change TOY_TOTAL with 786432. intros Hx.
  change (iov_gather (arm addrs) x) with
    (if x <? 262144 then fill_pattern 0 x
     else if x - 262144 <? 262144 then fill_pattern 1 (x - 262144)
     else if x - 262144 - 262144 <? 262144 then fill_pattern 2 (x - 262144 - 262144) else x00).
  change (expect_image junk) with
    (buf_put (buf_put (buf_put junk 0 (fill_pattern 0) 262144) 262144 (fill_pattern 1) 262144)
       524288 (fill_pattern 2) 262144).
  destruct (decide (524288 <= x)); [|destruct (decide (262144 <= x))].
  - rewrite buf_put_in by lia. destruct (x <? 262144) eqn:E1, (x - 262144 <? 262144) eqn:E2,
      (x - 262144 - 262144 <? 262144) eqn:E3; try lia. f_equal. lia.
  - rewrite buf_put_out, buf_put_in by lia.
    destruct (x <? 262144) eqn:E1, (x - 262144 <? 262144) eqn:E2; try lia. done.
  - rewrite !buf_put_out, buf_put_in by lia. destruct (x <? 262144) eqn:E1; [|lia]. f_equal. lia.
Qed.

(** Whatever the script does, the fixup returns, and a full count means a correct image. *)
Lemma run_case_spec script rep :
  exists rc f, run_case addrs script rep = Some (rc, f) /\
    (completes rc = true -> identical junk f = true).
Proof.
  destruct (pwritev_all_spec (H0 := fake_laws) (fresh_fake script rep) (arm addrs) 0)
    as (r & f & log & E & _ & Hr); [apply arm_wf|lia|rewrite arm_total; reflexivity|].
  assert (Et : outcome_of <$> pwritev_all fake_pwritev (fresh_fake script rep) (arm addrs) 0 = Some (r, f)).
  { unfold pwritev_all. rewrite (fake_loop_eq _ _ (fresh_fake script rep) _ 0); try done.
    - rewrite (toy_loop_eq (H := fake_posix) _ _ _ 0 _ _ _ [] []) by lia.
      change TOY_MAX_STALL with NOX_IO_MAX_STALL. unfold io_direct_pwritev_all in E.
      change (drop 0 (arm addrs)) with (arm addrs). unfold pwritev_fuel in E. by rewrite E.
    - lia. }
  unfold run_case. destruct (pwritev_all _ _ _ _) as [[[r' f'] log']|] eqn:Ea; [|done].
  injection Et as -> ->. exists r, f. split; [done|]. unfold completes. intros ->%bool_decide_eq_true.
  destruct Hr as [_ Hf]. unfold pwritev_all in Ea. apply fake_len_loop in Ea.
  apply memcmp_eq_ok. intros x Hx. specialize (Hf x). cbn [file_byte fake_posix] in Hf. unfold fake_byte at 1 in Hf.
  rewrite Ea in Hf. cbn [fk_disk_len fresh_fake] in Hf. rewrite Z2Nat.id in Hx by (by compute).
  rewrite (proj2 (in_range_spec _ _ _)) in Hf by lia. rewrite Hf, arm_total, buf_put_in by lia.
  rewrite Z.sub_0_r. by apply arm_image.
Qed.

(** What the checks other than the comparison look at. *)
Definition trace_of (x : option (sysret * fake_t)) : option (sysret * nat * list (Z * nat)) :=
  (fun '(rc, f) => (rc, fk_calls f, fk_seen f)) <$> x.

Lemma case_traces :
  trace_of (run_case addrs [] false) = Some (SysOk 786432, 1%nat, [(0, 3%nat)]) /\
  trace_of (run_case addrs [mk_canned TOY_BUFLEN (EOTHER 0)] false) =
    Some (SysOk 786432, 2%nat, [(0, 3%nat); (262144, 2%nat)]) /\
  trace_of (run_case addrs [mk_canned (700 * 1024) (EOTHER 0)] false) =
    Some (SysOk 786432, 2%nat, [(0, 3%nat); (524288, 1%nat)]) /\
  trace_of (run_case addrs [mk_canned 100003 (EOTHER 0)] false) =
    Some (SysOk 786432, 2%nat, [(0, 3%nat); (0, 3%nat)]) /\
  trace_of (run_case addrs [mk_canned 0 (EOTHER 0)] true) = Some (SysErr EIO, 1%nat, [(0, 3%nat)]) /\
  trace_of (run_case addrs [mk_canned 1000 (EOTHER 0)] true) =
    Some (SysErr EIO, 5%nat, replicate 5 (0, 3%nat)) /\
  trace_of (run_case addrs [mk_canned (-1) EINTR] false) =
    Some (SysOk 786432, 2%nat, [(0, 3%nat); (0, 3%nat)]).
Proof. split_and!; vm_compute; reflexivity. Qed.

Lemma case_spec script rep rc calls seen (checks : sysret -> fake_t -> list bool) :
  trace_of (run_case addrs script rep) = Some (rc, calls, seen) ->
  (forall f, fk_calls f = calls -> fk_seen f = seen ->
     (completes rc = true -> identical junk f = true) -> forallb id (checks rc f) = true) ->
  exists l, ('(rc, f) ← run_case addrs script rep; Some (checks rc f)) = Some l /\ forallb id l = true.
Proof.
  intros Et Hc. destruct (run_case_spec script rep) as (rc' & f & E & Hi). rewrite E in *.
  injection Et as -> Ecalls Eseen. eexists. split; [reflexivity|]. by apply Hc.
Qed.

End Test.

(** The study program's unit test passes. With the three buffers at any addresses, the
    seven scripted cases (no short write, a cut on a buffer boundary, a cut inside a buffer, a
    count that is not a multiple of the block, a zero count, a permanently short count, an
    interrupted call) all return, every check of every case holds, and the exit code is 0. *)
Theorem part_c_passes (a0 a1 a2 : Z) (rest : list Z) (junk : buf) :
  exists checks, part_c (a0 :: a1 :: a2 :: rest) junk = Some checks /\ toy_exit checks = 0.
Proof.
  destruct (case_traces a0 a1 a2 rest) as (T1 & T2 & T3 & T4 & T5 & T6 & T7).
  pose proof (fun s r rc c sn => case_spec a0 a1 a2 rest junk s r rc c sn) as Hc. unfold part_c, toy_exit.
  destruct (Hc _ _ _ _ _ (fun rc f => [completes rc; (fk_calls f =? 1)%nat; identical junk f]) T1)
    as (l1 & E1 & P1); [intros f Hn Hs Hi; cbn; by rewrite Hn, Hi|].
  destruct (Hc _ _ _ _ _ (fun rc f => [completes rc; (fk_calls f =? 2)%nat;
      resumes f 1 TOY_BUFLEN (TOY_NBUF - 1); identical junk f]) T2)
    as (l2 & E2 & P2); [intros f Hn Hs Hi; cbn; unfold resumes; rewrite Hn, Hs, Hi; done|].
  destruct (Hc _ _ _ _ _ (fun rc f => [completes rc; (fk_calls f =? 2)%nat;
      resumes f 1 (2 * TOY_BUFLEN) 1; identical junk f]) T3)
    as (l3 & E3 & P3); [intros f Hn Hs Hi; cbn; unfold resumes; rewrite Hn, Hs, Hi; done|].
  destruct (Hc _ _ _ _ _ (fun rc f => [completes rc; (fk_calls f =? 2)%nat;
      resumes f 1 0 TOY_NBUF; identical junk f]) T4)
    as (l4 & E4 & P4); [intros f Hn Hs Hi; cbn; unfold resumes; rewrite Hn, Hs, Hi; done|].
  destruct (Hc _ _ _ _ _ (fun rc f => [fails rc; (fk_calls f =? 1)%nat]) T5)
    as (l5 & E5 & P5); [intros f Hn Hs Hi; cbn; by rewrite Hn|].
  destruct (Hc _ _ _ _ _ (fun rc f => [fails rc; Z.of_nat (fk_calls f) =? TOY_MAX_STALL + 1]) T6)
    as (l6 & E6 & P6); [intros f Hn Hs Hi; cbn; by rewrite Hn|].
  destruct (Hc _ _ _ _ _ (fun rc f => [completes rc; (fk_calls f =? 2)%nat; identical junk f]) T7)
    as (l7 & E7 & P7); [intros f Hn Hs Hi; cbn; by rewrite Hn, Hi|].
  unfold case_c1, case_c2, case_c3, case_c4, case_c5, case_c6, case_c7.
  rewrite E1, E2, E3, E4, E5, E6, E7. cbn [mbind option_bind]. eexists. split; [done|].
  by rewrite !forallb_app, P1, P2, P3, P4, P5, P6, P7.
Qed.
