(* ===== verification/Probe.v ===== *)
(** The alignment probe [src/bench/o_direct_probe.c]: the write loop, the measurement of page
    cache residency, the sweep over buffer address, offset and length, and the lookup of the
    backing disk in [/sys]. Terminal styling is left out; what the probe prints is a list of
    cells. The kernel is the class [Posix] with [open(2)] as a further parameter, and [/sys] is
    a record of functions. *)
From stdpp Require Import base numbers list strings pretty.
From Corelib Require Import Init.Byte.
From Stdlib Require Import Ascii.
From S2P Require Import Prelude Config IoDirect.

Definition PROBE_SIZE : Z := 10 * 1024 * 1024.
Definition SWEEP_SIZE : Z := 1 * 1024 * 1024.

Definition O_WRONLY : Z := 1.
Definition O_TRUNC : Z := 512.
Definition OPEN_BUFFERED : Z := Z.lor (Z.lor O_WRONLY O_CREAT) O_TRUNC.
Definition OPEN_DIRECT : Z := Z.lor OPEN_BUFFERED O_DIRECT.

(** * Writing *)

Section Write.
Context {S : Type} `{Posix S} (open2 : S -> Z -> errno + S).

(** The loop of [write_all] after [done] bytes. [None]: still looping when the fuel is out. *)
Fixpoint write_all_loop (fuel : nat) (s : S) (addr : Z) (b : buf) (len off done : Z)
  : option (option errno * S) :=
  if done <? len then
    match fuel with
    | O => None
    | Datatypes.S fuel =>
        match sys_pwritev s [mk_iov (addr + done) (fun i => b (done + i)) (len - done)] (off + done) with
        | (SysErr e, s) => Some (Some e, s)
        | (SysOk n, s) => write_all_loop fuel s addr b len off (u64 (done + n))
        end
    end
  else Some (None, s).

(** [None] in the result is 0, [Some e] is -1 with [errno] set to [e]. *)
Definition write_all (fuel : nat) (s : S) (addr : Z) (b : buf) (len off : Z) : option (option errno * S) :=
  write_all_loop fuel s addr b len off 0.

(** * The sweep *)

Definition try_write (fuel : nat) (s : S) (buf_shift off len : Z) : option (option errno * S) :=
  match posix_memalign s NOX_BLOCK_SIZE (len + NOX_BLOCK_SIZE) with
  | None => Some (Some ENOMEM, s)
  | Some a =>
      match open2 s OPEN_DIRECT with
      | inl e => Some (Some e, s)
      | inr s => write_all fuel s (a + buf_shift) (fun _ => xd4) len off
      end
  end.

(** The cells of the three rows: label, shift of the buffer, offset, length. *)
Definition buffer_row : list (string * Z * Z * Z) :=
  [("+0", 0, 0, SWEEP_SIZE); ("+4", 4, 0, SWEEP_SIZE); ("+8", 8, 0, SWEEP_SIZE); ("+1", 1, 0, SWEEP_SIZE);
   ("+2", 2, 0, SWEEP_SIZE)]%string.
Definition offset_row : list (string * Z * Z * Z) :=
  [("512", 0, 512, SWEEP_SIZE); ("4096", 0, 4096, SWEEP_SIZE); ("100", 0, 100, SWEEP_SIZE);
   ("511", 0, 511, SWEEP_SIZE)]%string.
Definition length_row : list (string * Z * Z * Z) :=
  [("512", 0, 0, 512); ("4096", 0, 0, 4096); ("511", 0, 0, 511); ("4097", 0, 0, 4097)]%string.

Fixpoint run_cells (fuel : nat) (s : S) (cells : list (string * Z * Z * Z)) : option (list (string * option errno) * S) :=
  match cells with
  | [] => Some ([], s)
  | (label, shift, off, len) :: r =>
      '(e, s) ← try_write fuel s shift off len;
      '(out, s) ← run_cells fuel s r;
      Some ((label, e) :: out, s)
  end.

Definition section_matrix (fuel : nat) (s : S) : option (list (list (string * option errno)) * S) :=
  '(r1, s) ← run_cells fuel s buffer_row;
  '(r2, s) ← run_cells fuel s offset_row;
  '(r3, s) ← run_cells fuel s length_row;
  Some ([r1; r2; r3], s).

(** * Residency *)

Definition page_size (pgsz : Z) : Z := if pgsz <=? 0 then NOX_BLOCK_SIZE else pgsz.

(** The calls of [resident_pages]; [m_vec] is what [mincore] fills in, if it succeeds. [pgsz]: the
    answer of [sysconf]. *)
Record measure := mk_measure { m_open : bool; m_mmap : bool; m_malloc : bool; m_vec : option (list Z) }.

Definition resident_pages (pgsz len : Z) (m : measure) : Z :=
  let npages := u64 (len + page_size pgsz - 1) / page_size pgsz in
  if negb (m_open m) then -1
  else if negb (m_mmap m) then -1
  else if negb (m_malloc m) then -1
  else
    match m_vec m with
    | Some vec => Z.of_nat (length (filter (fun v => Z.land v 1 <> 0) (take (Z.to_nat npages) vec)))
    | None => -1
    end.

Definition residency_rc (total r_cached r_direct : Z) (bad : bool) : Z :=
  let cached_ok := total / 2 <? r_cached in
  let bypass_ok := r_direct <=? total / 2 in
  if cached_ok && bypass_ok && negb bad then 0 else 1.

(** [addr]: the block [malloc] returns, if it does. *)
Definition section_residency (fuel : nat) (s : S) (pgsz : Z) (addr : option Z) (ma mb : measure) : option (Z * S) :=
  let total := PROBE_SIZE / page_size pgsz in
  s ← match open2 s OPEN_BUFFERED, addr with
      | inr s, Some a => '(_, s) ← write_all fuel s a (fun _ => xa1) PROBE_SIZE 0; Some s
      | inr s, None => Some s
      | inl _, _ => Some s
      end;
  let r_cached := resident_pages pgsz PROBE_SIZE ma in
  '(bad, s) ← match open2 s OPEN_DIRECT with
              | inl _ => Some (false, s)
              | inr s =>
                  match posix_memalign s NOX_BLOCK_SIZE PROBE_SIZE with
                  | None => Some (false, s)
                  | Some a =>
                      '(e, s) ← write_all fuel s a (fun _ => xc3) PROBE_SIZE 0;
                      Some (match e with Some _ => true | None => false end, s)
                  end
              end;
  let r_direct := resident_pages pgsz PROBE_SIZE mb in
  Some (residency_rc total r_cached r_direct bad, s).

End Write.

(** * The backing disk *)

Definition PATH_MAX : nat := Z.to_nat 4096.

(** [snprintf] of a text into [n] bytes. *)
Definition snprintf (n : nat) (s : string) : string := String.substring 0 (n - 1) s.

(** [strrchr(s, '/')]: the text before and after the last slash. *)
Fixpoint rsplit (s : string) : option (string * string) :=
  match s with
  | EmptyString => None
  | String c r =>
      match rsplit r with
      | Some (a, b) => Some (String c a, b)
      | None => if Ascii.eqb c "/"%char then Some (EmptyString, r) else None
      end
  end.

Definition base_name (s : string) : string := match rsplit s with Some (_, b) => b | None => s end.

Definition strstr (hay needle : string) : bool :=
  match String.index 0 needle hay with Some _ => true | None => false end.

Definition transport_of (realdir : string) : string :=
  (if strstr realdir "/usb" then "USB"
   else if strstr realdir "/nvme" then "NVMe/PCIe"
   else if strstr realdir "/ata" then "SATA"
   else "")%string.

(** [fgets]: up to the first newline, included, and at most [n - 1] characters. *)
Fixpoint until_newline (s : string) : string :=
  match s with
  | EmptyString => EmptyString
  | String c r => if Ascii.eqb c "010"%char then String c EmptyString else String c (until_newline r)
  end.
Definition fgets (n : nat) (s : string) : option string :=
  match s with EmptyString => None | _ => Some (String.substring 0 (n - 1) (until_newline s)) end.

(** The trailing spaces and newlines dropped. *)
Definition is_blank (c : Ascii.ascii) : bool := Ascii.eqb c "010"%char || Ascii.eqb c " "%char.
Fixpoint rtrim (s : string) : string :=
  match s with
  | EmptyString => EmptyString
  | String c r =>
      match rtrim r with
      | EmptyString => if is_blank c then EmptyString else String c EmptyString
      | r => String c r
      end
  end.

(** What the probe sees of the system: device numbers by [stat], a number or the text of an
    attribute, resolved paths, directory entries. *)
Record sysfs := mk_sysfs {
  fs_stat : string -> option (Z * Z);
  fs_long : string -> option Z;
  fs_text : string -> option string;
  fs_realpath : string -> option string;
  fs_readdir : string -> option (list string)
}.

Section Disk.
Context (fs : sysfs).

(** The attribute, or the empty text. *)
Definition read_sysfs_str (p : string) (osz : nat) : string :=
  match fs_text fs p ≫= fgets osz with Some l => rtrim l | None => EmptyString end.

Record disk_info := mk_disk { di_rc : Z; di_name : string; di_lbs : Z; di_dma : Z; di_model : string }.

Definition stat_target (path : string) : option (Z * Z) :=
  match fs_stat fs path with
  | Some d => Some d
  | None =>
      let dir := match rsplit (snprintf PATH_MAX path) with Some (d, _) => d | None => "."%string end in
      fs_stat fs (match dir with EmptyString => "/"%string | _ => dir end)
  end.

Definition sys_node (d : Z * Z) : string :=
  snprintf 64 ("/sys/dev/block/" ++ pretty (Z.to_N d.1) ++ ":" ++ pretty (Z.to_N d.2))%string.

(** The block size and the resolved directory of the disk: of the node itself, or, for a
    partition, of the level above. The block size is kept even when the path is not resolved. *)
Definition locate (node : string) (lbs : Z) : Z * option string :=
  match fs_long fs (snprintf PATH_MAX (node ++ "/queue/logical_block_size")%string) with
  | Some v => (v, fs_realpath fs node)
  | None =>
      match fs_long fs (snprintf PATH_MAX (node ++ "/../queue/logical_block_size")%string) with
      | Some v => (v, fs_realpath fs (snprintf PATH_MAX (node ++ "/..")%string))
      | None => (lbs, None)
      end
  end.

(** For a device-mapper node, the directory of the physical disk below it and the prefix. *)
Definition not_hidden (n : string) : bool := match n with String c _ => negb (Ascii.eqb c "."%char) | EmptyString => true end.
Definition first_slave (names : list string) : option string := snd <$> list_find not_hidden names.

Definition physical (name diskdir : string) : string * string :=
  if String.prefix "dm-" name then
    let sldir := snprintf (PATH_MAX + 16) (diskdir ++ "/slaves")%string in
    match fs_readdir fs sldir ≫= first_slave with
    | None => (diskdir, EmptyString)
    | Some n =>
        match fs_realpath fs (snprintf (PATH_MAX + 512) (sldir ++ "/" ++ n)%string) with
        | None => (diskdir, EmptyString)
        | Some p =>
            let p := match rsplit p with Some (d, _) => d | None => p end in
            (p, snprintf 96 ("lvm -> " ++ String.substring 0 47 (base_name p) ++ "  .  ")%string)
        end
    end
  else (diskdir, EmptyString).

Definition model_of (name diskdir : string) (msz : nat) : string :=
  let '(physdir, lead) := physical name diskdir in
  let id := read_sysfs_str (snprintf (PATH_MAX + 32) (physdir ++ "/device/model")%string) 96 in
  let vendor := match id with
                | EmptyString => read_sysfs_str (snprintf (PATH_MAX + 32) (physdir ++ "/device/vendor")%string) 64
                | _ => EmptyString
                end in
  let idp := match id with EmptyString => vendor | _ => id end in
  let tr := transport_of physdir in
  let sep := match idp, tr with EmptyString, _ | _, EmptyString => ""%string | _, _ => "  .  "%string end in
  snprintf msz (lead ++ idp ++ sep ++ tr)%string.

(** [nsz] and [msz]: the sizes of the two result buffers; [msz = None] is a null [model].
    [d0]: what the caller put in the results. *)
Definition get_disk_info (path : string) (nsz : nat) (msz : option nat) (d0 : disk_info) : disk_info :=
  let model0 := match msz with Some _ => EmptyString | None => di_model d0 end in
  match stat_target path with
  | None => mk_disk (-1) (di_name d0) (di_lbs d0) (di_dma d0) model0
  | Some dev =>
      match locate (sys_node dev) (di_lbs d0) with
      | (lbs, None) => mk_disk (-1) (di_name d0) lbs (di_dma d0) model0
      | (lbs, Some diskdir) =>
          let dma := default (-1) (fs_long fs (snprintf (PATH_MAX + 32) (diskdir ++ "/queue/dma_alignment")%string)) in
          let name := String.substring 0 (nsz - 1) (base_name diskdir) in
          mk_disk 0 name lbs dma (match msz with Some n => model_of name diskdir n | None => model0 end)
      end
  end.

(** The contract section 4 prints: buffer alignment, then offset and length granularity. *)
Definition section_verdict (path : string) : Z * Z :=
  let d := get_disk_info path 64 None (mk_disk 0 "?" (-1) (-1) EmptyString) in
  (if 0 <=? di_dma d then di_dma d + 1 else 1, if 0 <? di_lbs d then di_lbs d else 512).

(** What section 1 prints: name, model, block size and buffer alignment of the disk if it was
    resolved; what [statx] declares ([stx]), memory and offset alignment; and, in its last line,
    granularity and buffer alignment. *)
Record device_report := mk_report {
  rep_disk : option (string * string * Z * option Z);
  rep_statx : option (Z * Z);
  rep_line : Z * Z
}.

Definition section_device (path : string) (stx : option (Z * Z)) : device_report :=
  let d := get_disk_info path 64 (Some 128%nat) (mk_disk 0 "?" (-1) (-1) EmptyString) in
  mk_report
    (if di_rc d =? 0 then Some (di_name d, di_model d, di_lbs d, if 0 <=? di_dma d then Some (di_dma d + 1) else None)
     else None)
    stx
    (if 0 <? di_lbs d then di_lbs d else NOX_BLOCK_SIZE, if 0 <=? di_dma d then di_dma d + 1 else 1).

End Disk.

(** [main]: the exit status and what the four sections print. *)
Definition probe_main {S : Type} `{Posix S} (open2 : S -> Z -> errno + S) (fs : sysfs) (path : string)
    (stx : option (Z * Z)) (fuel : nat) (s : S) (pgsz : Z) (addr : option Z) (ma mb : measure)
  : option (Z * device_report * list (list (string * option errno)) * (Z * Z) * S) :=
  let dev := section_device fs path stx in
  '(inv, s) ← section_residency open2 fuel s pgsz addr ma mb;
  '(cells, s) ← section_matrix open2 fuel s;
  Some (if inv =? 0 then 0 else 1, dev, cells, section_verdict fs path, s).

(** * Lemmas *)

Section WriteAll.
Context {S : Type} `{PosixLaws S}.

Lemma buf_put_extend (f : buf) off (b : buf) k n :
  0 <= k -> 0 <= n ->
  buf_put (buf_put f off b k) (off + k) (fun i => b (k + i)) n ≈ buf_put f off b (k + n).
Proof.
  intros Hd Hn x. destruct (decide (off + k <= x < off + k + n)) as [Hx|Hx].
  - rewrite !buf_put_in by lia. f_equal. lia.
  - rewrite buf_put_out by done. destruct (decide (off <= x < off + k)).
    + by rewrite !buf_put_in by lia.
    + by rewrite !buf_put_out by lia.
Qed.

Lemma buf_put_ext (f b b' : buf) off n :
  (forall i, 0 <= i < n -> b i = b' i) -> buf_put f off b n ≈ buf_put f off b' n.
Proof.
  intros Hb x. destruct (decide (off <= x < off + n)).
  - rewrite !buf_put_in by lia. apply Hb. lia.
  - by rewrite !buf_put_out by lia.
Qed.

(** One call of the loop: the bytes stored so far grow by what the call returns. *)
Lemma write_step s addr (b f0 : buf) len off k n s' :
  0 <= k < len -> file_byte s ≈ buf_put f0 off b k ->
  sys_pwritev s [mk_iov (addr + k) (fun i => b (k + i)) (len - k)] (off + k) = (SysOk n, s') ->
  0 <= n <= len - k /\ file_byte s' ≈ buf_put f0 off b (k + n).
Proof.
  intros Hd Hf Hs. apply pwritev_ok in Hs as [Hn Hs]. cbn [iov_total iov_len] in Hn. split; [lia|].
  rewrite Hs, Hf, <- buf_put_extend by lia. apply buf_put_ext. intros i Hi. cbn [iov_gather iov_len iov_data].
  destruct (i <? len - k) eqn:E; [done|contra_lia].
Qed.

Lemma write_all_loop_stored fuel s addr b f0 len off k s' :
  0 <= k <= len -> len < 2 ^ 64 -> file_byte s ≈ buf_put f0 off b k ->
  write_all_loop fuel s addr b len off k = Some (None, s') -> file_byte s' ≈ buf_put f0 off b len.
Proof.
  revert s k. induction fuel as [|fuel IH]; intros s k Hd Hlen Hf; cbn [write_all_loop];
    (destruct (k <? len) eqn:E; [|intros [= <-]; by replace len with k by lia]); [done|].
  destruct (sys_pwritev s _ _) as [[n|e] s1] eqn:Es; [|done].
  apply (write_step _ _ _ f0) in Es as [Hn Hf1]; [|lia|done].
  rewrite u64_small by lia. apply IH; [lia|done|done].
Qed.

(** When the loop reports an error, some call returned it, and the bytes before are stored. *)
Lemma write_all_loop_refused fuel s addr b f0 len off k e s' :
  0 <= k <= len -> len < 2 ^ 64 -> file_byte s ≈ buf_put f0 off b k ->
  write_all_loop fuel s addr b len off k = Some (Some e, s') ->
  exists k' s1, k <= k' < len /\
    sys_pwritev s1 [mk_iov (addr + k') (fun i => b (k' + i)) (len - k')] (off + k') = (SysErr e, s') /\
    forall x, ~ (off + k' <= x < off + len) -> file_byte s' x = buf_put f0 off b k' x.
Proof.
  revert s k. induction fuel as [|fuel IH]; intros s k Hd Hlen Hf; cbn [write_all_loop];
    (destruct (k <? len) eqn:E; [|done]); [done|].
  destruct (sys_pwritev s _ _) as [[n|e1] s1] eqn:Es.
  - apply (write_step _ _ _ f0) in Es as [Hn Hf1]; [|lia|done].
    rewrite u64_small by lia. intros Hr. apply IH in Hr as (k' & s2 & Hk & Hr); [|lia|done|done].
    exists k', s2. split; [lia|done].
  - intros [= -> ->]. exists k, s. split_and!; [lia|lia|exact Es|].
    intros x Hx. rewrite <- Hf. eapply pwritev_err; [exact Es|]. cbn [iov_total iov_len]. lia.
Qed.

(** The loop returns where every call that succeeds takes something. *)
Lemma write_all_loop_returns fuel s addr b len off k :
  (forall s a b len off, 0 < len -> (sys_pwritev s [mk_iov a b len] off).1 <> SysOk 0) ->
  0 <= k <= len -> len < 2 ^ 64 -> len - k <= Z.of_nat fuel ->
  is_Some (write_all_loop fuel s addr b len off k).
Proof.
  intros Hz. revert s k. induction fuel as [|fuel IH]; intros s k Hd Hlen Hfuel; cbn [write_all_loop];
    (destruct (k <? len) eqn:E; [|by eauto]); [lia|].
  specialize (Hz s (addr + k) (fun i => b (k + i)) (len - k) (off + k)).
  destruct (sys_pwritev s _ _) as [[n|e] s1] eqn:Es; [|by eauto].
  apply pwritev_ok in Es as [Hn _]. cbn [iov_total iov_len fst] in *.
  assert (n <> 0) by (intros ->; apply Hz; [lia|done]).
  rewrite u64_small by lia. apply IH; lia.
Qed.

Context (open2 : S -> Z -> errno + S).

(** What the cell [e] stands for: [ok], for a write stored in full; an error, for the allocation
    or the call that reported it. *)
Definition cell_says (s : S) (shift off len : Z) (e : option errno) (s' : S) : Prop :=
  match posix_memalign s NOX_BLOCK_SIZE (len + NOX_BLOCK_SIZE), open2 s OPEN_DIRECT with
  | None, _ => e = Some ENOMEM /\ s' = s
  | Some _, inl err => e = Some err /\ s' = s
  | Some a, inr s1 =>
      match e with
      | None => file_byte s' ≈ buf_put (file_byte s1) off (fun _ => xd4) len
      | Some err =>
          exists k s2, 0 <= k < len /\
            sys_pwritev s2 [mk_iov (a + shift + k) (fun _ => xd4) (len - k)] (off + k) = (SysErr err, s') /\
            (forall x, ~ (off + k <= x < off + len) ->
               file_byte s' x = buf_put (file_byte s1) off (fun _ => xd4) k x)
      end
  end.

Fixpoint cells_say (s : S) (cells : list (string * Z * Z * Z)) (out : list (string * option errno)) (s' : S) : Prop :=
  match cells, out with
  | [], [] => s' = s
  | (label, shift, off, len) :: r, (label', e) :: out =>
      label' = label /\ exists s1, cell_says s shift off len e s1 /\ cells_say s1 r out s'
  | _, _ => False
  end.

Context (Hz : forall s a b len off, 0 < len -> (sys_pwritev s [mk_iov a b len] off).1 <> SysOk 0).

Lemma try_write_says fuel s shift off len :
  0 < len < 2 ^ 64 -> len <= Z.of_nat fuel ->
  exists e s', try_write open2 fuel s shift off len = Some (e, s') /\ cell_says s shift off len e s'.
Proof.
  intros Hlen Hfuel. unfold try_write, cell_says.
  destruct (posix_memalign s _ _) as [a|]; [|by do 2 eexists].
  destruct (open2 s OPEN_DIRECT) as [e|s1]; [by do 2 eexists|].
  assert (Hf0 : file_byte s1 ≈ buf_put (file_byte s1) off (fun _ => xd4) 0)
    by (intros x; by rewrite buf_put_out by lia).
  destruct (write_all_loop_returns fuel s1 (a + shift) (fun _ => xd4) len off 0 Hz) as [[e s'] E]; [lia..|].
  exists e, s'. split; [exact E|]. destruct e as [e|].
  - eapply write_all_loop_refused in E as (k & s2 & Hk & E); [|lia|lia|exact Hf0]. by exists k, s2.
  - by eapply write_all_loop_stored in E; [|lia|lia|exact Hf0].
Qed.

Lemma run_cells_say fuel s cells :
  Forall (fun '(_, _, _, len) => 0 < len <= SWEEP_SIZE) cells -> SWEEP_SIZE <= Z.of_nat fuel ->
  exists out s', run_cells open2 fuel s cells = Some (out, s') /\ cells_say s cells out s'.
Proof.
  intros Hc Hfuel. revert s. induction Hc as [|[[[label shift] off] len] cells Hlen Hc IH]; intros s;
    [by do 2 eexists|].
  cbn [run_cells]. unfold SWEEP_SIZE in *.
  destruct (try_write_says fuel s shift off len) as (e & s1 & -> & He); [lia|lia|]. cbn [mbind option_bind].
  destruct (IH s1) as (out & s2 & -> & Ho). do 2 eexists. split; [done|]. split; [done|]. by exists s1.
Qed.

End WriteAll.

(** The loop on a file whose writes take nothing. *)
Lemma write_all_loop_stuck {S : Type} `{Posix S} fuel (s : S) addr b len off :
  (forall iov o, 0 <= iov_total iov -> sys_pwritev s iov o = (SysOk 0, s)) -> 0 < len ->
  write_all_loop fuel s addr b len off 0 = None.
Proof.
  intros Hz Hlen. induction fuel as [|fuel IH]; cbn [write_all_loop];
    (destruct (0 <? len) eqn:E; [|contra_lia]); [done|].
  rewrite Hz; [exact IH|cbn; lia].
Qed.

(** The numbers do not depend on whether the model is asked for. *)
Lemma get_disk_info_numbers fs path nsz m1 m2 d0 :
  let d1 := get_disk_info fs path nsz m1 d0 in
  let d2 := get_disk_info fs path nsz m2 d0 in
  (di_rc d1, di_name d1, di_lbs d1, di_dma d1) = (di_rc d2, di_name d2, di_lbs d2, di_dma d2).
Proof. unfold get_disk_info. destruct (stat_target _ _) as [dev|]; [|done]. by destruct (locate _ _ _) as [lbs []]. Qed.

(** * Concrete systems *)

(** A drive of granularity [lbs] and buffer alignment [dma + 1] that stores every request in
    full; its state is the contents of the file. [mem]: whether there is memory. *)
Section Drive.
Context (lbs dma : Z).

Definition dio_aligned (addr off len : Z) : Prop :=
  aligned (dma + 1) addr /\ aligned lbs off /\ aligned lbs len.
#[export] Instance dio_aligned_dec addr off len : Decision (dio_aligned addr off len).
Proof. unfold dio_aligned, aligned. apply _. Defined.

Definition drive_pwritev (f : buf) (iov : list iovec) (off : Z) : sysret * buf :=
  if forallb (fun v => bool_decide (dio_aligned (iov_base v) off (iov_len v))) iov && (0 <=? iov_total iov)
  then (SysOk (iov_total iov), buf_put f off (iov_gather iov) (iov_total iov))
  else (SysErr EINVAL, f).

Definition drive_posix (mem : bool) : Posix buf := {|
  file_byte := fun f => f;
  sys_pread := fun f len off => (SysErr EIO, f, f);
  sys_pwritev := drive_pwritev;
  posix_memalign := fun _ align _ => if mem then Some (7 * align) else None
|}.

Lemma drive_laws mem : @PosixLaws buf (drive_posix mem).
Proof.
  split; cbn; [done|by intros ? ? ? ? ? ? [= _ _ <-]| | |].
  - intros s iov off n s'. unfold drive_pwritev. destruct (_ && _) eqn:E; [|done].
    intros [= <- <-]. split; [lia|done].
  - intros s iov off e s'. unfold drive_pwritev. destruct (_ && _); [done|]. by intros [= _ <-].
  - intros s align len a. destruct mem; [|done]. intros [= <-]. unfold aligned. apply Z_mod_mult.
Qed.

Definition drive_open (f : buf) (flags : Z) : errno + buf := inr (fun _ => x00).

Lemma drive_takes_all mem s a b len off :
  0 < len -> (@sys_pwritev buf (drive_posix mem) s [mk_iov a b len] off).1 <> SysOk 0.
Proof.
  intros Hlen. cbn. unfold drive_pwritev. destruct (_ && _); cbn; [|done]. intros [= E]. lia.
Qed.

End Drive.

(** A file whose writes take nothing, as the interface allows. *)
Definition stuck_posix : Posix unit := {|
  file_byte := fun _ _ => x00;
  sys_pread := fun _ _ _ => (SysErr EIO, fun _ => x00, tt);
  sys_pwritev := fun _ iov _ => (if 0 <=? iov_total iov then SysOk 0 else SysErr EINVAL, tt);
  posix_memalign := fun _ align _ => Some align
|}.

Lemma stuck_laws : @PosixLaws unit stuck_posix.
Proof.
  split; cbn; try done.
  - intros s iov off n s' E. destruct (0 <=? iov_total iov) eqn:El; [|done]. injection E as <- <-.
    split; [lia|]. intros x. by rewrite buf_put_out by lia.
  - intros s align len a [= <-]. unfold aligned. apply Z_mod_same_full.
Qed.

(** A partition of an NVMe disk. *)
Definition sample_sysfs : sysfs := {|
  fs_stat := fun p => if String.eqb p "/mnt" then Some (259, 3) else None;
  fs_long := fun p => if String.eqb p "/sys/dev/block/259:3/../queue/logical_block_size" then Some 512
                      else if String.eqb p "/sys/devices/nvme/nvme0n1/queue/dma_alignment" then Some 3 else None;
  fs_text := fun p => if String.eqb p "/sys/devices/nvme/nvme0n1/device/model" then Some ("WD SN530  " ++ String "010"%char EmptyString)%string else None;
  fs_realpath := fun p => if String.eqb p "/sys/dev/block/259:3/.." then Some "/sys/devices/nvme/nvme0n1"%string else None;
  fs_readdir := fun _ => None
|}%string.

Example sample_partition :
  section_device sample_sysfs "/mnt/p.dat" None =
    mk_report (Some ("nvme0n1", "WD SN530  .  NVMe/PCIe", 512, Some 4)%string) None (512, 4) /\
  section_verdict sample_sysfs "/mnt/p.dat" = (4, 512).
Proof. split; reflexivity. Qed.

(** * Properties *)

(** On any kernel whose writes, when they succeed, take at least one byte, the sweep returns, and
    no cell lies: a cell that says [ok] had its bytes stored in full, and one that names an error
    had that error from the allocation, from [open] or from a write, with the bytes before the
    place of that write stored and none outside the cell's range changed. *)
Theorem matrix_sound {S : Type} `{PosixLaws S} (open2 : S -> Z -> errno + S) (fuel : nat) (s : S) :
  (forall s a b len off, 0 < len -> (sys_pwritev s [mk_iov a b len] off).1 <> SysOk 0) ->
  SWEEP_SIZE <= Z.of_nat fuel ->
  exists r1 r2 r3 s1 s2 s3, section_matrix open2 fuel s = Some ([r1; r2; r3], s3) /\
    cells_say open2 s buffer_row r1 s1 /\ cells_say open2 s1 offset_row r2 s2 /\
    cells_say open2 s2 length_row r3 s3.
Proof.
  intros Hz Hfuel. unfold section_matrix.
  destruct (run_cells_say open2 Hz fuel s buffer_row) as (r1 & s1 & -> & H1); [by repeat constructor|done|].
  cbn [mbind option_bind].
  destruct (run_cells_say open2 Hz fuel s1 offset_row) as (r2 & s2 & -> & H2); [by repeat constructor|done|].
  cbn [mbind option_bind].
  destruct (run_cells_say open2 Hz fuel s2 length_row) as (r3 & s3 & -> & H3); [by repeat constructor|done|].
  by exists r1, r2, r3, s1, s2, s3.
Qed.

Lemma matrix_sound_witness :
  exists r1 r2 r3 s3, @section_matrix buf (drive_posix 512 3 true) drive_open (Z.to_nat SWEEP_SIZE)
    (fun _ => x00) = Some ([r1; r2; r3], s3).
Proof.
  destruct (@matrix_sound buf (drive_posix 512 3 true) (drive_laws 512 3 true) drive_open
    (Z.to_nat SWEEP_SIZE) (fun _ => x00)) as (r1 & r2 & r3 & s1 & s2 & s3 & E & _).
  - exact (drive_takes_all 512 3 true).
  - rewrite Z2Nat.id by done. reflexivity.
  - by exists r1, r2, r3, s3.
Defined.

(** What the sweep prints on a drive of 512-byte blocks that wants buffers on 4 bytes. *)
Example sweep_of_drive :
  fst <$> @section_matrix buf (drive_posix 512 3 true) drive_open 1 (fun _ => x00) =
    Some [[("+0", None); ("+4", None); ("+8", None); ("+1", Some EINVAL); ("+2", Some EINVAL)];
          [("512", None); ("4096", None); ("100", Some EINVAL); ("511", Some EINVAL)];
          [("512", None); ("4096", None); ("511", Some EINVAL); ("4097", Some EINVAL)]]%string.
Proof. vm_compute. reflexivity. Qed.

(** The write loop of the probe has no guard against a write that takes nothing, which the
    engine's own loop has: on a file in such a state it never returns, whatever the fuel, while
    [io_direct_pwrite_all] reports [EIO] after one call. *)
Theorem probe_write_all_hangs {S : Type} `{Posix S} (s : S) (addr : Z) (b : buf) (len off : Z) :
  (forall iov o, 0 <= iov_total iov -> sys_pwritev s iov o = (SysOk 0, s)) -> 0 < len ->
  (forall fuel, write_all fuel s addr b len off = None) /\
  io_direct_pwrite_all s addr b len off = Some (SysErr EIO, s, [DiagZeroWrite off]).
Proof.
  intros Hz Hlen. split; [intros fuel; by apply write_all_loop_stuck|].
  unfold io_direct_pwrite_all, io_direct_pwritev_all, pwritev_fuel. cbn [pwritev_loop length Nat.mul Nat.add].
  rewrite Hz by (cbn; lia). done.
Qed.

Lemma probe_write_all_hangs_witness :
  @PosixLaws unit stuck_posix /\
  (forall fuel, @write_all unit stuck_posix fuel tt 4096 (fun _ => xc3) PROBE_SIZE 0 = None) /\
  @io_direct_pwrite_all unit stuck_posix tt 4096 (fun _ => xc3) PROBE_SIZE 0 =
    Some (SysErr EIO, tt, [DiagZeroWrite 0]).
Proof.
  split; [exact stuck_laws|]. apply (@probe_write_all_hangs unit stuck_posix); [|reflexivity].
  intros iov o Hi. cbn. destruct (0 <=? iov_total iov) eqn:E; [reflexivity|contra_lia].
Defined.

(** The residency check passes without a direct write and without a measurement: when the
    buffered half went well, [posix_memalign] failing and the second [resident_pages] failing
    with -1 both count as a bypassed cache, and the section returns 0. *)
Theorem residency_passes_unmeasured {S : Type} `{Posix S} (open2 : S -> Z -> errno + S) (fuel : nat)
    (s s1 s2 s3 : S) (pgsz a : Z) (ma mb : measure) (e : option errno) :
  open2 s OPEN_BUFFERED = inr s1 ->
  write_all fuel s1 a (fun _ => xa1) PROBE_SIZE 0 = Some (e, s2) ->
  PROBE_SIZE / page_size pgsz / 2 < resident_pages pgsz PROBE_SIZE ma ->
  open2 s2 OPEN_DIRECT = inr s3 -> posix_memalign s3 NOX_BLOCK_SIZE PROBE_SIZE = None ->
  m_open mb = false ->
  section_residency open2 fuel s pgsz (Some a) ma mb = Some (0, s3).
Proof.
  intros Ho Hw Hc Hd Hm Hb. unfold section_residency. rewrite Ho, Hw. cbn [mbind option_bind].
  rewrite Hd, Hm. cbn [mbind option_bind]. unfold residency_rc, resident_pages at 2. rewrite Hb. cbn [negb].
  assert (0 <= PROBE_SIZE / page_size pgsz / 2).
  { unfold page_size, PROBE_SIZE, NOX_BLOCK_SIZE. case_ifs; Z.to_euclidean_division_equations; nia. }
  destruct (_ <? resident_pages _ _ ma) eqn:E1; [|contra_lia]. destruct (-1 <=? _) eqn:E2; [done|contra_lia].
Qed.

Lemma residency_passes_unmeasured_witness :
  @section_residency buf (drive_posix 512 3 false) drive_open 1 (fun _ => x00) 4096 (Some 4096)
    (mk_measure true true true (Some (replicate 1281 1))) (mk_measure false true true None) =
  Some (0, fun _ => x00).
Proof.
  eapply (@residency_passes_unmeasured buf (drive_posix 512 3 false)); reflexivity.
Defined.

(** The contract section 4 prints and the one section 1 prints come from the same lookup and
    agree on the buffer alignment; they agree on the granularity exactly when the lookup found
    a block size, since the fallbacks differ: 4096 in section 1, 512 in section 4. *)
Theorem sections_agree (fs : sysfs) (path : string) (stx : option (Z * Z)) :
  let '(gran, align) := rep_line (section_device fs path stx) in
  let '(align', gran') := section_verdict fs path in
  align' = align /\
  (gran' = gran <-> 0 < di_lbs (get_disk_info fs path 64 None (mk_disk 0 "?" (-1) (-1) EmptyString))).
Proof.
  unfold section_device, section_verdict.
  pose proof (get_disk_info_numbers fs path 64 (Some 128%nat) None (mk_disk 0 "?" (-1) (-1) EmptyString)) as E.
  cbv zeta in E. injection E as _ _ E1 E2. cbn [rep_line]. rewrite E1, E2. split; [done|].
  destruct (0 <? _) eqn:E; unfold NOX_BLOCK_SIZE; [split; [intros; lia|done]|split; [done|intros; lia]].
Qed.
