(* ===== verification/FaultProbe.v ===== *)
(** The page-fault probe [src/bench/fault_probe.c]: it counts the minor faults of allocating a
    data zone per cycle against reusing one, and judges a hypothesis from the two ratios. The
    allocator with the memory it hands out is the class [Vm]; the ratios are IEEE doubles,
    computed with [SpecFloat]. Times are left out. *)
From stdpp Require Import base numbers list gmap sets.
From Stdlib Require Import Floats.SpecFloat.
From S2P Require Import Prelude.

(** * The program *)

Definition ZONE_SIZE : Z := 262144.
Definition BLOCK_SIZE : Z := 4096.
Definition PAGES_PER_ZONE : Z := ZONE_SIZE / BLOCK_SIZE.

(** The allocator and the kernel: [posix_memalign], a store of one byte, [free], [mallopt], and
    the fault counter of [getrusage]. *)
Class Vm (V : Type) := {
  vm_alloc : V -> Z -> Z -> option (Z * V);
  vm_store : V -> Z -> Z -> V;
  vm_free : V -> Z -> V;
  vm_mallopt : V -> Z -> Z -> V;
  vm_minflt : V -> Z
}.

Section Probe.
Context {V : Type} `{Vm V}.

(** [touch_zone] from offset [off] on; the fuel is the number of blocks left. *)
Fixpoint touch_loop (fuel : nat) (v : V) (zone off : Z) : V :=
  match fuel with
  | O => v
  | S fuel =>
      if off <? ZONE_SIZE
      then touch_loop fuel (vm_store v (zone + off) (u8 off)) zone (u32 (off + BLOCK_SIZE)) else v
  end.
Definition touch_zone (v : V) (zone : Z) : V := touch_loop (Z.to_nat PAGES_PER_ZONE + 1) v zone 0.

(** The status of [exit(fprintf(stderr, "posix_memalign failed\n"))]: the length of the text. *)
Definition EXIT_ALLOC : Z := 22.

Fixpoint cycles_alloc_free (n : nat) (v : V) : Z + V :=
  match n with
  | O => inr v
  | S n =>
      match vm_alloc v BLOCK_SIZE ZONE_SIZE with
      | None => inl EXIT_ALLOC
      | Some (zone, v) => cycles_alloc_free n (vm_free (touch_zone v zone) zone)
      end
  end.

(** The faults of an arm, and the memory after it. *)
Definition arm_alloc_free (v : V) (cycles : Z) : Z + Z * V :=
  let f0 := vm_minflt v in
  match cycles_alloc_free (Z.to_nat cycles) v with
  | inl rc => inl rc
  | inr v => inr (vm_minflt v - f0, v)
  end.

Definition arm_reuse (v : V) (cycles : Z) : Z + Z * V :=
  match vm_alloc v BLOCK_SIZE ZONE_SIZE with
  | None => inl EXIT_ALLOC
  | Some (zone, v) =>
      let v := touch_zone v zone in
      let f0 := vm_minflt v in
      let v := Nat.iter (Z.to_nat cycles) (fun v => touch_zone v zone) v in
      inr (vm_minflt v - f0, vm_free v zone)
  end.

(** ** The verdict *)

(** Conversion, division and comparison of doubles. *)
Definition dbl (x : Z) : spec_float := binary_normalize 53 1024 x 0 false.
Definition ddiv (a b : spec_float) : spec_float := SFdiv 53 1024 a b.
Definition dmul (a b : spec_float) : spec_float := SFmul 53 1024 a b.
Definition half : spec_float := S754_finite false 4503599627370496 (-53).

Inductive hypothesis := H1Confirmed | H1Wrong | H1Inconclusive.

Definition verdict (a b cycles : Z) : hypothesis :=
  let per f := ddiv (dbl f) (dbl cycles) in
  if SFltb (dmul (dbl PAGES_PER_ZONE) half) (per a) && SFltb (per b) (dbl 1) then H1Confirmed
  else if SFltb (per a) (dbl 1) then H1Wrong
  else H1Inconclusive.

(** Whether the tuned allocator is said to remove the faults. *)
Definition mallopt_fixes (a c cycles : Z) : bool :=
  SFltb (ddiv (dbl c) (dbl cycles)) (dmul (ddiv (dbl a) (dbl cycles)) half).

Definition M_TRIM_THRESHOLD : Z := -1.
Definition M_MMAP_THRESHOLD : Z := -3.

(** The argument of [main], as [strtoul] read it. *)
Definition fault_cycles (argc arg : Z) : Z := if 1 <? argc then u32 arg else 20000.

(** [main]: an exit status, or the three counts and the two lines of the verdict. *)
Definition fault_main (v : V) (cycles : Z) : Z + Z * Z * Z * hypothesis * bool :=
  match arm_alloc_free v cycles with
  | inl rc => inl rc
  | inr (a, v) =>
      match arm_reuse v cycles with
      | inl rc => inl rc
      | inr (b, v) =>
          let v := vm_mallopt v M_MMAP_THRESHOLD (ZONE_SIZE * 4) in
          let v := vm_mallopt v M_TRIM_THRESHOLD (ZONE_SIZE * 64) in
          match arm_alloc_free v cycles with
          | inl rc => inl rc
          | inr (c, _) => inr (a, b, c, verdict a b cycles, mallopt_fixes a c cycles)
          end
      end
  end.

(** * What the arms count *)

(** The behaviour the probe is written for: a store faults exactly when its page is not
    resident and makes it resident, nothing else faults, and a fresh zone is not resident. *)
Class FreshVm := {
  resident : V -> Z -> bool;
  store_minflt : forall v a b, vm_minflt (vm_store v a b) = vm_minflt v + (if resident v (a / BLOCK_SIZE) then 0 else 1);
  store_resident : forall v a b k, resident (vm_store v a b) k = bool_decide (k = a / BLOCK_SIZE) || resident v k;
  free_minflt : forall v a, vm_minflt (vm_free v a) = vm_minflt v;
  mallopt_minflt : forall v p x, vm_minflt (vm_mallopt v p x) = vm_minflt v;
  alloc_fresh : forall v, exists zone v', vm_alloc v BLOCK_SIZE ZONE_SIZE = Some (zone, v') /\
    zone mod BLOCK_SIZE = 0 /\ vm_minflt v' = vm_minflt v /\
    forall k, 0 <= k < PAGES_PER_ZONE -> resident v' (zone / BLOCK_SIZE + k) = false
}.

Context `{FreshVm}.

(** The loop from block [k] on: it faults once for each block not resident, in order. *)
Definition faults (v : V) (zone : Z) (ks : list Z) : Z :=
  zsum (fun k => if resident v (zone / BLOCK_SIZE + k) then 0 else 1) ks.

Lemma touch_loop_spec n k v zone :
  zone mod BLOCK_SIZE = 0 -> 0 <= k -> k + Z.of_nat n = PAGES_PER_ZONE ->
  let v' := touch_loop (n + 1) v zone (k * BLOCK_SIZE) in
  vm_minflt v' = vm_minflt v + faults v zone (seqZ k (Z.of_nat n)) /\
  forall j, resident v' j = (bool_decide (zone / BLOCK_SIZE + k <= j < zone / BLOCK_SIZE + PAGES_PER_ZONE)) || resident v j.
Proof.
  intros Hz. revert k v. induction n as [|n IH]; intros k v Hk Hn.
  - cbn [touch_loop Nat.add]. change PAGES_PER_ZONE with 64 in *. assert (k = 64) as -> by lia.
    change (64 * BLOCK_SIZE <? ZONE_SIZE) with false. cbv iota.
    split; [change (faults v zone (seqZ 64 (Z.of_nat 0))) with 0; lia|]. intros j. rewrite bool_decide_false by lia. done.
  - cbn [touch_loop Nat.add]. change PAGES_PER_ZONE with 64 in *. unfold BLOCK_SIZE, ZONE_SIZE in *.
    destruct (k * 4096 <? 262144) eqn:E; [|contra_lia]. rewrite u32_small by lia.
    replace (k * 4096 + 4096) with ((k + 1) * 4096) by lia.
    destruct (IH (k + 1) (vm_store v (zone + k * 4096) (u8 (k * 4096)))) as [E1 E2]; [lia|lia|].
    assert ((zone + k * 4096) / 4096 = zone / 4096 + k) as Ed by (rewrite Z.div_add by lia; done).
    cbv zeta in *. rewrite E1, store_minflt. unfold BLOCK_SIZE. rewrite Ed. split.
    + rewrite (seqZ_cons k) by lia. unfold faults, BLOCK_SIZE. cbn [zsum foldr]. fold (zsum (A := Z)).
      replace (Z.pred (Z.of_nat (S n))) with (Z.of_nat n) by lia. replace (Z.succ k) with (k + 1) by lia.
      rewrite (zsum_ext _ (fun k0 => if resident v (zone / 4096 + k0) then 0 else 1) (seqZ (k + 1) _)).
      { unfold zsum. lia. }
      intros x Hx%elem_of_seqZ. rewrite store_resident. unfold BLOCK_SIZE. rewrite Ed, bool_decide_false by lia. done.
    + intros j. rewrite E2, store_resident. unfold BLOCK_SIZE. rewrite Ed.
      destruct (resident v j); [by rewrite !orb_true_r|]. rewrite !orb_false_r.
      repeat case_bool_decide; try done; lia.
Qed.

Definition zone_resident (v : V) (zone : Z) (r : bool) : Prop :=
  forall k, 0 <= k < PAGES_PER_ZONE -> resident v (zone / BLOCK_SIZE + k) = r.

Lemma touch_zone_spec v zone r :
  zone mod BLOCK_SIZE = 0 -> zone_resident v zone r ->
  vm_minflt (touch_zone v zone) = vm_minflt v + (if r then 0 else PAGES_PER_ZONE) /\
  zone_resident (touch_zone v zone) zone true.
Proof.
  intros Hz Hr. destruct (touch_loop_spec (Z.to_nat PAGES_PER_ZONE) 0 v zone Hz) as [E1 E2]; [done|done|].
  cbv zeta in *. change (0 * BLOCK_SIZE) with 0 in *. fold (touch_zone v zone) in *. split.
  - rewrite E1. f_equal. unfold faults.
    rewrite (zsum_ext _ (fun _ => if r then 0 else 1)).
    { rewrite zsum_const, length_seqZ. by destruct r. }
    intros k Hk%elem_of_seqZ. rewrite Hr; [done|]. change PAGES_PER_ZONE with 64 in *. lia.
  - intros k Hk. rewrite E2, bool_decide_true by lia. done.
Qed.

Lemma cycles_fresh n v :
  exists v', cycles_alloc_free n v = inr v' /\ vm_minflt v' = vm_minflt v + PAGES_PER_ZONE * Z.of_nat n.
Proof.
  revert v. induction n as [|n IH]; intros v; [exists v; split; [done|lia]|]. cbn [cycles_alloc_free].
  destruct (alloc_fresh v) as (zone & v1 & -> & Hz & Hf & Hr).
  destruct (touch_zone_spec v1 zone false Hz Hr) as [Ht _].
  destruct (IH (vm_free (touch_zone v1 zone) zone)) as (v' & -> & E). exists v'. split; [done|].
  rewrite E, free_minflt, Ht, Hf. lia.
Qed.

Lemma reuse_resident n v zone :
  zone mod BLOCK_SIZE = 0 -> zone_resident v zone true ->
  vm_minflt (Nat.iter n (fun v => touch_zone v zone) v) = vm_minflt v /\
  zone_resident (Nat.iter n (fun v => touch_zone v zone) v) zone true.
Proof.
  intros Hz Hr. induction n as [|n [E Hn]]; [done|].
  destruct (touch_zone_spec _ _ _ Hz Hn) as [E1 E2]. rewrite Z.add_0_r in E1.
  split; [exact (eq_trans E1 E)|exact E2].
Qed.

(** On memory that is fresh after every allocation the first arm counts one fault per block and
    cycle, the second none. *)
Theorem arms_count (v : V) (cycles : Z) :
  0 <= cycles ->
  (exists v', arm_alloc_free v cycles = inr (PAGES_PER_ZONE * cycles, v')) /\
  (exists v', arm_reuse v cycles = inr (0, v')).
Proof.
  intros Hc. split.
  - unfold arm_alloc_free. destruct (cycles_fresh (Z.to_nat cycles) v) as (v' & -> & E). exists v'.
    rewrite Z2Nat.id in E by done. do 2 f_equal. lia.
  - unfold arm_reuse. destruct (alloc_fresh v) as (zone & v1 & -> & Hz & Hf & Hr).
    destruct (touch_zone_spec v1 zone false Hz Hr) as [_ Ht].
    destruct (reuse_resident (Z.to_nat cycles) _ _ Hz Ht) as [E _]. eexists. rewrite E, Z.sub_diag. done.
Qed.

(** [main] reports the three counts, and the hypothesis confirmed at the default of 20000 cycles;
    with 0 cycles, which an argument that is not a number gives, the ratios are not numbers and
    it still says that a page pool is required. *)
Theorem fault_main_verdicts (v : V) :
  (forall cycles, 0 <= cycles -> let n := PAGES_PER_ZONE * cycles in
     fault_main v cycles = inr (n, 0, n, verdict n 0 cycles, mallopt_fixes n n cycles)) /\
  (forall arg, let cycles := fault_cycles 1 arg in verdict (PAGES_PER_ZONE * cycles) 0 cycles = H1Confirmed) /\
  fault_main v (fault_cycles 2 0) = inr (0, 0, 0, H1Inconclusive, false).
Proof.
  assert (Hm : forall cycles, 0 <= cycles -> let n := PAGES_PER_ZONE * cycles in
     fault_main v cycles = inr (n, 0, n, verdict n 0 cycles, mallopt_fixes n n cycles)).
  { intros cycles Hc n. unfold fault_main. destruct (arms_count v cycles Hc) as [(v1 & ->) _].
    destruct (arms_count v1 cycles Hc) as [_ (v2 & ->)].
    destruct (arms_count (vm_mallopt (vm_mallopt v2 M_MMAP_THRESHOLD (ZONE_SIZE * 4)) M_TRIM_THRESHOLD (ZONE_SIZE * 64))
      cycles Hc) as [(v3 & ->) _]. done. }
  split_and!; [exact Hm|intros arg; vm_compute; reflexivity|]. rewrite (Hm (fault_cycles 2 0)) by done. vm_compute. reflexivity.
Qed.

End Probe.
Arguments FreshVm V {_}.

(** * A concrete memory *)

(** One zone, mapped anew by every allocation; which pages are resident, and the faults so far. *)
Definition mapped : Type := (Z -> bool) * Z.

#[export] Instance mapped_vm : Vm mapped := {|
  vm_alloc := fun v _ _ => Some (BLOCK_SIZE, (fun k => if in_range 1 PAGES_PER_ZONE k then false else v.1 k, v.2));
  vm_store := fun v a _ => (fun k => bool_decide (k = a / BLOCK_SIZE) || v.1 k, v.2 + (if v.1 (a / BLOCK_SIZE) then 0 else 1));
  vm_free := fun v _ => v;
  vm_mallopt := fun v _ _ => v;
  vm_minflt := fun v => v.2
|}.

#[export] Instance mapped_fresh : FreshVm mapped.
Proof.
  refine {| resident := fun v : mapped => v.1 |}; try done.
  intros v. do 2 eexists. split; [done|]. split_and!; [done|done|]. intros k Hk. cbn.
  replace (BLOCK_SIZE / BLOCK_SIZE) with 1 by done. rewrite (proj2 (in_range_spec _ _ _)); [done|].
  change PAGES_PER_ZONE with 64 in *. lia.
Defined.

Example mapped_three_cycles :
  fault_main (V := mapped) (fun _ => false, 0) 3 = inr (192, 0, 192, H1Confirmed, false).
Proof. vm_compute. reflexivity. Qed.
