(* ===== verification/Watermark.v ===== *)
(** The RAM watermark of [src/src/watermark.c]: the counters behind its mutex, one definition
    per function, and the gate as a transition system over foreground threads that call
    [nox_watermark_wait] and then allocate, with the condition variable explicit. *)
From stdpp Require Import base numbers list gmap relations.
From S2P Require Import Prelude Config.

(** * State and operations *)

Record watermark := mk_wm {
  g_armed : bool;
  g_high : Z;
  g_low : Z;
  g_live : Z;
  g_blocked_count : Z;
  g_blocked_ns : Z
}.

Definition wm_initial : watermark := mk_wm false 0 0 0 0 0.

(** [None] is the failed assertion. *)
Definition nox_watermark_arm (high low : Z) (w : watermark) : option watermark :=
  if low <? high
  then Some (mk_wm true high low (g_live w) (g_blocked_count w) (g_blocked_ns w))
  else None.

(** The waiters are released by the broadcast that the transition system below models. *)
Definition nox_watermark_disarm (w : watermark) : watermark :=
  mk_wm false (g_high w) (g_low w) (g_live w) (g_blocked_count w) (g_blocked_ns w).

(** First half of [nox_watermark_wait]: the caller passes, or is counted and sleeps. *)
Definition watermark_wait_enter (w : watermark) : bool * watermark :=
  if negb (g_armed w) || (g_live w <? g_high w) then (true, w)
  else (false, mk_wm (g_armed w) (g_high w) (g_low w) (g_live w)
                     (u64 (g_blocked_count w + 1)) (g_blocked_ns w)).

(** The predicate of the wait loop: keep sleeping. *)
Definition watermark_must_sleep (w : watermark) : bool := g_armed w && (g_low w <? g_live w).

(** Second half: the sleeper leaves, [t0] and [now] being its two clock readings. *)
Definition watermark_wait_leave (t0 now : Z) (w : watermark) : watermark :=
  mk_wm (g_armed w) (g_high w) (g_low w) (g_live w) (g_blocked_count w)
        (u64 (g_blocked_ns w + u64 (now - t0))).

Definition set_live (n : Z) (w : watermark) : watermark :=
  mk_wm (g_armed w) (g_high w) (g_low w) n (g_blocked_count w) (g_blocked_ns w).

Definition nox_watermark_note_alloc (w : watermark) : watermark :=
  set_live (u32 (g_live w + 1)) w.

(** [None] is the failed assertion; the boolean is the broadcast. *)
Definition nox_watermark_note_free (w : watermark) : option (watermark * bool) :=
  if 0 <? g_live w then
    let w' := set_live (g_live w - 1) w in
    Some (w', g_armed w' && (g_live w' <=? g_low w'))
  else None.

Definition nox_watermark_live (w : watermark) : Z := g_live w.
Definition nox_watermark_blocked_count (w : watermark) : Z := g_blocked_count w.
Definition nox_watermark_blocked_ns (w : watermark) : Z := g_blocked_ns w.
Definition nox_watermark_reset_for_test (w : watermark) : watermark := wm_initial.

(** [now_ns] of the monotonic clock's seconds and nanoseconds. *)
Definition now_ns (tv_sec tv_nsec : Z) : Z := u64 (u64 tv_sec * 1000000000 + u64 tv_nsec).

(** * The gate as a transition system *)

(** A foreground thread: outside the gate, asleep in [pthread_cond_wait], signalled (or
    spuriously woken) and about to re-test, or past the gate and about to allocate. *)
Inductive gate_thread := GOut | GSleeping (t0 : Z) | GWoken (t0 : Z) | GAdmitted.

Definition gate_state : Type := watermark * gmap nat gate_thread.

(** [pthread_cond_broadcast]. *)
Definition wake (t : gate_thread) : gate_thread :=
  match t with
  | GSleeping t0 => GWoken t0
  | t => t
  end.

Definition broadcast (b : bool) (ts : gmap nat gate_thread) : gmap nat gate_thread :=
  if b then wake <$> ts else ts.

Inductive gate_step : gate_state -> gate_state -> Prop :=
| gate_pass w ts i :
    ts !! i = Some GOut -> (watermark_wait_enter w).1 = true ->
    gate_step (w, ts) (w, <[i := GAdmitted]> ts)
| gate_block w ts i t0 :
    ts !! i = Some GOut -> (watermark_wait_enter w).1 = false ->
    gate_step (w, ts) ((watermark_wait_enter w).2, <[i := GSleeping t0]> ts)
| gate_spurious w ts i t0 :
    ts !! i = Some (GSleeping t0) ->
    gate_step (w, ts) (w, <[i := GWoken t0]> ts)
| gate_resleep w ts i t0 :
    ts !! i = Some (GWoken t0) -> watermark_must_sleep w = true ->
    gate_step (w, ts) (w, <[i := GSleeping t0]> ts)
| gate_leave w ts i t0 now :
    ts !! i = Some (GWoken t0) -> watermark_must_sleep w = false ->
    gate_step (w, ts) (watermark_wait_leave t0 now w, <[i := GAdmitted]> ts)
| gate_alloc w ts i :
    ts !! i = Some GAdmitted ->
    gate_step (w, ts) (nox_watermark_note_alloc w, <[i := GOut]> ts)
| gate_no_alloc w ts i :
    ts !! i = Some GAdmitted ->
    gate_step (w, ts) (w, <[i := GOut]> ts)
| gate_free w ts w' b :
    nox_watermark_note_free w = Some (w', b) ->
    gate_step (w, ts) (w', broadcast b ts)
| gate_disarm w ts :
    gate_step (w, ts) (nox_watermark_disarm w, broadcast true ts).

(** The state [nox_open] leaves: armed, no page live, every thread outside. *)
Definition gate_initial (high low : Z) (n : nat) : gate_state :=
  (mk_wm true high low 0 0 0, list_to_map ((fun i => (i, GOut)) <$> seq 0 n)).

(** * Invariants *)

Definition is_admitted (t : gate_thread) : bool :=
  match t with GAdmitted => true | _ => false end.

Definition admitted (ts : gmap nat gate_thread) : Z :=
  map_fold (fun _ t acc => (if is_admitted t then 1 else 0) + acc) 0 ts.

Lemma admitted_insert ts i t u :
  ts !! i = Some t ->
  admitted (<[i := u]> ts) =
    admitted ts - (if is_admitted t then 1 else 0) + (if is_admitted u then 1 else 0).
Proof.
  intros Hi. unfold admitted.
  rewrite <- (insert_delete_id ts i t Hi) at 2. rewrite <- (insert_delete_eq ts i u).
  rewrite !map_fold_insert_L; [lia|..]; intros; try lia; by rewrite lookup_delete_eq.
Qed.

Lemma admitted_bounds ts : 0 <= admitted ts <= Z.of_nat (size ts).
Proof.
  unfold admitted. induction ts as [|i t ts Hi Hf IH] using map_first_key_ind.
  - rewrite map_fold_empty, map_size_empty. lia.
  - rewrite map_fold_insert_L by (done || intros; lia).
    rewrite map_size_insert_None by done. destruct (is_admitted t); lia.
Qed.

Lemma admitted_insert_bound (ts : gmap nat gate_thread) i t :
  ts !! i = Some t -> is_admitted t = false -> admitted ts + 1 <= Z.of_nat (size ts).
Proof.
  intros Hi Ht. pose proof (admitted_bounds (<[i := GAdmitted]> ts)) as Hb.
  rewrite (admitted_insert _ _ _ _ Hi), map_size_insert_Some, Ht in Hb by eauto.
  cbn in Hb. lia.
Qed.

Lemma admitted_broadcast b ts : admitted (broadcast b ts) = admitted ts.
Proof.
  destruct b; [|done]. unfold admitted, broadcast.
  induction ts as [|i t ts Hi Hf IH] using map_first_key_ind; [done|].
  rewrite fmap_insert, !map_fold_insert_L by (try (intros; lia); rewrite ?lookup_fmap, ?Hi; done).
  rewrite IH. by destruct t.
Qed.

Lemma size_broadcast b ts : size (broadcast b ts) = size ts.
Proof. destruct b; [apply map_size_fmap|done]. Qed.

Section Gate.
Variables (high low : Z) (n : nat).
Hypothesis marks : 0 <= low < high.
Hypothesis marks_fit : high + Z.of_nat n < 2 ^ 32.

(** The marks stay, the level is bounded while armed, and a thread only sleeps while the
    condition it waits on is false. *)
Definition gate_inv (s : gate_state) : Prop :=
  let '(w, ts) := s in
  size ts = n /\ g_high w = high /\ g_low w = low /\ 0 <= g_live w /\
  (g_armed w = true -> g_live w + admitted ts <= high - 1 + Z.of_nat n) /\
  (forall i t0, ts !! i = Some (GSleeping t0) -> watermark_must_sleep w = true).

Lemma gate_initial_inv : gate_inv (gate_initial high low n).
Proof.
  unfold gate_initial, gate_inv. cbn [g_high g_low g_live g_armed].
  set (l := (fun i => (i, GOut)) <$> seq 0 n).
  assert (Hfst : l.*1 = seq 0 n) by (unfold l; rewrite <- list_fmap_compose; apply list_fmap_id).
  assert (Hnd : NoDup l.*1) by (rewrite Hfst; apply NoDup_seq).
  assert (Hsz : size (list_to_map l : gmap nat gate_thread) = n).
  { rewrite map_size_list_to_map by done. unfold l. by rewrite length_fmap, length_seq. }
  assert (Hout : forall i t, (list_to_map l : gmap nat gate_thread) !! i = Some t -> t = GOut).
  { intros i t Hi. apply elem_of_list_to_map_2 in Hi. unfold l in Hi.
    apply list_elem_of_fmap in Hi as (j & [= -> ->] & _). done. }
  split_and!; try done; try lia.
  - intros _. pose proof (admitted_bounds (list_to_map l)). rewrite Hsz in *. lia.
  - intros i t0 Hi. apply Hout in Hi. done.
Qed.

Lemma sleeping_insert (ts : gmap nat gate_thread) i u (P : Prop) :
  (forall j t0, ts !! j = Some (GSleeping t0) -> P) ->
  (forall t0, u = GSleeping t0 -> P) ->
  forall j t0, <[i := u]> ts !! j = Some (GSleeping t0) -> P.
Proof. intros H1 H2 j t0. rewrite lookup_insert. case_decide; naive_solver. Qed.

Lemma sleeping_broadcast (ts : gmap nat gate_thread) j t0 :
  ~ broadcast true ts !! j = Some (GSleeping t0).
Proof. unfold broadcast. rewrite lookup_fmap. by destruct (ts !! j) as [[]|]. Qed.

Lemma gate_step_inv s s' : gate_step s s' -> gate_inv s -> gate_inv s'.
Proof.
  intros Hs. destruct Hs as [w ts i Hi E|w ts i t0 Hi E|w ts i t0 Hi|w ts i t0 Hi E
    |w ts i t0 now Hi E|w ts i Hi|w ts i Hi|w ts w' b E|w ts];
    unfold gate_inv; intros (Hsz & Hh & Hl & Hnn & Hb & Hsl);
    pose proof (admitted_bounds ts) as Hab;
    try (rewrite map_size_insert_Some by eauto; rewrite (admitted_insert _ _ _ _ Hi);
         cbn [is_admitted]; pose proof (admitted_insert_bound _ _ _ Hi) as Hai).
  - unfold watermark_wait_enter in E. split_and!; try done.
    + intros Ha. rewrite Ha in E. cbn in E. destruct (_ <? _) eqn:E2 in E; [|done].
      specialize (Hai eq_refl). lia.
    + eapply sleeping_insert; [exact Hsl|done].
  - unfold watermark_wait_enter in *. destruct (_ || _) eqn:E2; [done|]. cbn.
    unfold watermark_must_sleep in *. cbn. split_and!; try done; lia.
  - split_and!; try done; try lia. eapply sleeping_insert; [exact Hsl|done].
  - split_and!; try done; lia.
  - unfold watermark_must_sleep in *. cbn. split_and!; try done.
    + intros Ha. rewrite Ha in *. specialize (Hai eq_refl). cbn in *. lia.
    + eapply sleeping_insert; [exact Hsl|done].
  - unfold watermark_must_sleep in *. cbn. pose proof (u32_range (g_live w + 1)).
    split_and!; try done; try lia.
    + intros Ha. specialize (Hb Ha). rewrite u32_small by lia. lia.
    + eapply sleeping_insert; [|done]. intros j t0 Hj. apply Hsl in Hj.
      destruct (g_armed w); [|done]. specialize (Hb eq_refl). cbn in *. rewrite u32_small; lia.
  - split_and!; try done; try lia. eapply sleeping_insert; [exact Hsl|done].
  - unfold nox_watermark_note_free in E. destruct (0 <? g_live w) eqn:E0; [|done].
    injection E as <- <-. rewrite size_broadcast, admitted_broadcast. cbn.
    split_and!; try done; [lia|intros Ha; specialize (Hb Ha); lia|].
    intros j t0. destruct (g_armed w && _) eqn:E2; [by intros Hj%sleeping_broadcast|].
    intros Hj%Hsl. unfold watermark_must_sleep in *. cbn in *. lia.
  - rewrite size_broadcast. split_and!; try done. by intros j t0 Hj%sleeping_broadcast.
Qed.

Lemma gate_reachable_inv s : rtc gate_step (gate_initial high low n) s -> gate_inv s.
Proof.
  intros Hr. remember (gate_initial high low n) as s0. induction Hr as [s|s1 s2 s3 H1 H2 IH].
  - subst. apply gate_initial_inv.
  - subst s1. clear IH. assert (gate_inv s2) as H3 by (eapply gate_step_inv, gate_initial_inv; done).
    clear H1. induction H2; eauto using gate_step_inv.
Qed.

End Gate.

(** * Properties *)

(** C32: The overshoot the header documents is bounded: while the gate is armed, with [n]
    foreground threads the number of live pages never exceeds [high - 1 + n], however the
    waits, wake-ups (spurious ones included), allocations and frees interleave. *)
Theorem live_overshoot_bounded (high low : Z) (n : nat) (w : watermark)
    (ts : gmap nat gate_thread) :
  0 <= low < high -> high + Z.of_nat n < 2 ^ 32 ->
  rtc gate_step (gate_initial high low n) (w, ts) ->
  g_armed w = true -> nox_watermark_live w <= high - 1 + Z.of_nat n.
Proof.
  intros Hm Hf Hr Ha. apply gate_reachable_inv in Hr as (Hsz & _ & _ & _ & Hb & _); [|done..].
  specialize (Hb Ha). pose proof (admitted_bounds ts). unfold nox_watermark_live. lia.
Qed.

(** Two threads pass the gate together at one page below the mark and both allocate. *)
Definition overshoot_state : gate_state :=
  (mk_wm true 1 0 2 0 0, {[0%nat := GOut; 1%nat := GOut]}).

Lemma overshoot_reachable : rtc gate_step (gate_initial 1 0 2) overshoot_state.
Proof.
  eapply rtc_l; [eapply (gate_pass _ _ 0); done|]. eapply rtc_l; [eapply (gate_pass _ _ 1); done|].
  eapply rtc_l; [eapply (gate_alloc _ _ 0); done|]. eapply rtc_l; [eapply (gate_alloc _ _ 1); done|].
  match goal with |- rtc _ ?s _ => replace s with overshoot_state; [reflexivity|] end.
  vm_compute. reflexivity.
Qed.

Lemma live_overshoot_bounded_witness : nox_watermark_live overshoot_state.1 = 2 /\ 2 <= 1 - 1 + 2.
Proof.
  split; [reflexivity|].
  apply (live_overshoot_bounded 1 0 2 overshoot_state.1 overshoot_state.2);
    [lia|lia|apply overshoot_reachable|reflexivity].
Defined.

(** C31: No wake-up is lost: in every reachable state a thread asleep on the gate's condition
    variable still has to sleep, that is, the gate is armed and the level is above [low]. So
    the free that brings the level down to [low], and [nox_watermark_disarm], leave no
    thread asleep. *)
Theorem gate_no_lost_wakeup (high low : Z) (n : nat) (w : watermark)
    (ts : gmap nat gate_thread) (i : nat) (t0 : Z) :
  0 <= low < high -> high + Z.of_nat n < 2 ^ 32 ->
  rtc gate_step (gate_initial high low n) (w, ts) ->
  ts !! i = Some (GSleeping t0) -> g_armed w = true /\ low < nox_watermark_live w.
Proof.
  intros Hm Hf Hr Hi. apply gate_reachable_inv in Hr as (_ & _ & Hl & _ & _ & Hs); [|done..].
  apply Hs in Hi. unfold watermark_must_sleep, nox_watermark_live in *. lia.
Qed.

(** One thread allocates the only page and comes back. *)
Definition sleeper_state : gate_state :=
  (mk_wm true 1 0 1 1 0, {[0%nat := GSleeping 77]}).

Lemma sleeper_reachable : rtc gate_step (gate_initial 1 0 1) sleeper_state.
Proof.
  eapply rtc_l; [eapply (gate_pass _ _ 0); done|]. eapply rtc_l; [eapply (gate_alloc _ _ 0); done|].
  eapply rtc_l; [eapply (gate_block _ _ 0 77); done|].
  match goal with |- rtc _ ?s _ => replace s with sleeper_state; [reflexivity|] end.
  vm_compute. reflexivity.
Qed.

Lemma gate_no_lost_wakeup_witness :
  g_armed sleeper_state.1 = true /\ 0 < nox_watermark_live sleeper_state.1.
Proof.
  apply (gate_no_lost_wakeup 1 0 1 sleeper_state.1 sleeper_state.2 0 77);
    [lia|lia|apply sleeper_reachable|reflexivity].
Defined.

(** [nox_watermark_arm] does not broadcast, on the grounds that arming can only add a
    reason to sleep. Re-arming with a higher [low] removes one: a reachable state with a
    sleeping thread exists in which the new marks make its wait predicate false and nothing
    has woken it. *)
Theorem rearm_strands_sleeper :
  exists w ts w' t0,
    rtc gate_step (gate_initial 1 0 1) (w, ts) /\
    nox_watermark_arm 8 4 w = Some w' /\
    ts !! 0%nat = Some (GSleeping t0) /\ watermark_must_sleep w' = false.
Proof.
  exists sleeper_state.1, sleeper_state.2. eexists _, 77. split_and!.
  - apply sleeper_reachable.
  - reflexivity.
  - reflexivity.
  - reflexivity.
Qed.
