(* ===== verification/ScrapPage.v ===== *)
(** Scrap pages ([src/src/scrap_page.h], [src/src/scrap_page.c]): a header and a 256KB data
    zone, the merge of a user write, and the two halves of the flush, Stage-1's reading and
    filling of the holes and the write-back of the whole zone. *)
From stdpp Require Import base numbers list sets.
From Corelib Require Import Init.Byte.
From S2P Require Import Prelude Config Segments IoDirect Watermark.

(** * Data *)

(** Pages are allocated blocks; pointers between them are addresses. *)
Abbreviation addr := positive.

(** [lock] is not a field: every definition of this development is one critical section.
    [ssd_id_seen] is never written by the engine. *)
Record scrap_page := mk_page {
  hdr : scrap_header;
  data_addr : Z;
  data : buf;
  base : Z;
  next : option addr;
  qnext : option addr;
  in_queue : bool;
  detached : bool
}.

Definition set_hdr (h : scrap_header) (p : scrap_page) : scrap_page :=
  mk_page h (data_addr p) (data p) (base p) (next p) (qnext p) (in_queue p) (detached p).
Definition set_data (d : buf) (p : scrap_page) : scrap_page :=
  mk_page (hdr p) (data_addr p) d (base p) (next p) (qnext p) (in_queue p) (detached p).
Definition set_next (n : option addr) (p : scrap_page) : scrap_page :=
  mk_page (hdr p) (data_addr p) (data p) (base p) n (qnext p) (in_queue p) (detached p).
Definition set_qnext (n : option addr) (p : scrap_page) : scrap_page :=
  mk_page (hdr p) (data_addr p) (data p) (base p) (next p) n (in_queue p) (detached p).
Definition set_in_queue (b : bool) (p : scrap_page) : scrap_page :=
  mk_page (hdr p) (data_addr p) (data p) (base p) (next p) (qnext p) b (detached p).
Definition set_detached (b : bool) (p : scrap_page) : scrap_page :=
  mk_page (hdr p) (data_addr p) (data p) (base p) (next p) (qnext p) (in_queue p) b.

(** The bytes of the zone that hold data. *)
Definition covered (p : scrap_page) (x : Z) : Prop := covers (segments (hdr p)) x.

Definition page_wf `{NoxConfig} (p : scrap_page) : Prop :=
  header_wf (hdr p) /\ 0 <= base p < 2 ^ 63 - NOX_DATAZONE_SIZE /\
  aligned NOX_DATAZONE_SIZE (base p) /\ aligned NOX_BLOCK_SIZE (data_addr p).

(** * Operations *)

Section Operations.
Context `{NoxConfig}.

(** The allocator's answers are arguments: whether [malloc] of the struct succeeded, and the
    address and (unspecified) contents of the zone when [posix_memalign] did. *)
Definition scrap_page_alloc (b ssd : Z) (malloc_ok : bool) (zone : option (Z * buf))
    (w : watermark) : option scrap_page * watermark :=
  if malloc_ok then
    match zone with
    | None => (None, w)
    | Some (a, junk) =>
        (Some (mk_page (fresh_header ssd) a junk b None None false false),
         nox_watermark_note_alloc w)
    end
  else (None, w).

Definition scrap_page_is_full (p : scrap_page) : bool := is_full (hdr p).

(** [None] is a copy outside the data zone. *)
Definition scrap_page_merge (p : scrap_page) (src : buf) (intra_off len : Z)
  : option (scrap_status * scrap_page) :=
  match coalesce_insert (hdr p) intra_off len with
  | (SCRAP_OVERFLOW, _) => Some (SCRAP_OVERFLOW, p)
  | (SCRAP_OK, probe) =>
      d ← memcpy NOX_DATAZONE_SIZE (data p) intra_off src len;
      Some (SCRAP_OK, set_hdr probe (set_data d p))
  end.

Definition scrap_page_hole_ranges (p : scrap_page) (max : Z) : list scrap_entry :=
  hole_ranges (hdr p) max.

(** The copies of [scrap_page_apply_holes]: every hole, from the same offset of [scratch]. *)
Fixpoint copy_holes (holes : list scrap_entry) (scratch d : buf) : option buf :=
  match holes with
  | h :: r =>
      d ← memcpy NOX_DATAZONE_SIZE d (e_offset h) (buf_drop (e_offset h) scratch) (e_size h);
      copy_holes r scratch d
  | [] => Some d
  end.

Definition scrap_page_apply_holes (p : scrap_page) (scratch : buf) : option scrap_page :=
  d ← copy_holes (scrap_page_hole_ranges p (NOX_MAX_ENTRIES + 1)) scratch (data p);
  Some (set_hdr (collapse_header (hdr p)) (set_data d p)).

(** The block-aligned range a hole's read is widened to. *)
Definition widen_hole (h : scrap_entry) : Z * Z :=
  let h_end := u32 (e_offset h + e_size h) in
  let a_off := Z.land (e_offset h) (u32 (Z.lnot (NOX_BLOCK_SIZE - 1))) in
  let a_end := Z.land (u32 (h_end + NOX_BLOCK_SIZE - 1)) (u32 (Z.lnot (NOX_BLOCK_SIZE - 1))) in
  (a_off, if NOX_DATAZONE_SIZE <? a_end then NOX_DATAZONE_SIZE else a_end).

Context {S : Type} `{Posix S}.

(** One device read of [off, fin) of the zone at file offset [b], into the scratch buffer
    [dst] at [saddr]; the boolean tells success. *)
Definition read_run (b : Z) (s : S) (saddr : Z) (dst : buf) (off fin : Z)
  : option (bool * buf * S * list diag) :=
  let len := u32 (fin - off) in
  dst ← memset NOX_DATAZONE_SIZE dst off x00 len;
  match io_direct_pread s (saddr + off) len (s64 (u64 (b + off))) with
  | (SysErr _, _, s, log) => Some (false, dst, s, log)
  | (SysOk n, bytes, s, log) =>
      dst ← memcpy NOX_DATAZONE_SIZE dst off bytes n;
      Some (true, dst, s, log)
  end.

(** The loop of [scrap_page_read_holes]: [run] is the open run not yet issued, [asked] the
    bytes requested so far. The result is [None] for the error return, and the value stored
    through [bytes_read] otherwise. *)
Fixpoint read_holes_loop (b saddr : Z) (holes : list scrap_entry) (run : option (Z * Z))
    (asked : Z) (dst : buf) (s : S) (log : list diag)
  : option (option Z * buf * S * list diag) :=
  match holes with
  | h :: r =>
      let '(a_off, a_end) := widen_hole h in
      match run with
      | Some (run_off, run_end) =>
          if a_off <=? run_end then
            read_holes_loop b saddr r
              (Some (run_off, if run_end <? a_end then a_end else run_end)) asked dst s log
          else
            '(ok, dst, s, l) ← read_run b s saddr dst run_off run_end;
            if (ok : bool) then
              read_holes_loop b saddr r (Some (a_off, a_end))
                (u64 (asked + u32 (run_end - run_off))) dst s (log ++ l)
            else Some (None, dst, s, log ++ l)
      | None => read_holes_loop b saddr r (Some (a_off, a_end)) asked dst s log
      end
  | [] =>
      match run with
      | Some (run_off, run_end) =>
          '(ok, dst, s, l) ← read_run b s saddr dst run_off run_end;
          if (ok : bool)
          then Some (Some (u64 (asked + u32 (run_end - run_off))), dst, s, log ++ l)
          else Some (None, dst, s, log ++ l)
      | None => Some (Some asked, dst, s, log)
      end
  end.

Definition scrap_page_read_holes (b : Z) (s : S) (holes : list scrap_entry) (saddr : Z)
    (scratch : buf) : option (option Z * buf * S * list diag) :=
  read_holes_loop b saddr holes None 0 scratch s [].

(** [junk] is the unspecified contents of the scratch buffer. The boolean tells success. *)
Definition scrap_page_fill_holes (p : scrap_page) (s : S) (junk : buf)
  : option (bool * scrap_page * S * list diag) :=
  let holes := scrap_page_hole_ranges p (NOX_MAX_ENTRIES + 1) in
  match holes with
  | [] => Some (true, p, s, [])
  | _ =>
      match posix_memalign s NOX_BLOCK_SIZE NOX_DATAZONE_SIZE with
      | None => Some (false, p, s, [])
      | Some saddr =>
          '(rc, scratch, s, log) ← scrap_page_read_holes (base p) s holes saddr junk;
          match rc with
          | Some _ => p ← scrap_page_apply_holes p scratch; Some (true, p, s, log)
          | None => Some (false, p, s, log)
          end
      end
  end.

Definition scrap_page_writeback (p : scrap_page) (s : S)
  : option (bool * S * list diag) :=
  '(w, s, log) ← io_direct_pwrite_all s (data_addr p) (data p) NOX_DATAZONE_SIZE (s64 (base p));
  Some (bool_decide (w = SysOk NOX_DATAZONE_SIZE), s, log).

End Operations.

(** * Merging *)

Lemma scrap_page_merge_eq `{NoxConfig} p src off len :
  header_wf (hdr p) -> 0 <= off -> 0 < len -> off + len <= NOX_DATAZONE_SIZE ->
  let out := seg_insert (segments (hdr p)) off len in
  scrap_page_merge p src off len =
    if Z.of_nat (length out) <=? NOX_MAX_ENTRIES
    then Some (SCRAP_OK, set_hdr (insert_header (hdr p) out)
                           (set_data (buf_put (data p) off src len) p))
    else Some (SCRAP_OVERFLOW, p).
Proof.
  intros Hwf Hoff Hlen Hend out. unfold scrap_page_merge.
  rewrite coalesce_insert_eq by done. fold out. destruct (_ <=? _); [|done].
  rewrite memcpy_ok by lia. done.
Qed.

(** * Filling the holes *)

Lemma copy_holes_spec lo holes scratch d :
  0 <= lo -> segs_wf lo holes ->
  exists d', copy_holes holes scratch d = Some d' /\
    forall x, d' x = if coversb holes x then scratch x else d x.
Proof.
  revert lo d. induction holes as [|h holes IH]; intros lo d Hlo Hwf; [by exists d|].
  destruct Hwf as (H1 & H2 & H3 & H4). cbn [copy_holes].
  rewrite memcpy_ok by lia. cbn [mbind option_bind].
  destruct (IH (e_offset h + e_size h + 1)
    (buf_put d (e_offset h) (buf_drop (e_offset h) scratch) (e_size h))) as (d' & -> & Hd');
    [lia|done|].
  exists d'. split; [done|]. intros x. rewrite Hd'. cbn [coversb existsb].
  fold (coversb holes x). destruct (coversb holes x); [by rewrite orb_true_r|].
  rewrite orb_false_r. unfold buf_put, buf_drop. case_ifs; [f_equal; lia|done].
Qed.

Lemma apply_holes_spec `{NoxConfig} p scratch :
  header_wf (hdr p) ->
  exists d', scrap_page_apply_holes p scratch =
               Some (set_hdr (collapse_header (hdr p)) (set_data d' p)) /\
    forall x, d' x = if bool_decide (0 <= x < NOX_DATAZONE_SIZE /\ ~ covered p x)
                     then scratch x else data p x.
Proof.
  intros Hwf. unfold scrap_page_apply_holes, scrap_page_hole_ranges.
  rewrite hole_ranges_eq by done. pose proof Hwf as (_ & _ & Hsw & _).
  pose proof (gaps_wf 0 _ ltac:(lia) Hsw) as Hg.
  destruct (copy_holes_spec 0 (gaps 0 (segments (hdr p))) scratch (data p)) as (d' & -> & Hd');
    [lia|done|].
  exists d'. split; [done|]. intros x. rewrite Hd'.
  destruct (coversb _ x) eqn:E; case_bool_decide as Hb; try done.
  - apply coversb_spec in E. destruct Hb.
    pose proof (segs_wf_covers _ _ _ Hg E). split; [lia|]. by apply (gaps_cover 0).
  - destruct Hb as [Hx Hn]. apply (gaps_cover 0), coversb_spec in Hn; [congruence|lia|done|lia].
Qed.

(** * Block-aligned runs *)

Lemma round_down_block x : 0 <= x < 2 ^ 32 ->
  Z.land x (u32 (Z.lnot (NOX_BLOCK_SIZE - 1))) = x - x mod NOX_BLOCK_SIZE.
Proof. intros H. apply (land_lnot_ones x 12 32); lia. Qed.

Lemma sub_mod_aligned m x : 0 < m -> aligned m (x - x mod m).
Proof. intros Hm. unfold aligned. rewrite Zminus_mod_idemp_r, Z.sub_diag. apply Z.mod_0_l. lia. Qed.

Lemma round_down_ge m r x : 0 < m -> aligned m r -> r <= x -> r <= x - x mod m.
Proof.
  unfold aligned. intros Hm Hr Hx. pose proof (Z.div_mod x m). pose proof (Z.div_mod r m).
  assert (r / m <= x / m) by (apply Z.div_le_mono; lia). nia.
Qed.

Lemma widen_hole_spec h :
  0 <= e_offset h -> 0 < e_size h -> e_offset h + e_size h <= NOX_DATAZONE_SIZE ->
  exists a_off a_end, widen_hole h = (a_off, a_end) /\
    a_off = e_offset h - e_offset h mod NOX_BLOCK_SIZE /\
    0 <= a_off <= e_offset h /\ e_offset h + e_size h <= a_end <= NOX_DATAZONE_SIZE /\
    aligned NOX_BLOCK_SIZE a_off /\ aligned NOX_BLOCK_SIZE a_end.
Proof.
  intros H1 H2 H3. unfold widen_hole. rewrite (u32_small (e_offset h + e_size h)) by sz.
  rewrite !round_down_block by (rewrite ?u32_small; sz). rewrite u32_small by sz.
  remember (e_offset h + e_size h + NOX_BLOCK_SIZE - 1) as e eqn:He.
  pose proof (Z.mod_pos_bound (e_offset h) NOX_BLOCK_SIZE ltac:(sz)).
  pose proof (Z.mod_pos_bound e NOX_BLOCK_SIZE ltac:(sz)).
  pose proof (Z.mod_le (e_offset h) NOX_BLOCK_SIZE ltac:(sz) ltac:(sz)).
  assert (e - e mod NOX_BLOCK_SIZE <= NOX_DATAZONE_SIZE).
  { assert (e / NOX_BLOCK_SIZE <= 64) by (apply Z.lt_succ_r, Z.div_lt_upper_bound; sz).
    pose proof (Z.div_mod e NOX_BLOCK_SIZE ltac:(sz)). sz. }
  destruct (_ <? _) eqn:E; [contra_lia|].
  do 2 eexists. split_and!; try done; try lia; apply sub_mod_aligned; sz.
Qed.

(** The runs [scrap_page_read_holes] issues, in order. *)
Fixpoint hole_runs (holes : list scrap_entry) (run : option (Z * Z)) : list scrap_entry :=
  match holes with
  | h :: r =>
      let '(a_off, a_end) := widen_hole h in
      match run with
      | Some (run_off, run_end) =>
          if a_off <=? run_end
          then hole_runs r (Some (run_off, if run_end <? a_end then a_end else run_end))
          else mk_entry run_off (run_end - run_off) :: hole_runs r (Some (a_off, a_end))
      | None => hole_runs r (Some (a_off, a_end))
      end
  | [] => match run with
          | Some (run_off, run_end) => [mk_entry run_off (run_end - run_off)]
          | None => []
          end
  end.

(** A byte of a block that a hole touches. *)
Definition widened (holes : list scrap_entry) (x : Z) : Prop :=
  exists h, h ∈ holes /\ (widen_hole h).1 <= x < (widen_hole h).2.

Definition runs_aligned (runs : list scrap_entry) : Prop :=
  Forall (fun r => aligned NOX_BLOCK_SIZE (e_offset r) /\ aligned NOX_BLOCK_SIZE (e_size r)) runs.

Lemma widened_cons h holes x :
  widened (h :: holes) x <-> (widen_hole h).1 <= x < (widen_hole h).2 \/ widened holes x.
Proof. unfold widened. set_solver. Qed.

Lemma hole_runs_open lo holes ro re :
  segs_wf lo holes -> 0 <= ro -> ro <= lo -> ro < re -> re <= NOX_DATAZONE_SIZE ->
  aligned NOX_BLOCK_SIZE ro -> aligned NOX_BLOCK_SIZE re ->
  segs_wf ro (hole_runs holes (Some (ro, re))) /\
  runs_aligned (hole_runs holes (Some (ro, re))) /\
  (forall x, covers (hole_runs holes (Some (ro, re))) x <-> ro <= x < re \/ widened holes x).
Proof.
  revert lo ro re. induction holes as [|h holes IH]; intros lo ro re Hwf H0 Hlo Hlt Hre Ha1 Ha2.
  - cbn [hole_runs]. split_and!.
    + cbn. lia.
    + repeat constructor; cbn; [done|]. apply aligned_sub; sz || done.
    + intros x. rewrite covers_cons, covers_nil. cbn. unfold widened. set_solver by lia.
  - destruct Hwf as (H1 & H2 & H3 & H4). cbn [hole_runs].
    destruct (widen_hole_spec h) as (ao & ae & E & Eo & Hao & Hae & Hal1 & Hal2); [lia..|].
    assert (ro <= ao) by (subst ao; apply round_down_ge; sz || done).
    rewrite E. destruct (ao <=? re) eqn:E1.
    + set (re' := if re <? ae then ae else re).
      assert (re' = Z.max re ae) as Hmax by (unfold re'; case_ifs; lia).
      assert (aligned NOX_BLOCK_SIZE re') by (unfold re'; case_ifs; done).
      destruct (IH _ ro re' H4) as (W & A & C); [lia|lia|lia|lia|done|done|].
      split_and!; [done|done|]. intros x. rewrite C, widened_cons, E. cbn. split; intros; intuition lia.
    + destruct (IH _ ao ae H4) as (W & A & C); [lia|lia|lia|lia|done|done|].
      split_and!.
      * cbn. split_and!; try lia. eapply segs_wf_weaken; [|exact W]. lia.
      * constructor; [|done]. cbn. split; [done|]. apply aligned_sub; sz || done.
      * intros x. rewrite covers_cons, C, widened_cons, E. cbn.
        replace (ro + (re - ro)) with re by lia. tauto.
Qed.

Lemma hole_runs_spec holes :
  segs_wf 0 holes ->
  segs_wf 0 (hole_runs holes None) /\ runs_aligned (hole_runs holes None) /\
  (forall x, covers (hole_runs holes None) x <-> widened holes x).
Proof.
  destruct holes as [|h holes]; intros Hwf.
  { split_and!; [done|constructor|]. intros x. cbn. rewrite covers_nil. unfold widened. set_solver. }
  destruct Hwf as (H1 & H2 & H3 & H4). cbn [hole_runs].
  destruct (widen_hole_spec h) as (ao & ae & E & _ & Hao & Hae & Hal1 & Hal2); [lia..|].
  rewrite E. destruct (hole_runs_open _ holes ao ae H4) as (W & A & C); [lia|lia|lia|lia|done|done|].
  split_and!; [eapply segs_wf_weaken; [|exact W]; lia|done|].
  intros x. rewrite C, widened_cons, E. done.
Qed.

Lemma covers_widened holes x : segs_wf 0 holes -> covers holes x -> widened holes x.
Proof.
  intros Hwf (h & Hh & Hx). exists h. split; [done|].
  destruct (segs_wf_elem _ _ _ Hwf Hh) as (?&?&?).
  destruct (widen_hole_spec h) as (ao & ae & -> & _ & Hao & Hae & _); cbn; lia.
Qed.

(** * Reading the runs *)

Section Reading.
Context {S : Type} `{PosixLaws S}.

(** The reads of a list of runs, stopping at the first hard error. *)
Fixpoint read_runs (b saddr : Z) (runs : list scrap_entry) (asked : Z) (dst : buf) (s : S)
    (log : list diag) : option (option Z * buf * S * list diag) :=
  match runs with
  | r :: rs =>
      '(ok, dst, s, l) ← read_run b s saddr dst (e_offset r) (e_offset r + e_size r);
      if (ok : bool)
      then read_runs b saddr rs (u64 (asked + u32 (e_size r))) dst s (log ++ l)
      else Some (None, dst, s, log ++ l)
  | [] => Some (Some asked, dst, s, log)
  end.

Lemma read_holes_loop_runs b saddr holes run asked dst s log :
  read_holes_loop b saddr holes run asked dst s log =
  read_runs b saddr (hole_runs holes run) asked dst s log.
Proof.
  revert run asked dst s log. induction holes as [|h holes IH]; intros run asked dst s log.
  - destruct run as [[ro re]|]; [|done]. cbn [read_holes_loop hole_runs read_runs e_offset e_size].
    replace (ro + (re - ro)) with re by lia. done.
  - cbn [read_holes_loop hole_runs]. destruct (widen_hole h) as [ao ae].
    destruct run as [[ro re]|]; [|apply IH]. destruct (ao <=? re); [apply IH|].
    cbn [read_runs e_offset e_size]. replace (ro + (re - ro)) with re by lia.
    destruct (read_run b s saddr dst ro re) as [[[[[] d] s'] l]|]; [|done..].
    cbn [mbind option_bind]. apply IH.
Qed.

Lemma read_run_spec b s saddr dst off fin :
  0 <= b -> b + NOX_DATAZONE_SIZE < 2 ^ 63 -> 0 <= off < fin -> fin <= NOX_DATAZONE_SIZE ->
  exists ok dst' s' log, read_run b s saddr dst off fin = Some (ok, dst', s', log) /\
    file_byte s' ≈ file_byte s /\
    (ok = true -> forall x, dst' x = if in_range off (fin - off) x
                                     then file_byte s (b + x) else dst x).
Proof.
  intros Hb Hb2 Hoff Hfin. unfold read_run, io_direct_pread.
  rewrite u32_small by sz. rewrite memset_ok by lia. cbn [mbind option_bind].
  rewrite u64_small, s64_small by sz.
  destruct (sys_pread s (fin - off) (b + off)) as [[[n|e] bytes] s'] eqn:E.
  - apply pread_ok in E as (Hn & Hbytes & Hzero & Hf). rewrite memcpy_ok by lia.
    do 4 eexists. split; [done|]. split; [done|]. intros _ x. unfold buf_put, in_range.
    destruct ((off <=? x) && (x <? off + n)) eqn:E1;
      destruct ((off <=? x) && (x <? off + (fin - off))) eqn:E2; try contra_lia; [..|done].
    + rewrite Hbytes by lia.
      by replace (b + off + (x - off)) with (b + x) by lia.
    + rewrite <- (Hzero (x - off)) by lia.
      by replace (b + off + (x - off)) with (b + x) by lia.
  - apply pread_err in E. do 4 eexists. split; [done|]. split; [done|]. done.
Qed.

Lemma read_runs_spec b saddr lo runs asked dst s log :
  0 <= b -> b + NOX_DATAZONE_SIZE < 2 ^ 63 -> 0 <= lo -> segs_wf lo runs ->
  0 <= asked <= lo ->
  exists rc dst' s' log', read_runs b saddr runs asked dst s log = Some (rc, dst', s', log') /\
    file_byte s' ≈ file_byte s /\
    (forall n, rc = Some n ->
       n = asked + seg_total runs /\
       forall x, dst' x = if coversb runs x then file_byte s (b + x) else dst x).
Proof.
  intros Hb Hb2. revert lo asked dst s log.
  induction runs as [|r runs IH]; intros lo asked dst s log Hlo Hwf Ha.
  { do 4 eexists. split; [done|]. split; [done|]. intros n [= <-]. cbn. split; [lia|done]. }
  destruct Hwf as (H1 & H2 & H3 & H4). cbn [read_runs].
  destruct (read_run_spec b s saddr dst (e_offset r) (e_offset r + e_size r))
    as (ok & dst1 & s1 & l1 & -> & Hf1 & Hd1); [lia..|].
  cbn [mbind option_bind]. destruct ok.
  - rewrite u32_small, u64_small by sz.
    destruct (IH (e_offset r + e_size r + 1) (asked + e_size r) dst1 s1 (log ++ l1))
      as (rc & dst' & s' & log' & -> & Hf & Hd); [lia|done|lia|].
    do 4 eexists. split; [done|]. split; [by rewrite Hf|]. intros n Hn.
    destruct (Hd n Hn) as [-> Hx]. split; [cbn; lia|]. intros x. rewrite Hx, Hf1, Hd1 by done.
    cbn [coversb existsb]. fold (coversb runs x).
    replace (e_offset r + e_size r - e_offset r) with (e_size r) by lia.
    destruct (coversb runs x); [by rewrite orb_true_r|]. by rewrite orb_false_r.
  - do 4 eexists. split; [done|]. split; [done|]. done.
Qed.

Lemma read_holes_spec b s holes saddr scratch :
  0 <= b -> b + NOX_DATAZONE_SIZE < 2 ^ 63 -> segs_wf 0 holes ->
  exists rc scratch' s' log,
    scrap_page_read_holes b s holes saddr scratch = Some (rc, scratch', s', log) /\
    file_byte s' ≈ file_byte s /\
    (forall n, rc = Some n ->
       n = seg_total (hole_runs holes None) /\
       forall x, scratch' x = if coversb (hole_runs holes None) x
                              then file_byte s (b + x) else scratch x).
Proof.
  intros Hb Hb2 Hwf. unfold scrap_page_read_holes. rewrite read_holes_loop_runs.
  apply hole_runs_spec in Hwf as (Hw & _). exact (read_runs_spec b saddr 0 _ 0 scratch s [] Hb Hb2
    ltac:(lia) Hw ltac:(lia)).
Qed.

Lemma read_holes_fills b s holes saddr scratch n scratch' s' log x :
  0 <= b -> b + NOX_DATAZONE_SIZE < 2 ^ 63 -> segs_wf 0 holes ->
  scrap_page_read_holes b s holes saddr scratch = Some (Some n, scratch', s', log) ->
  covers holes x -> scratch' x = file_byte s (b + x).
Proof.
  intros Hb Hb2 Hwf E Hc.
  destruct (read_holes_spec b s holes saddr scratch Hb Hb2 Hwf) as (rc & d & s1 & l & E' & _ & Hd).
  rewrite E in E'. injection E' as <- <- <- <-. destruct (Hd n eq_refl) as [_ ->].
  rewrite (proj2 (coversb_spec _ x)); [done|].
  apply hole_runs_spec; [done|]. by apply covers_widened.
Qed.

End Reading.

(** * Derived facts on pages *)

Section Pages.
Context `{NoxConfig}.

(** The header part of a merge: what it keeps, what it covers. *)
Lemma merge_spec p src off len :
  page_wf p -> 0 <= off -> 0 < len -> off + len <= NOX_DATAZONE_SIZE ->
  exists st p', scrap_page_merge p src off len = Some (st, p') /\
    match st with
    | SCRAP_OK =>
        page_wf p' /\ (forall x, covered p' x <-> off <= x < off + len \/ covered p x) /\
        data p' = buf_put (data p) off src len /\
        p' = set_hdr (hdr p') (set_data (data p') p) /\
        tag (hdr p') = tag (hdr p) /\ ssd_id (hdr p') = ssd_id (hdr p)
    | SCRAP_OVERFLOW => p' = p
    end.
Proof.
  intros (Hh & Hb) Hoff Hlen Hend. rewrite scrap_page_merge_eq by done.
  destruct (seg_insert_spec (segments (hdr p)) off len) as [Hins Hcov]; [apply Hh|done..|].
  destruct (_ <=? _) eqn:E; do 2 eexists; (split; [done|]); [|done].
  destruct (insert_header_wf (hdr p) _ Hh Hins) as [Hw Hs]; [lia|].
  unfold covered. cbn [set_hdr hdr]. rewrite Hs. done.
Qed.

(** A chunk that leaves at most one segment always fits. *)
Lemma merge_single p src off len :
  page_wf p -> 0 <= off -> 0 < len -> off + len <= NOX_DATAZONE_SIZE ->
  segments (hdr p) = [] \/ segments (hdr p) = full_zone \/ len = NOX_DATAZONE_SIZE ->
  exists p', scrap_page_merge p src off len = Some (SCRAP_OK, p').
Proof.
  intros (Hh & _) Hoff Hlen Hend Hone. pose proof NOX_MAX_ENTRIES_range.
  rewrite scrap_page_merge_eq by done.
  destruct (seg_insert_spec (segments (hdr p)) off len) as [Hins Hcov]; [apply Hh|done..|].
  assert (Z.of_nat (length (seg_insert (segments (hdr p)) off len)) = 1) as ->.
  { destruct Hone as [E|Hone]; [rewrite E; done|].
    assert (seg_insert (segments (hdr p)) off len = full_zone) as ->; [|done].
    apply (segs_wf_canonical 0); [done|apply full_zone_wf|]. intros x.
    rewrite Hcov, full_zone_covers. destruct Hh as (_ & _ & Hh & _).
    destruct Hone as [->| ->]; [rewrite full_zone_covers; lia|].
    pose proof (segs_wf_covers 0 (segments (hdr p)) x Hh). intuition lia. }
  destruct (_ <=? _) eqn:E; [|contra_lia]. eauto.
Qed.

Lemma apply_holes_page p scratch :
  page_wf p ->
  exists p', scrap_page_apply_holes p scratch = Some p' /\ page_wf p' /\
    p' = set_hdr (collapse_header (hdr p)) (set_data (data p') p) /\
    scrap_page_is_full p' = true /\
    forall x, 0 <= x < NOX_DATAZONE_SIZE ->
              (covered p x -> data p' x = data p x) /\ (~ covered p x -> data p' x = scratch x).
Proof.
  intros (Hh & Hb). destruct (apply_holes_spec p scratch Hh) as (d' & E & Hd).
  destruct (collapse_header_wf (hdr p) Hh) as [Hw Hs].
  eexists. split; [exact E|]. split_and!; try done.
  intros x Hx. cbn [set_hdr set_data data]. rewrite Hd.
  split; intros Hc; case_bool_decide; tauto.
Qed.

Lemma holes_of_page p : page_wf p -> segs_wf 0 (scrap_page_hole_ranges p (NOX_MAX_ENTRIES + 1)).
Proof.
  intros (Hh & _). unfold scrap_page_hole_ranges. rewrite hole_ranges_eq by done.
  apply gaps_wf; [lia|apply Hh].
Qed.

Lemma holes_of_page_cover p x :
  page_wf p -> 0 <= x < NOX_DATAZONE_SIZE ->
  covers (scrap_page_hole_ranges p (NOX_MAX_ENTRIES + 1)) x <-> ~ covered p x.
Proof.
  intros (Hh & _) Hx. unfold scrap_page_hole_ranges. rewrite hole_ranges_eq by done.
  apply gaps_cover; [lia|apply Hh|lia].
Qed.

(** A sequence of merges, each a source buffer, an offset and a length. *)
Fixpoint merge_all (p : scrap_page) (ws : list (buf * Z * Z)) : option scrap_page :=
  match ws with
  | (src, off, len) :: r => '(_, p) ← scrap_page_merge p src off len; merge_all p r
  | [] => Some p
  end.

Definition chunks_ok (ws : list (buf * Z * Z)) : Prop :=
  Forall (fun '(_, off, len) => 0 <= off /\ 0 < len /\ off + len <= NOX_DATAZONE_SIZE) ws.

Lemma merge_all_grows p ws :
  page_wf p -> chunks_ok ws ->
  exists p', merge_all p ws = Some p' /\ page_wf p' /\ base p' = base p /\
    forall x, covered p x -> covered p' x.
Proof.
  intros Hp Hws. revert p Hp. induction Hws as [|[[src off] len] ws (H1 & H2 & H3) Hws IH];
    intros p Hp; [by exists p|].
  cbn [merge_all]. destruct (merge_spec p src off len Hp) as (st & p1 & -> & Hst); [done..|].
  cbn [mbind option_bind]. destruct st.
  - destruct Hst as (Hw & Hc & _ & Hk & _). destruct (IH p1 Hw) as (p' & -> & Hw' & Hb & Hg).
    exists p'. split_and!; try done; [rewrite Hb, Hk; done|]. intros x Hx. apply Hg, Hc. tauto.
  - subst p1. apply IH. done.
Qed.

End Pages.

Lemma runs_aligned_total runs lo :
  segs_wf lo runs -> runs_aligned runs ->
  Z.of_nat (length runs) * NOX_BLOCK_SIZE <= seg_total runs.
Proof.
  intros Hwf Ha. revert lo Hwf. induction Ha as [|r runs [_ Hr] Ha IH]; intros lo; cbn; [lia|].
  intros (_ & Hs & _ & Hwf). apply IH in Hwf.
  assert (NOX_BLOCK_SIZE <= e_size r); [|lia].
  apply Z.mod_divide in Hr as [k Hk]; [|sz]. rewrite Hk in *. sz.
Qed.

Section Writeback.
Context `{NoxConfig} {S : Type} `{PosixLaws S}.

Lemma writeback_spec p (s : S) :
  page_wf p ->
  exists ok s' log, scrap_page_writeback p s = Some (ok, s', log) /\
    (forall x, ~ (base p <= x < base p + NOX_DATAZONE_SIZE) -> file_byte s' x = file_byte s x) /\
    (ok = true -> file_byte s' ≈ buf_put (file_byte s) (base p) (data p) NOX_DATAZONE_SIZE).
Proof.
  intros (_ & Hb & _). unfold scrap_page_writeback, io_direct_pwrite_all.
  rewrite s64_small by sz.
  destruct (pwritev_all_spec s [mk_iov (data_addr p) (data p) NOX_DATAZONE_SIZE] (base p))
    as (r & s' & log & -> & Hout & Hr); [repeat constructor; cbn; sz|lia|cbn; sz|].
  cbn [mbind option_bind]. cbn [iov_total iov_len] in Hout, Hr. rewrite Z.add_0_r in Hout, Hr.
  do 3 eexists. split; [done|]. split; [done|]. intros ->%bool_decide_eq_true.
  destruct Hr as [_ Hr]. intros x. rewrite Hr. unfold buf_put.
  destruct (in_range _ _ x) eqn:E; [|done]. apply in_range_spec in E. cbn [iov_gather iov_len].
  destruct (_ <? _) eqn:E2; [done|contra_lia].
Qed.

Lemma fill_holes_spec p (s : S) junk :
  page_wf p ->
  exists ok p' s' log, scrap_page_fill_holes p s junk = Some (ok, p', s', log) /\
    file_byte s' ≈ file_byte s /\ page_wf p' /\ base p' = base p /\
    (ok = false -> p' = p) /\
    (ok = true -> scrap_page_is_full p' = true /\
       forall x, 0 <= x < NOX_DATAZONE_SIZE ->
         data p' x = if decide (covered p x) then data p x else file_byte s (base p + x)).
Proof.
  intros Hp. pose proof Hp as (Hh & Hb & _). unfold scrap_page_fill_holes.
  destruct (scrap_page_hole_ranges p (NOX_MAX_ENTRIES + 1)) as [|h0 hs] eqn:Eh.
  { do 4 eexists. split; [done|]. split_and!; try done. intros _.
    assert (Hall : forall x, 0 <= x < NOX_DATAZONE_SIZE -> covered p x).
    { intros x Hx. destruct (decide (covered p x)) as [|Hn]; [done|].
      apply holes_of_page_cover in Hn; [|done..]. rewrite Eh in Hn. by apply covers_nil in Hn. }
    split.
    - unfold scrap_page_is_full, is_full. rewrite Z.eqb_eq. destruct Hh as (_ & _ & Hs & ->).
      by apply full_iff_covers.
    - intros x Hx. rewrite decide_True by auto. done. }
  rewrite <- Eh. destruct (posix_memalign s NOX_BLOCK_SIZE NOX_DATAZONE_SIZE) as [saddr|].
  2: { do 4 eexists. split; [done|]. split_and!; done. }
  destruct (read_holes_spec (base p) s (scrap_page_hole_ranges p (NOX_MAX_ENTRIES + 1)) saddr junk)
    as (rc & scratch & s' & log & E & Hf & _); [lia|lia|by apply holes_of_page|].
  rewrite E. cbn [mbind option_bind]. destruct rc as [n|].
  2: { do 4 eexists. split; [done|]. split_and!; done. }
  destruct (apply_holes_page p scratch Hp) as (p' & -> & Hp' & Hk & Hfull & Hd).
  cbn [mbind option_bind]. do 4 eexists. split; [done|].
  split_and!; try done; [by rewrite Hk|]. intros _. split; [done|]. intros x Hx.
  destruct (Hd x Hx) as [Hd1 Hd2]. destruct (decide (covered p x)) as [Hc|Hc]; [by apply Hd1|].
  rewrite Hd2 by done. eapply read_holes_fills; [lia|lia| |exact E|]; [by apply holes_of_page|].
  by apply holes_of_page_cover.
Qed.

End Writeback.

(** * Properties *)

(** C20: [scrap_page_merge] never copies outside the data zone. When it accepts a chunk the
    page stays well formed, the zone receives exactly the chunk, coverage grows by exactly
    its range and every other field is kept; when the entry array overflows, the page is
    returned unchanged. A chunk for an empty page (the retry of [scrap_write_chunk]), for a
    completely covered page, or covering the whole zone is always accepted. *)
Theorem scrap_page_merge_correct `{NoxConfig} (p : scrap_page) (src : buf) (off len : Z) :
  page_wf p -> 0 <= off -> 0 < len -> off + len <= NOX_DATAZONE_SIZE ->
  exists st p', scrap_page_merge p src off len = Some (st, p') /\
    match st with
    | SCRAP_OK =>
        page_wf p' /\ (forall x, covered p' x <-> off <= x < off + len \/ covered p x) /\
        data p' = buf_put (data p) off src len /\
        p' = set_hdr (hdr p') (set_data (data p') p) /\
        tag (hdr p') = tag (hdr p) /\ ssd_id (hdr p') = ssd_id (hdr p)
    | SCRAP_OVERFLOW =>
        p' = p /\ segments (hdr p) <> [] /\ scrap_page_is_full p = false /\
        len < NOX_DATAZONE_SIZE
    end.
Proof.
  intros Hp Hoff Hlen Hend. destruct (merge_spec p src off len Hp) as (st & p' & E & Hst); [done..|].
  exists st, p'. split; [done|]. destruct st; [done|]. split; [done|].
  pose proof (merge_single p src off len Hp Hoff Hlen Hend) as Hs.
  assert (Hno : ~ exists p', scrap_page_merge p src off len = Some (SCRAP_OK, p'))
    by (rewrite E; naive_solver).
  split_and!; [tauto| |lia || (destruct (decide (len = NOX_DATAZONE_SIZE)); [tauto|lia])].
  destruct (scrap_page_is_full p) eqn:Ef; [|done].
  apply is_full_iff in Ef; [tauto|apply Hp].
Qed.

(** The page at file offset 256K whose header is [sample_header], in an unzeroed zone. *)
Definition sample_page : scrap_page :=
  mk_page sample_header 4096
    (fun i => if in_range 100 100 i then x11 else if in_range 9000 16 i then x22 else xe7)
    262144 None None true false.

Lemma sample_page_wf : @page_wf default_config sample_page.
Proof. split; [apply sample_header_wf|]. cbn. unfold aligned. split_and!; sz || done. Qed.

Lemma scrap_page_merge_correct_witness :
  exists st p', @scrap_page_merge default_config sample_page (fun _ => x33) 50 50 = Some (st, p') /\
    st = SCRAP_OK /\ map (data p') [49; 50; 99; 100] = [xe7; x33; x33; x11] /\
    @page_wf default_config p'.
Proof.
  destruct (@scrap_page_merge_correct default_config sample_page (fun _ => x33) 50 50
              sample_page_wf ltac:(lia) ltac:(lia) ltac:(sz)) as (st & p' & E & Hst).
  exists st, p'. split; [exact E|].
  assert (st = SCRAP_OK) as ->.
  { enough (Some SCRAP_OK = Some st) by congruence.
    transitivity (fst <$> @scrap_page_merge default_config sample_page (fun _ => x33) 50 50);
      [vm_compute; reflexivity | rewrite E; reflexivity]. }
  destruct Hst as (Hw & _ & Hd & _). rewrite Hd. split_and!; [done|vm_compute; reflexivity|done].
Defined.

(** C23: Stage-1 reads each block at most once. The reads [scrap_page_read_holes] issues are
    the runs [hole_runs]: block-aligned, sorted, separated by a gap, together exactly the
    blocks some hole touches; so at most 64 of them, asking for [bytes_read] bytes, at most
    one zone. They leave the file alone, and on success every byte of every hole has been
    read from its place in the file, zeros past the end of the file included. *)
Theorem read_holes_coalesced {S : Type} `{PosixLaws S} (b : Z) (s : S)
    (holes : list scrap_entry) (saddr : Z) (scratch : buf) :
  0 <= b -> b + NOX_DATAZONE_SIZE < 2 ^ 63 -> segs_wf 0 holes ->
  let runs := hole_runs holes None in
  scrap_page_read_holes b s holes saddr scratch = read_runs b saddr runs 0 scratch s [] /\
  segs_wf 0 runs /\ runs_aligned runs /\ (length runs <= 64)%nat /\
  (forall x, covers runs x <-> widened holes x) /\
  exists rc scratch' s' log,
    scrap_page_read_holes b s holes saddr scratch = Some (rc, scratch', s', log) /\
    file_byte s' ≈ file_byte s /\
    (forall n, rc = Some n ->
       n = seg_total runs /\ n <= NOX_DATAZONE_SIZE /\
       forall x, covers holes x -> scratch' x = file_byte s (b + x)).
Proof.
  intros Hb Hb2 Hwf runs. destruct (hole_runs_spec holes Hwf) as (Hw & Ha & Hc).
  pose proof (runs_aligned_total _ _ Hw Ha) as Ht.
  assert (Hz : seg_total runs <= NOX_DATAZONE_SIZE).
  { pose proof (seg_total_le 0 runs ltac:(lia) Hw). sz. }
  destruct (read_holes_spec b s holes saddr scratch Hb Hb2 Hwf) as (rc & d & s' & log & E & Hf & Hn).
  split_and!; try done.
  - apply read_holes_loop_runs.
  - unfold runs in *. sz.
  - exists rc, d, s', log. split_and!; try done. intros n ->.
    destruct (Hn n eq_refl) as [Hn' _]. split_and!; [done|by rewrite Hn'|].
    intros x Hx. exact (read_holes_fills _ _ _ _ _ _ _ _ _ _ Hb Hb2 Hwf E Hx).
Qed.

(** Two nearby holes share a block; the third is far away. *)
Definition sample_holes : list scrap_entry := [mk_entry 0 100; mk_entry 200 50; mk_entry 9000 10].

Lemma read_holes_coalesced_witness :
  hole_runs sample_holes None = [mk_entry 0 4096; mk_entry 8192 4096] /\
  (length (hole_runs sample_holes None) <= 64)%nat /\
  exists rc scratch' s' log,
    scrap_page_read_holes 262144 sample_file sample_holes 4096 (fun _ => xe7) =
      Some (rc, scratch', s', log).
Proof.
  destruct (read_holes_coalesced 262144 sample_file sample_holes 4096 (fun _ => xe7))
    as (_ & _ & _ & Hl & _ & rc & d & s' & log & E & _); [lia|sz|cbn; sz|].
  split; [vm_compute; reflexivity|]. split; [exact Hl|]. exists rc, d, s', log. exact E.
Defined.

(** C22: The unlocked read of Stage-1 is safe against concurrent merges. Snapshot the holes of
    a page, read them, let the foreground merge any chunks meanwhile, and apply: every byte
    the user wrote, before or during the read, keeps the user's value, every other byte of
    the zone holds what was on disk, and the page is full with one segment. *)
Theorem apply_holes_after_merges `{NoxConfig} {S : Type} `{PosixLaws S}
    (p : scrap_page) (s s' : S) (saddr n : Z) (junk scratch : buf) (log : list diag)
    (ws : list (buf * Z * Z)) :
  page_wf p -> chunks_ok ws ->
  scrap_page_read_holes (base p) s (scrap_page_hole_ranges p (NOX_MAX_ENTRIES + 1)) saddr junk
    = Some (Some n, scratch, s', log) ->
  exists p1 p2, merge_all p ws = Some p1 /\ scrap_page_apply_holes p1 scratch = Some p2 /\
    scrap_page_is_full p2 = true /\ number (hdr p2) = 1 /\ base p2 = base p /\
    forall x, 0 <= x < NOX_DATAZONE_SIZE ->
      data p2 x = if decide (covered p1 x) then data p1 x else file_byte s (base p + x).
Proof.
  intros Hp Hws Hr. destruct (merge_all_grows p ws Hp Hws) as (p1 & E1 & Hp1 & Hb1 & Hg).
  destruct (apply_holes_page p1 scratch Hp1) as (p2 & E2 & _ & Hk & Hfull & Hd).
  exists p1, p2. split_and!; try done; try (by rewrite Hk).
  intros x Hx. destruct (Hd x Hx) as [Hd1 Hd2].
  destruct (decide (covered p1 x)) as [Hc|Hc]; [by apply Hd1|]. rewrite Hd2 by done.
  destruct Hp as (Hh & Hb & Ha). eapply read_holes_fills; [lia|lia| |exact Hr|].
  - by apply holes_of_page.
  - apply holes_of_page_cover; [done|lia|]. intros Hc'. by apply Hc, Hg.
Qed.

(** The sample page, the hole read of it, and a write that lands during the read. *)
Definition sample_disk : mem_file := mk_file (fun _ => x07) 600000 [].

Lemma apply_holes_after_merges_witness :
  exists p1 p2 rc scratch s' log,
    scrap_page_read_holes 262144 sample_disk
      (scrap_page_hole_ranges sample_page 65) 8192 (fun _ => xe7) =
      Some (rc, scratch, s', log) /\
    @merge_all default_config sample_page [(fun _ => x55, 300, 20)] = Some p1 /\
    @scrap_page_apply_holes default_config p1 scratch = Some p2 /\
    data p2 310 = (if decide (covered p1 310) then data p1 310 else x07).
Proof.
  assert (Hok : match scrap_page_read_holes 262144 sample_disk
                        (scrap_page_hole_ranges sample_page 65) 8192 (fun _ => xe7) with
                | Some (Some _, _, _, _) => true | _ => false end = true)
    by (vm_compute; reflexivity).
  destruct (scrap_page_read_holes 262144 sample_disk
      (scrap_page_hole_ranges sample_page 65) 8192 (fun _ => xe7))
    as [[[[[n|] scratch] s'] log]|] eqn:E; [|discriminate Hok..].
  destruct (@apply_holes_after_merges default_config mem_file _ _ sample_page sample_disk s' 8192 n
              (fun _ => xe7) scratch log [(fun _ => x55, 300, 20)]) as (p1 & p2 & E1 & E2 & _ & _ & _ & Hd).
  - exact sample_page_wf.
  - repeat constructor; sz.
  - exact E.
  - exists p1, p2, (Some n), scratch, s', log. split_and!; [reflexivity|exact E1|exact E2|].
    rewrite Hd by sz. reflexivity.
Defined.

(** C21: Flushing a partial page preserves the disk. [scrap_page_fill_holes] followed by
    [scrap_page_writeback] never goes out of bounds and always returns; when both succeed the
    page's region of the file holds the user's bytes where the page has segments and the
    previous file contents everywhere else, whatever the unzeroed zone and the scratch buffer
    held, and the rest of the file is unchanged. A failed fill leaves page and file alone. *)
Theorem flush_page_preserves_disk `{NoxConfig} {S : Type} `{PosixLaws S}
    (p : scrap_page) (s : S) (junk : buf) :
  page_wf p ->
  exists ok1 p1 s1 log1 ok2 s2 log2,
    scrap_page_fill_holes p s junk = Some (ok1, p1, s1, log1) /\
    scrap_page_writeback p1 s1 = Some (ok2, s2, log2) /\
    (ok1 = false -> p1 = p /\ file_byte s1 ≈ file_byte s) /\
    (ok1 = true -> ok2 = true -> forall x,
       file_byte s2 x =
         if decide (base p <= x < base p + NOX_DATAZONE_SIZE /\ covered p (x - base p))
         then data p (x - base p) else file_byte s x).
Proof.
  intros Hp. destruct (fill_holes_spec p s junk Hp)
    as (ok1 & p1 & s1 & log1 & E1 & Hf1 & Hp1 & Hb1 & Hno & Hyes).
  destruct (writeback_spec p1 s1 Hp1) as (ok2 & s2 & log2 & E2 & _ & Hw).
  exists ok1, p1, s1, log1, ok2, s2, log2. split_and!; try done; [by intros ->%Hno|].
  intros -> -> x. destruct Hyes as [_ Hd]; [done|]. rewrite Hw, Hb1 by done. unfold buf_put.
  destruct (in_range _ _ x) eqn:E.
  - apply in_range_spec in E. rewrite Hd by lia. replace (base p + (x - base p)) with x by lia.
    repeat case_decide; tauto || done.
  - rewrite Hf1. rewrite decide_False; [done|]. intros [Hx _]. apply in_range_spec in Hx. congruence.
Qed.

Lemma flush_page_preserves_disk_witness :
  (exists ok1 p1 s1 log1 ok2 s2 log2,
    @scrap_page_fill_holes default_config _ _ sample_page sample_disk (fun _ => xe7) =
      Some (ok1, p1, s1, log1) /\
    scrap_page_writeback p1 s1 = Some (ok2, s2, log2)) /\
  ('(_, p1, s1, _) ← @scrap_page_fill_holes default_config _ _ sample_page sample_disk (fun _ => xe7);
   '(ok, s2, _) ← scrap_page_writeback p1 s1;
   Some (ok, map (file_byte s2) [262143; 262144; 262244; 262343; 262344; 271144; 524287; 524288]))
  = Some (true, [x07; x07; x11; x11; x07; x22; x07; x07]).
Proof.
  split; [|vm_compute; reflexivity].
  destruct (@flush_page_preserves_disk default_config mem_file _ _ sample_page sample_disk (fun _ => xe7)
    sample_page_wf) as (ok1 & p1 & s1 & log1 & ok2 & s2 & log2 & E1 & E2 & _).
  exists ok1, p1, s1, log1, ok2, s2, log2. split; [exact E1|exact E2].
Defined.
