(* ===== verification/Heap.v ===== *)
(** The store of allocated pages and intrusive singly-linked lists through it. The page index
    chains pages by [next] and the queues by [qnext], so the list lemmas are stated once, for
    an arbitrary link field of an arbitrary record. *)
From stdpp Require Import base numbers list gmap sets.
From S2P Require Import Prelude Config Segments Watermark ScrapPage.

Abbreviation heap := (gmap positive scrap_page).

(** Writing through a pointer; [None] is the use of a dangling one. *)
Definition store (a : addr) (f : scrap_page -> scrap_page) (h : heap) : option heap :=
  p ← h !! a; Some (<[a := f p]> h).

Lemma store_some a f h p : h !! a = Some p -> store a f h = Some (<[a := f p]> h).
Proof. intros E. unfold store. by rewrite E. Qed.

Lemma store_inv a f h h' :
  store a f h = Some h' -> exists p, h !! a = Some p /\ h' = <[a := f p]> h.
Proof. unfold store. destruct (h !! a) as [p|]; [|done]. intros [= <-]. eauto. Qed.

(** [scrap_page_free]: [None] is a dangling pointer or the failed assertion of the watermark;
    the boolean is the watermark's broadcast. *)
Definition scrap_page_free (h : heap) (w : watermark) (p : option addr)
  : option (heap * watermark * bool) :=
  match p with
  | None => Some (h, w, false)
  | Some a =>
      _ ← h !! a;
      '(w, wake) ← nox_watermark_note_free w;
      Some (delete a h, w, wake)
  end.

Section Lists.
Context {A : Type} (link : A -> option addr).
Implicit Types h : gmap positive A.

(** The nodes [l], linked in this order, lead from [start] to [stop]. *)
Fixpoint lseg (h : gmap positive A) (start : option addr) (l : list addr) (stop : option addr) : Prop :=
  match l with
  | a :: r => start = Some a /\ exists p, h !! a = Some p /\ lseg h (link p) r stop
  | [] => start = stop
  end.

Lemma lseg_app h start l1 l2 stop :
  lseg h start (l1 ++ l2) stop <-> exists m, lseg h start l1 m /\ lseg h m l2 stop.
Proof.
  revert start. induction l1 as [|a l1 IH]; intros start; cbn.
  - split; [eauto | by intros (m & <- & H)].
  - setoid_rewrite IH. naive_solver.
Qed.

Lemma lseg_lookup h start l stop a :
  lseg h start l stop -> a ∈ l -> exists p, h !! a = Some p.
Proof.
  revert start. induction l as [|b l IH]; intros start; cbn; [set_solver|].
  intros (_ & p & Hp & Hl) [->|Ha]%elem_of_cons; [eauto|]. eapply IH; eauto.
Qed.

(** Writing to a page outside the list, or without changing its link, keeps the list. *)
Lemma lseg_frame h h' start l stop :
  (forall a p, a ∈ l -> h !! a = Some p -> exists p', h' !! a = Some p' /\ link p' = link p) ->
  lseg h start l stop -> lseg h' start l stop.
Proof.
  revert start. induction l as [|a l IH]; intros start Hf; cbn; [done|].
  intros (-> & p & Hp & Hl). split; [done|].
  destruct (Hf a p) as (p' & Hp' & E); [set_solver|done|].
  exists p'. split; [done|]. rewrite E. apply IH; [|done]. intros b q Hb. apply Hf. set_solver.
Qed.

Lemma lseg_insert_ne h start l stop a p :
  a ∉ l -> lseg h start l stop -> lseg (<[a := p]> h) start l stop.
Proof.
  intros Ha. apply lseg_frame. intros b q Hb Hq. exists q.
  rewrite lookup_insert_ne by set_solver. done.
Qed.

Lemma lseg_insert_same h start l stop a p p' :
  h !! a = Some p -> link p' = link p -> lseg h start l stop ->
  lseg (<[a := p']> h) start l stop.
Proof.
  intros Hp E. apply lseg_frame. intros b q Hb Hq. rewrite lookup_insert.
  case_decide; naive_solver.
Qed.

Lemma lseg_delete_ne h start l stop a :
  a ∉ l -> lseg h start l stop -> lseg (delete a h) start l stop.
Proof.
  intros Ha. apply lseg_frame. intros b q Hb Hq. exists q.
  rewrite lookup_delete_ne by set_solver. done.
Qed.

Lemma lseg_det h start l1 l2 :
  lseg h start l1 None -> lseg h start l2 None -> l1 = l2.
Proof.
  revert start l2. induction l1 as [|a l1 IH]; intros start [|b l2]; cbn; [done|naive_solver..|].
  intros (-> & p & Hp & H1) ([= <-] & q & Hq & H2). f_equal. eapply IH; [done|]. congruence.
Qed.

(** A list that ends does not repeat a page. *)
Lemma lseg_NoDup h start l : lseg h start l None -> NoDup l.
Proof.
  revert start. induction l as [|a l IH]; intros start Hl; [constructor|].
  pose proof Hl as (-> & p & Hp & Hr). constructor; [|by eapply IH].
  intros (l1 & l2 & ->)%list_elem_of_split.
  apply lseg_app in Hr as (m & _ & H2). pose proof H2 as (-> & _).
  assert (a :: l1 ++ a :: l2 = a :: l2) as E by (eapply lseg_det; [exact Hl|exact H2]).
  injection E as E. apply (f_equal length) in E. rewrite length_app in E. cbn in E. lia.
Qed.

Lemma lseg_last h start l stop a :
  lseg h start (l ++ [a]) stop <->
  lseg h start l (Some a) /\ exists p, h !! a = Some p /\ link p = stop.
Proof. rewrite lseg_app. cbn. naive_solver. Qed.

End Lists.

(** Two heaps whose pages agree up to the queue link. *)
Definition same_but_qnext (h h' : heap) : Prop :=
  forall a, set_qnext None <$> h !! a = set_qnext None <$> h' !! a.

(** Two heaps whose pages agree up to the chain link. *)
Definition same_but_next (h h' : heap) : Prop :=
  forall a, set_next None <$> h !! a = set_next None <$> h' !! a.

Lemma lseg_size {A} (link : A -> option addr) (h : gmap positive A) start l : lseg link h start l None -> (length l <= size h)%nat.
Proof.
  intros Hl. rewrite <- (size_dom h), <- (size_list_to_set (C := gset positive) l) by
    (by eapply lseg_NoDup).
  apply subseteq_size. intros a Ha%elem_of_list_to_set.
  destruct (lseg_lookup _ _ _ _ _ _ Hl Ha) as [p Hp]. apply elem_of_dom. eauto.
Qed.

#[export] Instance same_but_qnext_equiv : Equivalence same_but_qnext.
Proof. split; unfold same_but_qnext; [done|intros ?? H a; by rewrite H|]. intros ??? H1 H2 a. by rewrite H1. Qed.

#[export] Instance same_but_next_equiv : Equivalence same_but_next.
Proof. split; unfold same_but_next; [done|intros ?? H a; by rewrite H|]. intros ??? H1 H2 a. by rewrite H1. Qed.

Lemma same_but_qnext_insert h a p n :
  h !! a = Some p -> same_but_qnext (<[a := set_qnext n p]> h) h.
Proof.
  intros Hp b. rewrite lookup_insert. case_decide; [subst; by rewrite Hp|done].
Qed.

Lemma same_but_next_insert h a p n :
  h !! a = Some p -> same_but_next (<[a := set_next n p]> h) h.
Proof.
  intros Hp b. rewrite lookup_insert. case_decide; [subst; by rewrite Hp|done].
Qed.

Lemma same_but_qnext_lookup h h' a p :
  same_but_qnext h h' -> h !! a = Some p ->
  exists p', h' !! a = Some p' /\ set_qnext None p' = set_qnext None p.
Proof.
  intros Hs Hp. specialize (Hs a). rewrite Hp in Hs. cbn in Hs.
  destruct (h' !! a) as [p'|]; [|done]. injection Hs as Hs. exists p'.
  split; [done|]. destruct p, p'; cbn in *. unfold set_qnext. cbn. congruence.
Qed.

Lemma same_but_next_lookup h h' a p :
  same_but_next h h' -> h !! a = Some p ->
  exists p', h' !! a = Some p' /\ set_next None p' = set_next None p.
Proof.
  intros Hs Hp. specialize (Hs a). rewrite Hp in Hs. cbn in Hs.
  destruct (h' !! a) as [p'|]; [|done]. injection Hs as Hs. exists p'.
  split; [done|]. destruct p, p'; cbn in *. unfold set_next. cbn. congruence.
Qed.
