(* ===== verification/Queue.v ===== *)
(** The intrusive FIFO of [src/src/queue.c]: its operations on the page store, their
    refinement to operations on a list of pages, and the condition variable as a transition
    system over consumer threads. *)
From stdpp Require Import base numbers list gmap sets relations.
From Corelib Require Import Init.Byte.
From S2P Require Import Prelude Config Segments ScrapPage Heap.

(** * State and operations *)

Record nox_queue := mk_queue {
  head : option addr;
  tail : option addr;
  depth : Z;
  shutdown : bool
}.

(** The outcome of the fallible calls of the constructor, and what a queue holds besides its
    list: its memory, its mutex and its condition variable. *)
Record queue_env := mk_queue_env { qe_calloc : bool; qe_mutex : bool; qe_cond : bool }.
Inductive q_resource := QMem | QLock | QNotEmpty.
#[export] Instance q_resource_eq_dec : EqDecision q_resource.
Proof. solve_decision. Defined.

Definition queue_empty : nox_queue := mk_queue None None 0 false.

(** The queue, or NULL, and the resources still held on return. *)
Definition nox_queue_create (e : queue_env) : option nox_queue * list q_resource :=
  if negb (qe_calloc e) then (None, [])
  else if negb (qe_mutex e) then (None, filter (.∉ [QMem]) [QMem])
  else if negb (qe_cond e) then (None, filter (.∉ [QLock; QMem]) [QMem; QLock])
  else (Some queue_empty, [QMem; QLock; QNotEmpty]).

(** What [nox_queue_destroy] releases: nothing for a NULL queue. *)
Definition nox_queue_destroy (q : option nox_queue) : list q_resource :=
  match q with None => [] | Some _ => [QNotEmpty; QLock; QMem] end.

Definition nox_queue_push (h : heap) (q : nox_queue) (a : addr) : option (heap * nox_queue) :=
  h ← store a (set_qnext None) h;
  match tail q with
  | Some t =>
      h ← store t (set_qnext (Some a)) h;
      Some (h, mk_queue (head q) (Some a) (u64 (depth q + 1)) (shutdown q))
  | None => Some (h, mk_queue (Some a) (Some a) (u64 (depth q + 1)) (shutdown q))
  end.

Definition pop_head_locked (h : heap) (q : nox_queue)
  : option (option addr * heap * nox_queue) :=
  match head q with
  | None => Some (None, h, q)
  | Some a =>
      p ← h !! a;
      h ← store a (set_qnext None) h;
      Some (Some a, h,
            mk_queue (qnext p) (match qnext p with None => None | Some _ => tail q end)
                     (u64 (depth q - 1)) (shutdown q))
  end.

(** A pop either has to wait on the condition variable or returns a page or NULL. *)
Inductive pop_result := PopBlocked | PopGot (p : option addr).

Definition nox_queue_pop (h : heap) (q : nox_queue) : option (pop_result * heap * nox_queue) :=
  if bool_decide (head q = None) && negb (shutdown q) then Some (PopBlocked, h, q)
  else '(p, h, q) ← pop_head_locked h q; Some (PopGot p, h, q).

Definition nox_queue_pop_if_base (h : heap) (q : nox_queue) (want_base : Z)
  : option (option addr * heap * nox_queue) :=
  match head q with
  | None => Some (None, h, q)
  | Some a =>
      p ← h !! a;
      if base p =? want_base then pop_head_locked h q else Some (None, h, q)
  end.

Definition nox_queue_shutdown (q : nox_queue) : nox_queue :=
  mk_queue (head q) (tail q) (depth q) true.

Definition nox_queue_depth (q : nox_queue) : Z := depth q.

(** * The queue as a list of pages *)

Definition queue_rep (h : heap) (q : nox_queue) (l : list addr) : Prop :=
  lseg qnext h (head q) l None /\ tail q = last l /\ depth q = Z.of_nat (length l) /\
  Z.of_nat (length l) < 2 ^ 64.

Lemma queue_rep_NoDup h q l : queue_rep h q l -> NoDup l.
Proof. intros (Hl & _). by eapply lseg_NoDup. Qed.

Lemma queue_rep_lookup h q l a : queue_rep h q l -> a ∈ l -> exists p, h !! a = Some p.
Proof. intros (Hl & _). by eapply lseg_lookup. Qed.

Lemma queue_rep_frame h h' q l :
  (forall a p, a ∈ l -> h !! a = Some p -> exists p', h' !! a = Some p' /\ qnext p' = qnext p) ->
  queue_rep h q l -> queue_rep h' q l.
Proof. intros Hf (Hl & Ht & Hd). split; [by eapply lseg_frame|done]. Qed.

Lemma queue_rep_head h q l : queue_rep h q l -> head q = list.head l.
Proof. intros (Hl & _). destruct l as [|a l]; [done|]. by destruct Hl as [-> _]. Qed.

Lemma queue_create_rep h : queue_rep h queue_empty [].
Proof. unfold queue_rep. cbn. split_and!; try done. Qed.

(** A constructor that fails holds nothing, and one that succeeds holds what the destructor
    releases. *)
Lemma queue_create_spec e :
  nox_queue_create e =
    if qe_calloc e && qe_mutex e && qe_cond e
    then (Some queue_empty, [QMem; QLock; QNotEmpty]) else (None, []).
Proof. destruct e as [[] [] []]; reflexivity. Qed.

Lemma queue_shutdown_rep h q l : queue_rep h q l -> queue_rep h (nox_queue_shutdown q) l.
Proof. done. Qed.

Lemma push_rep h q l a p :
  queue_rep h q l -> h !! a = Some p -> a ∉ l -> Z.of_nat (length l) + 1 < 2 ^ 64 ->
  exists h' q', nox_queue_push h q a = Some (h', q') /\ queue_rep h' q' (l ++ [a]) /\
    same_but_qnext h' h /\ shutdown q' = shutdown q /\
    (forall b, b ∉ l ++ [a] -> h' !! b = h !! b).
Proof.
  intros (Hl & Ht & Hd & _) Hp Ha Hlen. unfold nox_queue_push.
  rewrite (store_some a _ h p) by done. cbn [mbind option_bind].
  set (h1 := <[a := set_qnext None p]> h).
  assert (Hl1 : lseg qnext h1 (head q) l None) by (by apply lseg_insert_ne).
  assert (H1a : h1 !! a = Some (set_qnext None p)) by apply lookup_insert_eq.
  assert (Hs1 : same_but_qnext h1 h) by (by apply same_but_qnext_insert).
  assert (Hout : forall b, b ∉ l ++ [a] -> h1 !! b = h !! b)
    by (intros b Hb; apply lookup_insert_ne; set_solver).
  rewrite Ht. destruct l as [|t l' _] using rev_ind.
  - do 2 eexists. split; [done|]. split_and!; try done. unfold queue_rep. cbn.
    split_and!; try done; [eauto|rewrite Hd, u64_small; cbn; lia].
  - rewrite last_snoc. apply lseg_last in Hl1 as (Hpre & pt & Hpt & Hptn).
    pose proof (lseg_NoDup _ _ _ _ (proj2 (lseg_last _ _ _ _ _ _)
      (conj Hpre (ex_intro _ pt (conj Hpt Hptn))))) as Hnd.
    apply NoDup_app in Hnd as (_ & Hnt & _).
    rewrite (store_some t _ h1 pt) by done. cbn [mbind option_bind].
    do 2 eexists. split; [done|]. split_and!; [|..].
    + unfold queue_rep. cbn. rewrite last_snoc, !length_app in *. cbn in *. split_and!; try done.
      * apply lseg_last. split.
        -- apply lseg_last. split; [apply lseg_insert_ne; [set_solver|done]|].
           eexists. split; [apply lookup_insert_eq|done].
        -- exists (set_qnext None p). split; [|done].
           rewrite lookup_insert_ne by set_solver. done.
      * rewrite Hd, u64_small; lia.
      * lia.
    + rewrite same_but_qnext_insert by done. done.
    + done.
    + intros b Hb. rewrite lookup_insert_ne by set_solver. apply Hout. set_solver.
Qed.

Lemma pop_head_rep h q a l :
  queue_rep h q (a :: l) ->
  exists h' q', pop_head_locked h q = Some (Some a, h', q') /\ queue_rep h' q' l /\
    same_but_qnext h' h /\ shutdown q' = shutdown q /\ (forall b, b <> a -> h' !! b = h !! b).
Proof.
  intros Hq. pose proof (queue_rep_NoDup _ _ _ Hq) as Hnd. apply NoDup_cons in Hnd as [Ha _].
  destruct Hq as ((Hh & p & Hp & Hl) & Ht & Hd & Hlen). unfold pop_head_locked. rewrite Hh, Hp.
  cbn [mbind option_bind]. rewrite (store_some a _ h p) by done. cbn [mbind option_bind].
  do 2 eexists. split; [done|]. split_and!; try done.
  - unfold queue_rep. cbn [head tail depth length] in *. split_and!.
    + by apply lseg_insert_ne.
    + destruct l as [|b l]; [by rewrite Hl|]. destruct Hl as [-> _]. exact Ht.
    + rewrite Hd, u64_small; lia.
    + lia.
  - by apply same_but_qnext_insert.
  - intros b Hb. by apply lookup_insert_ne.
Qed.

(** The result of a pop on the list. *)
Lemma pop_rep h q l :
  queue_rep h q l ->
  match l with
  | [] => nox_queue_pop h q =
            Some (if shutdown q then PopGot None else PopBlocked, h, q)
  | a :: r =>
      exists h' q', nox_queue_pop h q = Some (PopGot (Some a), h', q') /\ queue_rep h' q' r /\
        same_but_qnext h' h /\ shutdown q' = shutdown q /\ (forall b, b <> a -> h' !! b = h !! b)
  end.
Proof.
  intros Hq. pose proof (queue_rep_head _ _ _ Hq) as Hh. unfold nox_queue_pop.
  destruct l as [|a r]; cbn in Hh; rewrite Hh.
  - rewrite bool_decide_true by done. destruct (shutdown q); [|done]. cbn.
    unfold pop_head_locked. by rewrite Hh.
  - rewrite bool_decide_false by done. cbn [andb].
    destruct (pop_head_rep h q a r Hq) as (h' & q' & -> & H). cbn. eauto.
Qed.

Lemma pop_if_base_rep h q l want :
  queue_rep h q l ->
  (exists a r p, l = a :: r /\ h !! a = Some p /\ base p = want /\
     exists h' q', nox_queue_pop_if_base h q want = Some (Some a, h', q') /\ queue_rep h' q' r /\
       same_but_qnext h' h /\ shutdown q' = shutdown q /\ (forall b, b <> a -> h' !! b = h !! b))
  \/
  (nox_queue_pop_if_base h q want = Some (None, h, q) /\
   forall a r, l = a :: r -> exists p, h !! a = Some p /\ base p <> want).
Proof.
  intros Hq. pose proof (queue_rep_head _ _ _ Hq) as Hh. unfold nox_queue_pop_if_base.
  destruct l as [|a r]; cbn in Hh; rewrite Hh; [by right|].
  destruct (queue_rep_lookup h q (a :: r) a) as [p Hp]; [done|set_solver|]. rewrite Hp. cbn.
  destruct (base p =? want) eqn:E.
  - left. destruct (pop_head_rep h q a r Hq) as (h' & q' & E1 & H1).
    exists a, r, p. split_and!; try done; [lia|]. eauto.
  - right. split; [done|]. intros a' r' [= <- <-]. exists p. split; [done|lia].
Qed.

(** * Refinement to a FIFO list *)

Inductive queue_op := QPush (a : addr) | QPop | QPopIfBase (b : Z) | QDepth | QShutdown.
Inductive queue_out := OutUnit | OutPop (r : pop_result) | OutPage (p : option addr) | OutDepth (n : Z).

(** The implementation, one operation after the other. *)
Fixpoint run_queue (h : heap) (q : nox_queue) (ops : list queue_op) : option (list queue_out) :=
  match ops with
  | [] => Some []
  | QPush a :: r => '(h, q) ← nox_queue_push h q a; outs ← run_queue h q r; Some (OutUnit :: outs)
  | QPop :: r => '(x, h, q) ← nox_queue_pop h q; outs ← run_queue h q r; Some (OutPop x :: outs)
  | QPopIfBase b :: r =>
      '(x, h, q) ← nox_queue_pop_if_base h q b; outs ← run_queue h q r; Some (OutPage x :: outs)
  | QDepth :: r => outs ← run_queue h q r; Some (OutDepth (nox_queue_depth q) :: outs)
  | QShutdown :: r => outs ← run_queue h (nox_queue_shutdown q) r; Some (OutUnit :: outs)
  end.

(** The specification: a list of pages and the shutdown flag; [bases] is the base of each
    page. *)
Definition spec_pop (l : list addr) (sd : bool) : pop_result * list addr :=
  match l with
  | a :: r => (PopGot (Some a), r)
  | [] => (if sd then PopGot None else PopBlocked, [])
  end.

Definition spec_pop_if (bases : addr -> option Z) (l : list addr) (b : Z)
  : option addr * list addr :=
  match l with
  | a :: r => if decide (bases a = Some b) then (Some a, r) else (None, l)
  | [] => (None, [])
  end.

Fixpoint run_fifo (bases : addr -> option Z) (l : list addr) (sd : bool) (ops : list queue_op)
  : list queue_out :=
  match ops with
  | [] => []
  | QPush a :: r => OutUnit :: run_fifo bases (l ++ [a]) sd r
  | QPop :: r => let '(x, l) := spec_pop l sd in OutPop x :: run_fifo bases l sd r
  | QPopIfBase b :: r => let '(x, l) := spec_pop_if bases l b in OutPage x :: run_fifo bases l sd r
  | QDepth :: r => OutDepth (Z.of_nat (length l)) :: run_fifo bases l sd r
  | QShutdown :: r => OutUnit :: run_fifo bases l true r
  end.

(** Single membership: a page is pushed only while it is allocated and in no queue. *)
Fixpoint single_membership (bases : addr -> option Z) (l : list addr) (sd : bool)
    (ops : list queue_op) : Prop :=
  match ops with
  | [] => True
  | QPush a :: r => is_Some (bases a) /\ (a ∉ l) /\ Z.of_nat (length l) + 1 < 2 ^ 64 /\
                    single_membership bases (l ++ [a]) sd r
  | QPop :: r => single_membership bases (spec_pop l sd).2 sd r
  | QPopIfBase b :: r => single_membership bases (spec_pop_if bases l b).2 sd r
  | QDepth :: r => single_membership bases l sd r
  | QShutdown :: r => single_membership bases l true r
  end.

Definition page_bases (h : heap) (a : addr) : option Z := base <$> h !! a.

Lemma same_but_qnext_bases h h' a : same_but_qnext h' h -> page_bases h' a = page_bases h a.
Proof.
  intros Hs. specialize (Hs a). unfold page_bases.
  destruct (h' !! a) as [p'|], (h !! a) as [p|]; cbn in *; try done.
  injection Hs. congruence.
Qed.

Lemma run_queue_fifo h q l sd bases ops :
  queue_rep h q l -> shutdown q = sd -> (forall a, page_bases h a = bases a) ->
  single_membership bases l sd ops ->
  run_queue h q ops = Some (run_fifo bases l sd ops).
Proof.
  revert h q l sd. induction ops as [|op ops IH]; intros h q l sd Hq Hsd Hb Hok; [done|].
  assert (Hnext : forall h', same_but_qnext h' h -> forall a, page_bases h' a = bases a).
  { intros h' Hs a. rewrite <- Hb. by apply same_but_qnext_bases. }
  destruct op as [a| |b| |]; cbn [run_queue run_fifo]; cbn [single_membership] in Hok.
  - destruct Hok as ([z Hz] & Ha & Hlen & Hok). rewrite <- Hb in Hz. unfold page_bases in Hz.
    destruct (h !! a) as [p|] eqn:Hp; [|done].
    destruct (push_rep h q l a p Hq Hp Ha Hlen) as (h' & q' & -> & Hq' & Hs & Hsd' & _).
    cbn. rewrite (IH h' q' (l ++ [a]) sd); auto. by rewrite Hsd'.
  - pose proof (pop_rep h q l Hq) as Hp. destruct l as [|a r].
    + rewrite Hp, Hsd. cbn. rewrite (IH h q [] sd); auto.
    + destruct Hp as (h' & q' & -> & Hq' & Hs & Hsd' & _). cbn.
      rewrite (IH h' q' r sd); auto. by rewrite Hsd'.
  - destruct (pop_if_base_rep h q l b Hq)
      as [(a & r & p & -> & Hp & Hbase & h' & q' & -> & Hq' & Hs & Hsd' & _)|[-> Hno]].
    + cbn. cbn in Hok. rewrite <- Hb in Hok |- *. unfold page_bases in Hok |- *.
      rewrite Hp in Hok |- *. cbn in Hok |- *. rewrite Hbase in Hok |- *.
      rewrite decide_True in Hok |- * by done. rewrite (IH h' q' r sd); auto. by rewrite Hsd'.
    + cbn. assert (spec_pop_if bases l b = (None, l)) as E.
      { destruct l as [|a r]; [done|]. destruct (Hno a r eq_refl) as (p & Hp & Hne). cbn.
        rewrite <- Hb. unfold page_bases. rewrite Hp. cbn. rewrite decide_False; congruence. }
      rewrite E in Hok |- *. rewrite (IH h q l sd); auto.
  - rewrite (IH h q l sd); auto. unfold nox_queue_depth. destruct Hq as (_ & _ & -> & _). done.
  - rewrite (IH h (nox_queue_shutdown q) l true); auto.
Qed.

(** * The condition variable *)

(** A consumer thread: running, asleep in [pthread_cond_wait], signalled, or returned. *)
Inductive consumer := CRunning | CWaiting | CNotified | CGone.

Definition queue_sys : Type := heap * nox_queue * gmap nat consumer.

Definition notify_all (cs : gmap nat consumer) : gmap nat consumer :=
  (fun c => match c with CWaiting => CNotified | c => c end) <$> cs.

(** [pthread_cond_signal]: one waiting consumer, if there is any. *)
Inductive signal_one (cs : gmap nat consumer) : gmap nat consumer -> Prop :=
| signal_none : (forall i, cs !! i <> Some CWaiting) -> signal_one cs cs
| signal_some i : cs !! i = Some CWaiting -> signal_one cs (<[i := CNotified]> cs).

Definition awake (c : consumer) : bool :=
  match c with CRunning | CNotified => true | _ => false end.

Inductive queue_step : queue_sys -> queue_sys -> Prop :=
| qs_push h q cs a l h' q' cs' :
    queue_rep h q l -> a ∉ l -> is_Some (h !! a) -> Z.of_nat (length l) + 1 < 2 ^ 64 ->
    nox_queue_push h q a = Some (h', q') -> signal_one cs cs' ->
    queue_step (h, q, cs) (h', q', cs')
| qs_pop h q cs i c p h' q' :
    cs !! i = Some c -> awake c = true -> nox_queue_pop h q = Some (PopGot p, h', q') ->
    queue_step (h, q, cs) (h', q', <[i := match p with Some _ => CRunning | None => CGone end]> cs)
| qs_block h q cs i c h' q' :
    cs !! i = Some c -> awake c = true -> nox_queue_pop h q = Some (PopBlocked, h', q') ->
    queue_step (h, q, cs) (h', q', <[i := CWaiting]> cs)
| qs_spurious h q cs i :
    cs !! i = Some CWaiting -> queue_step (h, q, cs) (h, q, <[i := CNotified]> cs)
| qs_pop_if h q cs i b p h' q' :
    cs !! i = Some CRunning -> nox_queue_pop_if_base h q b = Some (p, h', q') ->
    queue_step (h, q, cs) (h', q', cs)
| qs_shutdown h q cs :
    queue_step (h, q, cs) (h, nox_queue_shutdown q, notify_all cs).

Definition notified_one (c : consumer) : Z := match c with CNotified => 1 | _ => 0 end.

Definition notified (cs : gmap nat consumer) : Z :=
  map_fold (fun _ c acc => notified_one c + acc) 0 cs.

Lemma notified_insert cs i c d :
  cs !! i = Some c -> notified (<[i := d]> cs) = notified cs - notified_one c + notified_one d.
Proof.
  intros Hi. unfold notified.
  rewrite <- (insert_delete_id cs i c Hi) at 2. rewrite <- (insert_delete_eq cs i d).
  rewrite !map_fold_insert_L; [lia|..]; intros; try lia; by rewrite lookup_delete_eq.
Qed.

Lemma notified_nonneg cs : 0 <= notified cs.
Proof.
  unfold notified. induction cs as [|i c cs Hi Hf IH] using map_first_key_ind.
  - by rewrite map_fold_empty.
  - rewrite map_fold_insert_L by (done || intros; lia). destruct c; cbn; lia.
Qed.

(** While a consumer waits, the queue is open and every queued page has a signalled consumer
    on its way to it. *)
Definition queue_sys_inv (s : queue_sys) : Prop :=
  let '(h, q, cs) := s in
  exists l, queue_rep h q l /\
    forall i, cs !! i = Some CWaiting -> shutdown q = false /\ Z.of_nat (length l) <= notified cs.

Lemma waiting_insert (cs : gmap nat consumer) i c j :
  c <> CWaiting -> <[i := c]> cs !! j = Some CWaiting -> cs !! j = Some CWaiting /\ i <> j.
Proof. intros Hc. rewrite lookup_insert. case_decide; naive_solver. Qed.

Lemma queue_step_inv s s' : queue_step s s' -> queue_sys_inv s -> queue_sys_inv s'.
Proof.
  intros Hs. destruct Hs as [h q cs a l' h' q' cs' Hq' Ha [p Hp] Hlen E Hsig
    |h q cs i c p h' q' Hi Hc E|h q cs i c h' q' Hi Hc E|h q cs i Hi|h q cs i b p h' q' Hi E|h q cs];
    intros (l & Hq & Hw); unfold queue_sys_inv.
  - assert (l' = l) as -> by (eapply lseg_det; [apply Hq'|apply Hq]).
    destruct (push_rep h q l a p Hq Hp Ha Hlen) as (h2 & q2 & E2 & Hq2 & _ & Hsd & _).
    rewrite E in E2. injection E2 as <- <-. exists (l ++ [a]). split; [done|].
    rewrite Hsd, length_app. cbn [length]. destruct Hsig as [Hno|i Hi].
    + intros j Hj. by apply Hno in Hj.
    + intros j [Hj _]%waiting_insert; [|done]. rewrite (notified_insert _ _ _ _ Hi). cbn.
      destruct (Hw j Hj). split; [done|lia].
  - pose proof (pop_rep h q l Hq) as Hp. destruct l as [|a r].
    + rewrite Hp in E. destruct (shutdown q) eqn:Esd; [|done]. injection E as <- <- <-.
      exists []. split; [done|]. intros j [Hj _]%waiting_insert; [|done]. by destruct (Hw j Hj).
    + destruct Hp as (h2 & q2 & E2 & Hq2 & _ & Hsd & _). rewrite E in E2. injection E2 as -> <- <-.
      exists r. split; [done|]. intros j [Hj _]%waiting_insert; [|done].
      destruct (Hw j Hj) as [? Hle]. rewrite Hsd, (notified_insert _ _ _ _ Hi). split; [done|].
      cbn in Hle. destruct c; cbn; lia || done.
  - pose proof (pop_rep h q l Hq) as Hp. destruct l as [|a r].
    + rewrite Hp in E. destruct (shutdown q) eqn:Esd; [done|]. injection E as <- <-.
      exists []. split; [done|]. intros j _. split; [done|]. apply notified_nonneg.
    + destruct Hp as (h2 & q2 & E2 & _). congruence.
  - exists l. split; [done|]. intros j [Hj _]%waiting_insert; [|done].
    rewrite (notified_insert _ _ _ _ Hi). cbn. destruct (Hw j Hj). split; [done|lia].
  - destruct (pop_if_base_rep h q l b Hq)
      as [(a & r & pp & -> & _ & _ & h2 & q2 & E2 & Hq2 & _ & Hsd & _)|[E2 _]];
      rewrite E in E2; injection E2 as -> <- <-.
    + exists r. split; [done|]. intros j Hj. destruct (Hw j Hj) as [? Hle]. rewrite Hsd.
      split; [done|]. cbn in Hle. lia.
    + exists l. done.
  - exists l. split; [done|]. intros j. unfold notify_all. rewrite lookup_fmap.
    by destruct (cs !! j) as [[]|].
Qed.

Lemma queue_sys_reachable_inv s s' : rtc queue_step s s' -> queue_sys_inv s -> queue_sys_inv s'.
Proof. induction 1; eauto using queue_step_inv. Qed.

(** The state after [nox_queue_create]: nothing queued, every consumer running. *)
Definition queue_sys_initial (h : heap) (n : nat) : queue_sys :=
  (h, queue_empty, list_to_map ((fun i => (i, CRunning)) <$> seq 0 n)).

Lemma queue_sys_initial_inv h n : queue_sys_inv (queue_sys_initial h n).
Proof.
  exists []. split; [by apply queue_create_rep|]. intros i Hi.
  apply elem_of_list_to_map_2, list_elem_of_fmap in Hi as (j & [= _ ?] & _).
Qed.

(** * Properties *)

(** C29: The intrusive queue is a FIFO list. From a queue that represents the list [l], any
    sequence of pushes, pops, conditional pops, depth reads and a shutdown runs without
    touching a dangling pointer and returns exactly what the list returns, as long as pages
    are pushed only while allocated and not queued (the single-membership rule). *)
Theorem queue_refines_fifo (h : heap) (q : nox_queue) (l : list addr) (ops : list queue_op) :
  queue_rep h q l -> single_membership (page_bases h) l (shutdown q) ops ->
  run_queue h q ops = Some (run_fifo (page_bases h) l (shutdown q) ops).
Proof. intros Hq Hok. by apply run_queue_fifo. Qed.

(** Three allocated pages of adjacent bases. *)
Definition sample_heap : heap :=
  list_to_map ((fun i => (Pos.of_nat i,
    mk_page sample_header 4096 (fun _ => Byte.x00) (Z.of_nat i * NOX_DATAZONE_SIZE)
            None None false false)) <$> seq 1 3).

Definition sample_ops : list queue_op :=
  [QPush 1%positive; QPush 2%positive; QPop; QPush 3%positive; QPopIfBase 0;
   QPopIfBase (2 * NOX_DATAZONE_SIZE); QDepth; QPush 1%positive; QPop; QPop; QPop;
   QShutdown; QPop].

Lemma queue_refines_fifo_witness :
  run_queue sample_heap (queue_empty) sample_ops =
  Some [OutUnit; OutUnit; OutPop (PopGot (Some 1%positive)); OutUnit; OutPage None;
        OutPage (Some 2%positive); OutDepth 1; OutUnit; OutPop (PopGot (Some 3%positive));
        OutPop (PopGot (Some 1%positive)); OutPop PopBlocked; OutUnit; OutPop (PopGot None)].
Proof.
  rewrite (queue_refines_fifo sample_heap (queue_empty) [] sample_ops).
  - vm_compute. reflexivity.
  - apply queue_create_rep.
  - vm_compute. split_and!; eauto; intros Hx;
      repeat match goal with H : list_elem_of _ _ |- _ => inversion H; clear H; subst end; set_solver.
Defined.

(** C30: No page waits unattended. Whatever the interleaving of pushes, pops, spurious wake-ups
    and a shutdown by any number of threads, a consumer is asleep on [not_empty] only while
    the queue is open and at least as many consumers are signalled as pages are queued: the
    single [pthread_cond_signal] per push loses no wake-up, and a shutdown leaves none
    asleep. *)
Theorem queue_no_lost_wakeup (h0 : heap) (n : nat) (h : heap) (q : nox_queue)
    (cs : gmap nat consumer) (i : nat) :
  rtc queue_step (queue_sys_initial h0 n) (h, q, cs) ->
  cs !! i = Some CWaiting -> shutdown q = false /\ nox_queue_depth q <= notified cs.
Proof.
  intros Hr Hi. apply queue_sys_reachable_inv in Hr as (l & Hq & Hw); [|apply queue_sys_initial_inv].
  destruct (Hw i Hi) as [Hs Hl]. destruct Hq as (_ & _ & Hd & _). unfold nox_queue_depth.
  rewrite Hd. done.
Qed.

(** Two consumers wait, one page is pushed: one of them is signalled. *)
Lemma queue_no_lost_wakeup_witness :
  exists h q cs,
    rtc queue_step (queue_sys_initial sample_heap 2) (h, q, cs) /\
    cs !! 1%nat = Some CWaiting /\ nox_queue_depth q = 1 /\ nox_queue_depth q <= notified cs.
Proof.
  destruct (push_rep sample_heap (queue_empty) [] 2%positive
    (mk_page sample_header 4096 (fun _ => Byte.x00) (2 * NOX_DATAZONE_SIZE) None None false false))
    as (h & q & E & Hq & _); [by apply queue_create_rep|reflexivity|set_solver|cbn; lia|].
  exists h, q, (<[0%nat := CNotified]> (<[1%nat := CWaiting]> (<[0%nat := CWaiting]>
            (queue_sys_initial sample_heap 2).2))).
  assert (Hr : rtc queue_step (queue_sys_initial sample_heap 2)
    (h, q, <[0%nat := CNotified]> (<[1%nat := CWaiting]> (<[0%nat := CWaiting]>
            (queue_sys_initial sample_heap 2).2)))).
  { eapply rtc_l; [eapply (qs_block _ _ _ 0 CRunning); reflexivity|].
    eapply rtc_l; [eapply (qs_block _ _ _ 1 CRunning); reflexivity|].
    eapply rtc_once, (qs_push _ _ _ 2%positive []);
      [by apply queue_create_rep|set_solver|by eexists|cbn; lia|exact E|].
    apply signal_some. reflexivity. }
  split; [exact Hr|]. split; [reflexivity|].
  split; [unfold nox_queue_depth; destruct Hq as (_ & _ & -> & _); reflexivity|].
  exact (proj2 (queue_no_lost_wakeup sample_heap 2 h q _ 1 Hr eq_refl)).
Defined.
