(* ===== verification/PcQueueToy.v ===== *)
(** The study program [src/bench/pc_queue_toy.c]: an unbounded queue of allocated nodes with a
    mutex and one condition variable, its producers and consumers, and [main] with its verdict.
    The program has a correct mode and two modes that are broken on purpose, one waiting with
    [if] instead of [while], one closing with a signal instead of a broadcast; all three are
    modelled. A thread is a state machine whose transitions are the critical sections; the
    choices of the environment (the address [malloc] returns, the waiter a signal wakes, a
    spurious wake-up) are labels. *)
From stdpp Require Import base numbers list gmap sets strings.
From S2P Require Import Prelude Config Segments Watermark ScrapPage Heap.

(** * Sizes and modes *)

(** The counts, which the program fixes at compile time. *)
Class ToySize := {
  NPROD : nat;
  NCONS : nat;
  ITEMS_PER_PROD : Z;
  cons_some : (0 < NCONS)%nat;
  items_nonneg : 0 <= ITEMS_PER_PROD < 2 ^ 31;
  items_fit : Z.of_nat NPROD * ITEMS_PER_PROD < 2 ^ 64
}.
Definition TOTAL_ITEMS `{ToySize} : Z := u64 (Z.of_nat NPROD * ITEMS_PER_PROD).

Definition toy_default : ToySize.
Proof. refine {| NPROD := 4; NCONS := 4; ITEMS_PER_PROD := 100000 |}; lia. Defined.

Inductive toy_mode := MODE_CORRECT | MODE_IF | MODE_SIGNAL_CLOSE.
#[export] Instance toy_mode_eq_dec : EqDecision toy_mode.
Proof. solve_decision. Defined.

(** The arguments of [main]; [None] is the usage message and exit 2. *)
Fixpoint parse_args (mode : toy_mode) (argv : list string) : option toy_mode :=
  match argv with
  | [] => Some mode
  | a :: r =>
      if String.eqb a "--if" then parse_args MODE_IF r
      else if String.eqb a "--signal-close" then parse_args MODE_SIGNAL_CLOSE r
      else None
  end.

(** * The queue *)

Record node_t := mk_node { n_next : option addr; n_value : Z }.
Abbreviation node_heap := (gmap positive node_t).

Record queue_t := mk_qt {
  q_head : option addr;
  q_tail : option addr;
  q_count : Z;
  q_closed : bool;
  q_waiters : Z
}.

Definition queue_init : queue_t := mk_qt None None 0 false 0.

(** The critical section of [queue_push] up to the signal; [None] is a dangling pointer. *)
Definition queue_push (h : node_heap) (q : queue_t) (n : addr) : option (node_heap * queue_t) :=
  match q_tail q with
  | Some t =>
      nd ← h !! t;
      Some (<[t := mk_node (Some n) (n_value nd)]> h,
            mk_qt (q_head q) (Some n) (u64 (q_count q + 1)) (q_closed q) (q_waiters q))
  | None =>
      Some (h, mk_qt (Some n) (Some n) (u64 (q_count q + 1)) (q_closed q) (q_waiters q))
  end.

(** What one hold of the lock in [queue_pop] comes to: back to sleep, the end of the stream, a
    node, or the abort on an empty queue that is still open. *)
Inductive pop_out := PopWait | PopFalse | PopNode (n : addr) | PopBug.

Definition set_waiters (w : Z) (q : queue_t) : queue_t :=
  mk_qt (q_head q) (q_tail q) (q_count q) (q_closed q) w.

(** [woken]: the lock was acquired on return from [pthread_cond_wait]. *)
Definition queue_pop (m : toy_mode) (woken : bool) (h : node_heap) (q : queue_t)
  : option (pop_out * queue_t) :=
  let q := if woken then set_waiters (u32 (q_waiters q - 1)) q else q in
  let tests := match m with MODE_IF => negb woken | _ => true end in
  if tests && (bool_decide (q_head q = None) && negb (q_closed q))
  then Some (PopWait, set_waiters (u32 (q_waiters q + 1)) q)
  else
    match q_head q with
    | None => Some (if q_closed q then PopFalse else PopBug, q)
    | Some n =>
        nd ← h !! n;
        Some (PopNode n,
              mk_qt (n_next nd) (match n_next nd with None => None | Some _ => q_tail q end)
                (u64 (q_count q - 1)) (q_closed q) (q_waiters q))
    end.

(** The state change of [queue_close]. *)
Definition queue_close (q : queue_t) : queue_t :=
  mk_qt (q_head q) (q_tail q) (q_count q) true (q_waiters q).

(** The test of [queue_wait_until_all_parked]. *)
Definition all_parked (q : queue_t) (n : nat) : bool :=
  bool_decide (q_head q = None) && (q_waiters q =? Z.of_nat n).

(** * The threads *)

(** A consumer: not yet created, about to lock in [queue_pop], asleep, woken and waiting for
    the lock, holding the node it took, or returned. *)
Inductive cons_ctl := CNew | CCall | CWaiting | CWoken | CHas (n : addr) | CDone.
#[export] Instance cons_ctl_eq_dec : EqDecision cons_ctl.
Proof. solve_decision. Defined.
Record consumer_t := mk_cons { c_at : cons_ctl; c_items : Z; c_sum : Z }.

(** A producer: not yet created, at the head of its loop, with the node it allocated, or
    returned. *)
Inductive prod_ctl := PNew | PLoop (i : Z) | PPush (i : Z) (n : addr) | PDone.
#[export] Instance prod_ctl_eq_dec : EqDecision prod_ctl.
Proof. solve_decision. Defined.
Record producer_t := mk_prod { p_at : prod_ctl; p_items : Z; p_sum : Z }.

Inductive main_ctl :=
| MSpawnC (i : nat)
| MSpawnP (i : nat)
| MJoinP (i : nat)
| MPark
| MClose
| MJoinC (i : nat)
| MVerify
| MExit (rc : Z).

Record toy := mk_toy {
  t_heap : node_heap;
  t_q : queue_t;
  t_cons : list consumer_t;
  t_prod : list producer_t;
  t_main : main_ctl
}.

Definition set_c_at (c : cons_ctl) (x : consumer_t) : consumer_t := mk_cons c (c_items x) (c_sum x).
Definition set_p_at (p : prod_ctl) (x : producer_t) : producer_t := mk_prod p (p_items x) (p_sum x).

Definition is_waiting (c : consumer_t) : bool := match c_at c with CWaiting => true | _ => false end.

(** [pthread_cond_signal] wakes one waiter if there is any; [w] says which, and [None] is an
    impossible choice. A signal that wakes more is one that comes with spurious wake-ups. *)
Definition cond_signal (w : option nat) (cs : list consumer_t) : option (list consumer_t) :=
  match w with
  | Some j =>
      c ← cs !! j; if is_waiting c then Some (<[j := set_c_at CWoken c]> cs) else None
  | None => if existsb is_waiting cs then None else Some cs
  end.

Definition wake (c : consumer_t) : consumer_t := if is_waiting c then set_c_at CWoken c else c.
Definition cond_broadcast (cs : list consumer_t) : list consumer_t := wake <$> cs.

(** The choices of the scheduler and the environment. *)
Inductive label :=
| LMain (w : option nat)
| LProd (k : nat) (a : option addr) (w : option nat)
| LCons (j : nat)
| LSpurious (j : nat).

(** A transition, a thread that cannot move (or a choice that cannot happen), [abort(3)], or
    undefined behaviour. *)
Inductive outcome := Next (s : toy) | Blocked | Abort | Undefined.

Section Program.
Context `{ToySize}.

Definition value (k : nat) (i : Z) : Z := u64 (u64 (Z.of_nat k * ITEMS_PER_PROD) + i).

Definition toy_init : toy :=
  mk_toy ∅ queue_init (replicate NCONS (mk_cons CNew 0 0)) (replicate NPROD (mk_prod PNew 0 0))
    (MSpawnC 0).

Definition consumer_step (m : toy_mode) (s : toy) (j : nat) (c : consumer_t) : outcome :=
  let go h q c := Next (mk_toy h q (<[j := c]> (t_cons s)) (t_prod s) (t_main s)) in
  let pop woken :=
    match queue_pop m woken (t_heap s) (t_q s) with
    | None => Undefined
    | Some (PopWait, q) => go (t_heap s) q (set_c_at CWaiting c)
    | Some (PopFalse, q) => go (t_heap s) q (set_c_at CDone c)
    | Some (PopNode n, q) => go (t_heap s) q (set_c_at (CHas n) c)
    | Some (PopBug, _) => Abort
    end in
  match c_at c with
  | CCall => pop false
  | CWoken => pop true
  | CHas n =>
      match t_heap s !! n with
      | None => Undefined
      | Some nd =>
          go (delete n (t_heap s)) (t_q s)
             (mk_cons CCall (u64 (c_items c + 1)) (u64 (c_sum c + n_value nd)))
      end
  | CNew | CWaiting | CDone => Blocked
  end.

Definition producer_step (s : toy) (k : nat) (p : producer_t) (a : option addr) (w : option nat)
  : outcome :=
  match p_at p with
  | PLoop i =>
      if i <? ITEMS_PER_PROD then
        match a with
        | None => Abort
        | Some n =>
            match t_heap s !! n with
            | Some _ => Blocked
            | None =>
                Next (mk_toy (<[n := mk_node None (value k i)]> (t_heap s)) (t_q s) (t_cons s)
                        (<[k := set_p_at (PPush i n) p]> (t_prod s)) (t_main s))
            end
        end
      else Next (mk_toy (t_heap s) (t_q s) (t_cons s) (<[k := set_p_at PDone p]> (t_prod s)) (t_main s))
  | PPush i n =>
      match queue_push (t_heap s) (t_q s) n, cond_signal w (t_cons s) with
      | None, _ => Undefined
      | _, None => Blocked
      | Some (h, q), Some cs =>
          Next (mk_toy h q cs
                  (<[k := mk_prod (PLoop (i + 1)) (u64 (p_items p + 1)) (u64 (p_sum p + value k i))]>
                     (t_prod s)) (t_main s))
      end
  | PNew | PDone => Blocked
  end.

(** The verdict of [main]. *)
Definition total_u64 {A} (f : A -> Z) (l : list A) : Z := foldl (fun acc x => u64 (acc + f x)) 0 l.

Definition toy_ok (s : toy) : bool :=
  let q := t_q s in
  (total_u64 p_items (t_prod s) =? TOTAL_ITEMS) && (total_u64 c_items (t_cons s) =? TOTAL_ITEMS) &&
  (total_u64 p_sum (t_prod s) =? total_u64 c_sum (t_cons s)) && (q_count q =? 0) &&
  bool_decide (q_head q = None) && bool_decide (q_tail q = None).

Definition main_step (m : toy_mode) (s : toy) (w : option nat) : outcome :=
  let at_ c := Next (mk_toy (t_heap s) (t_q s) (t_cons s) (t_prod s) c) in
  match t_main s with
  | MSpawnC i =>
      match t_cons s !! i with
      | Some c => Next (mk_toy (t_heap s) (t_q s) (<[i := set_c_at CCall c]> (t_cons s)) (t_prod s)
                          (MSpawnC (S i)))
      | None => at_ (MSpawnP 0)
      end
  | MSpawnP i =>
      match t_prod s !! i with
      | Some p => Next (mk_toy (t_heap s) (t_q s) (t_cons s) (<[i := set_p_at (PLoop 0) p]> (t_prod s))
                          (MSpawnP (S i)))
      | None => at_ (MJoinP 0)
      end
  | MJoinP i =>
      match t_prod s !! i with
      | Some p => match p_at p with PDone => at_ (MJoinP (S i)) | _ => Blocked end
      | None => at_ (match m with MODE_SIGNAL_CLOSE => MPark | _ => MClose end)
      end
  | MPark => if all_parked (t_q s) NCONS then at_ MClose else Blocked
  | MClose =>
      match m with
      | MODE_SIGNAL_CLOSE =>
          match cond_signal w (t_cons s) with
          | Some cs => Next (mk_toy (t_heap s) (queue_close (t_q s)) cs (t_prod s) (MJoinC 0))
          | None => Blocked
          end
      | _ => Next (mk_toy (t_heap s) (queue_close (t_q s)) (cond_broadcast (t_cons s)) (t_prod s) (MJoinC 0))
      end
  | MJoinC i =>
      match t_cons s !! i with
      | Some c => match c_at c with CDone => at_ (MJoinC (S i)) | _ => Blocked end
      | None => at_ MVerify
      end
  | MVerify => at_ (MExit (if toy_ok s then 0 else 1))
  | MExit _ => Blocked
  end.

Definition toy_step (m : toy_mode) (s : toy) (l : label) : outcome :=
  match l with
  | LMain w => main_step m s w
  | LProd k a w => match t_prod s !! k with Some p => producer_step s k p a w | None => Blocked end
  | LCons j => match t_cons s !! j with Some c => consumer_step m s j c | None => Blocked end
  | LSpurious j =>
      match t_cons s !! j with
      | Some c =>
          if is_waiting c
          then Next (mk_toy (t_heap s) (t_q s) (<[j := set_c_at CWoken c]> (t_cons s)) (t_prod s) (t_main s))
          else Blocked
      | None => Blocked
      end
  end.

Fixpoint toy_run (m : toy_mode) (s : toy) (ls : list label) : outcome :=
  match ls with
  | [] => Next s
  | l :: ls => match toy_step m s l with Next s => toy_run m s ls | o => o end
  end.

End Program.

(** * The invariant of the correct mode *)

(** Who holds a node: the queue, a consumer that took it, a producer that has not pushed it. *)
Inductive owner := OQueue | OCons (j : nat) | OProd (k : nat).
#[export] Instance owner_eq_dec : EqDecision owner.
Proof. solve_decision. Defined.

Definition node_value (h : node_heap) (n : addr) : Z := default 0 (n_value <$> h !! n).

Definition hand (c : consumer_t) : option addr := match c_at c with CHas n => Some n | _ => None end.
Definition pushing (p : producer_t) : option addr :=
  match p_at p with PPush _ n => Some n | _ => None end.

(** The items and the sum a consumer accounts for, the node in its hand included. *)
Definition c_has (c : consumer_t) : Z := c_items c + match hand c with Some _ => 1 | None => 0 end.
Definition c_worth (h : node_heap) (c : consumer_t) : Z :=
  c_sum c + match hand c with Some n => node_value h n | None => 0 end.

Section Invariant.
Context `{ToySize}.

Definition spawned_c (m : main_ctl) : nat := match m with MSpawnC i => i | _ => NCONS end.
Definition spawned_p (m : main_ctl) : nat :=
  match m with MSpawnC _ => 0 | MSpawnP i => i | _ => NPROD end.
Definition joined_p (m : main_ctl) : nat :=
  match m with MSpawnC _ | MSpawnP _ => 0 | MJoinP i => i | _ => NPROD end.
Definition joined_c (m : main_ctl) : nat :=
  match m with MJoinC i => i | MVerify | MExit _ => NCONS | _ => 0 end.
Definition past_close (m : main_ctl) : bool :=
  match m with MJoinC _ | MVerify | MExit _ => true | _ => false end.

Definition prod_ok (h : node_heap) (k : nat) (p : producer_t) : Prop :=
  match p_at p with
  | PNew => p_items p = 0
  | PLoop i => p_items p = i /\ 0 <= i <= ITEMS_PER_PROD
  | PPush i n => p_items p = i /\ 0 <= i < ITEMS_PER_PROD /\ h !! n = Some (mk_node None (value k i))
  | PDone => p_items p = ITEMS_PER_PROD
  end.

(** The data: the list of queued nodes [l] and the owner of every node. *)
Record data_inv (h : node_heap) (q : queue_t) (cs : list consumer_t) (ps : list producer_t)
    (l : list addr) (own : gmap positive owner) : Prop := {
  d_list : lseg n_next h (q_head q) l None;
  d_tail : q_tail q = last l;
  d_count : q_count q = Z.of_nat (length l);
  d_dom : forall n, is_Some (h !! n) <-> is_Some (own !! n);
  d_queue : forall n, n ∈ l <-> own !! n = Some OQueue;
  d_cons : forall n j, own !! n = Some (OCons j) <-> exists c, cs !! j = Some c /\ hand c = Some n;
  d_prod : forall n k, own !! n = Some (OProd k) <-> exists p, ps !! k = Some p /\ pushing p = Some n;
  d_prods : forall k p, ps !! k = Some p -> prod_ok h k p;
  d_items : zsum p_items ps = Z.of_nat (length l) + zsum c_has cs;
  d_sum : u64 (zsum p_sum ps) = u64 (zsum (node_value h) l + zsum (c_worth h) cs);
  d_nonneg : forall c, c ∈ cs -> 0 <= c_items c;
  d_np : length ps = NPROD;
  d_nc : length cs = NCONS
}.

(** The control: which threads exist and have returned, and when a consumer may sleep. *)
Record ctl_inv (q : queue_t) (cs : list consumer_t) (ps : list producer_t) (m : main_ctl)
    (l : list addr) : Prop := {
  k_closed : q_closed q = past_close m;
  k_new_c : forall j c, cs !! j = Some c -> (c_at c = CNew <-> (spawned_c m <= j)%nat);
  k_new_p : forall k p, ps !! k = Some p -> (p_at p = PNew <-> (spawned_p m <= k)%nat);
  k_done_p : forall k p, ps !! k = Some p -> (k < joined_p m)%nat -> p_at p = PDone;
  k_done_c : forall j c, cs !! j = Some c -> (j < joined_c m)%nat -> c_at c = CDone;
  k_sleep : forall j c, cs !! j = Some c -> c_at c = CWaiting -> q_closed q = false;
  k_drained : forall j c, cs !! j = Some c -> c_at c = CDone -> q_closed q = true /\ l = [];
  k_exit : forall rc, m = MExit rc -> rc = 0;
  k_park : m <> MPark
}.

Definition toy_inv (s : toy) (l : list addr) (own : gmap positive owner) : Prop :=
  data_inv (t_heap s) (t_q s) (t_cons s) (t_prod s) l own /\
  ctl_inv (t_q s) (t_cons s) (t_prod s) (t_main s) l.

Lemma prod_items_le h q cs ps l own :
  data_inv h q cs ps l own -> zsum p_items ps <= Z.of_nat NPROD * ITEMS_PER_PROD.
Proof.
  intros D. rewrite <- (d_np _ _ _ _ _ _ D), Z.mul_comm, <- (zsum_const ITEMS_PER_PROD).
  apply zsum_le. intros p [k Hk]%list_elem_of_lookup. pose proof (d_prods _ _ _ _ _ _ D k p Hk) as Hp.
  unfold prod_ok in Hp. pose proof items_nonneg. destruct (p_at p); lia.
Qed.

(** A producer with an item left keeps the total below its bound. *)
Lemma prod_items_lt h q cs ps l own k p :
  data_inv h q cs ps l own -> ps !! k = Some p -> p_items p < ITEMS_PER_PROD ->
  zsum p_items ps < Z.of_nat NPROD * ITEMS_PER_PROD.
Proof.
  intros D Hk Hp. set (p' := mk_prod PDone ITEMS_PER_PROD 0).
  assert (zsum p_items (<[k := p']> ps) <= Z.of_nat NPROD * ITEMS_PER_PROD).
  { rewrite <- (d_np _ _ _ _ _ _ D), <- (length_insert ps k p'), Z.mul_comm, <- (zsum_const ITEMS_PER_PROD).
    apply zsum_le. intros x [j Hj]%list_elem_of_lookup. rewrite list_lookup_insert_Some in Hj.
    destruct Hj as [(_ & <- & _)|[_ Hj]]; [done|].
    pose proof (d_prods _ _ _ _ _ _ D j x Hj) as Hx. unfold prod_ok in Hx.
    pose proof items_nonneg. destruct (p_at x); lia. }
  rewrite (zsum_insert _ _ _ _ _ Hk) in *. cbn in *. lia.
Qed.

Lemma c_has_nonneg h q cs ps l own c : data_inv h q cs ps l own -> c ∈ cs -> 0 <= c_has c.
Proof. intros D Hc%(d_nonneg _ _ _ _ _ _ D). unfold c_has. destruct (hand c); lia. Qed.

(** ** Changes that the data does not see *)

Lemma data_queue_fields h q q' cs ps l own :
  q_head q' = q_head q -> q_tail q' = q_tail q -> q_count q' = q_count q ->
  data_inv h q cs ps l own -> data_inv h q' cs ps l own.
Proof. intros E1 E2 E3 []. split; rewrite ?E1, ?E2, ?E3; done. Qed.

Definition same_data (c c' : consumer_t) : Prop :=
  c_items c' = c_items c /\ c_sum c' = c_sum c /\ hand c' = hand c.

Lemma zsum_same f cs cs' :
  (forall c c', same_data c c' -> f c' = f c) -> Forall2 same_data cs cs' -> zsum f cs' = zsum f cs.
Proof. intros Hf. unfold zsum. induction 1 as [|c c' cs cs' Hc _ IH]; cbn; [done|]. by rewrite IH, (Hf c c'). Qed.

Lemma data_cons_relabel h q cs cs' ps l own :
  Forall2 same_data cs cs' -> data_inv h q cs ps l own -> data_inv h q cs' ps l own.
Proof.
  intros Hs []. split; try done.
  - intros n j. rewrite d_cons0. split.
    + intros (c & Hj & Hh). destruct (Forall2_lookup_l _ _ _ _ _ Hs Hj) as (c' & Hj' & _ & _ & E).
      exists c'. split; [done|]. by rewrite E.
    + intros (c' & Hj' & Hh). destruct (Forall2_lookup_r _ _ _ _ _ Hs Hj') as (c & Hj & _ & _ & E).
      exists c. split; [done|]. by rewrite <- E.
  - rewrite (zsum_same c_has _ _ ltac:(intros c c' (E1 & _ & E3); unfold c_has; by rewrite E1, E3) Hs). done.
  - rewrite (zsum_same (c_worth h) _ _ ltac:(intros c c' (_ & E2 & E3); unfold c_worth; by rewrite E2, E3) Hs).
    done.
  - intros c' Hc'. apply list_elem_of_lookup in Hc' as [j Hj'].
    destruct (Forall2_lookup_r _ _ _ _ _ Hs Hj') as (c & Hj & -> & _). apply d_nonneg0.
    by eapply list_elem_of_lookup_2.
  - by rewrite <- (Forall2_length _ _ _ Hs).
Qed.

Lemma same_data_insert cs j c x :
  cs !! j = Some c -> hand c = None -> hand (set_c_at x c) = None ->
  Forall2 same_data cs (<[j := set_c_at x c]> cs).
Proof.
  intros Hj H1 H2. apply Forall2_same_length_lookup. split; [by rewrite length_insert|].
  intros i a b Ha Hb. rewrite list_lookup_insert_Some in Hb.
  destruct Hb as [(<- & <- & _)|[Hne Hb]].
  - rewrite Hj in Ha. injection Ha as <-. unfold same_data. rewrite H1, H2. done.
  - rewrite Ha in Hb. injection Hb as <-. done.
Qed.

(** Consumers woken from their sleep. *)
Definition awakes (c c' : consumer_t) : Prop :=
  c' = c \/ c_at c = CWaiting /\ c' = set_c_at CWoken c.

Lemma awakes_same cs cs' : Forall2 awakes cs cs' -> Forall2 same_data cs cs'.
Proof.
  intros Hw. eapply Forall2_impl; [exact Hw|]. intros c c' [->|[Hc ->]]; [done|]. unfold same_data, hand. cbn. by rewrite Hc.
Qed.

Lemma awakes_insert cs j c :
  cs !! j = Some c -> c_at c = CWaiting -> Forall2 awakes cs (<[j := set_c_at CWoken c]> cs).
Proof.
  intros Hj Hc. apply Forall2_same_length_lookup. split; [by rewrite length_insert|].
  intros i a b Ha Hb. rewrite list_lookup_insert_Some in Hb.
  destruct Hb as [(<- & <- & _)|[Hne Hb]]; [|left; congruence].
  rewrite Hj in Ha. injection Ha as <-. by right.
Qed.

Lemma awakes_broadcast cs : Forall2 awakes cs (cond_broadcast cs).
Proof.
  unfold cond_broadcast. apply Forall2_same_length_lookup. split; [by rewrite length_fmap|].
  intros i a b Ha Hb. rewrite list_lookup_fmap, Ha in Hb. injection Hb as <-.
  unfold awakes, wake, is_waiting. destruct (c_at a); auto.
Qed.

Lemma is_waiting_at c : is_waiting c = true -> c_at c = CWaiting.
Proof. unfold is_waiting. by destruct (c_at c). Qed.

Lemma awakes_signal w cs cs' : cond_signal w cs = Some cs' -> Forall2 awakes cs cs'.
Proof.
  unfold cond_signal. destruct w as [j|].
  - destruct (cs !! j) as [c|] eqn:Hj; [|done]. cbn [mbind option_bind].
    destruct (is_waiting c) eqn:Ew; [|done]. intros [= <-]. apply awakes_insert, is_waiting_at; done.
  - destruct (existsb _ _); [done|]. intros [= <-]. apply Forall_Forall2_diag, Forall_true. by left.
Qed.

Lemma data_prod_relabel h q cs ps k p x l own :
  ps !! k = Some p -> pushing p = None -> pushing (set_p_at x p) = None ->
  prod_ok h k (set_p_at x p) -> data_inv h q cs ps l own ->
  data_inv h q cs (<[k := set_p_at x p]> ps) l own.
Proof.
  intros Hk H1 H2 Hok []. split; try done.
  - intros n k'. rewrite d_prod0. setoid_rewrite list_lookup_insert_Some. split.
    + intros (p' & Hk' & Hn). exists p'. split; [|done]. right. split; [|done].
      intros ->. rewrite Hk in Hk'. injection Hk' as <-. congruence.
    + intros (p' & [(<- & <- & _)|[_ Hk']] & Hn); [congruence|eauto].
  - intros k' p'. rewrite list_lookup_insert_Some. intros [(<- & <- & _)|[_ Hk']]; eauto.
  - rewrite (zsum_insert _ _ _ _ _ Hk). cbn. lia.
  - rewrite (zsum_insert _ _ _ _ _ Hk). cbn [set_p_at p_sum]. by rewrite Z.sub_add.
  - by rewrite length_insert.
Qed.

(** ** Nodes change hands *)

Lemma own_none h q cs ps l own n : data_inv h q cs ps l own -> h !! n = None -> own !! n = None.
Proof.
  intros D Hn. destruct (own !! n) eqn:E; [|done].
  destruct (proj2 (d_dom _ _ _ _ _ _ D n)) as [? ?]; [by eexists|congruence].
Qed.

Lemma node_value_eq h h' n : n_value <$> h' !! n = n_value <$> h !! n -> node_value h' n = node_value h n.
Proof. unfold node_value. by intros ->. Qed.

(** The sums only look at the nodes in the queue and in the consumers' hands. *)
Lemma worth_frame h h' q cs ps l own :
  data_inv h q cs ps l own ->
  (forall n, own !! n = Some OQueue \/ (exists j, own !! n = Some (OCons j)) ->
     node_value h' n = node_value h n) ->
  zsum (node_value h') l + zsum (c_worth h') cs = zsum (node_value h) l + zsum (c_worth h) cs.
Proof.
  intros D Hf. f_equal; apply zsum_ext.
  - intros n Hn. apply Hf. left. by apply (d_queue _ _ _ _ _ _ D).
  - intros c [j Hj]%list_elem_of_lookup. unfold c_worth. destruct (hand c) as [n|] eqn:Eh; [|done].
    rewrite Hf; [done|]. right. exists j. apply (d_cons _ _ _ _ _ _ D). eauto.
Qed.

Lemma data_malloc h q cs ps k p i n l own :
  data_inv h q cs ps l own -> ps !! k = Some p -> p_at p = PLoop i -> i < ITEMS_PER_PROD ->
  h !! n = None ->
  data_inv (<[n := mk_node None (value k i)]> h) q cs (<[k := set_p_at (PPush i n) p]> ps) l
    (<[n := OProd k]> own).
Proof.
  intros D Hk Hp Hi Hn. pose proof (own_none _ _ _ _ _ _ _ D Hn) as Ho.
  pose proof (d_prods _ _ _ _ _ _ D k p Hk) as Hok. unfold prod_ok in Hok. rewrite Hp in Hok.
  pose proof (worth_frame h (<[n := mk_node None (value k i)]> h) _ _ _ _ _ D) as Hws.
  assert (Hpn : pushing p = None) by (unfold pushing; by rewrite Hp).
  destruct D. split; try done.
  - apply lseg_insert_ne; [|done]. rewrite d_queue0. congruence.
  - intros m. rewrite !lookup_insert. case_decide; [by split; eauto|apply d_dom0].
  - intros m. rewrite lookup_insert, d_queue0. case_decide; [subst; rewrite Ho; by split|done].
  - intros m j. rewrite lookup_insert, <- d_cons0. case_decide; [subst; rewrite Ho; by split|done].
  - intros m k'. rewrite lookup_insert. setoid_rewrite list_lookup_insert_Some. case_decide as Hm.
    + subst m. split.
      * intros [= <-]. eexists. split; [left; split_and!; [done..|by eapply lookup_lt_Some]|done].
      * intros (p' & [(<- & _)|[_ Hk']] & Hx); [done|].
        assert (own !! n = Some (OProd k')) by (apply d_prod0; eauto). congruence.
    + rewrite d_prod0. split.
      * intros (p' & Hk' & Hx). exists p'. split; [|done]. right. split; [|done]. intros ->. congruence.
      * intros (p' & [(<- & <- & _)|[_ Hk']] & Hx); [by injection Hx|eauto].
  - intros k' p'. rewrite list_lookup_insert_Some. intros [(<- & <- & _)|[Hne Hk']].
    + unfold prod_ok. cbn. rewrite lookup_insert_eq. split_and!; lia || done.
    + specialize (d_prods0 k' p' Hk'). unfold prod_ok in *. destruct (p_at p') as [| |i' m|] eqn:Ep; try done.
      rewrite lookup_insert_ne; [done|]. intros <-. destruct d_prods0 as (_ & _ & ?). congruence.
  - rewrite (zsum_insert _ _ _ _ _ Hk). cbn. lia.
  - rewrite (zsum_insert _ _ _ _ _ Hk). cbn [set_p_at p_sum]. rewrite Z.sub_add, Hws; [done|].
    intros m [Hm|[j Hm]]; apply node_value_eq; rewrite lookup_insert_ne; congruence.
  - by rewrite length_insert.
Qed.

Lemma push_list h q l n v :
  lseg n_next h (q_head q) l None -> q_tail q = last l -> n ∉ l -> h !! n = Some (mk_node None v) ->
  exists h' q', queue_push h q n = Some (h', q') /\ lseg n_next h' (q_head q') (l ++ [n]) None /\
    q_tail q' = Some n /\ q_count q' = u64 (q_count q + 1) /\ q_closed q' = q_closed q /\
    (forall m, n_value <$> h' !! m = n_value <$> h !! m) /\ (forall m, m ∉ l -> h' !! m = h !! m).
Proof.
  intros Hl Ht Hn Hv. unfold queue_push. rewrite Ht. destruct l as [|t l' _] using rev_ind.
  - cbn in *. do 2 eexists. split; [done|]. cbn. split_and!; eauto.
  - rewrite last_snoc. apply lseg_last in Hl as (Hpre & nd & Hnd & Hnx).
    assert (Hnd2 : NoDup (l' ++ [t])).
    { eapply lseg_NoDup, lseg_last. split; [exact Hpre|]. exists nd. done. }
    apply NoDup_app in Hnd2 as (_ & Hnt & _).
    rewrite Hnd. cbn [mbind option_bind]. do 2 eexists. split; [done|]. cbn. split_and!; try done.
    + apply lseg_last. split.
      * apply lseg_last. split; [apply lseg_insert_ne; [set_solver|done]|].
        eexists. split; [apply lookup_insert_eq|done].
      * exists (mk_node None v). split; [|done]. by rewrite lookup_insert_ne by set_solver.
    + intros m. rewrite lookup_insert. case_decide; [subst; by rewrite Hnd|done].
    + intros m Hm. rewrite lookup_insert_ne; [done|set_solver].
Qed.

Lemma data_push h q cs ps k p i n l own :
  data_inv h q cs ps l own -> ps !! k = Some p -> p_at p = PPush i n ->
  exists h' q', queue_push h q n = Some (h', q') /\ q_closed q' = q_closed q /\
    q_count q' = q_count q + 1 /\
    data_inv h' q' cs
      (<[k := mk_prod (PLoop (i + 1)) (u64 (p_items p + 1)) (u64 (p_sum p + value k i))]> ps)
      (l ++ [n]) (<[n := OQueue]> own).
Proof.
  intros D Hk Hp. pose proof (d_prods _ _ _ _ _ _ D k p Hk) as Hok. unfold prod_ok in Hok.
  rewrite Hp in Hok. destruct Hok as (Hit & Hi & Hn).
  assert (Ho : own !! n = Some (OProd k))
    by (apply (d_prod _ _ _ _ _ _ D); exists p; split; [done|]; unfold pushing; by rewrite Hp).
  assert (Hl : n ∉ l) by (rewrite (d_queue _ _ _ _ _ _ D); congruence).
  destruct (push_list _ _ _ _ _ (d_list _ _ _ _ _ _ D) (d_tail _ _ _ _ _ _ D) Hl Hn)
    as (h' & q' & E & Hl' & Ht & Hc & Hcl & Hv & Hout).
  pose proof (prod_items_lt _ _ _ _ _ _ _ _ D Hk ltac:(lia)) as Hle. pose proof items_fit as Hfit.
  pose proof (worth_frame h h' _ _ _ _ _ D) as Hws.
  pose proof (zsum_nonneg c_has cs (fun c => c_has_nonneg _ _ _ _ _ _ c D)) as Hnn.
  assert (Hone : ITEMS_PER_PROD < 2 ^ 64)
    by (pose proof items_nonneg; apply lookup_lt_Some in Hk; rewrite (d_np _ _ _ _ _ _ D) in Hk; nia).
  exists h', q'. split; [done|]. split; [done|]. destruct D.
  assert (Hcnt : u64 (q_count q + 1) = q_count q + 1) by (apply u64_small; lia).
  split; [lia|]. split; try done.
  - by rewrite last_snoc.
  - rewrite length_app. cbn. lia.
  - intros m. rewrite lookup_insert. case_decide as Hm.
    + subst. rewrite (Hout _ Hl), Hn. by split; eauto.
    + rewrite <- d_dom0. specialize (Hv m). destruct (h' !! m), (h !! m); cbn in Hv; by split.
  - intros m. rewrite lookup_insert, elem_of_app, d_queue0, list_elem_of_singleton.
    case_decide; [subst; by split; auto|]. split; [intros [?|?]; [done|congruence]|auto].
  - intros m j. rewrite lookup_insert, <- d_cons0. case_decide; [subst; rewrite Ho; by split|done].
  - intros m k'. rewrite lookup_insert. setoid_rewrite list_lookup_insert_Some. case_decide as Hm.
    + subst m. split; [done|]. intros (p' & [(<- & <- & _)|[Hne Hk']] & Hx); [done|].
      assert (own !! n = Some (OProd k')) by (apply d_prod0; eauto). congruence.
    + rewrite d_prod0. split.
      * intros (p' & Hk' & Hx). exists p'. split; [|done]. right. split; [|done]. intros ->.
        rewrite Hk in Hk'. injection Hk' as <-. unfold pushing in Hx. rewrite Hp in Hx. congruence.
      * intros (p' & [(<- & <- & _)|[_ Hk']] & Hx); [done|eauto].
  - intros k' p'. rewrite list_lookup_insert_Some. intros [(<- & <- & _)|[Hne Hk']].
    + unfold prod_ok. cbn. rewrite u64_small by lia. lia.
    + specialize (d_prods0 k' p' Hk') as Hok. unfold prod_ok in *.
      destruct (p_at p') as [| |i' m|] eqn:Ep; try done.
      rewrite Hout; [done|]. rewrite d_queue0.
      assert (own !! m = Some (OProd k')) by (apply d_prod0; exists p'; split; [done|]; unfold pushing; by rewrite Ep).
      congruence.
  - rewrite (zsum_insert _ _ _ _ _ Hk), length_app. cbn [p_items length]. rewrite (u64_small (_ + 1)) by lia. lia.
  - rewrite (zsum_insert _ _ _ _ _ Hk), zsum_app. cbn [p_sum].
    assert (zsum (node_value h') [n] = value k i) as ->.
    { unfold zsum, node_value. cbn. rewrite Hv, Hn. cbn. lia. }
    specialize (Hws ltac:(intros m _; by apply node_value_eq)).
    unfold u64 in *. rewrite Zplus_mod_idemp_r.
    replace (zsum p_sum ps - p_sum p + (p_sum p + value k i)) with (zsum p_sum ps + value k i) by lia.
    replace (zsum (node_value h') l + value k i + zsum (c_worth h') cs) with
      (zsum (node_value h) l + zsum (c_worth h) cs + value k i) by lia.
    rewrite <- (Zplus_mod_idemp_l (zsum p_sum ps)), d_sum0. by rewrite Zplus_mod_idemp_l.
  - by rewrite length_insert.
Qed.

Lemma head_list h q cs ps l own :
  data_inv h q cs ps l own -> q_head q = list.head l.
Proof. intros []. destruct l as [|n l]; [done|]. by destruct d_list0 as [-> _]. Qed.

Lemma data_pop h q cs ps j c n l own :
  data_inv h q cs ps (n :: l) own -> cs !! j = Some c -> hand c = None ->
  exists nd, h !! n = Some nd /\
    forall q', q_head q' = n_next nd ->
      q_tail q' = (match n_next nd with None => None | Some _ => q_tail q end) ->
      q_count q' = u64 (q_count q - 1) ->
      data_inv h q' (<[j := set_c_at (CHas n) c]> cs) ps l (<[n := OCons j]> own).
Proof.
  intros D Hj Hh. pose proof (lseg_NoDup _ _ _ _ (d_list _ _ _ _ _ _ D)) as [Hnl _]%NoDup_cons.
  pose proof (d_list _ _ _ _ _ _ D) as (Hq & nd & Hnd & Hl). exists nd. split; [done|].
  intros q' E1 E2 E3.
  pose proof (prod_items_le _ _ _ _ _ _ D) as Hle. pose proof items_fit as Hfit.
  pose proof (zsum_nonneg c_has cs (fun c => c_has_nonneg _ _ _ _ _ _ c D)) as Hnn.
  assert (Ho : own !! n = Some OQueue) by (apply (d_queue _ _ _ _ _ _ D); by left).
  destruct D. cbn [length] in *. split; try done.
  - by rewrite E1.
  - rewrite E2. destruct l as [|b l]; cbn in Hl; [by rewrite Hl|]. destruct Hl as [-> _]. done.
  - rewrite E3, u64_small; lia.
  - intros m. rewrite lookup_insert. case_decide; [subst; rewrite Hnd; by split; eauto|apply d_dom0].
  - intros m. rewrite lookup_insert. case_decide as Hm; [subst; by split|].
    rewrite <- d_queue0, elem_of_cons. split; [auto|by intros [->|?]].
  - intros m j'. rewrite lookup_insert. setoid_rewrite list_lookup_insert_Some. case_decide as Hm.
    + subst m. split.
      * intros [= <-]. eexists. split; [left; split_and!; [done..|by eapply lookup_lt_Some]|done].
      * intros (c' & [(<- & _)|[_ Hj']] & Hx); [done|].
        assert (own !! n = Some (OCons j')) by (apply d_cons0; eauto). congruence.
    + rewrite d_cons0. split.
      * intros (c' & Hj' & Hx). exists c'. split; [|done]. right. split; [|done]. intros ->. congruence.
      * intros (c' & [(<- & <- & _)|[_ Hj']] & Hx); [by injection Hx|eauto].
  - intros m k. rewrite lookup_insert, <- d_prod0. case_decide; [subst; rewrite Ho; by split|done].
  - rewrite d_items0, (zsum_insert _ _ _ _ _ Hj). unfold c_has at 3 4. rewrite Hh. cbn. lia.
  - rewrite d_sum0, (zsum_insert _ _ _ _ _ Hj). f_equal. unfold c_worth at 3 4. rewrite Hh. cbn.
    fold (zsum (node_value h) l). lia.
  - intros c' [j' Hj']%list_elem_of_lookup. rewrite list_lookup_insert_Some in Hj'.
    destruct Hj' as [(_ & <- & _)|[_ Hj']]; [cbn|]; apply d_nonneg0; by eapply list_elem_of_lookup_2.
  - by rewrite length_insert.
Qed.

Lemma data_free h q cs ps j c n l own :
  data_inv h q cs ps l own -> cs !! j = Some c -> c_at c = CHas n ->
  exists nd, h !! n = Some nd /\
    data_inv (delete n h) q
      (<[j := mk_cons CCall (u64 (c_items c + 1)) (u64 (c_sum c + n_value nd))]> cs) ps l (delete n own).
Proof.
  intros D Hj Hc. assert (Hh : hand c = Some n) by (unfold hand; by rewrite Hc).
  assert (Ho : own !! n = Some (OCons j)) by (apply (d_cons _ _ _ _ _ _ D); eauto).
  destruct (proj2 (d_dom _ _ _ _ _ _ D n)) as [nd Hnd]; [by eexists|]. exists nd. split; [done|].
  pose proof (prod_items_le _ _ _ _ _ _ D) as Hle. pose proof items_fit as Hfit.
  pose proof (zsum_lookup_le c_has cs j c (fun c => c_has_nonneg _ _ _ _ _ _ c D) Hj) as Hcle.
  pose proof (d_nonneg _ _ _ _ _ _ D c ltac:(by eapply list_elem_of_lookup_2)) as Hpos.
  unfold c_has at 1 in Hcle. rewrite Hh in Hcle.
  assert (Hnv : forall m, m <> n -> node_value (delete n h) m = node_value h m)
    by (intros m Hm; apply node_value_eq; by rewrite lookup_delete_ne).
  assert (Hworth : zsum (c_worth (delete n h)) (<[j := mk_cons CCall (u64 (c_items c + 1)) 0]> cs) =
    zsum (c_worth h) cs - c_worth h c).
  { rewrite <- (Z.add_0_r (_ - _)).
    change 0 with (c_worth h (mk_cons CCall (u64 (c_items c + 1)) 0)) at 2. rewrite <- (zsum_insert _ _ _ _ _ Hj).
    apply zsum_ext. intros x [j' Hj']%list_elem_of_lookup. unfold c_worth.
    destruct (hand x) as [m|] eqn:Eh; [|done]. rewrite Hnv; [done|]. intros ->.
    rewrite list_lookup_insert_Some in Hj'. destruct Hj' as [(<- & <- & _)|[Hne Hj']]; [done|].
    assert (own !! n = Some (OCons j')) by (apply (d_cons _ _ _ _ _ _ D); eauto). congruence. }
  destruct D. split; try done.
  - apply lseg_delete_ne; [|done]. rewrite d_queue0. congruence.
  - intros m. rewrite !lookup_delete. case_decide; [by split|apply d_dom0].
  - intros m. rewrite lookup_delete, d_queue0. case_decide; [subst; rewrite Ho; by split|done].
  - intros m j'. rewrite lookup_delete. setoid_rewrite list_lookup_insert_Some. case_decide as Hm.
    + subst m. split; [done|]. intros (c' & [(<- & <- & _)|[Hne Hj']] & Hx); [done|].
      assert (own !! n = Some (OCons j')) by (apply d_cons0; eauto). congruence.
    + rewrite d_cons0. split.
      * intros (c' & Hj' & Hx). exists c'. split; [|done]. right. split; [|done]. intros ->. congruence.
      * intros (c' & [(<- & <- & _)|[_ Hj']] & Hx); [done|eauto].
  - intros m k. rewrite lookup_delete, <- d_prod0. case_decide; [subst; rewrite Ho; by split|done].
  - intros k p Hk. specialize (d_prods0 k p Hk) as Hok. unfold prod_ok in *.
    destruct (p_at p) as [| |i m|] eqn:Ep; try done. rewrite lookup_delete_ne; [done|]. intros <-.
    assert (own !! n = Some (OProd k)) by (apply d_prod0; exists p; split; [done|]; unfold pushing; by rewrite Ep).
    congruence.
  - rewrite d_items0, (zsum_insert _ _ _ _ _ Hj). unfold c_has at 3 4. rewrite Hh. cbn. rewrite u64_small; lia.
  - rewrite (zsum_insert _ _ _ _ _ Hj) in Hworth. rewrite (zsum_insert _ _ _ _ _ Hj).
    assert (zsum (node_value (delete n h)) l = zsum (node_value h) l) as ->.
    { apply zsum_ext. intros m Hm. apply Hnv. intros ->. apply d_queue0 in Hm. congruence. }
    assert (Ev : node_value h n = n_value nd) by (unfold node_value; by rewrite Hnd).
    assert (Ew : c_worth h c = c_sum c + n_value nd) by (unfold c_worth; rewrite Hh; lia).
    rewrite d_sum0. unfold c_worth at 3 in Hworth. unfold c_worth at 4. cbn [c_sum hand c_at] in *.
    unfold u64. rewrite (Z.add_0_r ((c_sum c + _) mod _)).
    rewrite !Z.add_assoc, Zplus_mod_idemp_r. f_equal. lia.
  - intros c' [j' Hj']%list_elem_of_lookup. rewrite list_lookup_insert_Some in Hj'.
    destruct Hj' as [(_ & <- & _)|[_ Hj']]; [cbn; apply u64_range|]. apply d_nonneg0. by eapply list_elem_of_lookup_2.
  - by rewrite length_insert.
Qed.

(** ** Control *)

Lemma ctl_wake q cs cs' ps m l :
  Forall2 awakes cs cs' -> ctl_inv q cs ps m l -> ctl_inv q cs' ps m l.
Proof.
  intros Hw []. assert (Hback : forall j c', cs' !! j = Some c' -> exists c, cs !! j = Some c /\ awakes c c').
  { intros j c' Hj. by destruct (Forall2_lookup_r _ _ _ _ _ Hw Hj) as (c & ? & ?); eauto. }
  split; try done; intros j c' Hj; destruct (Hback j c' Hj) as (c & Hc & [->|[Hat ->]]); eauto; cbn; try done.
  - split; [done|]. intros Hle. apply (k_new_c0 _ _ Hc) in Hle. congruence.
  - intros Hlt. pose proof (k_done_c0 _ _ Hc Hlt). congruence.
Qed.

(** A consumer other than a new or a returned one moves on. *)
Lemma ctl_cons q q' cs ps m l l' j c c' :
  ctl_inv q cs ps m l -> cs !! j = Some c -> q_closed q' = q_closed q -> (l = [] -> l' = []) ->
  c_at c <> CNew -> c_at c <> CDone -> c_at c' <> CNew ->
  (c_at c' = CWaiting -> q_closed q = false) -> (c_at c' = CDone -> q_closed q = true /\ l' = []) ->
  ctl_inv q' (<[j := c']> cs) ps m l'.
Proof.
  intros [] Hj Hq Hl H1 H2 H3 H4 H5.
  assert (Hcs : forall i x, <[j := c']> cs !! i = Some x -> i = j /\ x = c' \/ i <> j /\ cs !! i = Some x).
  { intros i x. rewrite list_lookup_insert_Some. naive_solver. }
  split; try (by rewrite Hq); try done; intros i x Hx; destruct (Hcs i x Hx) as [[-> ->]|[Hne Hi]]; eauto.
  - split; [done|]. intros Hle. by apply (k_new_c0 _ _ Hj) in Hle.
  - intros Hlt. by pose proof (k_done_c0 _ _ Hj Hlt).
  - rewrite Hq. auto.
  - rewrite Hq. intros Hd. destruct (k_drained0 _ _ Hi Hd). auto.
Qed.

(** While a producer runs the queue is open. *)
Lemma producer_open q cs ps m l k p :
  ctl_inv q cs ps m l -> ps !! k = Some p -> length ps = NPROD -> p_at p <> PDone -> q_closed q = false.
Proof.
  intros [] Hk Hlen Hp. rewrite k_closed0. destruct m; try done; cbn;
    (destruct Hp; apply (k_done_p0 _ _ Hk); cbn; rewrite <- Hlen; by eapply lookup_lt_Some).
Qed.

Lemma ctl_prod q q' cs ps m l l' k p p' :
  ctl_inv q cs ps m l -> ps !! k = Some p -> length ps = NPROD -> q_closed q' = q_closed q ->
  p_at p <> PNew -> p_at p <> PDone -> p_at p' <> PNew -> ctl_inv q' cs (<[k := p']> ps) m l'.
Proof.
  intros K Hk Hlen Hq H1 H2 H3. pose proof (producer_open _ _ _ _ _ _ _ K Hk Hlen H2) as Ho. destruct K.
  assert (Hps : forall i x, <[k := p']> ps !! i = Some x -> i = k /\ x = p' \/ i <> k /\ ps !! i = Some x).
  { intros i x. rewrite list_lookup_insert_Some. naive_solver. }
  split; try (by rewrite Hq); try done.
  - intros i x Hx. destruct (Hps i x Hx) as [[-> ->]|[Hne Hi]]; eauto.
    split; [done|]. intros Hle. by apply (k_new_p0 _ _ Hk) in Hle.
  - intros i x Hx Hlt. destruct (Hps i x Hx) as [[-> ->]|[Hne Hi]]; eauto.
    by pose proof (k_done_p0 _ _ Hk Hlt).
  - intros j c Hj Hd. destruct (k_drained0 _ _ Hj Hd). congruence.
Qed.

(** * Work *)

Definition prod_work (p : producer_t) : Z :=
  match p_at p with
  | PNew => 10 * ITEMS_PER_PROD + 2
  | PLoop i => 10 * (ITEMS_PER_PROD - i) + 1
  | PPush i _ => 10 * (ITEMS_PER_PROD - i)
  | PDone => 0
  end.

Definition cons_work (c : consumer_t) : Z :=
  match c_at c with CNew | CHas _ => 2 | CCall | CWoken => 1 | CWaiting | CDone => 0 end.

Definition main_work (m : main_ctl) : Z :=
  let p := Z.of_nat NPROD in
  let c := Z.of_nat NCONS in
  match m with
  | MSpawnC i => Z.of_nat (NCONS - i) + 2 * p + 2 * c + 8
  | MSpawnP i => Z.of_nat (NPROD - i) + p + 2 * c + 7
  | MJoinP i => Z.of_nat (NPROD - i) + 2 * c + 6
  | MPark => 2 * c + 5
  | MClose => 2 * c + 4
  | MJoinC i => Z.of_nat (NCONS - i) + 2
  | MVerify => 1
  | MExit _ => 0
  end.

Definition toy_work (s : toy) : Z :=
  zsum prod_work (t_prod s) + 4 * q_count (t_q s) + zsum cons_work (t_cons s) + main_work (t_main s).

Lemma wake_work cs cs' : Forall2 awakes cs cs' -> zsum cons_work cs' <= zsum cons_work cs + Z.of_nat (length cs).
Proof.
  unfold zsum. induction 1 as [|c c' cs cs' Hc _ IH]; cbn -[Z.of_nat]; [lia|].
  assert (cons_work c' <= cons_work c + 1).
  { destruct Hc as [->|[Hc ->]]; [lia|]. unfold cons_work. rewrite Hc. cbn. lia. }
  lia.
Qed.

Lemma signal_work w cs cs' : cond_signal w cs = Some cs' -> zsum cons_work cs' <= zsum cons_work cs + 1.
Proof.
  unfold cond_signal. destruct w as [j|].
  - destruct (cs !! j) as [c|] eqn:Hj; [|done]. cbn [mbind option_bind].
    destruct (is_waiting c) eqn:Ew; [|done]. intros [= <-]. rewrite (zsum_insert _ _ _ _ _ Hj).
    apply is_waiting_at in Ew. unfold cons_work at 2 3. rewrite Ew. cbn. lia.
  - destruct (existsb _ _); [done|]. intros [= <-]. lia.
Qed.

(** * Transitions *)

(** What a transition of the correct mode may do. *)
Definition goes_on (s : toy) (o : outcome) : Prop :=
  match o with
  | Next s' => (exists l own, toy_inv s' l own) /\ toy_work s' < toy_work s
  | Blocked => True
  | Abort | Undefined => False
  end.

Lemma pop_correct h q cs ps l own woken :
  data_inv h q cs ps l own ->
  exists out q', queue_pop MODE_CORRECT woken h q = Some (out, q') /\ q_closed q' = q_closed q /\
    match l with
    | [] => out = (if q_closed q then PopFalse else PopWait) /\ q_head q' = q_head q /\
            q_tail q' = q_tail q /\ q_count q' = q_count q
    | n :: _ => out = PopNode n /\ exists nd, h !! n = Some nd /\ q_head q' = n_next nd /\
                q_tail q' = (match n_next nd with None => None | Some _ => q_tail q end) /\
                q_count q' = u64 (q_count q - 1)
    end.
Proof.
  intros D. pose proof (head_list _ _ _ _ _ _ D) as Hh. unfold queue_pop.
  set (q1 := if woken then _ else q).
  assert (Eq : q_head q1 = q_head q /\ q_tail q1 = q_tail q /\ q_count q1 = q_count q /\ q_closed q1 = q_closed q)
    by (by destruct woken). destruct Eq as (E1 & E2 & E3 & E4). rewrite E1, Hh, E4.
  destruct l as [|n l]; cbn [list.head] in *.
  - rewrite bool_decide_true by done. cbn [andb]. destruct (q_closed q) eqn:Ec; cbn [negb];
      do 2 eexists; (split; [done|]); cbn; split_and!; congruence.
  - rewrite bool_decide_false by done. cbn [andb].
    pose proof (d_list _ _ _ _ _ _ D) as (_ & nd & Hnd & _). rewrite Hnd. cbn [mbind option_bind].
    do 2 eexists. split; [done|]. cbn. split; [done|]. split; [done|]. exists nd. by rewrite E2, E3.
Qed.

Lemma consumer_next s l own j c :
  toy_inv s l own -> t_cons s !! j = Some c -> goes_on s (consumer_step MODE_CORRECT s j c).
Proof.
  intros [D K] Hj. unfold consumer_step.
  assert (Hpop : forall woken, hand c = None -> cons_work c = 1 -> c_at c <> CNew -> c_at c <> CDone ->
    goes_on s (match queue_pop MODE_CORRECT woken (t_heap s) (t_q s) with
      | None => Undefined
      | Some (PopWait, q) => Next (mk_toy (t_heap s) q (<[j := set_c_at CWaiting c]> (t_cons s)) (t_prod s) (t_main s))
      | Some (PopFalse, q) => Next (mk_toy (t_heap s) q (<[j := set_c_at CDone c]> (t_cons s)) (t_prod s) (t_main s))
      | Some (PopNode n, q) => Next (mk_toy (t_heap s) q (<[j := set_c_at (CHas n) c]> (t_cons s)) (t_prod s) (t_main s))
      | Some (PopBug, _) => Abort
      end)).
  { intros woken Hh Hw H1 H2. destruct (pop_correct _ _ _ _ _ _ woken D) as (out & q' & -> & Hcl & Hout).
    destruct l as [|n l].
    - destruct Hout as (-> & E1 & E2 & E3).
      assert (Hgo : forall x, x = (if q_closed (t_q s) then CDone else CWaiting) ->
        goes_on s (Next (mk_toy (t_heap s) q' (<[j := set_c_at x c]> (t_cons s)) (t_prod s) (t_main s)))).
      { intros x Hx. split; [exists [], own; split; cbn|].
        - apply (data_queue_fields _ (t_q s)); try done.
          eapply data_cons_relabel; [|exact D]. apply same_data_insert; [done..|].
          rewrite Hx. unfold hand. cbn. by destruct (q_closed (t_q s)).
        - eapply ctl_cons; eauto; cbn; destruct (q_closed (t_q s)); congruence || done.
        - unfold toy_work. cbn [t_prod t_q t_cons t_main]. rewrite (zsum_insert _ _ _ _ _ Hj), E3. unfold cons_work at 3. cbn.
          destruct (q_closed (t_q s)); subst x; lia. }
      destruct (q_closed (t_q s)); by apply Hgo.
    - destruct Hout as (-> & nd & Hnd & E1 & E2 & E3).
      destruct (data_pop _ _ _ _ _ _ _ _ _ D Hj Hh) as (nd' & Hnd' & Hd). rewrite Hnd in Hnd'.
      injection Hnd' as <-. specialize (Hd q' E1 E2 E3).
      split; [exists l; eexists; split; cbn; [exact Hd|]|].
      + eapply ctl_cons; eauto; cbn; congruence || done.
      + unfold toy_work. cbn [t_prod t_q t_cons t_main]. rewrite (zsum_insert _ _ _ _ _ Hj), (d_count _ _ _ _ _ _ Hd),
          (d_count _ _ _ _ _ _ D). unfold cons_work at 3. cbn [c_at set_c_at length]. lia. }
  destruct (c_at c) as [| | | |n|] eqn:Ec; try done.
  - apply Hpop; unfold hand, cons_work; by rewrite ?Ec.
  - apply Hpop; unfold hand, cons_work; by rewrite ?Ec.
  - destruct (data_free _ _ _ _ _ _ _ _ _ D Hj Ec) as (nd & -> & Hd).
    split; [exists l; eexists; split; cbn; [exact Hd|]|].
    + eapply ctl_cons; eauto; cbn; congruence || done.
    + unfold toy_work. cbn [t_prod t_q t_cons t_main]. rewrite (zsum_insert _ _ _ _ _ Hj). unfold cons_work at 2 3. rewrite Ec. cbn. lia.
Qed.

Lemma producer_next s l own k p a w :
  toy_inv s l own -> t_prod s !! k = Some p -> is_Some a -> goes_on s (producer_step s k p a w).
Proof.
  intros [D K] Hk [n ->]. pose proof (d_np _ _ _ _ _ _ D) as Hlen. unfold producer_step.
  pose proof (d_prods _ _ _ _ _ _ D k p Hk) as Hok. unfold prod_ok in Hok.
  destruct (p_at p) as [|i|i m|] eqn:Ep; try done.
  - destruct (i <? ITEMS_PER_PROD) eqn:Ei.
    + destruct (t_heap s !! n) eqn:En; [done|].
      split; [do 2 eexists; split; cbn; [eapply data_malloc; [exact D|..]; eauto; lia|]|].
      * eapply ctl_prod; eauto; cbn; congruence.
      * unfold toy_work. cbn [t_prod t_q t_cons t_main]. rewrite (zsum_insert _ _ _ _ _ Hk).
        unfold prod_work at 2 3. rewrite Ep. cbn [p_at set_p_at]. lia.
    + split; [exists l, own; split; cbn|].
      * eapply data_prod_relabel; eauto; [unfold pushing; by rewrite Ep|]. unfold prod_ok. cbn. lia.
      * eapply ctl_prod; eauto; cbn; congruence.
      * unfold toy_work. cbn [t_prod t_q t_cons t_main]. rewrite (zsum_insert _ _ _ _ _ Hk).
        unfold prod_work at 2 3. rewrite Ep. cbn [p_at set_p_at]. lia.
  - destruct (data_push _ _ _ _ _ _ _ _ _ _ D Hk Ep) as (h' & q' & -> & Hcl & Hcnt & Hd).
    destruct (cond_signal w (t_cons s)) as [cs|] eqn:Ew; [|done].
    pose proof (awakes_signal _ _ _ Ew) as Hw. pose proof (signal_work _ _ _ Ew) as Hsw.
    split; [do 2 eexists; split; cbn|].
    + eapply data_cons_relabel; [by apply awakes_same|exact Hd].
    + eapply ctl_prod; [eapply ctl_wake; [exact Hw|exact K]|eauto..]; cbn; congruence.
    + unfold toy_work. cbn [t_prod t_q t_cons t_main]. rewrite (zsum_insert _ _ _ _ _ Hk).
      unfold prod_work at 2 3. rewrite Ep. cbn [p_at]. lia.
Qed.

(** Moving [main] to a point that promises no less. *)
Lemma ctl_main q cs ps m m' l :
  ctl_inv q cs ps m l -> past_close m' = past_close m ->
  (forall j c, cs !! j = Some c -> ((spawned_c m' <= j) <-> (spawned_c m <= j))%nat) ->
  (forall k p, ps !! k = Some p -> ((spawned_p m' <= k) <-> (spawned_p m <= k))%nat) ->
  (forall k p, ps !! k = Some p -> (k < joined_p m')%nat -> p_at p = PDone) ->
  (forall j c, cs !! j = Some c -> (j < joined_c m')%nat -> c_at c = CDone) ->
  (forall rc, m' = MExit rc -> rc = 0) -> m' <> MPark -> ctl_inv q cs ps m' l.
Proof.
  intros [] H1 H2 H3 H4 H5 H6 H7. split; try done.
  - congruence.
  - intros j c Hj. rewrite (H2 j c Hj). eauto.
  - intros k p Hk. rewrite (H3 k p Hk). eauto.
Qed.

Lemma total_u64_zsum {A} (f : A -> Z) (l : list A) : total_u64 f l = u64 (zsum f l).
Proof.
  unfold total_u64. rewrite <- (Z.add_0_l (zsum f l)). change (u64 (0 + zsum f l)) with (u64 (u64 0 + zsum f l)).
  assert (Hgen : forall a, foldl (fun acc x => u64 (acc + f x)) (u64 a) l = u64 (a + zsum f l)).
  { unfold zsum. induction l as [|x l IH]; intros a; cbn; [by rewrite Z.add_0_r|].
    rewrite u64_add_l, IH. f_equal. lia. }
  rewrite u64_add_l. exact (Hgen 0).
Qed.

(** The end: every producer and consumer has returned. *)
Lemma final_state s l own :
  toy_inv s l own -> joined_p (t_main s) = NPROD -> joined_c (t_main s) = NCONS ->
  toy_ok s = true /\ t_heap s = ∅.
Proof.
  intros [D K] Hjp Hjc.
  assert (Hp : forall k p, t_prod s !! k = Some p -> p_at p = PDone).
  { intros k p Hk. apply (k_done_p _ _ _ _ _ K _ _ Hk). rewrite Hjp.
    rewrite <- (d_np _ _ _ _ _ _ D). by eapply lookup_lt_Some. }
  assert (Hc : forall j c, t_cons s !! j = Some c -> c_at c = CDone).
  { intros j c Hj. apply (k_done_c _ _ _ _ _ K _ _ Hj). rewrite Hjc.
    rewrite <- (d_nc _ _ _ _ _ _ D). by eapply lookup_lt_Some. }
  assert (Hhand : forall c, c ∈ t_cons s -> hand c = None).
  { intros c [j Hj]%list_elem_of_lookup. unfold hand. by rewrite (Hc j c Hj). }
  assert (l = []) as ->.
  { destruct (lookup_lt_is_Some_2 (t_cons s) 0) as [c Hj].
    { rewrite (d_nc _ _ _ _ _ _ D). apply cons_some. }
    by destruct (k_drained _ _ _ _ _ K 0%nat c Hj (Hc _ _ Hj)). }
  pose proof items_fit as Hfit. pose proof items_nonneg as Hnn.
  assert (Hpi : zsum p_items (t_prod s) = Z.of_nat NPROD * ITEMS_PER_PROD).
  { rewrite <- (d_np _ _ _ _ _ _ D), Z.mul_comm, <- (zsum_const ITEMS_PER_PROD).
    apply zsum_ext. intros p [k Hk]%list_elem_of_lookup. pose proof (d_prods _ _ _ _ _ _ D k p Hk) as Hok.
    unfold prod_ok in Hok. by rewrite (Hp k p Hk) in Hok. }
  assert (Hci : zsum c_has (t_cons s) = zsum c_items (t_cons s))
    by (apply zsum_ext; intros c Hx; unfold c_has; rewrite (Hhand c Hx); lia).
  assert (Hcs : zsum (c_worth (t_heap s)) (t_cons s) = zsum c_sum (t_cons s))
    by (apply zsum_ext; intros c Hx; unfold c_worth; rewrite (Hhand c Hx); lia).
  split.
  - pose proof (d_items _ _ _ _ _ _ D) as Hi. pose proof (d_sum _ _ _ _ _ _ D) as Hs.
    pose proof (head_list _ _ _ _ _ _ D) as Hh. pose proof (d_tail _ _ _ _ _ _ D) as Ht.
    pose proof (d_count _ _ _ _ _ _ D) as Hn. cbn in Hi, Hs, Hh, Ht, Hn.
    unfold toy_ok, TOTAL_ITEMS. rewrite !total_u64_zsum, Hn, Hh, Ht, Hs, Hpi, Hcs.
    assert (zsum c_items (t_cons s) = Z.of_nat NPROD * ITEMS_PER_PROD) as -> by lia.
    rewrite !Z.eqb_refl, !bool_decide_true by done. done.
  - apply map_eq. intros n. rewrite lookup_empty. destruct (t_heap s !! n) as [nd|] eqn:En; [|done].
    destruct (proj1 (d_dom _ _ _ _ _ _ D n)) as [[|j|k] Ho]; [by eexists|..].
    + apply (d_queue _ _ _ _ _ _ D) in Ho. by apply elem_of_nil in Ho.
    + apply (d_cons _ _ _ _ _ _ D) in Ho as (c & Hj & Hx).
      rewrite Hhand in Hx; [done|by eapply list_elem_of_lookup_2].
    + apply (d_prod _ _ _ _ _ _ D) in Ho as (p & Hk & Hx). unfold pushing in Hx. by rewrite (Hp k p Hk) in Hx.
Qed.

(** [main] starts a consumer, and a producer. *)
Lemma ctl_spawn_c q cs ps i c l :
  ctl_inv q cs ps (MSpawnC i) l -> cs !! i = Some c ->
  ctl_inv q (<[i := set_c_at CCall c]> cs) ps (MSpawnC (S i)) l.
Proof.
  intros [] Hi.
  assert (Hcs : forall j x, <[i := set_c_at CCall c]> cs !! j = Some x ->
    j = i /\ x = set_c_at CCall c \/ j <> i /\ cs !! j = Some x).
  { intros j x. rewrite list_lookup_insert_Some. naive_solver. }
  split; try done; intros j x Hx; destruct (Hcs j x Hx) as [[-> ->]|[Hne Hj]]; eauto; cbn; try done; try lia.
  - split; [done|lia].
  - rewrite (k_new_c0 _ _ Hj). cbn. lia.
Qed.

Lemma ctl_spawn_p q cs ps i p l :
  ctl_inv q cs ps (MSpawnP i) l -> ps !! i = Some p ->
  ctl_inv q cs (<[i := set_p_at (PLoop 0) p]> ps) (MSpawnP (S i)) l.
Proof.
  intros [] Hi.
  assert (Hps : forall j x, <[i := set_p_at (PLoop 0) p]> ps !! j = Some x ->
    j = i /\ x = set_p_at (PLoop 0) p \/ j <> i /\ ps !! j = Some x).
  { intros j x. rewrite list_lookup_insert_Some. naive_solver. }
  split; try done; intros j x Hx; destruct (Hps j x Hx) as [[-> ->]|[Hne Hj]]; eauto; cbn; try done; try lia.
  - split; [done|lia].
  - rewrite (k_new_p0 _ _ Hj). cbn. lia.
Qed.

(** Closing wakes every sleeper. *)
Lemma ctl_close q cs ps l :
  ctl_inv q cs ps MClose l -> ctl_inv (queue_close q) (cond_broadcast cs) ps (MJoinC 0) l.
Proof.
  intros K.
  assert (Hno : forall j c, cond_broadcast cs !! j = Some c -> c_at c <> CWaiting /\ c_at c <> CDone).
  { intros j c Hj. unfold cond_broadcast in Hj. rewrite list_lookup_fmap in Hj.
    destruct (cs !! j) as [c0|] eqn:E; [|done]. injection Hj as <-.
    assert (c_at c0 <> CDone).
    { intros Hd. destruct (k_drained _ _ _ _ _ K _ _ E Hd) as [Hcl _].
      by rewrite (k_closed _ _ _ _ _ K) in Hcl. }
    unfold wake, is_waiting. destruct (c_at c0) eqn:Ec; cbn; by rewrite ?Ec. }
  apply (ctl_wake _ _ _ _ _ _ (awakes_broadcast cs)) in K. destruct K. split; try done.
  - intros j c Hj Hw. by destruct (Hno j c Hj).
  - intros j c Hj Hd. by destruct (Hno j c Hj).
Qed.

Lemma goes_main s l own m' :
  toy_inv s l own -> ctl_inv (t_q s) (t_cons s) (t_prod s) m' l -> main_work m' < main_work (t_main s) ->
  goes_on s (Next (mk_toy (t_heap s) (t_q s) (t_cons s) (t_prod s) m')).
Proof.
  intros [D K] K' Hw. split; [by exists l, own|]. unfold toy_work. cbn [t_prod t_q t_cons t_main]. lia.
Qed.

Lemma lookup_lt_c h q cs ps l own j c : data_inv h q cs ps l own -> cs !! j = Some c -> (j < NCONS)%nat.
Proof. intros D Hj. rewrite <- (d_nc _ _ _ _ _ _ D). by eapply lookup_lt_Some. Qed.

Lemma lookup_lt_p h q cs ps l own k p : data_inv h q cs ps l own -> ps !! k = Some p -> (k < NPROD)%nat.
Proof. intros D Hk. rewrite <- (d_np _ _ _ _ _ _ D). by eapply lookup_lt_Some. Qed.

(** The transitions of [main] that start a thread, and that close the queue. *)
Lemma spawn_c_next s l own i c :
  toy_inv s l own -> t_main s = MSpawnC i -> t_cons s !! i = Some c ->
  goes_on s (Next (mk_toy (t_heap s) (t_q s) (<[i := set_c_at CCall c]> (t_cons s)) (t_prod s) (MSpawnC (S i)))).
Proof.
  intros [D K] Em Ec. rewrite Em in K.
  assert (Hnew : c_at c = CNew) by (apply (k_new_c _ _ _ _ _ K _ _ Ec); cbn; lia).
  split; [exists l, own; split; cbn|].
  - eapply data_cons_relabel; [|exact D]. apply same_data_insert; [done| |done]. unfold hand. by rewrite Hnew.
  - by apply ctl_spawn_c.
  - unfold toy_work. cbn [t_prod t_q t_cons t_main]. rewrite (zsum_insert _ _ _ _ _ Ec), Em.
    unfold cons_work at 2 3. rewrite Hnew. cbn [c_at set_c_at]. unfold main_work. lia.
Qed.

Lemma spawn_p_next s l own i p :
  toy_inv s l own -> t_main s = MSpawnP i -> t_prod s !! i = Some p ->
  goes_on s (Next (mk_toy (t_heap s) (t_q s) (t_cons s) (<[i := set_p_at (PLoop 0) p]> (t_prod s)) (MSpawnP (S i)))).
Proof.
  intros [D K] Em Ep. rewrite Em in K.
  assert (Hnew : p_at p = PNew) by (apply (k_new_p _ _ _ _ _ K _ _ Ep); cbn; lia).
  pose proof (d_prods _ _ _ _ _ _ D i p Ep) as Hok. unfold prod_ok in Hok. rewrite Hnew in Hok.
  split; [exists l, own; split; cbn|].
  - eapply data_prod_relabel; eauto; [unfold pushing; by rewrite Hnew|]. unfold prod_ok. cbn.
    pose proof items_nonneg. lia.
  - by apply ctl_spawn_p.
  - unfold toy_work. cbn [t_prod t_q t_cons t_main]. rewrite (zsum_insert _ _ _ _ _ Ep), Em.
    unfold prod_work at 2 3. rewrite Hnew. cbn [p_at set_p_at]. unfold main_work. lia.
Qed.

Lemma close_next s l own :
  toy_inv s l own -> t_main s = MClose ->
  goes_on s (Next (mk_toy (t_heap s) (queue_close (t_q s)) (cond_broadcast (t_cons s)) (t_prod s) (MJoinC 0))).
Proof.
  intros [D K] Em. rewrite Em in K. split; [exists l, own; split; cbn|].
  - apply (data_queue_fields _ (t_q s)); try done.
    eapply data_cons_relabel; [apply awakes_same, awakes_broadcast|exact D].
  - by apply ctl_close.
  - unfold toy_work. cbn [t_prod t_q t_cons t_main queue_close q_count]. rewrite Em.
    pose proof (wake_work _ _ (awakes_broadcast (t_cons s))) as Hw. rewrite (d_nc _ _ _ _ _ _ D) in Hw.
    unfold main_work. lia.
Qed.

Lemma main_next s l own w : toy_inv s l own -> goes_on s (main_step MODE_CORRECT s w).
Proof.
  intros I. pose proof I as [D K]. unfold main_step.
  assert (Hc : forall j c, t_cons s !! j = Some c -> (j < NCONS)%nat) by (intros; by eapply lookup_lt_c).
  assert (Hp : forall k p, t_prod s !! k = Some p -> (k < NPROD)%nat) by (intros; by eapply lookup_lt_p).
  destruct (t_main s) as [i|i|i| | |i| |rc] eqn:Em.
  - destruct (t_cons s !! i) as [c|] eqn:Ec.
    + by apply (spawn_c_next s l own).
    + apply lookup_ge_None in Ec. rewrite (d_nc _ _ _ _ _ _ D) in Ec.
      apply (goes_main s l own); [done| |rewrite Em; unfold main_work; lia].
      apply (ctl_main _ _ _ _ _ _ K); cbn; try done; try lia.
      intros j c Hj. pose proof (Hc j c Hj). lia.
  - destruct (t_prod s !! i) as [p|] eqn:Ep.
    + by apply (spawn_p_next s l own).
    + apply lookup_ge_None in Ep. rewrite (d_np _ _ _ _ _ _ D) in Ep.
      apply (goes_main s l own); [done| |rewrite Em; unfold main_work; lia].
      apply (ctl_main _ _ _ _ _ _ K); cbn; try done; try lia.
      intros k p Hk. pose proof (Hp k p Hk). lia.
  - destruct (t_prod s !! i) as [p|] eqn:Ep.
    + destruct (p_at p) eqn:Eat; try done.
      apply (goes_main s l own); [done| |rewrite Em; unfold main_work; pose proof (Hp _ _ Ep); lia].
      apply (ctl_main _ _ _ _ _ _ K); cbn; try done; try lia.
      intros k p' Hk Hlt. destruct (decide (k = i)) as [->|]; [congruence|].
      apply (k_done_p _ _ _ _ _ K _ _ Hk). cbn. lia.
    + apply lookup_ge_None in Ep. rewrite (d_np _ _ _ _ _ _ D) in Ep.
      apply (goes_main s l own); [done| |rewrite Em; unfold main_work; lia].
      apply (ctl_main _ _ _ _ _ _ K); cbn; try done; try lia.
      intros k p Hk Hlt. apply (k_done_p _ _ _ _ _ K _ _ Hk). cbn. lia.
  - by destruct (k_park _ _ _ _ _ K).
  - by apply (close_next s l own).
  - destruct (t_cons s !! i) as [c|] eqn:Ec.
    + destruct (c_at c) eqn:Eat; try done.
      apply (goes_main s l own); [done| |rewrite Em; unfold main_work; pose proof (Hc _ _ Ec); lia].
      apply (ctl_main _ _ _ _ _ _ K); cbn; try done; try lia; [apply K|].
      intros j c' Hj Hlt. destruct (decide (j = i)) as [->|]; [congruence|].
      apply (k_done_c _ _ _ _ _ K _ _ Hj). cbn. lia.
    + apply lookup_ge_None in Ec. rewrite (d_nc _ _ _ _ _ _ D) in Ec.
      apply (goes_main s l own); [done| |rewrite Em; unfold main_work; lia].
      apply (ctl_main _ _ _ _ _ _ K); cbn; try done; try lia; [apply K|].
      intros j c Hj Hlt. apply (k_done_c _ _ _ _ _ K _ _ Hj). cbn. lia.
  - assert (Hv : toy_ok s = true).
    { apply (final_state s l own I); by rewrite Em. }
    rewrite Hv. apply (goes_main s l own); [done| |rewrite Em; cbn; lia].
    apply (ctl_main _ _ _ _ _ _ K); cbn; try done; [apply K|apply K|]. by intros rc [= <-].
  - done.
Qed.

(** * Runs of the correct mode *)

Definition mallocs (l : label) : bool := match l with LProd _ None _ => false | _ => true end.
Definition spurious (l : label) : bool := match l with LSpurious _ => true | _ => false end.

Lemma spurious_next s l own j s' :
  toy_inv s l own -> toy_step MODE_CORRECT s (LSpurious j) = Next s' ->
  toy_inv s' l own /\ toy_work s' = toy_work s + 1.
Proof.
  intros [D K]. cbn. destruct (t_cons s !! j) as [c|] eqn:Hj; [|done].
  destruct (is_waiting c) eqn:Ew; [|done]. intros [= <-]. apply is_waiting_at in Ew.
  pose proof (awakes_insert _ _ _ Hj Ew) as Ha. split; [split; cbn|].
  - eapply data_cons_relabel; [by apply awakes_same|done].
  - by eapply ctl_wake.
  - unfold toy_work. cbn [t_prod t_q t_cons t_main]. rewrite (zsum_insert _ _ _ _ _ Hj).
    unfold cons_work at 2 3. rewrite Ew. cbn. lia.
Qed.

Lemma toy_next s l own lb :
  toy_inv s l own -> spurious lb = false -> mallocs lb = true -> goes_on s (toy_step MODE_CORRECT s lb).
Proof.
  intros I Hs Hm. destruct lb as [w|k a w|j|j]; [| | |done]; cbn.
  - by eapply main_next.
  - destruct (t_prod s !! k) as [p|] eqn:Hk; [|done]. eapply producer_next; eauto. by destruct a.
  - destruct (t_cons s !! j) as [c|] eqn:Hj; [|done]. by eapply consumer_next.
Qed.

Lemma init_inv : toy_inv toy_init [] ∅.
Proof.
  split; split; cbn -[zsum u64]; try done; try (by rewrite length_replicate).
  - intros n. rewrite !lookup_empty. by split; intros [? ?].
  - intros n. rewrite lookup_empty. split; [by intros ?%elem_of_nil|done].
  - intros n j. rewrite lookup_empty. split; [done|]. by intros (c & [-> _]%lookup_replicate & Hx).
  - intros n k. rewrite lookup_empty. split; [done|]. by intros (p & [-> _]%lookup_replicate & Hx).
  - by intros k p [-> _]%lookup_replicate.
  - rewrite (zsum_ext p_items (fun _ => 0)), (zsum_ext c_has (fun _ => 0)), !zsum_const; [done|..];
      by intros x [-> _]%elem_of_replicate.
  - unfold u64. f_equal. rewrite (zsum_ext p_sum (fun _ => 0)), (zsum_ext (c_worth _) (fun _ => 0)), !zsum_const; [done|..];
      by intros x [-> _]%elem_of_replicate.
  - by intros c [-> _]%elem_of_replicate.
  - intros j c [-> _]%lookup_replicate. cbn. split; [lia|done].
  - intros k p [-> _]%lookup_replicate. cbn. split; [lia|done].
  - lia.
  - lia.
  - by intros j c [-> _]%lookup_replicate.
Qed.

Lemma init_work : toy_work toy_init =
  10 * (Z.of_nat NPROD * ITEMS_PER_PROD) + 4 * Z.of_nat NPROD + 5 * Z.of_nat NCONS + 8.
Proof.
  unfold toy_work. cbn [toy_init t_prod t_q t_cons t_main queue_init q_count main_work].
  rewrite (zsum_ext prod_work (fun _ => 10 * ITEMS_PER_PROD + 2)), (zsum_ext cons_work (fun _ => 2)), !zsum_const,
    !length_replicate; [lia|..]; by intros x [-> _]%elem_of_replicate.
Qed.

Lemma toy_work_nonneg s l own : toy_inv s l own -> 0 <= toy_work s.
Proof.
  intros [D _]. unfold toy_work. rewrite (d_count _ _ _ _ _ _ D).
  assert (0 <= zsum prod_work (t_prod s)).
  { apply zsum_nonneg. intros p [k Hk]%list_elem_of_lookup. pose proof (d_prods _ _ _ _ _ _ D k p Hk) as Hok.
    unfold prod_ok in Hok. unfold prod_work. pose proof items_nonneg. destruct (p_at p); lia. }
  assert (0 <= zsum cons_work (t_cons s)).
  { apply zsum_nonneg. intros c _. unfold cons_work. destruct (c_at c); lia. }
  assert (0 <= main_work (t_main s)) by (unfold main_work; destruct (t_main s); lia).
  lia.
Qed.

(** ** No deadlock *)

Definition moves (m : toy_mode) (s : toy) : Prop :=
  exists lb s', spurious lb = false /\ mallocs lb = true /\ toy_step m s lb = Next s'.

Lemma signal_exists cs : exists w cs', cond_signal w cs = Some cs'.
Proof.
  destruct (existsb is_waiting cs) eqn:E.
  - apply existsb_exists in E as (c & Hin & Hw). apply list_elem_of_In, list_elem_of_lookup in Hin as [j Hj].
    exists (Some j). unfold cond_signal. rewrite Hj. cbn. rewrite Hw. eauto.
  - exists None. unfold cond_signal. rewrite E. eauto.
Qed.

Lemma producer_moves s l own k p :
  toy_inv s l own -> t_prod s !! k = Some p -> p_at p <> PNew -> p_at p <> PDone -> moves MODE_CORRECT s.
Proof.
  intros I Hk H1 H2. pose proof I as [D K].
  assert (Hgo : forall a w, producer_step s k p (Some a) w <> Blocked -> moves MODE_CORRECT s).
  { intros a w Hb. pose proof (producer_next s l own k p (Some a) w I Hk ltac:(done)) as Hn.
    destruct (producer_step s k p (Some a) w) as [s'| | |] eqn:E; try done.
    exists (LProd k (Some a) w), s'. cbn. rewrite Hk. done. }
  unfold producer_step in Hgo. destruct (p_at p) as [|i|i n|] eqn:Ep; try done.
  - apply (Hgo (fresh (dom (t_heap s))) None). destruct (_ <? _); [|done].
    by rewrite (not_elem_of_dom_1 (t_heap s) _ (is_fresh (dom (t_heap s)))).
  - destruct (signal_exists (t_cons s)) as (w & cs & Ew). apply (Hgo 1%positive w). rewrite Ew.
    by destruct (queue_push _ _ _) as [[? ?]|].
Qed.

Lemma consumer_moves s l own j c :
  toy_inv s l own -> t_cons s !! j = Some c -> c_at c <> CNew -> c_at c <> CWaiting -> c_at c <> CDone ->
  moves MODE_CORRECT s.
Proof.
  intros I Hj H1 H2 H3. pose proof (consumer_next s l own j c I Hj) as Hn.
  assert (Hb : consumer_step MODE_CORRECT s j c <> Blocked).
  { unfold consumer_step. cbv zeta. destruct (c_at c); try done; repeat case_match; done. }
  destruct (consumer_step MODE_CORRECT s j c) as [s'| | |] eqn:E; try done.
  exists (LCons j), s'. cbn. rewrite Hj. done.
Qed.

Lemma no_deadlock s l own : toy_inv s l own -> (exists rc, t_main s = MExit rc) \/ moves MODE_CORRECT s.
Proof.
  intros I. pose proof I as [D K].
  assert (Hgo : main_step MODE_CORRECT s None <> Blocked -> moves MODE_CORRECT s).
  { intros Hb. pose proof (main_next s l own None I) as Hn.
    destruct (main_step MODE_CORRECT s None) as [s'| | |] eqn:E; try done. by exists (LMain None), s'. }
  unfold main_step in Hgo.
  destruct (t_main s) as [i|i|i| | |i| |rc] eqn:Em; [right..|by left; exists rc].
  - apply Hgo. by destruct (_ !! _).
  - apply Hgo. by destruct (_ !! _).
  - destruct (t_prod s !! i) as [p|] eqn:Ep; [|by apply Hgo].
    destruct (decide (p_at p = PDone)) as [Hd|Hd]; [apply Hgo; by rewrite Hd|].
    eapply producer_moves; eauto. rewrite (k_new_p _ _ _ _ _ K _ _ Ep). cbn.
    pose proof (lookup_lt_p _ _ _ _ _ _ _ _ D Ep). lia.
  - by destruct (k_park _ _ _ _ _ K).
  - by apply Hgo.
  - destruct (t_cons s !! i) as [c|] eqn:Ec; [|by apply Hgo].
    destruct (decide (c_at c = CDone)) as [Hd|Hd]; [apply Hgo; by rewrite Hd|].
    eapply consumer_moves; eauto.
    + rewrite (k_new_c _ _ _ _ _ K _ _ Ec). cbn. pose proof (lookup_lt_c _ _ _ _ _ _ _ _ D Ec). lia.
    + intros Hw. pose proof (k_sleep _ _ _ _ _ K _ _ Ec Hw) as Hcl. by rewrite (k_closed _ _ _ _ _ K) in Hcl.
  - by apply Hgo.
Qed.

Definition spurious_count (ls : list label) : Z := Z.of_nat (length (filter (fun lb => spurious lb = true) ls)).

(** A step whose allocation fails aborts, or does not allocate. *)
Lemma toy_step_no_memory m s lb :
  mallocs lb = false -> toy_step m s lb = Abort \/
  exists lb', spurious lb' = false /\ mallocs lb' = true /\ toy_step m s lb = toy_step m s lb'.
Proof.
  destruct lb as [|k [a|] w| |]; try done. intros _. cbn.
  destruct (t_prod s !! k) as [p|] eqn:Ek.
  2: { right. exists (LProd k (Some 1%positive) w). cbn. by rewrite Ek. }
  unfold producer_step. destruct (p_at p) eqn:Ep; try destruct (_ <? _) eqn:Ei; try (by left); right;
    exists (LProd k (Some 1%positive) w); cbn; rewrite Ek; unfold producer_step; by rewrite Ep, ?Ei.
Qed.

Lemma run_correct ls s l own :
  toy_inv s l own ->
  match toy_run MODE_CORRECT s ls with
  | Next s' => (exists l' own', toy_inv s' l' own') /\
      toy_work s' + Z.of_nat (length ls) <= toy_work s + 2 * spurious_count ls
  | Blocked => True
  | Abort => forallb mallocs ls = false
  | Undefined => False
  end.
Proof.
  revert s l own. induction ls as [|lb ls IH]; intros s l own I.
  { unfold spurious_count. rewrite filter_nil. cbn. split; [eauto|lia]. }
  assert (Hgo : toy_step MODE_CORRECT s lb = Abort /\ mallocs lb = false \/
                spurious lb = false /\ goes_on s (toy_step MODE_CORRECT s lb) \/ spurious lb = true).
  { destruct (spurious lb) eqn:Es; [by auto|]. destruct (mallocs lb) eqn:Em; [right; left; eauto using toy_next|].
    destruct (toy_step_no_memory MODE_CORRECT s lb Em) as [?|(lb' & Hs & Hm & ->)]; eauto using toy_next. }
  cbn [toy_run forallb]. unfold spurious_count. rewrite filter_cons.
  destruct Hgo as [[-> ->]|[[Es Hn]|Es]]; [done| |].
  - rewrite decide_False by (by rewrite Es). destruct (toy_step MODE_CORRECT s lb) as [s1| | |]; try done.
    destruct Hn as [(l1 & own1 & I1) Hw]. specialize (IH s1 l1 own1 I1).
    destruct (toy_run MODE_CORRECT s1 ls); try done; [|by rewrite IH, andb_false_r]. destruct IH as [? IH].
    split; [done|]. unfold spurious_count in IH. cbn [length]. lia.
  - destruct lb as [| | |j]; try done. rewrite decide_True by done.
    destruct (toy_step MODE_CORRECT s (LSpurious j)) as [s1| | |] eqn:E1; try done;
      try (exfalso; cbn in E1; repeat case_match; done).
    destruct (spurious_next _ _ _ _ _ I E1) as [I1 Hw]. specialize (IH s1 l own I1).
    destruct (toy_run MODE_CORRECT s1 ls); try done. destruct IH as [? IH]. split; [done|].
    unfold spurious_count in IH. cbn [length]. lia.
Qed.

(** C34: The queue demonstration is correct in its correct mode, under every interleaving of its
    producers, consumers and [main], every choice of the waiter a signal wakes, every outcome of
    each [malloc] and any number of spurious wake-ups: a run aborts only if a [malloc] of a push
    fails, and never follows a dangling pointer; as long as it has not aborted, it is bounded by
    the number of items (plus two steps for each spurious wake-up), and wherever it stands either
    some thread can move without a spurious wake-up and with its [malloc] succeeding, or [main]
    has exited with 0, its verdict holding and every node freed. *)
Theorem pc_queue_correct (ls : list label) :
  match toy_run MODE_CORRECT toy_init ls with
  | Next s =>
      Z.of_nat (length ls) <=
        10 * (Z.of_nat NPROD * ITEMS_PER_PROD) + 4 * Z.of_nat NPROD + 5 * Z.of_nat NCONS + 8 +
        2 * spurious_count ls /\
      (t_main s = MExit 0 /\ toy_ok s = true /\ t_heap s = ∅ \/ moves MODE_CORRECT s)
  | Blocked => True
  | Abort => forallb mallocs ls = false
  | Undefined => False
  end.
Proof.
  pose proof (run_correct ls _ _ _ init_inv) as Hr. rewrite init_work in Hr.
  destruct (toy_run _ _ _) as [s| | |]; try done. destruct Hr as [(l & own & I) Hw].
  pose proof (toy_work_nonneg s l own I). split; [lia|].
  destruct (no_deadlock s l own I) as [[rc E]|Hmv]; [left|by right].
  assert (rc = 0) as -> by (apply (k_exit _ _ _ _ _ (proj2 I) _ E)).
  destruct (final_state s l own I) as [Hv Hh]; [by rewrite E..|]. done.
Qed.

End Invariant.

(** * The broken modes *)

Section Stranded.
Context `{ToySize}.

(** A consumer left asleep after the close, with [main] about to join it. *)
Definition stranded (j : nat) (s : toy) : Prop :=
  (exists c, t_cons s !! j = Some c /\ c_at c = CWaiting) /\
  (forall k p, t_prod s !! k = Some p -> p_at p = PDone) /\
  exists i, t_main s = MJoinC i /\ (i <= j)%nat.

Lemma stranded_step m j s lb s' :
  stranded j s -> spurious lb = false -> toy_step m s lb = Next s' -> stranded j s'.
Proof.
  intros ((c & Hj & Hw) & Hp & i & Hm & Hi) Hs. destruct lb as [w|k a w|j'|j']; [| | |done]; cbn.
  - unfold main_step. rewrite Hm. destruct (t_cons s !! i) as [ci|] eqn:Ei.
    + destruct (c_at ci) eqn:Ec; try done. intros [= <-]. split; [by exists c|]. split; [done|].
      exists (S i). split; [done|]. assert (i <> j) by (intros ->; congruence). lia.
    + apply lookup_ge_None in Ei. apply lookup_lt_Some in Hj. lia.
  - destruct (t_prod s !! k) as [p|] eqn:Ek; [|done]. unfold producer_step. by rewrite (Hp k p Ek).
  - destruct (t_cons s !! j') as [c'|] eqn:Ej; [|done]. intros Hst.
    assert (Hne : j' <> j).
    { intros ->. rewrite Hj in Ej. injection Ej as <-. unfold consumer_step in Hst. by rewrite Hw in Hst. }
    assert (Hs' : exists h q x, s' = mk_toy h q (<[j' := x]> (t_cons s)) (t_prod s) (t_main s)).
    { unfold consumer_step in Hst. cbv zeta in Hst. repeat case_match; try done; injection Hst as <-; eauto. }
    destruct Hs' as (h & q & x & ->). split; [|split; [done|by exists i]]. exists c. split; [|done].
    cbn. by rewrite list_lookup_insert_ne.
Qed.

Lemma stranded_run m j ls s s' :
  stranded j s -> forallb (fun lb => negb (spurious lb)) ls = true -> toy_run m s ls = Next s' -> stranded j s'.
Proof.
  revert s. induction ls as [|lb ls IH]; intros s Hs Hls; cbn; [by intros [= <-]|].
  cbn in Hls. apply andb_prop in Hls as [Hlb Hls]. apply negb_true_iff in Hlb.
  destruct (toy_step m s lb) as [s1| | |] eqn:E; try done. intros Hr.
  apply (IH s1); [by eapply stranded_step|done|done].
Qed.

End Stranded.

(** A run from the start, at given sizes. *)
Definition toy_from (sz : ToySize) (m : toy_mode) (ls : list label) : outcome := toy_run m toy_init ls.

(** One producer of two items and two consumers. *)
Definition toy_small : ToySize.
Proof. refine {| NPROD := 1; NCONS := 2; ITEMS_PER_PROD := 2 |}; lia. Defined.

(** Both consumers go to sleep before the producer starts. *)
Definition two_asleep : list label :=
  [LMain None; LMain None; LMain None; LMain None; LMain None; LCons 0; LCons 1].
Definition push_to (n : positive) (j : nat) : list label := [LProd 0 (Some n) None; LProd 0 (Some n) (Some j)].
Definition take_one : list label := [LCons 0; LCons 0].

(** The first consumer takes both items while the second, woken, has yet to run; ... *)
Definition late_sched : list label :=
  two_asleep ++ push_to 1 0 ++ push_to 2 1 ++ take_one ++ take_one ++ [LCons 0; LProd 0 (Some 3%positive) None].
(** ... or the second is never woken. *)
Definition parked_sched : list label :=
  two_asleep ++ push_to 1 0 ++ take_one ++ [LCons 0] ++ push_to 2 0 ++ take_one ++ [LCons 0; LProd 0 (Some 3%positive) None].
Definition closing : list label := [LMain None; LMain None].
Definition finish : list label :=
  [LCons 0; LCons 1; LMain None; LMain None; LMain None; LMain None].

Definition correct_sched : list label := late_sched ++ closing ++ [LMain None] ++ finish.

Lemma pc_queue_correct_witness :
  forallb mallocs correct_sched = true /\
  (exists s, toy_from toy_small MODE_CORRECT correct_sched = Next s /\ t_main s = MExit 0) /\
  match toy_from toy_small MODE_CORRECT correct_sched with
  | Next s => moves (H := toy_small) MODE_CORRECT s \/ t_main s = MExit 0 /\ t_heap s = ∅
  | Blocked => True
  | Abort | Undefined => False
  end.
Proof.
  pose proof (pc_queue_correct (H := toy_small) correct_sched) as Hc.
  split; [reflexivity|]. split; [eexists; vm_compute; split; reflexivity|].
  change (toy_from toy_small MODE_CORRECT correct_sched) with (toy_run (H := toy_small) MODE_CORRECT (toy_init (H := toy_small)) correct_sched).
  destruct (toy_run _ _ _); try done. destruct Hc as [_ [(H1 & _ & H3)|Hc]]; auto.
Defined.

(** Where the sleeper is woken by the close itself and where it is not. *)
Definition signal_passes : list label := late_sched ++ closing ++ [LMain None; LMain (Some 0%nat)] ++ finish.
Definition signal_hangs : list label := parked_sched ++ closing ++ [LMain None; LMain (Some 0%nat)].

(** A signal that loses the race for the lock, at the program's own sizes. *)
Definition if_aborts : list label :=
  replicate 5 (LMain None) ++ [LMain None; LCons 0; LProd 0 (Some 1%positive) None; LProd 0 (Some 1%positive) (Some 0%nat);
    LCons 1; LCons 0].

Definition no_spurious (ls : list label) : bool := forallb (fun lb => mallocs lb && negb (spurious lb)) ls.

(** The two broken modes fail as the program's comments say, without a spurious wake-up: a
    consumer that waits with [if] reaches the abort when another takes the item it was woken
    for, and a close that signals can leave a consumer asleep that nothing will ever wake, so
    that [main] never returns from its join. The second failure is not forced, though: a
    consumer that was signalled and has not yet run still counts in [waiters], so that the test
    for all consumers parked can pass early and the run end with its verdict holding. *)
Theorem broken_modes :
  (no_spurious if_aborts = true /\ toy_from toy_default MODE_IF if_aborts = Abort) /\
  (no_spurious signal_hangs = true /\ exists s,
     toy_from toy_small MODE_SIGNAL_CLOSE signal_hangs = Next s /\
     forall ls s', forallb (fun lb => negb (spurious lb)) ls = true ->
       toy_run (H := toy_small) MODE_SIGNAL_CLOSE s ls = Next s' -> forall rc, t_main s' <> MExit rc) /\
  (no_spurious signal_passes = true /\ exists s,
     toy_from toy_small MODE_SIGNAL_CLOSE signal_passes = Next s /\ t_main s = MExit 0).
Proof.
  split; [split; vm_compute; reflexivity|]. split; (split; [reflexivity|]).
  - eexists. split; [vm_compute; reflexivity|]. intros ls s' Hls Hr rc Hx.
    assert (Hst : stranded 1 s').
    { eapply (stranded_run (H := toy_small) _ 1 ls); [|exact Hls|exact Hr].
      split; [eexists; split; reflexivity|]. split; [|exists 0%nat; split; [reflexivity|lia]].
      intros [|[|k]] p [= <-]. reflexivity. }
    destruct Hst as (_ & _ & i & Hm & _). congruence.
  - eexists. vm_compute. split; reflexivity.
Qed.
