(* ===== verification/MutexFix.v ===== *)
(** The counter study program [src/bench/mutex_fix.c]: threads add to one shared counter inside
    one critical section each. An increment is a load and a store, so that without the mutex an
    update could be lost. *)
From stdpp Require Import base numbers list.
From S2P Require Import Prelude.

(** * The program *)

(** Where a thread is: at the lock, at the head of its loop, between the load and the store of
    an increment, at the unlock, or returned. *)
Inductive inc_ctl :=
| ILock
| ILoop (i : Z)
| IStore (i v : Z)
| IUnlock
| IDone.

#[export] Instance inc_ctl_eq_dec : EqDecision inc_ctl.
Proof. solve_decision. Defined.

Record mutex_state := mk_mutex { counter : Z; holder : option nat; threads : list inc_ctl }.

(** The bound of the loop: 1,000,000 in the source, a variable here so that a run can be
    evaluated. *)
Definition ROUNDS : Z := 1000000.

Section MutexFix.
Context (rounds : Z).

(** One move of thread [t]: a new state, nothing to do (blocked or returned), or the overflow of
    [counter++], which C leaves undefined. *)
Inductive inc_out := Moved (s : mutex_state) | Blocked | Overflow.

Definition increment (t : nat) (s : mutex_state) : inc_out :=
  let go c n h := Moved (mk_mutex n h (<[t := c]> (threads s))) in
  match threads s !! t with
  | None | Some IDone => Blocked
  | Some ILock => match holder s with None => go (ILoop 0) (counter s) (Some t) | Some _ => Blocked end
  | Some (ILoop i) => go (if i <? rounds then IStore i (counter s) else IUnlock) (counter s) (holder s)
  | Some (IStore i v) => if v + 1 <? 2 ^ 31 then go (ILoop (i + 1)) (v + 1) (holder s) else Overflow
  | Some IUnlock => go IDone (counter s) None
  end.

(** [main]: [k] threads created (two in the source), joined, and the counter printed, which
    [mutex_main] gives once all threads have returned. *)
Definition mutex_start (k : nat) : mutex_state := mk_mutex 0 None (replicate k ILock).

(** The creation of the threads: after a failed one [main] goes on and joins a handle that was
    never set, which is undefined. *)
Definition mutex_spawn (created : list bool) : option mutex_state :=
  if forallb (fun b => b) created then Some (mutex_start (length created)) else None.

Definition mutex_main (s : mutex_state) : option Z :=
  if forallb (fun c => match c with IDone => true | _ => false end) (threads s) then Some (counter s) else None.

(** A schedule: a thread that cannot move is passed over. *)
Fixpoint mutex_run (s : mutex_state) (ts : list nat) : option mutex_state :=
  match ts with
  | [] => Some s
  | t :: ts =>
      match increment t s with Moved s => mutex_run s ts | Blocked => mutex_run s ts | Overflow => None end
  end.

(** * The invariant *)

Definition outside (c : inc_ctl) : Prop := c = ILock \/ c = IDone.

Definition finished (cs : list inc_ctl) : Z :=
  zsum (fun c => match c with IDone => 1 | _ => 0 end) cs.

(** What the thread inside the critical section has added so far. *)
Definition inside (s : mutex_state) (c : inc_ctl) : Prop :=
  match c with
  | ILoop i => 0 <= i <= rounds /\ counter s = rounds * finished (threads s) + i
  | IStore i v => 0 <= i < rounds /\ counter s = rounds * finished (threads s) + i /\ v = counter s
  | IUnlock => counter s = rounds * finished (threads s) + rounds
  | _ => False
  end.

Definition mutex_inv (s : mutex_state) : Prop :=
  match holder s with
  | None => Forall outside (threads s) /\ counter s = rounds * finished (threads s)
  | Some t => exists c, threads s !! t = Some c /\ inside s c /\
                forall j c', threads s !! j = Some c' -> j <> t -> outside c'
  end.

Context (Hrounds : 0 <= rounds).

Lemma finished_insert s t c c' :
  threads s !! t = Some c -> (c = IDone <-> c' = IDone) -> finished (<[t := c']> (threads s)) = finished (threads s).
Proof.
  intros Hc Hcc. unfold finished. rewrite (zsum_insert _ _ _ c _ Hc). destruct c, c'; try lia; naive_solver.
Qed.

Lemma finished_bound cs : 0 <= finished cs <= Z.of_nat (length cs).
Proof.
  unfold finished. split; [apply zsum_nonneg; intros []; lia|].
  rewrite <- (Z.mul_1_l (Z.of_nat _)), <- (zsum_const 1 cs). apply zsum_le. intros []; lia.
Qed.

Lemma finished_all cs : Forall outside cs -> ILock ∉ cs -> finished cs = Z.of_nat (length cs).
Proof.
  intros Hf Hn. unfold finished. rewrite <- (Z.mul_1_l (Z.of_nat _)), <- (zsum_const 1 cs).
  apply zsum_ext. intros c Hc. rewrite Forall_forall in Hf. destruct (Hf c Hc) as [->| ->]; done.
Qed.

(** Not every thread has finished while one is inside. *)
Lemma finished_lt s t c : threads s !! t = Some c -> c <> IDone -> finished (threads s) + 1 <= Z.of_nat (length (threads s)).
Proof.
  intros Hc Hn. pose proof (finished_bound (<[t := IDone]> (threads s))) as Hb. unfold finished in *.
  rewrite (zsum_insert _ _ _ c _ Hc), length_insert in Hb. destruct c; lia || done.
Qed.

(** A thread that is not outside is the holder. *)
Lemma only_holder s t c :
  mutex_inv s -> threads s !! t = Some c -> ~ outside c -> holder s = Some t /\ inside s c.
Proof.
  unfold mutex_inv. intros Hi Hc Ho. destruct (holder s) as [h|].
  - destruct Hi as (c0 & Hh & Hin & Hout). destruct (decide (t = h)) as [->|Hne].
    + rewrite Hc in Hh. injection Hh as <-. done.
    + destruct Ho. by eapply Hout.
  - destruct Hi as [Hall _]. rewrite Forall_lookup in Hall. destruct Ho. by eapply Hall.
Qed.

(** The holder moves within its section. *)
Lemma inside_step s t c c' n :
  mutex_inv s -> threads s !! t = Some c -> ~ outside c -> c' <> IDone -> inside (mk_mutex n (Some t) (<[t := c']> (threads s))) c' ->
  mutex_inv (mk_mutex n (holder s) (<[t := c']> (threads s))).
Proof.
  intros Hi Hc Ho Hd Hin. destruct (only_holder _ _ _ Hi Hc Ho) as [Hh _]. unfold mutex_inv in Hi. rewrite Hh in *.
  destruct Hi as (c0 & _ & _ & Hout). unfold mutex_inv. cbn [holder threads]. exists c'.
  rewrite list_lookup_insert_eq by (by eapply lookup_lt_Some). split_and!; [done|exact Hin|].
  intros j d Hj Hne. rewrite list_lookup_insert_ne in Hj by done. by eapply Hout.
Qed.

Lemma increment_inv t s s' : mutex_inv s -> increment t s = Moved s' -> mutex_inv s'.
Proof.
  intros Hi E. unfold increment in E. destruct (threads s !! t) as [c|] eqn:Hc; [|done].
  destruct c as [|i|i v| |]; try done.
  - unfold mutex_inv in Hi. destruct (holder s) as [h|]; [done|]. injection E as <-. destruct Hi as [Hall Hn].
    unfold mutex_inv. cbn [holder threads]. exists (ILoop 0).
    rewrite list_lookup_insert_eq by (by eapply lookup_lt_Some). split_and!; [done| |].
    + cbn. rewrite (finished_insert _ _ _ _ Hc) by naive_solver. lia.
    + intros j d Hj Hne. rewrite list_lookup_insert_ne in Hj by done. rewrite Forall_lookup in Hall. by eapply Hall.
  - destruct (only_holder _ _ _ Hi Hc) as [_ [Hr Hn]]; [by intros [|]|]. injection E as <-.
    apply (inside_step _ _ _ _ _ Hi Hc); [by intros [|]|by case_ifs|].
    destruct (i <? rounds) eqn:El; cbn; rewrite (finished_insert _ _ _ _ Hc) by naive_solver; lia.
  - destruct (only_holder _ _ _ Hi Hc) as [_ (Hr & Hn & ->)]; [by intros [|]|].
    destruct (_ <? _); [|done]. injection E as <-.
    apply (inside_step _ _ _ _ _ Hi Hc); [by intros [|]|done|].
    cbn. rewrite (finished_insert _ _ _ _ Hc) by naive_solver. lia.
  - destruct (only_holder _ _ _ Hi Hc) as [Hh Hn]; [by intros [|]|]. injection E as <-. cbn in Hn.
    unfold mutex_inv in Hi |- *. rewrite Hh in Hi. destruct Hi as (c0 & _ & _ & Hout). cbn [holder threads counter].
    split.
    + apply Forall_lookup. intros j d Hj. destruct (decide (j = t)) as [->|Hne].
      * rewrite list_lookup_insert_eq in Hj by (by eapply lookup_lt_Some). injection Hj as <-. by right.
      * rewrite list_lookup_insert_ne in Hj by done. by eapply Hout.
    + unfold finished in *. rewrite (zsum_insert _ _ _ _ _ Hc). lia.
Qed.

Lemma increment_length t s s' : increment t s = Moved s' -> length (threads s') = length (threads s).
Proof.
  unfold increment. intros E. repeat (case_match; try done); injection E as <-; cbn; by rewrite length_insert.
Qed.

(** No increment overflows while the total fits. *)
Lemma increment_defined t s :
  mutex_inv s -> rounds * Z.of_nat (length (threads s)) < 2 ^ 31 -> increment t s <> Overflow.
Proof.
  intros Hi Hk E. unfold increment in E. destruct (threads s !! t) as [c|] eqn:Hc; [|done].
  destruct c as [|i|i v| |]; try done; [by destruct (holder s)|].
  destruct (only_holder _ _ _ Hi Hc) as [_ (Hr & Hn & ->)]; [by intros [|]|].
  pose proof (finished_lt _ _ _ Hc ltac:(done)). destruct (_ <? _) eqn:El; [done|]. nia.
Qed.

(** * Progress *)

(** The moves a thread still has to make. *)
Definition work (c : inc_ctl) : Z :=
  match c with
  | ILock => 2 * rounds + 3
  | ILoop i => 2 * (rounds - i) + 2
  | IStore i _ => 2 * (rounds - i) + 1
  | IUnlock => 1
  | IDone => 0
  end.

Lemma increment_work t s s' :
  mutex_inv s -> increment t s = Moved s' -> zsum work (threads s') = zsum work (threads s) - 1.
Proof.
  intros Hi E. unfold increment in E. destruct (threads s !! t) as [c|] eqn:Hc; [|done].
  destruct c as [|i|i v| |]; try done.
  - destruct (holder s); [done|]. injection E as <-. cbn [threads]. rewrite (zsum_insert _ _ _ _ _ Hc). cbn. lia.
  - destruct (only_holder _ _ _ Hi Hc) as [_ [Hr Hn]]; [by intros [|]|]. injection E as <-. cbn [threads].
    rewrite (zsum_insert _ _ _ _ _ Hc). destruct (i <? rounds) eqn:El; cbn; lia.
  - destruct (_ <? _); [|done]. injection E as <-. cbn [threads]. rewrite (zsum_insert _ _ _ _ _ Hc). cbn. lia.
  - injection E as <-. cbn [threads]. rewrite (zsum_insert _ _ _ _ _ Hc). cbn. lia.
Qed.

(** Some thread can move until all have returned. *)
Lemma mutex_progress s :
  mutex_inv s -> rounds * Z.of_nat (length (threads s)) < 2 ^ 31 -> mutex_main s = None ->
  exists t s', increment t s = Moved s'.
Proof.
  intros Hi Hk Hm. pose proof (fun t => increment_defined t s Hi Hk) as Hd. unfold mutex_main in Hm.
  destruct (forallb _ _) eqn:Ef; [done|]. destruct (holder s) as [h|] eqn:Hh.
  - pose proof Hi as Hi'. unfold mutex_inv in Hi'. rewrite Hh in Hi'. destruct Hi' as (c & Hc & Hin & _).
    exists h. specialize (Hd h). unfold increment in *. rewrite Hc in *.
    destruct c; try done; eauto. destruct (_ <? _); eauto. done.
  - assert (exists t, threads s !! t = Some ILock) as [t Ht].
    { unfold mutex_inv in Hi. rewrite Hh in Hi. destruct Hi as [Hall _].
      destruct (decide (ILock ∈ threads s)) as [Hl|Hl]; [by apply list_elem_of_lookup in Hl|].
      rewrite Forall_forall in Hall. replace (forallb _ _) with true in Ef; [done|]. symmetry.
      apply forallb_forall. intros c Hc%list_elem_of_In. destruct (Hall c Hc) as [->| ->]; done. }
    exists t. unfold increment. rewrite Ht, Hh. eauto.
Qed.

Lemma mutex_start_inv k : mutex_inv (mutex_start k).
Proof.
  unfold mutex_inv, mutex_start. cbn [holder threads counter]. split; [apply Forall_replicate; by left|].
  unfold finished. rewrite (zsum_ext _ (fun _ => 0)); [rewrite zsum_const; lia|].
  intros c Hc. apply list_elem_of_lookup in Hc as [i Hi]. by apply lookup_replicate in Hi as [-> _].
Qed.

Lemma run_inv s ts :
  mutex_inv s -> rounds * Z.of_nat (length (threads s)) < 2 ^ 31 ->
  exists s', mutex_run s ts = Some s' /\ mutex_inv s' /\ length (threads s') = length (threads s).
Proof.
  revert s. induction ts as [|t ts IH]; intros s Hi Hk; [by exists s|]. cbn [mutex_run].
  pose proof (increment_defined t s Hi Hk) as Hd. destruct (increment t s) as [s1| |] eqn:E; [| |done].
  - pose proof (increment_length _ _ _ E) as Hl. destruct (IH s1) as (s' & Er & Hi' & Hl');
      [by eapply increment_inv|by rewrite Hl|]. exists s'. split_and!; [done|done|congruence].
  - by apply IH.
Qed.

(** The threads returned: nobody is inside and everybody has finished. *)
Lemma main_total s n : mutex_inv s -> mutex_main s = Some n -> n = rounds * Z.of_nat (length (threads s)).
Proof.
  unfold mutex_main. intros Hi Hm. destruct (forallb _ _) eqn:Ef; [|done]. injection Hm as <-.
  assert (Hall : forall c, c ∈ threads s -> c = IDone).
  { intros c Hc%list_elem_of_In. rewrite forallb_forall in Ef. specialize (Ef c Hc). by destruct c. }
  unfold mutex_inv in Hi. destruct (holder s) as [h|].
  - destruct Hi as (c & Hc & Hin & _). rewrite (Hall c) in Hin by (by eapply list_elem_of_lookup_2). done.
  - destruct Hi as [Hf ->]. rewrite finished_all; [done|done|]. intros Hl. by apply Hall in Hl.
Qed.

End MutexFix.

(** The counter loses no increment: whatever the schedule, no increment of [k] threads overflows,
    until all have returned one of them can move, each move uses up one of a fixed number, and
    what [main] prints after the joins is [k] times the rounds; 2,000,000 for the two threads
    of the source. *)
Theorem mutex_fix_counts (rounds : Z) (k : nat) (ts : list nat) :
  0 <= rounds -> rounds * Z.of_nat k < 2 ^ 31 ->
  exists s, (mutex_spawn (replicate k true) ≫= fun s0 => mutex_run rounds s0 ts) = Some s /\
    (mutex_main s = None -> exists t s', increment rounds t s = Moved s') /\
    (forall t s', increment rounds t s = Moved s' ->
       zsum (work rounds) (threads s') = zsum (work rounds) (threads s) - 1) /\
    (forall n, mutex_main s = Some n -> n = rounds * Z.of_nat k).
Proof.
  intros Hr Hk. destruct (run_inv rounds Hr (mutex_start k) ts) as (s & E & Hi & Hl).
  { by apply mutex_start_inv. }
  { cbn. by rewrite length_replicate. }
  cbn in Hl. rewrite length_replicate in Hl. exists s. split_and!.
  - unfold mutex_spawn. rewrite length_replicate. replace (forallb _ _) with true; [exact E|].
    symmetry. apply forallb_forall. intros b Hb%list_elem_of_In%elem_of_replicate. by destruct Hb as [-> _].
  - apply mutex_progress; [done|done|by rewrite Hl].
  - intros t s'. by apply increment_work.
  - intros n Hn. rewrite <- Hl. by apply main_total.
Qed.

Example two_threads_three_rounds :
  (mutex_run 3 (mutex_start 2) (concat (replicate 20 [0; 1]%nat)) ≫= mutex_main) = Some 6.
Proof. reflexivity. Qed.
