(* ===== verification/PageIndex.v ===== *)
(** The sharded hash index of [src/src/page_index.c]: bucket chains through the page store,
    their refinement to a finite map from page bases to pages, and the geometry of the
    Fibonacci hash and its shards. *)
From stdpp Require Import base numbers list gmap sets.
From Corelib Require Import Init.Byte.
From S2P Require Import Prelude Config Segments ScrapPage Watermark Heap.

(** * Geometry *)

Definition PI_BITS : Z := 10.
Definition PI_BUCKETS : Z := Z.shiftl 1 PI_BITS.
Definition PI_SHIFT : Z := 64 - PI_BITS.

(** 2^64 divided by the golden ratio. *)
Definition FIB_MULT : Z := 0x9E3779B97F4A7C15.

Definition pi_hash (b : Z) : Z :=
  let page_no := b / NOX_DATAZONE_SIZE in
  u32 (Z.shiftr (u64 (page_no * FIB_MULT)) PI_SHIFT).

Definition pi_shard (bucket : Z) : Z := Z.shiftr bucket (PI_BITS - NOX_INDEX_SHARD_BITS).

(** * State and operations *)

(** The shard mutexes are not part of the state: every definition is one critical section. *)
Record page_index := mk_index { buckets : list (option addr) }.

(** The mutex initialisations of [page_index_create] and their unwinding: the result is
    whether all succeeded, and the mutexes left initialised. *)
Fixpoint init_shards (init_ok : nat -> bool) (s n : nat) (live : list nat) : bool * list nat :=
  match n with
  | O => (true, live)
  | S n => if init_ok s then init_shards init_ok (S s) n (live ++ [s])
           else (false, filter (fun j => ~ (j < s)%nat) live)
  end.

Definition page_index_create (alloc_ok : bool) (init_ok : nat -> bool)
  : option page_index * list nat :=
  if alloc_ok then
    match init_shards init_ok 0 (Z.to_nat NOX_INDEX_SHARDS) [] with
    | (true, live) => (Some (mk_index (replicate (Z.to_nat PI_BUCKETS) None)), live)
    | (false, live) => (None, live)
    end
  else (None, []).

Definition bucket_of (b : Z) : nat := Z.to_nat (pi_hash b).

Definition set_bucket (i : nat) (p : option addr) (idx : page_index) : page_index :=
  mk_index (<[i := p]> (buckets idx)).

(** Walk of a chain for the page of base [b]; [None] is a dangling link or no fuel. *)
Fixpoint chain_find (fuel : nat) (h : heap) (cur : option addr) (b : Z) : option (option addr) :=
  match fuel with
  | O => None
  | S fuel =>
      match cur with
      | None => Some None
      | Some a => p ← h !! a; if base p =? b then Some (Some a) else chain_find fuel h (next p) b
      end
  end.

(** A chain has no more pages than the store. *)
Definition chain_fuel (h : heap) : nat := S (size h).

(** The allocator's answers are arguments: the address of the struct, whether [malloc]
    succeeded, and the zone. The boolean result is [*created]; the page is returned locked,
    which the single critical section represents. *)
Definition page_index_get_or_create `{NoxConfig} (h : heap) (idx : page_index) (w : watermark)
    (b ssd : Z) (a : addr) (malloc_ok : bool) (zone : option (Z * buf))
  : option (option addr * bool * heap * page_index * watermark) :=
  hd ← buckets idx !! bucket_of b;
  found ← chain_find (chain_fuel h) h hd b;
  match found with
  | Some p => Some (Some p, false, h, idx, w)
  | None =>
      match scrap_page_alloc b ssd malloc_ok zone w with
      | (None, w) => Some (None, false, h, idx, w)
      | (Some p, w) =>
          Some (Some a, true, <[a := set_next hd p]> h, set_bucket (bucket_of b) (Some a) idx, w)
      end
  end.

(** The walk with a link pointer: [prev] is the page whose [next] is the link, [None] for the
    bucket head. Unlinks the first page that passes [test] and returns it. *)
Fixpoint unlink (fuel : nat) (h : heap) (idx : page_index) (i : nat) (prev cur : option addr)
    (test : addr -> scrap_page -> bool) : option (option addr * heap * page_index) :=
  match fuel with
  | O => None
  | S fuel =>
      match cur with
      | None => Some (None, h, idx)
      | Some a =>
          p ← h !! a;
          if test a p then
            match prev with
            | None => Some (Some a, h, set_bucket i (next p) idx)
            | Some c => h ← store c (set_next (next p)) h; Some (Some a, h, idx)
            end
          else unlink fuel h idx i (Some a) (next p) test
      end
  end.

Definition page_index_remove (h : heap) (idx : page_index) (w : watermark) (b : Z)
  : option (heap * page_index * watermark * bool) :=
  hd ← buckets idx !! bucket_of b;
  '(victim, h, idx) ← unlink (chain_fuel h) h idx (bucket_of b) None hd (fun _ p => base p =? b);
  '(h, w, wake) ← scrap_page_free h w victim;
  Some (h, idx, w, wake).

Definition page_index_detach_if (h : heap) (idx : page_index) (b : Z) (expect : addr)
  : option (bool * heap * page_index) :=
  hd ← buckets idx !! bucket_of b;
  '(found, h, idx) ← unlink (chain_fuel h) h idx (bucket_of b) None hd
                       (fun a _ => bool_decide (a = expect));
  match found with
  | None => Some (false, h, idx)
  | Some a => h ← store a (set_next None) h; Some (true, h, idx)
  end.

(** The inner loop of [page_index_foreach]: [next] is read after the callback returned. *)
Fixpoint foreach_chain {A} (fuel : nat) (fn : addr -> heap -> A -> option (heap * A))
    (h : heap) (ctx : A) (cur : option addr) : option (heap * A) :=
  match fuel with
  | O => None
  | S fuel =>
      match cur with
      | None => Some (h, ctx)
      | Some a =>
          '(h, ctx) ← fn a h ctx;
          p ← h !! a;
          foreach_chain fuel fn h ctx (next p)
      end
  end.

Fixpoint foreach_buckets {A} (fn : addr -> heap -> A -> option (heap * A)) (h : heap) (ctx : A)
    (bs : list (option addr)) : option (heap * A) :=
  match bs with
  | [] => Some (h, ctx)
  | hd :: r => '(h, ctx) ← foreach_chain (chain_fuel h) fn h ctx hd; foreach_buckets fn h ctx r
  end.

Definition page_index_foreach {A} (fn : addr -> heap -> A -> option (heap * A)) (h : heap)
    (ctx : A) (idx : page_index) : option (heap * A) :=
  foreach_buckets fn h ctx (buckets idx).

(** The walk takes no lock, so another thread may run between any two of its accesses: where it
    is, at the head of a bucket, about to call back on a page, or about to read its [next]. *)
Inductive foreach_at :=
| FeBucket (b : nat)
| FeCall (b : nat) (a : addr)
| FeNext (b : nat) (a : addr).

Definition chain_at (b : nat) (cur : option addr) : foreach_at :=
  match cur with None => FeBucket (S b) | Some a => FeCall b a end.

(** One access, or one call, and where the walk goes on; [None] there is its end. *)
Definition foreach_step {A} (fn : addr -> heap -> A -> option (heap * A)) (h : heap) (ctx : A)
    (idx : page_index) (w : foreach_at) : option (heap * A * option foreach_at) :=
  match w with
  | FeBucket b =>
      if Z.of_nat b <? PI_BUCKETS then
        hd ← buckets idx !! b; Some (h, ctx, Some (chain_at b hd))
      else Some (h, ctx, None)
  | FeCall b a => '(h, ctx) ← fn a h ctx; Some (h, ctx, Some (FeNext b a))
  | FeNext b a => p ← h !! a; Some (h, ctx, Some (chain_at b (next p)))
  end.

(** The accesses of one thread that is left alone, at most [n] of them. *)
Fixpoint run_foreach {A} (n : nat) (fn : addr -> heap -> A -> option (heap * A)) (h : heap)
    (ctx : A) (idx : page_index) (w : foreach_at) : option (heap * A) :=
  match n with
  | O => None
  | S n =>
      '(h, ctx, w) ← foreach_step fn h ctx idx w;
      match w with None => Some (h, ctx) | Some w => run_foreach n fn h ctx idx w end
  end.

(** The inner loop of [page_index_destroy]: [next] is read before the page is freed. *)
Fixpoint destroy_chain (fuel : nat) (h : heap) (w : watermark) (cur : option addr)
  : option (heap * watermark) :=
  match fuel with
  | O => None
  | S fuel =>
      match cur with
      | None => Some (h, w)
      | Some a =>
          p ← h !! a;
          '(h, w, _) ← scrap_page_free h w (Some a);
          destroy_chain fuel h w (next p)
      end
  end.

Fixpoint destroy_buckets (h : heap) (w : watermark) (bs : list (option addr))
  : option (heap * watermark) :=
  match bs with
  | [] => Some (h, w)
  | hd :: r => '(h, w) ← destroy_chain (chain_fuel h) h w hd; destroy_buckets h w r
  end.

Definition page_index_destroy (h : heap) (w : watermark) (idx : page_index)
  : option (heap * watermark) :=
  destroy_buckets h w (buckets idx).

(** * Hash geometry *)

Lemma pi_hash_range b : 0 <= pi_hash b < PI_BUCKETS.
Proof.
  unfold pi_hash, PI_SHIFT, PI_BITS, PI_BUCKETS, PI_BITS. rewrite Z.shiftr_div_pow2 by lia.
  pose proof (u64_range (b / NOX_DATAZONE_SIZE * FIB_MULT)) as Hr.
  set (x := u64 _) in *. change (Z.shiftl 1 10) with 1024. change (64 - 10) with 54.
  assert (0 <= x / 2 ^ 54 < 1024)
    by (split; [apply Z.div_pos|apply Z.div_lt_upper_bound]; lia).
  rewrite u32_small; lia.
Qed.

Lemma pi_shard_range b : 0 <= pi_shard (pi_hash b) < NOX_INDEX_SHARDS.
Proof.
  unfold pi_shard, PI_BITS, NOX_INDEX_SHARD_BITS, NOX_INDEX_SHARDS, NOX_INDEX_SHARD_BITS.
  rewrite Z.shiftr_div_pow2 by lia. pose proof (pi_hash_range b) as Hr.
  change PI_BUCKETS with 1024 in Hr. change (Z.shiftl 1 6) with 64. change (10 - 6) with 4.
  split; [apply Z.div_pos|apply Z.div_lt_upper_bound]; lia.
Qed.

Lemma bucket_of_lt b : (bucket_of b < 1024)%nat.
Proof. unfold bucket_of. pose proof (pi_hash_range b). change PI_BUCKETS with 1024 in *. lia. Qed.

(** * The index as a finite map *)

(** [M] maps each base to its resident page: bucket [i] chains exactly the pages of [M] whose
    base hashes to [i]. *)
Definition index_chains (h : heap) (idx : page_index) (M : gmap Z addr) (C : nat -> list addr)
  : Prop :=
  length (buckets idx) = Z.to_nat PI_BUCKETS /\
  (forall i hd, buckets idx !! i = Some hd -> lseg next h hd (C i) None) /\
  (forall i a, (i < 1024)%nat -> a ∈ C i <->
     exists p, h !! a = Some p /\ M !! base p = Some a /\ bucket_of (base p) = i) /\
  (forall b a, M !! b = Some a -> exists p, h !! a = Some p /\ base p = b).

Definition index_rep (h : heap) (idx : page_index) (M : gmap Z addr) : Prop :=
  exists C, index_chains h idx M C.

Lemma bucket_lookup h idx M b :
  index_rep h idx M -> exists hd, buckets idx !! bucket_of b = Some hd.
Proof.
  intros (C & Hlen & _). apply lookup_lt_is_Some. rewrite Hlen. apply bucket_of_lt.
Qed.

Lemma chain_find_spec h cur l b fuel :
  lseg next h cur l None -> (length l < fuel)%nat ->
  exists r, chain_find fuel h cur b = Some r /\
    match r with
    | Some a => a ∈ l /\ exists p, h !! a = Some p /\ base p = b
    | None => forall a p, a ∈ l -> h !! a = Some p -> base p <> b
    end.
Proof.
  revert cur fuel. induction l as [|a l IH]; intros cur [|fuel] Hl Hf; cbn in Hf; try lia.
  - cbn in Hl. subst cur. exists None. split; [done|]. set_solver.
  - destruct Hl as (-> & p & Hp & Hl). cbn. rewrite Hp. cbn [mbind option_bind].
    destruct (base p =? b) eqn:E.
    + eexists. split; [done|]. split; [set_solver|]. exists p. split; [done|lia].
    + destruct (IH (next p) fuel Hl) as (r & -> & Hr); [lia|]. exists r. split; [done|].
      destruct r as [c|]; [set_solver|].
      intros c pc [->|Hc]%elem_of_cons Hpc; [|by eapply Hr].
      rewrite Hp in Hpc. injection Hpc as <-. lia.
Qed.

Lemma find_rep h idx M b hd :
  index_rep h idx M -> buckets idx !! bucket_of b = Some hd ->
  chain_find (chain_fuel h) h hd b = Some (M !! b).
Proof.
  intros (C & Hlen & Hch & Hin & Hm) Hhd. pose proof (bucket_of_lt b) as Hlt.
  specialize (Hch _ _ Hhd). pose proof (lseg_size _ _ _ _ Hch) as Hsz.
  destruct (chain_find_spec h hd _ b (chain_fuel h) Hch) as (r & -> & Hr);
    [unfold chain_fuel; lia|].
  destruct r as [a|].
  - destruct Hr as (Ha & p & Hp & <-). apply Hin in Ha as (q & Hq & HM & _); [|done].
    rewrite Hp in Hq. injection Hq as <-. by rewrite HM.
  - destruct (M !! b) as [a|] eqn:HM; [|done]. exfalso.
    destruct (Hm _ _ HM) as (p & Hp & Hb). eapply (Hr a p); [|done..].
    apply Hin; [done|]. exists p. rewrite Hb. done.
Qed.

(** ** Inserting a page at a bucket head *)

Lemma index_insert_rep h idx M b hd a p :
  index_rep h idx M -> buckets idx !! bucket_of b = Some hd -> M !! b = None ->
  h !! a = None -> base p = b -> next p = hd ->
  index_rep (<[a := p]> h) (set_bucket (bucket_of b) (Some a) idx) (<[b := a]> M).
Proof.
  intros (C & Hlen & Hch & Hin & Hm) Hhd HMb Ha Hbase Hnext.
  assert (Hfresh : forall i, (i < 1024)%nat -> a ∉ C i).
  { intros i Hi Hc. apply Hin in Hc as (q & Hq & _); [|done]. congruence. }
  pose proof (bucket_of_lt b) as Hlt.
  exists (fun i => if decide (i = bucket_of b) then a :: C i else C i). split_and!.
  - cbn. by rewrite length_insert.
  - intros i hd'. cbn. intros Hi. pose proof (lookup_lt_Some _ _ _ Hi) as Hil.
    rewrite length_insert, Hlen in Hil. change (Z.to_nat PI_BUCKETS) with 1024%nat in Hil.
    destruct (decide (i = bucket_of b)) as [->|Hne].
    + rewrite list_lookup_insert_eq in Hi by (rewrite Hlen; done). injection Hi as <-.
      cbn. split; [done|]. exists p. rewrite lookup_insert_eq. split; [done|].
      rewrite Hnext. apply lseg_insert_ne; auto.
    + rewrite list_lookup_insert_ne in Hi by done. apply lseg_insert_ne; auto.
  - intros i c Hi. transitivity (a = c /\ i = bucket_of b \/ c ∈ C i).
    { case_decide; [rewrite elem_of_cons|]; intuition congruence. }
    rewrite Hin by done. split.
    + intros [[<- ->]|(q & Hq & HMq & Hbq)].
      * exists p. rewrite lookup_insert_eq, Hbase, lookup_insert_eq. auto.
      * exists q. assert (a <> c) by congruence. rewrite !lookup_insert_ne; try done. congruence.
    + intros (q & Hq & HMq & Hbq). rewrite lookup_insert in Hq. case_decide as Hac.
      * injection Hq as <-. left. split; [done|]. by rewrite <- Hbq, Hbase.
      * right. exists q. split; [done|]. rewrite lookup_insert in HMq. case_decide as Hbb; [|done].
        injection HMq as ->. done.
  - intros b' c. rewrite lookup_insert. case_decide as Hbb.
    + intros [= <-]. exists p. rewrite lookup_insert_eq. split; congruence.
    + intros HMc. destruct (Hm _ _ HMc) as (q & Hq & Hbq). exists q.
      rewrite lookup_insert_ne; [done|]. congruence.
Qed.

Section Operations.
Context `{NoxConfig}.

Lemma get_or_create_found h idx M w b ssd a0 a mok zone :
  index_rep h idx M -> M !! b = Some a0 ->
  page_index_get_or_create h idx w b ssd a mok zone = Some (Some a0, false, h, idx, w).
Proof.
  intros Hr HM. destruct (bucket_lookup _ _ _ b Hr) as [hd Hhd].
  unfold page_index_get_or_create. rewrite Hhd. cbn [mbind option_bind].
  rewrite (find_rep h idx M b hd) by done. cbn [mbind option_bind]. by rewrite HM.
Qed.

Lemma get_or_create_oom h idx M w b ssd a mok zone :
  index_rep h idx M -> M !! b = None -> mok = false \/ zone = None ->
  page_index_get_or_create h idx w b ssd a mok zone = Some (None, false, h, idx, w).
Proof.
  intros Hr HM Ho. destruct (bucket_lookup _ _ _ b Hr) as [hd Hhd].
  unfold page_index_get_or_create. rewrite Hhd. cbn [mbind option_bind].
  rewrite (find_rep h idx M b hd) by done. cbn [mbind option_bind]. rewrite HM.
  unfold scrap_page_alloc. destruct mok, zone as [[]|]; intuition done.
Qed.

(** The page a successful allocation publishes. *)
Definition fresh_page (b ssd za : Z) (junk : buf) (hd : option addr) : scrap_page :=
  mk_page (fresh_header ssd) za junk b hd None false false.

Lemma get_or_create_fresh h idx M w b ssd a za junk :
  index_rep h idx M -> M !! b = None -> h !! a = None ->
  exists hd idx',
    page_index_get_or_create h idx w b ssd a true (Some (za, junk)) =
      Some (Some a, true, <[a := fresh_page b ssd za junk hd]> h, idx',
            nox_watermark_note_alloc w) /\
    index_rep (<[a := fresh_page b ssd za junk hd]> h) idx' (<[b := a]> M).
Proof.
  intros Hr HM Ha. destruct (bucket_lookup _ _ _ b Hr) as [hd Hhd].
  unfold page_index_get_or_create. rewrite Hhd. cbn [mbind option_bind].
  rewrite (find_rep h idx M b hd) by done. cbn [mbind option_bind]. rewrite HM.
  exists hd. eexists. split; [reflexivity|]. by apply (index_insert_rep _ _ _ _ hd).
Qed.

End Operations.

(** ** Unlinking *)

Lemma unlink_spec h idx i test a pa l2 :
  forall l1 pre prev cur fuel,
  lseg next h cur (l1 ++ a :: l2) None -> h !! a = Some pa ->
  (forall c p, c ∈ l1 -> h !! c = Some p -> test c p = false) -> test a pa = true ->
  prev = last pre -> (length (l1 ++ a :: l2) < fuel)%nat ->
  unlink fuel h idx i prev cur test =
    match last (pre ++ l1) with
    | None => Some (Some a, h, set_bucket i (next pa) idx)
    | Some c => h ← store c (set_next (next pa)) h; Some (Some a, h, idx)
    end.
Proof.
  induction l1 as [|c l1 IH]; intros pre prev cur [|fuel] Hl Ha Ht Hta Hp Hf; try (cbn in Hf; lia).
  - destruct Hl as (-> & p & Hpa & _). rewrite Ha in Hpa. injection Hpa as <-.
    cbn [unlink]. rewrite Ha. cbn [mbind option_bind]. rewrite Hta, app_nil_r, Hp. done.
  - destruct Hl as (-> & p & Hpc & Hl). cbn [unlink]. rewrite Hpc. cbn [mbind option_bind].
    rewrite (Ht c p) by (done || set_solver).
    rewrite (IH (pre ++ [c]) (Some c) (next p) fuel); try done.
    + by rewrite <- app_assoc.
    + intros d q Hd. apply Ht. set_solver.
    + by rewrite last_snoc.
    + cbn in Hf |- *. lia.
Qed.

Lemma unlink_none h idx i test :
  forall l prev cur fuel,
  lseg next h cur l None -> (forall c p, c ∈ l -> h !! c = Some p -> test c p = false) ->
  (length l < fuel)%nat -> unlink fuel h idx i prev cur test = Some (None, h, idx).
Proof.
  induction l as [|c l IH]; intros prev cur [|fuel] Hl Ht Hf; try (cbn in Hf; lia).
  - cbn in Hl. subst cur. done.
  - destruct Hl as (-> & p & Hpc & Hl). cbn [unlink]. rewrite Hpc. cbn [mbind option_bind].
    rewrite (Ht c p) by (done || set_solver). apply IH; [done| |cbn in Hf; lia].
    intros d q Hd. apply Ht. set_solver.
Qed.

(** Removing [a] from the chain it is in, by either form of the link. *)
Lemma unlink_lseg h hd l1 a pa l2 :
  lseg next h hd (l1 ++ a :: l2) None -> h !! a = Some pa ->
  match last l1 with
  | None => lseg next h (next pa) (l1 ++ l2) None
  | Some c => exists pc, h !! c = Some pc /\
                lseg next (<[c := set_next (next pa) pc]> h) hd (l1 ++ l2) None
  end.
Proof.
  intros Hl Ha. pose proof (lseg_NoDup _ _ _ _ Hl) as Hnd.
  destruct l1 as [|c l1' _] using rev_ind.
  - destruct Hl as (_ & p & Hp & Hl). cbn. congruence.
  - rewrite last_snoc. rewrite <- app_assoc in Hl, Hnd |- *. cbn in Hl, Hnd |- *.
    apply lseg_app in Hl as (m & Hl1 & (-> & pc & Hpc & Hcp & p & Hp & Hl2)).
    rewrite Ha in Hp. injection Hp as <-. exists pc. split; [done|].
    apply NoDup_app in Hnd as (_ & Hd & Hnd). apply NoDup_cons in Hnd as [Hc _].
    apply lseg_app. exists (Some c). split; [apply lseg_insert_ne; set_solver|].
    cbn. split; [done|]. eexists. split; [apply lookup_insert_eq|].
    cbn. apply lseg_insert_ne; set_solver.
Qed.

(** Membership of the chains once the page of [b] is out of its chain. *)
Lemma unlinked_members h h' idx M C b a pa l1 l2 :
  index_chains h idx M C -> C (bucket_of b) = l1 ++ a :: l2 -> NoDup (l1 ++ a :: l2) ->
  h !! a = Some pa -> base pa = b -> M !! b = Some a -> same_but_next h' h ->
  forall i c, (i < 1024)%nat ->
    c ∈ (if decide (i = bucket_of b) then l1 ++ l2 else C i) <->
    exists p, h' !! c = Some p /\ delete b M !! base p = Some c /\ bucket_of (base p) = i.
Proof.
  intros (Hlen & Hch & Hin & Hm) HC Hnd Ha Hb HM Hs i c Hi. transitivity (c ∈ C i /\ c <> a).
  { case_decide as Hd.
    - subst i. rewrite HC, !elem_of_app, elem_of_cons.
      apply NoDup_app in Hnd as (_ & Hd1 & [Hd2 _]%NoDup_cons).
      specialize (Hd1 a). rewrite elem_of_cons in Hd1. split; [|tauto].
      intros Hc. split; [tauto|]. intros ->. tauto.
    - split; [|tauto]. intros Hc. split; [done|]. intros ->.
      apply Hin in Hc as (q & Hq & _ & Hbq); [|done]. congruence. }
  rewrite Hin by done. split.
  - intros [(p & Hp & HMp & Hbp) Hca]. symmetry in Hs.
    destruct (same_but_next_lookup _ _ _ _ Hs Hp) as (q & Hq & Hqp).
    apply (f_equal base) in Hqp. cbn in Hqp. exists q. rewrite Hqp. split; [done|].
    split; [|done]. rewrite lookup_delete_ne; [done|]. intros E. rewrite <- E in HMp. congruence.
  - intros (p & Hp & HMp & Hbp). destruct (same_but_next_lookup _ _ _ _ Hs Hp) as (q & Hq & Hqp).
    apply (f_equal base) in Hqp. cbn in Hqp.
    apply lookup_delete_Some in HMp as [Hne HMp]. split; [|congruence]. exists q. by rewrite Hqp.
Qed.

(** Removing one page from one chain, when the other chains do not see the write. *)
Lemma index_unlink_rep h idx M C b a pa l1 l2 :
  index_chains h idx M C -> C (bucket_of b) = l1 ++ a :: l2 ->
  h !! a = Some pa -> base pa = b -> M !! b = Some a ->
  exists h' idx',
    match last l1 with
    | None => h' = h /\ idx' = set_bucket (bucket_of b) (next pa) idx
    | Some c => store c (set_next (next pa)) h = Some h' /\ idx' = idx
    end /\
    index_chains h' idx' (delete b M)
      (fun i => if decide (i = bucket_of b) then l1 ++ l2 else C i) /\
    same_but_next h' h /\ h' !! a = Some pa.
Proof.
  intros HI HC Ha Hb HM. pose proof (bucket_of_lt b) as Hlt.
  destruct (bucket_lookup h idx M b) as [hd Hhd]; [by exists C|].
  pose proof HI as (Hlen & Hch & Hin & Hm).
  pose proof (Hch _ _ Hhd) as Hl. rewrite HC in Hl.
  pose proof (lseg_NoDup _ _ _ _ Hl) as Hnd. pose proof (unlink_lseg _ _ _ _ _ _ Hl Ha) as Hu.
  pose proof (fun h' => unlinked_members h h' idx M C b a pa l1 l2 HI HC Hnd Ha Hb HM) as Hmem.
  assert (Hdel : forall h', same_but_next h' h -> forall b' d, delete b M !! b' = Some d ->
    exists p, h' !! d = Some p /\ base p = b').
  { intros h' Hs b' d [Hne HMd]%lookup_delete_Some. destruct (Hm _ _ HMd) as (q & Hq & <-).
    symmetry in Hs. destruct (same_but_next_lookup _ _ _ _ Hs Hq) as (q' & Hq' & E).
    exists q'. split; [done|]. by apply (f_equal base) in E. }
  destruct (last l1) as [c|] eqn:Elast.
  - destruct Hu as (pc & Hpc & Hu). assert (Hcl : c ∈ l1) by (by apply last_Some_elem_of).
    assert (Hs : same_but_next (<[c := set_next (next pa) pc]> h) h)
      by (by apply same_but_next_insert).
    assert (c <> a).
    { apply NoDup_app in Hnd as (_ & Hd1 & _). intros ->. by eapply Hd1, list_elem_of_here. }
    exists (<[c := set_next (next pa) pc]> h), idx. split_and!;
      [by apply store_some|done| |done|by rewrite lookup_insert_ne].
    split_and!; [done| |by apply Hmem|by apply Hdel].
    intros i hd' Hi. case_decide as Hd; [subst i; congruence|].
    apply lseg_insert_ne; [|by apply Hch]. intros Hci.
    apply Hin in Hci as (p & Hp & _ & Hbp);
      [|apply lookup_lt_Some in Hi; rewrite Hlen in Hi; exact Hi].
    assert (Hc2 : c ∈ C (bucket_of b)) by (rewrite HC; apply elem_of_app; auto).
    apply Hin in Hc2 as (q & Hq & _ & Hbq); [|done]. rewrite Hp in Hq. injection Hq as <-.
    apply Hd. by rewrite <- Hbp, <- Hbq.
  - exists h, (set_bucket (bucket_of b) (next pa) idx). split_and!; try done.
    split_and!; [cbn; by rewrite length_insert| |by apply Hmem|by apply Hdel].
    intros i hd'. cbn. case_decide as Hd.
    + subst i. rewrite list_lookup_insert_eq by (rewrite Hlen; exact Hlt). by intros [= <-].
    + rewrite list_lookup_insert_ne by done. apply Hch.
Qed.

(** ** The index operations on the map *)

(** Pages outside the index, and fields other than [base] and [next], are free to change. *)
Lemma index_rep_frame h h' idx M :
  (forall a p, h !! a = Some p -> M !! base p = Some a ->
     exists p', h' !! a = Some p' /\ base p' = base p /\ next p' = next p) ->
  index_rep h idx M -> index_rep h' idx M.
Proof.
  intros Hf (C & Hlen & Hch & Hin & Hm). exists C. split_and!; [done|..].
  - intros i hd Hi. eapply lseg_frame; [|by apply Hch]. intros a p Ha Hp.
    apply Hin in Ha as (q & Hq & HMq & _);
      [|apply lookup_lt_Some in Hi; rewrite Hlen in Hi; exact Hi].
    rewrite Hp in Hq. injection Hq as <-. destruct (Hf a p) as (p' & ? & _ & ?); eauto.
  - intros i a Hi. rewrite Hin by done. split; intros (p & Hp & HMp & Hb).
    + destruct (Hf a p) as (p' & Hp' & Hb' & _); [done..|]. exists p'. by rewrite Hb'.
    + destruct (Hm _ _ HMp) as (q & Hq & Hbq). exists q. by rewrite Hbq.
  - intros b a HM. destruct (Hm _ _ HM) as (p & Hp & Hb). subst b.
    destruct (Hf a p) as (p' & ? & ? & _); eauto.
Qed.

Lemma chain_of_page h idx M C b a pa :
  index_chains h idx M C -> h !! a = Some pa -> base pa = b -> M !! b = Some a ->
  exists l1 l2, C (bucket_of b) = l1 ++ a :: l2.
Proof.
  intros (_ & _ & Hin & _) Ha Hb HM. apply list_elem_of_split, Hin; [apply bucket_of_lt|].
  exists pa. by rewrite Hb.
Qed.

(** The walk of [page_index_remove] and [page_index_detach_if] when its test identifies the
    page of [b]. *)
Lemma unlink_rep h idx M b a pa hd test :
  index_rep h idx M -> h !! a = Some pa -> base pa = b -> M !! b = Some a ->
  buckets idx !! bucket_of b = Some hd ->
  (forall c p, h !! c = Some p -> M !! base p = Some c -> test c p = bool_decide (c = a)) ->
  exists h' idx',
    unlink (chain_fuel h) h idx (bucket_of b) None hd test = Some (Some a, h', idx') /\
    index_rep h' idx' (delete b M) /\ same_but_next h' h /\ h' !! a = Some pa.
Proof.
  intros (C & HI) Ha Hb HM Hhd Ht.
  destruct (chain_of_page _ _ _ _ _ _ _ HI Ha Hb HM) as (l1 & l2 & HC).
  destruct (index_unlink_rep _ _ _ _ _ _ _ _ _ HI HC Ha Hb HM) as (h' & idx' & Hu & HI' & Hs & Ha').
  exists h', idx'. split; [|by split; [eexists|]].
  destruct HI as (Hlen & Hch & Hin & Hm). pose proof (Hch _ _ Hhd) as Hl. rewrite HC in Hl.
  pose proof (lseg_NoDup _ _ _ _ Hl) as Hnd. pose proof (lseg_size _ _ _ _ Hl) as Hsz.
  rewrite (unlink_spec _ _ _ _ a pa l2 l1 []); try done.
  - cbn [app]. destruct (last l1) as [c|]; [|by destruct Hu as [-> ->]].
    destruct Hu as [-> ->]. done.
  - intros c p Hc Hp. rewrite (Ht c p) by
      (done || (destruct (Hin (bucket_of b) c (bucket_of_lt b)) as [Hx _];
       destruct Hx as (q & Hq & HMq & _);
       [rewrite HC; apply elem_of_app; auto|rewrite Hp in Hq; by injection Hq as <-])).
    apply bool_decide_false. intros ->. apply NoDup_app in Hnd as (_ & Hd & _).
    by eapply Hd, list_elem_of_here.
  - rewrite (Ht a pa), bool_decide_true; [done..|]. by rewrite Hb.
  - unfold chain_fuel. lia.
Qed.

Lemma unlink_absent h idx M b hd test :
  index_rep h idx M -> buckets idx !! bucket_of b = Some hd ->
  (forall c p, h !! c = Some p -> M !! base p = Some c -> bucket_of (base p) = bucket_of b ->
     test c p = false) ->
  unlink (chain_fuel h) h idx (bucket_of b) None hd test = Some (None, h, idx).
Proof.
  intros (C & Hlen & Hch & Hin & Hm) Hhd Ht. pose proof (Hch _ _ Hhd) as Hl.
  eapply unlink_none; [exact Hl| |].
  - intros c p Hc Hp. apply Hin in Hc as (q & Hq & HMq & Hb); [|apply bucket_of_lt].
    rewrite Hp in Hq. injection Hq as <-. auto.
  - pose proof (lseg_size _ _ _ _ Hl). unfold chain_fuel. lia.
Qed.

Lemma detach_if_hit h idx M b a pa :
  index_rep h idx M -> h !! a = Some pa -> base pa = b -> M !! b = Some a ->
  exists h' idx', page_index_detach_if h idx b a = Some (true, h', idx') /\
    index_rep h' idx' (delete b M) /\ same_but_next h' h /\ h' !! a = Some (set_next None pa).
Proof.
  intros HI Ha Hb HM. destruct (bucket_lookup _ _ _ b HI) as [hd Hhd].
  destruct (unlink_rep h idx M b a pa hd (fun c _ => bool_decide (c = a)))
    as (h1 & idx' & E & HI' & Hs & Ha'); try done.
  exists (<[a := set_next None pa]> h1), idx'. unfold page_index_detach_if. rewrite Hhd.
  cbn [mbind option_bind]. rewrite E. cbn [mbind option_bind]. rewrite (store_some _ _ _ pa) by done.
  split_and!; [done|..].
  - eapply index_rep_frame; [|exact HI']. intros c p Hp Hc. exists p.
    rewrite lookup_insert_ne; [done|]. intros <-. rewrite Ha' in Hp. injection Hp as <-.
    by rewrite Hb, lookup_delete_eq in Hc.
  - rewrite same_but_next_insert by done. done.
  - apply lookup_insert_eq.
Qed.

(** The walk compares pointers, in the bucket of the base it is given. *)
Lemma detach_if_bucket h idx b b' a :
  bucket_of b = bucket_of b' -> page_index_detach_if h idx b a = page_index_detach_if h idx b' a.
Proof. intros E. unfold page_index_detach_if. by rewrite E. Qed.

Lemma detach_if_miss h idx M b a :
  index_rep h idx M ->
  (forall p, h !! a = Some p -> bucket_of (base p) = bucket_of b -> M !! base p <> Some a) ->
  page_index_detach_if h idx b a = Some (false, h, idx).
Proof.
  intros HI HM. destruct (bucket_lookup _ _ _ b HI) as [hd Hhd].
  unfold page_index_detach_if. rewrite Hhd. cbn [mbind option_bind].
  rewrite (unlink_absent h idx M b hd); [done..|]. intros c p Hp Hc Hb.
  apply bool_decide_false. intros ->. by apply (HM p).
Qed.

Lemma page_free_spec h w a p :
  h !! a = Some p -> 0 < g_live w ->
  exists w' wake, scrap_page_free h w (Some a) = Some (delete a h, w', wake) /\
    g_live w' = g_live w - 1.
Proof.
  intros Ha Hw. unfold scrap_page_free, nox_watermark_note_free. rewrite Ha. cbn [mbind option_bind].
  destruct (0 <? g_live w) eqn:E; [|lia]. do 2 eexists. split; reflexivity.
Qed.

Lemma remove_hit h idx M w b a pa :
  index_rep h idx M -> h !! a = Some pa -> base pa = b -> M !! b = Some a -> 0 < g_live w ->
  exists h' idx' w' wake,
    page_index_remove h idx w b = Some (delete a h', idx', w', wake) /\
    index_rep (delete a h') idx' (delete b M) /\ same_but_next h' h /\ g_live w' = g_live w - 1.
Proof.
  intros HI Ha Hb HM Hw. destruct (bucket_lookup _ _ _ b HI) as [hd Hhd].
  destruct (unlink_rep h idx M b a pa hd (fun _ p => base p =? b))
    as (h1 & idx' & E & HI' & Hs & Ha'); try done.
  { intros c p Hp Hc. destruct (base p =? b) eqn:Eb.
    - assert (base p = b) by lia. rewrite bool_decide_true; congruence.
    - rewrite bool_decide_false; [done|]. intros ->. rewrite Ha in Hp. injection Hp as <-. lia. }
  destruct (page_free_spec h1 w a pa Ha' Hw) as (w' & wk & Ef & Hl).
  exists h1, idx', w', wk. unfold page_index_remove. rewrite Hhd. cbn [mbind option_bind].
  rewrite E. cbn [mbind option_bind]. rewrite Ef. split_and!; try done.
  eapply index_rep_frame; [|exact HI']. intros c p Hp Hc. exists p.
  rewrite lookup_delete_ne; [done|]. intros <-. rewrite Ha' in Hp. injection Hp as <-.
  by rewrite Hb, lookup_delete_eq in Hc.
Qed.

Lemma remove_miss h idx M w b :
  index_rep h idx M -> M !! b = None -> page_index_remove h idx w b = Some (h, idx, w, false).
Proof.
  intros HI HM. destruct (bucket_lookup _ _ _ b HI) as [hd Hhd].
  unfold page_index_remove. rewrite Hhd. cbn [mbind option_bind].
  rewrite (unlink_absent h idx M b hd); [done..|]. intros c p Hp Hc _.
  destruct (base p =? b) eqn:E; [|done]. assert (base p = b) by lia. congruence.
Qed.

(** ** Creation *)

Lemma init_shards_spec init_ok s n live :
  Forall (fun j => (j < s)%nat) live ->
  init_shards init_ok s n live =
    (forallb init_ok (seq s n), if forallb init_ok (seq s n) then live ++ seq s n else []).
Proof.
  revert s live. induction n as [|n IH]; intros s live Hl; cbn; [by rewrite app_nil_r|].
  destruct (init_ok s); cbn.
  - rewrite IH; [by rewrite <- app_assoc|]. apply Forall_app. split; [|by repeat constructor; lia].
    eapply Forall_impl; [exact Hl|]. cbn. lia.
  - f_equal. clear IH. induction Hl as [|j live Hj Hl IH]; [done|]. by rewrite filter_cons_False by tauto.
Qed.

Lemma create_rep h : index_rep h (mk_index (replicate (Z.to_nat PI_BUCKETS) None)) ∅.
Proof.
  exists (fun _ => []). split_and!.
  - cbn. apply length_replicate.
  - intros i hd [-> _]%lookup_replicate. done.
  - intros i a _. split; [set_solver|]. intros (p & _ & Hp & _). by rewrite lookup_empty in Hp.
  - intros b a Hb. by rewrite lookup_empty in Hb.
Qed.

(** ** Destruction *)

Lemma destroy_chain_spec l : forall h w cur fuel,
  lseg next h cur l None -> (length l < fuel)%nat -> g_live w = Z.of_nat (size h) ->
  exists h' w', destroy_chain fuel h w cur = Some (h', w') /\ g_live w' = Z.of_nat (size h') /\
    forall a, h' !! a = if decide (a ∈ l) then None else h !! a.
Proof.
  induction l as [|a l IH]; intros h w cur [|fuel] Hl Hf Hw; cbn in Hf; try lia.
  - cbn in Hl. subst cur. exists h, w. split_and!; [done..|]. intros b.
    rewrite decide_False by set_solver. done.
  - pose proof (lseg_NoDup _ _ _ _ Hl) as [Hna _]%NoDup_cons. destruct Hl as (-> & p & Hp & Hl).
    pose proof (map_size_delete_Some (M:=gmap positive) a h (mk_is_Some _ _ Hp)) as Hsz.
    assert (size h <> 0%nat) as Hpos by (intros E%map_size_empty_inv; by rewrite E in Hp).
    destruct (page_free_spec h w a p Hp) as (w1 & wk & E & Hw1); [lia|].
    cbn [destroy_chain]. rewrite Hp. cbn [mbind option_bind]. rewrite E. cbn [mbind option_bind].
    destruct (IH (delete a h) w1 (next p) fuel) as (h' & w' & -> & Hlv & Hh);
      [by apply lseg_delete_ne|lia|lia|].
    exists h', w'. split_and!; [done..|]. intros b. rewrite Hh, lookup_delete.
    repeat case_decide; set_solver.
Qed.

(** A walk over the buckets of [ix] meets the chains [C i] one after the other; a heap in which
    the pages of later chains keep their links keeps the rest of the walk. *)
Definition bucket_walk (C : nat -> list addr) (h : heap) (bs : list (option addr)) (ix : list nat)
  : Prop := Forall2 (fun hd i => lseg next h hd (C i) None) bs ix.

Lemma bucket_walk_frame C h h' bs ix :
  (forall a p, a ∈ (ix ≫= C) -> h !! a = Some p ->
     exists p', h' !! a = Some p' /\ next p' = next p) ->
  bucket_walk C h bs ix -> bucket_walk C h' bs ix.
Proof.
  intros Hf Hw. induction Hw as [|hd i bs ix Hl Hw IH]; constructor.
  - eapply lseg_frame; [|exact Hl]. intros a p Ha. apply Hf. cbn. apply elem_of_app. auto.
  - apply IH. intros a p Ha. apply Hf. cbn. apply elem_of_app. auto.
Qed.

Lemma destroy_buckets_spec C bs ix : forall h w,
  bucket_walk C h bs ix -> NoDup (ix ≫= C) -> g_live w = Z.of_nat (size h) ->
  exists h' w', destroy_buckets h w bs = Some (h', w') /\ g_live w' = Z.of_nat (size h') /\
    forall a, h' !! a = if decide (a ∈ (ix ≫= C)) then None else h !! a.
Proof.
  revert ix. induction bs as [|hd bs IH]; intros ix h w HF Hnd Hw;
    inversion HF as [|? i ? ix' Hl HF']; subst.
  - exists h, w. split_and!; [done..|]. intros a. rewrite decide_False by set_solver. done.
  - apply NoDup_app in Hnd as (_ & Hd & Hnd).
    pose proof (lseg_size _ _ _ _ Hl) as Hsz. cbn [destroy_buckets].
    destruct (destroy_chain_spec (C i) h w hd (chain_fuel h)) as (h1 & w1 & -> & Hw1 & Hh1);
      [done|unfold chain_fuel; lia|done|]. cbn [mbind option_bind].
    destruct (IH ix' h1 w1) as (h' & w' & -> & Hw' & Hh'); [|done..|].
    { eapply bucket_walk_frame; [|exact HF']. intros a p Ha Hp. exists p. rewrite Hh1.
      rewrite decide_False; [done|]. intros Hc. by apply (Hd a). }
    exists h', w'. split_and!; [done..|]. intros a. rewrite Hh', Hh1.
    change ((i :: ix') ≫= C) with (C i ++ (ix' ≫= C)).
    destruct (decide (a ∈ (ix' ≫= C))) as [H1|H1], (decide (a ∈ C i)) as [H2|H2];
      [rewrite decide_True by (apply elem_of_app; auto); done..|].
    rewrite decide_False; [done|]. intros [?|?]%elem_of_app; done.
Qed.

Lemma index_walk h idx M C :
  index_chains h idx M C ->
  bucket_walk C h (buckets idx) (seq 0 1024) /\ NoDup (seq 0 1024 ≫= C) /\
  forall a, a ∈ (seq 0 1024 ≫= C) <-> exists p, h !! a = Some p /\ M !! base p = Some a.
Proof.
  intros (Hlen & Hch & Hin & Hm). split_and!.
  - apply Forall2_same_length_lookup. rewrite Hlen, length_seq. split; [done|].
    intros k hd i Hk [-> Hi]%lookup_seq. by apply Hch.
  - apply NoDup_bind; [| |apply NoDup_seq].
    + intros i j a [_ Hi]%elem_of_seq [_ Hj]%elem_of_seq (p & Hp & _ & Hb)%Hin
        (q & Hq & _ & Hb')%Hin; [|done..]. rewrite Hp in Hq. injection Hq as <-. by rewrite <- Hb, <- Hb'.
    + intros i [_ Hi]%elem_of_seq. destruct (buckets idx !! i) as [hd|] eqn:E.
      * eapply lseg_NoDup, Hch, E.
      * apply lookup_ge_None in E. rewrite Hlen in E. change (Z.to_nat PI_BUCKETS) with 1024%nat in E. lia.
  - intros a. rewrite list_elem_of_bind. split.
    + intros (i & Ha & [_ Hi]%elem_of_seq). apply Hin in Ha as (p & Hp & HM & _); [eauto|done].
    + intros (p & Hp & HM). exists (bucket_of (base p)). pose proof (bucket_of_lt (base p)) as Hlt.
      split; [apply Hin; eauto|]. apply elem_of_seq. split; [apply Nat.le_0_l|done].
Qed.

(** ** Enumeration *)

(** The calls of [fn] on the pages of [l], in order. *)
Fixpoint run_calls {A} (fn : addr -> heap -> A -> option (heap * A)) (h : heap) (ctx : A)
    (l : list addr) : option (heap * A) :=
  match l with
  | [] => Some (h, ctx)
  | a :: r => '(h, ctx) ← fn a h ctx; run_calls fn h ctx r
  end.

Section Foreach.
Context {A : Type} (fn : addr -> heap -> A -> option (heap * A)).

(** The callback neither frees a page nor relinks a chain. *)
Definition keeps_chains : Prop :=
  forall a h ctx h' ctx' b p, fn a h ctx = Some (h', ctx') -> h !! b = Some p ->
    exists p', h' !! b = Some p' /\ next p' = next p.

Hypothesis fn_keeps : keeps_chains.

Lemma run_calls_keeps l : forall h ctx h' ctx' b p,
  run_calls fn h ctx l = Some (h', ctx') -> h !! b = Some p ->
  exists p', h' !! b = Some p' /\ next p' = next p.
Proof.
  induction l as [|a l IH]; intros h ctx h' ctx' b p E Hp; cbn in E.
  - injection E as <- <-. eauto.
  - destruct (fn a h ctx) as [[h1 ctx1]|] eqn:E1; [|done]. cbn in E.
    destruct (fn_keeps _ _ _ _ _ _ _ E1 Hp) as (p1 & Hp1 & Hn).
    destruct (IH _ _ _ _ _ _ E Hp1) as (p2 & Hp2 & Hn2). exists p2. split; congruence.
Qed.

Lemma foreach_chain_calls l : forall h ctx cur fuel,
  lseg next h cur l None -> (length l < fuel)%nat ->
  foreach_chain fuel fn h ctx cur = run_calls fn h ctx l.
Proof.
  induction l as [|a l IH]; intros h ctx cur [|fuel] Hl Hf; cbn in Hf; try lia.
  - cbn in Hl. by subst cur.
  - destruct Hl as (-> & p & Hp & Hl). cbn [foreach_chain run_calls].
    destruct (fn a h ctx) as [[h1 ctx1]|] eqn:E; [|done]. cbn [mbind option_bind].
    destruct (fn_keeps _ _ _ _ _ _ _ E Hp) as (p1 & -> & Hn). cbn [mbind option_bind].
    rewrite Hn. apply IH; [|lia]. eapply lseg_frame; [|exact Hl]. intros b q _ Hq. by eapply fn_keeps.
Qed.

Lemma run_calls_app l1 l2 : forall h ctx,
  run_calls fn h ctx (l1 ++ l2) =
    ('(h, ctx) ← run_calls fn h ctx l1; run_calls fn h ctx l2).
Proof.
  induction l1 as [|a l1 IH]; intros h ctx; cbn; [done|].
  destruct (fn a h ctx) as [[h1 ctx1]|]; [|done]. cbn. apply IH.
Qed.

Lemma foreach_buckets_calls C bs ix : forall h ctx,
  bucket_walk C h bs ix -> foreach_buckets fn h ctx bs = run_calls fn h ctx (ix ≫= C).
Proof.
  revert ix. induction bs as [|hd bs IH]; intros ix h ctx HF;
    inversion HF as [|? i ? ix' Hl HF']; subst; [done|].
  change ((i :: ix') ≫= C) with (C i ++ (ix' ≫= C)). rewrite run_calls_app. cbn [foreach_buckets].
  pose proof (lseg_size _ _ _ _ Hl) as Hsz.
  rewrite (foreach_chain_calls (C i)) by (done || (unfold chain_fuel; lia)).
  destruct (run_calls fn h ctx (C i)) as [[h1 ctx1]|] eqn:E; [|done]. cbn [mbind option_bind].
  apply IH. eapply bucket_walk_frame; [|exact HF']. intros a p _. by apply (run_calls_keeps _ _ _ _ _ _ _ E).
Qed.

(** ** The walk, access by access *)

Lemma run_foreach_chain idx b l : forall h ctx cur n,
  lseg next h cur l None ->
  run_foreach (2 * length l + n) fn h ctx idx (chain_at b cur) =
    ('(h, ctx) ← run_calls fn h ctx l; run_foreach n fn h ctx idx (FeBucket (S b))).
Proof.
  induction l as [|a l IH]; intros h ctx cur n Hl; [cbn in Hl; by subst cur|].
  destruct Hl as (-> & p & Hp & Hl). cbn [length chain_at run_calls].
  replace (2 * S (length l) + n)%nat with (S (S (2 * length l + n))) by lia.
  cbn [run_foreach foreach_step]. destruct (fn a h ctx) as [[h1 ctx1]|] eqn:E; [|done].
  cbn [mbind option_bind run_foreach foreach_step].
  destruct (fn_keeps _ _ _ _ _ _ _ E Hp) as (p1 & -> & Hn).
  cbn [mbind option_bind]. rewrite Hn. apply IH. eapply lseg_frame; [|exact Hl].
  intros e q _ Hq. by eapply fn_keeps.
Qed.

(** Accesses enough for the chains [C i], [i] in [ix], and the end. *)
Definition walk_fuel (C : nat -> list addr) (ix : list nat) : nat :=
  foldr (fun i n => S (2 * length (C i) + n)) 1%nat ix.

Lemma run_foreach_buckets C idx bs : forall ix b h ctx,
  bucket_walk C h bs ix -> drop b (buckets idx) = bs -> Z.of_nat (length (buckets idx)) = PI_BUCKETS ->
  (b <= length (buckets idx))%nat ->
  run_foreach (walk_fuel C ix) fn h ctx idx (FeBucket b) = run_calls fn h ctx (ix ≫= C).
Proof.
  induction bs as [|hd bs IH]; intros ix b h ctx HF Hbs Hlen Hb;
    inversion HF as [|? i ? ix' Hl HF']; subst; cbn [walk_fuel foldr run_foreach foreach_step].
  - apply (f_equal length) in Hbs. rewrite length_drop in Hbs. cbn in Hbs.
    destruct (Z.of_nat b <? PI_BUCKETS) eqn:E; [lia|done].
  - assert (buckets idx !! b = Some hd) as Hhd.
    { pose proof (lookup_drop (buckets idx) b 0) as Hd. rewrite Hbs in Hd. cbn in Hd.
      by rewrite Nat.add_0_r in Hd. }
    pose proof (lookup_lt_Some _ _ _ Hhd). destruct (Z.of_nat b <? PI_BUCKETS) eqn:E; [|lia].
    rewrite Hhd. cbn [mbind option_bind]. rewrite (run_foreach_chain idx b (C i)) by done.
    change (list_bind nat addr C (i :: ix')) with (C i ++ (ix' ≫= C)). rewrite run_calls_app.
    destruct (run_calls fn h ctx (C i)) as [[h1 ctx1]|] eqn:Er; [|done]. cbn [mbind option_bind].
    apply IH; [|by rewrite <- Nat.add_1_r, <- drop_drop, Hbs|done|lia].
    eapply bucket_walk_frame; [|exact HF']. intros a p _. by apply (run_calls_keeps _ _ _ _ _ _ _ Er).
Qed.

End Foreach.

(** * Refinement to a finite map *)

(** What the engine does with the index and its pages, the allocator's answers included. *)
Inductive index_op :=
| IGet (b ssd : Z) (a : addr) (malloc_ok : bool) (zone : option (Z * buf))
| IDetach (b : Z) (a : addr)
| IRemove (b : Z)
| IFree (a : addr)
| ILive.

Inductive index_out :=
| RGot (p : option addr) (created : bool)
| RDetached (r : bool)
| RDone
| RLive (n : Z).

Definition zone_ok (malloc_ok : bool) (zone : option (Z * buf)) : bool :=
  malloc_ok && match zone with Some _ => true | None => false end.

(** The abstract state: the resident page of each base, and the base of each allocated page,
    resident or detached. *)
Record index_spec := mk_spec { resident : gmap Z addr; pages : gmap addr Z }.

Definition spec_step (s : index_spec) (op : index_op) : index_out * index_spec :=
  match op with
  | IGet b _ a mok zone =>
      match resident s !! b with
      | Some a0 => (RGot (Some a0) false, s)
      | None =>
          if zone_ok mok zone
          then (RGot (Some a) true, mk_spec (<[b := a]> (resident s)) (<[a := b]> (pages s)))
          else (RGot None false, s)
      end
  | IDetach b a =>
      match pages s !! a with
      | Some b' =>
          if decide (bucket_of b' = bucket_of b /\ resident s !! b' = Some a)
          then (RDetached true, mk_spec (delete b' (resident s)) (pages s))
          else (RDetached false, s)
      | None => (RDetached false, s)
      end
  | IRemove b =>
      match resident s !! b with
      | Some a => (RDone, mk_spec (delete b (resident s)) (delete a (pages s)))
      | None => (RDone, s)
      end
  | IFree a => (RDone, mk_spec (resident s) (delete a (pages s)))
  | ILive => (RLive (Z.of_nat (size (pages s))), s)
  end.

(** What the operations rely on: the allocator returns an address not in use, fewer than 2^32
    pages in all, and only a detached page is freed directly. A detach may name any pointer. *)
Definition spec_pre (s : index_spec) (op : index_op) : Prop :=
  match op with
  | IGet b _ a _ _ => pages s !! a = None /\ Z.of_nat (size (pages s)) + 1 < 2 ^ 32
  | IFree a => match pages s !! a with Some b => resident s !! b <> Some a | None => False end
  | IDetach _ _ | IRemove _ | ILive => True
  end.

#[export] Instance spec_pre_dec s op : Decision (spec_pre s op).
Proof. destruct op; cbn; try destruct (pages s !! a); apply _. Defined.

Fixpoint run_spec (s : index_spec) (ops : list index_op) : list index_out :=
  match ops with
  | [] => []
  | op :: r => (spec_step s op).1 :: run_spec (spec_step s op).2 r
  end.

Fixpoint spec_ok (s : index_spec) (ops : list index_op) : Prop :=
  match ops with
  | [] => True
  | op :: r => spec_pre s op /\ spec_ok (spec_step s op).2 r
  end.

#[export] Instance spec_ok_dec ops : forall s, Decision (spec_ok s ops).
Proof. induction ops as [|op ops IH]; intros s; cbn; apply _. Defined.

Section Refinement.
Context `{NoxConfig}.

Definition index_step (h : heap) (idx : page_index) (w : watermark) (op : index_op)
  : option (index_out * heap * page_index * watermark) :=
  match op with
  | IGet b ssd a mok zone =>
      '(p, c, h, idx, w) ← page_index_get_or_create h idx w b ssd a mok zone;
      Some (RGot p c, h, idx, w)
  | IDetach b a =>
      '(r, h, idx) ← page_index_detach_if h idx b a; Some (RDetached r, h, idx, w)
  | IRemove b =>
      '(h, idx, w, _) ← page_index_remove h idx w b; Some (RDone, h, idx, w)
  | IFree a => '(h, w, _) ← scrap_page_free h w (Some a); Some (RDone, h, idx, w)
  | ILive => Some (RLive (nox_watermark_live w), h, idx, w)
  end.

Fixpoint run_index (h : heap) (idx : page_index) (w : watermark) (ops : list index_op)
  : option (list index_out) :=
  match ops with
  | [] => Some []
  | op :: r =>
      '(o, h, idx, w) ← index_step h idx w op;
      os ← run_index h idx w r; Some (o :: os)
  end.

(** The concrete state implements the abstract one. *)
Definition index_refines (h : heap) (idx : page_index) (w : watermark) (s : index_spec) : Prop :=
  index_rep h idx (resident s) /\ base <$> h = pages s /\ g_live w = Z.of_nat (size h).

Lemma same_but_next_bases h h' : same_but_next h' h -> base <$> h' = base <$> h.
Proof.
  intros Hs. apply map_eq. intros a. specialize (Hs a). rewrite !lookup_fmap.
  destruct (h' !! a), (h !! a); cbn in *; try done. injection Hs. congruence.
Qed.

Lemma same_but_next_size h h' : same_but_next h' h -> size h' = size h.
Proof.
  intros Hs. rewrite <- (map_size_fmap base h'), <- (map_size_fmap base h).
  by rewrite (same_but_next_bases h h').
Qed.

Lemma size_insert_fresh (h : heap) a p : h !! a = None -> size (<[a := p]> h) = S (size h).
Proof. apply map_size_insert_None. Qed.

Lemma size_delete_page (h : heap) a p :
  h !! a = Some p -> Z.of_nat (size (delete a h)) = Z.of_nat (size h) - 1 /\ 0 < Z.of_nat (size h).
Proof.
  intros Hp. rewrite (map_size_delete_Some (M := gmap positive) a h) by eauto.
  assert (size h <> 0%nat) by (intros E%map_size_empty_inv; by rewrite E in Hp). lia.
Qed.

Lemma spec_page h idx w s a :
  index_refines h idx w s -> pages s !! a = base <$> h !! a.
Proof. intros (_ & <- & _). apply lookup_fmap. Qed.

Lemma resident_page h idx w s b a :
  index_refines h idx w s -> resident s !! b = Some a -> exists p, h !! a = Some p /\ base p = b.
Proof. intros ((C & _ & _ & _ & Hm) & _) HM. by apply Hm. Qed.

Lemma step_get h idx w s b ssd a mok zone :
  index_refines h idx w s -> spec_pre s (IGet b ssd a mok zone) ->
  exists h' idx' w', index_step h idx w (IGet b ssd a mok zone) =
    Some ((spec_step s (IGet b ssd a mok zone)).1, h', idx', w') /\
    index_refines h' idx' w' (spec_step s (IGet b ssd a mok zone)).2.
Proof.
  intros Hr [Ha Hsz]. pose proof Hr as (HI & Hb & Hw). cbn [index_step spec_step].
  rewrite (spec_page _ _ _ _ _ Hr) in Ha. apply fmap_None in Ha.
  rewrite <- Hb, map_size_fmap in Hsz.
  destruct (resident s !! b) as [a0|] eqn:HM.
  - rewrite (get_or_create_found _ _ _ _ _ _ a0 _ _ _ HI HM). cbn. eauto 6.
  - destruct (zone_ok mok zone) eqn:Ez.
    + destruct mok, zone as [[za junk]|]; try done.
      destruct (get_or_create_fresh h idx _ w b ssd a za junk HI HM Ha) as (hd & idx' & -> & HI').
      cbn. do 3 eexists. split; [done|]. split_and!; [done| |].
      * cbn. rewrite fmap_insert, Hb. done.
      * cbn. rewrite u32_small by lia. rewrite size_insert_fresh by done. lia.
    + rewrite (get_or_create_oom _ _ _ _ _ _ _ _ _ HI HM); [cbn; eauto 6|].
      destruct mok, zone; try done; auto.
Qed.

Lemma step_detach h idx w s b a :
  index_refines h idx w s ->
  exists h' idx' w', index_step h idx w (IDetach b a) =
    Some ((spec_step s (IDetach b a)).1, h', idx', w') /\
    index_refines h' idx' w' (spec_step s (IDetach b a)).2.
Proof.
  intros Hr. pose proof Hr as (HI & Hb & Hw). cbn [index_step spec_step].
  rewrite (spec_page _ _ _ _ _ Hr). destruct (h !! a) as [p|] eqn:Ha; cbn [fmap option_fmap option_map].
  - case_decide as HM.
    + destruct HM as [Eb HM]. rewrite (detach_if_bucket _ _ _ (base p)) by done.
      destruct (detach_if_hit _ _ _ _ _ _ HI Ha eq_refl HM) as (h' & idx' & -> & HI' & Hs & _).
      cbn. do 3 eexists. split; [done|]. split_and!; [done| |].
      * cbn. by rewrite (same_but_next_bases h h').
      * by rewrite (same_but_next_size h h').
    + rewrite (detach_if_miss _ _ _ _ _ HI); [cbn; eauto 6|]. intros q Hq Hbq HMq. apply HM.
      rewrite Ha in Hq. injection Hq as <-. done.
  - rewrite (detach_if_miss _ _ _ _ _ HI); [cbn; eauto 6|]. congruence.
Qed.

Lemma step_remove h idx w s b :
  index_refines h idx w s ->
  exists h' idx' w', index_step h idx w (IRemove b) =
    Some ((spec_step s (IRemove b)).1, h', idx', w') /\
    index_refines h' idx' w' (spec_step s (IRemove b)).2.
Proof.
  intros Hr. pose proof Hr as (HI & Hb & Hw). cbn [index_step spec_step].
  destruct (resident s !! b) as [a|] eqn:HM.
  - destruct (resident_page _ _ _ _ _ _ Hr HM) as (p & Ha & Hbp).
    destruct (size_delete_page h a p Ha) as [Hsz Hpos].
    destruct (remove_hit _ _ _ w _ _ _ HI Ha Hbp HM) as (h' & idx' & w' & wk & -> & HI' & Hs & Hw');
      [lia|].
    cbn. do 3 eexists. split; [done|]. split_and!; [done| |].
    + cbn. by rewrite fmap_delete, (same_but_next_bases h h'), Hb.
    + destruct (h' !! a) as [p'|] eqn:Ea.
      * destruct (size_delete_page h' a p' Ea) as [Hsz' _].
        rewrite (same_but_next_size h h') in Hsz' by done. lia.
      * specialize (Hs a). by rewrite Ea, Ha in Hs.
  - rewrite (remove_miss _ _ _ _ _ HI HM). cbn. eauto 6.
Qed.

Lemma step_free h idx w s a :
  index_refines h idx w s -> spec_pre s (IFree a) ->
  exists h' idx' w', index_step h idx w (IFree a) =
    Some ((spec_step s (IFree a)).1, h', idx', w') /\
    index_refines h' idx' w' (spec_step s (IFree a)).2.
Proof.
  intros Hr Hp. pose proof Hr as (HI & Hb & Hw). cbn in Hp.
  rewrite (spec_page _ _ _ _ _ Hr) in Hp. destruct (h !! a) as [p|] eqn:Ha; [|done]. cbn in Hp.
  destruct (size_delete_page h a p Ha) as [Hsz Hpos].
  destruct (page_free_spec h w a p Ha) as (w' & wk & E & Hw'); [lia|].
  unfold index_step. rewrite E. cbn. do 3 eexists. split; [done|]. split_and!.
  - cbn. eapply index_rep_frame; [|exact HI]. intros c q Hq Hc. exists q.
    rewrite lookup_delete_ne; [done|]. intros <-. congruence.
  - cbn. by rewrite fmap_delete, Hb.
  - lia.
Qed.

Lemma index_step_refines h idx w s op :
  index_refines h idx w s -> spec_pre s op ->
  exists h' idx' w', index_step h idx w op = Some ((spec_step s op).1, h', idx', w') /\
    index_refines h' idx' w' (spec_step s op).2.
Proof.
  intros Hr Hp. destruct op; [by apply step_get|by apply step_detach|by apply step_remove|
    by apply step_free|]. do 3 eexists. cbn. unfold nox_watermark_live.
  destruct Hr as (HI & Hb & Hw). rewrite Hw, <- Hb, map_size_fmap. split; [done|]. done.
Qed.

Lemma run_index_refines ops : forall h idx w s,
  index_refines h idx w s -> spec_ok s ops -> run_index h idx w ops = Some (run_spec s ops).
Proof.
  induction ops as [|op ops IH]; intros h idx w s Hr Hok; [done|]. destruct Hok as [Hp Hok].
  destruct (index_step_refines h idx w s op Hr Hp) as (h' & idx' & w' & E & Hr').
  cbn [run_index run_spec]. rewrite E. cbn. by rewrite (IH h' idx' w' _ Hr' Hok).
Qed.

End Refinement.

(** * Properties *)

(** C28: The sharded index is a finite map from page bases to resident pages. Starting from a
    fresh index, any sequence of lookups-or-creations (allocation failures included), detaches
    by identity with any base and any pointer, removals and frees of detached pages runs without
    a dangling pointer, ends every chain walk, returns exactly what the map returns, and the
    watermark level read in between is the number of allocated pages. A detach whose pointer is
    now the address of a resident page of another base of the same bucket unlinks that page, as
    the map says. Relied on: the allocator returns unused addresses and has handed out fewer than
    2^32 pages, and a page is freed directly only once it is out of the index. *)
Theorem index_refines_map `{NoxConfig} (idx : page_index) (live : list nat) (w : watermark)
    (ops : list index_op) :
  page_index_create true (fun _ => true) = (Some idx, live) ->
  g_live w = 0 -> spec_ok (mk_spec ∅ ∅) ops ->
  run_index ∅ idx w ops = Some (run_spec (mk_spec ∅ ∅) ops).
Proof.
  intros Hc Hw Hok. apply run_index_refines; [|done]. split_and!; [|by rewrite fmap_empty|].
  - unfold page_index_create in Hc. rewrite init_shards_spec in Hc by constructor.
    replace (forallb _ _) with true in Hc; [injection Hc as <- _; apply create_rep|].
    symmetry. by apply forallb_forall.
  - by rewrite Hw, map_size_empty.
Qed.

(** Two bases of one bucket, a collision in the middle of the chain, a refused detach, and a
    detach by a stale pointer that unlinks the page of the other base. *)
Definition sample_index_ops : list index_op :=
  let z := Some (4096, fun _ => Byte.x00) in
  [IGet 0 0 1%positive true z; IGet (1597 * NOX_DATAZONE_SIZE) 0 2%positive true z;
   IGet 0 0 3%positive true z; IGet NOX_DATAZONE_SIZE 0 3%positive false z;
   IDetach 0 1%positive; IDetach 0 1%positive; IGet 0 0 3%positive true z; ILive;
   IFree 1%positive; IDetach 0 2%positive; IFree 2%positive;
   IRemove (1597 * NOX_DATAZONE_SIZE); IRemove 0; ILive].

Lemma index_refines_map_witness :
  run_index (H := default_config) ∅ (mk_index (replicate (Z.to_nat PI_BUCKETS) None)) wm_initial
    sample_index_ops =
  Some [RGot (Some 1%positive) true; RGot (Some 2%positive) true; RGot (Some 1%positive) false;
        RGot None false; RDetached true; RDetached false; RGot (Some 3%positive) true; RLive 3;
        RDone; RDetached true; RDone; RDone; RDone; RLive 0].
Proof.
  rewrite (index_refines_map (H := default_config) _ (seq 0 64));
    [vm_compute; reflexivity|vm_compute; reflexivity|reflexivity|].
  apply (bool_decide_unpack _). vm_compute. exact I.
Defined.

(** [page_index_destroy] frees every resident page exactly once and touches nothing else:
    after it the pages outside the index are as before, the resident ones are gone, and the
    watermark level again equals the number of allocated pages. *)
Theorem destroy_frees_resident (h : heap) (idx : page_index) (M : gmap Z addr) (w : watermark) :
  index_rep h idx M -> g_live w = Z.of_nat (size h) ->
  exists h' w', page_index_destroy h w idx = Some (h', w') /\
    nox_watermark_live w' = Z.of_nat (size h') /\
    forall a, h' !! a = (p ← h !! a; if decide (M !! base p = Some a) then None else Some p).
Proof.
  intros (C & HI) Hw. destruct (index_walk _ _ _ _ HI) as (Hwalk & Hnd & Hin).
  destruct (destroy_buckets_spec C _ _ h w Hwalk Hnd Hw) as (h' & w' & E & Hw' & Hh).
  exists h', w'. split_and!; [done..|]. intros a. rewrite Hh.
  destruct (h !! a) as [p|] eqn:Ha; cbn [mbind option_bind]; [|by case_decide].
  apply decide_ext. rewrite Hin, Ha. split; [intros (q & [= <-] & HM); done|eauto].
Qed.

(** One resident page and one detached page. *)
Definition sample_two_pages : heap :=
  {[1%positive :=
      fresh_page (H := default_config) NOX_DATAZONE_SIZE 0 4096 (fun _ => Byte.x00) None;
    2%positive := fresh_page (H := default_config) 0 0 8192 (fun _ => Byte.x00) None]}.

Definition sample_index : page_index :=
  set_bucket (bucket_of NOX_DATAZONE_SIZE) (Some 1%positive)
    (mk_index (replicate (Z.to_nat PI_BUCKETS) None)).

Lemma sample_index_rep :
  index_rep sample_two_pages sample_index {[NOX_DATAZONE_SIZE := 1%positive]}.
Proof.
  apply (index_insert_rep
    (<[2%positive := fresh_page (H := default_config) 0 0 8192 (fun _ => Byte.x00) None]> ∅)
    _ ∅ NOX_DATAZONE_SIZE None); try done; apply create_rep.
Qed.

Lemma destroy_frees_resident_witness :
  exists h' w', page_index_destroy sample_two_pages (set_live 2 wm_initial) sample_index =
                  Some (h', w') /\ h' !! 1%positive = None /\ is_Some (h' !! 2%positive).
Proof.
  destruct (destroy_frees_resident sample_two_pages sample_index
    {[NOX_DATAZONE_SIZE := 1%positive]} (set_live 2 wm_initial) sample_index_rep)
    as (h' & w' & E & _ & Hh); [reflexivity|].
  exists h', w'. split; [exact E|]. rewrite !Hh. split; [reflexivity|]. by eexists.
Defined.

(** [page_index_foreach] visits every resident page exactly once and returns, for a
    callback that neither frees pages nor relinks chains: its effect is that of the calls on a
    duplicate-free list of exactly the resident pages. *)
Theorem foreach_visits_each_once {A} (fn : addr -> heap -> A -> option (heap * A))
    (h : heap) (idx : page_index) (M : gmap Z addr) :
  index_rep h idx M -> keeps_chains fn ->
  exists l, NoDup l /\
    (forall a, a ∈ l <-> exists p, h !! a = Some p /\ M !! base p = Some a) /\
    forall ctx, page_index_foreach fn h ctx idx = run_calls fn h ctx l.
Proof.
  intros (C & HI) Hk. destruct (index_walk _ _ _ _ HI) as (Hwalk & Hnd & Hin).
  exists (seq 0 1024 ≫= C). split_and!; [done..|]. intros ctx.
  by apply foreach_buckets_calls.
Qed.

(** Left alone, the walk access by access is the loop. *)
Lemma foreach_alone {A} (fn : addr -> heap -> A -> option (heap * A)) (h : heap)
    (idx : page_index) (M : gmap Z addr) :
  index_rep h idx M -> keeps_chains fn ->
  exists n, forall ctx, run_foreach n fn h ctx idx (FeBucket 0) = page_index_foreach fn h ctx idx.
Proof.
  intros (C & HI) Hk. destruct (index_walk _ _ _ _ HI) as (Hwalk & _).
  exists (walk_fuel C (seq 0 1024)). intros ctx.
  rewrite (run_foreach_buckets fn Hk C idx (buckets idx)); [|done|done| |lia].
  - unfold page_index_foreach. symmetry. by apply foreach_buckets_calls.
  - rewrite (proj1 HI). done.
Qed.

(** The callback counts its calls. *)
Lemma foreach_visits_each_once_witness :
  exists l, NoDup l /\ 1%positive ∈ l /\
    page_index_foreach (fun _ h n => Some (h, S n)) sample_two_pages 0%nat sample_index =
    run_calls (fun _ h n => Some (h, S n)) sample_two_pages 0%nat l.
Proof.
  destruct (foreach_visits_each_once (fun _ h n => Some (h, S n)) sample_two_pages sample_index
    {[NOX_DATAZONE_SIZE := 1%positive]} sample_index_rep) as (l & Hnd & Hin & Hf).
  - intros a h c h' c' b p [= <- <-] Hp. eauto.
  - exists l. split; [done|]. split; [|apply Hf]. apply Hin. eexists. split; reflexivity.
Defined.

(** [page_index_create] is all-or-nothing: it returns an empty index with all
    [NOX_INDEX_SHARDS] mutexes initialised when the allocation and every initialisation
    succeed, and otherwise NULL with no mutex left initialised. *)
Lemma create_spec (alloc_ok : bool) (init_ok : nat -> bool) :
  page_index_create alloc_ok init_ok =
    if alloc_ok && forallb init_ok (seq 0 (Z.to_nat NOX_INDEX_SHARDS))
    then (Some (mk_index (replicate (Z.to_nat PI_BUCKETS) None)),
          seq 0 (Z.to_nat NOX_INDEX_SHARDS))
    else (None, []).
Proof.
  unfold page_index_create. destruct alloc_ok; [|done].
  rewrite init_shards_spec by constructor. by destruct (forallb _ _).
Qed.

(** The hash geometry: every base maps into the bucket array and its bucket into the shard
    array without a mask; and the figures of the comment on [pi_shard] hold, over 64
    consecutive page numbers the top slice uses 55 of the 64 shards and the low bits of the
    bucket would use 20. *)
Theorem shard_geometry :
  (forall b, 0 <= pi_hash b < PI_BUCKETS /\ 0 <= pi_shard (pi_hash b) < NOX_INDEX_SHARDS) /\
  let bases := (fun n => Z.of_nat n * NOX_DATAZONE_SIZE) <$> seq 0 64 in
  size (list_to_set ((fun b => pi_shard (pi_hash b)) <$> bases) : gset Z) = 55%nat /\
  size (list_to_set ((fun b => Z.land (pi_hash b) (NOX_INDEX_SHARDS - 1)) <$> bases) : gset Z)
    = 20%nat.
Proof.
  split; [split; [apply pi_hash_range|apply pi_shard_range]|]. split; vm_compute; reflexivity.
Qed.
