(* ===== verification/Stats.v ===== *)
(** The counters of [src/src/nox_stats.c] (the [NOX_STATS] build): relaxed atomic 64-bit
    counters and three histograms, the hooks that feed them and the report. *)
From stdpp Require Import base numbers list.
From S2P Require Import Prelude Config Watermark.

(** * State and hooks *)

Record nox_stats := mk_stats {
  s_pages_created : Z;
  s_seal_entries : Z;
  s_pages_full : Z;
  s_user_bytes : Z;
  s_disk_write : Z;
  s_disk_read : Z;
  s_hist_stage1 : list Z;
  s_hist_full : list Z;
  s_hist_batch : list Z
}.

(** [atomic_fetch_add] on a [uint64_t]. *)
Definition bump (c n : Z) : Z := u64 (c + n).

(** [bump] of a histogram cell; [None] is an access outside the array. *)
Definition bump_hist (h : list Z) (i : Z) : option (list Z) :=
  c ← h !! Z.to_nat i; Some (<[Z.to_nat i := bump c 1]> h).

Section Hooks.
Context `{NoxConfig}.

(** The static storage, all zero, and what [nox_stats_reset] stores. *)
Definition stats_zero : nox_stats :=
  mk_stats 0 0 0 0 0 0 (replicate (Z.to_nat (NOX_MAX_ENTRIES + 1)) 0)
    (replicate (Z.to_nat (NOX_MAX_ENTRIES + 1)) 0)
    (replicate (Z.to_nat (NOX_PWRITEV_MAX_IOV + 1)) 0).

Definition nox_stat_page_created (s : nox_stats) : nox_stats :=
  mk_stats (bump (s_pages_created s) 1) (s_seal_entries s) (s_pages_full s) (s_user_bytes s)
    (s_disk_write s) (s_disk_read s) (s_hist_stage1 s) (s_hist_full s) (s_hist_batch s).
Definition nox_stat_seal_entries (s : nox_stats) : nox_stats :=
  mk_stats (s_pages_created s) (bump (s_seal_entries s) 1) (s_pages_full s) (s_user_bytes s)
    (s_disk_write s) (s_disk_read s) (s_hist_stage1 s) (s_hist_full s) (s_hist_batch s).
Definition nox_stat_user_bytes (n : Z) (s : nox_stats) : nox_stats :=
  mk_stats (s_pages_created s) (s_seal_entries s) (s_pages_full s) (bump (s_user_bytes s) n)
    (s_disk_write s) (s_disk_read s) (s_hist_stage1 s) (s_hist_full s) (s_hist_batch s).
Definition nox_stat_disk_write (n : Z) (s : nox_stats) : nox_stats :=
  mk_stats (s_pages_created s) (s_seal_entries s) (s_pages_full s) (s_user_bytes s)
    (bump (s_disk_write s) n) (s_disk_read s) (s_hist_stage1 s) (s_hist_full s) (s_hist_batch s).
Definition nox_stat_disk_read (n : Z) (s : nox_stats) : nox_stats :=
  mk_stats (s_pages_created s) (s_seal_entries s) (s_pages_full s) (s_user_bytes s)
    (s_disk_write s) (bump (s_disk_read s) n) (s_hist_stage1 s) (s_hist_full s) (s_hist_batch s).

Definition nox_stat_page_full (entries : Z) (s : nox_stats) : option nox_stats :=
  h ← (if entries <=? NOX_MAX_ENTRIES then bump_hist (s_hist_full s) entries
       else Some (s_hist_full s));
  Some (mk_stats (s_pages_created s) (s_seal_entries s) (bump (s_pages_full s) 1)
    (s_user_bytes s) (s_disk_write s) (s_disk_read s) (s_hist_stage1 s) h (s_hist_batch s)).

Definition nox_stat_stage2_batch (n : Z) (s : nox_stats) : option nox_stats :=
  let n := if NOX_PWRITEV_MAX_IOV <? n then NOX_PWRITEV_MAX_IOV else n in
  h ← bump_hist (s_hist_batch s) n;
  Some (mk_stats (s_pages_created s) (s_seal_entries s) (s_pages_full s)
    (s_user_bytes s) (s_disk_write s) (s_disk_read s) (s_hist_stage1 s) (s_hist_full s) h).

Definition nox_stat_entries_at_stage1 (entries : Z) (s : nox_stats) : option nox_stats :=
  h ← (if entries <=? NOX_MAX_ENTRIES then bump_hist (s_hist_stage1 s) entries
       else Some (s_hist_stage1 s));
  Some (mk_stats (s_pages_created s) (s_seal_entries s) (s_pages_full s)
    (s_user_bytes s) (s_disk_write s) (s_disk_read s) h (s_hist_full s) (s_hist_batch s)).

Definition nox_stats_reset (s : nox_stats) : nox_stats := stats_zero.

(** * The report *)

(** The figures of one printed line: integers as they are, a ratio as its two operands (the
    floating-point division and the formatting are not modelled). *)
Inductive stat_line :=
| LHeader (header_size entries zone : Z)
| LCrossover (num den : Z)
| LPagesCreated (n : Z)
| LSealed (n num den : Z)
| LFull (n num den : Z)
| LUserBytes (n : Z)
| LDiskWritten (n : Z)
| LDiskRead (n : Z)
| LWriteAmp (num den : Z)
| LReadAmp (num den : Z)
| LNeverEngaged (high : Z)
| LStalls (n : Z)
| LTotalStall (ns : Z)
| LMeanStall (num den : Z)
| LHistEmpty
| LHist (samples : Z) (rows : list (Z * Z))
| LBatches (singles t3 pages cap : Z).

(** The nonzero cells of a histogram with their indices. *)
Fixpoint hist_rows (i : Z) (h : list Z) : list (Z * Z) :=
  match h with
  | [] => []
  | v :: r => if v =? 0 then hist_rows (i + 1) r else (i, v) :: hist_rows (i + 1) r
  end.

Definition print_hist (h : list Z) (total : Z) : stat_line :=
  if total =? 0 then LHistEmpty else LHist total (hist_rows 0 h).

Fixpoint hist_total (h : list Z) : Z :=
  match h with
  | [] => 0
  | v :: r => u64 (v + hist_total r)
  end.

(** The sum of index times cell, in [uint64_t]. *)
Fixpoint hist_weight (i : Z) (h : list Z) : Z :=
  match h with
  | [] => 0
  | v :: r => u64 (u64 (i * v) + hist_weight (i + 1) r)
  end.

Definition nox_stats_dump (s : nox_stats) (w : watermark) : list stat_line :=
  let bc := nox_watermark_blocked_count w in
  let bn := nox_watermark_blocked_ns w in
  let t1 := hist_total (s_hist_stage1 s) in
  let t2 := hist_total (s_hist_full s) in
  let t3 := hist_total (s_hist_batch s) in
  [LHeader NOX_HEADER_SIZE NOX_MAX_ENTRIES NOX_DATAZONE_SIZE;
   LCrossover NOX_DATAZONE_SIZE NOX_MAX_ENTRIES;
   LPagesCreated (s_pages_created s)] ++
  (if 0 <? s_pages_created s then
     [LSealed (s_seal_entries s) (s_seal_entries s) (s_pages_created s);
      LFull (s_pages_full s) (s_pages_full s) (s_pages_created s)] else []) ++
  [LUserBytes (s_user_bytes s); LDiskWritten (s_disk_write s); LDiskRead (s_disk_read s)] ++
  (if 0 <? s_user_bytes s then
     [LWriteAmp (s_disk_write s) (s_user_bytes s); LReadAmp (s_disk_read s) (s_user_bytes s)]
   else []) ++
  (if bc =? 0 then [LNeverEngaged NOX_WATERMARK_HIGH]
   else [LStalls bc; LTotalStall bn; LMeanStall bn bc]) ++
  [print_hist (s_hist_stage1 s) t1; print_hist (s_hist_full s) t2;
   print_hist (s_hist_batch s) t3] ++
  (if 0 <? t3 then
     [LBatches (default 0 (s_hist_batch s !! 1%nat)) t3 (hist_weight 0 (s_hist_batch s))
        NOX_PWRITEV_MAX_IOV] else []).

(** * Events *)

(** One call of a hook, with the [uint32_t] or [uint64_t] argument it takes. *)
Inductive stat_event :=
| EvPageCreated
| EvSealEntries
| EvUserBytes (n : Z)
| EvDiskWrite (n : Z)
| EvDiskRead (n : Z)
| EvPageFull (entries : Z)
| EvStage2Batch (n : Z)
| EvStage1 (entries : Z).

Definition run_event (s : nox_stats) (e : stat_event) : option nox_stats :=
  match e with
  | EvPageCreated => Some (nox_stat_page_created s)
  | EvSealEntries => Some (nox_stat_seal_entries s)
  | EvUserBytes n => Some (nox_stat_user_bytes n s)
  | EvDiskWrite n => Some (nox_stat_disk_write n s)
  | EvDiskRead n => Some (nox_stat_disk_read n s)
  | EvPageFull e => nox_stat_page_full e s
  | EvStage2Batch n => nox_stat_stage2_batch n s
  | EvStage1 e => nox_stat_entries_at_stage1 e s
  end.

Fixpoint run_events (s : nox_stats) (es : list stat_event) : option nox_stats :=
  match es with
  | [] => Some s
  | e :: r => s ← run_event s e; run_events s r
  end.

(** What an event adds to each scalar counter, and the cell it adds one to. *)
Definition adds_created (e : stat_event) : Z := match e with EvPageCreated => 1 | _ => 0 end.
Definition adds_sealed (e : stat_event) : Z := match e with EvSealEntries => 1 | _ => 0 end.
Definition adds_full (e : stat_event) : Z := match e with EvPageFull _ => 1 | _ => 0 end.
Definition adds_user (e : stat_event) : Z := match e with EvUserBytes n => n | _ => 0 end.
Definition adds_write (e : stat_event) : Z := match e with EvDiskWrite n => n | _ => 0 end.
Definition adds_read (e : stat_event) : Z := match e with EvDiskRead n => n | _ => 0 end.
Definition in_stage1 (i : nat) (e : stat_event) : Z :=
  match e with EvStage1 k => if k =? Z.of_nat i then 1 else 0 | _ => 0 end.
Definition in_full (i : nat) (e : stat_event) : Z :=
  match e with EvPageFull k => if k =? Z.of_nat i then 1 else 0 | _ => 0 end.
Definition in_batch (i : nat) (e : stat_event) : Z :=
  match e with EvStage2Batch k => if Z.min k NOX_PWRITEV_MAX_IOV =? Z.of_nat i then 1 else 0 | _ => 0 end.

Definition total (f : stat_event -> Z) (es : list stat_event) : Z :=
  foldr (fun e acc => f e + acc) 0 es.

Definition event_ok (e : stat_event) : Prop :=
  match e with
  | EvPageFull n | EvStage2Batch n | EvStage1 n => 0 <= n
  | _ => True
  end.

(** The cells of a histogram hold the number of events that fall in them. *)
Definition hist_is (f : nat -> stat_event -> Z) (n : nat) (h : list Z) (es : list stat_event)
  : Prop :=
  length h = n /\ forall i, (i < n)%nat -> h !! i = Some (u64 (total (f i) es)).

Definition stats_are (s : nox_stats) (es : list stat_event) : Prop :=
  s_pages_created s = u64 (total adds_created es) /\
  s_seal_entries s = u64 (total adds_sealed es) /\
  s_pages_full s = u64 (total adds_full es) /\
  s_user_bytes s = u64 (total adds_user es) /\
  s_disk_write s = u64 (total adds_write es) /\
  s_disk_read s = u64 (total adds_read es) /\
  hist_is in_stage1 (Z.to_nat (NOX_MAX_ENTRIES + 1)) (s_hist_stage1 s) es /\
  hist_is in_full (Z.to_nat (NOX_MAX_ENTRIES + 1)) (s_hist_full s) es /\
  hist_is in_batch (Z.to_nat (NOX_PWRITEV_MAX_IOV + 1)) (s_hist_batch s) es.

Lemma total_snoc f es e : total f (es ++ [e]) = total f es + f e.
Proof. unfold total. induction es as [|d es IH]; cbn in *; lia. Qed.

Lemma bump_total f es e x n :
  x = u64 (total f es) -> f e = n -> bump x n = u64 (total f (es ++ [e])).
Proof. intros -> <-. unfold bump. by rewrite u64_add_l, total_snoc. Qed.

Lemma same_total f es e x :
  x = u64 (total f es) -> f e = 0 -> x = u64 (total f (es ++ [e])).
Proof. intros -> He. by rewrite total_snoc, He, Z.add_0_r. Qed.

Lemma hist_same f n h es e :
  hist_is f n h es -> (forall i, (i < n)%nat -> f i e = 0) -> hist_is f n h (es ++ [e]).
Proof.
  intros [Hl Hh] He. split; [done|]. intros i Hi. rewrite total_snoc, He, Z.add_0_r by done. auto.
Qed.

Lemma hist_bump f n h es e k :
  hist_is f n h es -> 0 <= k < Z.of_nat n ->
  (forall i, (i < n)%nat -> f i e = if k =? Z.of_nat i then 1 else 0) ->
  exists h', bump_hist h k = Some h' /\ hist_is f n h' (es ++ [e]).
Proof.
  intros [Hl Hh] Hk He. unfold bump_hist. rewrite Hh by lia. cbn. eexists. split; [done|].
  split; [by rewrite length_insert|]. intros i Hi. rewrite total_snoc, He by done.
  destruct (decide (i = Z.to_nat k)) as [->|Hne].
  - rewrite list_lookup_insert_eq by lia. unfold bump. rewrite u64_add_l.
    destruct (k =? _) eqn:E; [done|lia].
  - rewrite list_lookup_insert_ne by done. rewrite Hh by done.
    destruct (k =? _) eqn:E; [lia|]. by rewrite Z.add_0_r.
Qed.

Lemma in_full_above e i : NOX_MAX_ENTRIES < e -> (i < Z.to_nat (NOX_MAX_ENTRIES + 1))%nat ->
  (if e =? Z.of_nat i then 1 else 0) = 0.
Proof. intros He Hi. destruct (e =? _) eqn:E; lia. Qed.

Lemma run_event_counts s es e :
  stats_are s es -> event_ok e -> exists s', run_event s e = Some s' /\ stats_are s' (es ++ [e]).
Proof.
  pose proof NOX_MAX_ENTRIES_range as Hmax.
  intros (H1 & H2 & H3 & H4 & H5 & H6 & H7 & H8 & H9) Hok.
  destruct e as [| |n|n|n|k|k|k]; cbn [run_event]; cbn in Hok.
  1-5: eexists; split; [done|]; unfold stats_are; cbn; split_and!;
    first [by apply same_total|by apply hist_same|by apply bump_total].
  - unfold nox_stat_page_full. destruct (k <=? NOX_MAX_ENTRIES) eqn:E.
    + destruct (hist_bump _ _ _ es (EvPageFull k) k H8) as (h & -> & Hh); [lia|done|].
      eexists; split; [done|]; unfold stats_are; cbn; split_and!;
        first [by apply same_total|by apply hist_same|done|by apply bump_total].
    + eexists; split; [done|]; unfold stats_are; cbn; split_and!;
        first [by apply same_total|by apply hist_same|by apply bump_total|idtac].
      apply hist_same; [done|]. intros i Hi. cbn. apply in_full_above; lia.
  - unfold nox_stat_stage2_batch.
    destruct (hist_bump _ _ _ es (EvStage2Batch k)
      (if NOX_PWRITEV_MAX_IOV <? k then NOX_PWRITEV_MAX_IOV else k) H9) as (h & -> & Hh).
    + unfold NOX_PWRITEV_MAX_IOV. destruct (8 <? k) eqn:E; lia.
    + intros i _. unfold in_batch. replace (Z.min k NOX_PWRITEV_MAX_IOV)
        with (if NOX_PWRITEV_MAX_IOV <? k then NOX_PWRITEV_MAX_IOV else k); [done|].
      destruct (NOX_PWRITEV_MAX_IOV <? k) eqn:E; lia.
    + eexists; split; [done|]; unfold stats_are; cbn; split_and!;
        first [by apply same_total|by apply hist_same|done].
  - unfold nox_stat_entries_at_stage1. destruct (k <=? NOX_MAX_ENTRIES) eqn:E.
    + destruct (hist_bump _ _ _ es (EvStage1 k) k H7) as (h & -> & Hh); [lia|done|].
      eexists; split; [done|]; unfold stats_are; cbn; split_and!;
        first [by apply same_total|by apply hist_same|done].
    + eexists; split; [done|]; unfold stats_are; cbn; split_and!;
        first [by apply same_total|by apply hist_same|idtac].
      apply hist_same; [done|]. intros i Hi. cbn. apply in_full_above; lia.
Qed.

Lemma stats_zero_are : stats_are stats_zero [].
Proof.
  unfold stats_are, hist_is. cbn [stats_zero s_pages_created s_seal_entries s_pages_full
    s_user_bytes s_disk_write s_disk_read s_hist_stage1 s_hist_full s_hist_batch].
  split_and!; try done; try apply length_replicate; intros i Hi; by apply lookup_replicate_2.
Qed.

Lemma run_events_app s es1 es2 :
  run_events s (es1 ++ es2) = (s ← run_events s es1; run_events s es2).
Proof.
  revert s. induction es1 as [|e es1 IH]; intros s; cbn; [done|].
  destruct (run_event s e); cbn; [apply IH|done].
Qed.

(** The arrays keep their sizes, so that no hook leaves them. *)
Definition stats_wf (s : nox_stats) : Prop :=
  length (s_hist_stage1 s) = Z.to_nat (NOX_MAX_ENTRIES + 1) /\
  length (s_hist_full s) = Z.to_nat (NOX_MAX_ENTRIES + 1) /\
  length (s_hist_batch s) = Z.to_nat (NOX_PWRITEV_MAX_IOV + 1).

Lemma bump_hist_ok h n i :
  length h = Z.to_nat (n + 1) -> 0 <= i <= n ->
  exists h', bump_hist h i = Some h' /\ length h' = length h.
Proof.
  intros Hl Hi. unfold bump_hist. destruct (lookup_lt_is_Some_2 h (Z.to_nat i)) as [c ->]; [lia|].
  cbn. eexists. split; [done|]. apply length_insert.
Qed.

Lemma run_event_ok s e :
  stats_wf s -> event_ok e -> exists s', run_event s e = Some s' /\ stats_wf s'.
Proof.
  intros (H1 & H2 & H3) He. pose proof NOX_MAX_ENTRIES_range as Hm.
  destruct e as [| |n|n|n|k|k|k]; cbn [run_event]; cbn in He; try by eexists.
  - unfold nox_stat_page_full. destruct (k <=? NOX_MAX_ENTRIES) eqn:E; [|by eexists].
    destruct (bump_hist_ok (s_hist_full s) NOX_MAX_ENTRIES k) as (h & -> & Hh); [done|lia|].
    cbn. eexists. split; [done|]. unfold stats_wf. cbn. by rewrite Hh.
  - unfold nox_stat_stage2_batch.
    destruct (bump_hist_ok (s_hist_batch s) NOX_PWRITEV_MAX_IOV
      (if NOX_PWRITEV_MAX_IOV <? k then NOX_PWRITEV_MAX_IOV else k)) as (h & -> & Hh); [done| |].
    + unfold NOX_PWRITEV_MAX_IOV. destruct (8 <? k) eqn:E; lia.
    + cbn. eexists. split; [done|]. unfold stats_wf. cbn. by rewrite Hh.
  - unfold nox_stat_entries_at_stage1. destruct (k <=? NOX_MAX_ENTRIES) eqn:E; [|by eexists].
    destruct (bump_hist_ok (s_hist_stage1 s) NOX_MAX_ENTRIES k) as (h & -> & Hh); [done|lia|].
    cbn. eexists. split; [done|]. unfold stats_wf. cbn. by rewrite Hh.
Qed.

End Hooks.

(** C37: The statistics count what happened. From a reset, any sequence of hook calls (the
    [uint32_t] arguments of any size) never indexes a histogram out of range, every scalar
    counter is the 64-bit sum of its events, and every histogram cell is the number of events
    that fall in it: an entry count above [NOX_MAX_ENTRIES] is dropped from the histograms
    only, and a batch above the iovec cap is counted at the cap. *)
Theorem stats_count_events `{NoxConfig} (s0 : nox_stats) (es : list stat_event) :
  Forall event_ok es ->
  exists s, run_events (nox_stats_reset s0) es = Some s /\ stats_are s es.
Proof.
  unfold nox_stats_reset. induction es as [|e es IH] using rev_ind.
  - intros _. exists stats_zero. split; [done|]. apply stats_zero_are.
  - intros [Hes He]%Forall_app. destruct (IH Hes) as (s & E & Hs).
    apply Forall_cons in He as [He _]. destruct (run_event_counts s es e Hs He) as (s' & E' & Hs').
    exists s'. split; [|done]. rewrite run_events_app, E. cbn. by rewrite E'.
Qed.

Lemma stats_count_events_witness :
  exists s, run_events (H := default_config) (nox_stats_reset (H := default_config)
      (stats_zero (H := default_config)))
      [EvPageCreated; EvStage2Batch 3; EvStage2Batch 99; EvPageFull 300; EvDiskWrite 262144]
    = Some s /\
    s_hist_batch s = [0; 0; 0; 1; 0; 0; 0; 0; 1] /\ s_pages_full s = 1 /\ s_disk_write s = 262144.
Proof.
  destruct (stats_count_events (H := default_config) (stats_zero (H := default_config))
      [EvPageCreated; EvStage2Batch 3; EvStage2Batch 99; EvPageFull 300; EvDiskWrite 262144])
    as (s & E & Hs); [repeat constructor; cbn; lia|].
  exists s. split; [exact E|]. clear Hs. vm_compute in E. injection E as <-. done.
Defined.
