(* ===== verification/Otflush.v ===== *)
(** The two-stage flusher of [src/src/otflush.c]: its state, the accounting and the writeback
    ordering guard, the two enqueue operations, and the bodies of the Stage-1 and Stage-2
    threads as transition functions, one transition per critical section or system call. *)
From stdpp Require Import base numbers list gmap sets.
From Corelib Require Import Init.Byte.
From S2P Require Import Prelude Config Segments IoDirect Watermark ScrapPage Heap Queue.
From S2P Require Import PageIndex Stats.

(** * State *)

(** [idx] and [fd] are the index and the file of the shared state below; the condition
    variables and thread handles have no contents. *)
Record otflush := mk_ot {
  q1 : nox_queue;
  q2 : nox_queue;
  s1_n : Z;
  s2_n : Z;
  bcount : Z;
  pending : Z;
  io_err : Z;
  stopping : bool;
  wb : list Z;
  deep_noticed : bool
}.

Definition set_q1 (q : nox_queue) (o : otflush) : otflush :=
  mk_ot q (q2 o) (s1_n o) (s2_n o) (bcount o) (pending o) (io_err o) (stopping o) (wb o)
        (deep_noticed o).
Definition set_q2 (q : nox_queue) (o : otflush) : otflush :=
  mk_ot (q1 o) q (s1_n o) (s2_n o) (bcount o) (pending o) (io_err o) (stopping o) (wb o)
        (deep_noticed o).
Definition set_bcount (n : Z) (o : otflush) : otflush :=
  mk_ot (q1 o) (q2 o) (s1_n o) (s2_n o) n (pending o) (io_err o) (stopping o) (wb o)
        (deep_noticed o).
Definition set_pending (n : Z) (o : otflush) : otflush :=
  mk_ot (q1 o) (q2 o) (s1_n o) (s2_n o) (bcount o) n (io_err o) (stopping o) (wb o)
        (deep_noticed o).
Definition set_io_err (e : Z) (o : otflush) : otflush :=
  mk_ot (q1 o) (q2 o) (s1_n o) (s2_n o) (bcount o) (pending o) e (stopping o) (wb o)
        (deep_noticed o).
Definition set_stopping (b : bool) (o : otflush) : otflush :=
  mk_ot (q1 o) (q2 o) (s1_n o) (s2_n o) (bcount o) (pending o) (io_err o) b (wb o)
        (deep_noticed o).
Definition set_wb (l : list Z) (o : otflush) : otflush :=
  mk_ot (q1 o) (q2 o) (s1_n o) (s2_n o) (bcount o) (pending o) (io_err o) (stopping o) l
        (deep_noticed o).
Definition set_deep (b : bool) (o : otflush) : otflush :=
  mk_ot (q1 o) (q2 o) (s1_n o) (s2_n o) (bcount o) (pending o) (io_err o) (stopping o) (wb o) b.

(** What the engine prints to [stderr]. *)
Inductive message :=
| MsgIo (d : diag)
| MsgThrottled (queue_no : Z) (depth mb high : Z)
| MsgUnbounded (queue_no : Z) (depth mb high : Z)
| MsgScratch.

(** * The writeback ordering guard *)

Definition wb_slot (b : Z) : Z :=
  let page_no := b / NOX_DATAZONE_SIZE in
  u32 (Z.shiftr (u64 (page_no * FIB_MULT)) (64 - NOX_WB_GUARD_BITS)).

(** [None] is an access outside the slot array. *)
Definition wb_guard_enter (o : otflush) (b : Z) : option otflush :=
  c ← wb o !! Z.to_nat (wb_slot b);
  Some (set_wb (<[Z.to_nat (wb_slot b) := u32 (c + 1)]> (wb o)) o).

Definition wb_guard_leave (o : otflush) (b : Z) : option otflush :=
  c ← wb o !! Z.to_nat (wb_slot b);
  Some (if 0 <? c then set_wb (<[Z.to_nat (wb_slot b) := c - 1]> (wb o)) o else o).

(** The condition of the wait loop of [wb_guard_wait]: keep waiting. *)
Definition wb_guard_blocked (o : otflush) (b : Z) : option bool :=
  c ← wb o !! Z.to_nat (wb_slot b); Some (0 <? c).

(** The absolute deadline of the two timed waits: now plus 1 ms, normalised. *)
Definition backstop (tv_sec tv_nsec : Z) : Z * Z :=
  let tv_nsec := tv_nsec + 1000000 in
  if 1000000000 <=? tv_nsec then (tv_sec + 1, tv_nsec - 1000000000) else (tv_sec, tv_nsec).

(** * Accounting *)

Definition ssd_is_busy (o : otflush) : bool := NOX_BCOUNT_BUSY_THRESHOLD <=? bcount o.
Definition bcount_add (o : otflush) (bytes : Z) : otflush := set_bcount (u64 (bcount o + bytes)) o.
Definition bcount_sub (o : otflush) (bytes : Z) : otflush := set_bcount (u64 (bcount o - bytes)) o.

(** Whether [wait_not_busy] sleeps at all. *)
Definition wait_not_busy (o : otflush) : bool := negb (stopping o).

Definition pending_inc (o : otflush) : otflush := set_pending (u64 (pending o + 1)) o.

(** The boolean is the broadcast on [idle]. *)
Definition pending_dec (o : otflush) : otflush * bool :=
  let o := set_pending (u64 (pending o - 1)) o in (o, pending o =? 0).

Definition latch_io_error (o : otflush) : otflush := set_io_err (-1) o.

(** [high] is the build's [NOX_WATERMARK_HIGH]. *)
Definition warn_if_deep (o : otflush) (q : nox_queue) (queue_no : Z) : otflush * list message :=
  let d := nox_queue_depth q in
  if d <? NOX_QUEUE_WARN_DEPTH then (o, [])
  else if deep_noticed o then (o, [])
  else
    let mb := Z.shiftr (u64 (d * NOX_DATAZONE_SIZE)) 20 in
    (set_deep true o,
     [if NOX_WATERMARK_HIGH <=? d then MsgThrottled queue_no d mb NOX_WATERMARK_HIGH
      else MsgUnbounded queue_no d mb NOX_WATERMARK_HIGH]).

(** * Enqueue *)

Definition tag_page (t : Z) (p : scrap_page) : scrap_page := set_hdr (set_tag t (hdr p)) p.

Definition otflush_enqueue_partial (h : heap) (o : otflush) (a : addr)
  : option (heap * otflush * list message) :=
  p ← h !! a;
  if in_queue p then Some (h, o, [])
  else
    h ← store a (set_in_queue true) h;
    let o := pending_inc o in
    '(h, q) ← nox_queue_push h (q1 o) a;
    let o := set_q1 q o in
    let '(o, m) := warn_if_deep o (q1 o) 1 in
    Some (h, o, m).

Definition otflush_enqueue_full (h : heap) (o : otflush) (a : addr)
  : option (heap * otflush * list message) :=
  h ← store a (tag_page NOX_TAG_FULL) h;
  p ← h !! a;
  if in_queue p then Some (h, o, [])
  else
    h ← store a (set_in_queue true) h;
    let o := pending_inc o in
    o ← wb_guard_enter o (base p);
    '(h, q) ← nox_queue_push h (q2 o) a;
    let o := set_q2 q o in
    let '(o, m) := warn_if_deep o (q2 o) 2 in
    Some (h, o, m).

(** * The shared state *)

(** Everything the threads of one engine share: the allocated pages, the index, the flusher,
    the process-wide gate and statistics, the open file, and the lines printed. *)
Record shared (S : Type) := mk_shared {
  sh_heap : heap;
  sh_idx : page_index;
  sh_ot : otflush;
  sh_wm : watermark;
  sh_os : S;
  sh_stats : nox_stats;
  sh_log : list message
}.
Arguments mk_shared {S}.
Arguments sh_heap {S}.
Arguments sh_idx {S}.
Arguments sh_ot {S}.
Arguments sh_wm {S}.
Arguments sh_os {S}.
Arguments sh_stats {S}.
Arguments sh_log {S}.

Section Shared.
Context {S : Type}.

Definition with_heap (h : heap) (s : shared S) : shared S :=
  mk_shared h (sh_idx s) (sh_ot s) (sh_wm s) (sh_os s) (sh_stats s) (sh_log s).
Definition with_idx (i : page_index) (s : shared S) : shared S :=
  mk_shared (sh_heap s) i (sh_ot s) (sh_wm s) (sh_os s) (sh_stats s) (sh_log s).
Definition with_ot (o : otflush) (s : shared S) : shared S :=
  mk_shared (sh_heap s) (sh_idx s) o (sh_wm s) (sh_os s) (sh_stats s) (sh_log s).
Definition with_wm (w : watermark) (s : shared S) : shared S :=
  mk_shared (sh_heap s) (sh_idx s) (sh_ot s) w (sh_os s) (sh_stats s) (sh_log s).
Definition with_os (x : S) (s : shared S) : shared S :=
  mk_shared (sh_heap s) (sh_idx s) (sh_ot s) (sh_wm s) x (sh_stats s) (sh_log s).
Definition with_stats (t : nox_stats) (s : shared S) : shared S :=
  mk_shared (sh_heap s) (sh_idx s) (sh_ot s) (sh_wm s) (sh_os s) t (sh_log s).
Definition print (m : list message) (s : shared S) : shared S :=
  mk_shared (sh_heap s) (sh_idx s) (sh_ot s) (sh_wm s) (sh_os s) (sh_stats s) (sh_log s ++ m).

(** Pushing on a queue of the flusher. *)
Definition push_q1 (a : addr) (s : shared S) : option (shared S) :=
  '(h, q) ← nox_queue_push (sh_heap s) (q1 (sh_ot s)) a;
  Some (with_ot (set_q1 q (sh_ot s)) (with_heap h s)).
Definition push_q2 (a : addr) (s : shared S) : option (shared S) :=
  '(h, q) ← nox_queue_push (sh_heap s) (q2 (sh_ot s)) a;
  Some (with_ot (set_q2 q (sh_ot s)) (with_heap h s)).

End Shared.

(** * Stage-1 *)

(** Where the Stage-1 thread is in its loop. A page is named by its address; [b] is its base,
    read under the page lock; [holes] is the snapshot of its hole ranges. *)
Inductive s1_ctl :=
| S1Pop
| S1Examine (a : addr)
| S1ForwardEnter (a : addr) (b : Z)
| S1ForwardPush (a : addr)
| S1Requeue (a : addr)
| S1Park
| S1GuardWait (a : addr) (b : Z) (holes : list scrap_entry)
| S1ReadBegin (a : addr) (b : Z) (holes : list scrap_entry)
| S1Read (a : addr) (b : Z) (holes : list scrap_entry)
| S1ReadEnd (a : addr) (b : Z) (rc : option Z)
| S1Apply (a : addr) (b : Z) (rc : option Z)
| S1DropDec
| S1Enter (a : addr) (b : Z)
| S1Push (a : addr)
| S1Exit.

(** The thread with its scratch zone, allocated once for its lifetime. *)
Record s1_thread := mk_s1 { s1_at : s1_ctl; s1_scratch : buf; s1_saddr : Z }.

Section Stage1.
Context `{NoxConfig} {S : Type} `{Posix S}.

(** The prologue: the scratch allocation, whose failure ends the thread. *)
Definition stage1_start (s : shared S) (junk : buf) : shared S * s1_thread :=
  match posix_memalign (sh_os s) NOX_BLOCK_SIZE NOX_DATAZONE_SIZE with
  | Some saddr => (s, mk_s1 S1Pop junk saddr)
  | None =>
      (print [MsgScratch] (with_ot (latch_io_error (sh_ot s)) s), mk_s1 S1Exit junk 0)
  end.

(** One transition of the thread; a blocked thread stays where it is, and [None] is undefined
    behaviour (a dangling pointer, an access out of bounds). *)
Definition stage1_step (s : shared S) (t : s1_thread) : option (shared S * s1_thread) :=
  let go c s := Some (s, mk_s1 c (s1_scratch t) (s1_saddr t)) in
  match s1_at t with
  | S1Pop =>
      '(r, h, q) ← nox_queue_pop (sh_heap s) (q1 (sh_ot s));
      let s := with_ot (set_q1 q (sh_ot s)) (with_heap h s) in
      match r with
      | PopBlocked => go S1Pop s
      | PopGot (Some a) => go (S1Examine a) s
      | PopGot None => go S1Exit s
      end
  | S1Examine a =>
      p ← sh_heap s !! a;
      if scrap_page_is_full p then go (S1ForwardEnter a (base p)) s
      else if ssd_is_busy (sh_ot s) then go (S1Requeue a) s
      else
        let holes := scrap_page_hole_ranges p (NOX_MAX_ENTRIES + 1) in
        st ← nox_stat_entries_at_stage1 (number (hdr p)) (sh_stats s);
        go (S1GuardWait a (base p) holes) (with_stats st s)
  | S1ForwardEnter a b => o ← wb_guard_enter (sh_ot s) b; go (S1ForwardPush a) (with_ot o s)
  | S1ForwardPush a => s ← push_q2 a s; go S1Pop s
  | S1Requeue a => s ← push_q1 a s; go S1Park s
  | S1Park => go S1Pop s
  | S1GuardWait a b holes =>
      blocked ← wb_guard_blocked (sh_ot s) b;
      if (blocked : bool) then go (S1GuardWait a b holes) s else go (S1ReadBegin a b holes) s
  | S1ReadBegin a b holes =>
      go (S1Read a b holes) (with_ot (bcount_add (sh_ot s) NOX_DATAZONE_SIZE) s)
  | S1Read a b holes =>
      '(rc, scratch, x, log) ←
        scrap_page_read_holes b (sh_os s) holes (s1_saddr t) (s1_scratch t);
      Some (print (MsgIo <$> log) (with_os x s), mk_s1 (S1ReadEnd a b rc) scratch (s1_saddr t))
  | S1ReadEnd a b rc =>
      let s := with_ot (bcount_sub (sh_ot s) NOX_DATAZONE_SIZE) s in
      go (S1Apply a b rc) (with_stats (nox_stat_disk_read (default 0 rc) (sh_stats s)) s)
  | S1Apply a b (Some _) =>
      p ← sh_heap s !! a;
      p ← scrap_page_apply_holes p (s1_scratch t);
      go (S1Enter a b) (with_heap (<[a := tag_page NOX_TAG_FULL p]> (sh_heap s)) s)
  | S1Apply a b None =>
      let s := with_ot (latch_io_error (sh_ot s)) s in
      h ← store a (set_in_queue false) (sh_heap s);
      go S1DropDec (with_heap h s)
  | S1DropDec => go S1Pop (with_ot (pending_dec (sh_ot s)).1 s)
  | S1Enter a b => o ← wb_guard_enter (sh_ot s) b; go (S1Push a) (with_ot o s)
  | S1Push a => s ← push_q2 a s; go S1Pop s
  | S1Exit => go S1Exit s
  end.

End Stage1.

(** * Stage-2 *)

(** Where the Stage-2 thread is: [batch] is the pages collected so far, [rest] the suffix of
    the batch still to be processed by the current [for] loop. *)
Inductive s2_ctl :=
| S2Pop
| S2Busy (a : addr)
| S2Park
| S2Collect (batch : list addr)
| S2Ready (batch : list addr) (nx : addr)
| S2Repush (batch : list addr) (nx : addr)
| S2Sample (batch : list addr)
| S2Detach (batch rest : list addr)
| S2Mark (batch rest : list addr)
| S2WriteBegin (batch : list addr)
| S2Write (batch : list addr)
| S2WriteEnd (batch : list addr) (ok : bool)
| S2Latch (batch : list addr) (ok : bool)
| S2Free (rest : list addr)
| S2Leave (b : Z) (rest : list addr)
| S2Dec (rest : list addr)
| S2Exit.

Section Stage2.
Context `{NoxConfig} {S : Type} `{Posix S}.

(** The bytes one writeback covers. *)
Definition batch_bytes (batch : list addr) : Z := Z.of_nat (length batch) * NOX_DATAZONE_SIZE.

(** The gather list of a batch. *)
Fixpoint batch_iov (h : heap) (batch : list addr) : option (list iovec) :=
  match batch with
  | [] => Some []
  | a :: r =>
      p ← h !! a; v ← batch_iov h r;
      Some (mk_iov (data_addr p) (data p) NOX_DATAZONE_SIZE :: v)
  end.

(** The write of a batch: one page by [scrap_page_writeback], more by one gather write. *)
Definition stage2_write (h : heap) (x : S) (batch : list addr) : option (bool * S * list diag) :=
  match batch with
  | [a] => p ← h !! a; scrap_page_writeback p x
  | a :: _ =>
      p ← h !! a; iov ← batch_iov h batch;
      '(w, x, log) ← io_direct_pwritev_all x iov (s64 (base p));
      Some (bool_decide (w = SysOk (batch_bytes batch)), x, log)
  | [] => None
  end.

(** First half of [stage2_detach], with no lock held. *)
Definition stage2_unlink (s : shared S) (a : addr) : option (shared S) :=
  p ← sh_heap s !! a;
  if detached p then Some s
  else
    '(_, h, i) ← page_index_detach_if (sh_heap s) (sh_idx s) (base p) a;
    h ← store a (set_detached true) h;
    Some (with_idx i (with_heap h s)).

(** Second half, under the page lock. *)
Definition stage2_mark (s : shared S) (a : addr) : option (shared S) :=
  h ← store a (fun p => set_in_queue false (tag_page NOX_TAG_FLUSHING p)) (sh_heap s);
  Some (with_heap h s).

(** One iteration of the loop of [stage2_collect]: stop, or claim the page of the next base. *)
Definition stage2_claim (s : shared S) (batch : list addr)
  : option (option addr * shared S) :=
  if Z.of_nat (length batch) <? NOX_PWRITEV_MAX_IOV then
    first ← list.head batch;
    p ← sh_heap s !! first;
    let want := u64 (base p + Z.of_nat (length batch) * NOX_DATAZONE_SIZE) in
    '(nx, h, q) ← nox_queue_pop_if_base (sh_heap s) (q2 (sh_ot s)) want;
    Some (nx, with_ot (set_q2 q (sh_ot s)) (with_heap h s))
  else Some (None, s).

Definition stage2_step (s : shared S) (c : s2_ctl) : option (shared S * s2_ctl) :=
  let go c s := Some (s, c) in
  match c with
  | S2Pop =>
      '(r, h, q) ← nox_queue_pop (sh_heap s) (q2 (sh_ot s));
      let s := with_ot (set_q2 q (sh_ot s)) (with_heap h s) in
      match r with
      | PopBlocked => go S2Pop s
      | PopGot (Some a) => go (S2Busy a) s
      | PopGot None => go S2Exit s
      end
  | S2Busy a =>
      if ssd_is_busy (sh_ot s) then s ← push_q2 a s; go S2Park s else go (S2Collect [a]) s
  | S2Park => go S2Pop s
  | S2Collect batch =>
      '(nx, s) ← stage2_claim s batch;
      match nx with
      | Some a => go (S2Ready batch a) s
      | None => go (S2Sample batch) s
      end
  | S2Ready batch nx =>
      p ← sh_heap s !! nx;
      if scrap_page_is_full p || (tag (hdr p) =? NOX_TAG_FULL)
      then go (S2Collect (batch ++ [nx])) s else go (S2Repush batch nx) s
  | S2Repush batch nx => s ← push_q2 nx s; go (S2Sample batch) s
  | S2Sample batch =>
      st ← nox_stat_stage2_batch (Z.of_nat (length batch)) (sh_stats s);
      go (S2Detach batch batch) (with_stats st s)
  | S2Detach batch [] => go (S2WriteBegin batch) s
  | S2Detach batch (a :: r) => s ← stage2_unlink s a; go (S2Mark batch (a :: r)) s
  | S2Mark batch [] => go (S2WriteBegin batch) s
  | S2Mark batch (a :: r) => s ← stage2_mark s a; go (S2Detach batch r) s
  | S2WriteBegin batch =>
      go (S2Write batch) (with_ot (bcount_add (sh_ot s) (batch_bytes batch)) s)
  | S2Write batch =>
      '(ok, x, log) ← stage2_write (sh_heap s) (sh_os s) batch;
      go (S2WriteEnd batch ok) (print (MsgIo <$> log) (with_os x s))
  | S2WriteEnd batch ok =>
      let s := with_ot (bcount_sub (sh_ot s) (batch_bytes batch)) s in
      go (S2Latch batch ok)
         (with_stats (nox_stat_disk_write (batch_bytes batch) (sh_stats s)) s)
  | S2Latch batch ok =>
      go (S2Free batch) (if ok then s else with_ot (latch_io_error (sh_ot s)) s)
  | S2Free [] => go S2Pop s
  | S2Free (a :: r) =>
      p ← sh_heap s !! a;
      '(h, w, _) ← scrap_page_free (sh_heap s) (sh_wm s) (Some a);
      go (S2Leave (base p) r) (with_wm w (with_heap h s))
  | S2Leave b r => o ← wb_guard_leave (sh_ot s) b; go (S2Dec r) (with_ot o s)
  | S2Dec r => go (S2Free r) (with_ot (pending_dec (sh_ot s)).1 s)
  | S2Exit => go S2Exit s
  end.

End Stage2.

(** * Lifecycle *)

(** The outcome of the fallible calls of [otflush_start]. *)
Record start_env := mk_start_env {
  se_calloc : bool;
  se_mutex : bool;
  se_idle : bool;
  se_not_busy : bool;
  se_wb_done : bool;
  se_q1 : queue_env;
  se_q2 : queue_env;
  se_threads : nat -> bool
}.

(** The resources [otflush_start] acquires, to check that a failure releases them all. *)
Inductive ot_resource :=
| RMem | RMutex | RIdle | RNotBusy | RWbDone
| RQ1 (r : q_resource) | RQ2 (r : q_resource)
| RThread (i : nat).
#[export] Instance ot_resource_eq_dec : EqDecision ot_resource.
Proof. solve_decision. Defined.

(** The thread-creation loops: how many of [n] threads from the [i]-th started, and whether
    all did. *)
Fixpoint start_threads (ok : nat -> bool) (i n : nat) : nat * bool :=
  match n with
  | O => (O, true)
  | S n => if ok i then let '(k, all) := start_threads ok (S i) n in (S k, all) else (O, false)
  end.

Definition ot_initial (s1 s2 : Z) : otflush :=
  mk_ot queue_empty queue_empty s1 s2 0 0 0 false
    (replicate (Z.to_nat NOX_WB_GUARD_SLOTS) 0) false.

(** What the labels of the unwinding release, each falling through to the next. *)
Definition fail_mtx : list ot_resource := [RMutex; RMem].
Definition fail_idle : list ot_resource := RIdle :: fail_mtx.
Definition fail_not_busy : list ot_resource := RNotBusy :: fail_idle.
Definition fail_q (q1 q2 : option nox_queue) : list ot_resource :=
  (RQ1 <$> nox_queue_destroy q1) ++ (RQ2 <$> nox_queue_destroy q2) ++ RWbDone :: fail_not_busy.

(** A failed start, after [rs] are released of what is held. *)
Definition start_fails (rs held : list ot_resource) : option (option otflush * list ot_resource) :=
  held ← take_out_all rs held; Some (None, held).

(** The result, and the resources still held on return; joining a thread releases it. [None]
    overall is the release of something that is not held. *)
Definition otflush_start (e : start_env) : option (option otflush * list ot_resource) :=
  if negb (se_calloc e) then Some (None, [])
  else if negb (se_mutex e) then start_fails [RMem] [RMem]
  else if negb (se_idle e) then start_fails fail_mtx [RMem; RMutex]
  else if negb (se_not_busy e) then start_fails fail_idle [RMem; RMutex; RIdle]
  else if negb (se_wb_done e) then start_fails fail_not_busy [RMem; RMutex; RIdle; RNotBusy]
  else
    let '(q1, rs1) := nox_queue_create (se_q1 e) in
    let '(q2, rs2) := nox_queue_create (se_q2 e) in
    let held := [RMem; RMutex; RIdle; RNotBusy; RWbDone] ++ (RQ1 <$> rs1) ++ (RQ2 <$> rs2) in
    match q1, q2 with
    | Some _, Some _ =>
      let '(k1, all1) := start_threads (se_threads e) 0 (Z.to_nat NOX_STAGE1_THREADS) in
      let '(k2, all2) :=
        if all1 then start_threads (se_threads e) (Z.to_nat NOX_STAGE1_THREADS)
                       (Z.to_nat NOX_STAGE2_THREADS)
        else (O, false) in
      let started := RThread <$> seq 0 (k1 + k2) in
      if all1 && all2
      then Some (Some (ot_initial (Z.of_nat k1) (Z.of_nat k2)), held ++ started)
      else start_fails (started ++ fail_q q1 q2) (held ++ started)
    | _, _ => start_fails (fail_q q1 q2) held
    end.

(** What [otflush_stop] releases, in its order: joining a thread releases it; [o] is the
    flusher, with the thread counts that [otflush_start] recorded. *)
Definition stop_join1 (o : otflush) : list ot_resource := RThread <$> seq 0 (Z.to_nat (s1_n o)).
Definition stop_join2 (o : otflush) : list ot_resource :=
  RThread <$> seq (Z.to_nat (s1_n o)) (Z.to_nat (s2_n o)).
Definition stop_destroy (o : otflush) : list ot_resource :=
  (RQ1 <$> nox_queue_destroy (Some (q1 o))) ++ (RQ2 <$> nox_queue_destroy (Some (q2 o))) ++
  [RWbDone; RNotBusy; RIdle; RMutex; RMem].

(** [otflush_drain]: blocked, or the latched error. *)
Definition otflush_drain (o : otflush) : option Z :=
  if 0 <? pending o then None else Some (io_err o).

(** * The guard as a multiset of bases *)

Lemma wb_slot_range b : 0 <= wb_slot b < NOX_WB_GUARD_SLOTS.
Proof.
  unfold wb_slot, NOX_WB_GUARD_SLOTS, NOX_WB_GUARD_BITS. rewrite Z.shiftr_div_pow2 by lia.
  pose proof (u64_range (b / NOX_DATAZONE_SIZE * FIB_MULT)) as Hr.
  set (x := u64 _) in *. change (Z.shiftl 1 13) with 8192. change (64 - 13) with 51.
  assert (0 <= x / 2 ^ 51 < 8192)
    by (split; [apply Z.div_pos|apply Z.div_lt_upper_bound]; lia).
  rewrite u32_small; lia.
Qed.

Definition slot_of (b : Z) : nat := Z.to_nat (wb_slot b).

Definition slot_count (k : nat) (bases : list Z) : Z :=
  Z.of_nat (length (filter (fun b => slot_of b = k) bases)).

(** The counters count the bases of the multiset that hash to them. *)
Definition wb_rep (w : list Z) (bases : list Z) : Prop :=
  length w = Z.to_nat NOX_WB_GUARD_SLOTS /\
  forall k, (k < Z.to_nat NOX_WB_GUARD_SLOTS)%nat -> w !! k = Some (slot_count k bases).

Lemma slot_of_lt b : (slot_of b < Z.to_nat NOX_WB_GUARD_SLOTS)%nat.
Proof. unfold slot_of. pose proof (wb_slot_range b). lia. Qed.

Lemma slot_count_cons k b bases :
  slot_count k (b :: bases) = slot_count k bases + (if decide (slot_of b = k) then 1 else 0).
Proof. unfold slot_count. rewrite filter_cons. case_decide; cbn; lia. Qed.

Lemma slot_count_bound k bases : 0 <= slot_count k bases <= Z.of_nat (length bases).
Proof. unfold slot_count. pose proof (length_filter (fun b => slot_of b = k) bases). lia. Qed.

#[export] Instance wb_rep_proper w : Proper (Permutation ==> iff) (wb_rep w).
Proof.
  assert (forall l1 l2, l1 ≡ₚ l2 -> wb_rep w l1 -> wb_rep w l2) as Himp.
  { intros l1 l2 Hp [Hl Hk]. split; [done|]. intros k Hlt. rewrite Hk by done.
    unfold slot_count. by rewrite Hp. }
  intros l1 l2 Hp. split; apply Himp; [done|by symmetry].
Qed.

Lemma wb_initial_rep s1 s2 : wb_rep (wb (ot_initial s1 s2)) [].
Proof.
  unfold wb_rep, ot_initial. cbn [wb]. split; [apply length_replicate|].
  intros k Hk. by apply lookup_replicate_2.
Qed.

Lemma guard_enter_rep o b bases :
  wb_rep (wb o) bases -> Z.of_nat (length bases) + 1 < 2 ^ 32 ->
  exists w, wb_guard_enter o b = Some (set_wb w o) /\ wb_rep w (b :: bases).
Proof.
  intros [Hl Hk] Hb. pose proof (slot_of_lt b) as Hs. unfold wb_guard_enter. fold (slot_of b).
  rewrite Hk by done. cbn [mbind option_bind]. eexists. split; [done|].
  split; [by rewrite length_insert|]. intros k Hlt. rewrite slot_count_cons.
  pose proof (slot_count_bound (slot_of b) bases). destruct (decide (slot_of b = k)) as [<-|Hne].
  - rewrite list_lookup_insert_eq by lia. rewrite u32_small by lia. done.
  - rewrite list_lookup_insert_ne by done. rewrite Hk by done. by rewrite Z.add_0_r.
Qed.

Lemma guard_leave_rep o b bases :
  wb_rep (wb o) (b :: bases) ->
  exists w, wb_guard_leave o b = Some (set_wb w o) /\ wb_rep w bases.
Proof.
  intros [Hl Hk]. pose proof (slot_of_lt b) as Hs. unfold wb_guard_leave. fold (slot_of b).
  rewrite Hk by done. cbn [mbind option_bind]. rewrite slot_count_cons, decide_True by done.
  pose proof (slot_count_bound (slot_of b) bases).
  destruct (0 <? slot_count (slot_of b) bases + 1) eqn:E; [|lia].
  eexists. split; [done|]. split; [by rewrite length_insert|]. intros k Hlt.
  destruct (decide (slot_of b = k)) as [<-|Hne].
  - rewrite list_lookup_insert_eq by lia. f_equal. lia.
  - rewrite list_lookup_insert_ne by done. rewrite Hk by done.
    rewrite slot_count_cons, decide_False by done. f_equal. lia.
Qed.

(** The guard has no false negatives: an open guard means no page of the base is ahead. *)
Lemma guard_blocked_rep o b bases :
  wb_rep (wb o) bases ->
  exists r, wb_guard_blocked o b = Some r /\ (r = false -> b ∉ bases).
Proof.
  intros [Hl Hk]. pose proof (slot_of_lt b) as Hs. unfold wb_guard_blocked. fold (slot_of b).
  rewrite Hk by done. cbn [mbind option_bind]. eexists. split; [done|]. intros Hr Hin.
  assert (0 < slot_count (slot_of b) bases); [|lia]. unfold slot_count.
  assert (b ∈ filter (fun c => slot_of c = slot_of b) bases) as Hf
    by (by apply list_elem_of_filter).
  destruct (filter _ _); [by apply not_elem_of_nil in Hf|cbn; lia].
Qed.

(** * Starting *)

Lemma start_threads_all ok i n :
  forallb ok (seq i n) = true -> start_threads ok i n = (n, true).
Proof.
  revert i. induction n as [|n IH]; intros i; cbn; [done|].
  intros [-> Hn]%andb_true_iff. by rewrite IH.
Qed.

Lemma start_threads_some ok i n :
  forallb ok (seq i n) = false -> exists k, start_threads ok i n = (k, false).
Proof.
  revert i. induction n as [|n IH]; intros i; cbn; [done|].
  destruct (ok i); cbn; [|by eexists]. intros [k ->]%IH. by eexists.
Qed.

Definition queue_ok (e : queue_env) : bool := qe_calloc e && qe_mutex e && qe_cond e.

(** Every fallible call of [otflush_start] succeeds. *)
Definition start_ok (e : start_env) : bool :=
  se_calloc e && se_mutex e && se_idle e && se_not_busy e && se_wb_done e &&
  queue_ok (se_q1 e) && queue_ok (se_q2 e) &&
  forallb (se_threads e) (seq 0 (Z.to_nat NOX_STAGE1_THREADS + Z.to_nat NOX_STAGE2_THREADS)).

(** The two queues of a start that got that far. *)
Definition fail_all : list ot_resource := fail_q (Some queue_empty) (Some queue_empty).

(** What a running flusher holds besides its threads. *)
Definition ot_held : list ot_resource :=
  [RMem; RMutex; RIdle; RNotBusy; RWbDone] ++ (RQ1 <$> [QMem; QLock; QNotEmpty]) ++
  (RQ2 <$> [QMem; QLock; QNotEmpty]).

Lemma ot_held_released : ot_held ≡ₚ fail_all.
Proof. rewrite <- (app_nil_r fail_all). apply take_out_all_perm. vm_compute. reflexivity. Qed.

Lemma start_fails_threads n :
  start_fails ((RThread <$> seq 0 n) ++ fail_all) (ot_held ++ (RThread <$> seq 0 n)) = Some (None, []).
Proof.
  unfold start_fails. rewrite take_out_every; [done|]. rewrite ot_held_released. apply Permutation_app_comm.
Qed.

(** [otflush_start] is all-or-nothing. When every allocation, initialisation and thread
    creation succeeds it returns the initial flusher, holding its memory, its mutex, its three
    condition variables, its two queues and all its threads; when any of them fails, at
    whichever point, it returns NULL and every resource acquired before the failure, the
    threads already started included, has been released, once. *)
Lemma start_spec (e : start_env) :
  otflush_start e =
    Some (if start_ok e
          then (Some (ot_initial NOX_STAGE1_THREADS NOX_STAGE2_THREADS),
                ot_held ++ (RThread <$> seq 0 (Z.to_nat (NOX_STAGE1_THREADS + NOX_STAGE2_THREADS))))
          else (None, [])).
Proof.
  unfold otflush_start, start_ok.
  destruct (se_calloc e), (se_mutex e), (se_idle e), (se_not_busy e), (se_wb_done e);
    try reflexivity.
  rewrite !queue_create_spec. fold (queue_ok (se_q1 e)) (queue_ok (se_q2 e)).
  destruct (queue_ok (se_q1 e)), (queue_ok (se_q2 e)); try reflexivity.
  cbn [andb negb]. fold ot_held fail_all. rewrite seq_app, forallb_app.
  destruct (forallb (se_threads e) (seq 0 _)) eqn:E1.
  - rewrite start_threads_all by done. cbn [andb]. rewrite Nat.add_0_l.
    destruct (forallb (se_threads e) (seq (Z.to_nat NOX_STAGE1_THREADS) _)) eqn:E2.
    + rewrite start_threads_all by done. reflexivity.
    + destruct (start_threads_some _ _ _ E2) as [k ->]. cbn [andb]. apply start_fails_threads.
  - destruct (start_threads_some _ _ _ E1) as [k ->]. cbn [andb]. rewrite Nat.add_0_r.
    apply start_fails_threads.
Qed.
