(* ===== verification/Engine.v ===== *)
(** The engine of [src/src/noxdb.c]: [nox_open], the write router and its chunk loop, the
    critical section of [scrap_write_chunk], and [nox_close], as transition functions of the
    calling threads over the shared state. *)
From stdpp Require Import base numbers list gmap sets.
From Corelib Require Import Init.Byte.
From S2P Require Import Prelude Config Segments IoDirect Watermark ScrapPage Heap Queue.
From S2P Require Import PageIndex Stats Otflush.

(** * Opening *)

(** The outcome of the fallible calls of [nox_open]. *)
Record open_env := mk_open_env {
  oe_malloc : bool;
  oe_open : Z -> Z -> Z;
  oe_index_alloc : bool;
  oe_index_mutex : nat -> bool;
  oe_start : start_env
}.

Inductive resource :=
| REngine
| RFd
| RIndex
| RIndexMutex (i : nat)
| ROtflush (r : ot_resource).
#[export] Instance resource_eq_dec : EqDecision resource.
Proof. solve_decision. Defined.

(** What [page_index_destroy] releases besides the pages. *)
Definition destroy_index : list resource :=
  (RIndexMutex <$> seq 0 (Z.to_nat NOX_INDEX_SHARDS)) ++ [RIndex].

(** The engine's parts and the armed gate, or NULL with the gate untouched; and the resources
    held on return. [None] overall is the failed assertion of the gate, or the release of
    something that is not held. *)
Definition nox_open (e : open_env) (high low : Z) (w : watermark)
  : option (option (page_index * otflush) * watermark * list resource) :=
  if negb (oe_malloc e) then Some (None, w, [])
  else
    let held := [REngine] in
    if io_direct_open (oe_open e) <? 0 then
      held ← take_out_all [REngine] held; Some (None, w, held)
    else
      let held := held ++ [RFd] in
      match page_index_create (oe_index_alloc e) (oe_index_mutex e) with
      | (None, ms) =>
          held ← take_out_all [RFd; REngine] (held ++ (RIndexMutex <$> ms)); Some (None, w, held)
      | (Some idx, ms) =>
          let held := held ++ [RIndex] ++ (RIndexMutex <$> ms) in
          '(ot, rs) ← otflush_start (oe_start e);
          let held := held ++ (ROtflush <$> rs) in
          match ot with
          | None => held ← take_out_all (destroy_index ++ [RFd; REngine]) held; Some (None, w, held)
          | Some o => w ← nox_watermark_arm high low w; Some (Some (idx, o), w, held)
          end
      end.

(** * Writing *)

(** The answers of the allocator to one [scrap_page_alloc]. *)
Record alloc_answer := mk_alloc {
  al_addr : addr;
  al_malloc : bool;
  al_zone : option (Z * buf)
}.

(** One pass of [scrap_write_chunk] below the gate: it returns, or has to detach the sealed
    page and go round again. *)
Inductive chunk_out := ChunkDone | ChunkEnomem | ChunkRetry (a : addr).

Definition NOX_SSD_ID : Z := 0.

Section Write.
Context `{NoxConfig} {S : Type} `{Posix S}.

(** From [page_index_get_or_create] to the release of the page lock: one critical section. *)
Definition scrap_write_chunk (s : shared S) (b intra : Z) (src : buf) (len : Z)
    (al : alloc_answer) : option (shared S * chunk_out) :=
  '(r, created, h, idx, w) ←
    page_index_get_or_create (sh_heap s) (sh_idx s) (sh_wm s) b NOX_SSD_ID
      (al_addr al) (al_malloc al) (al_zone al);
  let s := with_wm w (with_idx idx (with_heap h s)) in
  match r with
  | None => Some (s, ChunkEnomem)
  | Some a =>
      let s := if (created : bool) then with_stats (nox_stat_page_created (sh_stats s)) s else s in
      p ← sh_heap s !! a;
      if tag (hdr p) =? NOX_TAG_SEALED then Some (s, ChunkRetry a)
      else
        '(st, p) ← scrap_page_merge p src intra len;
        match st with
        | SCRAP_OVERFLOW =>
            let s := with_stats (nox_stat_seal_entries (sh_stats s)) s in
            h ← store a (tag_page NOX_TAG_SEALED) (sh_heap s);
            '(h, o, m) ← otflush_enqueue_partial h (sh_ot s) a;
            Some (print m (with_ot o (with_heap h s)), ChunkRetry a)
        | SCRAP_OK =>
            let s := with_heap (<[a := p]> (sh_heap s)) s in
            if scrap_page_is_full p then
              st ← nox_stat_page_full (number (hdr p)) (sh_stats s);
              '(h, o, m) ← otflush_enqueue_full (sh_heap s) (sh_ot s) a;
              Some (print m (with_ot o (with_heap h (with_stats st s))), ChunkDone)
            else if (created : bool) then
              '(h, o, m) ← otflush_enqueue_partial (sh_heap s) (sh_ot s) a;
              Some (print m (with_ot o (with_heap h s)), ChunkDone)
            else Some (s, ChunkDone)
        end
  end.

(** The chunk of the scrap path at offset [cur]: page base, offset in the page, length. *)
Definition next_chunk (cur remaining : Z) : Z * Z * Z :=
  let b := NOX_PAGE_BASE cur in
  let intra := u32 (cur - b) in
  let chunk := u32 (NOX_DATAZONE_SIZE - intra) in
  (b, intra, if remaining <? chunk then u32 remaining else chunk).

(** The route of a call: nothing to do, the direct path, or the scrap path. *)
Inductive route := RouteNone | RouteDirect | RouteScrap.

Definition nox_write_route (size offset : Z) : route :=
  if size =? 0 then RouteNone
  else if (NOX_DIRECT_THRESHOLD <=? size) && (size mod NOX_BLOCK_SIZE =? 0) &&
          (offset mod NOX_BLOCK_SIZE =? 0) then RouteDirect
  else RouteScrap.

(** A thread in [nox_write]: the source bytes not yet written, their offset and count. *)
Record write_loop := mk_wl { wl_src : buf; wl_cur : Z; wl_remaining : Z }.

Definition wl_chunk (l : write_loop) : Z * Z * Z := next_chunk (wl_cur l) (wl_remaining l).

(** The end of an iteration of the chunk loop. *)
Definition wl_advance (l : write_loop) : write_loop :=
  let chunk := (wl_chunk l).2 in
  mk_wl (buf_drop chunk (wl_src l)) (u64 (wl_cur l + chunk)) (u64 (wl_remaining l - chunk)).

(** Where a caller of [nox_write] is; [FgIdle] holds the last call's result. *)
Inductive fg_ctl :=
| FgIdle (rc : Z)
| FgDirect (baddr : Z) (src : buf) (size offset : Z)
| FgLoop (l : write_loop)
| FgGate (l : write_loop)
| FgAsleep (t0 : Z) (l : write_loop)
| FgLookup (l : write_loop)
| FgDetach (a : addr) (l : write_loop).

(** The entry of [nox_write] from address [baddr]. *)
Definition nox_write (s : shared S) (baddr : Z) (src : buf) (size offset : Z)
  : shared S * fg_ctl :=
  match nox_write_route size offset with
  | RouteNone => (s, FgIdle 0)
  | RouteDirect => (s, FgDirect baddr src size offset)
  | RouteScrap =>
      (with_stats (nox_stat_user_bytes size (sh_stats s)) s, FgLoop (mk_wl src offset size))
  end.

(** One transition of a caller; [now] is the clock, [al] the allocator. *)
Definition fg_step (s : shared S) (now : Z) (al : alloc_answer) (c : fg_ctl)
  : option (shared S * fg_ctl) :=
  match c with
  | FgIdle rc => Some (s, FgIdle rc)
  | FgDirect baddr src size offset =>
      let '(w, x, log) := io_direct_pwrite (sh_os s) baddr src size (s64 offset) in
      Some (print (MsgIo <$> log) (with_os x s),
            FgIdle (if decide (w = SysOk size) then 0 else -1))
  | FgLoop l => Some (s, if 0 <? wl_remaining l then FgGate l else FgIdle 0)
  | FgGate l =>
      let '(pass, w) := watermark_wait_enter (sh_wm s) in
      Some (with_wm w s, if pass then FgLookup l else FgAsleep now l)
  | FgAsleep t0 l =>
      if watermark_must_sleep (sh_wm s) then Some (s, FgAsleep t0 l)
      else Some (with_wm (watermark_wait_leave t0 now (sh_wm s)) s, FgLookup l)
  | FgLookup l =>
      let '(b, intra, chunk) := wl_chunk l in
      '(s, r) ← scrap_write_chunk s b intra (wl_src l) chunk al;
      match r with
      | ChunkDone => Some (s, FgLoop (wl_advance l))
      | ChunkEnomem => Some (s, FgIdle (-1))
      | ChunkRetry a => Some (s, FgDetach a l)
      end
  | FgDetach a l =>
      let '(b, _, _) := wl_chunk l in
      '(_, h, i) ← page_index_detach_if (sh_heap s) (sh_idx s) b a;
      Some (with_idx i (with_heap h s), FgGate l)
  end.

(** * Closing *)

(** The callback of the shutdown sweep. *)
Definition enqueue_one (a : addr) (h : heap) (c : otflush * list message)
  : option (heap * (otflush * list message)) :=
  let '(o, m) := c in
  p ← h !! a;
  '(h, o, m') ← (if scrap_page_is_full p then otflush_enqueue_full h o a
                 else otflush_enqueue_partial h o a);
  Some (h, (o, m ++ m')).

(** Where the caller of [nox_close] is, through [otflush_drain] and [otflush_stop]. *)
Inductive close_ctl :=
| ClDisarm
| ClDrain
| ClSweep (err : Z) (w : foreach_at)
| ClStopDrain (err : Z)
| ClStopFlag (err serr : Z)
| ClJoin1 (err serr : Z)
| ClShutQ2 (err serr : Z)
| ClJoin2 (err serr : Z)
| ClErr (err serr : Z)
| ClDestroy (err : Z)
| ClClose (err : Z)
| ClDone (err : Z).

(** One transition of [nox_close]; [s1] and [s2] are the background threads it joins and
    [close_ok] the result of [close(2)]. *)
Definition close_step (s : shared S) (s1 : s1_ctl) (s2 : s2_ctl) (close_ok : bool)
    (c : close_ctl) : option (shared S * close_ctl) :=
  match c with
  | ClDisarm => Some (with_wm (nox_watermark_disarm (sh_wm s)) s, ClDrain)
  | ClDrain =>
      match otflush_drain (sh_ot s) with
      | None => Some (s, ClDrain)
      | Some err => Some (s, ClSweep err (FeBucket 0))
      end
  | ClSweep err w =>
      '(h, (o, m), w) ← foreach_step enqueue_one (sh_heap s) (sh_ot s, []) (sh_idx s) w;
      Some (print m (with_ot o (with_heap h s)),
            match w with Some w => ClSweep err w | None => ClStopDrain err end)
  | ClStopDrain err =>
      match otflush_drain (sh_ot s) with
      | None => Some (s, ClStopDrain err)
      | Some serr => Some (s, ClStopFlag err serr)
      end
  | ClStopFlag err serr =>
      let o := set_stopping true (sh_ot s) in
      Some (with_ot (set_q1 (nox_queue_shutdown (q1 o)) o) s, ClJoin1 err serr)
  | ClJoin1 err serr =>
      Some (s, match s1 with S1Exit => ClShutQ2 err serr | _ => ClJoin1 err serr end)
  | ClShutQ2 err serr =>
      let o := sh_ot s in
      Some (with_ot (set_q2 (nox_queue_shutdown (q2 o)) o) s, ClJoin2 err serr)
  | ClJoin2 err serr =>
      Some (s, match s2 with S2Exit => ClErr err serr | _ => ClJoin2 err serr end)
  | ClErr err serr =>
      let serr := if io_err (sh_ot s) =? 0 then serr else -1 in
      Some (s, ClDestroy (if serr =? 0 then err else -1))
  | ClDestroy err =>
      '(h, w) ← page_index_destroy (sh_heap s) (sh_wm s) (sh_idx s);
      Some (with_wm w (with_heap h s), ClClose err)
  | ClClose err => Some (s, ClDone (if close_ok then err else -1))
  | ClDone err => Some (s, ClDone err)
  end.

End Write.

(** What [nox_close] releases, in its order, when it moves on from a control point: the joins
    and the destructors of [otflush_stop], then the index, the descriptor and the engine. [o] is
    the flusher as started. *)
Definition close_release (o : otflush) (c : close_ctl) : list resource :=
  match c with
  | ClJoin1 _ _ => ROtflush <$> stop_join1 o
  | ClJoin2 _ _ => ROtflush <$> stop_join2 o
  | ClErr _ _ => ROtflush <$> stop_destroy o
  | ClDestroy _ => destroy_index
  | ClClose _ => [RFd; REngine]
  | _ => []
  end.

(** * Opening: nothing is leaked *)

(** Every fallible call of [nox_open] succeeds. *)
Definition open_ok (e : open_env) : bool :=
  oe_malloc e && (0 <=? io_direct_open (oe_open e)) && oe_index_alloc e &&
  forallb (oe_index_mutex e) (seq 0 (Z.to_nat NOX_INDEX_SHARDS)) && start_ok (oe_start e).

Lemma open_spec e high low w :
  nox_open e high low w =
    if open_ok e
    then w' ← nox_watermark_arm high low w;
         Some (Some (mk_index (replicate (Z.to_nat PI_BUCKETS) None),
                     ot_initial NOX_STAGE1_THREADS NOX_STAGE2_THREADS), w',
               [REngine; RFd; RIndex] ++ (RIndexMutex <$> seq 0 (Z.to_nat NOX_INDEX_SHARDS)) ++
               (ROtflush <$> ot_held ++
                 (RThread <$> seq 0 (Z.to_nat (NOX_STAGE1_THREADS + NOX_STAGE2_THREADS)))))
    else Some (None, w, []).
Proof.
  unfold nox_open, open_ok. destruct (oe_malloc e); [|done].
  rewrite Z.ltb_antisym. destruct (0 <=? io_direct_open _); [|done].
  cbn [negb andb]. rewrite create_spec. destruct (_ && forallb _ _); [|done]. cbn [andb].
  rewrite start_spec. destruct (start_ok _); [|by vm_compute].
  cbn [mbind option_bind]. destruct (nox_watermark_arm _ _ _); [|done].
  cbn [mbind option_bind]. by rewrite <- !app_assoc.
Qed.

(** C36: Opening the engine is all-or-nothing. If every allocation, system call, mutex and
    thread creation succeeds and the marks are legal, [nox_open] returns an empty index and an
    idle flusher with the gate armed at the configured marks and the level of live pages
    unchanged. If any call fails, at whichever of the many points, it returns NULL, the gate is
    untouched, and no resource acquired on the way (memory, descriptor, mutexes, condition
    variables, queues, running threads) is still held, and none is released twice. *)
Theorem open_all_or_nothing (e : open_env) (high low : Z) (w : watermark) :
  0 <= low < high ->
  (open_ok e = false -> nox_open e high low w = Some (None, w, [])) /\
  (open_ok e = true ->
   exists held, nox_open e high low w =
     Some (Some (mk_index (replicate (Z.to_nat PI_BUCKETS) None),
                 ot_initial NOX_STAGE1_THREADS NOX_STAGE2_THREADS),
           mk_wm true high low (g_live w) (g_blocked_count w) (g_blocked_ns w), held)).
Proof.
  intros Hm. rewrite open_spec. split; intros ->; [done|]. unfold nox_watermark_arm.
  destruct (low <? high) eqn:E; [|lia]. cbn [mbind option_bind]. by eexists.
Qed.

(** The second thread cannot be created. *)
Definition sample_open : open_env :=
  mk_open_env true (fun _ _ => 3) true (fun _ => true)
    (mk_start_env true true true true true (mk_queue_env true true true)
       (mk_queue_env true true true) (fun i => (i =? 0)%nat)).

Lemma open_all_or_nothing_witness :
  0 <= NOX_WATERMARK_LOW NOX_WATERMARK_HIGH < NOX_WATERMARK_HIGH /\
  nox_open sample_open NOX_WATERMARK_HIGH (NOX_WATERMARK_LOW NOX_WATERMARK_HIGH) wm_initial = Some (None, wm_initial, []).
Proof.
  assert (0 <= NOX_WATERMARK_LOW NOX_WATERMARK_HIGH < NOX_WATERMARK_HIGH) as Hm by (vm_compute; split; congruence).
  split; [exact Hm|].
  apply (proj1 (open_all_or_nothing sample_open NOX_WATERMARK_HIGH (NOX_WATERMARK_LOW NOX_WATERMARK_HIGH) wm_initial Hm)).
  vm_compute. reflexivity.
Defined.
