(* ===== verification/Pipeline.v ===== *)
(** The write pipeline as an abstract machine: the resident map, the two queues and the hands
    of the two stages as lists of pages, the disk, and the chunks the callers have in flight.
    The order of the pages in the pipeline decides what a reader of the file would see; this
    file proves that no transition changes that view except an accepted chunk, which changes
    exactly its own bytes. The file [System] shows that the code implements this machine. *)
From stdpp Require Import base numbers list gmap sets.
From Corelib Require Import Init.Byte.
From S2P Require Import Prelude Config Segments Watermark ScrapPage Heap PageIndex Otflush.

(** * The machine *)

(** One chunk of a write: a range inside one page. *)
Record chunk := mk_chunk { ck_base : Z; ck_intra : Z; ck_src : buf; ck_len : Z }.

Definition ck_off (c : chunk) : Z := ck_base c + ck_intra c.

Definition base_ok (b : Z) : Prop :=
  0 <= b < 2 ^ 63 - NOX_DATAZONE_SIZE /\ aligned NOX_DATAZONE_SIZE b.

Definition chunk_wf (c : chunk) : Prop :=
  base_ok (ck_base c) /\ 0 <= ck_intra c /\ 0 < ck_len c /\
  ck_intra c + ck_len c <= NOX_DATAZONE_SIZE.

Definition chunk_disjoint (c d : chunk) : Prop :=
  ck_off c + ck_len c <= ck_off d \/ ck_off d + ck_len d <= ck_off c.

(** A caller with a chunk in flight is about to look the page up, or about to detach the
    sealed page it found. *)
Inductive phase := FLook | FDet (a : addr).

Inductive s1_hold :=
| H1None
| H1Popped (a : addr)
| H1Wait (a : addr) (holes : list scrap_entry)
| H1Go (a : addr) (holes : list scrap_entry)
| H1Got (a : addr) (holes : list scrap_entry) (scratch : buf)
| H1Full (a : addr).

Inductive s2_hold :=
| H2None
| H2Collect (batch : list addr)
| H2Detach (batch rest : list addr)
| H2Done (rest : list addr).

Record pipe := mk_pipe {
  pg : gmap addr scrap_page;
  res : gmap Z addr;
  pq1 : list addr;
  pq2 : list addr;
  h1 : s1_hold;
  h2 : s2_hold;
  disk : buf;
  fl : gmap nat (chunk * phase)
}.

Definition s1_page (h : s1_hold) : list addr :=
  match h with
  | H1None => []
  | H1Popped a | H1Wait a _ | H1Go a _ | H1Got a _ _ | H1Full a => [a]
  end.

Definition s2_pages (h : s2_hold) : list addr :=
  match h with
  | H2None => []
  | H2Collect batch | H2Detach batch _ | H2Done batch => batch
  end.

(** The pages of the pipeline, the next one to reach the disk first. *)
Definition ord (s : pipe) : list addr := s2_pages (h2 s) ++ pq2 s ++ s1_page (h1 s) ++ pq1 s.

Definition tag_if_full (p : scrap_page) : scrap_page :=
  if scrap_page_is_full p then tag_page NOX_TAG_FULL p else p.

Definition unlink_res (b : Z) (a : addr) (m : gmap Z addr) : gmap Z addr :=
  if decide (m !! b = Some a) then delete b m else m.

Definition page_base (m : gmap addr scrap_page) (a : addr) : option Z := base <$> m !! a.

(** What errors may have done: [damaged] are the bytes the machine says nothing about, because a
    write of them failed, because a call ran out of memory before it reached them, or because
    Stage-1 gave up their page, which [gives_up] allows for some bases. With no damage, the default, the
    machine is exact. *)
Class Damage := mk_damage { damaged : Z -> Prop; gives_up : Z -> Prop }.

#[export] Instance no_damage : Damage | 10 := mk_damage (fun _ => False) (fun _ => False).

(** All bytes of the page of base [b] are damaged. *)
Definition spoiled {dmg : Damage} (b : Z) : Prop :=
  forall x, b <= x < b + NOX_DATAZONE_SIZE -> damaged x.

(** Equality of files outside the damage. *)
Definition agree {dmg : Damage} (f g : buf) : Prop := forall x, ~ damaged x -> f x = g x.

Section Machine.
Context `{NoxConfig} {dmg : Damage}.

Inductive pstep : pipe -> option chunk -> pipe -> Prop :=
| ps_start pgs m l1 l2 s1 s2 d f i c :
    f !! i = None -> chunk_wf c ->
    (forall j e ph, f !! j = Some (e, ph) -> chunk_disjoint c e) ->
    pstep (mk_pipe pgs m l1 l2 s1 s2 d f) None (mk_pipe pgs m l1 l2 s1 s2 d (<[i := (c, FLook)]> f))
| ps_sealed pgs m l1 l2 s1 s2 d f i c a p :
    f !! i = Some (c, FLook) -> m !! ck_base c = Some a -> pgs !! a = Some p ->
    tag (hdr p) = NOX_TAG_SEALED ->
    pstep (mk_pipe pgs m l1 l2 s1 s2 d f) None (mk_pipe pgs m l1 l2 s1 s2 d (<[i := (c, FDet a)]> f))
| ps_overflow pgs m l1 l2 s1 s2 d f i c a p p' :
    f !! i = Some (c, FLook) -> m !! ck_base c = Some a -> pgs !! a = Some p ->
    scrap_page_merge p (ck_src c) (ck_intra c) (ck_len c) = Some (SCRAP_OVERFLOW, p') ->
    pstep (mk_pipe pgs m l1 l2 s1 s2 d f) None
      (mk_pipe (<[a := tag_page NOX_TAG_SEALED p]> pgs) m l1 l2 s1 s2 d (<[i := (c, FDet a)]> f))
| ps_merge pgs m l1 l2 s1 s2 d f i c a p p' :
    f !! i = Some (c, FLook) -> m !! ck_base c = Some a -> pgs !! a = Some p ->
    tag (hdr p) <> NOX_TAG_SEALED ->
    scrap_page_merge p (ck_src c) (ck_intra c) (ck_len c) = Some (SCRAP_OK, p') ->
    pstep (mk_pipe pgs m l1 l2 s1 s2 d f) (Some c)
      (mk_pipe (<[a := tag_if_full p']> pgs) m l1 l2 s1 s2 d (delete i f))
| ps_fresh pgs m l1 l2 s1 s2 d f i c a za junk p' :
    f !! i = Some (c, FLook) -> m !! ck_base c = None -> pgs !! a = None ->
    aligned NOX_BLOCK_SIZE za ->
    scrap_page_merge (fresh_page (ck_base c) 0 za junk None) (ck_src c) (ck_intra c)
      (ck_len c) = Some (SCRAP_OK, p') ->
    pstep (mk_pipe pgs m l1 l2 s1 s2 d f) (Some c)
      (mk_pipe (<[a := set_in_queue true (tag_if_full p')]> pgs) (<[ck_base c := a]> m)
        (if scrap_page_is_full p' then l1 else l1 ++ [a])
        (if scrap_page_is_full p' then l2 ++ [a] else l2) s1 s2 d (delete i f))
| ps_detach pgs m l1 l2 s1 s2 d f i c a :
    f !! i = Some (c, FDet a) ->
    pstep (mk_pipe pgs m l1 l2 s1 s2 d f) None
      (mk_pipe pgs (unlink_res (ck_base c) a m) l1 l2 s1 s2 d (<[i := (c, FLook)]> f))
| ps_detach_stale pgs m l1 l2 s1 s2 d f i c a b :
    f !! i = Some (c, FDet a) -> m !! b = Some a -> spoiled b ->
    pstep (mk_pipe pgs m l1 l2 s1 s2 d f) None
      (mk_pipe pgs (unlink_res b a m) l1 l2 s1 s2 d (<[i := (c, FLook)]> f))
| ps_pop1 pgs m a l1 l2 s2 d f :
    pstep (mk_pipe pgs m (a :: l1) l2 H1None s2 d f) None (mk_pipe pgs m l1 l2 (H1Popped a) s2 d f)
| ps_forward pgs m l1 l2 a p s2 d f :
    pgs !! a = Some p -> scrap_page_is_full p = true ->
    pstep (mk_pipe pgs m l1 l2 (H1Popped a) s2 d f) None (mk_pipe pgs m l1 l2 (H1Full a) s2 d f)
| ps_snap pgs m l1 l2 a p s2 d f :
    pgs !! a = Some p ->
    pstep (mk_pipe pgs m l1 l2 (H1Popped a) s2 d f) None
      (mk_pipe pgs m l1 l2 (H1Wait a (scrap_page_hole_ranges p (NOX_MAX_ENTRIES + 1))) s2 d f)
| ps_guard pgs m l1 l2 a holes s2 d f :
    (forall c, c ∈ s2_pages s2 ++ l2 -> page_base pgs c <> page_base pgs a) ->
    pstep (mk_pipe pgs m l1 l2 (H1Wait a holes) s2 d f) None
      (mk_pipe pgs m l1 l2 (H1Go a holes) s2 d f)
| ps_read pgs m l1 l2 a p holes scratch s2 d f :
    pgs !! a = Some p -> (forall x, covers holes x -> scratch x = d (base p + x)) ->
    pstep (mk_pipe pgs m l1 l2 (H1Go a holes) s2 d f) None
      (mk_pipe pgs m l1 l2 (H1Got a holes scratch) s2 d f)
| ps_apply pgs m l1 l2 a p p' holes scratch s2 d f :
    pgs !! a = Some p -> scrap_page_apply_holes p scratch = Some p' ->
    pstep (mk_pipe pgs m l1 l2 (H1Got a holes scratch) s2 d f) None
      (mk_pipe (<[a := tag_page NOX_TAG_FULL p']> pgs) m l1 l2 (H1Full a) s2 d f)
| ps_push2 pgs m l1 l2 a s2 d f :
    pstep (mk_pipe pgs m l1 l2 (H1Full a) s2 d f) None
      (mk_pipe pgs m l1 (l2 ++ [a]) H1None s2 d f)
| ps_pop2 pgs m l1 a l2 s1 d f :
    pstep (mk_pipe pgs m l1 (a :: l2) s1 H2None d f) None
      (mk_pipe pgs m l1 l2 s1 (H2Collect [a]) d f)
| ps_claim pgs m l1 a first b batch l2 s1 d f :
    page_base pgs first = Some b ->
    page_base pgs a = Some (b + Z.of_nat (length (first :: batch)) * NOX_DATAZONE_SIZE) ->
    pstep (mk_pipe pgs m l1 (a :: l2) s1 (H2Collect (first :: batch)) d f) None
      (mk_pipe pgs m l1 l2 s1 (H2Collect (first :: batch ++ [a])) d f)
| ps_collected pgs m l1 l2 s1 batch d f :
    pstep (mk_pipe pgs m l1 l2 s1 (H2Collect batch) d f) None
      (mk_pipe pgs m l1 l2 s1 (H2Detach batch batch) d f)
| ps_unlink pgs m l1 l2 s1 batch a p rest d f :
    pgs !! a = Some p ->
    pstep (mk_pipe pgs m l1 l2 s1 (H2Detach batch (a :: rest)) d f) None
      (mk_pipe (<[a := set_detached true p]> pgs) (unlink_res (base p) a m) l1 l2 s1
        (H2Detach batch rest) d f)
| ps_mark pgs m l1 l2 s1 batch a p rest d f :
    pgs !! a = Some p -> a ∈ batch -> a ∉ rest ->
    pstep (mk_pipe pgs m l1 l2 s1 (H2Detach batch rest) d f) None
      (mk_pipe (<[a := set_in_queue false (tag_page NOX_TAG_FLUSHING p)]> pgs) m l1 l2 s1
        (H2Detach batch rest) d f)
| ps_write pgs m l1 l2 s1 batch d d' f :
    (forall a p x, a ∈ batch -> pgs !! a = Some p -> base p <= x < base p + NOX_DATAZONE_SIZE ->
       ~ damaged x -> d' x = data p (x - base p)) ->
    (forall x, (forall a p, a ∈ batch -> pgs !! a = Some p ->
                  ~ (base p <= x < base p + NOX_DATAZONE_SIZE)) -> d' x = d x) ->
    pstep (mk_pipe pgs m l1 l2 s1 (H2Detach batch []) d f) None
      (mk_pipe pgs m l1 l2 s1 (H2Done batch) d' f)
| ps_free pgs m l1 l2 s1 a rest d f :
    pstep (mk_pipe pgs m l1 l2 s1 (H2Done (a :: rest)) d f) None
      (mk_pipe (delete a pgs) m l1 l2 s1 (H2Done rest) d f)
| ps_done pgs m l1 l2 s1 d f :
    pstep (mk_pipe pgs m l1 l2 s1 (H2Done []) d f) None (mk_pipe pgs m l1 l2 s1 H2None d f)
| ps_direct pgs m l1 l2 s1 s2 d d' f c :
    (forall a p x, pgs !! a = Some p -> base p <= x < base p + NOX_DATAZONE_SIZE ->
       ck_off c <= x < ck_off c + ck_len c -> damaged x) ->
    d' ≈ buf_put d (ck_off c) (ck_src c) (ck_len c) ->
    pstep (mk_pipe pgs m l1 l2 s1 s2 d f) (Some c) (mk_pipe pgs m l1 l2 s1 s2 d' f)
| ps_spoil pgs m l1 l2 s1 s2 d d' f lo len :
    (forall x, lo <= x < lo + len -> damaged x) ->
    (forall x, ~ (lo <= x < lo + len) -> d' x = d x) ->
    pstep (mk_pipe pgs m l1 l2 s1 s2 d f) None (mk_pipe pgs m l1 l2 s1 s2 d' f)
| ps_abandon pgs m l1 l2 s1 s2 d f i c :
    f !! i = Some (c, FLook) -> m !! ck_base c = None -> spoiled (ck_base c) ->
    pstep (mk_pipe pgs m l1 l2 s1 s2 d f) None (mk_pipe pgs m l1 l2 s1 s2 d (delete i f))
| ps_drop pgs m l1 l2 a p holes s2 d f :
    gives_up (base p) -> pgs !! a = Some p -> spoiled (base p) ->
    pstep (mk_pipe pgs m l1 l2 (H1Go a holes) s2 d f) None
      (mk_pipe (<[a := set_in_queue false p]> pgs) m l1 l2 H1None s2 d f)
| ps_requeue_full pgs m l1 l2 s1 s2 d f i c a p p' :
    f !! i = Some (c, FLook) -> m !! ck_base c = Some a -> pgs !! a = Some p ->
    tag (hdr p) <> NOX_TAG_SEALED -> a ∉ s2_pages s2 ++ l2 ++ s1_page s1 ++ l1 ->
    scrap_page_merge p (ck_src c) (ck_intra c) (ck_len c) = Some (SCRAP_OK, p') ->
    scrap_page_is_full p' = true ->
    pstep (mk_pipe pgs m l1 l2 s1 s2 d f) (Some c)
      (mk_pipe (<[a := set_in_queue true (tag_page NOX_TAG_FULL p')]> pgs) m l1 (l2 ++ [a]) s1 s2 d
        (delete i f))
| ps_requeue_sealed pgs m l1 l2 s1 s2 d f i c a p p' :
    f !! i = Some (c, FLook) -> m !! ck_base c = Some a -> pgs !! a = Some p ->
    a ∉ s2_pages s2 ++ l2 ++ s1_page s1 ++ l1 ->
    scrap_page_merge p (ck_src c) (ck_intra c) (ck_len c) = Some (SCRAP_OVERFLOW, p') ->
    pstep (mk_pipe pgs m l1 l2 s1 s2 d f) None
      (mk_pipe (<[a := set_in_queue true (tag_page NOX_TAG_SEALED p)]> pgs) m (l1 ++ [a]) l2 s1 s2 d
        (<[i := (c, FDet a)]> f))
| ps_sweep pgs m l1 l2 s1 s2 d f b a p :
    m !! b = Some a -> pgs !! a = Some p -> a ∉ s2_pages s2 ++ l2 ++ s1_page s1 ++ l1 ->
    pstep (mk_pipe pgs m l1 l2 s1 s2 d f) None
      (mk_pipe (<[a := set_in_queue true (tag_if_full p)]> pgs) m
        (if scrap_page_is_full p then l1 else l1 ++ [a])
        (if scrap_page_is_full p then l2 ++ [a] else l2) s1 s2 d f).

(** * The view *)

(** The byte a page holds for offset [x] of the file, if it holds one. *)
Definition page_at (m : gmap addr scrap_page) (a : addr) (x : Z) : option byte :=
  p ← m !! a; if decide (covered p (x - base p)) then Some (data p (x - base p)) else None.

(** The byte of the newest page of the list that holds one. *)
Fixpoint newest (m : gmap addr scrap_page) (l : list addr) (x : Z) : option byte :=
  match l with
  | [] => None
  | a :: r => match newest m r x with Some v => Some v | None => page_at m a x end
  end.

(** What the file holds once the pipeline has drained. *)
Definition view (s : pipe) : buf :=
  fun x => default (disk s x) (newest (pg s) (ord s) x).

Definition put_chunk (d : buf) (c : option chunk) : buf :=
  match c with
  | None => d
  | Some c => buf_put d (ck_off c) (ck_src c) (ck_len c)
  end.

(** * The invariant *)

(** Some caller has a chunk in flight on base [b] that does not fill the page. *)
Definition busy_base (f : gmap nat (chunk * phase)) (b : Z) : Prop :=
  exists i c ph, f !! i = Some (c, ph) /\ ck_base c = b /\ ck_len c < NOX_DATAZONE_SIZE.

Definition holes_cover (holes : list scrap_entry) (p : scrap_page) : Prop :=
  segs_wf 0 holes /\
  forall x, 0 <= x < NOX_DATAZONE_SIZE -> covers holes x \/ covered p x.

(** No page ahead of Stage-1's hand has the base of [a], unless that page is spoiled. *)
Definition alone (s : pipe) (a : addr) : Prop :=
  forall c b, c ∈ s2_pages (h2 s) ++ pq2 s -> page_base (pg s) a = Some b ->
    page_base (pg s) c = Some b -> spoiled b.

Definition s1_inv (s : pipe) : Prop :=
  match h1 s with
  | H1None | H1Popped _ => True
  | H1Wait a holes => exists p, pg s !! a = Some p /\ holes_cover holes p
  | H1Go a holes => alone s a /\ exists p, pg s !! a = Some p /\ holes_cover holes p
  | H1Got a holes scratch =>
      alone s a /\ exists p, pg s !! a = Some p /\ holes_cover holes p /\
        forall x, covers holes x -> ~ damaged (base p + x) -> scratch x = disk s (base p + x)
  | H1Full a => exists p, pg s !! a = Some p /\ scrap_page_is_full p = true
  end.

Definition consecutive (m : gmap addr scrap_page) (batch : list addr) : Prop :=
  exists b, forall i a, batch !! i = Some a ->
    page_base m a = Some (b + Z.of_nat i * NOX_DATAZONE_SIZE).

Definition s2_inv (s : pipe) : Prop :=
  match h2 s with
  | H2None => True
  | H2Collect batch => consecutive (pg s) batch
  | H2Detach batch rest =>
      consecutive (pg s) batch /\ (exists pre, batch = pre ++ rest) /\
      forall a b, a ∈ batch -> a ∉ rest -> res s !! b <> Some a
  | H2Done rest =>
      consecutive (pg s) rest /\ (forall a b, a ∈ rest -> res s !! b <> Some a) /\
      forall a p x, a ∈ rest -> pg s !! a = Some p ->
        base p <= x < base p + NOX_DATAZONE_SIZE -> ~ damaged x -> disk s x = data p (x - base p)
  end.

(** The resident page of base [b] is the newest page of that base. *)
Definition is_newest (s : pipe) (b : Z) (a : addr) : Prop :=
  exists l1 l2, ord s = l1 ++ a :: l2 /\ forall c, c ∈ l2 -> page_base (pg s) c <> Some b.

Record pinv (s : pipe) : Prop := {
  pi_nodup : NoDup (ord s);
  pi_dom : forall a, a ∈ ord s -> is_Some (pg s !! a);
  pi_out : forall a p, pg s !! a = Some p -> a ∉ ord s ->
    gives_up (base p) /\ spoiled (base p) /\ in_queue p = false;
  pi_wf : forall a p, pg s !! a = Some p -> page_wf p;
  pi_res : forall b a, res s !! b = Some a ->
    (is_newest s b a \/ spoiled b) /\
    exists p, pg s !! a = Some p /\ base p = b /\ (a ∈ ord s -> in_queue p = true) /\
      detached p = false;
  pi_full : forall a p, a ∈ s2_pages (h2 s) ++ pq2 s -> pg s !! a = Some p ->
    scrap_page_is_full p = true;
  pi_stageA : s1_inv s;
  pi_stageB : s2_inv s;
  pi_orphan : forall a b, a ∈ s1_page (h1 s) ++ pq1 s -> page_base (pg s) a = Some b ->
    res s !! b = None -> busy_base (fl s) b \/ spoiled b;
  pi_sealed : forall a b p, res s !! b = Some a -> pg s !! a = Some p ->
    tag (hdr p) = NOX_TAG_SEALED -> busy_base (fl s) b;
  pi_chunks : forall i c ph, fl s !! i = Some (c, ph) -> chunk_wf c;
  pi_disjoint : forall i j c d ph ph', i <> j ->
    fl s !! i = Some (c, ph) -> fl s !! j = Some (d, ph') -> chunk_disjoint c d;
  pi_det : forall i c a, fl s !! i = Some (c, FDet a) -> ck_len c < NOX_DATAZONE_SIZE
}.

(** * Lemmas on agreement *)

#[export] Instance agree_equiv : Equivalence agree.
Proof. split; [by intros f x|intros f g E x Hx; by rewrite E|intros f g h E1 E2 x Hx; by rewrite E1, E2]. Qed.

#[export] Instance agree_proper : Proper (buf_eq ==> buf_eq ==> iff) agree.
Proof.
  intros f f' Hf g g' Hg. split; intros E x Hx.
  - rewrite <- (Hf x), <- (Hg x). by apply E.
  - rewrite (Hf x), (Hg x). by apply E.
Qed.

Lemma agree_eq f g : f ≈ g -> agree f g.
Proof. intros E x _. apply E. Qed.

#[export] Instance agree_put :
  Proper (agree ==> eq ==> eq ==> eq ==> agree) buf_put.
Proof. intros f g E o ? <- src ? <- n ? <- x Hx. unfold buf_put. destruct (in_range _ _ _); [done|by apply E]. Qed.

(** * Lemmas on the view *)

Lemma zone_unique b b' x :
  aligned NOX_DATAZONE_SIZE b -> aligned NOX_DATAZONE_SIZE b' ->
  b <= x < b + NOX_DATAZONE_SIZE -> b' <= x < b' + NOX_DATAZONE_SIZE -> b = b'.
Proof.
  unfold aligned. intros Hb Hb' Hx Hx'. unfold NOX_DATAZONE_SIZE in *.
  apply Z.mod_divide in Hb as [k ->]; [|lia]. apply Z.mod_divide in Hb' as [k' ->]; [|lia]. lia.
Qed.

Lemma covered_zone p y : page_wf p -> covered p y -> 0 <= y < NOX_DATAZONE_SIZE.
Proof. intros ((_ & _ & Hs & _) & _). by apply segs_wf_covers. Qed.

Lemma full_covered p y :
  page_wf p -> scrap_page_is_full p = true -> 0 <= y < NOX_DATAZONE_SIZE -> covered p y.
Proof.
  intros (Hh & _) Hf Hy. unfold covered. unfold scrap_page_is_full in Hf.
  apply is_full_iff in Hf; [|done]. rewrite Hf. by apply full_zone_covers.
Qed.

Lemma page_at_some m a x v :
  page_at m a x = Some v <->
  exists p, m !! a = Some p /\ covered p (x - base p) /\ v = data p (x - base p).
Proof.
  unfold page_at. destruct (m !! a) as [p|]; cbn; [|naive_solver].
  case_decide; naive_solver.
Qed.

Lemma page_at_none m a x :
  page_at m a x = None <-> forall p, m !! a = Some p -> ~ covered p (x - base p).
Proof.
  unfold page_at. destruct (m !! a) as [p|]; cbn; [|naive_solver].
  case_decide; naive_solver.
Qed.

Lemma newest_app m l1 l2 x :
  newest m (l1 ++ l2) x = match newest m l2 x with Some v => Some v | None => newest m l1 x end.
Proof.
  induction l1 as [|a l1 IH]; cbn; [by destruct (newest m l2 x)|].
  rewrite IH. by destruct (newest m l2 x).
Qed.

Lemma newest_none m l x : (forall a, a ∈ l -> page_at m a x = None) -> newest m l x = None.
Proof.
  induction l as [|a l IH]; intros Hl; cbn; [done|].
  rewrite IH by set_solver. apply Hl. set_solver.
Qed.

Lemma newest_ext m m' l x :
  (forall a, a ∈ l -> page_at m' a x = page_at m a x) -> newest m' l x = newest m l x.
Proof.
  induction l as [|a l IH]; intros Hl; cbn; [done|].
  rewrite IH, Hl by set_solver. done.
Qed.

Lemma newest_some m l a x :
  a ∈ l -> is_Some (page_at m a x) -> is_Some (newest m l x).
Proof.
  intros Ha [v Hv]. induction l as [|c l IH]; [set_solver|]. cbn.
  destruct (newest m l x) as [w|]; [done|].
  apply elem_of_cons in Ha as [->|Ha]; [by rewrite Hv|]. by destruct (IH Ha).
Qed.

Lemma page_at_insert_ne m a p c x : a <> c -> page_at (<[a := p]> m) c x = page_at m c x.
Proof. intros Hne. unfold page_at. by rewrite lookup_insert_ne. Qed.

Lemma page_at_insert m a p x :
  page_at (<[a := p]> m) a x =
    if decide (covered p (x - base p)) then Some (data p (x - base p)) else None.
Proof. unfold page_at. by rewrite lookup_insert_eq. Qed.

(** Rewriting one page only matters where that page is the newest. *)
Lemma newest_update m l1 a l2 p x :
  NoDup (l1 ++ a :: l2) ->
  newest (<[a := p]> m) (l1 ++ a :: l2) x =
    match newest m l2 x with
    | Some v => Some v
    | None => match page_at (<[a := p]> m) a x with Some v => Some v | None => newest m l1 x end
    end.
Proof.
  intros Hnd. apply NoDup_app in Hnd as (_ & Hd & [Ha _]%NoDup_cons).
  rewrite newest_app. cbn [newest].
  rewrite (newest_ext m (<[a := p]> m) l2)
    by (intros c Hc; apply page_at_insert_ne; congruence || set_solver).
  rewrite (newest_ext m (<[a := p]> m) l1)
    by (intros c Hc; apply page_at_insert_ne; intros ->; apply (Hd c Hc); left).
  by destruct (newest m l2 x).
Qed.

Lemma newest_split m l1 a l2 x :
  newest m (l1 ++ a :: l2) x =
    match newest m l2 x with
    | Some v => Some v
    | None => match page_at m a x with Some v => Some v | None => newest m l1 x end
    end.
Proof. rewrite newest_app. cbn. by destruct (newest m l2 x). Qed.

(** Pages of another base hold nothing of the zone of [b]. *)
Lemma newest_other_base m l b x :
  (forall a p, m !! a = Some p -> page_wf p) -> aligned NOX_DATAZONE_SIZE b ->
  b <= x < b + NOX_DATAZONE_SIZE ->
  (forall c, c ∈ l -> page_base m c <> Some b) -> newest m l x = None.
Proof.
  intros Hwf Hb Hx Hl. apply newest_none. intros c Hc. apply page_at_none. intros p Hp Hcov.
  apply (Hl c Hc). unfold page_base. rewrite Hp. cbn. f_equal.
  pose proof (covered_zone p _ (Hwf _ _ Hp) Hcov). destruct (Hwf _ _ Hp) as (_ & _ & Hal & _).
  eapply (zone_unique _ _ x); [done..|lia|lia].
Qed.

Lemma view_ext s s' :
  ord s' = ord s -> disk s' = disk s ->
  (forall a x, a ∈ ord s -> page_at (pg s') a x = page_at (pg s) a x) -> view s' ≈ view s.
Proof.
  intros Ho Hd Hp x. unfold view. rewrite Ho, Hd. f_equal. apply newest_ext. auto.
Qed.

(** Changing a page where only the bytes of a chunk of its base change. *)
Lemma newest_put m l1 a l2 q c d x :
  NoDup (l1 ++ a :: l2) -> (forall e p, m !! e = Some p -> page_wf p) -> chunk_wf c ->
  (forall y, in_range (ck_off c) (ck_len c) y = true ->
     page_at (<[a := q]> m) a y = Some (ck_src c (y - ck_off c))) ->
  (forall y, in_range (ck_off c) (ck_len c) y = false ->
     page_at (<[a := q]> m) a y = page_at m a y) ->
  (forall e, e ∈ l2 -> page_base m e <> Some (ck_base c)) ->
  default (d x) (newest (<[a := q]> m) (l1 ++ a :: l2) x) =
    buf_put (fun y => default (d y) (newest m (l1 ++ a :: l2) y)) (ck_off c) (ck_src c)
      (ck_len c) x.
Proof.
  intros Hnd Hwf ((Hb & Hal) & Hi & Hl & He) Hin Hout Hl2. rewrite newest_update by done.
  unfold buf_put. rewrite newest_split. destruct (in_range _ _ x) eqn:E.
  - rewrite Hin by done. apply in_range_spec in E. unfold ck_off in *.
    rewrite (newest_other_base m l2 (ck_base c)); [done|done|done|lia|done].
  - by rewrite Hout.
Qed.

Lemma merged_page_at m a p q c :
  page_wf p -> base q = base p -> base p = ck_base c -> chunk_wf c ->
  (forall y, covered q y <-> ck_intra c <= y < ck_intra c + ck_len c \/ covered p y) ->
  data q = buf_put (data p) (ck_intra c) (ck_src c) (ck_len c) ->
  (forall y, in_range (ck_off c) (ck_len c) y = true ->
     page_at (<[a := q]> m) a y = Some (ck_src c (y - ck_off c))) /\
  (forall y, in_range (ck_off c) (ck_len c) y = false ->
     page_at (<[a := q]> m) a y =
     if decide (covered p (y - base p)) then Some (data p (y - base p)) else None).
Proof.
  intros Hp Hq Hb Hc Hcov Hdata. split; intros y Hy; rewrite page_at_insert, Hq, Hdata;
    unfold ck_off in *.
  - apply in_range_spec in Hy. rewrite decide_True by (apply Hcov; lia).
    rewrite buf_put_in by lia. f_equal. f_equal. lia.
  - assert (Hn : ~ (ck_intra c <= y - base p < ck_intra c + ck_len c)).
    { intros Hr. rewrite (proj2 (in_range_spec _ _ _)) in Hy; [done|lia]. }
    rewrite buf_put_out by done. apply decide_ext. rewrite Hcov. tauto.
Qed.

(** Filling the holes of a page that no older page of its base is ahead of. *)
Lemma newest_filled m l1 a l2 p q d x :
  NoDup (l1 ++ a :: l2) -> (forall e r, m !! e = Some r -> page_wf r) -> m !! a = Some p ->
  base q = base p -> page_wf q -> scrap_page_is_full q = true ->
  (base p <= x < base p + NOX_DATAZONE_SIZE ->
     (forall e, e ∈ l1 -> page_base m e <> Some (base p)) /\
     data q (x - base p) = if decide (covered p (x - base p)) then data p (x - base p) else d x) ->
  default (d x) (newest (<[a := q]> m) (l1 ++ a :: l2) x) =
  default (d x) (newest m (l1 ++ a :: l2) x).
Proof.
  intros Hnd Hwf Ha Hb Hq Hfull Hdata. rewrite newest_update, newest_split by done.
  destruct (newest m l2 x) as [v|]; [done|]. pose proof (Hwf _ _ Ha) as Hp.
  rewrite page_at_insert, Hb. unfold page_at. rewrite Ha. cbn [mbind option_bind].
  destruct (decide (0 <= x - base p < NOX_DATAZONE_SIZE)) as [Hx|Hx].
  - destruct Hdata as [Hl1 Hdata]; [lia|]. rewrite decide_True by (by apply full_covered).
    rewrite Hdata. case_decide; [done|]. destruct Hp as (_ & _ & Hal & _).
    by rewrite (newest_other_base m l1 (base p) x) by (done || lia).
  - rewrite !decide_False; [done|..]; intros Hc%covered_zone; done.
Qed.

(** Dropping the oldest page once its bytes are on the disk. *)
Lemma newest_dropped m a l p d x :
  a ∉ l -> m !! a = Some p -> page_wf p ->
  (base p <= x < base p + NOX_DATAZONE_SIZE -> d x = data p (x - base p)) ->
  default (d x) (newest (delete a m) l x) = default (d x) (newest m (a :: l) x).
Proof.
  intros Ha Hp Hwf Hd. rewrite (newest_ext m (delete a m)).
  2: { intros c Hc. unfold page_at. rewrite lookup_delete_ne; [done|]. congruence. }
  cbn. destruct (newest m l x); [done|]. unfold page_at. rewrite Hp. cbn [mbind option_bind].
  case_decide as Hc; [|done]. apply covered_zone in Hc; [|done]. cbn. apply Hd. lia.
Qed.

(** A page says nothing of the bytes outside its zone. *)
Lemma page_at_outside m a p x :
  m !! a = Some p -> page_wf p -> ~ (base p <= x < base p + NOX_DATAZONE_SIZE) -> page_at m a x = None.
Proof.
  intros Hp Hw Hx. apply page_at_none. intros q Hq Hc. assert (q = p) as -> by congruence.
  apply Hx. pose proof (covered_zone _ _ Hw Hc). lia.
Qed.

Lemma spoiled_out b x : spoiled b -> ~ damaged x -> ~ (b <= x < b + NOX_DATAZONE_SIZE).
Proof. intros Hs Hd Hx. by apply Hd, Hs. Qed.

(** ** Pages through a merge *)

Lemma tag_if_full_same p :
  covered (tag_if_full p) = covered p /\ data (tag_if_full p) = data p /\
  base (tag_if_full p) = base p /\ in_queue (tag_if_full p) = in_queue p /\
  detached (tag_if_full p) = detached p /\
  scrap_page_is_full (tag_if_full p) = scrap_page_is_full p /\
  (page_wf p -> page_wf (tag_if_full p)) /\
  (tag (hdr p) <> NOX_TAG_SEALED -> tag (hdr (tag_if_full p)) <> NOX_TAG_SEALED).
Proof. unfold tag_if_full. destruct (scrap_page_is_full p) eqn:E; split_and!; done. Qed.

Lemma merge_ok_facts p c p' :
  page_wf p -> chunk_wf c ->
  scrap_page_merge p (ck_src c) (ck_intra c) (ck_len c) = Some (SCRAP_OK, p') ->
  page_wf p' /\ (forall y, covered p' y <-> ck_intra c <= y < ck_intra c + ck_len c \/ covered p y) /\
  data p' = buf_put (data p) (ck_intra c) (ck_src c) (ck_len c) /\ base p' = base p /\
  in_queue p' = in_queue p /\ detached p' = detached p /\ tag (hdr p') = tag (hdr p).
Proof.
  intros Hp (_ & Hi & Hl & He) E.
  destruct (merge_spec p (ck_src c) _ _ Hp Hi Hl He) as (st & q & E' & Hst).
  rewrite E in E'. injection E' as <- <-. destruct Hst as (Hw & Hc & Hd & Hk & Ht & _).
  split_and!; try done; by rewrite Hk.
Qed.

Lemma merge_overflow_not_full p c p' :
  page_wf p -> chunk_wf c ->
  scrap_page_merge p (ck_src c) (ck_intra c) (ck_len c) = Some (SCRAP_OVERFLOW, p') ->
  ck_len c < NOX_DATAZONE_SIZE /\ scrap_page_is_full p = false.
Proof.
  intros Hp (_ & Hi & Hl & He) E. split.
  - destruct (decide (ck_len c = NOX_DATAZONE_SIZE)); [|lia].
    destruct (merge_single p (ck_src c) _ _ Hp Hi Hl He) as [q E']; [tauto|]. congruence.
  - destruct (scrap_page_is_full p) eqn:Ef; [|done]. apply is_full_iff in Ef; [|apply Hp].
    destruct (merge_single p (ck_src c) _ _ Hp Hi Hl He) as [q E']; [tauto|]. congruence.
Qed.

Lemma fresh_page_wf b za junk :
  base_ok b -> aligned NOX_BLOCK_SIZE za -> page_wf (fresh_page b 0 za junk None).
Proof. intros [Hb Hal] Hza. split; [apply fresh_header_wf|done]. Qed.

Lemma fresh_page_uncovered b za junk y : ~ covered (fresh_page b 0 za junk None) y.
Proof. change (~ covers [] y). rewrite covers_nil. tauto. Qed.

(** A page born from one chunk is full exactly when the chunk is. *)
Lemma born_full c za junk p' :
  chunk_wf c -> aligned NOX_BLOCK_SIZE za ->
  scrap_page_merge (fresh_page (ck_base c) 0 za junk None) (ck_src c) (ck_intra c) (ck_len c) =
    Some (SCRAP_OK, p') ->
  scrap_page_is_full p' = true -> ck_len c = NOX_DATAZONE_SIZE.
Proof.
  intros Hc Hza E Hf. pose proof Hc as (Hb & Hi & Hl & He).
  destruct (merge_ok_facts _ _ _ (fresh_page_wf _ za junk Hb Hza) Hc E) as (Hw & Hcov & _).
  assert (H0 : covered p' 0) by (apply full_covered; [done..|sz]).
  assert (H1 : covered p' (NOX_DATAZONE_SIZE - 1)) by (apply full_covered; [done..|sz]).
  apply Hcov in H0 as [H0|H0]; [|by apply fresh_page_uncovered in H0].
  apply Hcov in H1 as [H1|H1]; [|by apply fresh_page_uncovered in H1]. lia.
Qed.

(** A chunk that fills its page is alone on its base. *)
Lemma busy_not_full s i c ph :
  pinv s -> fl s !! i = Some (c, ph) -> busy_base (fl s) (ck_base c) ->
  ck_len c < NOX_DATAZONE_SIZE.
Proof.
  intros Hinv Hi (j & d & ph' & Hj & Hb & Hd).
  destruct (decide (j = i)) as [->|Hne]; [congruence|].
  destruct (pi_chunks _ Hinv _ _ _ Hi) as (_ & Hi0 & Hl0 & He0).
  destruct (pi_chunks _ Hinv _ _ _ Hj) as (_ & Hi1 & Hl1 & He1).
  destruct (pi_disjoint _ Hinv _ _ _ _ _ _ Hne Hj Hi); unfold ck_off in *; lia.
Qed.

(** ** The view through each transition *)

(** Rewriting a page changes nothing outside its zone, wherever the page is. *)
Lemma view_zone s s' a p q x :
  pg s !! a = Some p -> page_wf p -> page_wf q -> base q = base p ->
  ord s' = ord s -> disk s' = disk s -> pg s' = <[a := q]> (pg s) ->
  ~ (base p <= x < base p + NOX_DATAZONE_SIZE) -> view s' x = view s x.
Proof.
  intros Hp Hwp Hwq Hb Ho Hd Hpg Hx. unfold view. rewrite Ho, Hd, Hpg. f_equal. apply newest_ext.
  intros e _. destruct (decide (a = e)) as [<-|Hne]; [|by apply page_at_insert_ne].
  rewrite (page_at_outside (pg s) a p), (page_at_outside _ a q); rewrite ?lookup_insert_eq; try done.
  by rewrite Hb.
Qed.

(** Nor does a page that enters the order. *)
Lemma view_enter s s' a q l1 l2 x :
  a ∉ ord s -> page_wf q -> ord s = l1 ++ l2 -> ord s' = l1 ++ a :: l2 -> disk s' = disk s ->
  pg s' = <[a := q]> (pg s) -> ~ (base q <= x < base q + NOX_DATAZONE_SIZE) -> view s' x = view s x.
Proof.
  intros Ha Hw Ho Ho' Hd Hpg Hx. unfold view. rewrite Ho', Hd, Hpg, newest_split, Ho. f_equal.
  rewrite (page_at_outside _ a q) by (done || apply lookup_insert_eq).
  rewrite Ho in Ha. transitivity (newest (<[a := q]> (pg s)) (l1 ++ l2) x).
  - by rewrite newest_app.
  - apply newest_ext. intros e He. apply page_at_insert_ne. by intros ->.
Qed.

Lemma put_chunk_zone d c x :
  chunk_wf c -> ~ (ck_base c <= x < ck_base c + NOX_DATAZONE_SIZE) -> put_chunk d (Some c) x = d x.
Proof.
  intros (_ & Hi & Hl & He) Hx. cbn. apply buf_put_out. unfold ck_off. lia.
Qed.

Lemma view_merge s s' i c a p p' :
  pinv s -> fl s !! i = Some (c, FLook) -> res s !! ck_base c = Some a -> pg s !! a = Some p ->
  scrap_page_merge p (ck_src c) (ck_intra c) (ck_len c) = Some (SCRAP_OK, p') ->
  ord s' = ord s -> disk s' = disk s -> pg s' = <[a := tag_if_full p']> (pg s) ->
  agree (view s') (put_chunk (view s) (Some c)).
Proof.
  intros Hinv Hi Hr Hp E Ho Hd Hpg x Hx. pose proof (pi_chunks _ Hinv _ _ _ Hi) as Hc.
  destruct (pi_res _ Hinv _ _ Hr) as (Hnew & q & Hq & Hb & _).
  rewrite Hp in Hq. injection Hq as <-. pose proof (pi_wf _ Hinv _ _ Hp) as Hw.
  destruct (merge_ok_facts _ _ _ Hw Hc E) as (Hw' & Hcov & Hdata & Hbase & _).
  destruct (tag_if_full_same p') as (T1 & T2 & T3 & _ & _ & _ & T7 & _).
  destruct Hnew as [(l1 & l2 & Hord & Hl2)|Hsp].
  - destruct (merged_page_at (pg s) a p (tag_if_full p') c) as [Hin Hout];
      [done|congruence|done|done|by rewrite T1|congruence|].
    unfold view, put_chunk. rewrite Ho, Hd, Hpg, Hord.
    apply (newest_put (pg s) l1 a l2); try done.
    + rewrite <- Hord. apply Hinv.
    + apply Hinv.
    + intros y Hy. rewrite Hout by done. unfold page_at. by rewrite Hp.
  - pose proof (spoiled_out _ _ Hsp Hx). rewrite put_chunk_zone by done.
    eapply (view_zone s s' a p (tag_if_full p')); try done; [by apply T7|congruence|by rewrite Hb].
Qed.

Lemma newest_absent m l1 a l2 x :
  m !! a = None -> newest m (l1 ++ a :: l2) x = newest m (l1 ++ l2) x.
Proof.
  intros Ha. rewrite newest_split, newest_app. unfold page_at. by rewrite Ha.
Qed.

Lemma view_fresh s s' i c a za junk p' l1 l2 :
  pinv s -> fl s !! i = Some (c, FLook) -> pg s !! a = None -> aligned NOX_BLOCK_SIZE za ->
  scrap_page_merge (fresh_page (ck_base c) 0 za junk None) (ck_src c) (ck_intra c) (ck_len c) =
    Some (SCRAP_OK, p') ->
  ord s = l1 ++ l2 -> ord s' = l1 ++ a :: l2 ->
  (forall e, e ∈ l2 -> page_base (pg s) e <> Some (ck_base c)) \/ spoiled (ck_base c) ->
  disk s' = disk s -> pg s' = <[a := set_in_queue true (tag_if_full p')]> (pg s) ->
  agree (view s') (put_chunk (view s) (Some c)).
Proof.
  intros Hinv Hi Ha Hza E Ho Ho' Hl2 Hd Hpg x Hx. pose proof (pi_chunks _ Hinv _ _ _ Hi) as Hc.
  destruct (merge_ok_facts _ _ _ (fresh_page_wf _ za junk (proj1 Hc) Hza) Hc E)
    as (Hw' & Hcov & Hdata & Hbase & _).
  destruct (tag_if_full_same p') as (T1 & T2 & T3 & _ & _ & _ & T7 & _).
  assert (Hna : a ∉ l1 ++ l2).
  { rewrite <- Ho. intros Hin'. apply (pi_dom _ Hinv) in Hin' as [q Hq]. congruence. }
  destruct Hl2 as [Hl2|Hsp].
  2: { pose proof (spoiled_out _ _ Hsp Hx). rewrite put_chunk_zone by done.
       eapply (view_enter s s' a _ l1 l2 x); [by rewrite Ho| |done..|]; [by apply T7|].
       cbn. by rewrite T3, Hbase. }
  destruct (merged_page_at (pg s) a (fresh_page (ck_base c) 0 za junk None)
    (set_in_queue true (tag_if_full p')) c) as [Hin Hout];
    [by apply fresh_page_wf; [apply Hc|]|cbn in *; congruence|done|done| |cbn in *; congruence|].
  { intros y. rewrite <- Hcov, <- T1. done. }
  unfold view, put_chunk. rewrite Ho', Hd, Hpg.
  rewrite (newest_put (pg s) l1 a l2 _ c (disk s) x); try done.
  - unfold buf_put. destruct (in_range _ _ x); [done|]. by rewrite newest_absent, Ho.
  - pose proof (pi_nodup _ Hinv) as Hnd. rewrite Ho in Hnd.
    apply NoDup_app in Hnd as (H1 & H2 & H3). apply NoDup_app. split; [done|].
    split; [set_solver|]. constructor; [set_solver|done].
  - apply Hinv.
  - intros y Hy. rewrite Hout by done. rewrite decide_False by apply fresh_page_uncovered.
    unfold page_at. by rewrite Ha.
Qed.

Lemma view_apply s s' a p p' holes scratch :
  pinv s -> h1 s = H1Got a holes scratch -> pg s !! a = Some p ->
  scrap_page_apply_holes p scratch = Some p' ->
  ord s' = ord s -> disk s' = disk s -> pg s' = <[a := tag_page NOX_TAG_FULL p']> (pg s) ->
  agree (view s') (view s).
Proof.
  intros Hinv Hh Hp E Ho Hd Hpg x Hx. pose proof (pi_wf _ Hinv _ _ Hp) as Hw.
  pose proof (pi_stageA _ Hinv) as Hs1. unfold s1_inv in Hs1. rewrite Hh in Hs1.
  destruct Hs1 as (Halone & q & Hq & [_ Hcov] & Hscr). rewrite Hp in Hq. injection Hq as <-.
  destruct (apply_holes_page p scratch Hw) as (q & E' & Hw' & Hk & Hf & Hdata).
  rewrite E in E'. injection E' as <-.
  pose proof (pi_nodup _ Hinv) as Hnd. unfold view. rewrite Ho, Hd, Hpg.
  unfold ord in *. rewrite Hh in *. cbn [s1_page app] in *. rewrite app_assoc in *.
  apply (newest_filled _ _ _ _ p); try done; try apply Hinv; [cbn; by rewrite Hk|].
  intros Hz. split.
  - intros e He Hbase. apply Hx. apply (Halone e (base p) He); [by unfold page_base; rewrite Hp|done|done].
  - cbn [tag_page set_hdr data]. assert (Hy : 0 <= x - base p < NOX_DATAZONE_SIZE) by lia.
    destruct (Hdata _ Hy) as [D1 D2]. case_decide as Hc; [by apply D1|]. rewrite D2 by done.
    assert (Hxy : base p + (x - base p) = x) by lia. rewrite Hscr; [by rewrite Hxy| |by rewrite Hxy].
    destruct (Hcov _ Hy); done.
Qed.

Lemma view_write s s' batch :
  pinv s -> h2 s = H2Detach batch [] -> ord s' = ord s -> pg s' = pg s ->
  (forall x, (forall a p, a ∈ batch -> pg s !! a = Some p ->
                ~ (base p <= x < base p + NOX_DATAZONE_SIZE)) -> disk s' x = disk s x) ->
  view s' ≈ view s.
Proof.
  intros Hinv Hh Ho Hpg Hd x. unfold view. rewrite Ho, Hpg.
  destruct (newest (pg s) (ord s) x) as [v|] eqn:E; [done|]. cbn. apply Hd.
  intros a p Ha Hp Hx. assert (is_Some (newest (pg s) (ord s) x)) as [v Hv]; [|congruence].
  apply (newest_some _ _ a).
  - unfold ord. rewrite Hh. cbn. apply elem_of_app. auto.
  - eexists. apply page_at_some. exists p. split_and!; [done| |done].
    apply full_covered; [by eapply pi_wf| |lia]. eapply (pi_full _ Hinv a); [|done].
    rewrite Hh. cbn. apply elem_of_app. auto.
Qed.

Lemma view_free s s' a rest :
  pinv s -> h2 s = H2Done (a :: rest) -> ord s = a :: ord s' -> pg s' = delete a (pg s) ->
  disk s' = disk s -> agree (view s') (view s).
Proof.
  intros Hinv Hh Ho Hpg Hd x Hx. pose proof (pi_nodup _ Hinv) as Hnd. rewrite Ho in Hnd.
  apply NoDup_cons in Hnd as [Ha _].
  assert (is_Some (pg s !! a)) as [p Hp] by (apply Hinv; rewrite Ho; left).
  unfold view. rewrite Hpg, Hd, Ho. eapply newest_dropped; [done..|by eapply pi_wf|].
  pose proof (pi_stageB _ Hinv) as Hs2. unfold s2_inv in Hs2. rewrite Hh in Hs2.
  destruct Hs2 as (_ & _ & Hdisk). intros Hy. eapply Hdisk; [left|done|done|done].
Qed.

(** A direct write: the bytes of the pages that are live are damaged. *)
Lemma view_direct s s' c :
  pinv s -> ord s' = ord s -> pg s' = pg s ->
  (forall a p x, pg s !! a = Some p -> base p <= x < base p + NOX_DATAZONE_SIZE ->
     ck_off c <= x < ck_off c + ck_len c -> damaged x) ->
  disk s' ≈ buf_put (disk s) (ck_off c) (ck_src c) (ck_len c) ->
  agree (view s') (put_chunk (view s) (Some c)).
Proof.
  intros Hinv Ho Hpg Hfar Hd x Hx. unfold view, put_chunk. rewrite Ho, Hpg, Hd.
  unfold buf_put. destruct (in_range _ _ x) eqn:E; [|done]. apply in_range_spec in E.
  rewrite newest_none; [done|]. intros a _. apply page_at_none. intros p Hp Hc.
  apply covered_zone in Hc; [|by eapply pi_wf]. apply Hx, (Hfar a p x); [done|lia|done].
Qed.

(** A failed write. *)
Lemma view_spoil s s' lo len :
  ord s' = ord s -> pg s' = pg s -> (forall x, lo <= x < lo + len -> damaged x) ->
  (forall x, ~ (lo <= x < lo + len) -> disk s' x = disk s x) -> agree (view s') (view s).
Proof.
  intros Ho Hpg Hdm Hd x Hx. unfold view. rewrite Ho, Hpg. f_equal. apply Hd. intros Hr. by apply Hx, Hdm.
Qed.

Lemma orphans_are_busy s i c ph :
  pinv s -> fl s !! i = Some (c, ph) -> res s !! ck_base c = None ->
  ck_len c = NOX_DATAZONE_SIZE ->
  (forall e, e ∈ s1_page (h1 s) ++ pq1 s -> page_base (pg s) e <> Some (ck_base c)) \/
  spoiled (ck_base c).
Proof.
  intros Hinv Hi Hr Hl.
  destruct (decide (Exists (fun e => page_base (pg s) e = Some (ck_base c)) (s1_page (h1 s) ++ pq1 s)))
    as [(e & He & Hb)%Exists_exists|Hno].
  - right. destruct (pi_orphan _ Hinv _ _ He Hb Hr) as [Hbusy|]; [|done].
    pose proof (busy_not_full _ _ _ _ Hinv Hi Hbusy). lia.
  - left. intros e He Hb. apply Hno, Exists_exists. eauto.
Qed.

(** A page given up changes its place in the order, and bytes of its zone only. *)
Lemma view_requeue s s' a p q l1 l2 :
  pinv s -> pg s !! a = Some p -> a ∉ ord s -> page_wf q -> base q = base p ->
  ord s = l1 ++ l2 -> ord s' = l1 ++ a :: l2 -> disk s' = disk s -> pg s' = <[a := q]> (pg s) ->
  agree (view s') (view s).
Proof.
  intros Hinv Hp Ha Hw Hb Ho Ho' Hd Hpg x Hx. destruct (pi_out _ Hinv _ _ Hp Ha) as (_ & Hsp & _).
  eapply (view_enter s s' a q); try done. rewrite Hb. by apply spoiled_out.
Qed.

Lemma view_drop s s' a p l1 l2 :
  pinv s -> pg s !! a = Some p -> spoiled (base p) -> ord s = l1 ++ a :: l2 -> ord s' = l1 ++ l2 ->
  disk s' = disk s -> pg s' = <[a := set_in_queue false p]> (pg s) -> agree (view s') (view s).
Proof.
  intros Hinv Hp Hsp Ho Ho' Hd Hpg x Hx. symmetry. pose proof (pi_nodup _ Hinv) as Hnd.
  rewrite Ho in Hnd. apply NoDup_app in Hnd as (_ & N1 & [N2 _]%NoDup_cons).
  eapply (view_enter s' s a p l1 l2); try done.
  - rewrite Ho', elem_of_app. intros [Hin|Hin]; [by apply (N1 _ Hin); left|done].
  - by eapply pi_wf.
  - rewrite Hpg, insert_insert_eq. symmetry. by apply insert_id.
  - by apply spoiled_out.
Qed.

(** The chunk of a spoiled page. *)
Lemma put_chunk_spoiled d c : chunk_wf c -> spoiled (ck_base c) -> agree (put_chunk d (Some c)) d.
Proof. intros Hc Hsp x Hx. apply put_chunk_zone; [done|]. by apply spoiled_out. Qed.

Lemma step_view s l s' : pinv s -> pstep s l s' -> agree (view s') (put_chunk (view s) l).
Proof.
  intros Hinv Hs. pose proof Hs as Hs0. destruct Hs; try (by eapply view_free; eauto);
    try (by eapply view_spoil; eauto); try (by eapply view_merge; eauto);
    try (by eapply view_apply; eauto);
    try (by apply agree_eq, view_ext; [unfold ord; cbn; rewrite <- ?app_assoc; done|done|done]).
  - apply agree_eq, view_ext; [done..|]. cbn. intros e x _. destruct (decide (a = e)) as [->|Hne];
      [|by rewrite page_at_insert_ne]. unfold page_at. rewrite lookup_insert_eq, H2. done.
  - destruct (scrap_page_is_full p') eqn:Ef.
    + eapply (view_fresh _ _ i c a za junk p' (s2_pages s2 ++ l2) (s1_page s1 ++ l1)); eauto;
        [unfold ord; cbn; by rewrite <- !app_assoc..|].
      eapply (orphans_are_busy _ _ _ _ Hinv); eauto. eapply born_full; eauto. by eapply pi_chunks.
    + eapply (view_fresh _ _ i c a za junk p' (s2_pages s2 ++ l2 ++ s1_page s1 ++ l1) []); eauto;
        [by rewrite app_nil_r|unfold ord; cbn; by rewrite <- !app_assoc|left; set_solver].
  - apply agree_eq, view_ext; [done..|]. cbn. intros e x _. destruct (decide (a = e)) as [->|Hne];
      [|by rewrite page_at_insert_ne]. unfold page_at. by rewrite lookup_insert_eq, H0.
  - apply agree_eq, view_ext; [done..|]. cbn. intros e x _. destruct (decide (a = e)) as [->|Hne];
      [|by rewrite page_at_insert_ne]. unfold page_at. by rewrite lookup_insert_eq, H0.
  - apply agree_eq. eapply view_write; eauto.
  - eapply view_direct; eauto.
  - eapply (view_drop _ _ a p (s2_pages s2 ++ l2) l1); eauto; unfold ord; cbn; by rewrite <- !app_assoc.
  - pose proof (pi_chunks _ Hinv _ _ _ H0) as Hc. pose proof (pi_wf _ Hinv _ _ H2) as Hw.
    destruct (merge_ok_facts _ _ _ Hw Hc H5) as (Hw' & _ & _ & Hb & _).
    destruct (pi_out _ Hinv a p H2 H4) as (_ & Hsp & _).
    destruct (pi_res _ Hinv _ _ H1) as (_ & p0 & Hp0 & Hb0 & _). cbn in Hp0.
    assert (p0 = p) as -> by congruence. rewrite put_chunk_spoiled by (done || by rewrite <- Hb0).
    eapply (view_requeue _ _ a p (set_in_queue true (tag_page NOX_TAG_FULL p')) (s2_pages s2 ++ l2)
      (s1_page s1 ++ l1)); eauto;
      unfold ord; cbn; by rewrite <- ?app_assoc.
  - pose proof (pi_wf _ Hinv _ _ H2) as Hw.
    eapply (view_requeue _ _ a p (set_in_queue true (tag_page NOX_TAG_SEALED p))
      (s2_pages s2 ++ l2 ++ s1_page s1 ++ l1) []); eauto;
      [by rewrite app_nil_r|unfold ord; cbn; by rewrite <- ?app_assoc].
  - pose proof (pi_wf _ Hinv _ _ H1) as Hw.
    destruct (tag_if_full_same p) as (_ & _ & Hbt & _ & _ & _ & Hwt & _).
    specialize (Hwt Hw). assert (Hwq : page_wf (set_in_queue true (tag_if_full p))) by exact Hwt.
    assert (Hbq : base (set_in_queue true (tag_if_full p)) = base p) by exact Hbt.
    destruct (scrap_page_is_full p).
    + eapply (view_requeue _ _ a p _ (s2_pages s2 ++ l2) (s1_page s1 ++ l1)); eauto;
        unfold ord; cbn; by rewrite <- ?app_assoc.
    + eapply (view_requeue _ _ a p _ (s2_pages s2 ++ l2 ++ s1_page s1 ++ l1) []); eauto;
        [by rewrite app_nil_r|unfold ord; cbn; by rewrite <- ?app_assoc].
Qed.

(** * The invariant through each transition *)

Lemma page_base_set m a p q c :
  m !! a = Some p -> base q = base p -> page_base (<[a := q]> m) c = page_base m c.
Proof.
  intros Hp Hb. unfold page_base. rewrite lookup_insert. case_decide as E; [subst c|done].
  rewrite Hp. cbn. by rewrite Hb.
Qed.

(** Moving pages along the pipeline, and the disk: the order is kept. *)
Lemma pinv_move s s' :
  pinv s -> pg s' = pg s -> res s' = res s -> fl s' = fl s -> ord s' = ord s ->
  (forall a, a ∈ s1_page (h1 s') ++ pq1 s' -> a ∈ s1_page (h1 s) ++ pq1 s) ->
  (forall a p, a ∈ s2_pages (h2 s') ++ pq2 s' -> pg s !! a = Some p ->
     scrap_page_is_full p = true) ->
  s1_inv s' -> s2_inv s' -> pinv s'.
Proof.
  intros [] Hpg Hres Hfl Hord H1 H2 Hs1 Hs2. unfold is_newest in *.
  split; unfold is_newest; rewrite ?Hpg, ?Hres, ?Hfl, ?Hord in *; eauto.
Qed.

Lemma covers_grow holes p q :
  holes_cover holes p -> (forall y, covered p y -> covered q y) -> holes_cover holes q.
Proof. intros [Hw Hc] Hg. split; [done|]. intros x Hx. destruct (Hc x Hx); auto. Qed.

(** The page is not among those already on the disk and waiting to be freed. *)
Definition not_written (s : pipe) (a : addr) : Prop :=
  match h2 s with H2Done rest => a ∉ rest | _ => True end.

(** Rewriting a page in place. *)
Lemma pinv_set_page s a p q :
  pinv s -> pg s !! a = Some p -> page_wf q -> base q = base p ->
  (forall y, covered p y -> covered q y) ->
  (scrap_page_is_full p = true -> scrap_page_is_full q = true) ->
  ((forall b, res s !! b <> Some a) /\ a ∈ ord s \/
     in_queue q = in_queue p /\ detached q = detached p) ->
  (tag (hdr q) = NOX_TAG_SEALED ->
     tag (hdr p) = NOX_TAG_SEALED \/ busy_base (fl s) (base p) \/ (forall b, res s !! b <> Some a)) ->
  (data q = data p \/ not_written s a) ->
  pinv (mk_pipe (<[a := q]> (pg s)) (res s) (pq1 s) (pq2 s) (h1 s) (h2 s) (disk s) (fl s)).
Proof.
  intros Hinv Hp Hq Hb Hcov Hfull Hflags Htag Hdata. pose proof Hinv as [].
  assert (Hpb : forall c, page_base (<[a := q]> (pg s)) c = page_base (pg s) c)
    by (intros c; by eapply page_base_set).
  assert (Hlk : forall c r, <[a := q]> (pg s) !! c = Some r -> exists r0, pg s !! c = Some r0 /\
    (c = a /\ r = q /\ r0 = p \/ c <> a /\ r = r0)).
  { intros c r. rewrite lookup_insert. case_decide; naive_solver. }
  split; cbn; unfold is_newest, ord in *; cbn; try done.
  - intros c Hc. rewrite lookup_insert. case_decide; [done|by apply pi_dom0].
  - intros c r Hr Hout. apply Hlk in Hr as (r0 & Hr0 & [(-> & -> & ->)|[_ ->]]); [|by eauto].
    destruct Hflags as [[_ Hin]|[-> _]]; [done|]. rewrite Hb. by eapply pi_out0.
  - intros c r Hr. apply Hlk in Hr as (r0 & Hr0 & [(-> & -> & ->)|[_ ->]]); eauto.
  - intros b c Hc. destruct (pi_res0 b c Hc) as (Hnew & r & Hr & Hrb & Hrq & Hrd). split.
    { destruct Hnew as [(l1 & l2 & Ho & Hl2)|Hsp]; [left|by right].
      exists l1, l2; split; [done|]; intros e; rewrite Hpb; auto. }
    rewrite lookup_insert. case_decide as E; [subst c|by exists r].
    rewrite Hp in Hr. injection Hr as <-. exists q.
    destruct Hflags as [[Hno _]|[-> ->]]; [by apply Hno in Hc|]. split_and!; congruence || auto.
  - intros c r Hc Hr. apply Hlk in Hr as (r0 & Hr0 & [(-> & -> & ->)|[_ ->]]); eauto.
  - unfold s1_inv, alone in *. cbn.
    assert (Hhold : forall c holes, (exists r, pg s !! c = Some r /\ holes_cover holes r) ->
      exists r, <[a := q]> (pg s) !! c = Some r /\ holes_cover holes r).
    { intros c holes (r & Hr & Hh). rewrite lookup_insert. case_decide as E; [subst c|eauto].
      exists q. rewrite Hp in Hr. injection Hr as <-. split; [done|]. by eapply covers_grow. }
    destruct (h1 s) as [|c|c holes|c holes|c holes scratch|c]; try done.
    + by apply Hhold.
    + destruct pi_stageA0 as [Hal Hh]. split; [intros e b; rewrite !Hpb; apply Hal|by apply Hhold].
    + destruct pi_stageA0 as (Hal & r & Hr & Hh & Hs). split; [intros e b; rewrite !Hpb; apply Hal|].
      destruct (Hhold c holes) as (r' & Hr' & Hh'); [eauto|]. exists r'. split_and!; [done..|].
      apply Hlk in Hr' as (r0 & Hr0 & [(-> & -> & ->)|[_ ->]]); [|by assert (r0 = r) as -> by congruence].
      assert (r = p) as -> by congruence. by rewrite Hb.
    + destruct pi_stageA0 as (r & Hr & Hf). rewrite lookup_insert. case_decide as E; [subst c|eauto].
      exists q. rewrite Hp in Hr. injection Hr as <-. auto.
  - unfold s2_inv, consecutive, not_written in *. cbn.
    destruct (h2 s) as [|batch|batch rest|rest]; try done; setoid_rewrite Hpb; [done..|].
    destruct pi_stageB0 as (Hco & Hres & Hdisk). split_and!; [done..|]. intros c r x Hc Hr Hx.
    apply Hlk in Hr as (r0 & Hr0 & [(-> & -> & ->)|[_ ->]]); [|by eauto].
    destruct Hdata as [->|Hno]; [rewrite Hb in *; eauto|done].
  - intros c b. rewrite Hpb. eauto.
  - intros c b r Hc Hr Ht. apply Hlk in Hr as (r0 & Hr0 & [(-> & -> & ->)|[_ ->]]); [|by eauto].
    destruct (pi_res0 b a Hc) as (_ & r & Hr & Hrb & _). rewrite Hp in Hr. injection Hr as <-.
    destruct (Htag Ht) as [?|[?|Hno]]; [by eauto|by rewrite <- Hrb|by apply Hno in Hc].
Qed.

Lemma busy_insert f i c ph b :
  (forall d ph', f !! i = Some (d, ph') -> d = c) ->
  busy_base f b -> busy_base (<[i := (c, ph)]> f) b.
Proof.
  intros Hsame (j & d & ph' & Hj & Hb & Hl). destruct (decide (j = i)) as [->|Hne].
  - pose proof (Hsame d ph' Hj) as ->. exists i, c, ph. by rewrite lookup_insert_eq.
  - exists j, d, ph'. by rewrite lookup_insert_ne.
Qed.

(** A new chunk, or a change of phase of one in flight. *)
Lemma pinv_flight s i c ph :
  pinv s -> chunk_wf c ->
  (forall d ph', fl s !! i = Some (d, ph') -> d = c) ->
  (forall j d ph', j <> i -> fl s !! j = Some (d, ph') -> chunk_disjoint c d) ->
  (forall a, ph = FDet a -> ck_len c < NOX_DATAZONE_SIZE) ->
  pinv (mk_pipe (pg s) (res s) (pq1 s) (pq2 s) (h1 s) (h2 s) (disk s) (<[i := (c, ph)]> (fl s))).
Proof.
  intros Hinv Hc Hsame Hdis Hdet. pose proof Hinv as []. split; cbn; try done.
  - intros a b Ha Hb Hr. destruct (pi_orphan0 a b Ha Hb Hr); [left; by apply busy_insert|by right].
  - intros a b p Hr Hp Ht. apply busy_insert; eauto.
  - intros j d ph'. rewrite lookup_insert. case_decide; naive_solver.
  - intros j k d e ph1 ph2 Hne. rewrite !lookup_insert.
    case_decide as E1; case_decide as E2; subst; [done|..].
    + intros [= -> ->] Hk. eapply Hdis; [|done]. congruence.
    + intros Hj [= -> ->]. assert (chunk_disjoint e d) by (eapply Hdis; [|done]; congruence).
      unfold chunk_disjoint in *. tauto.
    + eauto.
  - intros j d e. rewrite lookup_insert. case_decide; [|by eauto]. intros [= -> ->]. eauto.
Qed.

(** A chunk leaves: its page, if resident, is not sealed, and spoiled if there is none. *)
Lemma pinv_leave s i c ph :
  pinv s -> fl s !! i = Some (c, ph) ->
  (res s !! ck_base c = None -> spoiled (ck_base c)) ->
  (forall a p, res s !! ck_base c = Some a -> pg s !! a = Some p -> tag (hdr p) <> NOX_TAG_SEALED) ->
  pinv (mk_pipe (pg s) (res s) (pq1 s) (pq2 s) (h1 s) (h2 s) (disk s) (delete i (fl s))).
Proof.
  intros Hinv Hi Hnone Ht. pose proof Hinv as [].
  assert (Hbusy : forall b, b <> ck_base c -> busy_base (fl s) b -> busy_base (delete i (fl s)) b).
  { intros b Hb (j & d & ph' & Hj & Hd & Hl). exists j, d, ph'. rewrite lookup_delete_ne; [done|].
    intros <-. congruence. }
  split; cbn; try done.
  - intros e b He Hb Hn. destruct (decide (b = ck_base c)) as [->|Hne]; [right; by apply Hnone|].
    destruct (pi_orphan0 e b He Hb Hn); [left; by apply Hbusy|by right].
  - intros e b q He Hq Hs. apply Hbusy; [|by eauto]. intros ->. by eapply Ht.
  - intros j d ph' [_ Hj]%lookup_delete_Some. eauto.
  - intros j k d e ph1 ph2 Hne [_ Hj]%lookup_delete_Some [_ Hk]%lookup_delete_Some. eauto.
  - intros j d e [_ Hj]%lookup_delete_Some. eauto.
Qed.

(** The chunk of a caller is accepted: its page is resident and not sealed. *)
Lemma pinv_finish s i c ph a p :
  pinv s -> fl s !! i = Some (c, ph) -> res s !! ck_base c = Some a -> pg s !! a = Some p ->
  tag (hdr p) <> NOX_TAG_SEALED ->
  pinv (mk_pipe (pg s) (res s) (pq1 s) (pq2 s) (h1 s) (h2 s) (disk s) (delete i (fl s))).
Proof. intros Hinv Hi Hr Hp Ht. eapply pinv_leave; [done..|congruence|]. intros; congruence. Qed.

Lemma unlink_res_some b a m b' a' :
  unlink_res b a m !! b' = Some a' -> m !! b' = Some a' /\ (b' = b -> a' <> a).
Proof.
  unfold unlink_res. case_decide as E.
  - intros [Hne Hm]%lookup_delete_Some. split; [done|]. congruence.
  - intros Hm. split; [done|]. intros -> ->. done.
Qed.

Lemma unlink_res_none b a m b' :
  unlink_res b a m !! b' = None -> m !! b' = None \/ b' = b /\ m !! b = Some a.
Proof.
  unfold unlink_res. case_decide as E; [|auto]. rewrite lookup_delete_None. intuition congruence.
Qed.

(** Unlinking the page [a] from base [b]: what is left behind in Stage-1's reach is covered by
    a chunk in flight, or is not there. *)
Lemma pinv_unlink s b a s2 :
  pinv s ->
  (res s !! b = Some a -> (busy_base (fl s) b \/ spoiled b) \/
     forall e, e ∈ s1_page (h1 s) ++ pq1 s -> page_base (pg s) e <> Some b) ->
  s2_pages s2 = s2_pages (h2 s) ->
  s2_inv (mk_pipe (pg s) (unlink_res b a (res s)) (pq1 s) (pq2 s) (h1 s) s2 (disk s) (fl s)) ->
  pinv (mk_pipe (pg s) (unlink_res b a (res s)) (pq1 s) (pq2 s) (h1 s) s2 (disk s) (fl s)).
Proof.
  intros Hinv Horph Hs2 Hinv2. pose proof Hinv as [].
  split; unfold is_newest, ord, s1_inv, alone in *; cbn; rewrite ?Hs2; try done.
  - intros b' a' [Hm _]%unlink_res_some. by apply pi_res0.
  - intros e b' He Hb' [Hn|[-> Hr]]%unlink_res_none; [by eauto|].
    destruct (Horph Hr) as [?|Hno]; [done|]. by apply Hno in He.
  - intros e b' p [Hm _]%unlink_res_some. eauto.
Qed.

(** ** A page that enters Queue-1, or Queue-2 when it is full: a new one, or one given up *)

Section Fresh.
Variables (s : pipe) (cb : Z) (a : addr) (q : scrap_page).
Variables (l1 l2 pre post : list addr).
Hypothesis Hinv : pinv s.
Hypothesis Ha : a ∉ ord s.
Hypothesis Hold : forall p, pg s !! a = Some p -> base p = cb.
Hypothesis Hb : base q = cb.
Hypothesis Ho : ord s = pre ++ post.
Hypothesis Ho' : s2_pages (h2 s) ++ l2 ++ s1_page (h1 s) ++ l1 = pre ++ a :: post.
Hypothesis Hpost :
  (forall e, e ∈ post -> page_base (pg s) e <> Some (cb)) \/ spoiled (cb).
Hypothesis Hcase :
  l1 = pq1 s ++ [a] /\ l2 = pq2 s \/
  l1 = pq1 s /\ l2 = pq2 s ++ [a] /\ scrap_page_is_full q = true /\
  ((forall e, e ∈ s1_page (h1 s) -> page_base (pg s) e <> Some (cb)) \/ spoiled (cb)).

Let s' : pipe :=
  mk_pipe (<[a := q]> (pg s)) (<[cb := a]> (res s)) l1 l2 (h1 s) (h2 s) (disk s) (fl s).

Lemma fresh_ne e : e ∈ ord s -> e <> a.
Proof. by intros He ->. Qed.

Lemma fresh_ne_s1 e : e ∈ s1_page (h1 s) -> e <> a.
Proof. intros He. apply fresh_ne. unfold ord. rewrite !elem_of_app. auto. Qed.

Lemma fresh_ne_s2 e : e ∈ s2_pages (h2 s) -> e <> a.
Proof. intros He. apply fresh_ne. unfold ord. rewrite !elem_of_app. auto. Qed.

Lemma fresh_base e : e <> a -> page_base (<[a := q]> (pg s)) e = page_base (pg s) e.
Proof. intros He. unfold page_base. by rewrite lookup_insert_ne. Qed.

Lemma fresh_base_new : page_base (<[a := q]> (pg s)) a = Some (cb).
Proof. unfold page_base. rewrite lookup_insert_eq. cbn. by rewrite Hb. Qed.

Lemma fresh_ahead e :
  e ∈ s2_pages (h2 s) ++ l2 ->
  e ∈ s2_pages (h2 s) ++ pq2 s \/
  e = a /\ scrap_page_is_full q = true /\
  ((forall e, e ∈ s1_page (h1 s) -> page_base (pg s) e <> Some (cb)) \/ spoiled (cb)).
Proof.
  rewrite !elem_of_app. destruct Hcase as [(_ & ->)|(_ & -> & ? & ?)]; [tauto|].
  rewrite elem_of_app, list_elem_of_singleton. tauto.
Qed.

Lemma ahead_in_ord e : e ∈ s2_pages (h2 s) ++ pq2 s -> e ∈ ord s.
Proof. unfold ord. rewrite !elem_of_app. tauto. Qed.

Lemma fresh_alone e : e ∈ s1_page (h1 s) -> alone s e -> alone s' e.
Proof.
  intros He Hal d b Hd. cbn in *. rewrite (fresh_base e) by (by apply fresh_ne_s1).
  apply fresh_ahead in Hd as [Hd|(-> & _ & Hno)].
  - rewrite fresh_base by (by apply fresh_ne, ahead_in_ord). by apply Hal.
  - rewrite fresh_base_new. intros E [= <-]. destruct Hno as [Hno|]; [by apply Hno in E|done].
Qed.

Lemma fresh_newest b e : b <> cb -> e <> a -> is_newest s b e -> is_newest s' b e.
Proof.
  intros Hbc Hea (m1 & m2 & Hm & Hm2). unfold is_newest. unfold ord at 1. cbn. rewrite Ho'.
  assert (Hafter : exists n1 n2, pre ++ a :: post = n1 ++ e :: n2 /\
    forall d, d ∈ n2 -> d = a \/ d ∈ m2).
  { clear Hm2. rewrite Ho in Hm.
    apply app_eq_inv in Hm as [(k & Hpre & Hk)|(k & Hpre & Hk)].
    - destruct k as [|k0 k]; cbn in Hk.
      + exists (pre ++ [a]), m2. rewrite <- Hk, <- app_assoc. split; [done|auto].
      + injection Hk as <- ->. rewrite Hpre, <- app_assoc. cbn. exists m1, (k ++ a :: post).
        split; [done|]. intros d. rewrite !elem_of_app, elem_of_cons. tauto.
    - exists (pre ++ a :: k), m2. rewrite Hk, <- app_assoc. split; [done|auto]. }
  destruct Hafter as (n1 & n2 & -> & Hn2). exists n1, n2. split; [done|].
  intros d Hd. destruct (Hn2 d Hd) as [->|Hd2]; [cbn; rewrite fresh_base_new; congruence|].
  cbn. rewrite fresh_base; [auto|]. apply fresh_ne. rewrite Hm, elem_of_app, elem_of_cons. auto.
Qed.

Lemma fresh_stageA : s1_inv s -> s1_inv s'.
Proof.
  assert (Hl : forall e r, e ∈ s1_page (h1 s) -> pg s !! e = Some r -> <[a := q]> (pg s) !! e = Some r).
  { intros e r He Hr. rewrite lookup_insert_ne; [done|]. symmetry. by apply fresh_ne_s1. }
  pose proof fresh_alone as Hal. unfold s1_inv, s' in *. cbn [h1 pg disk].
  destruct (h1 s) as [|e|e holes|e holes|e holes scr|e]; try done.
  - intros (r & Hr & Hh). exists r. split; [apply Hl; [left|]|]; done.
  - intros (Hae & r & Hr & Hh). split; [apply Hal; [left|done]|].
    exists r. split; [apply Hl; [left|]|]; done.
  - intros (Hae & r & Hr & Hh). split; [apply Hal; [left|done]|].
    exists r. split; [apply Hl; [left|]|]; done.
  - intros (r & Hr & Hh). exists r. split; [apply Hl; [left|]|]; done.
Qed.

Lemma fresh_stageB : s2_inv s -> s2_inv s'.
Proof.
  assert (Hco : forall batch, (forall e, e ∈ batch -> e <> a) -> consecutive (pg s) batch ->
    consecutive (<[a := q]> (pg s)) batch).
  { intros batch Hba [b Hcb]. exists b. intros k e Hk. rewrite fresh_base; [auto|].
    apply Hba. by eapply list_elem_of_lookup_2. }
  assert (Hres : forall e, e <> a -> (forall b, res s !! b <> Some e) ->
    forall b, <[cb := a]> (res s) !! b <> Some e).
  { intros e He Hno b. rewrite lookup_insert. case_decide; [congruence|apply Hno]. }
  pose proof fresh_ne_s2 as Hs2. unfold s2_inv, s' in *. cbn [h2 pg disk res].
  destruct (h2 s) as [|batch|batch rest|rest]; try done; cbn [s2_pages] in Hs2.
  - auto.
  - intros (C1 & C2 & C3). split_and!; auto.
  - intros (C1 & C2 & C3). split_and!; auto. intros e r x He.
    rewrite lookup_insert_ne by (symmetry; auto). eauto.
Qed.

Lemma fresh_resident b e : b <> cb -> res s !! b = Some e -> e <> a.
Proof.
  intros Hbc He ->. destruct (pi_res _ Hinv b a He) as (_ & r & Hr & Hbr & _).
  apply Hbc. rewrite <- Hbr. by apply Hold.
Qed.

Lemma fresh_in_ord e : e ∈ ord s' <-> e = a \/ e ∈ ord s.
Proof. unfold s', ord at 1. cbn. rewrite Ho', Ho, !elem_of_app, elem_of_cons. tauto. Qed.

Lemma pinv_fresh :
  page_wf q -> in_queue q = true -> detached q = false ->
  (tag (hdr q) = NOX_TAG_SEALED -> busy_base (fl s) (cb)) -> pinv s'.
Proof.
  intros Hq Hiq Hd Ht. pose proof Hinv as []. pose proof Ha as Hna.
  rewrite Ho, elem_of_app in Hna. split; [| | | | | |by apply fresh_stageA|by apply fresh_stageB|..].
  - unfold ord. cbn. rewrite Ho'. rewrite Ho in pi_nodup0.
    apply NoDup_app in pi_nodup0 as (N1 & N2 & N3). apply NoDup_app. split; [done|].
    split; [|constructor; tauto]. intros e He [->|He']%elem_of_cons; [tauto|by apply (N2 e)].
  - intros e. rewrite fresh_in_ord. cbn. rewrite lookup_insert. case_decide; [by eexists|].
    intros [->|He]; [done|by apply pi_dom0].
  - intros e r. rewrite fresh_in_ord. cbn. rewrite lookup_insert. case_decide; [naive_solver|].
    intros Hr Hout. apply (pi_out0 e r Hr). tauto.
  - intros e r. cbn. rewrite lookup_insert. case_decide; [intros [= <-]; done|by eauto].
  - intros b e. cbn. rewrite lookup_insert. case_decide as E.
    + intros [= <-]. subst b. split; [|exists q; by rewrite lookup_insert_eq].
      destruct Hpost as [Hp|]; [left|by right].
      exists pre, post. split; [done|]. intros e He. cbn. rewrite fresh_base; [auto|].
      intros ->. tauto.
    + intros He. pose proof (fresh_resident b e (not_eq_sym E) He) as Hea.
      destruct (pi_res0 b e He) as (Hnew & r & Hr' & Hrb & Hrq & Hrd). split.
      { destruct Hnew; [left; by apply fresh_newest|by right]. }
      exists r. rewrite lookup_insert_ne by done. split_and!; try done.
      intros Hin. apply Hrq. unfold s' in Hin. apply fresh_in_ord in Hin as [->|]; done.
  - intros e r He. cbn in *. apply fresh_ahead in He as [He|(-> & Hf & _)].
    + rewrite lookup_insert_ne by (symmetry; by apply fresh_ne, ahead_in_ord). eauto.
    + rewrite lookup_insert_eq. by intros [= <-].
  - intros e b He. cbn in *. destruct (decide (e = a)) as [->|Hea].
    + rewrite fresh_base_new. intros [= <-]. by rewrite lookup_insert_eq.
    + rewrite fresh_base by done. intros Hb'. rewrite lookup_insert. case_decide; [done|].
      apply (pi_orphan0 e b); [|done]. rewrite elem_of_app in *.
      destruct Hcase as [(E & _)|(E & _)]; rewrite E in He; [|done].
      rewrite elem_of_app, list_elem_of_singleton in He. tauto.
  - intros e b r. cbn. rewrite lookup_insert. case_decide as E1.
    + intros [= <-]. subst b. rewrite lookup_insert_eq. by intros [= <-].
    + intros He. rewrite lookup_insert_ne; [by eauto|].
      apply not_eq_sym. apply (fresh_resident b); [by apply not_eq_sym|done].
  - done.
  - done.
  - done.
Qed.

End Fresh.

(** ** Dropping the oldest page *)

Lemma pinv_free m r l1 l2 s1 a rest d f :
  pinv (mk_pipe m r l1 l2 s1 (H2Done (a :: rest)) d f) ->
  pinv (mk_pipe (delete a m) r l1 l2 s1 (H2Done rest) d f).
Proof.
  intros Hinv. pose proof Hinv as []. unfold ord in *. cbn in *.
  destruct pi_stageB0 as ([b0 Hco] & Hres & Hdisk).
  apply NoDup_cons in pi_nodup0 as [Ha Hnd].
  assert (Hne : forall e, e ∈ rest ++ l2 ++ s1_page s1 ++ l1 -> a <> e) by congruence.
  assert (Hpb : forall e, a <> e -> page_base (delete a m) e = page_base m e)
    by (intros e He; unfold page_base; by rewrite lookup_delete_ne).
  split; cbn; try done.
  - intros e He. unfold ord in He. cbn in He. rewrite lookup_delete_ne by (by apply Hne).
    apply pi_dom0. by right.
  - intros e p [Hae Hp]%lookup_delete_Some Hout. apply (pi_out0 e p Hp).
    rewrite elem_of_cons. unfold ord in Hout. cbn in Hout. intuition congruence.
  - intros e p [_ Hp]%lookup_delete_Some. eauto.
  - intros b e He. destruct (pi_res0 b e He) as (Hnew & p & Hp & Hb & Hin & Hrest).
    assert (Hae : a <> e) by (intros ->; by apply (Hres e b) in He; [|left]).
    split; [|exists p; rewrite lookup_delete_ne by done; split_and!; try done].
    2: { intros Ho. apply Hin. by right. }
    destruct Hnew as [(k1 & k2 & Hk & Hk2)|Hsp]; [left|by right].
    unfold ord in Hk. cbn in Hk. destruct k1 as [|k0 k1]; [by injection Hk|].
    injection Hk as <- Hk. exists k1, k2. split; [done|]. intros g Hg. cbn. rewrite Hpb; [auto|].
    apply Hne. rewrite Hk, elem_of_app, elem_of_cons. auto.
  - intros e p He [_ Hp]%lookup_delete_Some. apply (pi_full0 e); [|done]. by right.
  - assert (Hal : forall e, e ∈ s1_page s1 ->
      (alone (mk_pipe m r l1 l2 s1 (H2Done (a :: rest)) d f) e) ->
      alone (mk_pipe (delete a m) r l1 l2 s1 (H2Done rest) d f) e).
    { intros e He Hal g b Hg. cbn in *. rewrite (Hpb g), (Hpb e).
      - apply Hal. by right.
      - apply Hne. rewrite !elem_of_app. auto.
      - apply Hne. rewrite !elem_of_app in *. tauto. }
    assert (Hs : forall e, e ∈ s1_page s1 -> a <> e) by (intros e He; apply Hne; rewrite !elem_of_app; auto).
    unfold s1_inv in *. cbn [h1 pg disk] in *.
    destruct s1 as [|e|e holes|e holes|e holes scr|e]; try done;
      rewrite ?lookup_delete_ne by (apply Hs; left); try done;
      (split; [apply Hal; [left|apply pi_stageA0]|apply pi_stageA0]).
  - unfold s2_inv. cbn. split_and!.
    + exists (b0 + NOX_DATAZONE_SIZE). intros k e He. rewrite Hpb.
      * rewrite (Hco (S k) e He). f_equal. lia.
      * apply Hne. apply elem_of_app. left. by eapply list_elem_of_lookup_2.
    + intros e b He. apply Hres. by right.
    + intros e p x He [_ Hp]%lookup_delete_Some. eapply Hdisk; [by right|done].
  - intros e b He. rewrite Hpb; [by eauto|]. apply Hne. rewrite !elem_of_app in *. tauto.
  - intros e b p He [_ Hp]%lookup_delete_Some. eauto.
Qed.

(** ** All transitions *)

Lemma nodup_split {A} (l1 l2 m1 m2 : list A) a :
  NoDup (l1 ++ a :: l2) -> l1 ++ a :: l2 = m1 ++ a :: m2 -> l1 = m1 /\ l2 = m2.
Proof.
  revert m1. induction l1 as [|x l1 IH]; intros [|y m1]; cbn; intros Hnd E.
  - by injection E.
  - injection E as -> ->. apply NoDup_cons in Hnd as [Hn _]. exfalso. apply Hn.
    rewrite elem_of_app, elem_of_cons. auto.
  - injection E as -> <-. apply NoDup_cons in Hnd as [Hn _]. exfalso. apply Hn.
    rewrite elem_of_app, elem_of_cons. auto.
  - injection E as -> E. apply NoDup_cons in Hnd as [_ Hnd]. destruct (IH m1 Hnd E). by subst.
Qed.

(** Once the resident page of a base is in Stage-2's hand, nothing of that base is behind, or
    the page is spoiled. *)
Lemma in_hand_last s a b :
  pinv s -> a ∈ s2_pages (h2 s) -> res s !! b = Some a ->
  (forall e, e ∈ s1_page (h1 s) ++ pq1 s -> page_base (pg s) e <> Some b) \/ spoiled b.
Proof.
  intros Hinv Ha Hr. pose proof (pi_nodup _ Hinv) as Hnd.
  destruct (pi_res _ Hinv _ _ Hr) as ([(k1 & k2 & Hk & Hk2)|Hsp] & _); [left|by right].
  intros e He. apply Hk2.
  apply list_elem_of_split in Ha as (m1 & m2 & Hm). unfold ord in *. rewrite Hm in *.
  rewrite <- app_assoc in *. cbn in *. destruct (nodup_split _ _ _ _ _ Hnd Hk) as [_ <-].
  rewrite !elem_of_app in *. tauto.
Qed.

Lemma resident_not_written s b a : pinv s -> res s !! b = Some a -> not_written s a.
Proof.
  intros Hinv Hr. pose proof (pi_stageB _ Hinv) as Hs. unfold s2_inv, not_written in *.
  destruct (h2 s) as [|batch|batch rest|rest]; try done. destruct Hs as (_ & Hno & _).
  intros Ha. by apply (Hno a b Ha).
Qed.

Lemma stage1_not_written s a : pinv s -> a ∈ s1_page (h1 s) -> not_written s a.
Proof.
  intros Hinv Ha. pose proof (pi_nodup _ Hinv) as Hnd. unfold ord, not_written in *.
  destruct (h2 s) as [|batch|batch rest|rest]; try done. cbn in Hnd. intros Hr.
  apply NoDup_app in Hnd as (_ & Hd & _). apply (Hd a Hr). rewrite !elem_of_app. auto.
Qed.

Lemma pinv_step_fg pgs m l1 l2 s1 s2 d f i c a p p' :
  pinv (mk_pipe pgs m l1 l2 s1 s2 d f) ->
  f !! i = Some (c, FLook) -> m !! ck_base c = Some a -> pgs !! a = Some p ->
  tag (hdr p) <> NOX_TAG_SEALED ->
  scrap_page_merge p (ck_src c) (ck_intra c) (ck_len c) = Some (SCRAP_OK, p') ->
  pinv (mk_pipe (<[a := tag_if_full p']> pgs) m l1 l2 s1 s2 d (delete i f)).
Proof.
  intros Hinv Hi Hr Hp Ht E. pose proof (pi_chunks _ Hinv _ _ _ Hi) as Hc.
  pose proof (pi_wf _ Hinv _ _ Hp) as Hw.
  destruct (merge_ok_facts _ _ _ Hw Hc E) as (Hw' & Hcov & Hd & Hb & Hq & Hdt & Htag).
  destruct (tag_if_full_same p') as (T1 & T2 & T3 & T4 & T5 & T6 & T7 & T8).
  assert (Ht' : tag (hdr (tag_if_full p')) <> NOX_TAG_SEALED) by (apply T8; congruence).
  pose proof (pinv_set_page _ a p (tag_if_full p') Hinv Hp) as Hset. cbn in Hset.
  pose proof (pinv_finish (mk_pipe (<[a := tag_if_full p']> pgs) m l1 l2 s1 s2 d f) i c FLook a
    (tag_if_full p')) as Hfin. cbn [pg res fl pq1 pq2 h1 h2 disk] in Hfin. apply Hfin;
    [apply Hset| done| done|apply lookup_insert_eq|done].
  - auto.
  - congruence.
  - rewrite T1. intros y Hy. apply Hcov. auto.
  - intros Hf. rewrite T6. unfold scrap_page_is_full. apply is_full_iff; [apply Hw'|].
    apply (segs_wf_canonical 0); [apply Hw'|apply full_zone_wf|]. intros x. rewrite full_zone_covers.
    split; [apply (covered_zone p' x Hw')|]. intros Hx. apply Hcov. right. by apply full_covered.
  - right. split; congruence.
  - done.
  - right. eapply resident_not_written; [exact Hinv|exact Hr].
Qed.

Lemma pinv_step_fresh pgs m l1 l2 s1 s2 d f i c a za junk p' :
  pinv (mk_pipe pgs m l1 l2 s1 s2 d f) ->
  f !! i = Some (c, FLook) -> m !! ck_base c = None -> pgs !! a = None ->
  aligned NOX_BLOCK_SIZE za ->
  scrap_page_merge (fresh_page (ck_base c) 0 za junk None) (ck_src c) (ck_intra c)
    (ck_len c) = Some (SCRAP_OK, p') ->
  pinv (mk_pipe (<[a := set_in_queue true (tag_if_full p')]> pgs) (<[ck_base c := a]> m)
        (if scrap_page_is_full p' then l1 else l1 ++ [a])
        (if scrap_page_is_full p' then l2 ++ [a] else l2) s1 s2 d (delete i f)).
Proof.
  intros Hinv Hi Hr Ha Hza E. pose proof (pi_chunks _ Hinv _ _ _ Hi) as Hc.
  destruct (merge_ok_facts _ _ _ (fresh_page_wf _ za junk (proj1 Hc) Hza) Hc E)
    as (Hw' & Hcov & Hd & Hb & Hq & Hdt & Htag).
  destruct (tag_if_full_same p') as (T1 & T2 & T3 & T4 & T5 & T6 & T7 & T8).
  set (q := set_in_queue true (tag_if_full p')).
  assert (Ht' : tag (hdr q) <> NOX_TAG_SEALED) by (apply T8; by rewrite Htag).
  assert (Hbq : base q = ck_base c) by (cbn; by rewrite T3, Hb).
  assert (Hwq : page_wf q) by (by apply T7).
  assert (Hdq : detached q = false) by (cbn; by rewrite T5, Hdt).
  pose proof (pinv_finish (mk_pipe (<[a := q]> pgs) (<[ck_base c := a]> m)
        (if scrap_page_is_full p' then l1 else l1 ++ [a])
        (if scrap_page_is_full p' then l2 ++ [a] else l2) s1 s2 d f) i c FLook a q) as Hfin.
  cbn [pg res fl pq1 pq2 h1 h2 disk] in Hfin. apply Hfin;
    [|done|apply lookup_insert_eq|apply lookup_insert_eq|done].
  assert (Hna : a ∉ ord (mk_pipe pgs m l1 l2 s1 s2 d f)).
  { intros Hin. apply (pi_dom _ Hinv) in Hin as [r Hr']. cbn in Hr'. congruence. }
  destruct (scrap_page_is_full p') eqn:Ef.
  - assert (Hno : (forall e, e ∈ s1_page s1 ++ l1 -> page_base pgs e <> Some (ck_base c)) \/
      spoiled (ck_base c)).
    { eapply (orphans_are_busy _ _ _ _ Hinv); eauto. by eapply born_full. }
    apply (pinv_fresh (mk_pipe pgs m l1 l2 s1 s2 d f) (ck_base c) a q l1 (l2 ++ [a])
      (s2_pages s2 ++ l2) (s1_page s1 ++ l1)); try done.
    + cbn. congruence.
    + unfold ord. cbn. by rewrite <- app_assoc.
    + cbn. by rewrite <- !app_assoc.
    + right. cbn. split_and!; try done. destruct Hno as [Hno|]; [left|by right].
      intros e He. apply Hno, elem_of_app. auto.
  - apply (pinv_fresh (mk_pipe pgs m l1 l2 s1 s2 d f) (ck_base c) a q (l1 ++ [a]) l2
      (s2_pages s2 ++ l2 ++ s1_page s1 ++ l1) []); try done.
    + cbn. congruence.
    + by rewrite app_nil_r.
    + cbn. by rewrite <- !app_assoc.
    + left. intros e He. by apply elem_of_nil in He.
    + by left.
Qed.

Lemma pinv_overflow_flight pgs m l1 l2 s1 s2 d f i c a p p' :
  pinv (mk_pipe pgs m l1 l2 s1 s2 d f) ->
  f !! i = Some (c, FLook) -> m !! ck_base c = Some a -> pgs !! a = Some p ->
  scrap_page_merge p (ck_src c) (ck_intra c) (ck_len c) = Some (SCRAP_OVERFLOW, p') ->
  pinv (mk_pipe pgs m l1 l2 s1 s2 d (<[i := (c, FDet a)]> f)).
Proof.
  intros Hinv Hi Hr Hp E. pose proof (pi_chunks _ Hinv _ _ _ Hi) as Hc.
  pose proof (pi_wf _ Hinv _ _ Hp) as Hw.
  destruct (merge_overflow_not_full _ _ _ Hw Hc E) as [Hlt _].
  destruct (pi_res _ Hinv _ _ Hr) as (_ & q & Hq & Hb & _). cbn in Hq. rewrite Hp in Hq.
  injection Hq as <-. apply (pinv_flight _ i c (FDet a) Hinv); cbn; try done.
  - intros e ph' He. congruence.
  - intros j e ph' Hne Hj. eapply (pi_disjoint _ Hinv i j); [congruence|done..].
Qed.

Lemma pinv_step_overflow pgs m l1 l2 s1 s2 d f i c a p p' :
  pinv (mk_pipe pgs m l1 l2 s1 s2 d f) ->
  f !! i = Some (c, FLook) -> m !! ck_base c = Some a -> pgs !! a = Some p ->
  scrap_page_merge p (ck_src c) (ck_intra c) (ck_len c) = Some (SCRAP_OVERFLOW, p') ->
  pinv (mk_pipe (<[a := tag_page NOX_TAG_SEALED p]> pgs) m l1 l2 s1 s2 d (<[i := (c, FDet a)]> f)).
Proof.
  intros Hinv Hi Hr Hp E.
  pose proof (pinv_overflow_flight _ _ _ _ _ _ _ _ i c a p p' Hinv Hi Hr Hp E) as Hinv'.
  pose proof (pi_wf _ Hinv _ _ Hp) as Hw.
  destruct (merge_overflow_not_full _ _ _ Hw (pi_chunks _ Hinv _ _ _ Hi) E) as [Hlt _].
  destruct (pi_res _ Hinv _ _ Hr) as (_ & q & Hq & Hb & _). cbn in Hq. rewrite Hp in Hq.
  injection Hq as <-.
  apply (pinv_set_page _ a p (tag_page NOX_TAG_SEALED p) Hinv' Hp); cbn; try done; auto.
  intros _. right. left. rewrite Hb. exists i, c, (FDet a). by rewrite lookup_insert_eq.
Qed.

Lemma pinv_step_detach pgs m l1 l2 s1 s2 d f i c a b :
  pinv (mk_pipe pgs m l1 l2 s1 s2 d f) -> f !! i = Some (c, FDet a) ->
  b = ck_base c \/ spoiled b ->
  pinv (mk_pipe pgs (unlink_res b a m) l1 l2 s1 s2 d (<[i := (c, FLook)]> f)).
Proof.
  intros Hinv Hi Hwhy. pose proof (pi_det _ Hinv _ _ _ Hi) as Hlt.
  assert (Hinv' : pinv (mk_pipe pgs (unlink_res b a m) l1 l2 s1 s2 d f)).
  { apply (pinv_unlink _ _ _ s2 Hinv); [|done|].
    - intros _. left. destruct Hwhy as [->|]; [left|by right]. exists i, c, (FDet a). done.
    - pose proof (pi_stageB _ Hinv) as Hs. unfold s2_inv in *. cbn in *.
      destruct s2 as [|batch|batch rest|rest]; try done.
      + destruct Hs as (C1 & C2 & C3). split_and!; try done.
        intros e b' He Hn [Hr _]%unlink_res_some. by apply (C3 e b' He Hn).
      + destruct Hs as (C1 & C2 & C3). split_and!; try done.
        intros e b' He [Hr _]%unlink_res_some. by apply (C2 e b' He). }
  apply (pinv_flight _ i c FLook Hinv'); cbn; try done.
  - by eapply pi_chunks.
  - intros e ph' He. congruence.
  - intros j e ph' Hne Hj. eapply (pi_disjoint _ Hinv i j); [congruence|done..].
Qed.

Lemma pinv_step_unlink pgs m l1 l2 s1 batch a p rest d f :
  pinv (mk_pipe pgs m l1 l2 s1 (H2Detach batch (a :: rest)) d f) -> pgs !! a = Some p ->
  pinv (mk_pipe (<[a := set_detached true p]> pgs) (unlink_res (base p) a m) l1 l2 s1
        (H2Detach batch rest) d f).
Proof.
  intros Hinv Hp. pose proof (pi_stageB _ Hinv) as (C1 & [pre C2] & C3). cbn in *.
  assert (Ha : a ∈ batch) by (rewrite C2, elem_of_app, elem_of_cons; auto).
  assert (Hgone : forall b, unlink_res (base p) a m !! b <> Some a).
  { intros b [Hr Hne]%unlink_res_some. apply Hne; [|done].
    destruct (pi_res _ Hinv _ _ Hr) as (_ & q & Hq & <- & _). cbn in Hq. congruence. }
  assert (Hinv' : pinv (mk_pipe pgs (unlink_res (base p) a m) l1 l2 s1 (H2Detach batch rest) d f)).
  { apply (pinv_unlink _ _ _ (H2Detach batch rest) Hinv); [|done|].
    - intros Hr. destruct (in_hand_last _ a _ Hinv ltac:(exact Ha) Hr); [by right|left; by right].
    - cbn. split_and!; [done|exists (pre ++ [a]); by rewrite <- app_assoc|].
      intros e b He Hn Hr. destruct (decide (e = a)) as [->|Hne]; [by apply Hgone in Hr|].
      apply unlink_res_some in Hr as [Hr _]. apply (C3 e b He); [|done].
      rewrite elem_of_cons. tauto. }
  pose proof (pi_wf _ Hinv _ _ Hp) as Hw.
  apply (pinv_set_page _ a p (set_detached true p) Hinv' Hp); cbn; try done; auto.
  left. split; [done|]. apply elem_of_app. by left.
Qed.

Lemma pinv_step_write pgs m l1 l2 s1 batch d d' f :
  pinv (mk_pipe pgs m l1 l2 s1 (H2Detach batch []) d f) ->
  (forall a p x, a ∈ batch -> pgs !! a = Some p -> base p <= x < base p + NOX_DATAZONE_SIZE ->
     ~ damaged x -> d' x = data p (x - base p)) ->
  (forall x, (forall a p, a ∈ batch -> pgs !! a = Some p ->
                ~ (base p <= x < base p + NOX_DATAZONE_SIZE)) -> d' x = d x) ->
  pinv (mk_pipe pgs m l1 l2 s1 (H2Done batch) d' f).
Proof.
  intros Hinv Hin Hout. pose proof (pi_stageB _ Hinv) as (C1 & C2 & C3). cbn in C1, C2, C3.
  apply (pinv_move _ _ Hinv); try done; cbn.
  - intros a p Ha Hp. by apply (pi_full _ Hinv a p).
  - pose proof (pi_stageA _ Hinv) as Hs. unfold s1_inv, alone in *. cbn in *.
    destruct s1 as [|a|a holes|a holes|a holes scr|a]; try done.
    destruct Hs as (Hal & p & Hp & Hh & Hscr). split; [done|]. exists p. split_and!; [done..|].
    intros x Hx Hdm. rewrite Hscr by done. symmetry. apply Hout. intros c r Hc Hr Hz.
    destruct (pi_wf _ Hinv _ _ Hp) as (_ & _ & Hpal & _).
    destruct (pi_wf _ Hinv _ _ Hr) as (_ & _ & Hral & _).
    destruct Hh as [Hh _]. pose proof (segs_wf_covers _ _ _ Hh Hx).
    assert (Hb : base r = base p) by (eapply (zone_unique _ _ (base p + x)); [done..|lia]).
    apply Hdm. apply (Hal c (base p)); [by apply elem_of_app; left|..|lia].
    + unfold page_base. by rewrite Hp.
    + unfold page_base. rewrite Hr. cbn. by rewrite Hb.
  - split_and!; [done| |done]. intros a b Ha. apply C3; [done|]. apply not_elem_of_nil.
Qed.

(** The disk changes where no page is live, or where bytes are damaged. *)
Lemma pinv_step_far pgs m l1 l2 s1 s2 d d' f :
  pinv (mk_pipe pgs m l1 l2 s1 s2 d f) ->
  (forall a p x, pgs !! a = Some p -> base p <= x < base p + NOX_DATAZONE_SIZE ->
     ~ damaged x -> d' x = d x) ->
  pinv (mk_pipe pgs m l1 l2 s1 s2 d' f).
Proof.
  intros Hinv Hsame.
  apply (pinv_move _ _ Hinv); try done; [apply Hinv|..].
  - pose proof (pi_stageA _ Hinv) as Hs. unfold s1_inv in *. cbn in *.
    destruct s1 as [|a|a holes|a holes|a holes scr|a]; try done.
    destruct Hs as (Hal & p & Hp & Hh & Hscr). split; [done|]. exists p. split_and!; [done..|].
    intros x Hx Hdm. rewrite Hscr by done. destruct Hh as [Hh _].
    pose proof (segs_wf_covers _ _ _ Hh Hx). symmetry. apply (Hsame a p); [done|lia|done].
  - pose proof (pi_stageB _ Hinv) as Hs. unfold s2_inv in *. cbn in *.
    destruct s2 as [|batch|batch rest|rest]; try done. destruct Hs as (C1 & C2 & C3).
    split_and!; [done..|]. intros a p x Ha Hp Hx Hn. rewrite (Hsame a p x Hp Hx Hn). eauto.
Qed.

(** A caller finds the sealed page of its base. *)
Lemma pinv_step_sealed pgs m l1 l2 s1 s2 d f i c a p :
  pinv (mk_pipe pgs m l1 l2 s1 s2 d f) -> f !! i = Some (c, FLook) -> m !! ck_base c = Some a ->
  pgs !! a = Some p -> tag (hdr p) = NOX_TAG_SEALED ->
  pinv (mk_pipe pgs m l1 l2 s1 s2 d (<[i := (c, FDet a)]> f)).
Proof.
  intros Hinv Hi Hr Hp Ht. destruct (pi_res _ Hinv _ _ Hr) as (_ & q & Hq & Hb & _). cbn in Hq. rewrite Hp in Hq.
  injection Hq as <-. apply (pinv_flight _ i c (FDet a) Hinv); cbn.
  - by eapply pi_chunks.
  - congruence.
  - intros j e ph' Hne Hj. eapply (pi_disjoint _ Hinv i j); [congruence|done..].
  - intros e _. eapply (busy_not_full _ i c); [exact Hinv|exact Hi|]. by eapply (pi_sealed _ Hinv).
Qed.

(** Stage-1 applies the holes it has read. *)
Lemma pinv_step_apply pgs m l1 l2 a p p' holes scr s2 d f :
  pinv (mk_pipe pgs m l1 l2 (H1Got a holes scr) s2 d f) -> pgs !! a = Some p ->
  scrap_page_apply_holes p scr = Some p' ->
  pinv (mk_pipe (<[a := tag_page NOX_TAG_FULL p']> pgs) m l1 l2 (H1Full a) s2 d f).
Proof.
  intros Hinv Hp E. pose proof (pi_wf _ Hinv _ _ Hp) as Hw.
  destruct (apply_holes_page p scr Hw) as (q & E' & Hw' & Hk & Hf & Hd).
  rewrite E in E'. injection E' as <-.
  assert (Hinv' : pinv (mk_pipe (<[a := tag_page NOX_TAG_FULL p']> pgs) m l1 l2
    (H1Got a holes scr) s2 d f)).
  { pose proof (pinv_set_page _ a p (tag_page NOX_TAG_FULL p') Hinv Hp) as Hset. cbn in Hset.
    apply Hset; try done.
    - by rewrite Hk.
    - intros y Hy. apply (full_covered p'); [done..|]. by apply (covered_zone p).
    - right. by rewrite Hk.
    - right. apply (stage1_not_written _ _ Hinv). left. }
  apply (pinv_move _ _ Hinv'); try done; [apply Hinv'| |apply Hinv'].
  exists (tag_page NOX_TAG_FULL p'). cbn [pg]. by rewrite lookup_insert_eq.
Qed.

(** Stage-2 extends its batch by the next page of the queue. *)
Lemma pinv_step_extend pgs m l1 a b0 b batch l2 s1 d f :
  pinv (mk_pipe pgs m l1 (a :: l2) s1 (H2Collect (b0 :: batch)) d f) ->
  page_base pgs b0 = Some b ->
  page_base pgs a = Some (b + Z.of_nat (length (b0 :: batch)) * NOX_DATAZONE_SIZE) ->
  pinv (mk_pipe pgs m l1 l2 s1 (H2Collect (b0 :: batch ++ [a])) d f).
Proof.
  intros Hinv Hb Ha. pose proof (pi_stageB _ Hinv) as [b1 Hco]. cbn in Hco.
  assert (b1 = b) as ->.
  { specialize (Hco 0%nat b0 eq_refl). rewrite Hb in Hco. injection Hco. lia. }
  assert (Hl : (b0 :: batch) ++ a :: l2 = (b0 :: batch ++ [a]) ++ l2)
    by (cbn; by rewrite <- app_assoc).
  apply (pinv_move _ _ Hinv); try done.
  - unfold ord. cbn [s2_pages h2 pq2]. rewrite !app_assoc, <- Hl. done.
  - cbn [s2_pages h2 pq2]. rewrite <- Hl. apply Hinv.
  - pose proof (pi_stageA _ Hinv) as Hs. unfold s1_inv, alone in *.
    cbn [s2_pages h2 pq2] in *. by rewrite <- Hl.
  - exists b. intros k e Hk. change (b0 :: batch ++ [a]) with ((b0 :: batch) ++ [a]) in Hk.
    apply lookup_app_Some in Hk as [Hk|[Hk1 Hk]]; [by apply Hco|].
    apply list_lookup_singleton_Some in Hk as [Hk <-]. cbn [pg]. rewrite Ha. do 3 f_equal. lia.
Qed.

(** A call without memory leaves its chunk out. *)
Lemma pinv_step_abandon pgs m l1 l2 s1 s2 d f i c :
  pinv (mk_pipe pgs m l1 l2 s1 s2 d f) -> f !! i = Some (c, FLook) -> m !! ck_base c = None ->
  spoiled (ck_base c) -> pinv (mk_pipe pgs m l1 l2 s1 s2 d (delete i f)).
Proof.
  intros Hinv Hi Hr Hsp. eapply (pinv_leave _ i c FLook Hinv Hi); cbn; [done|congruence].
Qed.

(** Stage-1 gives its page up. *)
Lemma pinv_step_drop pgs m l1 l2 a p holes s2 d f :
  pinv (mk_pipe pgs m l1 l2 (H1Go a holes) s2 d f) -> gives_up (base p) -> pgs !! a = Some p ->
  spoiled (base p) -> pinv (mk_pipe (<[a := set_in_queue false p]> pgs) m l1 l2 H1None s2 d f).
Proof.
  intros Hinv Hg Hp Hsp. pose proof Hinv as []. unfold ord in *. cbn in *.
  pose proof (pi_wf0 a p Hp) as Hw.
  assert (Hpb : forall c, page_base (<[a := set_in_queue false p]> pgs) c = page_base pgs c)
    by (intros c; by eapply page_base_set).
  assert (Hna : a ∉ s2_pages s2 ++ l2 ++ l1).
  { rewrite app_assoc in pi_nodup0. apply NoDup_app in pi_nodup0 as (_ & N1 & [N2 _]%NoDup_cons).
    rewrite app_assoc, elem_of_app. intros [Hin|Hin]; [by apply (N1 a Hin); left|done]. }
  assert (Hord : forall e, e ∈ s2_pages s2 ++ l2 ++ a :: l1 <-> e = a \/ e ∈ s2_pages s2 ++ l2 ++ l1).
  { intros e. rewrite !elem_of_app, elem_of_cons. tauto. }
  assert (Hlk : forall e, e <> a -> <[a := set_in_queue false p]> pgs !! e = pgs !! e)
    by (intros e He; by rewrite lookup_insert_ne).
  split; unfold ord; cbn.
  - rewrite app_assoc in *. apply NoDup_app in pi_nodup0 as (N0 & N1 & [N2 N3]%NoDup_cons).
    apply NoDup_app. split_and!; try done. intros e He Hl. apply (N1 e He). by right.
  - intros e He. rewrite Hlk by (by intros ->). apply pi_dom0, Hord. auto.
  - intros e r. rewrite lookup_insert. case_decide as E; [subst e; by intros [= <-]|].
    intros Hr Hout. apply (pi_out0 e r Hr). rewrite Hord. intuition congruence.
  - intros e r. rewrite lookup_insert. case_decide; [by intros [= <-]|by eauto].
  - intros b e He. destruct (pi_res0 b e He) as (Hnew & r & Hr & Hrb & Hrq & Hrd).
    destruct (decide (e = a)) as [->|Hne].
    + assert (r = p) as -> by congruence. split; [right; by rewrite <- Hrb|].
      exists (set_in_queue false p). rewrite lookup_insert_eq. split_and!; done.
    + split; [|exists r; rewrite Hlk by done; split_and!; try done; intros Hin; apply Hrq, Hord; auto].
      destruct Hnew as [(k1 & k2 & Hk & Hk2)|]; [left|by right]. unfold ord in Hk. cbn in Hk.
      assert (Hafter : exists n1 n2, s2_pages s2 ++ l2 ++ l1 = n1 ++ e :: n2 /\ n2 ⊆ k2).
      { rewrite app_assoc in Hk |- *. apply app_eq_inv in Hk as [(k & Hk & Hk')|(k & Hk & Hk')].
        - destruct k as [|k0 k]; cbn in Hk'; injection Hk' as Hea Hk'; [done|]. subst k0.
          exists k1, (k ++ l1). rewrite Hk, <- app_assoc. split; [done|]. rewrite Hk'.
          intros g. rewrite !elem_of_app, elem_of_cons. tauto.
        - destruct k as [|k0 k]; cbn in Hk'; injection Hk' as Hea Hk'; [by subst e|]. subst k0.
          exists ((s2_pages s2 ++ l2) ++ k), k2. split; [by rewrite Hk', <- !app_assoc|by intros g]. }
      destruct Hafter as (n1 & n2 & Hn & Hsub). exists n1, n2. split; [done|].
      intros g Hg'. cbn. rewrite Hpb. apply Hk2. by apply Hsub.
  - intros e r He. rewrite Hlk; [by eauto|]. intros ->. apply Hna. rewrite app_assoc, elem_of_app. by left.
  - done.
  - unfold s2_inv in *. cbn in *. destruct s2 as [|batch|batch rest|rest]; try done.
    + destruct pi_stageB0 as [b0 Hco]. exists b0. intros k e Hk. rewrite Hpb. auto.
    + destruct pi_stageB0 as ([b0 Hco] & ? & ?). split_and!; try done. exists b0. intros k e Hk.
      rewrite Hpb. auto.
    + destruct pi_stageB0 as ([b0 Hco] & ? & Hdisk). split_and!; try done.
      * exists b0. intros k e Hk. rewrite Hpb. auto.
      * intros e r x He. rewrite Hlk; [by eauto|]. intros ->. apply Hna, elem_of_app. by left.
  - intros e b He. rewrite Hpb. apply pi_orphan0. by right.
  - intros e b r Hr. rewrite lookup_insert. case_decide; [subst e|by eauto].
    intros [= <-]. by apply (pi_sealed0 a b p).
  - done.
  - done.
  - done.
Qed.

(** A caller fills a page that was given up: it goes to Queue-2. *)
Lemma pinv_step_requeue_full pgs m l1 l2 s1 s2 d f i c a p p' :
  pinv (mk_pipe pgs m l1 l2 s1 s2 d f) ->
  f !! i = Some (c, FLook) -> m !! ck_base c = Some a -> pgs !! a = Some p ->
  tag (hdr p) <> NOX_TAG_SEALED -> a ∉ s2_pages s2 ++ l2 ++ s1_page s1 ++ l1 ->
  scrap_page_merge p (ck_src c) (ck_intra c) (ck_len c) = Some (SCRAP_OK, p') ->
  scrap_page_is_full p' = true ->
  pinv (mk_pipe (<[a := set_in_queue true (tag_page NOX_TAG_FULL p')]> pgs) m l1 (l2 ++ [a]) s1 s2 d
        (delete i f)).
Proof.
  intros Hinv Hi Hr Hp Ht Hna E Hf. pose proof (pi_chunks _ Hinv _ _ _ Hi) as Hc.
  pose proof (pi_wf _ Hinv _ _ Hp) as Hw.
  destruct (merge_ok_facts _ _ _ Hw Hc E) as (Hw' & _ & _ & Hb & _ & Hdt & _).
  destruct (pi_res _ Hinv _ _ Hr) as (_ & r & Hr' & Hrb & _ & Hrd). cbn in Hr'.
  assert (r = p) as -> by congruence. destruct (pi_out _ Hinv a p Hp Hna) as (_ & Hsp & _).
  rewrite Hrb in Hsp. set (q := set_in_queue true (tag_page NOX_TAG_FULL p')).
  assert (Hfr : pinv (mk_pipe (<[a := q]> pgs) (<[ck_base c := a]> m) l1 (l2 ++ [a]) s1 s2 d f)).
  { apply (pinv_fresh (mk_pipe pgs m l1 l2 s1 s2 d f) (ck_base c) a q l1 (l2 ++ [a])
      (s2_pages s2 ++ l2) (s1_page s1 ++ l1)); try done.
    - cbn. congruence.
    - cbn. congruence.
    - unfold ord. cbn. by rewrite <- app_assoc.
    - cbn. by rewrite <- !app_assoc.
    - by right.
    - right. split_and!; try done. by right.
    - cbn. by rewrite Hdt. }
  rewrite (insert_id m) in Hfr by done.
  pose proof (pinv_finish _ i c FLook a q Hfr Hi Hr) as Hfin. apply Hfin; [apply lookup_insert_eq|done].
Qed.

(** A caller overflows a page that was given up: it goes back to Queue-1, sealed. *)
Lemma pinv_step_requeue_sealed pgs m l1 l2 s1 s2 d f i c a p p' :
  pinv (mk_pipe pgs m l1 l2 s1 s2 d f) ->
  f !! i = Some (c, FLook) -> m !! ck_base c = Some a -> pgs !! a = Some p ->
  a ∉ s2_pages s2 ++ l2 ++ s1_page s1 ++ l1 ->
  scrap_page_merge p (ck_src c) (ck_intra c) (ck_len c) = Some (SCRAP_OVERFLOW, p') ->
  pinv (mk_pipe (<[a := set_in_queue true (tag_page NOX_TAG_SEALED p)]> pgs) m (l1 ++ [a]) l2 s1 s2 d
        (<[i := (c, FDet a)]> f)).
Proof.
  intros Hinv Hi Hr Hp Hna E. pose proof (pi_chunks _ Hinv _ _ _ Hi) as Hc.
  pose proof (pi_wf _ Hinv _ _ Hp) as Hw. pose proof (merge_overflow_not_full _ _ _ Hw Hc E) as [Hlt _].
  destruct (pi_res _ Hinv _ _ Hr) as (_ & r & Hr' & Hrb & _ & Hrd). cbn in Hr'.
  assert (r = p) as -> by congruence.
  pose proof (pinv_overflow_flight _ _ _ _ _ _ _ _ i c a p p' Hinv Hi Hr Hp E) as Hinv'.
  set (q := set_in_queue true (tag_page NOX_TAG_SEALED p)).
  pose proof (pinv_fresh (mk_pipe pgs m l1 l2 s1 s2 d (<[i := (c, FDet a)]> f)) (ck_base c) a q (l1 ++ [a]) l2
    (s2_pages s2 ++ l2 ++ s1_page s1 ++ l1) []) as Hfr.
  cbn [pg res h1 h2 disk fl] in Hfr. rewrite (insert_id m) in Hfr by done. apply Hfr; try done.
  - cbn. congruence.
  - by rewrite app_nil_r.
  - cbn. by rewrite <- !app_assoc.
  - left. intros e He. by apply elem_of_nil in He.
  - by left.
  - intros _. exists i, c, (FDet a). cbn. by rewrite lookup_insert_eq.
Qed.

(** The shutdown sweep puts a resident page that was given up back in a queue. *)
Lemma pinv_step_sweep pgs m l1 l2 s1 s2 d f b a p :
  pinv (mk_pipe pgs m l1 l2 s1 s2 d f) -> m !! b = Some a -> pgs !! a = Some p ->
  a ∉ s2_pages s2 ++ l2 ++ s1_page s1 ++ l1 ->
  pinv (mk_pipe (<[a := set_in_queue true (tag_if_full p)]> pgs) m
    (if scrap_page_is_full p then l1 else l1 ++ [a])
    (if scrap_page_is_full p then l2 ++ [a] else l2) s1 s2 d f).
Proof.
  intros Hinv Hr Hp Hna. pose proof (pi_wf _ Hinv _ _ Hp) as Hw.
  destruct (pi_res _ Hinv _ _ Hr) as (_ & r & Hr' & <- & _ & Hrd). cbn in Hr'.
  assert (r = p) as -> by congruence. destruct (pi_out _ Hinv a p Hp Hna) as (_ & Hsp & _).
  destruct (tag_if_full_same p) as (_ & _ & Hbt & _ & Hdt & Hft & Hwt & Htt). specialize (Hwt Hw).
  pose proof (pinv_fresh (mk_pipe pgs m l1 l2 s1 s2 d f) (base p) a
    (set_in_queue true (tag_if_full p))) as Hfr.
  cbn [pg res h1 h2 disk fl] in Hfr. rewrite (insert_id m) in Hfr by done.
  assert (Htag : tag (hdr (set_in_queue true (tag_if_full p))) = NOX_TAG_SEALED ->
    busy_base f (base p)).
  { intros Ht. apply (pi_sealed _ Hinv _ _ _ Hr Hp). cbn in Ht.
    destruct (decide (tag (hdr p) = NOX_TAG_SEALED)); [done|by destruct Htt]. }
  destruct (scrap_page_is_full p) eqn:Ef.
  - apply (Hfr l1 (l2 ++ [a]) (s2_pages s2 ++ l2) (s1_page s1 ++ l1)); try done.
    + cbn. congruence.
    + unfold ord. cbn. by rewrite <- app_assoc.
    + cbn. by rewrite <- !app_assoc.
    + by right.
    + right. cbn. split_and!; try done. by right.
    + cbn. congruence.
  - apply (Hfr (l1 ++ [a]) l2 (s2_pages s2 ++ l2 ++ s1_page s1 ++ l1) []); try done.
    + cbn. congruence.
    + by rewrite app_nil_r.
    + cbn. by rewrite <- !app_assoc.
    + by right.
    + by left.
    + cbn. congruence.
Qed.

Lemma step_inv s l s' : pinv s -> pstep s l s' -> pinv s'.
Proof.
  intros Hinv Hs. destruct Hs as
    [pgs m l1 l2 s1 s2 d f i c Hi Hc Hdis|pgs m l1 l2 s1 s2 d f i c a p Hi Hr Hp Ht| | | | | |
    |pgs m l1 l2 a p s2 d f Hp Hf|pgs m l1 l2 a p s2 d f Hp|pgs m l1 l2 a holes s2 d f Hal
    |pgs m l1 l2 a p holes scr s2 d f Hp Hscr|pgs m l1 l2 a p p' holes scr s2 d f Hp E
    |pgs m l1 l2 a s2 d f|pgs m l1 a l2 s1 d f|pgs m l1 a b0 b batch l2 s1 d f Hb Ha
    |pgs m l1 l2 s1 batch d f| |pgs m l1 l2 s1 batch a p rest d f Hp Ha Hn| | |pgs m l1 l2 s1 d f
    |pgs m l1 l2 s1 s2 d d' f c Hfar Hd| | | | | | ].
  - apply (pinv_flight _ i c FLook Hinv); cbn; try done; [congruence|by eauto].
  - by eapply pinv_step_sealed.
  - by eapply pinv_step_overflow.
  - by eapply pinv_step_fg.
  - by eapply pinv_step_fresh.
  - eapply pinv_step_detach; auto.
  - eapply pinv_step_detach; auto.
  - apply (pinv_move _ _ Hinv); try done; [apply Hinv|apply Hinv].
  - apply (pinv_move _ _ Hinv); try done; [apply Hinv|by exists p|apply Hinv].
  - apply (pinv_move _ _ Hinv); try done; [apply Hinv| |apply Hinv].
    pose proof (pi_wf _ Hinv _ _ Hp) as Hw. exists p. split; [done|].
    split; [by apply holes_of_page|]. intros x Hx. rewrite holes_of_page_cover by done.
    destruct (decide (covered p x)); auto.
  - apply (pinv_move _ _ Hinv); try done; [apply Hinv| |apply Hinv].
    split; [|apply (pi_stageA _ Hinv)]. intros e b He Ea Ee. destruct (Hal e He). cbn in *. congruence.
  - apply (pinv_move _ _ Hinv); try done; [apply Hinv| |apply Hinv].
    destruct (pi_stageA _ Hinv) as (Hal & q & Hq & Hh). split; [done|]. cbn in Hq.
    rewrite Hp in Hq. injection Hq as <-. exists p. split_and!; auto.
  - by eapply pinv_step_apply.
  - destruct (pi_stageA _ Hinv) as (p & Hp & Hf). cbn in Hp.
    apply (pinv_move _ _ Hinv); try done; [|by intros e He; right| |apply Hinv].
    + unfold ord. cbn. by rewrite <- app_assoc.
    + cbn. intros e q. rewrite app_assoc, elem_of_app, list_elem_of_singleton.
      intros [He| ->] Hq; [by apply (pi_full _ Hinv e)|congruence].
  - assert (is_Some (pgs !! a)) as [p Hp] by (apply (pi_dom _ Hinv a); left).
    apply (pinv_move _ _ Hinv); try done; [apply Hinv|apply Hinv|].
    exists (base p). intros [|[|k]] e [= <-]. unfold page_base. cbn [pg]. rewrite Hp. cbn. f_equal. lia.
  - by eapply pinv_step_extend.
  - apply (pinv_move _ _ Hinv); try done; [apply Hinv|apply Hinv|].
    split_and!; [apply (pi_stageB _ Hinv)|by exists []|done].
  - by eapply pinv_step_unlink.
  - pose proof (pi_stageB _ Hinv) as (C1 & C2 & C3). pose proof (pi_wf _ Hinv _ _ Hp) as Hw.
    apply (pinv_set_page _ a p (set_in_queue false (tag_page NOX_TAG_FLUSHING p)) Hinv Hp);
      cbn; try done; auto.
    left. split; [|by apply elem_of_app; left]. intros b. by apply C3.
  - by eapply pinv_step_write.
  - by eapply pinv_free.
  - apply (pinv_move _ _ Hinv); try done; [apply Hinv|apply Hinv].
  - apply (pinv_step_far _ _ _ _ _ _ d _ _ Hinv). intros a p x Hp Hx Hn. rewrite (Hd x).
    apply buf_put_out. intros Hc. by apply Hn, (Hfar a p).
  - apply (pinv_step_far _ _ _ _ _ _ d _ _ Hinv). intros a p x _ _ Hn.
    match goal with Hd : forall x, ~ _ -> _ = _ |- _ => apply Hd end. auto.
  - by eapply pinv_step_abandon.
  - by eapply pinv_step_drop.
  - by eapply pinv_step_requeue_full.
  - by eapply pinv_step_requeue_sealed.
  - by eapply pinv_step_sweep.
Qed.

(** * Runs *)

(** A run from one state to another, with the chunks accepted on the way. *)
Inductive pipe_run : pipe -> list chunk -> pipe -> Prop :=
| pr_refl s : pipe_run s [] s
| pr_step s cs s1 l s2 :
    pipe_run s cs s1 -> pstep s1 l s2 -> pipe_run s (cs ++ option_list l) s2.

(** At most one transition. *)
Definition one_move (s : pipe) (l : option chunk) (s' : pipe) : Prop :=
  s' = s /\ l = None \/ pstep s l s'.

Lemma one_move_run s l s' : one_move s l s' -> pipe_run s (option_list l) s'.
Proof.
  intros [[-> ->]|Hs]; [constructor|]. exact (pr_step s [] s l s' (pr_refl s) Hs).
Qed.

(** A transition of a background thread: none of the pipeline or one, with no chunk accepted and
    the chunks in flight untouched. *)
Definition bg_move (s s' : pipe) : Prop := (s' = s \/ pstep s None s') /\ fl s' = fl s.

Lemma bg_one_move s s' : bg_move s s' -> one_move s None s'.
Proof. intros [[->|Hs] _]; [by left|by right]. Qed.

Lemma bg_move_run s s' : bg_move s s' -> pipe_run s [] s'.
Proof. intros Hb. by apply (one_move_run s None s'), bg_one_move. Qed.

(** A page keeps its base, and a page born has the base of a chunk in flight. *)
Lemma pstep_bases s l s' a b :
  pinv s -> pstep s l s' -> page_base (pg s') a = Some b ->
  page_base (pg s) a = Some b \/
  pg s !! a = None /\ exists i c, fl s !! i = Some (c, FLook) /\ ck_base c = b.
Proof.
  intros Hinv Hs.
  assert (Hset : forall (m : gmap addr scrap_page) a0 p q, m !! a0 = Some p -> base q = base p ->
    page_base (<[a0 := q]> m) a = Some b -> page_base m a = Some b).
  { intros m a0 p q Hp Hq. by rewrite (page_base_set m a0 p q). }
  assert (Hok : forall p c st q, page_wf p -> chunk_wf c ->
    scrap_page_merge p (ck_src c) (ck_intra c) (ck_len c) = Some (st, q) ->
    st = SCRAP_OK -> base q = base p).
  { intros p c st q Hw Hc E ->. by destruct (merge_ok_facts _ _ _ Hw Hc E) as (_ & _ & _ & ? & _). }
  assert (Htf : forall p, base (tag_if_full p) = base p)
    by (intros p; by destruct (tag_if_full_same p) as (_ & _ & ? & _)).
  pose proof (pi_wf _ Hinv) as Hwf. pose proof (pi_chunks _ Hinv) as Hck.
  destruct Hs; cbn [pg fl] in *; auto; intros Hb; try (left; eapply Hset; [done| |exact Hb]; done).
  - left. eapply Hset; [done| |exact Hb]. rewrite Htf. eapply Hok; [by eapply Hwf|by eapply Hck|done..].
  - destruct (decide (a = a0)) as [->|Hne].
    + right. split; [done|]. exists i, c. split; [done|]. unfold page_base in Hb.
      rewrite lookup_insert_eq in Hb. cbn in Hb. rewrite Htf in Hb. injection Hb as <-. symmetry.
      match goal with E : scrap_page_merge _ _ _ _ = _ |- _ =>
        eapply (Hok _ _ _ _ ltac:(apply fresh_page_wf; [by apply (Hck i c FLook)|done]) (Hck i c FLook ltac:(done)) E)
      end. done.
    + left. unfold page_base in *. by rewrite lookup_insert_ne in Hb.
  - left. eapply Hset; [done| |exact Hb]. cbn.
    match goal with E : scrap_page_apply_holes ?p ?sc = Some _ |- _ =>
      destruct (apply_holes_page p sc) as (q & E' & _ & Hk & _); [by eapply Hwf|];
      rewrite E in E' end.
    apply (inj Some) in E' as ->. by rewrite Hk.
  - left. unfold page_base in *. rewrite lookup_delete in Hb. by case_decide.
  - left. eapply Hset; [done| |exact Hb]. cbn. eapply Hok; [by eapply Hwf|by eapply Hck|done..].
  - left. eapply Hset; [done| |exact Hb]. cbn. by rewrite Htf.
Qed.

(** A caller about to detach a page has just found it under the base of its chunk. *)
Lemma pstep_detaching s l s' i c x :
  pinv s -> pstep s l s' -> fl s' !! i = Some (c, FDet x) ->
  fl s !! i = Some (c, FDet x) \/ page_base (pg s') x = Some (ck_base c).
Proof.
  intros Hinv Hs. pose proof (pi_res _ Hinv) as Hres.
  destruct Hs; cbn [fl pg res] in *; auto; intros Hx;
    try (apply lookup_delete_Some in Hx as [_ Hx]; auto);
    apply lookup_insert_Some in Hx as [[-> Hx]|[_ Hx]]; auto; injection Hx as <- ?; try done; subst; right.
  all: match goal with Hm : ?m !! ck_base _ = Some _ |- _ =>
    destruct (Hres _ _ Hm) as (_ & q & Hq & Hb & _) end;
    assert (q = p) as -> by congruence; unfold page_base; rewrite ?lookup_insert_eq, ?Hq; cbn; by rewrite Hb.
Qed.

(** No caller is about to detach the page of another base. *)
Definition own_detach (s : pipe) : Prop :=
  forall i c x b, fl s !! i = Some (c, FDet x) -> page_base (pg s) x = Some b -> b = ck_base c.

(** A single caller never is: nobody allocates while it retries. *)
Lemma own_detach_step s l s' :
  pinv s -> one_move s l s' -> (forall i j v w, fl s !! i = Some v -> fl s !! j = Some w -> i = j) ->
  own_detach s -> own_detach s'.
Proof.
  intros Hinv Hm Hone Hown i c x b Hi Hb.
  destruct Hm as [[-> _]|Hs]; [by eapply Hown|].
  destruct (pstep_detaching _ _ _ _ _ _ Hinv Hs Hi) as [Hi'|Hb']; [|congruence].
  destruct (pstep_bases _ _ _ _ _ Hinv Hs Hb) as [Hb'|(_ & j & d & Hj & _)]; [by eapply Hown|].
  rewrite (Hone _ _ _ _ Hi' Hj) in Hi'. congruence.
Qed.

Lemma one_move_bases s l s' a b :
  pinv s -> one_move s l s' -> page_base (pg s') a = Some b ->
  page_base (pg s) a = Some b \/
  pg s !! a = None /\ exists i c, fl s !! i = Some (c, FLook) /\ ck_base c = b.
Proof. intros Hi [[-> _]|Hs]; [auto|by eapply pstep_bases]. Qed.

(** The chunks written one after the other. *)
Definition put_chunks (d : buf) (cs : list chunk) : buf :=
  foldl (fun d c => buf_put d (ck_off c) (ck_src c) (ck_len c)) d cs.

Definition pipe_initial (d : buf) : pipe := mk_pipe ∅ ∅ [] [] H1None H2None d ∅.

Lemma pipe_initial_inv d : pinv (pipe_initial d).
Proof.
  split; cbn; try done; intros; try (rewrite lookup_empty in *; done); try (by apply not_elem_of_nil in H0).
  - apply NoDup_nil_2.
Qed.

Lemma pipe_run_spec s cs s' :
  pipe_run s cs s' -> pinv s -> pinv s' /\ agree (view s') (put_chunks (view s) cs).
Proof.
  intros Hr Hinv. induction Hr as [s|s cs s1 l s2 Hr IH Hs]; [by split|].
  destruct (IH Hinv) as [Hinv1 Hv]. split; [by eapply step_inv|].
  rewrite (step_view _ _ _ Hinv1 Hs). unfold put_chunks in *. rewrite foldl_app. destruct l as [c|]; cbn.
  - by rewrite Hv.
  - exact Hv.
Qed.


End Machine.
