(* ===== verification/System.v ===== *)
(** The whole engine as a concurrent system: any number of callers of [nox_write], the Stage-1
    thread and the Stage-2 thread, interleaved at the grain of one critical section or system
    call, over the shared state of [Otflush]. A simulation shows that the system implements
    the abstract pipeline of [Pipeline], from which follow the absence of undefined behaviour
    and the write-ordering guarantee. *)
From stdpp Require Import base numbers list gmap sets.
From Corelib Require Import Init.Byte.
From S2P Require Import Prelude Config Segments IoDirect Watermark ScrapPage Heap Queue.
From S2P Require Import PageIndex Stats Otflush Engine Pipeline.

(** * The system *)

Record sys (S : Type) := mk_sys {
  y_sh : shared S;
  y_s1 : s1_thread;
  y_s2 : s2_ctl;
  y_fg : gmap nat fg_ctl;
  y_failed : bool
}.
Arguments mk_sys {S}.
Arguments y_sh {S}.
Arguments y_s1 {S}.
Arguments y_s2 {S}.
Arguments y_fg {S}.
Arguments y_failed {S}.

(** The bytes a caller still has to write. *)
Definition fg_range (c : fg_ctl) : option (Z * Z) :=
  match c with
  | FgIdle _ => None
  | FgDirect _ _ size offset => Some (offset, size)
  | FgLoop l | FgGate l | FgAsleep _ l | FgLookup l | FgDetach _ l =>
      Some (wl_cur l, wl_remaining l)
  end.

Definition disjoint_from (lo len : Z) (r : option (Z * Z)) : Prop :=
  match r with
  | None => True
  | Some (lo', len') => lo + len <= lo' \/ lo' + len' <= lo
  end.

Definition chunk_of (l : write_loop) : chunk :=
  let '(b, intra, len) := wl_chunk l in mk_chunk b intra (wl_src l) len.

(** The chunk a caller has in flight. *)
Definition fg_flight (c : fg_ctl) : option (chunk * phase) :=
  match c with
  | FgIdle _ | FgDirect _ _ _ _ | FgLoop _ => None
  | FgGate l | FgAsleep _ l | FgLookup l => Some (chunk_of l, FLook)
  | FgDetach a l => Some (chunk_of l, FDet a)
  end.

Definition range_ok (offset size : Z) : Prop :=
  0 <= offset /\ 0 <= size /\ offset + size <= 2 ^ 63 - NOX_DATAZONE_SIZE.

(** The bytes a transition of a caller makes part of the file. *)
Definition fg_label (c c' : fg_ctl) : option chunk :=
  match c, c' with
  | FgLookup l, FgLoop _ => Some (chunk_of l)
  | FgDirect _ src size offset, FgIdle 0 => Some (mk_chunk offset 0 src size)
  | _, _ => None
  end.

(** The call returned an error. *)
Definition fg_fails (c c' : fg_ctl) : bool :=
  match c, c' with
  | FgIdle _, _ => false
  | _, FgIdle rc => negb (rc =? 0)
  | _, _ => false
  end.

(** What a transition contributes to the history: the start of a call, or bytes accepted. *)
Inductive event :=
| ECall (src : buf) (size offset : Z)
| EPut (c : chunk).

(** The chunks accepted, and the calls made, in order. *)
Definition accepted (es : list event) : list chunk :=
  omap (fun e => match e with EPut c => Some c | ECall _ _ _ => None end) es.

Definition put_call (d : buf) (e : event) : buf :=
  match e with ECall src size offset => buf_put d offset src size | EPut _ => d end.

(** The file after the calls of a history, each performed at once. *)
Definition put_calls (d : buf) (es : list event) : buf := foldl put_call d es.

Section System.
Context `{NoxConfig} {S : Type} `{Posix S}.

(** The contract of [nox_write]: the range fits the file and overlaps no write in progress. *)
Definition call_ok (s : sys S) (i : nat) (size offset : Z) : Prop :=
  range_ok offset size /\
  forall j c, j <> i -> y_fg s !! j = Some c -> disjoint_from offset size (fg_range c).

(** What a transition of a caller relies on, of the allocator only: [malloc] returns an address
    that is not allocated, [posix_memalign] a zone aligned as asked, and there are never 2^32 - 2
    pages at once, which is a petabyte of zones. The address may be one that was freed before,
    whoever still holds it. *)
Definition fg_ok (s : sys S) (c : fg_ctl) (al : alloc_answer) : Prop :=
  match c with
  | FgLookup _ =>
      sh_heap (y_sh s) !! al_addr al = None /\
      (forall za junk, al_zone al = Some (za, junk) -> aligned NOX_BLOCK_SIZE za) /\
      Z.of_nat (size (sh_heap (y_sh s))) + 2 < 2 ^ 32
  | _ => True
  end.

(** One transition of one thread, with its event. *)
Inductive sys_step : sys S -> option event -> sys S -> Prop :=
| sy_call sh t1 t2 fg failed i rc baddr src size offset sh' c :
    fg !! i = Some (FgIdle rc) -> call_ok (mk_sys sh t1 t2 fg failed) i size offset ->
    nox_write sh baddr src size offset = (sh', c) ->
    sys_step (mk_sys sh t1 t2 fg failed) (Some (ECall src size offset))
      (mk_sys sh' t1 t2 (<[i := c]> fg) failed)
| sy_fg sh t1 t2 fg failed i c now al sh' c' :
    fg !! i = Some c -> fg_ok (mk_sys sh t1 t2 fg failed) c al ->
    fg_step sh now al c = Some (sh', c') ->
    sys_step (mk_sys sh t1 t2 fg failed) (EPut <$> fg_label c c')
      (mk_sys sh' t1 t2 (<[i := c']> fg) (failed || fg_fails c c'))
| sy_stage1 sh t1 t2 fg failed sh' t1' :
    stage1_step sh t1 = Some (sh', t1') ->
    sys_step (mk_sys sh t1 t2 fg failed) None (mk_sys sh' t1' t2 fg failed)
| sy_stage2 sh t1 t2 fg failed sh' t2' :
    stage2_step sh t2 = Some (sh', t2') ->
    sys_step (mk_sys sh t1 t2 fg failed) None (mk_sys sh' t1 t2' fg failed).

Inductive sys_run : sys S -> list event -> sys S -> Prop :=
| sr_refl s : sys_run s [] s
| sr_step s es s1 l s2 :
    sys_run s es s1 -> sys_step s1 l s2 -> sys_run s (es ++ option_list l) s2.

(** * The engine from [nox_open] *)

(** The state when [nox_open] has returned an engine and its threads have started: [st] and
    [w] are the process-wide statistics and gate, [x] the file, [junk] the contents of the
    scratch zone, [callers] the threads that may call [nox_write]. *)
Definition engine_open (e : open_env) (high low : Z) (w : watermark) (st : nox_stats) (x : S)
    (junk : buf) (callers : gset nat) : option (sys S) :=
  '(r, w, _) ← nox_open e high low w;
  '(idx, o) ← r;
  let '(sh, t1) := stage1_start (mk_shared ∅ idx o w x st []) junk in
  Some (mk_sys sh t1 S2Pop (gset_to_gmap (FgIdle 0) callers) false).

(** The engine, opened on the file [x] with no page live, has reached [s] with history [es]. *)
Definition engine_run (x : S) (es : list event) (s : sys S) : Prop :=
  exists e high low w st junk callers s0,
    engine_open e high low w st x junk callers = Some s0 /\ g_live w = 0 /\ stats_wf st /\
    sys_run s0 es s.

End System.

(** * Pages without their links *)

Definition strip (p : scrap_page) : scrap_page := set_next None (set_qnext None p).

Lemma strip_qnext h h' : same_but_qnext h' h -> strip <$> h' = strip <$> h.
Proof.
  intros Hs. apply map_eq. intros a. specialize (Hs a). rewrite !lookup_fmap.
  destruct (h' !! a) as [p'|], (h !! a) as [p|]; cbn in *; try done. injection Hs.
  intros. unfold strip, set_next, set_qnext. cbn. congruence.
Qed.

Lemma strip_next h h' : same_but_next h' h -> strip <$> h' = strip <$> h.
Proof.
  intros Hs. apply map_eq. intros a. specialize (Hs a). rewrite !lookup_fmap.
  destruct (h' !! a) as [p'|], (h !! a) as [p|]; cbn in *; try done. injection Hs.
  intros. unfold strip, set_next, set_qnext. cbn. congruence.
Qed.

Lemma strip_lookup (h : heap) m a q :
  strip <$> h = m -> m !! a = Some q -> exists p, h !! a = Some p /\ q = strip p.
Proof. intros <-. rewrite lookup_fmap, fmap_Some. naive_solver. Qed.

Lemma strip_lookup_2 (h : heap) m a p :
  strip <$> h = m -> h !! a = Some p -> m !! a = Some (strip p).
Proof. intros <- Hp. by rewrite lookup_fmap, Hp. Qed.

Section Strip.
Context `{NoxConfig}.

Lemma merge_strip p src off len :
  scrap_page_merge (strip p) src off len =
    ('(st, q) ← scrap_page_merge p src off len; Some (st, strip q)).
Proof.
  unfold scrap_page_merge. cbn [strip set_next set_qnext hdr data].
  destruct (coalesce_insert (hdr p) off len) as [[] h]; [|done].
  by destruct (memcpy _ _ _ _ _).
Qed.

Lemma apply_strip p scratch :
  scrap_page_apply_holes (strip p) scratch = (q ← scrap_page_apply_holes p scratch; Some (strip q)).
Proof.
  unfold scrap_page_apply_holes, scrap_page_hole_ranges. cbn [strip set_next set_qnext hdr data].
  by destruct (copy_holes _ _ _).
Qed.

End Strip.
