(* ===== verification/Schedule.v ===== *)
(** Interleavings as data: a schedule names the thread that moves next and what the caller,
    the clock and the allocator do, and [run_schedule] executes it. A checked run is a run of
    the system; an unchecked one leaves out the assumptions on the callers and shows what the
    code does without them. *)
From stdpp Require Import base numbers list gmap sets.
From Corelib Require Import Init.Byte.
From S2P Require Import Prelude Config Segments IoDirect Watermark ScrapPage Heap Queue.
From S2P Require Import PageIndex Stats Otflush Engine Pipeline System.

Inductive move :=
| MCall (i : nat) (baddr : Z) (src : buf) (size offset : Z)
| MFg (i : nat) (now : Z) (al : alloc_answer)
| MStage1
| MStage2.

(** * The assumptions, decided *)

Definition range_okb (offset size : Z) : bool :=
  (0 <=? offset) && (0 <=? size) && (offset + size <=? 2 ^ 63 - NOX_DATAZONE_SIZE).

Definition disjoint_fromb (lo len : Z) (r : option (Z * Z)) : bool :=
  match r with
  | None => true
  | Some (lo', len') => (lo + len <=? lo') || (lo' + len' <=? lo)
  end.

Section Schedule.
Context `{NoxConfig} {S : Type} `{Posix S}.

Definition call_okb (s : sys S) (i : nat) (size offset : Z) : bool :=
  range_okb offset size &&
  forallb (fun jc => bool_decide (jc.1 = i) || disjoint_fromb offset size (fg_range jc.2))
    (map_to_list (y_fg s)).

Definition fg_okb (s : sys S) (c : fg_ctl) (al : alloc_answer) : bool :=
  match c with
  | FgLookup _ =>
      match sh_heap (y_sh s) !! al_addr al with None => true | Some _ => false end &&
      match al_zone al with None => true | Some (za, _) => NOX_IS_ALIGNED za end &&
      (Z.of_nat (size (sh_heap (y_sh s))) + 2 <? 2 ^ 32)
  | _ => true
  end.

(** One move; [None] is undefined behaviour, a move no thread can make, or, in a checked run,
    a broken assumption. *)
Definition exec (checked : bool) (s : sys S) (m : move) : option (sys S * option event) :=
  let '(mk_sys sh t1 t2 fg failed) := s in
  match m with
  | MCall i baddr src size offset =>
      c ← fg !! i;
      match c with
      | FgIdle _ =>
          if negb checked || call_okb s i size offset then
            let '(sh', c') := nox_write sh baddr src size offset in
            Some (mk_sys sh' t1 t2 (<[i := c']> fg) failed, Some (ECall src size offset))
          else None
      | _ => None
      end
  | MFg i now al =>
      c ← fg !! i;
      if negb checked || fg_okb s c al then
        '(sh', c') ← fg_step sh now al c;
        Some (mk_sys sh' t1 t2 (<[i := c']> fg) (failed || fg_fails c c'), EPut <$> fg_label c c')
      else None
  | MStage1 => '(sh', t1') ← stage1_step sh t1; Some (mk_sys sh' t1' t2 fg failed, None)
  | MStage2 => '(sh', t2') ← stage2_step sh t2; Some (mk_sys sh' t1 t2' fg failed, None)
  end.

Fixpoint run_schedule (checked : bool) (s : sys S) (ms : list move) : option (sys S * list event) :=
  match ms with
  | [] => Some (s, [])
  | m :: ms =>
      '(s, l) ← exec checked s m;
      '(s, es) ← run_schedule checked s ms;
      Some (s, option_list l ++ es)
  end.

(** * A checked schedule is a run *)

Lemma call_okb_ok s i size offset : call_okb s i size offset = true -> call_ok s i size offset.
Proof.
  unfold call_okb, call_ok, range_okb, range_ok. intros [Hr Hf]%andb_true_iff. split; [lia|].
  rewrite forallb_forall in Hf. intros j c Hne Hj. apply elem_of_map_to_list, list_elem_of_In in Hj.
  apply Hf in Hj. cbn in Hj. rewrite bool_decide_eq_false_2 in Hj by done. cbn in Hj.
  unfold disjoint_fromb in Hj. unfold disjoint_from. destruct (fg_range c) as [[lo len]|]; [lia|done].
Qed.

Lemma fg_okb_ok s c al : fg_okb s c al = true -> fg_ok s c al.
Proof.
  unfold fg_okb, fg_ok. destruct c as [rc|baddr src size0 offset|l|l|t0 l|l|x l]; try done.
  intros [[Ha Hz]%andb_true_iff Hs]%andb_true_iff. split_and!.
  - by destruct (sh_heap (y_sh s) !! al_addr al).
  - intros za junk E. rewrite E in Hz. by apply NOX_IS_ALIGNED_spec.
  - lia.
Qed.

Lemma exec_step s m s' l : exec true s m = Some (s', l) -> sys_step s l s'.
Proof.
  destruct s as [sh t1 t2 fg failed]. unfold exec. intros E.
  destruct m as [i baddr src size offset|i now al| |].
  - destruct (fg !! i) as [c|] eqn:Ei; [|done]. cbn [mbind option_bind] in E.
    destruct c as [rc|?|?|?|?|?|?]; try done. cbn [negb orb] in E.
    destruct (call_okb _ _ _ _) eqn:Ec; [|done]. destruct (nox_write _ _ _ _ _) as [sh' c'] eqn:En.
    apply (inj Some) in E. apply pair_eq in E as [<- <-]. apply call_okb_ok in Ec.
    by econstructor.
  - destruct (fg !! i) as [c|] eqn:Ei; [|done]. cbn [mbind option_bind] in E. cbn [negb orb] in E.
    destruct (fg_okb _ _ _) eqn:Ec; [|done]. destruct (fg_step _ _ _ _) as [[sh' c']|] eqn:Ef; [|done].
    cbn [mbind option_bind] in E. apply (inj Some) in E. apply pair_eq in E as [<- <-].
    apply fg_okb_ok in Ec. by econstructor.
  - destruct (stage1_step _ _) as [[sh' t1']|] eqn:Ef; [|done]. cbn [mbind option_bind] in E.
    apply (inj Some) in E. apply pair_eq in E as [<- <-]. by constructor.
  - destruct (stage2_step _ _) as [[sh' t2']|] eqn:Ef; [|done]. cbn [mbind option_bind] in E.
    apply (inj Some) in E. apply pair_eq in E as [<- <-]. by constructor.
Qed.

Lemma sys_run_cons s l s1 es s2 :
  sys_step s l s1 -> sys_run s1 es s2 -> sys_run s (option_list l ++ es) s2.
Proof.
  intros Hs Hr. induction Hr as [s1|s1 es s2 l' s3 Hr IH Hs'].
  - rewrite app_nil_r. apply (sr_step s [] s); [constructor|done].
  - rewrite app_assoc. econstructor; [by apply IH|done].
Qed.

Lemma schedule_run s ms s' es : run_schedule true s ms = Some (s', es) -> sys_run s es s'.
Proof.
  revert s es. induction ms as [|m ms IH]; intros s es E; cbn [run_schedule] in E.
  - apply (inj Some) in E. apply pair_eq in E as [<- <-]. constructor.
  - destruct (exec true s m) as [[s1 l]|] eqn:Em; [|done]. cbn [mbind option_bind] in E.
    destruct (run_schedule true s1 ms) as [[s2 es']|] eqn:Er; [|done].
    cbn [mbind option_bind] in E. apply (inj Some) in E. apply pair_eq in E as [<- <-].
    eapply sys_run_cons; [by eapply exec_step|by apply IH].
Qed.

End Schedule.

(** * A sample engine *)

(** A file of two pages of the byte [xee], the default configuration, and two callers. *)
Module Sample.
#[export] Existing Instance default_config.

Definition bytes (v : byte) : buf := fun _ => v.

Definition all_ok : open_env :=
  mk_open_env true (fun _ _ => 3) true (fun _ => true)
    (mk_start_env true true true true true (mk_queue_env true true true)
       (mk_queue_env true true true) (fun _ => true)).

Definition file : mem_file := mk_file (bytes xee) (2 * NOX_DATAZONE_SIZE) [].

Definition start : option (sys mem_file) :=
  engine_open all_ok NOX_WATERMARK_HIGH (NOX_WATERMARK_LOW NOX_WATERMARK_HIGH) wm_initial
    stats_zero file (bytes x00) {[0%nat; 1%nat]}.

Definition from (a : addr) : alloc_answer := mk_alloc a true (Some (4096, bytes xff)).

(** A caller through one chunk that needs no retry, with the address an allocation gets. *)
Definition one_chunk (i : nat) (a : addr) : list move := replicate 3 (MFg i 0 (from a)).

(** Two concurrent calls, one of them over a page boundary, with Stage-1 moving in between,
    then an overwrite of bytes that Stage-1 has already snapshotted. *)
Definition busy_calls : list move :=
  [MCall 0 5 (bytes x11) 10 100; MCall 1 6 (bytes x22) 20 262134] ++
  one_chunk 1 1%positive ++ one_chunk 0 2%positive ++ replicate 4 MStage1 ++
  one_chunk 1 3%positive ++ [MFg 0 0 (from 4%positive); MFg 1 0 (from 4%positive)] ++
  [MCall 0 7 (bytes x33) 4 102] ++ one_chunk 0 4%positive ++ [MFg 0 0 (from 4%positive)].

(** The same, and the stages run until nothing is pending. *)
Definition drained_calls : list move :=
  busy_calls ++ replicate 30 MStage1 ++ replicate 60 MStage2 ++ replicate 30 MStage1 ++
  replicate 60 MStage2.

Definition outcome (ms : list move) : option (sys mem_file * list event) :=
  s ← start; run_schedule true s ms.

(** A run of the sample engine, with a boolean test of the state it ends in. *)
Lemma reached (test : sys mem_file -> list event -> bool) ms :
  match outcome ms with Some (s, es) => test s es | None => false end = true ->
  exists s es, engine_run file es s /\ test s es = true.
Proof.
  unfold outcome. destruct start as [s0|] eqn:E0; [|done]. cbn [mbind option_bind].
  destruct (run_schedule true s0 ms) as [[s es]|] eqn:E; [|done]. intros Ht. exists s, es.
  split; [|done]. apply schedule_run in E. unfold start in E0. do 8 eexists.
  split; [exact E0|]. split; [reflexivity|]. split; [|exact E].
  repeat split.
Qed.

Definition healthyb (s : sys mem_file) : bool :=
  (io_err (sh_ot (y_sh s)) =? 0) && negb (y_failed s) &&
  match y_s2 s with S2WriteEnd _ ok | S2Latch _ ok => ok | _ => true end.

Definition idleb (s : sys mem_file) : bool :=
  forallb (fun ic => match ic.2 with FgIdle _ => true | _ => false end) (map_to_list (y_fg s)).

Lemma idleb_ok s : idleb s = true -> forall i c, y_fg s !! i = Some c -> exists rc, c = FgIdle rc.
Proof.
  unfold idleb. rewrite forallb_forall. intros Hf i c Hi.
  apply elem_of_map_to_list, list_elem_of_In in Hi. apply Hf in Hi. cbn in Hi.
  destruct c; try done. by eexists.
Qed.

End Sample.
