(* ===== verification/Simulation.v ===== *)
(** The simulation between the system of [System] and the pipeline of [Pipeline]: the relation,
    the shared data structures through each operation, and one lemma per kind of thread. *)
From stdpp Require Import base numbers list gmap sets.
From Corelib Require Import Init.Byte.
From S2P Require Import Prelude Config Segments IoDirect Watermark ScrapPage Heap Queue.
From S2P Require Import PageIndex Stats Otflush Engine Pipeline System.

(** * The data structures *)

Section Core.
Context `{NoxConfig} {S : Type} `{PosixLaws S}.

(** The shared state represents the pages [pgs], the resident map [m], the queues [l1] and
    [l2] and the file [d]. *)
Record core (sh : shared S) (pgs : gmap addr scrap_page) (m : gmap Z addr) (l1 l2 : list addr)
    (d : buf) : Prop := {
  co_pg : strip <$> sh_heap sh = pgs;
  co_first : queue_rep (sh_heap sh) (q1 (sh_ot sh)) l1;
  co_second : queue_rep (sh_heap sh) (q2 (sh_ot sh)) l2;
  co_idx : index_rep (sh_heap sh) (sh_idx sh) m;
  co_live : g_live (sh_wm sh) = Z.of_nat (size (sh_heap sh));
  co_size : Z.of_nat (size (sh_heap sh)) + 1 < 2 ^ 32;
  co_stats : stats_wf (sh_stats sh);
  co_disk : file_byte (sh_os sh) ≈ d
}.

(** Components the data structures do not depend on. *)
Lemma core_ot sh pgs m l1 l2 d o :
  core sh pgs m l1 l2 d -> q1 o = q1 (sh_ot sh) -> q2 o = q2 (sh_ot sh) ->
  core (with_ot o sh) pgs m l1 l2 d.
Proof. intros [] E1 E2. split; cbn; rewrite ?E1, ?E2; done. Qed.

Lemma core_wm sh pgs m l1 l2 d w :
  core sh pgs m l1 l2 d -> g_live w = g_live (sh_wm sh) -> core (with_wm w sh) pgs m l1 l2 d.
Proof. intros [] E. split; cbn; rewrite ?E; done. Qed.

Lemma core_stats sh pgs m l1 l2 d st :
  core sh pgs m l1 l2 d -> stats_wf st -> core (with_stats st sh) pgs m l1 l2 d.
Proof. intros [] E. split; done. Qed.

Lemma core_os sh pgs m l1 l2 d x d' :
  core sh pgs m l1 l2 d -> file_byte x ≈ d' -> core (with_os x sh) pgs m l1 l2 d'.
Proof. intros [] E. split; done. Qed.

Lemma core_print sh pgs m l1 l2 d ms :
  core sh pgs m l1 l2 d -> core (print ms sh) pgs m l1 l2 d.
Proof. intros []. split; done. Qed.

(** The heap lemmas below are stated on a heap whose pages keep their links to the index. *)
Lemma index_same_but_qnext h h' idx m :
  same_but_qnext h' h -> index_rep h idx m -> index_rep h' idx m.
Proof.
  intros Hs. apply index_rep_frame. intros a p Hp _. symmetry in Hs.
  destruct (same_but_qnext_lookup _ _ _ _ Hs Hp) as (p' & Hp' & E). exists p'. split; [done|].
  split; [by apply (f_equal base) in E|by apply (f_equal next) in E].
Qed.

Lemma queue_same_but_next h h' q l :
  same_but_next h' h -> queue_rep h q l -> queue_rep h' q l.
Proof.
  intros Hs. apply queue_rep_frame. intros a p _ Hp. symmetry in Hs.
  destruct (same_but_next_lookup _ _ _ _ Hs Hp) as (p' & Hp' & E). exists p'. split; [done|].
  by apply (f_equal qnext) in E.
Qed.

Lemma queue_outside (h h' : heap) q l (ks : list addr) :
  (forall b, b ∉ ks -> h' !! b = h !! b) -> (forall e, e ∈ l -> e ∉ ks) ->
  queue_rep h q l -> queue_rep h' q l.
Proof.
  intros Hout Hd. apply queue_rep_frame. intros a p Ha Hp. exists p. by rewrite Hout by auto.
Qed.

Lemma strip_size (h h' : heap) : strip <$> h' = strip <$> h -> size h' = size h.
Proof. intros E. by rewrite <- (map_size_fmap strip h'), E, map_size_fmap. Qed.

Lemma queue_length h q l : queue_rep h q l -> Z.of_nat (length l) <= Z.of_nat (size h).
Proof. intros (Hl & _). pose proof (lseg_size _ _ _ _ Hl). lia. Qed.

(** ** Queues *)

(** A change of the heap that only moves queue links, with the queues it leaves. *)
Lemma core_qnext sh pgs m l1 l2 d h q1' q2' l1' l2' :
  core sh pgs m l1 l2 d -> same_but_qnext h (sh_heap sh) ->
  queue_rep h q1' l1' -> queue_rep h q2' l2' ->
  core (with_ot (set_q1 q1' (set_q2 q2' (sh_ot sh))) (with_heap h sh)) pgs m l1' l2' d.
Proof.
  intros [] Hs Hq1 Hq2. pose proof (strip_qnext _ _ Hs) as Hst.
  pose proof (strip_size _ _ Hst) as Hsz.
  split; cbn; rewrite ?Hst, ?Hsz; try done. by eapply index_same_but_qnext.
Qed.

Lemma set_q1_eta o : set_q1 (q1 o) o = o.
Proof. by destruct o. Qed.
Lemma set_q2_eta o : set_q2 (q2 o) o = o.
Proof. by destruct o. Qed.

Lemma core_pop1 sh pgs m a l1 l2 d :
  core sh pgs m (a :: l1) l2 d -> a ∉ l2 ->
  exists h q, nox_queue_pop (sh_heap sh) (q1 (sh_ot sh)) = Some (PopGot (Some a), h, q) /\
    core (with_ot (set_q1 q (sh_ot sh)) (with_heap h sh)) pgs m l1 l2 d.
Proof.
  intros Hc Ha. pose proof Hc as []. pose proof (pop_rep _ _ _ co_first0) as Hp.
  cbn in Hp. destruct Hp as (h & q & E & Hq & Hs & _ & Hout). exists h, q. split; [done|].
  rewrite <- (set_q2_eta (sh_ot sh)) at 1. eapply core_qnext; [done..|].
  eapply (queue_outside (sh_heap sh) h _ _ [a]); [|set_solver|done].
  intros b Hb. apply Hout. set_solver.
Qed.

Lemma core_pop2 sh pgs m a l1 l2 d :
  core sh pgs m l1 (a :: l2) d -> a ∉ l1 ->
  exists h q, nox_queue_pop (sh_heap sh) (q2 (sh_ot sh)) = Some (PopGot (Some a), h, q) /\
    core (with_ot (set_q2 q (sh_ot sh)) (with_heap h sh)) pgs m l1 l2 d.
Proof.
  intros Hc Ha. pose proof Hc as []. pose proof (pop_rep _ _ _ co_second0) as Hp.
  cbn in Hp. destruct Hp as (h & q & E & Hq & Hs & _ & Hout). exists h, q. split; [done|].
  change (set_q2 q (sh_ot sh)) with (set_q1 (q1 (sh_ot sh)) (set_q2 q (sh_ot sh))).
  eapply core_qnext; [done..| |done].
  eapply (queue_outside (sh_heap sh) h _ _ [a]); [|set_solver|done].
  intros b Hb. apply Hout. set_solver.
Qed.

Lemma core_push1 sh pgs m l1 l2 d a :
  core sh pgs m l1 l2 d -> is_Some (pgs !! a) -> a ∉ l1 -> a ∉ l2 ->
  (forall e, e ∈ l1 -> e ∉ l2) ->
  exists h q, nox_queue_push (sh_heap sh) (q1 (sh_ot sh)) a = Some (h, q) /\
    core (with_ot (set_q1 q (sh_ot sh)) (with_heap h sh)) pgs m (l1 ++ [a]) l2 d.
Proof.
  intros Hc [p Hp] Ha1 Ha2 Hd. pose proof Hc as []. subst pgs.
  apply lookup_fmap_Some in Hp as (p0 & _ & Hp0). pose proof (queue_length _ _ _ co_first0).
  destruct (push_rep (sh_heap sh) (q1 (sh_ot sh)) l1 a p0) as (h & q & E & Hq & Hs & _ & Hout);
    [done..|lia|].
  exists h, q. split; [done|]. rewrite <- (set_q2_eta (sh_ot sh)) at 1.
  eapply core_qnext; [done..|]. eapply (queue_outside (sh_heap sh) h _ _ (l1 ++ [a])); [done| |done].
  intros e He. rewrite elem_of_app, list_elem_of_singleton. intros [He1| ->]; [by apply (Hd e)|done].
Qed.

Lemma core_push2 sh pgs m l1 l2 d a :
  core sh pgs m l1 l2 d -> is_Some (pgs !! a) -> a ∉ l1 -> a ∉ l2 ->
  (forall e, e ∈ l1 -> e ∉ l2) ->
  exists h q, nox_queue_push (sh_heap sh) (q2 (sh_ot sh)) a = Some (h, q) /\
    core (with_ot (set_q2 q (sh_ot sh)) (with_heap h sh)) pgs m l1 (l2 ++ [a]) d.
Proof.
  intros Hc [p Hp] Ha1 Ha2 Hd. pose proof Hc as []. subst pgs.
  apply lookup_fmap_Some in Hp as (p0 & _ & Hp0). pose proof (queue_length _ _ _ co_second0).
  destruct (push_rep (sh_heap sh) (q2 (sh_ot sh)) l2 a p0) as (h & q & E & Hq & Hs & _ & Hout);
    [done..|lia|].
  exists h, q. split; [done|].
  change (set_q2 q (sh_ot sh)) with (set_q1 (q1 (sh_ot sh)) (set_q2 q (sh_ot sh))).
  eapply core_qnext; [done..| |done].
  eapply (queue_outside (sh_heap sh) h _ _ (l2 ++ [a])); [done| |done].
  intros e He. rewrite elem_of_app, list_elem_of_singleton. intros [He1| ->]; [by apply (Hd e)|done].
Qed.

Lemma core_claim sh pgs m l1 l2 d want :
  core sh pgs m l1 l2 d -> (forall e, e ∈ l1 -> e ∉ l2) ->
  (exists a r h q, l2 = a :: r /\ page_base pgs a = Some want /\
     nox_queue_pop_if_base (sh_heap sh) (q2 (sh_ot sh)) want = Some (Some a, h, q) /\
     core (with_ot (set_q2 q (sh_ot sh)) (with_heap h sh)) pgs m l1 r d) \/
  nox_queue_pop_if_base (sh_heap sh) (q2 (sh_ot sh)) want =
    Some (None, sh_heap sh, q2 (sh_ot sh)).
Proof.
  intros Hc Hd. pose proof Hc as [].
  destruct (pop_if_base_rep _ _ _ want co_second0)
    as [(a & r & p & -> & Hp & Hb & h & q & E & Hq & Hs & _ & Hout)|[E _]]; [left|by right].
  exists a, r, h, q. split_and!; [done| |done|].
  - unfold page_base. rewrite <- co_pg0, lookup_fmap, Hp. cbn. by rewrite Hb.
  - change (set_q2 q (sh_ot sh)) with (set_q1 (q1 (sh_ot sh)) (set_q2 q (sh_ot sh))).
    eapply core_qnext; [done..| |done].
    eapply (queue_outside (sh_heap sh) h _ _ [a]); [| |done].
    + intros b Hb'. apply Hout. set_solver.
    + intros e He ->%list_elem_of_singleton. apply (Hd a He). left.
Qed.

(** ** Pages *)

Lemma core_set sh pgs m l1 l2 d a p q :
  core sh pgs m l1 l2 d -> sh_heap sh !! a = Some p ->
  base q = base p -> next q = next p -> qnext q = qnext p ->
  core (with_heap (<[a := q]> (sh_heap sh)) sh) (<[a := strip q]> pgs) m l1 l2 d.
Proof.
  intros [] Hp Hb Hn Hqn. split; cbn; try done.
  - by rewrite fmap_insert, co_pg0.
  - eapply queue_rep_frame; [|done]. intros e r _ Hr. rewrite lookup_insert.
    case_decide; [|by eauto]. subst e. exists q. split; congruence.
  - eapply queue_rep_frame; [|done]. intros e r _ Hr. rewrite lookup_insert.
    case_decide; [|by eauto]. subst e. exists q. split; congruence.
  - eapply index_rep_frame; [|done]. intros e r Hr _. rewrite lookup_insert.
    case_decide; [|by eauto]. subst e. exists q. split_and!; congruence.
  - by rewrite map_size_insert_Some by eauto.
  - by rewrite map_size_insert_Some by eauto.
Qed.

(** The page a detach of [a] in the bucket of [b] unlinks is the resident page [a], of whatever
    base, if that base is of the bucket. *)
Lemma core_detach sh pgs m l1 l2 d b a :
  core sh pgs m l1 l2 d ->
  exists r h i, page_index_detach_if (sh_heap sh) (sh_idx sh) b a = Some (r, h, i) /\
    if r : bool
    then exists b', page_base pgs a = Some b' /\ bucket_of b' = bucket_of b /\ m !! b' = Some a /\
      core (with_idx i (with_heap h sh)) pgs (unlink_res b' a m) l1 l2 d
    else m !! b <> Some a /\ core (with_idx i (with_heap h sh)) pgs m l1 l2 d.
Proof.
  intros Hc. pose proof Hc as []. pose proof co_idx0 as (C & HC & Hm).
  assert (Hmm : forall b a, m !! b = Some a -> exists p, sh_heap sh !! a = Some p /\ base p = b)
    by (by destruct Hm as (_ & _ & Hmm)).
  assert (Hpb : forall p, sh_heap sh !! a = Some p -> page_base pgs a = Some (base p)).
  { intros p Hp. unfold page_base. by rewrite <- co_pg0, lookup_fmap, Hp. }
  assert (Hdec : (exists b', page_base pgs a = Some b' /\ bucket_of b' = bucket_of b /\ m !! b' = Some a) \/
    ~ exists b', page_base pgs a = Some b' /\ bucket_of b' = bucket_of b /\ m !! b' = Some a).
  { destruct (page_base pgs a) as [c|]; [|naive_solver].
    destruct (decide (bucket_of c = bucket_of b /\ m !! c = Some a)); naive_solver. }
  destruct Hdec as [(b' & Ha & Hb & HM)|Hno].
  - destruct (Hmm _ _ HM) as (p & Hp & Hbp).
    destruct (detach_if_hit (sh_heap sh) (sh_idx sh) m b' a p) as (h & i & E & HI & Hs & _);
      [by exists C|done..|].
    exists true, h, i. rewrite (detach_if_bucket _ _ b b') by done. split; [done|]. exists b'.
    split_and!; [done..|]. unfold unlink_res. rewrite decide_True by done.
    pose proof (strip_next _ _ Hs) as Hst. pose proof (strip_size _ _ Hst) as Hsz.
    split; cbn; rewrite ?Hst, ?Hsz; try done; by eapply queue_same_but_next.
  - exists false, (sh_heap sh), (sh_idx sh). split.
    + apply (detach_if_miss _ _ m); [done|]. intros p Hp Hb HM. apply Hno. exists (base p).
      split_and!; try done. by apply Hpb.
    + split; [|by destruct sh]. intros HM. apply Hno. exists b. destruct (Hmm _ _ HM) as (p & Hp & <-).
      split_and!; try done. by apply Hpb.
Qed.

(** A page detached by its own base. *)
Lemma core_detach_own sh pgs m l1 l2 d b a :
  core sh pgs m l1 l2 d -> page_base pgs a = Some b ->
  exists r h i, page_index_detach_if (sh_heap sh) (sh_idx sh) b a = Some (r, h, i) /\
    core (with_idx i (with_heap h sh)) pgs (unlink_res b a m) l1 l2 d.
Proof.
  intros Hc Hb. destruct (core_detach sh pgs m l1 l2 d b a Hc) as (r & h & i & E & Hr).
  exists r, h, i. split; [done|]. destruct r.
  - destruct Hr as (b' & Hb' & _ & _ & Hc'). congruence.
  - destruct Hr as [Hn Hc']. unfold unlink_res. by rewrite decide_False.
Qed.

Lemma core_free sh pgs m l1 l2 d a p :
  core sh pgs m l1 l2 d -> sh_heap sh !! a = Some p -> a ∉ l1 -> a ∉ l2 ->
  (forall b, m !! b <> Some a) ->
  exists w k, scrap_page_free (sh_heap sh) (sh_wm sh) (Some a) = Some (delete a (sh_heap sh), w, k) /\
    core (with_wm w (with_heap (delete a (sh_heap sh)) sh)) (delete a pgs) m l1 l2 d.
Proof.
  intros [] Hp Ha1 Ha2 Hm. destruct (size_delete_page (sh_heap sh) a p Hp) as [Hsz Hpos].
  destruct (page_free_spec (sh_heap sh) (sh_wm sh) a p Hp) as (w & k & E & Hw); [lia|].
  exists w, k. split; [done|]. split; cbn; try done.
  - by rewrite fmap_delete, co_pg0.
  - eapply (queue_outside (sh_heap sh) _ _ _ [a]); [|set_solver|done].
    intros b Hb. apply lookup_delete_ne. set_solver.
  - eapply (queue_outside (sh_heap sh) _ _ _ [a]); [|set_solver|done].
    intros b Hb. apply lookup_delete_ne. set_solver.
  - eapply index_rep_frame; [|done]. intros e r Hr Hme. exists r.
    rewrite lookup_delete_ne; [done|]. intros <-. by apply Hm in Hme.
  - lia.
  - lia.
Qed.

Lemma core_hit sh pgs m l1 l2 d b a al :
  core sh pgs m l1 l2 d -> m !! b = Some a ->
  page_index_get_or_create (sh_heap sh) (sh_idx sh) (sh_wm sh) b NOX_SSD_ID
    (al_addr al) (al_malloc al) (al_zone al) =
  Some (Some a, false, sh_heap sh, sh_idx sh, sh_wm sh).
Proof. intros [] HM. by eapply get_or_create_found. Qed.

Lemma core_oom sh pgs m l1 l2 d b al :
  core sh pgs m l1 l2 d -> m !! b = None -> zone_ok (al_malloc al) (al_zone al) = false ->
  page_index_get_or_create (sh_heap sh) (sh_idx sh) (sh_wm sh) b NOX_SSD_ID
    (al_addr al) (al_malloc al) (al_zone al) =
  Some (None, false, sh_heap sh, sh_idx sh, sh_wm sh).
Proof.
  intros [] HM Hz. eapply get_or_create_oom; [done..|].
  destruct (al_malloc al), (al_zone al); auto; done.
Qed.

Lemma core_fresh sh pgs m l1 l2 d b a za junk :
  core sh pgs m l1 l2 d -> m !! b = None -> sh_heap sh !! a = None ->
  Z.of_nat (size (sh_heap sh)) + 2 < 2 ^ 32 ->
  exists hd idx, page_index_get_or_create (sh_heap sh) (sh_idx sh) (sh_wm sh) b NOX_SSD_ID
      a true (Some (za, junk)) =
    Some (Some a, true, <[a := fresh_page b 0 za junk hd]> (sh_heap sh), idx,
          nox_watermark_note_alloc (sh_wm sh)) /\
    core (with_wm (nox_watermark_note_alloc (sh_wm sh))
            (with_idx idx (with_heap (<[a := fresh_page b 0 za junk hd]> (sh_heap sh)) sh)))
         (<[a := fresh_page b 0 za junk None]> pgs) (<[b := a]> m) l1 l2 d.
Proof.
  intros Hc HM Ha Hsz. pose proof Hc as [].
  destruct (get_or_create_fresh (sh_heap sh) (sh_idx sh) m (sh_wm sh) b NOX_SSD_ID a za junk)
    as (hd & idx & E & HI); [done..|].
  exists hd, idx. split; [done|].
  assert (Hout : forall l q, queue_rep (sh_heap sh) q l ->
    queue_rep (<[a := fresh_page b 0 za junk hd]> (sh_heap sh)) q l).
  { intros l q. apply queue_rep_frame. intros e r _ Hr. exists r.
    rewrite lookup_insert_ne; [done|]. congruence. }
  split; cbn [with_wm with_idx with_heap sh_heap sh_idx sh_wm sh_ot sh_stats sh_os]; auto.
  - by rewrite fmap_insert, co_pg0.
  - cbn. rewrite u32_small by lia. rewrite size_insert_fresh by done. lia.
  - rewrite size_insert_fresh by done. lia.
Qed.

End Core.

(** * The relation *)

Definition s1_entered (c : s1_ctl) : list addr :=
  match c with S1ForwardPush a | S1Push a => [a] | _ => [] end.

Definition s2_leaving (c : s2_ctl) : list Z :=
  match c with S2Leave b _ => [b] | _ => [] end.

Definition bases_of (m : gmap addr scrap_page) (l : list addr) : list Z := omap (page_base m) l.

(** The bases with a writeback pending, as the guard counts them. *)
Definition guard_bases (a : pipe) (c1 : s1_ctl) (c2 : s2_ctl) : list Z :=
  bases_of (pg a) (s2_pages (h2 a) ++ pq2 a ++ s1_entered c1) ++ s2_leaving c2.

(** Pages freed, or given up, but still counted as pending. *)
Definition s1_freed (c : s1_ctl) : Z :=
  match c with S1DropDec => 1 | _ => 0 end.
Definition s2_freed (c : s2_ctl) : Z :=
  match c with S2Leave _ _ | S2Dec _ => 1 | _ => 0 end.

(** The bytes of I/O each stage has in flight. *)
Definition s1_bytes (c : s1_ctl) : Z :=
  match c with S1Read _ _ _ | S1ReadEnd _ _ _ => NOX_DATAZONE_SIZE | _ => 0 end.
Definition s2_bytes (c : s2_ctl) : Z :=
  match c with S2Write b | S2WriteEnd b _ => batch_bytes b | _ => 0 end.

Definition s1_match (t : s1_thread) (a : pipe) : Prop :=
  match s1_at t with
  | S1Pop | S1Park | S1DropDec | S1Exit => h1 a = H1None
  | S1Examine x => h1 a = H1Popped x
  | S1ForwardEnter x b | S1Enter x b => h1 a = H1Full x /\ page_base (pg a) x = Some b
  | S1ForwardPush x | S1Push x => h1 a = H1Full x
  | S1Requeue _ => False
  | S1GuardWait x b holes => h1 a = H1Wait x holes /\ page_base (pg a) x = Some b
  | S1ReadBegin x b holes | S1Read x b holes =>
      h1 a = H1Go x holes /\ page_base (pg a) x = Some b
  | S1ReadEnd x b rc | S1Apply x b rc =>
      page_base (pg a) x = Some b /\
      exists holes, match rc with
                    | Some _ => h1 a = H1Got x holes (s1_scratch t)
                    | None => h1 a = H1Go x holes
                    end
  end.

Definition batch_ok (batch : list addr) : Prop :=
  batch <> [] /\ Z.of_nat (length batch) <= NOX_PWRITEV_MAX_IOV.

Definition s2_match (c : s2_ctl) (a : pipe) : Prop :=
  match c with
  | S2Pop | S2Park | S2Exit => h2 a = H2None
  | S2Busy x => h2 a = H2Collect [x]
  | S2Collect batch | S2Sample batch => batch_ok batch /\ h2 a = H2Collect batch
  | S2Ready batch nx => batch_ok (batch ++ [nx]) /\ batch <> [] /\ h2 a = H2Collect (batch ++ [nx])
  | S2Repush _ _ => False
  | S2Detach batch rest => batch_ok batch /\ h2 a = H2Detach batch rest
  | S2Mark batch rest =>
      batch_ok batch /\
      exists x r, rest = x :: r /\ h2 a = H2Detach batch r /\ x ∈ batch /\ x ∉ r
  | S2WriteBegin batch | S2Write batch => batch_ok batch /\ h2 a = H2Detach batch []
  | S2WriteEnd batch _ | S2Latch batch _ => batch_ok batch /\ h2 a = H2Done batch
  | S2Free rest | S2Leave _ rest | S2Dec rest => h2 a = H2Done rest
  end.

Definition fg_wf (c : fg_ctl) : Prop :=
  match c with
  | FgIdle _ => True
  | FgDirect _ _ size offset => range_ok offset size
  | FgLoop l => range_ok (wl_cur l) (wl_remaining l)
  | FgGate l | FgAsleep _ l | FgLookup l | FgDetach _ l =>
      range_ok (wl_cur l) (wl_remaining l) /\ 0 < wl_remaining l
  end.

Definition fg_disjoint (c c' : fg_ctl) : Prop :=
  match fg_range c with
  | None => True
  | Some (lo, len) => disjoint_from lo len (fg_range c')
  end.

(** The callers and the chunks in flight. *)
Record fg_sim (fg : gmap nat fg_ctl) (f : gmap nat (chunk * phase)) : Prop := {
  fs_fl : forall i, f !! i = fg !! i ≫= fg_flight;
  fs_wf : forall i c, fg !! i = Some c -> fg_wf c;
  fs_dis : forall i j c c', i <> j -> fg !! i = Some c -> fg !! j = Some c' -> fg_disjoint c c'
}.

Section Relation.
Context `{NoxConfig} {dmg : Damage} {S : Type} `{PosixLaws S}.

(** The background threads and the accounting. *)
Record bg_sim (o : otflush) (t1 : s1_thread) (t2 : s2_ctl) (a : pipe) : Prop := {
  bs_wb : wb_rep (wb o) (guard_bases a (s1_at t1) t2);
  bs_pending : pending o = Z.of_nat (length (ord a)) + (s1_freed (s1_at t1) + s2_freed t2);
  bs_bcount : bcount o = s1_bytes (s1_at t1) + s2_bytes t2;
  bs_one : s1_match t1 a;
  bs_two : s2_match t2 a
}.

Record sim (s : sys S) (a : pipe) : Prop := {
  si_inv : pinv a;
  si_core : core (y_sh s) (pg a) (res a) (pq1 a) (pq2 a) (disk a);
  si_bg : bg_sim (sh_ot (y_sh s)) (y_s1 s) (y_s2 s) a;
  si_fg : fg_sim (y_fg s) (fl a)
}.

End Relation.
