(* ===== verification/SimFlush.v ===== *)
(** The background threads of the simulation: every transition of Stage-1 and of Stage-2 is
    defined, and is a transition of the pipeline or changes nothing it sees. *)
From stdpp Require Import base numbers list gmap sets.
From Corelib Require Import Init.Byte.
From S2P Require Import Prelude Config Segments IoDirect Watermark ScrapPage Heap Queue.
From S2P Require Import PageIndex Stats Otflush Engine Pipeline System Simulation.

Section Flush.
Context `{NoxConfig} {dmg : Damage} {S : Type} `{PosixLaws S}.

(** * Shared steps *)

Lemma sim_bg_step (sh : shared S) t1 t2 fg failed a sh' t1' t2' a' :
  sim (mk_sys sh t1 t2 fg failed) a -> a' = a \/ pstep a None a' -> fl a' = fl a ->
  core sh' (pg a') (res a') (pq1 a') (pq2 a') (disk a') -> bg_sim (sh_ot sh') t1' t2' a' ->
  exists a', bg_move a a' /\ sim (mk_sys sh' t1' t2' fg failed) a'.
Proof.
  intros [] Hs Hf Hc Hb. exists a'. split; [done|].
  split; cbn in *; try done; [|by rewrite Hf].
  destruct Hs as [->|Hs]; [done|by eapply step_inv].
Qed.

Lemma ord_parts pgs m l1 l2 s1 s2 d f a :
  pinv (mk_pipe pgs m l1 l2 s1 s2 d f) ->
  (a ∈ l1 -> (a ∉ l2)) /\ (a ∈ s1_page s1 -> (a ∉ l1) /\ (a ∉ l2)) /\
  (a ∈ s2_pages s2 -> (a ∉ l1) /\ (a ∉ l2) /\ (a ∉ s1_page s1)).
Proof.
  intros Hinv. pose proof (pi_nodup _ Hinv) as Hnd. unfold ord in Hnd. cbn in Hnd.
  apply NoDup_app in Hnd as (_ & D1 & (_ & D2 & (_ & D3 & _)%NoDup_app)%NoDup_app).
  specialize (D1 a). specialize (D2 a). specialize (D3 a). rewrite !elem_of_app in *. tauto.
Qed.

Lemma in_pipe pgs m l1 l2 s1 s2 d f a :
  pinv (mk_pipe pgs m l1 l2 s1 s2 d f) ->
  a ∈ s2_pages s2 \/ a ∈ l2 \/ a ∈ s1_page s1 \/ a ∈ l1 -> is_Some (pgs !! a).
Proof.
  intros Hinv Ha. apply (pi_dom _ Hinv a). unfold ord. cbn. rewrite !elem_of_app. tauto.
Qed.

Lemma heap_page sh pgs m l1 l2 d a p :
  core (S := S) sh pgs m l1 l2 d -> pgs !! a = Some p ->
  exists q, sh_heap sh !! a = Some q /\ p = strip q.
Proof. intros [] Hp. by apply (strip_lookup _ pgs). Qed.

Lemma heap_base sh pgs m l1 l2 d a b :
  core (S := S) sh pgs m l1 l2 d -> page_base pgs a = Some b ->
  exists q, sh_heap sh !! a = Some q /\ base q = b.
Proof.
  intros Hc Hb. unfold page_base in Hb. apply fmap_Some in Hb as (p & Hp & ->).
  destruct (heap_page _ _ _ _ _ _ _ _ Hc Hp) as (q & Hq & ->). by exists q.
Qed.

(** ** The SSD is never busy with one thread per stage *)

Lemma batch_bytes_bound batch :
  batch_ok batch -> 0 <= batch_bytes batch <= NOX_PWRITEV_MAX_IOV * NOX_DATAZONE_SIZE.
Proof. intros [_ Hl]. unfold batch_bytes, NOX_PWRITEV_MAX_IOV in *. sz. Qed.

Lemma s2_bytes_bound c a :
  s2_match c a -> 0 <= s2_bytes c <= NOX_PWRITEV_MAX_IOV * NOX_DATAZONE_SIZE.
Proof.
  destruct c; cbn; intros Hm; try (unfold NOX_PWRITEV_MAX_IOV; sz);
    apply batch_bytes_bound, Hm.
Qed.

Lemma s1_bytes_bound c : 0 <= s1_bytes c <= NOX_DATAZONE_SIZE.
Proof. destruct c; cbn; sz. Qed.

Lemma never_busy o t1 t2 a : bg_sim o t1 t2 a -> ssd_is_busy o = false.
Proof.
  intros []. unfold ssd_is_busy. rewrite bs_bcount.
  pose proof (s2_bytes_bound _ _ bs_two) as B2. pose proof (s1_bytes_bound (s1_at t1)) as B1.
  unfold NOX_PWRITEV_MAX_IOV, NOX_DATAZONE_SIZE in *.
  change NOX_BCOUNT_BUSY_THRESHOLD with (4194304). lia.
Qed.

(** ** The guard *)

Lemma bases_app m l1 l2 : bases_of m (l1 ++ l2) = bases_of m l1 ++ bases_of m l2.
Proof. apply omap_app. Qed.

Lemma bases_length m l : (length (bases_of m l) <= length l)%nat.
Proof. unfold bases_of. induction l as [|a l IH]; cbn; [lia|]. destruct (page_base m a); cbn; lia. Qed.

Lemma bases_set m a p q l :
  m !! a = Some p -> base q = base p -> bases_of (<[a := q]> m) l = bases_of m l.
Proof.
  intros Hp Hb. unfold bases_of. induction l as [|x l IH]; cbn; [done|].
  rewrite (page_base_set m a p q x) by done. by rewrite IH.
Qed.

Lemma bases_elem m l a b : a ∈ l -> page_base m a = Some b -> b ∈ bases_of m l.
Proof. intros Ha Hb. apply list_elem_of_omap. eauto. Qed.

Lemma ord_length sh a :
  pinv a -> core (S := S) sh (pg a) (res a) (pq1 a) (pq2 a) (disk a) ->
  Z.of_nat (length (ord a)) <= Z.of_nat (size (sh_heap sh)).
Proof.
  intros Hinv []. apply inj_le. rewrite <- (map_size_fmap strip (sh_heap sh)), co_pg, <- size_dom.
  rewrite <- (size_list_to_set (C := gset positive) (ord a)) by apply Hinv. apply subseteq_size.
  intros x. rewrite elem_of_list_to_set, elem_of_dom. apply Hinv.
Qed.

Lemma sh_eta1 (sh : shared S) :
  with_ot (set_q1 (q1 (sh_ot sh)) (sh_ot sh)) (with_heap (sh_heap sh) sh) = sh.
Proof. destruct sh as [h i o w x st l]. destruct o. reflexivity. Qed.

Lemma sh_eta2 (sh : shared S) :
  with_ot (set_q2 (q2 (sh_ot sh)) (sh_ot sh)) (with_heap (sh_heap sh) sh) = sh.
Proof. destruct sh as [h i o w x st l]. destruct o. reflexivity. Qed.

Lemma leaving_length c : (length (s2_leaving c) <= 1)%nat.
Proof. destruct c; cbn; lia. Qed.

(** Entering the guard for the page in Stage-1's hand. *)
Lemma enter_guard (sh : shared S) pgs m l1 l2 x s2 d f t2 b :
  pinv (mk_pipe pgs m l1 l2 (H1Full x) s2 d f) -> core sh pgs m l1 l2 d ->
  wb_rep (wb (sh_ot sh)) (bases_of pgs (s2_pages s2 ++ l2 ++ []) ++ s2_leaving t2) ->
  page_base pgs x = Some b ->
  exists w, wb_guard_enter (sh_ot sh) b = Some (set_wb w (sh_ot sh)) /\
    wb_rep w (bases_of pgs (s2_pages s2 ++ l2 ++ [x]) ++ s2_leaving t2).
Proof.
  intros Hinv Hc Hwb Hb.
  pose proof (ord_length _ _ Hinv Hc) as Hlen. pose proof (co_size _ _ _ _ _ _ Hc) as Hsz.
  unfold ord in Hlen. cbn in Hlen. rewrite !length_app in Hlen. cbn in Hlen.
  destruct (guard_enter_rep _ b _ Hwb) as (w & E & Hw).
  - rewrite length_app. pose proof (leaving_length t2).
    pose proof (bases_length pgs (s2_pages s2 ++ l2 ++ [])) as Hbl.
    rewrite !length_app in Hbl. cbn in Hbl. lia.
  - exists w. split; [done|]. revert Hw. rewrite !bases_app, !app_nil_r.
    assert (bases_of pgs [x] = [b]) as -> by (unfold bases_of; cbn; by rewrite Hb).
    intros Hw. eapply wb_rep_proper; [|exact Hw]. rewrite <- !app_assoc.
    cbn. rewrite (app_assoc (bases_of pgs (s2_pages s2))). solve_Permutation.
Qed.

(** * Stage-1 *)

(** The page that Stage-1 gives up is one that may be, and is spoiled. *)
Definition s1_contained (c c' : s1_ctl) : Prop :=
  match c, c' with
  | S1Apply _ b None, S1DropDec => gives_up b /\ spoiled b
  | _, _ => True
  end.

Definition stage1_ok (sh : shared S) t1 t2 fg failed a : Prop :=
  exists sh' t1', stage1_step sh t1 = Some (sh', t1') /\
    (s1_contained (s1_at t1) (s1_at t1') ->
     exists a', bg_move a a' /\ sim (mk_sys sh' t1' t2 fg failed) a').

Section Stage1.
Variables (sh : shared S) (t2 : s2_ctl) (fg : gmap nat fg_ctl) (failed : bool).
Variables (pgs : gmap addr scrap_page) (m : gmap Z addr) (l1 l2 : list addr) (k2 : s2_hold)
  (d : buf) (f : gmap nat (chunk * phase)) (scr : buf) (sad : Z).

Lemma stage1_pop k1 :
  sim (mk_sys sh (mk_s1 S1Pop scr sad) t2 fg failed) (mk_pipe pgs m l1 l2 k1 k2 d f) ->
  stage1_ok sh (mk_s1 S1Pop scr sad) t2 fg failed (mk_pipe pgs m l1 l2 k1 k2 d f).
Proof.
  intros Hs. pose proof Hs as [Hinv Hc [Hwb Hpe Hbc E1 E2] _]. cbn in *. subst k1.
  unfold stage1_ok, stage1_step. cbn [s1_at]. destruct l1 as [|x r].
  - pose proof (co_first _ _ _ _ _ _ Hc) as Hq. pose proof (pop_rep _ _ _ Hq) as Hp. cbn in Hp.
    rewrite Hp. cbn [mbind option_bind]. rewrite sh_eta1.
    destruct (shutdown (q1 (sh_ot sh))); do 2 eexists; (split; [done|]); intros _;
      (eapply (sim_bg_step _ _ _ _ _ _ _ _ _ _ Hs); [by left|done|exact Hc|by split]).
  - destruct (core_pop1 _ _ _ _ _ _ _ Hc) as (h & q & E & Hc').
    { apply (proj1 (ord_parts _ _ _ _ _ _ _ _ x Hinv)). left. }
    rewrite E. cbn [mbind option_bind]. do 2 eexists. split; [done|]. intros _.
    eapply (sim_bg_step _ _ _ _ _ _ _ _ _ (mk_pipe pgs m r l2 (H1Popped x) k2 d f) Hs);
      [right; constructor|done|exact Hc'|by split].
Qed.

Lemma stage1_examine k1 x :
  sim (mk_sys sh (mk_s1 (S1Examine x) scr sad) t2 fg failed) (mk_pipe pgs m l1 l2 k1 k2 d f) ->
  stage1_ok sh (mk_s1 (S1Examine x) scr sad) t2 fg failed (mk_pipe pgs m l1 l2 k1 k2 d f).
Proof.
  intros Hs. pose proof Hs as [Hinv Hc Hb _]. pose proof Hb as [Hwb Hpe Hbc E1 E2].
  cbn in *. subst k1. destruct (in_pipe _ _ _ _ _ _ _ _ x Hinv) as [p Hp]; [cbn; set_solver|].
  destruct (heap_page _ _ _ _ _ _ _ _ Hc Hp) as (q & Hq & ->).
  pose proof (pi_wf _ Hinv _ _ Hp) as Hw.
  unfold stage1_ok, stage1_step. cbn [s1_at]. rewrite Hq. cbn [mbind option_bind].
  destruct (scrap_page_is_full q) eqn:Ef.
  - do 2 eexists. split; [done|]. intros _.
    eapply (sim_bg_step _ _ _ _ _ _ _ _ _ (mk_pipe pgs m l1 l2 (H1Full x) k2 d f) Hs);
      [right; by econstructor|done|exact Hc|split; cbn; try done].
    unfold page_base. by rewrite Hp.
  - rewrite (never_busy _ _ _ _ Hb).
    destruct (run_event_ok (sh_stats sh) (EvStage1 (number (hdr q)))) as (st & Est & Hst);
      [apply Hc|cbn; apply Hw|]. cbn in Est. rewrite Est. cbn [mbind option_bind].
    do 2 eexists. split; [done|]. intros _.
    eapply (sim_bg_step _ _ _ _ _ _ _ _ _ (mk_pipe pgs m l1 l2 (H1Wait x
      (scrap_page_hole_ranges (strip q) (NOX_MAX_ENTRIES + 1))) k2 d f) Hs);
      [right; by econstructor|done|by apply core_stats|split; cbn; try done].
    unfold page_base. by rewrite Hp.
Qed.

(** The two sites that enter the guard, and the two that push on Queue-2. *)
Lemma stage1_enter k1 c x b :
  c = S1ForwardEnter x b \/ c = S1Enter x b ->
  sim (mk_sys sh (mk_s1 c scr sad) t2 fg failed) (mk_pipe pgs m l1 l2 k1 k2 d f) ->
  stage1_ok sh (mk_s1 c scr sad) t2 fg failed (mk_pipe pgs m l1 l2 k1 k2 d f).
Proof.
  intros Hc0 Hs. pose proof Hs as [Hinv Hc [Hwb Hpe Hbc E1 E2] _]. cbn in *.
  assert (k1 = H1Full x /\ page_base pgs x = Some b) as [-> Hpb]
    by (destruct Hc0 as [-> | ->]; exact E1).
  destruct (enter_guard sh pgs m l1 l2 x k2 d f t2 b Hinv Hc) as (w & E & Hw);
    [destruct Hc0 as [-> | ->]; exact Hwb|done|].
  unfold stage1_ok, stage1_step. destruct Hc0 as [-> | ->]; cbn [s1_at]; rewrite E;
    cbn [mbind option_bind]; do 2 eexists; (split; [done|]); intros _;
    (eapply (sim_bg_step _ _ _ _ _ _ _ _ _ _ Hs);
      [by left|done|by apply core_ot|by split]).
Qed.

Lemma stage1_push k1 c x :
  c = S1ForwardPush x \/ c = S1Push x ->
  sim (mk_sys sh (mk_s1 c scr sad) t2 fg failed) (mk_pipe pgs m l1 l2 k1 k2 d f) ->
  stage1_ok sh (mk_s1 c scr sad) t2 fg failed (mk_pipe pgs m l1 l2 k1 k2 d f).
Proof.
  intros Hc0 Hs. pose proof Hs as [Hinv Hc [Hwb Hpe Hbc E1 E2] _]. cbn in *.
  assert (k1 = H1Full x) as -> by (destruct Hc0 as [-> | ->]; exact E1).
  destruct (ord_parts _ _ _ _ _ _ _ _ x Hinv) as (_ & Hx & _).
  destruct (core_push2 sh pgs m l1 l2 d x Hc) as (h & q & E & Hc').
  { apply (in_pipe _ _ _ _ _ _ _ _ x Hinv). right. right. left. left. }
  { apply Hx. left. }
  { apply Hx. left. }
  { intros e. apply (proj1 (ord_parts _ _ _ _ _ _ _ _ e Hinv)). }
  unfold stage1_ok, stage1_step. destruct Hc0 as [-> | ->]; cbn [s1_at]; unfold push_q2;
    rewrite E; cbn [mbind option_bind]; do 2 eexists; (split; [done|]); intros _;
    (eapply (sim_bg_step _ _ _ _ _ _ _ _ _ (mk_pipe pgs m l1 (l2 ++ [x]) H1None k2 d f) Hs);
      [right; constructor|done|exact Hc'|split; cbn; try done]).
  1, 3: unfold guard_bases in *; cbn in *; by rewrite app_nil_r.
  all: rewrite Hpe; unfold ord; cbn; rewrite !length_app; cbn; lia.
Qed.

Lemma stage1_guard k1 x b holes :
  sim (mk_sys sh (mk_s1 (S1GuardWait x b holes) scr sad) t2 fg failed)
    (mk_pipe pgs m l1 l2 k1 k2 d f) ->
  stage1_ok sh (mk_s1 (S1GuardWait x b holes) scr sad) t2 fg failed
    (mk_pipe pgs m l1 l2 k1 k2 d f).
Proof.
  intros Hs. pose proof Hs as [Hinv Hc [Hwb Hpe Hbc [E1 Hpb] E2] _]. cbn in *. subst k1.
  destruct (guard_blocked_rep _ b _ Hwb) as (r & E & Hr).
  unfold stage1_ok, stage1_step. cbn [s1_at]. rewrite E. cbn [mbind option_bind].
  destruct r; do 2 eexists; (split; [done|]); intros _.
  - eapply (sim_bg_step _ _ _ _ _ _ _ _ _ _ Hs); [by left|done|exact Hc|by split].
  - specialize (Hr eq_refl).
    eapply (sim_bg_step _ _ _ _ _ _ _ _ _ (mk_pipe pgs m l1 l2 (H1Go x holes) k2 d f) Hs);
      [right; constructor|done|exact Hc|by split].
    intros e He Heq. apply Hr. rewrite Hpb in Heq. apply elem_of_app. left.
    eapply bases_elem; [|exact Heq]. cbn. rewrite app_nil_r. exact He.
Qed.

Lemma stage1_read k1 x b holes :
  sim (mk_sys sh (mk_s1 (S1Read x b holes) scr sad) t2 fg failed)
    (mk_pipe pgs m l1 l2 k1 k2 d f) ->
  stage1_ok sh (mk_s1 (S1Read x b holes) scr sad) t2 fg failed
    (mk_pipe pgs m l1 l2 k1 k2 d f).
Proof.
  intros Hs. pose proof Hs as [Hinv Hc [Hwb Hpe Hbc [E1 Hpb] E2] _]. cbn in *. subst k1.
  destruct (pi_stageA _ Hinv) as (_ & p & Hp & Hh & _). cbn in Hp.
  pose proof (pi_wf _ Hinv _ _ Hp) as (_ & Hr & _).
  unfold page_base in Hpb. rewrite Hp in Hpb. injection Hpb as <-.
  destruct (read_holes_spec (base p) (sh_os sh) holes sad scr) as (rc & scr' & x' & log & E & Hf & _);
    [lia|lia|done|].
  unfold stage1_ok, stage1_step. cbn [s1_at s1_saddr s1_scratch]. rewrite E.
  cbn [mbind option_bind]. do 2 eexists. split; [done|]. intros _.
  pose proof (co_disk _ _ _ _ _ _ Hc) as Hd.
  assert (Hd' : file_byte x' ≈ d) by (by rewrite Hf).
  destruct rc as [n|].
  - eapply (sim_bg_step _ _ _ _ _ _ _ _ _ (mk_pipe pgs m l1 l2 (H1Got x holes scr') k2 d f) Hs);
      [right|done|by eapply core_print, core_os|split; cbn; try done].
    + econstructor; [exact Hp|]. intros y Hy. rewrite <- Hd. eapply read_holes_fills; [lia|lia|..];
        [exact Hh|exact E|exact Hy].
    + split; [|by exists holes]. unfold page_base. by rewrite Hp.
  - eapply (sim_bg_step _ _ _ _ _ _ _ _ _ _ Hs);
      [by left|done|by eapply core_print, core_os|split; cbn; try done].
    split; [|by exists holes]. unfold page_base. by rewrite Hp.
Qed.

Lemma stage1_apply k1 x b rc :
  sim (mk_sys sh (mk_s1 (S1Apply x b rc) scr sad) t2 fg failed) (mk_pipe pgs m l1 l2 k1 k2 d f) ->
  stage1_ok sh (mk_s1 (S1Apply x b rc) scr sad) t2 fg failed (mk_pipe pgs m l1 l2 k1 k2 d f).
Proof.
  intros Hs. pose proof Hs as [Hinv Hc [Hwb Hpe Hbc (Hpb & holes & E1) E2] _]. cbn in *.
  assert (Hx : x ∈ s1_page k1) by (destruct rc; subst k1; left).
  destruct (in_pipe _ _ _ _ _ _ _ _ x Hinv) as [p Hp]; [auto|].
  destruct (heap_page _ _ _ _ _ _ _ _ Hc Hp) as (q & Hq & ->).
  unfold stage1_ok, stage1_step. cbn [s1_at s1_scratch]. destruct rc as [n|].
  - subst k1. pose proof (pi_wf _ Hinv _ _ Hp) as Hw. rewrite Hq. cbn [mbind option_bind].
    destruct (apply_holes_page (strip q) scr Hw) as (p' & E & Hw' & Hk & _).
    pose proof E as E'. rewrite apply_strip in E'.
    destruct (scrap_page_apply_holes q scr) as [q'|] eqn:Eq; [|done]. cbn in E'. injection E' as <-.
    cbn [mbind option_bind]. do 2 eexists. split; [done|]. intros _.
    assert (Hq' : q' = set_hdr (collapse_header (hdr q)) (set_data (data q') q)).
    { unfold scrap_page_apply_holes in Eq. destruct (copy_holes _ _ _); [|done].
      cbn in Eq. injection Eq as <-. done. }
    eapply (sim_bg_step _ _ _ _ _ _ _ _ _
      (mk_pipe (<[x := tag_page NOX_TAG_FULL (strip q')]> pgs) m l1 l2 (H1Full x) k2 d f) Hs);
      [right; by econstructor|done| |split; cbn; try done].
    + apply (core_set sh pgs m l1 l2 d x q (tag_page NOX_TAG_FULL q') Hc Hq); rewrite Hq'; done.
    + unfold guard_bases in *. cbn in *. rewrite (bases_set pgs x (strip q)); [done|done|].
      cbn. by rewrite Hq'.
    + split; [done|]. rewrite (page_base_set pgs x (strip q)); [done|done|]. cbn. by rewrite Hq'.
  - subst k1. rewrite (store_some x _ _ q) by exact Hq. cbn [mbind option_bind]. do 2 eexists.
    split; [done|]. intros [Hg Hsp]. unfold page_base in Hpb. rewrite Hp in Hpb. injection Hpb as <-.
    eapply (sim_bg_step _ _ _ _ _ _ _ _ _
      (mk_pipe (<[x := set_in_queue false (strip q)]> pgs) m l1 l2 H1None k2 d f) Hs);
      [right; by econstructor|done| |split; cbn; try done].
    + pose proof (core_set sh pgs m l1 l2 d x q (set_in_queue false q) Hc Hq eq_refl eq_refl eq_refl)
        as Hset. exact (core_ot _ _ _ _ _ _ (latch_io_error (sh_ot sh)) Hset eq_refl eq_refl).
    + unfold guard_bases in *. cbn in *. by rewrite (bases_set pgs x (strip q)).
    + rewrite Hpe. unfold ord. cbn. rewrite !length_app. cbn. lia.
Qed.

End Stage1.

Lemma sim_stage1 (sh : shared S) t1 t2 fg failed a :
  sim (mk_sys sh t1 t2 fg failed) a -> stage1_ok sh t1 t2 fg failed a.
Proof.
  intros Hs. destruct a as [pgs m l1 l2 k1 k2 d f]. destruct t1 as [c scr sad].
  pose proof Hs as [Hinv Hc [Hwb Hpe Hbc E1 E2] _]. cbn [y_s1 y_s2 y_sh s1_at] in *.
  destruct c as [|x|x b|x|x| |x b holes|x b holes|x b holes|x b rc|x b rc| |x b|x| ].
  - by apply stage1_pop.
  - by apply stage1_examine.
  - by eapply stage1_enter; [left|].
  - by eapply stage1_push; [left|].
  - done.
  - do 2 eexists. split; [done|]. intros _.
    eapply (sim_bg_step _ _ _ _ _ _ _ _ _ _ Hs); [by left|done|exact Hc|by split].
  - by apply stage1_guard.
  - do 2 eexists. split; [done|]. intros _.
    eapply (sim_bg_step _ _ _ _ _ _ _ _ _ _ Hs); [by left|done|by apply core_ot|].
    split; cbn; try done. cbn in Hbc. rewrite Hbc. pose proof (s2_bytes_bound _ _ E2).
    unfold NOX_PWRITEV_MAX_IOV in *. rewrite u64_small by sz. lia.
  - by apply stage1_read.
  - do 2 eexists. split; [done|]. intros _.
    eapply (sim_bg_step _ _ _ _ _ _ _ _ _ _ Hs); [by left|done| |].
    + apply core_stats; [by apply core_ot|]. apply Hc.
    + split; cbn; try done. cbn in Hbc. rewrite Hbc. pose proof (s2_bytes_bound _ _ E2).
      unfold NOX_PWRITEV_MAX_IOV in *. rewrite u64_small by sz. lia.
  - by apply stage1_apply.
  - pose proof (ord_length _ _ Hinv Hc) as Hlen. pose proof (co_size _ _ _ _ _ _ Hc) as Hsz.
    do 2 eexists. split; [done|]. intros _.
    eapply (sim_bg_step _ _ _ _ _ _ _ _ _ _ Hs); [by left|done|by apply core_ot|].
    split; cbn; try done. cbn in Hpe. rewrite Hpe, u64_small by (destruct t2; cbn; lia). lia.
  - by eapply stage1_enter; [right|].
  - by eapply stage1_push; [right|].
  - do 2 eexists. split; [done|]. intros _.
    eapply (sim_bg_step _ _ _ _ _ _ _ _ _ _ Hs); [by left|done|exact Hc|by split].
Qed.

(** * The write of a batch *)

Lemma batch_iov_spec (h : heap) batch :
  (forall a, a ∈ batch -> is_Some (h !! a)) ->
  exists iov, batch_iov h batch = Some iov /\ iov_wf iov /\ iov_total iov = batch_bytes batch /\
    forall i a p y, batch !! i = Some a -> h !! a = Some p -> 0 <= y < NOX_DATAZONE_SIZE ->
      iov_gather iov (Z.of_nat i * NOX_DATAZONE_SIZE + y) = data p y.
Proof.
  induction batch as [|a batch IH]; intros Hin.
  - exists []. split_and!; [done|constructor|done|]. intros i b p y Hi. by rewrite lookup_nil in Hi.
  - destruct (Hin a) as [p Hp]; [left|]. destruct IH as (iov & E & Hwf & Ht & Hg); [by intros b Hb; apply Hin; right|].
    cbn [batch_iov]. rewrite Hp. cbn [mbind option_bind]. rewrite E. cbn [mbind option_bind].
    eexists. split; [done|]. split_and!.
    + constructor; [cbn; sz|done].
    + cbn. rewrite Ht. unfold batch_bytes. cbn [length]. lia.
    + intros i b q y Hi Hq Hy. cbn [iov_gather iov_len iov_data]. destruct i as [|i].
      * injection Hi as <-. rewrite Hp in Hq. injection Hq as <-.
        destruct (_ <? _) eqn:El; [f_equal; lia|lia].
      * destruct (_ <? _) eqn:El; [sz|].
        replace (Z.of_nat (Datatypes.S i) * NOX_DATAZONE_SIZE + y - NOX_DATAZONE_SIZE)
          with (Z.of_nat i * NOX_DATAZONE_SIZE + y) by lia. by eapply Hg.
Qed.

(** The file after the write of a batch: no byte outside its zones has changed, and when the
    write succeeded the zones hold the data of the pages. *)
Definition batch_written (h : heap) (d d' : buf) (batch : list addr) (ok : bool) : Prop :=
  (forall a p x, ok = true -> a ∈ batch -> h !! a = Some p ->
     base p <= x < base p + NOX_DATAZONE_SIZE -> d' x = data p (x - base p)) /\
  (forall x, (forall a p, a ∈ batch -> h !! a = Some p ->
                ~ (base p <= x < base p + NOX_DATAZONE_SIZE)) -> d' x = d x).

Lemma stage2_write_spec (h : heap) (x : S) batch b :
  batch_ok batch ->
  (forall i a, batch !! i = Some a -> exists p, h !! a = Some p /\ page_wf p /\
     base p = b + Z.of_nat i * NOX_DATAZONE_SIZE) ->
  exists ok x' log, stage2_write h x batch = Some (ok, x', log) /\
    batch_written h (file_byte x) (file_byte x') batch ok.
Proof.
  intros Hok Hco. destruct batch as [|a [|a2 r]]; [by destruct Hok| |].
  - destruct (Hco 0%nat a eq_refl) as (p & Hp & Hw & _). unfold stage2_write. rewrite Hp.
    cbn [mbind option_bind]. destruct (writeback_spec p x Hw) as (ok & x' & log & E & Hout & Hin).
    rewrite E. do 3 eexists. split; [done|]. split.
    + intros c q y Hok' ->%list_elem_of_singleton Hq Hy. assert (q = p) as -> by congruence.
      rewrite (Hin Hok'). by rewrite buf_put_in.
    + intros y Hy. apply Hout. apply (Hy a p); [left|done].
  - remember (a :: a2 :: r) as batch eqn:Eb.
    destruct (Hco 0%nat a) as (p & Hp & Hw & Hb); [by rewrite Eb|].
    pose proof (batch_bytes_bound _ Hok) as Hbytes.
    destruct (batch_iov_spec h batch) as (iov & Ei & Hwf & Ht & Hg).
    { intros c Hc. apply list_elem_of_lookup in Hc as [i Hi].
      destruct (Hco i c Hi) as (q & ? & _). eauto. }
    assert (Hlast : exists q, page_wf q /\
      base q = b + Z.of_nat (length batch - 1) * NOX_DATAZONE_SIZE).
    { destruct (lookup_lt_is_Some_2 batch (length batch - 1)) as [c Hc]; [rewrite Eb; cbn; lia|].
      destruct (Hco _ _ Hc) as (q & _ & Hq). eauto. }
    destruct Hlast as (ql & Hql & Hbl). destruct Hql as (_ & Hrl & _). destruct Hw as (_ & Hr & _).
    assert (Hlen : Z.of_nat (length batch) = Z.of_nat (length batch - 1) + 1) by (rewrite Eb; cbn; lia).
    assert (Hend : batch_bytes batch = Z.of_nat (length batch - 1) * NOX_DATAZONE_SIZE + NOX_DATAZONE_SIZE)
      by (unfold batch_bytes; rewrite Hlen; lia).
    destruct (pwritev_all_spec x iov (base p)) as (w & x' & log & E & Hout & Hin);
      [done|lia|rewrite Ht; lia|].
    assert (Hsw : stage2_write h x batch =
      Some (bool_decide (w = SysOk (batch_bytes batch)), x', log)).
    { unfold stage2_write. rewrite Eb at 1. rewrite Hp. cbn [mbind option_bind]. rewrite Ei.
      cbn [mbind option_bind]. rewrite s64_small by lia. rewrite E. done. }
    rewrite Hsw. do 3 eexists. split; [done|]. rewrite Ht in Hout. split.
    + intros c q y ->%bool_decide_eq_true [i Hi]%list_elem_of_lookup Hq Hy.
      destruct Hin as [_ Hin]. rewrite Ht in Hin.
      destruct (Hco i c Hi) as (q' & Hq' & _ & Hbq). rewrite Hq in Hq'. injection Hq' as <-.
      apply lookup_lt_Some in Hi as Hil. rewrite Hin, buf_put_in by (unfold batch_bytes in *; sz).
      replace (y - base p) with (Z.of_nat i * NOX_DATAZONE_SIZE + (y - base q)) by lia.
      eapply Hg; [exact Hi|exact Hq|lia].
    + intros y Hy. apply Hout. intros Hrange.
      set (k := Z.to_nat ((y - base p) / NOX_DATAZONE_SIZE)).
      assert (Hk : Z.of_nat k * NOX_DATAZONE_SIZE <= y - base p < Z.of_nat k * NOX_DATAZONE_SIZE + NOX_DATAZONE_SIZE).
      { unfold k. pose proof (Z.div_mod (y - base p) NOX_DATAZONE_SIZE ltac:(sz)).
        pose proof (Z.mod_pos_bound (y - base p) NOX_DATAZONE_SIZE ltac:(sz)).
        pose proof (Z.div_pos (y - base p) NOX_DATAZONE_SIZE ltac:(lia) ltac:(sz)).
        rewrite Z2Nat.id by done. lia. }
      destruct (lookup_lt_is_Some_2 batch k) as [c Hc]; [unfold batch_bytes in *; sz|].
      destruct (Hco k c Hc) as (q & Hq & _ & Hbq).
      apply (Hy c q); [by eapply list_elem_of_lookup_2|done|lia].
Qed.

(** * Stage-2 *)

(** The bytes of the zones of a batch. *)
Definition zones (h : heap) (batch : list addr) (x : Z) : Prop :=
  exists a p, a ∈ batch /\ h !! a = Some p /\ base p <= x < base p + NOX_DATAZONE_SIZE.

(** A write of Stage-2 that fails spoils only bytes counted as damaged. *)
Definition s2_contained (sh : shared S) (t2 t2' : s2_ctl) : Prop :=
  match t2, t2' with
  | S2Write batch, S2WriteEnd _ false => forall x, zones (sh_heap sh) batch x -> damaged x
  | _, _ => True
  end.

(** A write has failed and the error is not latched yet. *)
Definition s2_failing (c : s2_ctl) : bool :=
  match c with S2WriteEnd _ false | S2Latch _ false => true | _ => false end.

Definition stage2_ok (sh : shared S) t1 t2 fg failed a : Prop :=
  exists sh' t2', stage2_step sh t2 = Some (sh', t2') /\
    (s2_contained sh t2 t2' ->
     exists a', bg_move a a' /\ sim (mk_sys sh' t1 t2' fg failed) a').

Section Stage2.
Variables (sh : shared S) (t1 : s1_thread) (fg : gmap nat fg_ctl) (failed : bool).
Variables (pgs : gmap addr scrap_page) (m : gmap Z addr) (l1 l2 : list addr) (k1 : s1_hold)
  (d : buf) (f : gmap nat (chunk * phase)).

(** What Stage-1's side of the relation sees of a change on Stage-2's side. *)
Lemma s1_match_ext t a a' :
  h1 a' = h1 a -> (forall x, x ∈ s1_page (h1 a) -> page_base (pg a') x = page_base (pg a) x) ->
  s1_match t a -> s1_match t a'.
Proof.
  intros Eh Epb. unfold s1_match. rewrite Eh. pose proof (fun x => Epb x) as Hx.
  destruct (s1_at t); try done.
  - intros [E1 E2]. split; [done|]. rewrite Epb; [done|]. rewrite E1. left.
  - intros [E1 E2]. split; [done|]. rewrite Epb; [done|]. rewrite E1. left.
  - intros [E1 E2]. split; [done|]. rewrite Epb; [done|]. rewrite E1. left.
  - intros [E1 E2]. split; [done|]. rewrite Epb; [done|]. rewrite E1. left.
  - intros [E2 [holes E1]]. split; [|eauto]. rewrite Epb; [done|].
    destruct rc; rewrite E1; left.
  - intros [E2 [holes E1]]. split; [|eauto]. rewrite Epb; [done|].
    destruct rc; rewrite E1; left.
  - intros [E1 E2]. split; [done|]. rewrite Epb; [done|]. rewrite E1. left.
Qed.

Lemma stage2_pop k2 :
  sim (mk_sys sh t1 S2Pop fg failed) (mk_pipe pgs m l1 l2 k1 k2 d f) ->
  stage2_ok sh t1 S2Pop fg failed (mk_pipe pgs m l1 l2 k1 k2 d f).
Proof.
  intros Hs. pose proof Hs as [Hinv Hc [Hwb Hpe Hbc E1 E2] _]. cbn in *. subst k2.
  unfold stage2_ok, stage2_step. destruct l2 as [|x r].
  - pose proof (co_second _ _ _ _ _ _ Hc) as Hq. pose proof (pop_rep _ _ _ Hq) as Hp. cbn in Hp.
    rewrite Hp. cbn [mbind option_bind]. rewrite sh_eta2.
    destruct (shutdown (q2 (sh_ot sh))); do 2 eexists; (split; [done|]); intros _;
      (eapply (sim_bg_step _ _ _ _ _ _ _ _ _ _ Hs); [by left|done|exact Hc|by split]).
  - destruct (core_pop2 _ _ _ _ _ _ _ Hc) as (h & q & E & Hc').
    { intros Hx. apply (proj1 (ord_parts _ _ _ _ _ _ _ _ x Hinv)) in Hx. apply Hx. left. }
    rewrite E. cbn [mbind option_bind]. do 2 eexists. split; [done|]. intros _.
    eapply (sim_bg_step _ _ _ _ _ _ _ _ _ (mk_pipe pgs m l1 r k1 (H2Collect [x]) d f) Hs);
      [right; constructor|done|exact Hc'|by split].
Qed.

Lemma stage2_collect_ok k2 batch :
  sim (mk_sys sh t1 (S2Collect batch) fg failed) (mk_pipe pgs m l1 l2 k1 k2 d f) ->
  stage2_ok sh t1 (S2Collect batch) fg failed (mk_pipe pgs m l1 l2 k1 k2 d f).
Proof.
  intros Hs. pose proof Hs as [Hinv Hc [Hwb Hpe Hbc E1 (Hok & E2)] _]. cbn in *. subst k2.
  unfold stage2_ok, stage2_step, stage2_claim.
  destruct (Z.of_nat (length batch) <? NOX_PWRITEV_MAX_IOV) eqn:El.
  2: { do 2 eexists. split; [done|]. intros _.
    eapply (sim_bg_step _ _ _ _ _ _ _ _ _ _ Hs); [by left|done|exact Hc|by split]. }
  destruct batch as [|b0 batch]; [by destruct Hok|].
  destruct (in_pipe _ _ _ _ _ _ _ _ b0 Hinv) as [p Hp]; [left; left|].
  destruct (heap_page _ _ _ _ _ _ _ _ Hc Hp) as (q & Hq & ->).
  pose proof (pi_wf _ Hinv _ _ Hp) as (_ & Hr & _). cbn in Hr.
  cbn [list.head mbind option_bind]. rewrite Hq. cbn [mbind option_bind].
  unfold NOX_PWRITEV_MAX_IOV in *. rewrite u64_small by sz.
  destruct (core_claim sh pgs m l1 l2 d (base q + Z.of_nat (length (b0 :: batch)) * NOX_DATAZONE_SIZE) Hc)
    as [(x & r & h & q' & -> & Hb & E & Hc')|E].
  { intros y. apply (proj1 (ord_parts _ _ _ _ _ _ _ _ y Hinv)). }
  - rewrite E. cbn [mbind option_bind]. do 2 eexists. split; [done|]. intros _.
    assert (Hl : (b0 :: batch ++ [x]) ++ r = (b0 :: batch) ++ x :: r)
      by (cbn; by rewrite <- app_assoc).
    eapply (sim_bg_step _ _ _ _ _ _ _ _ _ (mk_pipe pgs m l1 r k1 (H2Collect (b0 :: batch ++ [x])) d f) Hs);
      [right|done|exact Hc'|split; cbn [sh_ot with_ot set_q2 wb pending bcount]; try done].
    + econstructor; [|exact Hb]. unfold page_base. by rewrite Hp.
    + revert Hwb. unfold guard_bases. cbn [pg h2 pq2 s2_pages s2_leaving].
      rewrite (app_assoc (b0 :: batch ++ [x])), Hl. by rewrite <- app_assoc.
    + rewrite Hpe. unfold ord. cbn [h2 pq2 h1 pq1 s2_pages].
      rewrite (app_assoc (b0 :: batch ++ [x])), Hl, <- app_assoc. done.
    + split; [|done]. split; [done|]. unfold NOX_PWRITEV_MAX_IOV.
      rewrite length_app. cbn [length] in *. lia.
  - rewrite E. cbn [mbind option_bind]. rewrite sh_eta2. do 2 eexists. split; [done|]. intros _.
    eapply (sim_bg_step _ _ _ _ _ _ _ _ _ _ Hs); [by left|done|exact Hc|by split].
Qed.

Lemma stage2_ready_ok k2 batch nx :
  sim (mk_sys sh t1 (S2Ready batch nx) fg failed) (mk_pipe pgs m l1 l2 k1 k2 d f) ->
  stage2_ok sh t1 (S2Ready batch nx) fg failed (mk_pipe pgs m l1 l2 k1 k2 d f).
Proof.
  intros Hs. pose proof Hs as [Hinv Hc [Hwb Hpe Hbc E1 (Hok & Hne & E2)] _]. cbn in *. subst k2.
  destruct (in_pipe _ _ _ _ _ _ _ _ nx Hinv) as [p Hp].
  { left. cbn. apply elem_of_app. right. left. }
  destruct (heap_page _ _ _ _ _ _ _ _ Hc Hp) as (q & Hq & ->).
  assert (Hf : scrap_page_is_full q = true).
  { apply (pi_full _ Hinv nx (strip q)); [|exact Hp]. cbn. rewrite !elem_of_app. left. right. left. }
  unfold stage2_ok, stage2_step. rewrite Hq. cbn [mbind option_bind]. rewrite Hf. cbn [orb].
  do 2 eexists. split; [done|]. intros _.
  eapply (sim_bg_step _ _ _ _ _ _ _ _ _ _ Hs); [by left|done|exact Hc|by split].
Qed.

Lemma stage2_unlink_ok k2 batch x r :
  sim (mk_sys sh t1 (S2Detach batch (x :: r)) fg failed) (mk_pipe pgs m l1 l2 k1 k2 d f) ->
  stage2_ok sh t1 (S2Detach batch (x :: r)) fg failed (mk_pipe pgs m l1 l2 k1 k2 d f).
Proof.
  intros Hs. pose proof Hs as [Hinv Hc [Hwb Hpe Hbc E1 (Hok & E2)] _]. cbn in *. subst k2.
  destruct (pi_stageB _ Hinv) as (_ & [pre Hpre] & _). cbn in Hpre.
  assert (Hxb : x ∈ batch) by (rewrite Hpre, elem_of_app, elem_of_cons; auto).
  assert (Hxr : x ∉ r).
  { pose proof (pi_nodup _ Hinv) as Hnd. unfold ord in Hnd. cbn in Hnd.
    apply NoDup_app in Hnd as (Hnd & _). rewrite Hpre in Hnd.
    apply NoDup_app in Hnd as (_ & _ & [Hn _]%NoDup_cons). done. }
  destruct (in_pipe _ _ _ _ _ _ _ _ x Hinv) as [p Hp]; [by left|].
  destruct (heap_page _ _ _ _ _ _ _ _ Hc Hp) as (q & Hq & ->).
  assert (Hcore : exists sh', stage2_unlink sh x = Some sh' /\ sh_ot sh' = sh_ot sh /\
    core sh' (<[x := set_detached true (strip q)]> pgs) (unlink_res (base q) x m) l1 l2 d).
  { unfold stage2_unlink. rewrite Hq. cbn [mbind option_bind]. destruct (detached q) eqn:Ed.
    - exists sh. split; [done|]. split; [done|]. rewrite insert_id.
      + unfold unlink_res. case_decide as Hr; [|done].
        destruct (pi_res _ Hinv _ _ Hr) as (_ & p' & Hp' & _ & _ & Hd'). cbn in Hp'.
        rewrite Hp in Hp'. injection Hp' as <-. cbn in Hd'. congruence.
      + rewrite Hp. f_equal. destruct q; cbn in *. by subst.
    - destruct (core_detach_own sh pgs m l1 l2 d (base q) x Hc) as (b & h & i & E & Hc').
      { unfold page_base. by rewrite Hp. }
      rewrite E. cbn [mbind option_bind].
      destruct (heap_page _ _ _ _ _ _ _ _ Hc' Hp) as (q' & Hq' & Hqq). cbn in Hq'.
      rewrite (store_some _ _ _ _ Hq'). cbn [mbind option_bind]. eexists. split; [done|].
      split; [done|]. pose proof (core_set _ _ _ _ _ _ x q' (set_detached true q') Hc' Hq') as Hset.
      rewrite Hqq. apply Hset; done. }
  destruct Hcore as (sh' & E & Eot & Hc'). unfold stage2_ok, stage2_step. rewrite E.
  cbn [mbind option_bind]. do 2 eexists. split; [done|]. intros _.
  eapply (sim_bg_step _ _ _ _ _ _ _ _ _
    (mk_pipe (<[x := set_detached true (strip q)]> pgs) (unlink_res (base q) x m) l1 l2 k1
       (H2Detach batch r) d f) Hs);
    [right; exact (ps_unlink _ _ _ _ _ _ _ _ _ _ _ Hp)|done|exact Hc'|]. rewrite Eot.
  split; try done.
  - revert Hwb. unfold guard_bases. cbn [pg h2 pq2 s2_pages s2_leaving].
      rewrite (bases_set pgs x (strip q)); done.
  - eapply s1_match_ext; [| |exact E1]; [done|]. intros y _. cbn [pg]. by eapply page_base_set.
  - cbn. split; [done|]. eauto 6.
Qed.

Lemma stage2_mark_ok k2 batch x r :
  sim (mk_sys sh t1 (S2Mark batch (x :: r)) fg failed) (mk_pipe pgs m l1 l2 k1 k2 d f) ->
  stage2_ok sh t1 (S2Mark batch (x :: r)) fg failed (mk_pipe pgs m l1 l2 k1 k2 d f).
Proof.
  intros Hs. pose proof Hs as [Hinv Hc [Hwb Hpe Hbc E1 (Hok & y & r' & Er & E2 & Hxb & Hxr)] _].
  cbn in *. injection Er as <- <-. subst k2.
  destruct (in_pipe _ _ _ _ _ _ _ _ x Hinv) as [p Hp]; [by left|].
  destruct (heap_page _ _ _ _ _ _ _ _ Hc Hp) as (q & Hq & ->).
  unfold stage2_ok, stage2_step, stage2_mark. rewrite (store_some _ _ _ _ Hq).
  cbn [mbind option_bind]. do 2 eexists. split; [done|]. intros _.
  eapply (sim_bg_step _ _ _ _ _ _ _ _ _
    (mk_pipe (<[x := set_in_queue false (tag_page NOX_TAG_FLUSHING (strip q))]> pgs) m l1 l2 k1
       (H2Detach batch r) d f) Hs);
    [right; by econstructor|done| |].
  - apply (core_set sh pgs m l1 l2 d x q
      (set_in_queue false (tag_page NOX_TAG_FLUSHING q)) Hc Hq); done.
  - split; try done.
    + revert Hwb. unfold guard_bases. cbn [pg h2 pq2 s2_pages s2_leaving].
      rewrite (bases_set pgs x (strip q)); done.
    + eapply s1_match_ext; [| |exact E1]; [done|]. intros y _. cbn [pg]. by eapply page_base_set.
Qed.

Lemma stage2_write_ok k2 batch :
  sim (mk_sys sh t1 (S2Write batch) fg failed) (mk_pipe pgs m l1 l2 k1 k2 d f) ->
  stage2_ok sh t1 (S2Write batch) fg failed (mk_pipe pgs m l1 l2 k1 k2 d f).
Proof.
  intros Hs. pose proof Hs as [Hinv Hc [Hwb Hpe Hbc E1 (Hok & E2)] _]. cbn in *. subst k2.
  destruct (pi_stageB _ Hinv) as ([b Hco] & _). cbn in Hco.
  destruct (stage2_write_spec (sh_heap sh) (sh_os sh) batch b Hok) as (ok & x' & log & E & Hw).
  { intros i a Hi. specialize (Hco i a Hi). unfold page_base in Hco.
    apply fmap_Some in Hco as (p & Hp & Hb).
    destruct (heap_page _ _ _ _ _ _ _ _ Hc Hp) as (q & Hq & ->). exists q.
    split_and!; [done| |done]. apply (pi_wf _ Hinv _ _ Hp). }
  unfold stage2_ok, stage2_step. rewrite E. cbn [mbind option_bind]. do 2 eexists.
  split; [done|]. intros Hf. destruct Hw as [Hin Hout].
  pose proof (co_disk _ _ _ _ _ _ Hc) as Hd.
  eapply (sim_bg_step _ _ _ _ _ _ _ _ _
    (mk_pipe pgs m l1 l2 k1 (H2Done batch) (file_byte x') f) Hs);
    [right; constructor|done|eapply core_print, core_os; [exact Hc|reflexivity]|by split].
  - intros a p y Ha Hp Hy Hdm. destruct (heap_page _ _ _ _ _ _ _ _ Hc Hp) as (q & Hq & ->).
    cbn in Hy |- *. destruct ok; [by eapply Hin|]. destruct Hdm. apply Hf. exists a, q. done.
  - intros y Hy. rewrite <- Hd. apply Hout. intros a q Ha Hq.
    exact (Hy a (strip q) Ha (strip_lookup_2 _ _ _ _ (co_pg _ _ _ _ _ _ Hc) Hq)).
Qed.

Lemma bases_delete x l : x ∉ l -> bases_of (delete x pgs) l = bases_of pgs l.
Proof.
  intros Hx. unfold bases_of. induction l as [|y l IH]; cbn; [done|].
  rewrite elem_of_cons in Hx.
  assert (page_base (delete x pgs) y = page_base pgs y) as ->
    by (unfold page_base; rewrite lookup_delete_ne; [done|intros ->; tauto]).
  rewrite IH by tauto. done.
Qed.

Lemma s1_entered_in t a : s1_match t a -> forall x, x ∈ s1_entered (s1_at t) -> x ∈ s1_page (h1 a).
Proof. unfold s1_match. destruct (s1_at t); cbn; intros Hm x Hx; try (by apply not_elem_of_nil in Hx); by rewrite Hm. Qed.

Lemma stage2_free_ok k2 x r :
  sim (mk_sys sh t1 (S2Free (x :: r)) fg failed) (mk_pipe pgs m l1 l2 k1 k2 d f) ->
  stage2_ok sh t1 (S2Free (x :: r)) fg failed (mk_pipe pgs m l1 l2 k1 k2 d f).
Proof.
  intros Hs. pose proof Hs as [Hinv Hc [Hwb Hpe Hbc E1 E2] _]. cbn in *. subst k2.
  destruct (pi_stageB _ Hinv) as (_ & Hres & _). cbn in Hres.
  destruct (ord_parts _ _ _ _ _ _ _ _ x Hinv) as (_ & _ & Hx). cbn in Hx.
  destruct Hx as (Hx1 & Hx2 & Hx3); [left|].
  pose proof (pi_nodup _ Hinv) as Hnd. unfold ord in Hnd. cbn in Hnd.
  apply NoDup_cons in Hnd as [Hxo _].
  destruct (in_pipe _ _ _ _ _ _ _ _ x Hinv) as [p Hp]; [left; left|].
  destruct (heap_page _ _ _ _ _ _ _ _ Hc Hp) as (q & Hq & ->).
  destruct (core_free sh pgs m l1 l2 d x q Hc Hq Hx1 Hx2) as (w & k & E & Hc').
  { intros b. apply Hres. left. }
  unfold stage2_ok, stage2_step. rewrite Hq. cbn [mbind option_bind]. rewrite E.
  cbn [mbind option_bind]. do 2 eexists. split; [done|]. intros _.
  eapply (sim_bg_step _ _ _ _ _ _ _ _ _ (mk_pipe (delete x pgs) m l1 l2 k1 (H2Done r) d f) Hs);
    [right; constructor|done|exact Hc'|split; cbn [sh_ot with_wm with_heap]; try done].
  - revert Hwb. unfold guard_bases. cbn [pg h2 pq2 s2_pages s2_leaving].
    rewrite bases_delete.
    + intros Hwb. eapply wb_rep_proper; [|exact Hwb].
      assert (bases_of pgs ((x :: r) ++ l2 ++ s1_entered (s1_at t1)) =
        base q :: bases_of pgs (r ++ l2 ++ s1_entered (s1_at t1))) as ->.
      { unfold bases_of. cbn. unfold page_base at 1. by rewrite Hp. }
      rewrite app_nil_r. symmetry. apply Permutation_cons_append.
    + intros Hin. apply Hxo. rewrite !elem_of_app in *. destruct Hin as [?|[?|Hin]]; auto.
      apply (s1_entered_in _ _ E1) in Hin. auto.
  - rewrite Hpe. unfold ord. cbn. lia.
  - eapply s1_match_ext; [| |exact E1]; [done|]. intros y Hy. cbn [pg]. unfold page_base.
    rewrite lookup_delete_ne; [done|]. intros <-. done.
Qed.

Lemma stage2_leave_ok k2 b r :
  sim (mk_sys sh t1 (S2Leave b r) fg failed) (mk_pipe pgs m l1 l2 k1 k2 d f) ->
  stage2_ok sh t1 (S2Leave b r) fg failed (mk_pipe pgs m l1 l2 k1 k2 d f).
Proof.
  intros Hs. pose proof Hs as [Hinv Hc [Hwb Hpe Hbc E1 E2] _]. cbn in *. subst k2.
  destruct (guard_leave_rep (sh_ot sh) b
    (bases_of pgs (r ++ l2 ++ s1_entered (s1_at t1)))) as (w & E & Hw).
  { eapply wb_rep_proper; [|exact Hwb]. apply Permutation_cons_append. }
  unfold stage2_ok, stage2_step. rewrite E. cbn [mbind option_bind]. do 2 eexists.
  split; [done|]. intros _.
  eapply (sim_bg_step _ _ _ _ _ _ _ _ _ _ Hs); [by left|done|by apply core_ot|].
  split; try done. unfold guard_bases. cbn. by rewrite app_nil_r.
Qed.

End Stage2.

Lemma sim_stage2 (sh : shared S) t1 t2 fg failed a :
  sim (mk_sys sh t1 t2 fg failed) a -> stage2_ok sh t1 t2 fg failed a.
Proof.
  intros Hs. destruct a as [pgs m l1 l2 k1 k2 d f].
  pose proof Hs as [Hinv Hc Hb _]. pose proof Hb as [Hwb Hpe Hbc E1 E2].
  cbn [y_s1 y_s2 y_sh] in *.
  pose proof (s1_bytes_bound (s1_at t1)) as B1. pose proof (ord_length _ _ Hinv Hc) as Hlen.
  pose proof (co_size _ _ _ _ _ _ Hc) as Hsz.
  assert (Bf : 0 <= s1_freed (s1_at t1) <= 1) by (destruct (s1_at t1); cbn; lia).
  assert (Hstay : forall t2', bg_sim (sh_ot sh) t1 t2' (mk_pipe pgs m l1 l2 k1 k2 d f) ->
    exists a', bg_move (mk_pipe pgs m l1 l2 k1 k2 d f) a' /\ sim (mk_sys sh t1 t2' fg failed) a').
  { intros t2' Hb'. eapply (sim_bg_step _ _ _ _ _ _ _ _ _ _ Hs); [by left|done|exact Hc|exact Hb']. }
  destruct t2 as [|x| |batch|batch nx|batch nx|batch|batch [|x r]|batch [|x r]|batch|batch
    |batch ok|batch ok|[|x r]|b r|r| ]; cbn in E2.
  - by apply stage2_pop.
  - unfold stage2_ok, stage2_step. rewrite (never_busy _ _ _ _ Hb). do 2 eexists.
    split; [done|]. intros _. apply Hstay. by split.
  - do 2 eexists. split; [done|]. intros _. apply Hstay. by split.
  - by apply stage2_collect_ok.
  - by apply stage2_ready_ok.
  - done.
  - destruct E2 as [Hok ->].
    destruct (run_event_ok (sh_stats sh) (EvStage2Batch (Z.of_nat (length batch)))) as (st & Est & Hst);
      [apply Hc|cbn; lia|]. cbn in Est. unfold stage2_ok, stage2_step. rewrite Est.
    cbn [mbind option_bind]. do 2 eexists. split; [done|]. intros _.
    eapply (sim_bg_step _ _ _ _ _ _ _ _ _ (mk_pipe pgs m l1 l2 k1 (H2Detach batch batch) d f) Hs);
      [right; constructor|done|by apply core_stats|by split].
  - do 2 eexists. split; [done|]. intros _. apply Hstay. by split.
  - by apply stage2_unlink_ok.
  - destruct E2 as (_ & ? & ? & ? & _). done.
  - by apply stage2_mark_ok.
  - destruct E2 as [Hok ->]. pose proof (batch_bytes_bound _ Hok) as B2.
    do 2 eexists. split; [done|]. intros _.
    eapply (sim_bg_step _ _ _ _ _ _ _ _ _ _ Hs); [by left|done|by apply core_ot|].
    split; cbn; try done. cbn in Hbc. rewrite Hbc. unfold NOX_PWRITEV_MAX_IOV in *.
    rewrite u64_small by sz. lia.
  - by apply stage2_write_ok.
  - destruct E2 as (Hok & ->). pose proof (batch_bytes_bound _ Hok) as B2.
    do 2 eexists. split; [done|]. intros _.
    eapply (sim_bg_step _ _ _ _ _ _ _ _ _ _ Hs); [by left|done| |].
    + apply core_stats; [by apply core_ot|]. apply Hc.
    + split; cbn; try done. cbn in Hbc. rewrite Hbc. unfold NOX_PWRITEV_MAX_IOV in *.
      rewrite u64_small by sz. lia.
  - destruct E2 as (Hok & ->). destruct ok; do 2 eexists; (split; [done|]); intros _.
    + apply Hstay. by split.
    + eapply (sim_bg_step _ _ _ _ _ _ _ _ _ _ Hs); [by left|done|by apply core_ot|by split].
  - subst k2. do 2 eexists. split; [done|]. intros _.
    eapply (sim_bg_step _ _ _ _ _ _ _ _ _ (mk_pipe pgs m l1 l2 k1 H2None d f) Hs);
      [right; constructor|done|exact Hc|by split].
  - by apply stage2_free_ok.
  - by apply stage2_leave_ok.
  - do 2 eexists. split; [done|]. intros _.
    eapply (sim_bg_step _ _ _ _ _ _ _ _ _ _ Hs); [by left|done|by apply core_ot|].
    split; cbn; try done. cbn in Hpe. rewrite Hpe, u64_small by lia. lia.
  - do 2 eexists. split; [done|]. intros _. apply Hstay. by split.
Qed.

End Flush.
