(* ===== verification/SimWrite.v ===== *)
(** The callers of [nox_write] in the simulation: the chunk arithmetic, the enqueue operations
    on the represented state, and the critical section of [scrap_write_chunk]. *)
From stdpp Require Import base numbers list gmap sets.
From Corelib Require Import Init.Byte.
From S2P Require Import Prelude Config Segments IoDirect Watermark ScrapPage Heap Queue.
From S2P Require Import PageIndex Stats Otflush Engine Pipeline System Simulation SimFlush.

(** * Chunk arithmetic *)

Lemma next_chunk_spec cur remaining :
  range_ok cur remaining -> 0 < remaining ->
  let '(b, intra, len) := next_chunk cur remaining in
  base_ok b /\ 0 <= intra /\ 0 < len <= remaining /\ intra + len <= NOX_DATAZONE_SIZE /\
  b + intra = cur /\ (len = remaining \/ intra + len = NOX_DATAZONE_SIZE).
Proof.
  intros (Hc & Hr & He) Hpos. unfold next_chunk.
  destruct (NOX_PAGE_BASE_bounds cur) as ([Hb0 Hb1] & Hb2 & Hal); [sz|].
  rewrite (u32_small (cur - NOX_PAGE_BASE cur)) by sz.
  rewrite u32_small by sz. unfold base_ok.
  destruct (remaining <? _) eqn:E; [rewrite u32_small by sz|]; split_and!; try done; sz.
Qed.

Lemma chunk_of_spec l :
  range_ok (wl_cur l) (wl_remaining l) -> 0 < wl_remaining l ->
  chunk_wf (chunk_of l) /\ ck_off (chunk_of l) = wl_cur l /\
  0 < ck_len (chunk_of l) <= wl_remaining l /\ ck_src (chunk_of l) = wl_src l /\
  ck_len (chunk_of l) = (wl_chunk l).2.
Proof.
  intros Hr Hp. pose proof (next_chunk_spec _ _ Hr Hp) as Hn.
  unfold chunk_of, wl_chunk in *. destruct (next_chunk _ _) as [[b intra] len].
  unfold chunk_wf, ck_off. cbn. intuition lia.
Qed.

Lemma wl_advance_spec l :
  range_ok (wl_cur l) (wl_remaining l) -> 0 < wl_remaining l ->
  wl_cur (wl_advance l) = wl_cur l + ck_len (chunk_of l) /\
  wl_remaining (wl_advance l) = wl_remaining l - ck_len (chunk_of l) /\
  range_ok (wl_cur (wl_advance l)) (wl_remaining (wl_advance l)).
Proof.
  intros Hr Hp. destruct (chunk_of_spec l Hr Hp) as (_ & _ & Hl & _ & Hlen).
  destruct Hr as (Hc & Hr & He). unfold wl_advance, range_ok. cbn [wl_cur wl_remaining]. rewrite <- Hlen.
  rewrite !u64_small by sz. split_and!; sz.
Qed.

(** * The callers *)

Definition range_within (r' r : option (Z * Z)) : Prop :=
  match r', r with
  | None, _ => True
  | Some (lo', len'), Some (lo, len) => lo <= lo' /\ lo' + len' <= lo + len
  | Some _, None => False
  end.

Definition set_flight (i : nat) (x : option (chunk * phase)) (f : gmap nat (chunk * phase))
  : gmap nat (chunk * phase) :=
  match x with Some v => <[i := v]> f | None => delete i f end.

Lemma set_flight_lookup fg f i c :
  (forall j, f !! j = fg !! j ≫= fg_flight) ->
  forall j, set_flight i (fg_flight c) f !! j = (<[i := c]> fg : gmap nat fg_ctl) !! j ≫= fg_flight.
Proof.
  intros Hf j. rewrite lookup_insert. unfold set_flight. case_decide as E.
  - subst j. cbn. destruct (fg_flight c); [apply lookup_insert_eq|apply lookup_delete_eq].
  - rewrite <- Hf. destruct (fg_flight c); [by apply lookup_insert_ne|by apply lookup_delete_ne].
Qed.

Lemma within_disjoint lo len lo' len' r :
  lo <= lo' -> lo' + len' <= lo + len -> disjoint_from lo len r -> disjoint_from lo' len' r.
Proof. destruct r as [[]|]; cbn; [lia|done]. Qed.

Lemma disjoint_sym c c' : fg_disjoint c c' -> fg_disjoint c' c.
Proof.
  unfold fg_disjoint, disjoint_from. destruct (fg_range c) as [[]|], (fg_range c') as [[]|]; try done.
  tauto.
Qed.

(** A caller moves on, keeping its range or part of it. *)
Lemma fg_sim_set fg f i c c' :
  fg_sim fg f -> fg !! i = Some c -> fg_wf c' -> range_within (fg_range c') (fg_range c) ->
  fg_sim (<[i := c']> fg) (set_flight i (fg_flight c') f).
Proof.
  intros [Hf Hw Hd] Hi Hc' Hr.
  assert (Hdis : forall j e, j <> i -> fg !! j = Some e -> fg_disjoint c' e).
  { intros j e Hne Hj. assert (Hce : fg_disjoint c e) by (by eapply (Hd i j); eauto).
    unfold fg_disjoint, range_within in *. destruct (fg_range c') as [[lo' len']|]; [|done].
    destruct (fg_range c) as [[lo len]|]; [|done]. destruct Hr as [R1 R2].
    exact (within_disjoint _ _ _ _ _ R1 R2 Hce). }
  split.
  - by apply set_flight_lookup.
  - intros j e. rewrite lookup_insert. case_decide; [intros [= <-]; done|apply Hw].
  - intros j k e e' Hne. rewrite !lookup_insert. case_decide as E1; case_decide as E2; subst.
    + done.
    + intros [= <-] Hk. by apply (Hdis k).
    + intros Hj [= <-]. apply disjoint_sym. by apply (Hdis j).
    + by apply Hd.
Qed.

(** A caller starts a write whose range the contract allows. *)
Lemma fg_sim_call fg f i rc c' :
  fg_sim fg f -> fg !! i = Some (FgIdle rc) -> fg_wf c' -> fg_flight c' = None ->
  (forall lo len, fg_range c' = Some (lo, len) ->
     forall j e, j <> i -> fg !! j = Some e -> disjoint_from lo len (fg_range e)) ->
  fg_sim (<[i := c']> fg) f.
Proof.
  intros [Hf Hw Hd] Hi Hc' Hfl Hr.
  assert (Hdis : forall j e, j <> i -> fg !! j = Some e -> fg_disjoint c' e).
  { intros j e Hne Hj. unfold fg_disjoint. destruct (fg_range c') as [[lo len]|] eqn:E; [|done].
    by eapply Hr. }
  split.
  - intros j. rewrite (Hf j), lookup_insert. case_decide as E; [subst j|done].
    rewrite Hi. cbn. by rewrite Hfl.
  - intros j e. rewrite lookup_insert. case_decide; [intros [= <-]; done|apply Hw].
  - intros j k e e' Hne. rewrite !lookup_insert. case_decide as E1; case_decide as E2; subst.
    + done.
    + intros [= <-] Hk. by apply (Hdis k).
    + intros Hj [= <-]. apply disjoint_sym. by apply (Hdis j).
    + by apply Hd.
Qed.

(** The chunk a caller starts is disjoint from every chunk in flight. *)
Lemma fg_start_disjoint fg f i l j e ph :
  fg_sim fg f -> fg !! i = Some (FgLoop l) -> 0 < wl_remaining l -> f !! j = Some (e, ph) ->
  chunk_disjoint (chunk_of l) e.
Proof.
  intros [Hf Hw Hd] Hi Hpos Hj. rewrite Hf in Hj.
  destruct (fg !! j) as [c|] eqn:Ej; [|done]. cbn [mbind option_bind] in Hj.
  assert (i <> j) by (intros ->; rewrite Hi in Ej; injection Ej as <-; done).
  pose proof (Hd i j _ _ H Hi Ej) as Hdis. pose proof (Hw _ _ Hi) as Hwi. cbn in Hwi.
  pose proof (Hw _ _ Ej) as Hwj. destruct (chunk_of_spec l Hwi Hpos) as (_ & O1 & L1 & _).
  unfold fg_disjoint, disjoint_from in Hdis. cbn in Hdis.
  destruct c as [| | |l'|t0 l'|l'|x l']; cbn [fg_flight] in Hj; cbn in Hdis, Hwj;
    try done; injection Hj as <- <-;
    destruct Hwj as [Hr Hp']; destruct (chunk_of_spec l' Hr Hp') as (_ & O2 & L2 & _);
    unfold chunk_disjoint; rewrite O1, O2; lia.
Qed.

Section Write.
Context `{NoxConfig} {dmg : Damage} {S : Type} `{PosixLaws S}.

(** * Enqueue on the represented state *)

Lemma warn_same o q k :
  exists b ms, warn_if_deep o q k = (set_deep b o, ms).
Proof.
  unfold warn_if_deep. destruct (_ <? _); [exists (deep_noticed o); eexists; by destruct o|].
  destruct (deep_noticed o) eqn:E; [|by do 2 eexists].
  exists true. eexists. destruct o. cbn in E. by subst.
Qed.

Lemma enqueue_partial_queued (h : heap) o a p :
  h !! a = Some p -> in_queue p = true -> otflush_enqueue_partial h o a = Some (h, o, []).
Proof. intros Hp Hq. unfold otflush_enqueue_partial. rewrite Hp. cbn. by rewrite Hq. Qed.

Lemma enqueue_full_queued (h : heap) o a p :
  h !! a = Some p -> in_queue p = true ->
  otflush_enqueue_full h o a = Some (<[a := tag_page NOX_TAG_FULL p]> h, o, []).
Proof.
  intros Hp Hq. unfold otflush_enqueue_full. rewrite (store_some _ _ _ _ Hp).
  cbn [mbind option_bind]. rewrite lookup_insert_eq. cbn [mbind option_bind].
  assert (in_queue (tag_page NOX_TAG_FULL p) = true) as -> by done. done.
Qed.

Lemma strip_in_queue p b : strip (set_in_queue b p) = set_in_queue b (strip p).
Proof. done. Qed.

Lemma enqueue_partial_new (sh : shared S) pgs m l1 l2 d a p :
  core sh pgs m l1 l2 d -> sh_heap sh !! a = Some p -> in_queue p = false ->
  a ∉ l1 -> a ∉ l2 -> (forall e, e ∈ l1 -> e ∉ l2) ->
  exists h o ms, otflush_enqueue_partial (sh_heap sh) (sh_ot sh) a = Some (h, o, ms) /\
    core (with_ot o (with_heap h sh)) (<[a := set_in_queue true (strip p)]> pgs) m (l1 ++ [a]) l2 d /\
    wb o = wb (sh_ot sh) /\ pending o = u64 (pending (sh_ot sh) + 1) /\
    bcount o = bcount (sh_ot sh).
Proof.
  intros Hc Hp Hq Ha1 Ha2 Hd.
  pose proof (core_set sh pgs m l1 l2 d a p (set_in_queue true p) Hc Hp) as Hset.
  rewrite strip_in_queue in Hset. specialize (Hset eq_refl eq_refl eq_refl).
  set (sh1 := with_ot (pending_inc (sh_ot sh))
    (with_heap (<[a := set_in_queue true p]> (sh_heap sh)) sh)).
  assert (Hc1 : core sh1 (<[a := set_in_queue true (strip p)]> pgs) m l1 l2 d)
    by (by apply (core_ot _ _ _ _ _ _ (pending_inc (sh_ot sh)) Hset)).
  destruct (core_push1 sh1 _ m l1 l2 d a Hc1) as (h & q & E & Hc2);
    [by rewrite lookup_insert_eq|done..|].
  destruct (warn_same (set_q1 q (pending_inc (sh_ot sh))) q 1) as (b & ms & Ew).
  exists h, (set_deep b (set_q1 q (pending_inc (sh_ot sh)))), ms. split.
  - unfold otflush_enqueue_partial. rewrite Hp. cbn [mbind option_bind]. rewrite Hq.
    rewrite (store_some _ _ _ _ Hp). cbn [mbind option_bind].
    cbn [sh1 with_ot with_heap sh_heap sh_ot] in E. rewrite E. cbn [mbind option_bind].
    cbn [set_q1 q1] in Ew |- *. rewrite Ew. done.
  - split; [|done]. by apply (core_ot _ _ _ _ _ _ (set_deep b (set_q1 q (pending_inc (sh_ot sh)))) Hc2).
Qed.

Lemma enqueue_full_new (sh : shared S) pgs m l1 l2 d a p bases :
  core sh pgs m l1 l2 d -> sh_heap sh !! a = Some p -> in_queue p = false ->
  a ∉ l1 -> a ∉ l2 -> (forall e, e ∈ l1 -> e ∉ l2) ->
  wb_rep (wb (sh_ot sh)) bases -> Z.of_nat (length bases) + 1 < 2 ^ 32 ->
  exists h o ms, otflush_enqueue_full (sh_heap sh) (sh_ot sh) a = Some (h, o, ms) /\
    core (with_ot o (with_heap h sh))
      (<[a := set_in_queue true (tag_page NOX_TAG_FULL (strip p))]> pgs) m l1 (l2 ++ [a]) d /\
    wb_rep (wb o) (base p :: bases) /\ pending o = u64 (pending (sh_ot sh) + 1) /\
    bcount o = bcount (sh_ot sh).
Proof.
  intros Hc Hp Hq Ha1 Ha2 Hd Hwb Hlen.
  set (p' := set_in_queue true (tag_page NOX_TAG_FULL p)).
  pose proof (core_set sh pgs m l1 l2 d a p p' Hc Hp eq_refl eq_refl eq_refl) as Hset.
  destruct (guard_enter_rep (pending_inc (sh_ot sh)) (base p) bases Hwb Hlen) as (w & Eg & Hw).
  set (o1 := set_wb w (pending_inc (sh_ot sh))).
  assert (Hc1 : core (with_ot o1 (with_heap (<[a := p']> (sh_heap sh)) sh)) (<[a := strip p']> pgs) m l1 l2 d)
    by (by apply (core_ot _ _ _ _ _ _ o1 Hset)).
  destruct (core_push2 _ _ m l1 l2 d a Hc1) as (h & q & E & Hc2);
    [by rewrite lookup_insert_eq|done..|].
  destruct (warn_same (set_q2 q o1) q 2) as (b & ms & Ew).
  exists h, (set_deep b (set_q2 q o1)), ms. split.
  - unfold otflush_enqueue_full. rewrite (store_some _ _ _ _ Hp). cbn [mbind option_bind].
    rewrite lookup_insert_eq. cbn [mbind option_bind].
    assert (in_queue (tag_page NOX_TAG_FULL p) = false) as -> by done.
    rewrite (store_some a _ _ (tag_page NOX_TAG_FULL p)) by apply lookup_insert_eq.
    cbn [mbind option_bind]. rewrite insert_insert_eq.
    cbn [tag_page set_hdr base]. rewrite Eg. cbn [mbind option_bind].
    cbn [with_ot with_heap sh_heap sh_ot] in E. fold p' o1. rewrite E. cbn [mbind option_bind].
    cbn [set_q2 q2] in Ew |- *. rewrite Ew. done.
  - split; [|done]. by apply (core_ot _ _ _ _ _ _ (set_deep b (set_q2 q o1)) Hc2).
Qed.

(** * The critical section *)

Definition chunk_ok (sh : shared S) t1 t2 (a : pipe) (i : nat) (c : chunk) (al : alloc_answer)
  : Prop :=
  exists sh' r, scrap_write_chunk sh (ck_base c) (ck_intra c) (ck_src c) (ck_len c) al = Some (sh', r) /\
    match r with
    | ChunkEnomem =>
        res a !! ck_base c = None /\
        core sh' (pg a) (res a) (pq1 a) (pq2 a) (disk a) /\ bg_sim (sh_ot sh') t1 t2 a
    | ChunkDone =>
        exists a', pstep a (Some c) a' /\ fl a' = delete i (fl a) /\
          core sh' (pg a') (res a') (pq1 a') (pq2 a') (disk a') /\ bg_sim (sh_ot sh') t1 t2 a'
    | ChunkRetry x =>
        exists a', pstep a None a' /\ fl a' = <[i := (c, FDet x)]> (fl a) /\
          core sh' (pg a') (res a') (pq1 a') (pq2 a') (disk a') /\ bg_sim (sh_ot sh') t1 t2 a'
    end.

(** The background side when a page is rewritten in place. *)
Lemma bg_sim_set o t1 t2 pgs m l1 l2 k1 k2 d f f' x p q :
  bg_sim o t1 t2 (mk_pipe pgs m l1 l2 k1 k2 d f) -> pgs !! x = Some p -> base q = base p ->
  bg_sim o t1 t2 (mk_pipe (<[x := q]> pgs) m l1 l2 k1 k2 d f').
Proof.
  intros [Hwb Hpe Hbc E1 E2] Hp Hb. split; try done.
  - revert Hwb. unfold guard_bases. cbn [pg h2 pq2 s2_pages s2_leaving].
    by rewrite (bases_set pgs x p).
  - eapply s1_match_ext; [| |exact E1]; [done|]. intros y _. cbn [pg]. by eapply page_base_set.
Qed.

Lemma bases_fresh m x q l : x ∉ l -> bases_of (<[x := q]> m) l = bases_of m l.
Proof.
  intros Hx. unfold bases_of. induction l as [|y l IH]; cbn; [done|].
  rewrite elem_of_cons in Hx.
  assert (page_base (<[x := q]> m) y = page_base m y) as ->
    by (unfold page_base; rewrite lookup_insert_ne; [done|intros ->; tauto]).
  rewrite IH by tauto. done.
Qed.

(** The background side when a page joins the end of one of the queues. *)
Lemma bg_sim_born o o' t1 t2 pgs m m' l1 l2 k1 k2 d f f' x q b (full : bool) :
  bg_sim o t1 t2 (mk_pipe pgs m l1 l2 k1 k2 d f) -> base q = b ->
  (x ∉ s2_pages k2 ++ l2 ++ s1_page k1 ++ l1) ->
  pending o' = pending o + 1 -> bcount o' = bcount o ->
  (if full then wb_rep (wb o') (b :: guard_bases (mk_pipe pgs m l1 l2 k1 k2 d f) (s1_at t1) t2)
   else wb o' = wb o) ->
  bg_sim o' t1 t2
    (mk_pipe (<[x := q]> pgs) m' (if full then l1 else l1 ++ [x]) (if full then l2 ++ [x] else l2)
       k1 k2 d f').
Proof.
  intros [Hwb Hpe Hbc E1 E2] Hb Hx Hp' Hb' Hw'. cbn in E2.
  assert (Hout : (x ∉ s2_pages k2) /\ (x ∉ l2) /\ (x ∉ s1_page k1)).
  { rewrite !elem_of_app in Hx. tauto. }
  destruct Hout as (X1 & X2 & X3).
  assert (Hent : x ∉ s1_entered (s1_at t1)).
  { intros Hin. apply (s1_entered_in _ _ E1) in Hin. done. }
  split; try congruence.
  - destruct full.
    + eapply wb_rep_proper; [|exact Hw']. unfold guard_bases.
      cbn [pg h2 pq2 s2_pages s2_leaving]. rewrite !bases_app.
      rewrite (bases_fresh pgs x q (s2_pages k2)), (bases_fresh pgs x q l2),
        (bases_fresh pgs x q (s1_entered _)) by done.
      assert (bases_of (<[x := q]> pgs) [x] = [b]) as ->.
      { unfold bases_of, page_base. cbn [omap list_omap]. rewrite lookup_insert_eq. cbn. by rewrite Hb. }
      rewrite <- !app_assoc. cbn [app].
      rewrite (app_assoc (bases_of pgs (s2_pages k2))), (app_assoc (bases_of pgs (s2_pages k2))).
      symmetry. apply Permutation_middle.
    + rewrite Hw'. revert Hwb. unfold guard_bases. cbn [pg h2 pq2 s2_pages s2_leaving].
      rewrite bases_fresh; [done|]. rewrite !elem_of_app. tauto.
  - rewrite Hp', Hpe. unfold ord. cbn. destruct full; rewrite !length_app; cbn; lia.
  - eapply s1_match_ext; [| |exact E1]; [done|]. intros y Hy. cbn [pg]. unfold page_base.
    rewrite lookup_insert_ne; [done|]. intros ->. done.
  - exact E2.
Qed.

Section Chunk.
Variables (sh : shared S) (t1 : s1_thread) (t2 : s2_ctl).
Variables (pgs : gmap addr scrap_page) (m : gmap Z addr) (l1 l2 : list addr) (k1 : s1_hold)
  (k2 : s2_hold) (d : buf) (f : gmap nat (chunk * phase)) (i : nat) (c : chunk)
  (al : alloc_answer).
Hypothesis Hinv : pinv (mk_pipe pgs m l1 l2 k1 k2 d f).
Hypothesis Hc : core sh pgs m l1 l2 d.
Hypothesis Hb : bg_sim (sh_ot sh) t1 t2 (mk_pipe pgs m l1 l2 k1 k2 d f).
Hypothesis Hi : f !! i = Some (c, FLook).

Lemma guard_within :
  (length (guard_bases (mk_pipe pgs m l1 l2 k1 k2 d f) (s1_at t1) t2) <=
   length (ord (mk_pipe pgs m l1 l2 k1 k2 d f)) + 1)%nat.
Proof.
  unfold guard_bases, ord. cbn [pg h2 pq2 h1 pq1 s2_pages]. rewrite length_app.
  pose proof (leaving_length t2). pose proof (bases_length pgs (s2_pages k2 ++ l2 ++ s1_entered (s1_at t1))) as Hl.
  assert (length (s1_entered (s1_at t1)) <= length (s1_page k1))%nat.
  { destruct Hb as [_ _ _ E1 _]. unfold s1_match in E1. destruct (s1_at t1); cbn in *; try lia;
      by rewrite E1. }
  rewrite !length_app in *. lia.
Qed.

Lemma guard_room :
  Z.of_nat (length (guard_bases (mk_pipe pgs m l1 l2 k1 k2 d f) (s1_at t1) t2)) <=
  Z.of_nat (size (sh_heap sh)) + 1.
Proof. pose proof (ord_length _ _ Hinv Hc). pose proof guard_within. lia. Qed.

Lemma pending_room : u64 (pending (sh_ot sh) + 1) = pending (sh_ot sh) + 1.
Proof.
  pose proof (ord_length _ _ Hinv Hc). pose proof (co_size _ _ _ _ _ _ Hc).
  destruct Hb as [_ Hpe _ _ _]. rewrite Hpe.
  apply u64_small. destruct (s1_at t1), t2; cbn; lia.
Qed.

Lemma queues_apart e : e ∈ l1 -> e ∉ l2.
Proof. apply (proj1 (ord_parts _ _ _ _ _ _ _ _ e Hinv)). Qed.

(** A resident page that is not marked as queued is out of the pipeline. *)
Lemma unqueued_out x q :
  m !! ck_base c = Some x -> sh_heap sh !! x = Some q -> in_queue q = false ->
  base q = ck_base c /\ (x ∉ s2_pages k2 ++ l2 ++ s1_page k1 ++ l1) /\ (x ∉ l1) /\ (x ∉ l2).
Proof.
  intros Hm Hq Hi'. destruct (pi_res _ Hinv _ _ Hm) as (_ & p & Hp & Hbase & Hin & _). cbn in Hp.
  destruct (heap_page _ _ _ _ _ _ _ _ Hc Hp) as (q0 & Hq0 & ->). assert (q0 = q) as -> by congruence.
  assert (Hx : x ∉ s2_pages k2 ++ l2 ++ s1_page k1 ++ l1).
  { intros Hx. specialize (Hin Hx). cbn in Hin. congruence. }
  split_and!; try done; rewrite !elem_of_app in Hx; tauto.
Qed.

Hypothesis Hsz : Z.of_nat (size (sh_heap sh)) + 2 < 2 ^ 32.

(** A page that Stage-1 gave up comes back to Queue-2, filled. *)
Lemma requeue_full (sh1 : shared S) x q q' :
  m !! ck_base c = Some x -> sh_heap sh !! x = Some q -> in_queue q = false ->
  tag (hdr q) <> NOX_TAG_SEALED ->
  scrap_page_merge (strip q) (ck_src c) (ck_intra c) (ck_len c) = Some (SCRAP_OK, strip q') ->
  scrap_page_is_full q' = true -> in_queue q' = false -> base q' = base q ->
  core sh1 (<[x := strip q']> pgs) m l1 l2 d -> sh_heap sh1 !! x = Some q' -> sh_ot sh1 = sh_ot sh ->
  exists h o ms a', otflush_enqueue_full (sh_heap sh1) (sh_ot sh1) x = Some (h, o, ms) /\
    pstep (mk_pipe pgs m l1 l2 k1 k2 d f) (Some c) a' /\ fl a' = delete i f /\
    core (with_ot o (with_heap h sh1)) (pg a') (res a') (pq1 a') (pq2 a') (disk a') /\
    bg_sim o t1 t2 a'.
Proof.
  intros Hm Hq Hiq Ht Em Hf Hiq' Hb' Hc1 Hq' Eot.
  destruct (unqueued_out x q Hm Hq Hiq) as (Hbase & Hx & X1 & X2). pose proof Hb as [Hwb _ _ _ _].
  rewrite <- Eot in Hwb.
  destruct (enqueue_full_new sh1 _ _ l1 l2 d x q' _ Hc1 Hq' Hiq' X1 X2 queues_apart Hwb)
    as (h & o & ms & Ee & Hce & Hwbe & Hpe & Hbce).
  { pose proof guard_room. lia. }
  rewrite insert_insert_eq in Hce.
  exists h, o, ms, (mk_pipe (<[x := set_in_queue true (tag_page NOX_TAG_FULL (strip q'))]> pgs) m l1
    (l2 ++ [x]) k1 k2 d (delete i f)).
  split; [done|]. split; [|split; [done|split; [exact Hce|]]].
  - eapply ps_requeue_full; [exact Hi|exact Hm|by eapply strip_lookup_2; [apply Hc|]|done..].
  - apply (bg_sim_born (sh_ot sh) o t1 t2 pgs m m l1 l2 k1 k2 d f _ x _ (base q') true Hb); try done.
    + rewrite Hpe, Eot. apply pending_room.
    + by rewrite Hbce, Eot.
Qed.

(** A page that Stage-1 gave up comes back to Queue-1, sealed. *)
Lemma requeue_sealed (sh1 : shared S) x q p' :
  m !! ck_base c = Some x -> sh_heap sh !! x = Some q -> in_queue q = false ->
  scrap_page_merge (strip q) (ck_src c) (ck_intra c) (ck_len c) = Some (SCRAP_OVERFLOW, p') ->
  core sh1 (<[x := strip (tag_page NOX_TAG_SEALED q)]> pgs) m l1 l2 d ->
  sh_heap sh1 !! x = Some (tag_page NOX_TAG_SEALED q) -> sh_ot sh1 = sh_ot sh ->
  exists h o ms a', otflush_enqueue_partial (sh_heap sh1) (sh_ot sh1) x = Some (h, o, ms) /\
    pstep (mk_pipe pgs m l1 l2 k1 k2 d f) None a' /\ fl a' = <[i := (c, FDet x)]> f /\
    core (with_ot o (with_heap h sh1)) (pg a') (res a') (pq1 a') (pq2 a') (disk a') /\
    bg_sim o t1 t2 a'.
Proof.
  intros Hm Hq Hiq Em Hc1 Hq' Eot.
  destruct (unqueued_out x q Hm Hq Hiq) as (Hbase & Hx & X1 & X2).
  destruct (enqueue_partial_new sh1 _ _ l1 l2 d x _ Hc1 Hq' Hiq X1 X2 queues_apart)
    as (h & o & ms & Ee & Hce & Hwbe & Hpe & Hbce).
  rewrite insert_insert_eq in Hce.
  exists h, o, ms, (mk_pipe (<[x := set_in_queue true (tag_page NOX_TAG_SEALED (strip q))]> pgs) m
    (l1 ++ [x]) l2 k1 k2 d (<[i := (c, FDet x)]> f)).
  split; [done|]. split; [|split; [done|split; [exact Hce|]]].
  - eapply ps_requeue_sealed; [exact Hi|exact Hm|by eapply strip_lookup_2; [apply Hc|]|done|exact Em].
  - apply (bg_sim_born (sh_ot sh) o t1 t2 pgs m m l1 l2 k1 k2 d f _ x _ (base q) false Hb); try done.
    + rewrite Hpe, Eot. apply pending_room.
    + by rewrite Hbce, Eot.
    + by rewrite Hwbe, Eot.
Qed.

(** The chunk finds the page [x], which is not sealed, and merges. *)
Ltac chunk_found Hm Hq :=
  unfold chunk_ok, scrap_write_chunk; rewrite (core_hit _ _ _ _ _ _ _ _ _ Hc Hm); cbn [mbind option_bind];
  assert (with_wm (sh_wm sh) (with_idx (sh_idx sh) (with_heap (sh_heap sh) sh)) = sh) as ->
    by (by destruct sh);
  rewrite Hq; cbn [mbind option_bind].

Lemma chunk_sealed x q :
  m !! ck_base c = Some x -> sh_heap sh !! x = Some q -> tag (hdr q) = NOX_TAG_SEALED ->
  chunk_ok sh t1 t2 (mk_pipe pgs m l1 l2 k1 k2 d f) i c al.
Proof.
  intros Hm Hq Et. chunk_found Hm Hq. rewrite Et. rewrite Z.eqb_refl.
  do 2 eexists. split; [done|]. eexists.
  split; [eapply ps_sealed; [exact Hi|exact Hm|by eapply strip_lookup_2; [apply Hc|]|done]|].
  split; [done|]. split; [exact Hc|]. destruct Hb. by split.
Qed.

(** A merge changes the header and the data only. *)
Lemma merge_shape (q q' : scrap_page) st src intra len :
  scrap_page_merge q src intra len = Some (st, q') -> st = SCRAP_OK ->
  q' = set_hdr (hdr q') (set_data (data q') q).
Proof.
  unfold scrap_page_merge. intros Eq ->. destruct (coalesce_insert _ _ _) as [[] h0]; [|done].
  destruct (memcpy _ _ _ _ _); [|done]. cbn in Eq. by injection Eq as <-.
Qed.

Lemma merged_core x q q' :
  sh_heap sh !! x = Some q -> q' = set_hdr (hdr q') (set_data (data q') q) ->
  core (with_heap (<[x := q']> (sh_heap sh)) sh) (<[x := strip q']> pgs) m l1 l2 d.
Proof.
  intros Hq Hq'. pose proof (core_set sh pgs m l1 l2 d x q q' Hc Hq) as Hset.
  rewrite Hq' in Hset at 1 2 3. by apply Hset.
Qed.

Section Merged.
Variables (x : addr) (q q' : scrap_page).
Hypothesis (Hm : m !! ck_base c = Some x) (Hq : sh_heap sh !! x = Some q).
Hypothesis (Et : tag (hdr q) <> NOX_TAG_SEALED).
Hypothesis (Eq : scrap_page_merge q (ck_src c) (ck_intra c) (ck_len c) = Some (SCRAP_OK, q')).

Lemma merged_strip : scrap_page_merge (strip q) (ck_src c) (ck_intra c) (ck_len c) = Some (SCRAP_OK, strip q').
Proof. by rewrite merge_strip, Eq. Qed.

Lemma merged_move :
  pstep (mk_pipe pgs m l1 l2 k1 k2 d f) (Some c)
    (mk_pipe (<[x := tag_if_full (strip q')]> pgs) m l1 l2 k1 k2 d (delete i f)).
Proof.
  eapply ps_merge; [exact Hi|exact Hm|by eapply strip_lookup_2; [apply Hc|]|exact Et|exact merged_strip].
Qed.

Lemma chunk_merged :
  scrap_page_is_full q' = false -> chunk_ok sh t1 t2 (mk_pipe pgs m l1 l2 k1 k2 d f) i c al.
Proof.
  intros Ef. pose proof (merge_shape _ _ _ _ _ _ Eq eq_refl) as Hq'. chunk_found Hm Hq.
  assert ((tag (hdr q) =? NOX_TAG_SEALED) = false) as -> by lia. rewrite Eq. cbn [mbind option_bind].
  rewrite Ef. do 2 eexists. split; [done|]. eexists. split; [exact merged_move|].
  assert (tag_if_full (strip q') = strip q') as ->.
  { unfold tag_if_full. by rewrite (Ef : scrap_page_is_full (strip q') = false). }
  split; [done|]. split; [by eapply merged_core|].
  eapply bg_sim_set; [exact Hb|by eapply strip_lookup_2; [apply Hc|]|]. cbn. by rewrite Hq'.
Qed.

Lemma chunk_merged_full :
  page_wf q' -> scrap_page_is_full q' = true ->
  chunk_ok sh t1 t2 (mk_pipe pgs m l1 l2 k1 k2 d f) i c al.
Proof.
  intros Hw' Ef. pose proof (merge_shape _ _ _ _ _ _ Eq eq_refl) as Hq'.
  pose proof (merged_core x q q' Hq Hq') as Hset. chunk_found Hm Hq.
  assert ((tag (hdr q) =? NOX_TAG_SEALED) = false) as -> by lia. rewrite Eq. cbn [mbind option_bind].
  rewrite Ef. destruct (run_event_ok (sh_stats sh) (EvPageFull (number (hdr q')))) as (st & Est & Hst');
    [apply Hc|cbn; apply Hw'|]. cbn in Est. cbn [sh_stats with_heap]. rewrite Est.
  cbn [mbind option_bind sh_heap with_heap].
  destruct (in_queue q) eqn:Eiq.
  2: { destruct (requeue_full (with_stats st (with_heap (<[x:=q']> (sh_heap sh)) sh)) x q q')
      as (h & o & ms & a' & Ee & Hst2 & Hf' & Hc' & Hb'); try done; try (by rewrite Hq');
      [exact merged_strip|by apply core_stats|apply lookup_insert_eq|].
    cbn [sh_heap sh_ot with_stats with_heap] in Ee |- *. rewrite Ee. cbn [mbind option_bind].
    do 2 eexists. split; [done|]. exists a'. split_and!; try done. by apply core_print. }
  rewrite (enqueue_full_queued _ _ _ q') by (apply lookup_insert_eq || by rewrite Hq').
  cbn [mbind option_bind]. do 2 eexists. split; [done|]. eexists. split; [exact merged_move|].
  assert (tag_if_full (strip q') = strip (tag_page NOX_TAG_FULL q')) as ->.
  { unfold tag_if_full. by rewrite (Ef : scrap_page_is_full (strip q') = true). }
  split; [done|]. split.
  - pose proof (core_set _ _ m l1 l2 d x q' (tag_page NOX_TAG_FULL q') Hset) as Hset2.
    cbn [sh_heap with_heap] in Hset2. rewrite insert_insert_eq in Hset2.
    rewrite insert_insert_eq in Hset2. rewrite insert_insert_eq.
    specialize (Hset2 (lookup_insert_eq _ _ _) eq_refl eq_refl eq_refl).
    apply core_print. exact (core_stats _ _ _ _ _ _ st Hset2 Hst').
  - eapply bg_sim_set; [exact Hb|by eapply strip_lookup_2; [apply Hc|]|]. cbn. by rewrite Hq'.
Qed.

End Merged.

(** No room in the header: the page is sealed, and queued unless it is. *)
Lemma chunk_overflow x q q' :
  m !! ck_base c = Some x -> sh_heap sh !! x = Some q -> tag (hdr q) <> NOX_TAG_SEALED ->
  scrap_page_merge q (ck_src c) (ck_intra c) (ck_len c) = Some (SCRAP_OVERFLOW, q') ->
  chunk_ok sh t1 t2 (mk_pipe pgs m l1 l2 k1 k2 d f) i c al.
Proof.
  intros Hm Hq Et Eq. chunk_found Hm Hq.
  assert ((tag (hdr q) =? NOX_TAG_SEALED) = false) as -> by lia. rewrite Eq. cbn [mbind option_bind].
  assert (Em : scrap_page_merge (strip q) (ck_src c) (ck_intra c) (ck_len c) = Some (SCRAP_OVERFLOW, strip q'))
    by (by rewrite merge_strip, Eq).
  cbn [sh_heap with_stats]. rewrite (store_some _ _ _ _ Hq). cbn [mbind option_bind].
  pose proof (core_set sh pgs m l1 l2 d x q (tag_page NOX_TAG_SEALED q) Hc Hq
    eq_refl eq_refl eq_refl) as Hset.
  pose proof (core_stats _ _ _ _ _ _ (nox_stat_seal_entries (sh_stats sh)) Hset ltac:(apply Hc)) as Hset'.
  destruct (in_queue q) eqn:Eiq.
  2: { edestruct (requeue_sealed _ x q (strip q') Hm Hq Eiq Em Hset' (lookup_insert_eq _ _ _) eq_refl)
      as (h & o & ms & a' & Ee & Hst2 & Hf' & Hc' & Hb').
    cbn [sh_heap sh_ot with_stats with_heap] in Ee |- *. rewrite Ee. cbn [mbind option_bind].
    do 2 eexists. split; [done|]. exists a'. split_and!; try done. by apply core_print. }
  rewrite (enqueue_partial_queued _ _ _ (tag_page NOX_TAG_SEALED q))
    by (done || apply lookup_insert_eq).
  cbn [mbind option_bind]. do 2 eexists. split; [done|]. eexists.
  split; [eapply ps_overflow; [exact Hi|exact Hm|by eapply strip_lookup_2; [apply Hc|]|exact Em]|].
  split; [done|]. split.
  - apply core_print. by apply core_ot.
  - eapply bg_sim_set; [exact Hb|by eapply strip_lookup_2; [apply Hc|]|done].
Qed.

Lemma chunk_hit x :
  m !! ck_base c = Some x -> chunk_ok sh t1 t2 (mk_pipe pgs m l1 l2 k1 k2 d f) i c al.
Proof.
  intros Hm. pose proof (pi_chunks _ Hinv _ _ _ Hi) as Hcw.
  destruct (pi_res _ Hinv _ _ Hm) as (_ & p & Hp & _). cbn in Hp.
  destruct (heap_page _ _ _ _ _ _ _ _ Hc Hp) as (q & Hq & ->).
  destruct (decide (tag (hdr q) = NOX_TAG_SEALED)) as [Et|Et]; [by eapply chunk_sealed|].
  destruct (merge_spec (strip q) (ck_src c) (ck_intra c) (ck_len c) (pi_wf _ Hinv _ _ Hp)) as (st & p' & Em & Hst);
    [apply Hcw..|].
  rewrite merge_strip in Em.
  destruct (scrap_page_merge q (ck_src c) (ck_intra c) (ck_len c)) as [[st' q']|] eqn:Eq; [|done].
  cbn in Em. injection Em as -> <-. destruct st; [|by eapply chunk_overflow].
  destruct (scrap_page_is_full q') eqn:Ef; [|by eapply chunk_merged].
  eapply chunk_merged_full; try done. apply Hst.
Qed.

(** Merging into a fresh page does not look at its chain link. *)
Lemma merge_fresh_link b za hd junk src intra len p' :
  scrap_page_merge (fresh_page b 0 za junk None) src intra len = Some (SCRAP_OK, p') ->
  exists q', scrap_page_merge (fresh_page b 0 za junk hd) src intra len = Some (SCRAP_OK, q') /\
    p' = strip q' /\ base q' = b /\ in_queue q' = false /\ next q' = hd /\ qnext q' = None.
Proof.
  intros Em. change (fresh_page b 0 za junk None) with (strip (fresh_page b 0 za junk hd)) in Em.
  rewrite merge_strip in Em. unfold scrap_page_merge in *.
  destruct (coalesce_insert _ _ _) as [[] h0]; [|done].
  destruct (memcpy _ _ _ _ _); [|done]. cbn in Em. injection Em as <-. cbn. eauto 8.
Qed.

(** No memory for a page: the caller leaves, and the engine is as it was. *)
Lemma chunk_oom :
  m !! ck_base c = None -> zone_ok (al_malloc al) (al_zone al) = false ->
  chunk_ok sh t1 t2 (mk_pipe pgs m l1 l2 k1 k2 d f) i c al.
Proof.
  intros Hm Ez. unfold chunk_ok, scrap_write_chunk. rewrite (core_oom _ _ _ _ _ _ _ al Hc Hm Ez).
  cbn [mbind option_bind]. do 2 eexists. split; [done|]. split; [done|].
  assert (with_wm (sh_wm sh) (with_idx (sh_idx sh) (with_heap (sh_heap sh) sh)) = sh) as ->
    by (by destruct sh). by split.
Qed.

(** An address that is not in use is nowhere in the pipeline. *)
Lemma fresh_nowhere x :
  sh_heap sh !! x = None -> pgs !! x = None /\ (x ∉ s2_pages k2 ++ l2 ++ s1_page k1 ++ l1).
Proof.
  intros Ha. split; [by rewrite <- (co_pg _ _ _ _ _ _ Hc), lookup_fmap, Ha|].
  intros Hin. apply (pi_dom _ Hinv x) in Hin as [r Hr]. cbn in Hr.
  destruct (heap_page _ _ _ _ _ _ _ _ Hc Hr) as (r' & ? & _). congruence.
Qed.

(** A fresh page with its first chunk in it goes to a queue. *)
Section Fresh.
Variables (x : addr) (q' : scrap_page) (shm : shared S).
Let p' := strip q'.
Hypothesis Hcm : core shm (<[x := p']> pgs) (<[ck_base c := x]> m) l1 l2 d.
Hypothesis (Hot : sh_ot shm = sh_ot sh) (Hx : sh_heap shm !! x = Some q').
Hypothesis (Hqi : in_queue q' = false) (Hxo : x ∉ s2_pages k2 ++ l2 ++ s1_page k1 ++ l1).

Lemma fresh_unqueued : (x ∉ l1) /\ (x ∉ l2).
Proof. rewrite !elem_of_app in Hxo. tauto. Qed.

Lemma fresh_full :
  scrap_page_is_full q' = true ->
  let a' := mk_pipe (<[x := set_in_queue true (tag_page NOX_TAG_FULL p')]> pgs)
              (<[ck_base c := x]> m) l1 (l2 ++ [x]) k1 k2 d (delete i f) in
  exists h o ms, otflush_enqueue_full (sh_heap shm) (sh_ot shm) x = Some (h, o, ms) /\
    core (with_ot o (with_heap h shm)) (pg a') (res a') (pq1 a') (pq2 a') (disk a') /\
    bg_sim o t1 t2 a'.
Proof.
  intros Ef. destruct fresh_unqueued as [X1 X2]. pose proof Hb as [Hwb _ _ _ _]. rewrite <- Hot in Hwb.
  destruct (enqueue_full_new shm _ _ l1 l2 d x q' _ Hcm Hx Hqi X1 X2 queues_apart Hwb)
    as (h & o & ms & Ee & Hce & Hwbe & Hpe & Hbce).
  { pose proof guard_room. lia. }
  rewrite insert_insert_eq in Hce. rewrite Hot in *. exists h, o, ms.
  split; [done|]. split; [exact Hce|].
  apply (bg_sim_born (sh_ot sh) o t1 t2 pgs m _ l1 l2 k1 k2 d f _ x _ (base q') true Hb); try done.
  rewrite Hpe. apply pending_room.
Qed.

Lemma fresh_partial :
  scrap_page_is_full q' = false ->
  let a' := mk_pipe (<[x := set_in_queue true p']> pgs)
              (<[ck_base c := x]> m) (l1 ++ [x]) l2 k1 k2 d (delete i f) in
  exists h o ms, otflush_enqueue_partial (sh_heap shm) (sh_ot shm) x = Some (h, o, ms) /\
    core (with_ot o (with_heap h shm)) (pg a') (res a') (pq1 a') (pq2 a') (disk a') /\
    bg_sim o t1 t2 a'.
Proof.
  intros Ef. destruct fresh_unqueued as [X1 X2].
  destruct (enqueue_partial_new shm _ _ l1 l2 d x q' Hcm Hx Hqi X1 X2 queues_apart)
    as (h & o & ms & Ee & Hce & Hwbe & Hpe & Hbce).
  rewrite insert_insert_eq in Hce. rewrite Hot in *. exists h, o, ms.
  split; [done|]. split; [exact Hce|].
  apply (bg_sim_born (sh_ot sh) o t1 t2 pgs m _ l1 l2 k1 k2 d f _ x _ (base q') false Hb); try done.
  rewrite Hpe. apply pending_room.
Qed.

End Fresh.

Lemma chunk_fresh x za junk :
  m !! ck_base c = None -> sh_heap sh !! x = None ->
  aligned NOX_BLOCK_SIZE za ->
  chunk_ok sh t1 t2 (mk_pipe pgs m l1 l2 k1 k2 d f) i c (mk_alloc x true (Some (za, junk))).
Proof.
  intros Hm Ha Hza. pose proof (pi_chunks _ Hinv _ _ _ Hi) as Hcw.
  destruct (fresh_nowhere x Ha) as [Hpx Hxo]. unfold chunk_ok, scrap_write_chunk.
  destruct (core_fresh sh pgs m l1 l2 d (ck_base c) x za junk Hc Hm Ha Hsz) as (hd & idx & E & Hc1).
  cbn [al_addr al_malloc al_zone]. rewrite E. cbn [mbind option_bind].
  cbn [sh_heap with_stats with_wm with_idx with_heap]. rewrite lookup_insert_eq.
  cbn [mbind option_bind]. change (tag (hdr (fresh_page (ck_base c) 0 za junk hd))) with NOX_TAG_OPEN.
  change (NOX_TAG_OPEN =? NOX_TAG_SEALED) with false.
  pose proof (fresh_page_wf (ck_base c) za junk (proj1 Hcw) Hza) as Hw.
  destruct (merge_single (fresh_page (ck_base c) 0 za junk None) (ck_src c) (ck_intra c) (ck_len c) Hw)
    as [p' Em]; [apply Hcw..|by left|].
  pose proof (merge_ok_facts _ _ _ Hw Hcw Em) as (Hw' & _).
  destruct (merge_fresh_link _ _ hd _ _ _ _ _ Em) as (q' & Eq & -> & Hqb & Hqi & Hqn & Hqq).
  rewrite Eq. cbn [mbind option_bind].
  pose proof (core_set _ _ _ l1 l2 d x _ q' Hc1 (lookup_insert_eq _ _ _) Hqb Hqn Hqq) as Hset.
  cbn [sh_heap with_wm with_idx with_heap] in Hset. rewrite insert_insert_eq in Hset.
  rewrite insert_insert_eq in Hset. cbn [sh_heap with_stats with_wm with_idx with_heap].
  rewrite insert_insert_eq. clear Hc1 E.
  set (st1 := nox_stat_page_created (sh_stats sh)).
  assert (Hst1 : stats_wf st1) by apply Hc.
  match type of Hset with core ?s _ _ _ _ _ => set (shm := with_stats st1 s) end.
  pose proof (core_stats _ _ _ _ _ _ st1 Hset Hst1) as Hcm. fold shm in Hcm.
  assert (Hxm : sh_heap shm !! x = Some q') by apply lookup_insert_eq.
  pose proof (ps_fresh _ m l1 l2 k1 k2 d f _ _ x _ _ _ Hi Hm Hpx Hza Em) as Hmove.
  unfold tag_if_full in Hmove. change (scrap_page_is_full (strip q')) with (scrap_page_is_full q') in Hmove.
  destruct (scrap_page_is_full q') eqn:Ef.
  - destruct (run_event_ok st1 (EvPageFull (number (hdr q')))) as (st2 & Est & Hst2);
      [done|cbn; apply Hw'|]. cbn in Est. cbn [sh_stats with_stats with_wm with_idx with_heap].
    fold st1. rewrite Est. cbn [mbind option_bind sh_ot with_stats with_wm with_idx with_heap].
    destruct (fresh_full x q' shm Hcm eq_refl Hxm Hqi Hxo Ef) as (h & o & ms & Ee & Hce & Hbe).
    cbn [sh_heap sh_ot shm with_stats with_wm with_idx with_heap] in Ee. rewrite Ee.
    cbn [mbind option_bind]. do 2 eexists. split; [done|]. eexists. split; [exact Hmove|].
    split; [done|]. split; [|exact Hbe]. apply core_print. exact (core_stats _ _ _ _ _ _ st2 Hce Hst2).
  - cbn [sh_heap sh_ot with_stats with_wm with_idx with_heap].
    destruct (fresh_partial x q' shm Hcm eq_refl Hxm Hqi Hxo Ef) as (h & o & ms & Ee & Hce & Hbe).
    cbn [sh_heap sh_ot shm with_stats with_wm with_idx with_heap] in Ee. rewrite Ee.
    cbn [mbind option_bind]. do 2 eexists. split; [done|]. eexists. split; [exact Hmove|].
    split; [done|]. split; [|exact Hbe]. by apply core_print.
Qed.

Lemma chunk_miss :
  m !! ck_base c = None -> sh_heap sh !! al_addr al = None ->
  (forall za junk, al_zone al = Some (za, junk) -> aligned NOX_BLOCK_SIZE za) ->
  chunk_ok sh t1 t2 (mk_pipe pgs m l1 l2 k1 k2 d f) i c al.
Proof.
  intros Hm Ha Hza. destruct (zone_ok (al_malloc al) (al_zone al)) eqn:Ez; [|by apply chunk_oom].
  destruct al as [x [] [[za junk]|]]; try done. apply chunk_fresh; eauto.
Qed.

End Chunk.

(** * One transition of a caller *)

(** A call that fails leaves out only bytes counted as damaged; when it had no memory for the page
    of a chunk, all of that page counts. *)
Definition fail_contained (c c' : fg_ctl) : Prop :=
  fg_fails c c' = true ->
  (forall lo len, fg_range c = Some (lo, len) -> forall x, lo <= x < lo + len -> damaged x) /\
  match c with FgLookup l => spoiled (ck_base (chunk_of l)) | _ => True end.

(** The base of the page a caller unlinks by a pointer that is no longer that of the page it
    sealed: the page of another base, allocated at the same address since. *)
Definition stale_detach (sh : shared S) (c c' : fg_ctl) : option Z :=
  match c, c' with
  | FgDetach a l, FgGate _ =>
      match page_index_detach_if (sh_heap sh) (sh_idx sh) (ck_base (chunk_of l)) a with
      | Some (true, _, _) =>
          b ← base <$> sh_heap sh !! a; if b =? ck_base (chunk_of l) then None else Some b
      | _ => None
      end
  | _, _ => None
  end.

(** What a caller does behind the back of the pipeline without an error: a direct write over
    pages that are live, and the unlinking of a page of another base. *)
Definition order_contained (sh : shared S) (c c' : fg_ctl) : Prop :=
  (forall baddr src size offset a p x, c = FgDirect baddr src size offset -> c' = FgIdle 0 ->
     sh_heap sh !! a = Some p -> base p <= x < base p + NOX_DATAZONE_SIZE ->
     offset <= x < offset + size -> damaged x) /\
  (forall b, stale_detach sh c c' = Some b -> spoiled b).

Definition fg_contained (sh : shared S) (c c' : fg_ctl) : Prop :=
  fail_contained c c' /\ order_contained sh c c'.

Definition fg_step_ok (sh : shared S) t1 t2 fg failed a i c now al : Prop :=
  exists sh' c', fg_step sh now al c = Some (sh', c') /\
    (fg_contained sh c c' ->
     exists a', one_move a (fg_label c c') a' /\
       sim (mk_sys sh' t1 t2 (<[i := c']> fg) (failed || fg_fails c c')) a').

(** Assembling a transition: the pipeline step, the data structures and the callers. *)
Lemma fg_step_intro (sh : shared S) t1 t2 fg failed a i c c' sh' a' :
  sim (mk_sys sh t1 t2 fg failed) a -> fg !! i = Some c -> fg_wf c' ->
  range_within (fg_range c') (fg_range c) ->
  (a' = a /\ fg_label c c' = None \/ pstep a (fg_label c c') a') ->
  fl a' = set_flight i (fg_flight c') (fl a) ->
  core sh' (pg a') (res a') (pq1 a') (pq2 a') (disk a') -> bg_sim (sh_ot sh') t1 t2 a' ->
  exists a', one_move a (fg_label c c') a' /\
    sim (mk_sys sh' t1 t2 (<[i := c']> fg) (failed || fg_fails c c')) a'.
Proof.
  intros [] Hi Hw Hr Hs Hfl Hc Hb. exists a'. cbn in *. split.
  - exact Hs.
  - split; cbn; try done.
    + destruct Hs as [[-> _]|Hs]; [done|by eapply step_inv].
    + rewrite Hfl. by eapply fg_sim_set.
Qed.

Lemma set_flight_same (f : gmap nat (chunk * phase)) i x :
  f !! i = x -> f = set_flight i x f.
Proof. intros <-. unfold set_flight. destruct (f !! i) eqn:E; symmetry; [by apply insert_id|by apply delete_id]. Qed.

Lemma flight_of (s : sys S) a i c :
  sim s a -> y_fg s !! i = Some c -> fl a !! i = fg_flight c.
Proof. intros [] Hi. destruct si_fg as [Hf _ _]. by rewrite Hf, Hi. Qed.

Lemma within_refl c : fg_wf c -> range_within (fg_range c) (fg_range c).
Proof. destruct c; cbn; lia. Qed.

Section Caller.
Variables (sh : shared S) (t1 : s1_thread) (t2 : s2_ctl) (fg : gmap nat fg_ctl) (failed : bool)
  (a : pipe) (i : nat) (now : Z) (al : alloc_answer).

Lemma fg_direct_ok baddr src size offset :
  sim (mk_sys sh t1 t2 fg failed) a -> fg !! i = Some (FgDirect baddr src size offset) ->
  fg_step_ok sh t1 t2 fg failed a i (FgDirect baddr src size offset) now al.
Proof.
  intros Hs Hi. pose proof Hs as [Hinv Hc Hb [Hfl Hw _]]. cbn in *.
  pose proof (Hw _ _ Hi) as (Ho & Hsz & He). cbn in *.
  unfold fg_step_ok, fg_step. destruct (io_direct_pwrite _ _ _ _ _) as [[w x'] log] eqn:E.
  rewrite s64_small in E by sz. apply pwrite_spec in E.
  destruct a as [pgs m l1 l2 k1 k2 d f]. cbn in *. pose proof (co_disk _ _ _ _ _ _ Hc) as Hdisk.
  do 2 eexists. split; [done|]. intros [Hct [Hord _]].
  eapply (fg_step_intro sh t1 t2 fg failed _ i _ (FgIdle (if decide (w = SysOk size) then 0 else -1)) _
    (mk_pipe pgs m l1 l2 k1 k2 (file_byte x') f) Hs Hi); try done.
  - right. destruct (decide (w = SysOk size)) as [->|Hne]; cbn [fg_label].
    + apply ps_direct; unfold ck_off; cbn; rewrite Z.add_0_r.
      * intros e p y Hp Hy Hr. destruct (heap_page _ _ _ _ _ _ _ _ Hc Hp) as (q & Hq & ->).
        eapply (Hord _ _ _ _ e q y); done.
      * destruct E as [_ E]. by rewrite E, Hdisk.
    + destruct Hct as [Hct _]; [done|].
      apply (ps_spoil _ _ _ _ _ _ _ _ _ offset size); [by apply Hct|].
      intros y Hy. rewrite <- Hdisk. destruct w as [n|e]; [|by apply E].
      destruct E as [Hn E]. rewrite (E y). apply buf_put_out. lia.
  - apply set_flight_same. cbn. by rewrite Hfl, Hi.
  - eapply core_print, core_os; [exact Hc|reflexivity].
  - destruct Hb. by split.
Qed.

Lemma fg_lookup_ok l :
  sim (mk_sys sh t1 t2 fg failed) a -> fg !! i = Some (FgLookup l) ->
  fg_ok (mk_sys sh t1 t2 fg failed) (FgLookup l) al ->
  fg_step_ok sh t1 t2 fg failed a i (FgLookup l) now al.
Proof.
  intros Hs Hi (Ha & Hza & Hsz). pose proof Hs as [Hinv Hc Hb [Hfl Hw _]]. cbn in Ha, Hsz.
  cbn [y_sh y_s1 y_s2 y_fg] in *. pose proof (Hw _ _ Hi) as [Hr Hp]. cbn in Hr, Hp.
  destruct (chunk_of_spec l Hr Hp) as (Hcw & Hoff & Hlen & Hsrc & _).
  destruct (wl_advance_spec l Hr Hp) as (Hcur & Hrem & Hadv).
  assert (Hfi : fl a !! i = Some (chunk_of l, FLook)) by (by rewrite Hfl, Hi).
  assert (Hck : chunk_ok sh t1 t2 a i (chunk_of l) al).
  { destruct a as [pgs m l1 l2 k1 k2 d f]. cbn [pg res pq1 pq2 disk fl] in *.
    destruct (m !! ck_base (chunk_of l)) as [x|] eqn:Em.
    - by eapply (chunk_hit sh t1 t2 pgs m l1 l2 k1 k2 d f i _ al Hinv Hc Hb Hfi).
    - by eapply (chunk_miss sh t1 t2 pgs m l1 l2 k1 k2 d f i _ al Hinv Hc Hb Hfi). }
  unfold fg_step_ok, fg_step. destruct Hck as (sh' & r & E & Hres).
  unfold chunk_of in E. destruct (wl_chunk l) as [[b intra] len] eqn:Ew. cbn in E. rewrite E.
  cbn [mbind option_bind]. destruct r as [| |x]; do 2 eexists; (split; [done|]); intros [Hf _].
  - destruct Hres as (a' & Hst & Hfl' & Hc' & Hb').
    eapply (fg_step_intro sh t1 t2 fg failed a i _ (FgLoop (wl_advance l)) _ a' Hs Hi); try done.
    + cbn [fg_range range_within]. rewrite Hcur, Hrem. lia.
    + by right.
  - destruct Hres as (Hm & Hc' & Hb'). destruct a as [pgs m l1 l2 k1 k2 d f].
    cbn [pg res pq1 pq2 disk fl] in *.
    eapply (fg_step_intro sh t1 t2 fg failed _ i _ (FgIdle (-1)) _
      (mk_pipe pgs m l1 l2 k1 k2 d (delete i f)) Hs Hi); try done.
    + right. cbn [fg_label]. eapply ps_abandon; [exact Hfi|exact Hm|by apply Hf].
    + destruct Hb'. by split.
  - destruct Hres as (a' & Hst & Hfl' & Hc' & Hb').
    eapply (fg_step_intro sh t1 t2 fg failed a i _ (FgDetach x l) _ a' Hs Hi); try done.
    + by right.
Qed.

Lemma fg_detach_ok x l :
  sim (mk_sys sh t1 t2 fg failed) a -> fg !! i = Some (FgDetach x l) ->
  fg_step_ok sh t1 t2 fg failed a i (FgDetach x l) now al.
Proof.
  intros Hs Hi. pose proof Hs as [Hinv Hc Hb [Hfl Hw _]]. cbn [y_sh y_s1 y_s2 y_fg] in *.
  assert (Hfi : fl a !! i = Some (chunk_of l, FDet x)) by (by rewrite Hfl, Hi).
  destruct a as [pgs m l1 l2 k1 k2 d f]. cbn [pg res pq1 pq2 disk fl] in *.
  destruct (core_detach sh pgs m l1 l2 d (ck_base (chunk_of l)) x Hc) as (r & h & idx & E & Hc').
  assert (Hcb : forall b intra len, wl_chunk l = (b, intra, len) -> ck_base (chunk_of l) = b)
    by (intros b intra len El; unfold chunk_of; by rewrite El).
  unfold fg_step_ok, fg_step. destruct (wl_chunk l) as [[b intra] len] eqn:Ew.
  rewrite <- (Hcb _ _ _ eq_refl), E. cbn [mbind option_bind]. do 2 eexists.
  split; [done|]. intros [_ [_ Hst]].
  assert (Hmove : exists m', pstep (mk_pipe pgs m l1 l2 k1 k2 d f) None
      (mk_pipe pgs m' l1 l2 k1 k2 d (<[i := (chunk_of l, FLook)]> f)) /\
    core (with_idx idx (with_heap h sh)) pgs m' l1 l2 d).
  { destruct r.
    - destruct Hc' as (b' & Hb' & _ & HM & Hc'). exists (unlink_res b' x m). split; [|done].
      destruct (decide (b' = ck_base (chunk_of l))) as [->|Hne]; [by constructor|].
      apply (ps_detach_stale _ _ _ _ _ _ _ _ i _ x b' Hfi HM), Hst. cbn [stale_detach]. rewrite E.
      destruct (heap_base _ _ _ _ _ _ _ _ Hc Hb') as (q & -> & <-). cbn.
      by rewrite (proj2 (Z.eqb_neq _ _)).
    - destruct Hc' as [HM Hc']. exists m. split; [|done].
      pose proof (ps_detach pgs m l1 l2 k1 k2 d f i _ x Hfi) as Hd.
      unfold unlink_res in Hd. by rewrite decide_False in Hd. }
  destruct Hmove as (m' & Hmove & Hcore).
  eapply (fg_step_intro sh t1 t2 fg failed _ i _ (FgGate l) _
    (mk_pipe pgs m' l1 l2 k1 k2 d (<[i := (chunk_of l, FLook)]> f)) Hs Hi);
    try done.
  - by apply (Hw _ _ Hi).
  - by right.
  - destruct Hb. by split.
Qed.

Lemma sim_fg c :
  sim (mk_sys sh t1 t2 fg failed) a -> fg !! i = Some c -> fg_ok (mk_sys sh t1 t2 fg failed) c al ->
  fg_step_ok sh t1 t2 fg failed a i c now al.
Proof.
  intros Hs Hi Hok. pose proof Hs as [Hinv Hc Hb [Hfl Hw Hd]]. cbn [y_sh y_s1 y_s2 y_fg] in *.
  pose proof (Hw _ _ Hi) as Hwi. pose proof (flight_of _ _ _ _ Hs Hi) as Hfi.
  destruct c as [rc|baddr src size offset|l|l|t0 l|l|x l].
  - do 2 eexists. split; [done|]. intros _.
    eapply (fg_step_intro sh t1 t2 fg failed a i _ (FgIdle rc) _ a Hs Hi); try done;
      [by left|by apply set_flight_same].
  - by apply fg_direct_ok.
  - unfold fg_step_ok, fg_step. destruct (0 <? wl_remaining l) eqn:E; do 2 eexists;
      (split; [done|]); intros _.
    + destruct a as [pgs m l1 l2 k1 k2 d f]. cbn [pg res pq1 pq2 disk fl] in *.
      assert (Hpos : 0 < wl_remaining l) by lia.
      eapply (fg_step_intro sh t1 t2 fg failed _ i _ (FgGate l) _
        (mk_pipe pgs m l1 l2 k1 k2 d (<[i := (chunk_of l, FLook)]> f)) Hs Hi); try done.
      * right. cbn [fg_label]. constructor; [done|by apply chunk_of_spec|].
        intros j e ph Hj. eapply (fg_start_disjoint fg f i l j e ph); by split || done.
      * destruct Hb. by split.
    + eapply (fg_step_intro sh t1 t2 fg failed a i _ (FgIdle 0) _ a Hs Hi); try done;
        [by left|by apply set_flight_same].
  - unfold fg_step_ok, fg_step. destruct (watermark_wait_enter (sh_wm sh)) as [pass w] eqn:E.
    assert (Hlive : g_live w = g_live (sh_wm sh)).
    { unfold watermark_wait_enter in E. destruct (_ || _); injection E as _ <-; done. }
    do 2 eexists. split; [done|]. intros _.
    destruct pass; (eapply (fg_step_intro sh t1 t2 fg failed a i _ _ _ a Hs Hi); try done;
      [by left|by apply set_flight_same|by apply core_wm]).
  - unfold fg_step_ok, fg_step. destruct (watermark_must_sleep (sh_wm sh)); do 2 eexists;
      (split; [done|]); intros _.
    + eapply (fg_step_intro sh t1 t2 fg failed a i _ _ _ a Hs Hi); try done;
        [by left|by apply set_flight_same].
    + eapply (fg_step_intro sh t1 t2 fg failed a i _ _ _ a Hs Hi); try done;
        [by left|by apply set_flight_same|by apply core_wm].
  - by apply fg_lookup_ok.
  - by apply fg_detach_ok.
Qed.

Lemma sim_call rc baddr src size offset sh' c :
  sim (mk_sys sh t1 t2 fg failed) a -> fg !! i = Some (FgIdle rc) ->
  call_ok (mk_sys sh t1 t2 fg failed) i size offset ->
  nox_write sh baddr src size offset = (sh', c) ->
  sim (mk_sys sh' t1 t2 (<[i := c]> fg) failed) a.
Proof.
  intros [Hinv Hc Hb Hf] Hi [Hr Hdis] E. cbn [y_sh y_s1 y_s2 y_fg y_failed] in *.
  unfold nox_write in E. destruct (nox_write_route size offset); injection E as <- <-;
    (split; cbn [y_sh y_s1 y_s2 y_fg y_failed]; try done).
  - eapply fg_sim_call; try done.
  - eapply fg_sim_call; try done. intros lo len [= <- <-]. done.
  - apply core_stats; [done|apply Hc].
  - eapply fg_sim_call; try done. intros lo len [= <- <-]. done.
Qed.

End Caller.

End Write.

(** C27: A direct write is exact. A caller on the direct path makes one transition and returns,
    with 0 exactly when the one [pwrite] took the whole range: from the caller's buffer if its
    address is a multiple of 4096, else from a bounce buffer, for which there was memory. The
    file then holds the bytes of the caller's buffer there, and its old bytes elsewhere. In every
    other case (an error, a short transfer, no memory for the bounce buffer) it returns -1, and
    still no byte outside the range has changed. No other part of the shared state changes but
    the lines printed. *)
Theorem direct_write_exact `{NoxConfig} {S : Type} `{PosixLaws S} (s : shared S) (now : Z)
    (al : alloc_answer) (baddr : Z) (src : buf) (size offset : Z) :
  range_ok offset size ->
  exists x log rc, fg_step s now al (FgDirect baddr src size offset) =
      Some (print log (with_os x s), FgIdle rc) /\
    (rc = 0 <->
     exists a, (if NOX_IS_ALIGNED baddr then Some baddr
                else posix_memalign (sh_os s) NOX_BLOCK_SIZE size) = Some a /\
       sys_pwritev (sh_os s) [mk_iov a src size] offset = (SysOk size, x)) /\
    (rc = 0 -> file_byte x ≈ buf_put (file_byte (sh_os s)) offset src size) /\
    (rc <> 0 -> rc = -1 /\
      forall y, ~ (offset <= y < offset + size) -> file_byte x y = file_byte (sh_os s) y).
Proof.
  intros (Ho & Hs & He). unfold fg_step. rewrite s64_small by sz.
  destruct (io_direct_pwrite _ _ _ _ _) as [[w x] log] eqn:E. pose proof E as E'. apply pwrite_spec in E.
  do 3 eexists. split; [done|]. unfold io_direct_pwrite in E'. split_and!.
  - destruct (if NOX_IS_ALIGNED baddr then _ else _) as [a|].
    2: { injection E' as <- _ _. rewrite decide_False by done. split; [done|by intros (a & ? & _)]. }
    destruct (sys_pwritev _ _ _) as [[n|e] x1] eqn:Ew; injection E' as <- <- _.
    + split.
      * case_decide as Hn; [|done]. injection Hn as ->. eauto.
      * intros (a' & [= <-] & Ea). rewrite Ew in Ea. injection Ea as ->. by rewrite decide_True.
    + rewrite decide_False by done. split; [done|]. intros (a' & [= <-] & Ea). by rewrite Ew in Ea.
  - case_decide as Hw; [subst w|done]. by destruct E.
  - case_decide as Hw; [done|]. intros _. split; [done|]. intros y Hy. destruct w as [n|e]; [|by apply E].
    destruct E as [Hn E]. rewrite (E y). apply buf_put_out. lia.
Qed.

(** A misaligned source, and a kernel that stops after one block. *)
Lemma direct_write_exact_witness :
  range_ok 0 1048576 /\
  exists x log rc, fg_step (mk_shared ∅ (mk_index []) (ot_initial 1 1) wm_initial
      (mk_file (fun _ => x00) 0 [Short 4096]) (stats_zero (H := default_config)) [])
      (H := default_config) 0 (mk_alloc 1%positive true None)
      (FgDirect 5 (fun _ => x2a) 1048576 0) = Some (print log (with_os x
        (mk_shared ∅ (mk_index []) (ot_initial 1 1) wm_initial
          (mk_file (fun _ => x00) 0 [Short 4096]) (stats_zero (H := default_config)) [])), FgIdle rc).
Proof.
  assert (range_ok 0 1048576) as Hr by (unfold range_ok; sz). split; [exact Hr|].
  destruct (direct_write_exact (H := default_config) (mk_shared ∅ (mk_index []) (ot_initial 1 1) wm_initial
      (mk_file (fun _ => x00) 0 [Short 4096]) (stats_zero (H := default_config)) []) 0
      (mk_alloc 1%positive true None) 5 (fun _ => x2a) 1048576 0 Hr) as (x & log & rc & E & _).
  exists x, log, rc. exact E.
Defined.

(** * The chunk loop of one call *)

(** The chunks the loop of [nox_write] hands to the scrap path, at most [fuel] of them, and
    whether it ran to the end. *)
Fixpoint loop_chunks (fuel : nat) (l : write_loop) : list chunk * bool :=
  match fuel with
  | O => ([], wl_remaining l <=? 0)
  | S fuel =>
      if 0 <? wl_remaining l
      then let '(cs, fin) := loop_chunks fuel (wl_advance l) in (chunk_of l :: cs, fin)
      else ([], true)
  end.

Lemma loop_chunks_put fuel : forall l d,
  range_ok (wl_cur l) (wl_remaining l) -> (loop_chunks fuel l).2 = true ->
  put_chunks d (loop_chunks fuel l).1 ≈ buf_put d (wl_cur l) (wl_src l) (wl_remaining l) /\
  Forall chunk_wf (loop_chunks fuel l).1.
Proof.
  induction fuel as [|fuel IH]; intros l d Hr; cbn [loop_chunks fst snd].
  - intros Hz. split; [|constructor]. intros x. cbn. rewrite buf_put_out by lia. done.
  - destruct (0 <? wl_remaining l) eqn:E.
    2: { intros _. split; [|constructor]. intros x. cbn. rewrite buf_put_out by lia. done. }
    destruct (chunk_of_spec l Hr) as (Hwf & Hoff & Hlen & Hsrc & El); [lia|].
    destruct (wl_advance_spec l Hr) as (Ec & Er & Hr'); [lia|].
    specialize (IH (wl_advance l)
      (buf_put d (ck_off (chunk_of l)) (ck_src (chunk_of l)) (ck_len (chunk_of l))) Hr').
    destruct (loop_chunks fuel (wl_advance l)) as [cs fin]. cbn [fst snd] in *. intros Hf.
    destruct (IH Hf) as [Hput Hall]. split; [|by constructor]. unfold put_chunks in *. cbn [foldl].
    rewrite Hput, Ec, Er, Hoff, Hsrc. intros x.
    destruct (decide (wl_cur l + ck_len (chunk_of l) <= x < wl_cur l + wl_remaining l)).
    + rewrite !buf_put_in by lia. unfold wl_advance. cbn [wl_src]. unfold buf_drop.
      rewrite <- El. f_equal. lia.
    + rewrite buf_put_out by lia.
      destruct (decide (wl_cur l <= x < wl_cur l + ck_len (chunk_of l))).
      * by rewrite !buf_put_in by lia.
      * by rewrite !buf_put_out by lia.
Qed.

(** After the first chunk every chunk starts at a page boundary. *)
Lemma loop_chunks_end fuel : forall l,
  range_ok (wl_cur l) (wl_remaining l) ->
  (wl_cur l mod NOX_DATAZONE_SIZE + wl_remaining l <= Z.of_nat fuel * NOX_DATAZONE_SIZE) ->
  (loop_chunks fuel l).2 = true.
Proof.
  induction fuel as [|fuel IH]; intros l Hr Hf; cbn [loop_chunks fst snd].
  - pose proof (Z.mod_pos_bound (wl_cur l) NOX_DATAZONE_SIZE). sz.
  - destruct (0 <? wl_remaining l) eqn:E; [|done].
    destruct (wl_advance_spec l Hr) as (Ec & Er & Hr'); [lia|].
    pose proof (next_chunk_spec _ _ Hr ltac:(lia)) as Hn.
    assert (Hck : ck_len (chunk_of l) = (next_chunk (wl_cur l) (wl_remaining l)).2)
      by (unfold chunk_of, wl_chunk; by destruct (next_chunk _ _) as [[? ?] ?]).
    destruct (next_chunk (wl_cur l) (wl_remaining l)) as [[b intra] len] eqn:En.
    cbn [snd] in Hck. destruct Hn as ((_ & Hal) & Hi & Hlen & Hfit & Hcur & Hend).
    assert (Hmod : wl_cur l mod NOX_DATAZONE_SIZE = intra \/ intra = NOX_DATAZONE_SIZE).
    { left. rewrite <- Hcur. unfold aligned in Hal. rewrite Zplus_mod, Hal, Z.add_0_l, Z.mod_mod by sz.
      apply Z.mod_small. sz. }
    destruct Hmod as [Hmod|]; [|sz].
    assert ((loop_chunks fuel (wl_advance l)).2 = true) as Hgo.
    { destruct Hend as [Hend|Hend].
      - destruct fuel; cbn [loop_chunks]; rewrite Er, Hck, Hend, Z.sub_diag; done.
      - apply IH; [done|]. rewrite Ec, Er, Hck. replace (wl_cur l + len) with (b + NOX_DATAZONE_SIZE) by lia.
        unfold aligned in Hal. rewrite Zplus_mod, Hal, Z_mod_same_full. change (0 + 0) with 0.
        rewrite Zmod_0_l. lia. }
    by destruct (loop_chunks fuel (wl_advance l)).
Qed.

(** C18: The chunk loop of [nox_write] cuts the range of a call exactly. For every legal range it
    ends within [size / 256K + 2] iterations; each chunk is non-empty and lies within one page;
    and writing the chunks one after the other is writing the whole buffer at the offset of
    the call, whatever the file held: no byte of the range is skipped, repeated with other
    contents, or written outside it. *)
Theorem chunk_loop_partitions (src : buf) (offset size : Z) (d : buf) :
  range_ok offset size ->
  let '(cs, fin) := loop_chunks (Z.to_nat (size / NOX_DATAZONE_SIZE + 2)) (mk_wl src offset size) in
  fin = true /\ Forall chunk_wf cs /\ put_chunks d cs ≈ buf_put d offset src size.
Proof.
  intros Hr. set (fuel := Z.to_nat _).
  assert (Hf : (loop_chunks fuel (mk_wl src offset size)).2 = true).
  { apply loop_chunks_end; [done|]. cbn [wl_cur wl_remaining]. destruct Hr as (_ & Hs & _).
    pose proof (Z.mod_pos_bound offset NOX_DATAZONE_SIZE ltac:(sz)).
    pose proof (Z.mod_pos_bound size NOX_DATAZONE_SIZE ltac:(sz)).
    pose proof (Z.div_mod size NOX_DATAZONE_SIZE ltac:(sz)).
    assert (0 <= size / NOX_DATAZONE_SIZE) by (apply Z.div_pos; sz).
    subst fuel. rewrite Z2Nat.id by lia. sz. }
  pose proof (loop_chunks_put fuel (mk_wl src offset size) d Hr Hf) as [Hp Hw].
  destruct (loop_chunks fuel _) as [cs fin]. done.
Qed.

(** A call over three pages that starts and ends inside a page. *)
Lemma chunk_loop_partitions_witness :
  range_ok 262000 300000 /\
  (loop_chunks (Z.to_nat (300000 / NOX_DATAZONE_SIZE + 2)) (mk_wl (fun _ => x2a) 262000 300000)).2 = true.
Proof.
  assert (range_ok 262000 300000) as Hr by (unfold range_ok; sz). split; [exact Hr|].
  pose proof (chunk_loop_partitions (fun _ => x2a) 262000 300000 (fun _ => x00) Hr) as Hc.
  destruct (loop_chunks _ _) as [cs fin]. exact (proj1 Hc).
Defined.
