(* ===== verification/Faults.v ===== *)
(** Losses. A step relation in which every loss is recorded with the bytes it may have spoiled:
    to an error (a batch of Stage-2 or a direct write that fails, a call that runs out of memory,
    a page that Stage-1 gives up because its holes cannot be read), or silently (a direct write
    over live pages, a page unlinked by a pointer that was allocated again). The simulation of its runs, the history of
    the calls they make, and what the engine still guarantees after any of them. *)
From stdpp Require Import base numbers list gmap sets.
From Corelib Require Import Init.Byte.
From S2P Require Import Prelude Config Segments IoDirect Watermark ScrapPage Heap Queue.
From S2P Require Import PageIndex Stats Otflush Engine Pipeline System Schedule Simulation.
From S2P Require Import SimFlush SimWrite.

(** * What a transition loses *)

(** What a transition loses. With an error: bytes that were to be written, or a page that Stage-1
    gives up. Without one: bytes whose order is no longer that of the calls, because a direct
    write went over a page that was live, or because a caller unlinked, by a pointer it had kept,
    the page of another base allocated at the same address since. *)
Inductive loss :=
| LostRange (lo len : Z)
| LostPage (b : Z)
| LostOrder (lo len : Z).

#[export] Instance loss_eq_dec : EqDecision loss.
Proof. solve_decision. Defined.

Definition loss_range (l : loss) : Z * Z :=
  match l with
  | LostRange lo len | LostOrder lo len => (lo, len)
  | LostPage b => (b, NOX_DATAZONE_SIZE)
  end.

(** No error is reported for the loss. *)
Definition silent (l : loss) : bool := match l with LostOrder _ _ => true | _ => false end.

Definition lost_at (ls : list loss) (x : Z) : Prop :=
  Exists (fun l => (loss_range l).1 <= x < (loss_range l).1 + (loss_range l).2) ls.

(** The damage that a list of losses amounts to. *)
Definition losses (ls : list loss) : Damage := mk_damage (lost_at ls) (fun b => LostPage b ∈ ls).

(** Everything may be damaged, and any page given up. *)
Definition all_damage : Damage := mk_damage (fun _ => True) (fun _ => True).

(** Everything may be damaged, but no page is given up. *)
Definition write_damage : Damage := mk_damage (fun _ => True) (fun _ => False).

(** No page is given up. *)
Definition keeps_pages (ls : list loss) : bool :=
  forallb (fun l => match l with LostPage _ => false | _ => true end) ls.

Lemma keeps_pages_app ls1 ls2 : keeps_pages (ls1 ++ ls2) = keeps_pages ls1 && keeps_pages ls2.
Proof. apply forallb_app. Qed.

Lemma keeps_pages_true ls : keeps_pages ls = true -> forall b, ~ LostPage b ∈ ls.
Proof.
  intros Hk b Hb. unfold keeps_pages in Hk. rewrite forallb_forall in Hk.
  by specialize (Hk _ (proj1 (list_elem_of_In _ _) Hb)).
Qed.

Lemma keeps_pages_false ls : keeps_pages ls = false -> exists b, LostPage b ∈ ls.
Proof. intros (l & Hl & Hf)%forallb_false. destruct l as [|b|]; [done|by exists b|done]. Qed.

Section Loss.
Context `{NoxConfig} {S : Type} `{PosixLaws S}.

(** A call that returns an error may have spoiled what it had not yet written of its range; when
    it had no memory for the page of a chunk, the whole page counts. *)
Definition fail_loss (c c' : fg_ctl) : list loss :=
  if fg_fails c c' then
    match fg_range c with Some (lo, len) => [LostRange lo len] | None => [] end ++
    match c with FgLookup l => [LostRange (ck_base (chunk_of l)) NOX_DATAZONE_SIZE] | _ => [] end
  else [].

(** The part of a range that lies in the zone of a page. *)
Definition overlap (offset size : Z) (p : scrap_page) : option loss :=
  let lo := Z.max offset (base p) in
  let hi := Z.min (offset + size) (base p + NOX_DATAZONE_SIZE) in
  if lo <? hi then Some (LostOrder lo (hi - lo)) else None.

(** What a caller does behind the back of the pipeline: a direct write over pages that are live,
    and the unlinking of a page of another base. *)
Definition order_loss (sh : shared S) (c c' : fg_ctl) : list loss :=
  match c, c' with
  | FgDirect _ _ size offset, FgIdle 0 =>
      omap (fun ap => overlap offset size ap.2) (map_to_list (sh_heap sh))
  | _, _ => option_list ((fun b => LostOrder b NOX_DATAZONE_SIZE) <$> stale_detach sh c c')
  end.

Definition fg_loss (sh : shared S) (c c' : fg_ctl) : list loss :=
  fail_loss c c' ++ order_loss sh c c'.

(** The zones of a batch. *)
Definition batch_loss (h : heap) (batch : list addr) : list loss :=
  omap (fun a => p ← h !! a; Some (LostRange (base p) NOX_DATAZONE_SIZE)) batch.

Definition s2_loss (sh : shared S) (t t' : s2_ctl) : list loss :=
  match t, t' with
  | S2Write batch, S2WriteEnd _ false => batch_loss (sh_heap sh) batch
  | _, _ => []
  end.

(** Stage-1 gives a page up because its holes could not be read. *)
Definition s1_loss (c c' : s1_ctl) : list loss :=
  match c, c' with S1Apply _ b None, S1DropDec => [LostPage b] | _, _ => [] end.

(** What the transition between two states may have spoiled. *)
Definition step_loss (s s' : sys S) : list loss :=
  s1_loss (s1_at (y_s1 s)) (s1_at (y_s1 s')) ++ s2_loss (y_sh s) (y_s2 s) (y_s2 s') ++
  (map_to_list (y_fg s) ≫= fun '(i, c) => fg_loss (y_sh s) c (default c (y_fg s' !! i))).

(** A run, with what it may have spoiled. *)
Inductive losing_run : sys S -> list event -> list loss -> sys S -> Prop :=
| lr_refl s : losing_run s [] [] s
| lr_step s es ls s1 l s2 :
    losing_run s es ls s1 -> sys_step s1 l s2 ->
    losing_run s (es ++ option_list l) (ls ++ step_loss s1 s2) s2.

(** A checked schedule, with what it may have spoiled. *)
Fixpoint run_losing (s : sys S) (ms : list move) : option (sys S * list event * list loss) :=
  match ms with
  | [] => Some (s, [], [])
  | m :: ms =>
      '(s', l) ← exec true s m;
      '(s2, es, ls) ← run_losing s' ms;
      Some (s2, option_list l ++ es, step_loss s s' ++ ls)
  end.

Lemma losing_cons s l s1 es ls s2 :
  sys_step s l s1 -> losing_run s1 es ls s2 ->
  losing_run s (option_list l ++ es) (step_loss s s1 ++ ls) s2.
Proof.
  intros Hs Hr. induction Hr as [s1|s1 es ls s2 l' s3 Hr IH Hs'].
  - rewrite !app_nil_r. exact (lr_step s [] [] s l s1 (lr_refl s) Hs).
  - rewrite !app_assoc. econstructor; [by apply IH|done].
Qed.

Lemma run_losing_ok ms : forall s s' es ls,
  run_losing s ms = Some (s', es, ls) -> losing_run s es ls s'.
Proof.
  induction ms as [|m ms IH]; intros s s' es ls E; cbn [run_losing] in E.
  - injection E as <- <- <-. constructor.
  - bind_step E. bind_step E. injection E as <- <- <-.
    eapply losing_cons; [by eapply exec_step|by apply IH].
Qed.

(** Every run is one, for some losses. *)
Lemma run_loses (s : sys S) es s' : sys_run s es s' -> exists ls, losing_run s es ls s'.
Proof.
  intros Hr. induction Hr as [s|s es s1 l s2 Hr [ls IH] Hs]; [by exists []; constructor|].
  eexists. by econstructor.
Qed.

Lemma losing_sys s es ls s' : losing_run s es ls s' -> sys_run s es s'.
Proof. intros Hr. induction Hr; econstructor; eauto. Qed.

Definition engine_losing (x : S) (es : list event) (ls : list loss) (s : sys S) : Prop :=
  exists e high low w st junk callers s0,
    engine_open e high low w st x junk callers = Some s0 /\ g_live w = 0 /\ stats_wf st /\
    losing_run s0 es ls s.

Lemma engine_loses (x : S) es s : engine_run x es s -> exists ls, engine_losing x es ls s.
Proof.
  intros (e & high & low & w & st & junk & callers & s0 & Ho & Hw & Hst & Hr).
  destruct (run_loses _ _ _ Hr) as [ls Hl]. exists ls. by do 8 eexists.
Qed.

Lemma losing_engine (x : S) es ls s : engine_losing x es ls s -> engine_run x es s.
Proof.
  intros (e & high & low & w & st & junk & callers & s0 & Ho & Hw & Hst & Hr).
  do 8 eexists. split_and!; [done..|by eapply losing_sys].
Qed.

Lemma fg_loss_same sh c : fg_loss sh c c = [].
Proof. unfold fg_loss, fail_loss. assert (fg_fails c c = false) as -> by (by destruct c). by destruct c. Qed.

(** Callers that do not move lose nothing. *)
Lemma same_callers_loss (s s' : sys S) :
  y_fg s' = y_fg s ->
  step_loss s s' = s1_loss (s1_at (y_s1 s)) (s1_at (y_s1 s')) ++ s2_loss (y_sh s) (y_s2 s) (y_s2 s').
Proof.
  intros E. unfold step_loss. rewrite E, app_assoc.
  enough (map_to_list (y_fg s) ≫= (fun '(i, c) => fg_loss (y_sh s) c (default c (y_fg s !! i))) = []) as ->
    by apply app_nil_r.
  assert (Hin : forall i c, (i, c) ∈ map_to_list (y_fg s) -> y_fg s !! i = Some c)
    by (intros i c; apply elem_of_map_to_list).
  induction (map_to_list (y_fg s)) as [|[i c] m IH]; [done|]. cbn. rewrite (Hin i c) by left.
  cbn. rewrite fg_loss_same. cbn.
  apply IH. intros j e Hj. apply Hin. by right.
Qed.

End Loss.

Section Contained.
Context `{NoxConfig} {dmg : Damage} {S : Type} `{PosixLaws S}.

(** The losses are all counted as damage. *)
Definition counted (ls : list loss) : Prop :=
  (forall x, lost_at ls x -> damaged x) /\ forall b, LostPage b ∈ ls -> gives_up b.

Lemma counted_app ls1 ls2 : counted (ls1 ++ ls2) <-> counted ls1 /\ counted ls2.
Proof.
  unfold counted, lost_at. split.
  - intros [Hx Hb]. split; (split; [intros x Hin; apply Hx, Exists_app; auto|]);
      intros b Hin; apply Hb, elem_of_app; auto.
  - intros [[Hx1 Hb1] [Hx2 Hb2]]. split; [intros x [?|?]%Exists_app; auto|].
    intros b [?|?]%elem_of_app; auto.
Qed.

Lemma counted_nil : counted [].
Proof. split; [intros x Hx; by apply Exists_nil in Hx|intros b Hb; by apply not_elem_of_nil in Hb]. Qed.

Lemma counted_in ls l x :
  counted ls -> l ∈ ls -> (loss_range l).1 <= x < (loss_range l).1 + (loss_range l).2 -> damaged x.
Proof. intros [Hc _] Hl Hx. apply Hc, Exists_exists. eauto. Qed.

(** A transition whose errors spoil only bytes counted as damaged. *)
Definition contained (s s' : sys S) : Prop :=
  s1_contained (s1_at (y_s1 s)) (s1_at (y_s1 s')) /\
  s2_contained (y_sh s) (y_s2 s) (y_s2 s') /\
  forall i c c', y_fg s !! i = Some c -> y_fg s' !! i = Some c' -> fg_contained (y_sh s) c c'.

Lemma order_loss_contained (sh : shared S) c c' :
  (forall l, l ∈ order_loss sh c c' -> forall x,
     (loss_range l).1 <= x < (loss_range l).1 + (loss_range l).2 -> damaged x) ->
  order_contained sh c c'.
Proof.
  intros Hl. split.
  - intros baddr src size offset a p x -> -> Hp Hx Hr.
    set (lo := Z.max offset (base p)). set (hi := Z.min (offset + size) (base p + NOX_DATAZONE_SIZE)).
    apply (Hl (LostOrder lo (hi - lo))); [|cbn; subst lo hi; lia]. cbn [order_loss].
    apply list_elem_of_omap. exists (a, p). split; [by apply elem_of_map_to_list|].
    assert ((lo <? hi) = true) as E by (subst lo hi; lia). unfold overlap. cbn [snd]. fold lo hi.
    by rewrite E.
  - intros b Hb x Hx. apply (Hl (LostOrder b NOX_DATAZONE_SIZE)); [|done].
    destruct c; try done. unfold order_loss. rewrite Hb. left.
Qed.

Lemma loss_contained (s s' : sys S) : counted (step_loss s s') -> contained s s'.
Proof.
  unfold step_loss. rewrite !counted_app. intros (C1 & C2 & C3). split; [|split].
  - unfold s1_contained. destruct (s1_at (y_s1 s)) as [| | | | | | | | | |a b [|]| | | | ]; try done.
    destruct (s1_at (y_s1 s')); try done. cbn in C1. split.
    + apply C1. left.
    + intros x Hx. by apply (counted_in _ (LostPage b) x C1); [left|].
  - unfold s2_contained. destruct (y_s2 s) as [| | | | | | | | | |batch| | | | | | ]; try done.
    destruct (y_s2 s') as [| | | | | | | | | | |b [|]| | | | | ]; try done.
    intros x (a & p & Ha & Hp & Hx). apply (counted_in _ (LostRange (base p) NOX_DATAZONE_SIZE) x C2);
      [|done]. apply list_elem_of_omap. exists a. by rewrite Hp.
  - intros i c c' Hi Hi'.
    assert (Hin : forall l, l ∈ fg_loss (y_sh s) c c' ->
      l ∈ map_to_list (y_fg s) ≫= (fun '(i, c) => fg_loss (y_sh s) c (default c (y_fg s' !! i)))).
    { intros l Hl. apply list_elem_of_bind. exists (i, c). rewrite Hi'. split; [done|].
      by apply elem_of_map_to_list. }
    unfold fg_loss in Hin. setoid_rewrite elem_of_app in Hin. split; [intros Hf|].
    2: { eapply order_loss_contained. intros l Hl x Hx. apply (counted_in _ l x C3); [|done]. auto. }
    unfold fail_loss in Hin. rewrite Hf in Hin. split.
    + intros lo len E x Hx. rewrite E in Hin. apply (counted_in _ (LostRange lo len) x C3); [|done].
      apply Hin. left. left.
    + destruct c as [| | | | |l| ]; try done. intros x Hx.
      apply (counted_in _ (LostRange (ck_base (chunk_of l)) NOX_DATAZONE_SIZE) x C3); [|done].
      apply Hin. left. right. left.
Qed.

(** * The simulation of runs *)

Lemma accepted_app es es' : accepted (es ++ es') = accepted es ++ accepted es'.
Proof. apply omap_app. Qed.

Lemma accepted_put l : accepted (option_list (EPut <$> l)) = option_list l.
Proof. by destruct l. Qed.

(** The bytes accepted by a transition. *)
Definition put_of (l : option event) : option chunk :=
  match l with Some (EPut c) => Some c | _ => None end.

Lemma accepted_of l : accepted (option_list l) = option_list (put_of l).
Proof. by destruct l as [[|]|]. Qed.

Lemma sim_step_move s l s' a :
  sys_step s l s' -> sim s a -> contained s s' ->
  exists a', one_move a (put_of l) a' /\ sim s' a'.
Proof.
  intros Hs Hsim (Hone & Htwo & Hfg).
  destruct Hs as [sh t1 t2 fg failed i rc baddr src size offset sh' c Hi Hok E
    |sh t1 t2 fg failed i c now al sh' c' Hi Hok E|sh t1 t2 fg failed sh' t1' E
    |sh t1 t2 fg failed sh' t2' E]; cbn [y_s1 y_sh y_s2 y_fg] in *.
  - exists a. split; [by left|]. by eapply sim_call.
  - destruct (sim_fg sh t1 t2 fg failed a i now al c Hsim Hi Hok) as (sh1 & c1 & E1 & Hnext).
    rewrite E in E1. injection E1 as <- <-.
    assert (put_of (EPut <$> fg_label c c') = fg_label c c') as -> by (by destruct (fg_label c c')).
    apply Hnext. apply (Hfg i); [done|apply lookup_insert_eq].
  - destruct (sim_stage1 sh t1 t2 fg failed a Hsim) as (sh1 & c1 & E1 & Hnext).
    rewrite E in E1. injection E1 as <- <-. destruct (Hnext Hone) as (a' & Ha & Hs').
    exists a'. split; [by apply bg_one_move|done].
  - destruct (sim_stage2 sh t1 t2 fg failed a Hsim) as (sh1 & c1 & E1 & Hnext).
    rewrite E in E1. injection E1 as <- <-. destruct (Hnext Htwo) as (a' & Ha & Hs').
    exists a'. split; [by apply bg_one_move|done].
Qed.

Lemma sim_step_in s l s' a :
  sys_step s l s' -> sim s a -> contained s s' ->
  exists a', pipe_run a (accepted (option_list l)) a' /\ sim s' a'.
Proof.
  intros Hs Hsim Hc. destruct (sim_step_move _ _ _ _ Hs Hsim Hc) as (a' & Hm & Hs').
  exists a'. rewrite accepted_of. split; [by apply one_move_run|done].
Qed.

Lemma pipe_run_app a cs1 a1 cs2 a2 :
  pipe_run a cs1 a1 -> pipe_run a1 cs2 a2 -> pipe_run a (cs1 ++ cs2) a2.
Proof.
  intros H2 H3. revert H2. induction H3 as [s|s cs s1 l s2 Hr IH Hs]; intros H2.
  - by rewrite app_nil_r.
  - rewrite app_assoc. econstructor; [by apply IH|done].
Qed.

(** * The history of calls *)

(** The bytes a caller still has to write, with their source. *)
Definition fg_rest (c : fg_ctl) : option (Z * Z * buf) :=
  match c with
  | FgIdle _ => None
  | FgDirect _ src size offset => Some (offset, size, src)
  | FgLoop l | FgGate l | FgAsleep _ l | FgLookup l | FgDetach _ l =>
      Some (wl_cur l, wl_remaining l, wl_src l)
  end.

(** The state [v] of the file lags the history [d] exactly on the bytes that calls in
    progress still have to write. *)
Record lags (fg : gmap nat fg_ctl) (v d : buf) : Prop := {
  lg_rest : forall i c lo len src, fg !! i = Some c -> fg_rest c = Some (lo, len, src) ->
    forall y, lo <= y < lo + len -> d y = src (y - lo);
  lg_done : forall y, ~ damaged y ->
    (forall i c lo len src, fg !! i = Some c -> fg_rest c = Some (lo, len, src) ->
       ~ (lo <= y < lo + len)) -> v y = d y
}.

Lemma fg_range_rest c : fg_range c = fst <$> fg_rest c.
Proof. by destruct c. Qed.

Lemma lags_call fg v d i rc (sh sh' : shared S) t1 t2 failed baddr src size offset c :
  lags fg v d -> fg !! i = Some (FgIdle rc) ->
  call_ok (mk_sys sh t1 t2 fg failed) i size offset ->
  nox_write sh baddr src size offset = (sh', c) ->
  lags (<[i := c]> fg) v (buf_put d offset src size).
Proof.
  intros [Hr Hd] Hi [_ Hdis] E. cbn [y_fg] in Hdis.
  assert (fg_rest c = Some (offset, size, src) \/ fg_rest c = None /\ size = 0) as Hc.
  { unfold nox_write, nox_write_route in E. destruct (size =? 0) eqn:E0.
    - injection E as _ <-. right. split; [done|lia].
    - destruct (_ && _); injection E as _ <-; by left. }
  split.
  - intros j c' lo len src' Hj Hrest y Hy. destruct (decide (i = j)) as [<-|Hne].
    + rewrite lookup_insert_eq in Hj. injection Hj as ->.
      destruct Hc as [Hc|[Hc _]]; rewrite Hc in Hrest; [injection Hrest as -> -> ->|done].
      by apply buf_put_in.
    + rewrite lookup_insert_ne in Hj by done. pose proof (Hdis j c' (not_eq_sym Hne) Hj) as Hx.
      rewrite fg_range_rest, Hrest in Hx. cbn in Hx. rewrite buf_put_out by lia. by eapply Hr.
  - intros y Hdm Hy. rewrite buf_put_out.
    + apply Hd; [done|]. intros j c' lo len src' Hj. destruct (decide (i = j)) as [<-|Hne].
      * rewrite Hi in Hj. by injection Hj as <-.
      * apply (Hy j). by rewrite lookup_insert_ne.
    + destruct Hc as [Hc|[_ ->]]; [|lia]. apply (Hy i c _ _ src); [by rewrite lookup_insert_eq|done].
Qed.

(** A caller writes a prefix of its bytes and keeps the rest. *)
Lemma lags_shrink fg v v' d i c c' lo len src k :
  lags fg v d -> fg !! i = Some c -> fg_rest c = Some (lo, len, src) -> 0 <= k <= len ->
  agree v' (buf_put v lo src k) ->
  (fg_rest c' = None /\ k = len \/
   exists src', fg_rest c' = Some (lo + k, len - k, src') /\ forall j, src' j = src (k + j)) ->
  lags (<[i := c']> fg) v' d.
Proof.
  intros [Hr Hd] Hi Hc Hk Hv Hc'. split.
  - intros j e lo1 len1 src1 Hj Hrest y Hy. destruct (decide (i = j)) as [<-|Hne].
    + rewrite lookup_insert_eq in Hj. injection Hj as <-.
      destruct Hc' as [[Hn _]|(src' & Hs & Hsrc)]; [by rewrite Hn in Hrest|].
      rewrite Hs in Hrest. injection Hrest as <- <- <-. rewrite Hsrc.
      rewrite (Hr i c lo len src Hi Hc y) by lia. f_equal. lia.
    + rewrite lookup_insert_ne in Hj by done. by eapply Hr.
  - intros y Hdm Hy. rewrite (Hv y Hdm). destruct (decide (lo <= y < lo + k)) as [Hin|Hout].
    + rewrite buf_put_in by done. symmetry. eapply Hr; [done..|lia].
    + rewrite buf_put_out by done. apply Hd; [done|]. intros j e lo1 len1 src1 Hj Hrest.
      destruct (decide (i = j)) as [<-|Hne].
      * rewrite Hi in Hj. injection Hj as <-. rewrite Hc in Hrest. injection Hrest as <- <- <-.
        destruct Hc' as [[_ ->]|(src' & Hs & _)]; [done|].
        specialize (Hy i c' _ _ _ (lookup_insert_eq _ _ _) Hs). lia.
      * apply (Hy j e _ _ src1); [by rewrite lookup_insert_ne|done].
Qed.

Lemma fg_step_shrinks (sh sh' : shared S) now al c c' v :
  fg_step sh now al c = Some (sh', c') -> fg_wf c -> fg_fails c c' = false ->
  fg_rest c = None /\ c' = c /\ fg_label c c' = None \/
  exists lo len src k, fg_rest c = Some (lo, len, src) /\ 0 <= k <= len /\
    put_chunk v (fg_label c c') ≈ buf_put v lo src k /\
    (fg_rest c' = None /\ k = len \/
     exists src', fg_rest c' = Some (lo + k, len - k, src') /\ forall j, src' j = src (k + j)).
Proof.
  assert (Hsame : forall l e, fg_rest e = Some (wl_cur l, wl_remaining l, wl_src l) ->
    0 <= wl_remaining l -> exists lo len src k, Some (wl_cur l, wl_remaining l, wl_src l) =
      Some (lo, len, src) /\ 0 <= k <= len /\ v ≈ buf_put v lo src k /\
    (fg_rest e = None /\ k = len \/
     exists src', fg_rest e = Some (lo + k, len - k, src') /\ forall j, src' j = src (k + j))).
  { intros l e He Hl. do 3 eexists. exists 0. split; [done|]. split; [lia|].
    split; [intros y; by rewrite buf_put_out by lia|]. right. exists (wl_src l).
    by rewrite He, Z.add_0_r, Z.sub_0_r. }
  unfold fg_step. intros E Hw Hf. destruct c as [rc|baddr src size offset|l|l|t0 l|l|x l].
  - injection E as _ <-. by left.
  - right. destruct (io_direct_pwrite _ _ _ _ _) as [[w x] log]. injection E as _ <-.
    case_decide; [|done]. destruct Hw as (_ & Hw & _). do 3 eexists. exists size. split; [done|].
    split; [lia|]. split; [|by left]. cbn. unfold ck_off. cbn. by rewrite Z.add_0_r.
  - right. destruct Hw as (_ & Hw & _). destruct (0 <? wl_remaining l) eqn:El; injection E as _ <-.
    + by apply Hsame.
    + do 3 eexists. exists 0. split; [done|]. split; [lia|].
      split; [intros y; by rewrite buf_put_out by lia|]. left. split; [done|lia].
  - right. destruct Hw as [(_ & Hw & _) _]. destruct (watermark_wait_enter _) as [pass w].
    injection E as _ <-. destruct pass; by apply Hsame.
  - right. destruct Hw as [(_ & Hw & _) _]. destruct (watermark_must_sleep _); injection E as _ <-;
      by apply Hsame.
  - right. destruct Hw as [Hw Hp]. destruct (chunk_of_spec l Hw Hp) as (_ & Hoff & Hlen & Hsrc & El).
    destruct (wl_advance_spec l Hw Hp) as (Ec & Er & _). destruct (wl_chunk l) as [[b intra] len] eqn:Ek.
    destruct (scrap_write_chunk _ _ _ _ _ _) as [[s1 r]|]; [|done]. cbn [mbind option_bind] in E.
    destruct r as [| |a0]; injection E as _ <-.
    + do 3 eexists. exists (ck_len (chunk_of l)). split; [done|]. split; [lia|].
      split; [cbn [fg_label put_chunk]; by rewrite Hoff, Hsrc|]. right. eexists.
      cbn [fg_rest]. rewrite Ec, Er. split; [done|]. intros j. unfold wl_advance. cbn [wl_src].
      by rewrite El, Ek.
    + done.
    + destruct Hw as (_ & Hw & _). by apply Hsame.
  - right. destruct Hw as [(_ & Hw & _) _]. destruct (wl_chunk l) as [[b intra] len].
    destruct (page_index_detach_if _ _ _ _) as [[[r h] ix]|]; [|done].
    cbn [mbind option_bind] in E. injection E as _ <-. by apply Hsame.
Qed.

Lemma lags_view fg v v' d : lags fg v d -> agree v' v -> lags fg v' d.
Proof. intros [Hr Hd] Hv. split; [done|]. intros y Hdm Hy. rewrite (Hv y Hdm). by apply Hd. Qed.

(** A call that fails leaves the rest of its range to the damage. *)
Lemma lags_drop fg v d i c rc lo len src :
  lags fg v d -> fg !! i = Some c -> fg_rest c = Some (lo, len, src) ->
  (forall y, lo <= y < lo + len -> damaged y) -> lags (<[i := FgIdle rc]> fg) v d.
Proof.
  intros [Hr Hd] Hi Hc Hrange. split.
  - intros j e lo1 len1 src1 Hj Hrest. destruct (decide (i = j)) as [<-|Hne].
    + rewrite lookup_insert_eq in Hj. by injection Hj as <-.
    + rewrite lookup_insert_ne in Hj by done. by eapply Hr.
  - intros y Hdm Hy. apply Hd; [done|]. intros j e lo1 len1 src1 Hj Hrest.
    destruct (decide (i = j)) as [<-|Hne].
    + rewrite Hi in Hj. injection Hj as <-. rewrite Hc in Hrest. injection Hrest as <- <- <-.
      intros Hx. by apply Hdm, Hrange.
    + apply (Hy j e _ _ src1); [by rewrite lookup_insert_ne|done].
Qed.

Lemma fg_fails_label c c' : fg_fails c c' = true -> (exists rc, c' = FgIdle rc) /\ fg_label c c' = None.
Proof.
  destruct c, c' as [[| |]| | | | | | ]; cbn; intros Hf; try done; split; try done; by eexists.
Qed.

Lemma pinv_run a cs a' : pipe_run a cs a' -> pinv a -> pinv a'.
Proof. intros Hr Hi. by destruct (pipe_run_spec _ _ _ Hr Hi). Qed.

Lemma put_chunks_option v (l : option chunk) : put_chunks v (option_list l) = put_chunk v l.
Proof. by destruct l. Qed.

Lemma lags_step s l s' a a' d :
  sys_step s l s' -> sim s a -> contained s s' -> lags (y_fg s) (view a) d ->
  pipe_run a (accepted (option_list l)) a' ->
  lags (y_fg s') (view a') (put_calls d (option_list l)).
Proof.
  intros Hs Hsim (_ & _ & Hct') Hl Hr.
  assert (Hct : forall i c c', y_fg s !! i = Some c -> y_fg s' !! i = Some c' -> fail_contained c c')
    by (intros i c c' H2 H3; apply (Hct' i c c' H2 H3)). pose proof (si_inv _ _ Hsim) as Hinv.
  destruct (pipe_run_spec _ _ _ Hr Hinv) as [_ Hv]. pose proof (si_fg _ _ Hsim) as [_ Hwf _].
  destruct Hs as [sh t1 t2 fg failed i rc baddr src size offset sh' c Hi Hok E
    |sh t1 t2 fg failed i c now al sh' c' Hi Hok E|sh t1 t2 fg failed sh' t1' E
    |sh t1 t2 fg failed sh' t2' E]; cbn [y_failed y_fg] in *.
  - eapply lags_view; [|exact Hv]. by eapply lags_call.
  - rewrite accepted_put, put_chunks_option in Hv.
    assert (put_calls d (option_list (EPut <$> fg_label c c')) = d) as ->
      by (by destruct (fg_label c c')).
    destruct (fg_fails c c') eqn:Hf.
    + pose proof (Hct i c c' Hi (lookup_insert_eq _ _ _) Hf) as Hrange.
      destruct (fg_fails_label _ _ Hf) as [[rc ->] Hn]. rewrite Hn in Hv.
      destruct Hrange as [Hrange _]. rewrite fg_range_rest in Hrange.
      destruct (fg_rest c) as [[[lo len] src]|] eqn:Hc; [|by destruct c].
      eapply lags_drop; [by eapply lags_view|done..|]. by apply (Hrange lo len).
    + destruct (fg_step_shrinks _ _ _ _ _ _ (view a) E (Hwf _ _ Hi) Hf)
        as [(_ & -> & Hn)|(lo & len & src & k & Hc & Hk & Hp & Hc')].
      * rewrite Hn in Hv. rewrite insert_id by done. by eapply lags_view.
      * eapply lags_shrink; [done..| |exact Hc']. rewrite Hv. by apply agree_eq.
  - by eapply lags_view.
  - by eapply lags_view.
Qed.

(** A run every transition of which is contained. *)
Inductive run_in : sys S -> list event -> sys S -> Prop :=
| ri_refl s : run_in s [] s
| ri_step s es s1 l s2 :
    run_in s es s1 -> sys_step s1 l s2 -> contained s1 s2 -> run_in s (es ++ option_list l) s2.

Lemma losing_in s es ls s' : losing_run s es ls s' -> counted ls -> run_in s es s'.
Proof.
  intros Hr. induction Hr as [s|s es ls s1 l s2 Hr IH Hs]; rewrite ?counted_app; [constructor|].
  intros [C1 C2]. econstructor; [by apply IH|exact Hs|by apply loss_contained].
Qed.

Lemma sim_history_in s es s' a d :
  run_in s es s' -> sim s a -> lags (y_fg s) (view a) d ->
  exists a', pipe_run a (accepted es) a' /\ sim s' a' /\
    lags (y_fg s') (view a') (put_calls d es).
Proof.
  intros Hr Hsim Hl. induction Hr as [s|s es s1 l s2 Hr IH Hs Hct].
  - exists a. split; [constructor|done].
  - destruct (IH Hsim Hl) as (a1 & Hr1 & Hs1 & Hl1).
    destruct (sim_step_in _ _ _ _ Hs Hs1 Hct) as (a2 & Hr2 & Hs2).
    exists a2. rewrite accepted_app. split; [by eapply pipe_run_app|]. split; [done|].
    unfold put_calls in *. rewrite foldl_app. by eapply lags_step.
Qed.

Lemma idle_sim (callers : gset nat) (f : buf) :
  fg_sim (gset_to_gmap (FgIdle 0) callers) ∅ /\ lags (gset_to_gmap (FgIdle 0) callers) f f.
Proof.
  assert (Hidle : forall i c, gset_to_gmap (FgIdle 0) callers !! i = Some c -> c = FgIdle 0).
  { intros i c. rewrite lookup_gset_to_gmap_Some. naive_solver. }
  split; split; try done.
  - intros i. rewrite lookup_empty.
    destruct (gset_to_gmap _ _ !! i) as [c|] eqn:Ei; [|done]. by rewrite (Hidle _ _ Ei).
  - intros i c Hi. by rewrite (Hidle _ _ Hi).
  - intros i j c c' _ Hi _. by rewrite (Hidle _ _ Hi).
  - intros i c lo len src Hi. by rewrite (Hidle _ _ Hi).
Qed.

(** The engine as it opens, even when Stage-1 got no scratch zone and has left. *)
Lemma open_sim e high low w st x junk callers s :
  engine_open e high low w st x junk callers = Some s -> g_live w = 0 -> stats_wf st ->
  sim s (pipe_initial (file_byte x)) /\ lags (y_fg s) (file_byte x) (file_byte x).
Proof.
  intros E Hw Hst. unfold engine_open in E. rewrite open_spec in E.
  destruct (open_ok e); [|done]. unfold nox_watermark_arm in E.
  destruct (low <? high); [|done]. cbn [mbind option_bind] in E. unfold stage1_start in E.
  destruct (idle_sim callers (file_byte x)) as [Hfg Hl].
  destruct (posix_memalign _ _ _) as [saddr|]; apply (inj Some) in E as <-; (split; [|exact Hl]);
    (split; cbn [y_sh y_s1 y_s2 y_fg y_failed]; [apply pipe_initial_inv| | |exact Hfg]).
  1, 3: split; try done; cbn; apply create_rep.
  all: split; try done; apply wb_initial_rep.
Qed.

Lemma run_in_sim s es s' a :
  run_in s es s' -> sim s a -> exists a', pipe_run a (accepted es) a' /\ sim s' a'.
Proof.
  intros Hr Hsim. induction Hr as [s|s es s1 l s2 Hr IH Hs Hct].
  - exists a. split; [constructor|done].
  - destruct (IH Hsim) as (a1 & Hr1 & Hs1).
    destruct (sim_step_in _ _ _ _ Hs Hs1 Hct) as (a2 & Hr2 & Hs2).
    exists a2. rewrite accepted_app. split; [by eapply pipe_run_app|done].
Qed.

(** * Drained states *)

(** Nothing pending: the pipeline is empty, and the pages left are pages given up. *)
Lemma drained_sim s a :
  sim s a -> pending (sh_ot (y_sh s)) = 0 ->
  ord a = [] /\ s1_freed (s1_at (y_s1 s)) = 0 /\ s2_freed (y_s2 s) = 0 /\
  (forall e p, sh_heap (y_sh s) !! e = Some p -> gives_up (base p) /\ in_queue p = false) /\
  file_byte (sh_os (y_sh s)) ≈ view a.
Proof.
  intros [Hinv Hc Hb _] Hp. pose proof (bs_pending _ _ _ _ Hb) as Hn. rewrite Hp in Hn.
  assert (0 <= s1_freed (s1_at (y_s1 s)) /\ 0 <= s2_freed (y_s2 s)) as [F1 F2]
    by (by destruct (s1_at (y_s1 s)), (y_s2 s)).
  assert (ord a = []) as Ho by (destruct (ord a); [done|cbn in Hn; lia]). split; [done|].
  rewrite Ho in Hn. cbn in Hn. split_and!; [lia..| |].
  - intros e p He. pose proof (strip_lookup_2 _ _ _ _ (co_pg _ _ _ _ _ _ Hc) He) as He'.
    destruct (pi_out _ Hinv _ _ He') as (Hg & _ & Hq); [rewrite Ho; apply not_elem_of_nil|done].
  - unfold view. rewrite Ho. apply (co_disk _ _ _ _ _ _ Hc).
Qed.

(** Every state reached is related to a pipeline that counts its losses. *)
Lemma losing_sim x es ls s :
  engine_losing x es ls s -> counted ls ->
  exists a, pipe_run (pipe_initial (file_byte x)) (accepted es) a /\ sim s a /\
    lags (y_fg s) (view a) (put_calls (file_byte x) es).
Proof.
  intros (e & high & low & w & st & junk & callers & s0 & Ho & Hw & Hst & Hr) Hd.
  destruct (open_sim _ _ _ _ _ _ _ _ _ Ho Hw Hst) as [Hs0 Hl0].
  exact (sim_history_in _ _ _ _ _ (losing_in _ _ _ _ Hr Hd) Hs0 Hl0).
Qed.

Lemma drain_pending o rc : 0 <= pending o -> otflush_drain o = Some rc -> pending o = 0.
Proof. unfold otflush_drain. intros Hp. destruct (0 <? _) eqn:E; [done|lia]. Qed.

Lemma sim_pending s a : sim s a -> 0 <= pending (sh_ot (y_sh s)).
Proof.
  intros Hs. rewrite (bs_pending _ _ _ _ (si_bg _ _ Hs)).
  destruct (s1_at (y_s1 s)), (y_s2 s); cbn; lia.
Qed.

(** Once nothing is pending and no call is in progress, the file is the history, damage apart. *)
Lemma settled_file s a (d : buf) :
  sim s a -> lags (y_fg s) (view a) d ->
  (forall i c, y_fg s !! i = Some c -> exists rc, c = FgIdle rc) ->
  is_Some (otflush_drain (sh_ot (y_sh s))) ->
  (forall e p, sh_heap (y_sh s) !! e = Some p -> gives_up (base p) /\ in_queue p = false) /\
  agree (file_byte (sh_os (y_sh s))) d.
Proof.
  intros Hs Hl Hidle [rc0 Hd]. pose proof (drain_pending _ _ (sim_pending _ _ Hs) Hd) as Hp.
  destruct (drained_sim _ _ Hs Hp) as (_ & _ & _ & Hh & Hf). split; [done|]. intros y Hdm.
  rewrite (Hf y). apply (lg_done _ _ _ Hl); [done|]. intros i c lo len src Hi Hc.
  by destruct (Hidle i c Hi) as [rc ->].
Qed.

(** The transitions of every thread are defined in a state related to a pipeline. *)
Lemma sim_safe s a :
  sim s a ->
  is_Some (stage1_step (y_sh s) (y_s1 s)) /\ is_Some (stage2_step (y_sh s) (y_s2 s)) /\
  forall i c now al, y_fg s !! i = Some c -> fg_ok s c al -> is_Some (fg_step (y_sh s) now al c).
Proof.
  intros Hs. destruct s as [sh t1 t2 fg failed]. cbn [y_sh y_s1 y_s2 y_fg].
  destruct (sim_stage1 _ _ _ _ _ _ Hs) as (? & ? & E1 & _).
  destruct (sim_stage2 _ _ _ _ _ _ Hs) as (? & ? & E2 & _).
  split_and!; [by rewrite E1|by rewrite E2|]. intros i c now al Hi Hok.
  destruct (sim_fg sh t1 t2 fg failed a i now al c Hs Hi Hok) as (? & ? & -> & _). by eexists.
Qed.

End Contained.

Lemma counted_self ls : counted (dmg := losses ls) ls.
Proof. split; auto. Qed.

Lemma counted_all ls : counted (dmg := all_damage) ls.
Proof. split; done. Qed.

Lemma counted_write_damage ls : keeps_pages ls = true -> counted (dmg := write_damage) ls.
Proof. intros Hk. split; [done|]. intros b Hb. by apply (keeps_pages_true _ Hk b). Qed.

(** Any state the engine reaches is related to a pipeline. *)
Lemma engine_sim_all `{NoxConfig} {S : Type} `{PosixLaws S} (x : S) es (s : sys S) :
  engine_run x es s -> exists a, sim (dmg := all_damage) s a.
Proof.
  intros [ls Hl]%engine_loses.
  destruct (losing_sim (dmg := all_damage) x es ls s Hl (counted_all ls)) as (a & _ & Hs & _). by exists a.
Qed.

(** * A sample *)

(** The sample engine on a disk that refuses a direct write, then the hole read of one page and
    the gather write of the other. *)
Module FaultSample.
Import Sample.

Definition flaky : mem_file :=
  mk_file (bytes xee) (2 * NOX_DATAZONE_SIZE) [Fail EIO; Fail EIO; Full; Fail EIO].

Definition start : option (sys mem_file) :=
  engine_open all_ok NOX_WATERMARK_HIGH (NOX_WATERMARK_LOW NOX_WATERMARK_HIGH) wm_initial
    stats_zero flaky (bytes x00) {[0%nat; 1%nat]}.

Definition spoiled_calls : list move :=
  [MCall 0 4096 (bytes x44) 1048576 1048576; MFg 0 0 (from 1%positive)] ++ busy_calls.

Definition outcome (ms : list move) : option (sys mem_file * list event * list loss) :=
  s ← start; run_losing s ms.

Lemma reached_losing (test : sys mem_file -> list event -> list loss -> bool) ms :
  match outcome ms with Some (s, es, rs) => test s es rs | None => false end = true ->
  exists s es rs, engine_losing flaky es rs s /\ test s es rs = true.
Proof.
  unfold outcome. destruct start as [s0|] eqn:E0; [|done]. cbn [mbind option_bind].
  destruct (run_losing s0 ms) as [[[s es] rs]|] eqn:E; [|done]. intros Ht. exists s, es, rs.
  split; [|done]. apply run_losing_ok in E. unfold start in E0. do 8 eexists.
  split; [exact E0|]. split; [reflexivity|]. split; [|exact E]. repeat split.
Qed.

(** The sample engine on the file that refuses nothing. *)
Lemma sample_losing (test : sys mem_file -> list event -> list loss -> bool) ms :
  match (s ← Sample.start; run_losing s ms) with
  | Some (s, es, rs) => test s es rs | None => false
  end = true ->
  exists s es rs, engine_losing file es rs s /\ test s es rs = true.
Proof.
  destruct Sample.start as [s0|] eqn:E0; [|done]. cbn [mbind option_bind].
  destruct (run_losing s0 ms) as [[[s es] rs]|] eqn:E; [|done]. intros Ht. exists s, es, rs.
  split; [|done]. apply run_losing_ok in E. unfold Sample.start in E0. do 8 eexists.
  split; [exact E0|]. split; [reflexivity|]. split; [|exact E]. repeat split.
Qed.

(** Then a call for which there is no memory, one that succeeds, and the stages run until nothing
    is pending. *)
Definition drained_spoiled : list move :=
  let stages := replicate 30 MStage1 ++ replicate 60 MStage2 in
  spoiled_calls ++ stages ++ stages ++
  [MCall 0 8 (bytes x66) 10 786432; MFg 0 0 (from 5%positive); MFg 0 0 (from 5%positive);
   MFg 0 0 (mk_alloc 5%positive false None)] ++
  [MCall 1 8 (bytes x55) 10 524288] ++ one_chunk 1 5%positive ++ [MFg 1 0 (from 6%positive)] ++
  stages ++ stages.

End FaultSample.
