(* ===== verification/Apart.v ===== *)
(** When the order of bytes cannot be lost. The engine keeps no order between a direct write and
    the pages that are live under it, and a caller that retries after sealing a page unlinks by
    a pointer whose address may have been allocated again. Here: calls that keep apart, and a
    single caller, never meet either. *)
From stdpp Require Import base numbers list gmap sets.
From Corelib Require Import Init.Byte.
From S2P Require Import Prelude Config Segments IoDirect Watermark ScrapPage Heap Queue.
From S2P Require Import PageIndex Stats Otflush Engine Pipeline System Schedule Simulation.
From S2P Require Import SimFlush SimWrite Faults.

(** * Calls that keep apart *)

(** The bases of the pages a call uses. *)
Definition call_bases (e : event) : list Z :=
  match e with
  | ECall _ size offset =>
      match nox_write_route size offset with
      | RouteScrap =>
          let k := offset / NOX_DATAZONE_SIZE in
          (fun j => j * NOX_DATAZONE_SIZE) <$>
            seqZ k ((offset + size - 1) / NOX_DATAZONE_SIZE - k + 1)
      | _ => []
      end
  | EPut _ => []
  end.

(** The range of a direct call. *)
Definition call_direct (e : event) : option (Z * Z) :=
  match e with
  | ECall _ size offset =>
      match nox_write_route size offset with RouteDirect => Some (offset, size) | _ => None end
  | EPut _ => None
  end.

(** No two pages of the calls share a bucket of the index, and no direct call meets one. *)
Definition calls_apart (es : list event) : Prop :=
  Forall (fun b => Forall (fun b' => bucket_of b = bucket_of b' -> b = b') (es ≫= call_bases))
    (es ≫= call_bases) /\
  Forall (fun b => Forall (fun r => r.1 + r.2 <= b \/ b + NOX_DATAZONE_SIZE <= r.1)
    (omap call_direct es)) (es ≫= call_bases).

#[export] Instance calls_apart_dec es : Decision (calls_apart es).
Proof. apply _. Defined.

Lemma events_bases_app es es' b :
  b ∈ (es ++ es') ≫= call_bases <-> b ∈ es ≫= call_bases \/ b ∈ es' ≫= call_bases.
Proof. by rewrite bind_app, elem_of_app. Qed.

Lemma direct_app es es' r :
  r ∈ omap call_direct (es ++ es') <-> r ∈ omap call_direct es \/ r ∈ omap call_direct es'.
Proof. by rewrite omap_app, elem_of_app. Qed.

Lemma calls_apart_app es es' : calls_apart (es ++ es') -> calls_apart es.
Proof.
  unfold calls_apart. rewrite !Forall_forall. setoid_rewrite Forall_forall.
  intros [Hb Hd]. split; intros b Hin.
  - intros b' Hin'. apply Hb; apply events_bases_app; auto.
  - intros r Hr. apply Hd; [apply events_bases_app|apply direct_app]; auto.
Qed.

Lemma call_bases_in src size offset y :
  nox_write_route size offset = RouteScrap -> range_ok offset size ->
  offset <= y < offset + size -> NOX_PAGE_BASE y ∈ call_bases (ECall src size offset).
Proof.
  intros Hr (Ho & Hs & He) Hy. cbn. rewrite Hr. apply list_elem_of_fmap.
  exists (y / NOX_DATAZONE_SIZE). split.
  - rewrite NOX_PAGE_BASE_eq by sz. pose proof (Z.div_mod y NOX_DATAZONE_SIZE ltac:(sz)). lia.
  - apply elem_of_seqZ.
    pose proof (Z.div_le_mono offset y NOX_DATAZONE_SIZE ltac:(sz) ltac:(lia)).
    pose proof (Z.div_le_mono y (offset + size - 1) NOX_DATAZONE_SIZE ltac:(sz) ltac:(lia)). lia.
Qed.

(** The buckets of the first pages of a file are different, up to 152 MB. *)
Definition APART_PAGES : Z := 610.

Lemma low_buckets_distinct :
  NoDup ((fun k => pi_hash (k * NOX_DATAZONE_SIZE)) <$> seqZ 0 APART_PAGES).
Proof. apply (bool_decide_unpack _). vm_compute. exact I. Qed.

Lemma low_pages_apart i j :
  0 <= i < APART_PAGES -> 0 <= j < APART_PAGES ->
  bucket_of (i * NOX_DATAZONE_SIZE) = bucket_of (j * NOX_DATAZONE_SIZE) -> i = j.
Proof.
  intros Hi Hj E. unfold bucket_of in E.
  pose proof (pi_hash_range (i * NOX_DATAZONE_SIZE)) as Ri.
  pose proof (pi_hash_range (j * NOX_DATAZONE_SIZE)) as Rj.
  assert (Hk : forall k, 0 <= k < APART_PAGES ->
    ((fun k => pi_hash (k * NOX_DATAZONE_SIZE)) <$> seqZ 0 APART_PAGES) !! Z.to_nat k =
      Some (pi_hash (k * NOX_DATAZONE_SIZE))).
  { intros k Hk. rewrite list_lookup_fmap, lookup_seqZ_lt by lia. cbn. do 3 f_equal. lia. }
  assert (Z.to_nat i = Z.to_nat j); [|lia].
  eapply NoDup_lookup; [exact low_buckets_distinct|exact (Hk i Hi)|]. rewrite (Hk j Hj). f_equal. lia.
Qed.

(** * States that lose no order *)

Section Apart.
Context `{NoxConfig} {S : Type} `{PosixLaws S}.

(** No caller is about to write directly over a live page, or to unlink a page of another base. *)
Definition order_kept (s : sys S) : Prop :=
  (forall i baddr src size offset a p, y_fg s !! i = Some (FgDirect baddr src size offset) ->
     sh_heap (y_sh s) !! a = Some p ->
     offset + size <= base p \/ base p + NOX_DATAZONE_SIZE <= offset) /\
  forall i a l p, y_fg s !! i = Some (FgDetach a l) -> sh_heap (y_sh s) !! a = Some p ->
    bucket_of (base p) = bucket_of (ck_base (chunk_of l)) -> base p = ck_base (chunk_of l).

Lemma kept_order_loss {dmg : Damage} (s : sys S) a i c c' :
  sim s a -> order_kept s -> y_fg s !! i = Some c -> order_loss (y_sh s) c c' = [].
Proof.
  intros Hs [Hd Hdet] Hi. pose proof (si_core _ _ Hs) as Hc.
  assert (Hst : stale_detach (y_sh s) c c' = None).
  { destruct c as [| | | | | |x l]; try done. destruct c' as [| | |l'| | | ]; try done.
    cbn [stale_detach].
    destruct (core_detach (y_sh s) _ _ _ _ _ (ck_base (chunk_of l)) x Hc) as (r & h & j & E & Hr).
    rewrite E. destruct r; [|done]. destruct Hr as (b' & Hb' & Hbk & _).
    destruct (heap_base _ _ _ _ _ _ _ _ Hc Hb') as (q & Hq & <-). rewrite Hq. cbn.
    rewrite (Hdet i x l q Hi Hq Hbk). by rewrite Z.eqb_refl. }
  unfold order_loss. rewrite Hst. destruct c as [|baddr src size offset| | | | | ]; try done.
  destruct c' as [[| |]| | | | | | ]; try done.
  assert (Hall : forall e, e ∈ map_to_list (sh_heap (y_sh s)) -> overlap offset size e.2 = None).
  { intros [e p] Hp%elem_of_map_to_list. cbn. unfold overlap.
    destruct (Hd i _ _ _ _ e p Hi Hp); destruct (_ <? _) eqn:E; [lia|done|lia|done]. }
  induction (map_to_list _) as [|e m IH]; [done|]. cbn. rewrite Hall by left.
  apply IH. intros e' He'. apply Hall. by right.
Qed.

Definition loud (l : loss) : bool := negb (silent l).

Lemma s1_loss_loud c c' : forallb loud (s1_loss c c') = true.
Proof. unfold s1_loss. destruct c as [| | | | | | | | | |x b [|]| | | | ]; try done. by destruct c'. Qed.

Lemma s2_loss_loud (sh : shared S) t t' : forallb loud (s2_loss sh t t') = true.
Proof.
  unfold s2_loss. destruct t as [| | | | | | | | | |batch| | | | | | ]; try done.
  destruct t' as [| | | | | | | | | | |b [|]| | | | | ]; try done.
  apply forallb_forall. intros l (e & _ & He)%list_elem_of_In%list_elem_of_omap.
  destruct (sh_heap sh !! e); by inversion He.
Qed.

(** The two stages lose nothing but to errors. *)
Lemma still_loss_loud (s s' : sys S) : y_fg s' = y_fg s -> forallb loud (step_loss s s') = true.
Proof.
  intros E. rewrite same_callers_loss by done. by rewrite forallb_app, s1_loss_loud, s2_loss_loud.
Qed.

Lemma kept_step_loss {dmg : Damage} (s s' : sys S) a :
  sim s a -> order_kept s -> forallb loud (step_loss s s') = true.
Proof.
  intros Hs Hk. unfold step_loss. rewrite !forallb_app. apply andb_true_iff. split.
  { apply s1_loss_loud. }
  apply andb_true_iff. split; [apply s2_loss_loud|].
  apply forallb_forall. intros l ([i c] & Hl & Hi)%list_elem_of_In%list_elem_of_bind.
  apply elem_of_map_to_list in Hi. unfold fg_loss in Hl.
  rewrite (kept_order_loss s a i c _ Hs Hk Hi), app_nil_r in Hl. unfold fail_loss in Hl.
  destruct (fg_fails _ _); [|by apply not_elem_of_nil in Hl].
  apply elem_of_app in Hl as [Hl|Hl].
  - destruct (fg_range c) as [[lo len]|]; [|by apply not_elem_of_nil in Hl].
    by apply list_elem_of_singleton in Hl as ->.
  - destruct c; try by apply not_elem_of_nil in Hl. by apply list_elem_of_singleton in Hl as ->.
Qed.

(** * A call only shrinks *)

Lemma fg_step_within (sh sh' : shared S) now al c c' :
  fg_step sh now al c = Some (sh', c') -> fg_wf c ->
  fg_wf c' /\ range_within (fg_range c') (fg_range c).
Proof.
  unfold fg_step. intros E Hw. destruct c as [rc|baddr src size offset|l|l|t0 l|l|x l].
  - injection E as _ <-. done.
  - destruct (io_direct_pwrite _ _ _ _ _) as [[w x] log]. by injection E as _ <-.
  - destruct (0 <? wl_remaining l) eqn:El; injection E as _ <-; [|done]. cbn. split; [split; [done|lia]|lia].
  - destruct (watermark_wait_enter _) as [pass w]. injection E as _ <-.
    destruct pass; (split; [done|cbn; lia]).
  - destruct (watermark_must_sleep _); injection E as _ <-; (split; [done|cbn; lia]).
  - destruct Hw as [Hw Hp]. destruct (chunk_of_spec l Hw Hp) as (_ & _ & Hlen & _).
    destruct (wl_advance_spec l Hw Hp) as (Ec & Er & Hok). destruct (wl_chunk l) as [[b intra] len].
    bind_step E. match goal with r : chunk_out |- _ => destruct r end; injection E as _ <-;
      cbn [fg_wf fg_range range_within].
    + split; [done|]. rewrite Ec, Er. lia.
    + done.
    + split; [done|lia].
  - destruct (wl_chunk l) as [[b intra] len]. bind_step E. injection E as _ <-.
    split; [done|cbn; lia].
Qed.

(** The loop of a caller on the scrap path. *)
Definition fg_loop (c : fg_ctl) : option write_loop :=
  match c with
  | FgIdle _ | FgDirect _ _ _ _ => None
  | FgLoop l | FgGate l | FgAsleep _ l | FgLookup l | FgDetach _ l => Some l
  end.

Definition is_direct (c : fg_ctl) : bool := match c with FgDirect _ _ _ _ => true | _ => false end.

Lemma fg_step_loop (sh sh' : shared S) now al c c' :
  fg_step sh now al c = Some (sh', c') ->
  is_direct c' = false /\ (is_Some (fg_loop c') -> is_Some (fg_loop c)).
Proof.
  unfold fg_step. intros E. destruct c as [rc|baddr src size offset|l|l|t0 l|l|x l].
  - by injection E as _ <-.
  - destruct (io_direct_pwrite _ _ _ _ _) as [[w x] log]. by injection E as _ <-.
  - injection E as _ <-. by destruct (0 <? wl_remaining l).
  - destruct (watermark_wait_enter _) as [pass w]. injection E as _ <-. by destruct pass.
  - by destruct (watermark_must_sleep _); injection E as _ <-.
  - destruct (wl_chunk l) as [[b intra] len]. bind_step E.
    by match goal with r : chunk_out |- _ => destruct r end; injection E as _ <-.
  - destruct (wl_chunk l) as [[b intra] len]. bind_step E. by injection E as _ <-.
Qed.

Lemma loop_range c l : fg_loop c = Some l -> fg_range c = Some (wl_cur l, wl_remaining l).
Proof. by destruct c; try done; intros [= ->]. Qed.

Lemma chunk_base l : ck_base (chunk_of l) = NOX_PAGE_BASE (wl_cur l).
Proof. done. Qed.

(** * Where the pages come from *)

(** The pages that are live, and the pages and ranges callers are about, are those of the calls. *)
Record tracked (es : list event) (s : sys S) : Prop := {
  tr_heap : forall a p, sh_heap (y_sh s) !! a = Some p -> base p ∈ es ≫= call_bases;
  tr_loop : forall i c l, y_fg s !! i = Some c -> fg_loop c = Some l ->
    forall y, wl_cur l <= y < wl_cur l + wl_remaining l -> NOX_PAGE_BASE y ∈ es ≫= call_bases;
  tr_direct : forall i baddr src size offset,
    y_fg s !! i = Some (FgDirect baddr src size offset) -> (offset, size) ∈ omap call_direct es
}.

Lemma tracked_kept {dmg : Damage} es s a : sim s a -> tracked es s -> calls_apart es -> order_kept s.
Proof.
  intros Hs [Hh Hl Hd] [Hb Hr]. rewrite !Forall_forall in *. setoid_rewrite Forall_forall in Hb.
  setoid_rewrite Forall_forall in Hr. split.
  - intros i baddr src size offset e p Hi Hp. apply (Hr (base p) (Hh e p Hp) (offset, size)).
    by eapply Hd.
  - intros i e l p Hi Hp Hbk. apply Hb; [by eapply Hh| |done]. rewrite chunk_base.
    apply (Hl i _ l Hi eq_refl). destruct (fs_wf _ _ (si_fg _ _ Hs) _ _ Hi) as [_ Hpos]. lia.
Qed.

(** A live page was live before with its base, or has the base of a caller's chunk. *)
Lemma step_page_base {dmg : Damage} s l s' a e p :
  sim s a -> sys_step s l s' -> contained s s' -> sh_heap (y_sh s') !! e = Some p ->
  (exists q, sh_heap (y_sh s) !! e = Some q /\ base q = base p) \/
  sh_heap (y_sh s) !! e = None /\
  exists i c k, y_fg s !! i = Some c /\ fg_flight c = Some (k, FLook) /\ ck_base k = base p.
Proof.
  intros Hs Hst Hct Hp. destruct (sim_step_move _ _ _ _ Hst Hs Hct) as (a' & Hm & Hs').
  assert (Hb : page_base (pg a') e = Some (base p)).
  { unfold page_base. by rewrite (strip_lookup_2 _ _ _ _ (co_pg _ _ _ _ _ _ (si_core _ _ Hs')) Hp). }
  destruct (one_move_bases _ _ _ _ _ (si_inv _ _ Hs) Hm Hb) as [Hb'|(Hn & i & k & Hi & Hk)].
  - left. by apply (heap_base _ _ _ _ _ _ _ _ (si_core _ _ Hs)).
  - right. split.
    + pose proof (co_pg _ _ _ _ _ _ (si_core _ _ Hs)) as Hpg. rewrite <- Hpg, lookup_fmap in Hn.
      by apply fmap_None in Hn.
    + rewrite (fs_fl _ _ (si_fg _ _ Hs)) in Hi. destruct (y_fg s !! i) as [c|] eqn:Ei; [|done].
      by exists i, c, k.
Qed.

Lemma flight_loop c k ph : fg_flight c = Some (k, ph) -> exists l, fg_loop c = Some l /\ k = chunk_of l.
Proof. destruct c; try done; cbn; intros [= <- _]; eauto. Qed.

Lemma flight_positive {dmg : Damage} (s : sys S) a i c k ph :
  sim s a -> y_fg s !! i = Some c -> fg_flight c = Some (k, ph) ->
  exists l, fg_loop c = Some l /\ k = chunk_of l /\ 0 < wl_remaining l.
Proof.
  intros Hs Hi Hf. pose proof (fs_wf _ _ (si_fg _ _ Hs) _ _ Hi) as Hw.
  destruct c; try done; cbn in Hf; injection Hf as <- _; eexists; split_and!; try done; by destruct Hw.
Qed.

Lemma tracked_step {dmg : Damage} es s l s' a :
  sim s a -> sys_step s l s' -> contained s s' -> tracked es s -> tracked (es ++ option_list l) s'.
Proof.
  intros Hs Hst Hct Ht. split.
  - intros e p Hp. apply events_bases_app. left.
    destruct (step_page_base _ _ _ _ _ _ Hs Hst Hct Hp) as [(q & Hq & <-)|(_ & i & c & k & Hi & Hf & <-)].
    + by eapply tr_heap.
    + destruct (flight_positive _ _ _ _ _ _ Hs Hi Hf) as (wl & Hl & -> & Hpos). rewrite chunk_base.
      eapply (tr_loop _ _ Ht); [done..|lia].
  - intros j c wl Hj Hl y Hy. apply events_bases_app.
    destruct Hst as [sh t1 t2 fg failed i rc baddr src size offset sh' c' Hi Hok E
      |sh t1 t2 fg failed i c0 now al sh' c' Hi Hok E|sh t1 t2 fg failed sh' t1' E
      |sh t1 t2 fg failed sh' t2' E]; cbn [y_fg] in *;
      [| |left; by eapply (tr_loop _ _ Ht)|left; by eapply (tr_loop _ _ Ht)].
    + rewrite lookup_insert in Hj. case_decide; [|left; by eapply (tr_loop _ _ Ht)].
      injection Hj as ->. right.
      unfold nox_write in E. destruct (nox_write_route size offset) eqn:Er; injection E as _ <-; try done.
      injection Hl as <-. apply list_elem_of_bind. eexists.
      split; [exact (call_bases_in src size offset y Er (proj1 Hok) Hy)|left].
    + left. rewrite lookup_insert in Hj. case_decide; [|by eapply (tr_loop _ _ Ht)]. injection Hj as ->.
      destruct (fg_step_loop _ _ _ _ _ _ E) as [_ [wl0 Hl0]]; [by eexists|].
      destruct (fg_step_within _ _ _ _ _ _ E (fs_wf _ _ (si_fg _ _ Hs) _ _ Hi)) as [_ Hw].
      rewrite (loop_range _ _ Hl), (loop_range _ _ Hl0) in Hw. cbn in Hw.
      eapply (tr_loop _ _ Ht); [exact Hi|exact Hl0|lia].
  - intros j ba sr sz0 off Hj. apply direct_app.
    destruct Hst as [sh t1 t2 fg failed i rc baddr src size offset sh' c' Hi Hok E
      |sh t1 t2 fg failed i c0 now al sh' c' Hi Hok E|sh t1 t2 fg failed sh' t1' E
      |sh t1 t2 fg failed sh' t2' E]; cbn [y_fg] in *;
      [| |left; by eapply (tr_direct _ _ Ht)|left; by eapply (tr_direct _ _ Ht)].
    + rewrite lookup_insert in Hj. case_decide; [|left; by eapply (tr_direct _ _ Ht)].
      injection Hj as ->. right. unfold nox_write in E. cbn [option_list omap list_omap call_direct].
      destruct (nox_write_route size offset) eqn:Er; try (by injection E). injection E as _ _ _ -> ->.
      apply list_elem_of_omap. eexists. split; [left|]. cbn. by rewrite Er.
    + left. rewrite lookup_insert in Hj. case_decide; [|by eapply (tr_direct _ _ Ht)]. injection Hj as ->.
      by destruct (fg_step_loop _ _ _ _ _ _ E).
Qed.

(** * Runs *)

Lemma tracked_run s0 es ls s a0 :
  losing_run s0 es ls s -> sim (dmg := all_damage) s0 a0 -> tracked [] s0 -> calls_apart es ->
  forallb loud ls = true /\ tracked es s /\ exists a, sim (dmg := all_damage) s a.
Proof.
  intros Hr Hs0 Ht0. induction Hr as [s|s es ls s1 l s2 Hr IH Hst]; intros Hap; [by eauto|].
  destruct (IH Hs0 Ht0 (calls_apart_app _ _ Hap)) as (Hl & Ht & a & Hs).
  pose proof (loss_contained (dmg := all_damage) s1 s2 (counted_all _)) as Hct.
  rewrite forallb_app, Hl. split_and!.
  - apply (kept_step_loss (dmg := all_damage) s1 s2 a Hs).
    by apply (tracked_kept (dmg := all_damage) es s1 a Hs Ht), (calls_apart_app _ (option_list l)).
  - apply (tracked_step (dmg := all_damage) es s1 l s2 a Hs Hst Hct).
    apply Ht.
  - destruct (sim_step_in _ _ _ _ Hst Hs Hct) as (a' & _ & Hs'). by exists a'.
Qed.

Lemma open_tracked e high low w st (x : S) junk callers s0 :
  engine_open e high low w st x junk callers = Some s0 -> tracked [] s0.
Proof.
  unfold engine_open. intros E. bind_step E. bind_step E.
  destruct (stage1_start _ _) as [sh t1] eqn:E1. injection E as <-.
  assert (sh_heap sh = ∅) as Hh.
  { unfold stage1_start in E1. destruct (posix_memalign _ _ _); by injection E1 as <- _. }
  assert (Hidle : forall i c, gset_to_gmap (FgIdle 0) callers !! i = Some c -> c = FgIdle 0).
  { intros i c. rewrite lookup_gset_to_gmap_Some. naive_solver. }
  split; cbn [y_sh y_fg].
  - intros e1 q. by rewrite Hh.
  - intros i c wl Hi. by rewrite (Hidle _ _ Hi).
  - intros i baddr src size offset Hi. by apply Hidle in Hi.
Qed.

(** Calls that keep apart lose nothing but to errors. *)
Lemma apart_loud (x : S) es ls s :
  engine_losing x es ls s -> calls_apart es -> forallb loud ls = true.
Proof.
  intros (e & high & low & w & st & junk & callers & s0 & Ho & Hw & Hst & Hr) Hap.
  destruct (open_sim (dmg := all_damage) _ _ _ _ _ _ _ _ _ Ho Hw Hst) as [Hs0 _].
  by destruct (tracked_run _ _ _ _ _ Hr Hs0 (open_tracked _ _ _ _ _ _ _ _ _ Ho) Hap).
Qed.

(** * A single caller *)

(** No caller is about to write directly over a live page. *)
Definition direct_clear (s : sys S) : Prop :=
  forall i baddr src size offset a p, y_fg s !! i = Some (FgDirect baddr src size offset) ->
    sh_heap (y_sh s) !! a = Some p ->
    offset + size <= base p \/ base p + NOX_DATAZONE_SIZE <= offset.

Definition lone (s : sys S) : Prop :=
  forall i j c d, y_fg s !! i = Some c -> y_fg s !! j = Some d -> i = j.

(** A run that has kept the order of bytes. *)
Definition ordered_run (s0 : sys S) (es : list event) (s : sys S) : Prop :=
  exists ls a, losing_run s0 es ls s /\ forallb loud ls = true /\
    sim (dmg := all_damage) s a /\ own_detach a.

Lemma own_order_kept {dmg : Damage} s a : sim s a -> own_detach a -> direct_clear s -> order_kept s.
Proof.
  intros Hs Ho Hd. split; [exact Hd|]. intros i e l p Hi Hp _.
  apply (Ho i _ e); [by rewrite (flight_of _ _ _ _ Hs Hi)|].
  unfold page_base. by rewrite (strip_lookup_2 _ _ _ _ (co_pg _ _ _ _ _ _ (si_core _ _ Hs)) Hp).
Qed.

Lemma ordered_step s0 es s l s' :
  ordered_run s0 es s -> sys_step s l s' -> lone s -> direct_clear s ->
  ordered_run s0 (es ++ option_list l) s'.
Proof.
  intros (ls & a & Hr & Hl & Hs & Ho) Hst Hone Hd.
  pose proof (loss_contained (dmg := all_damage) s s' (counted_all _)) as Hct.
  destruct (sim_step_move _ _ _ _ Hst Hs Hct) as (a' & Hm & Hs').
  exists (ls ++ step_loss s s'), a'. split; [by econstructor|]. split; [|split; [exact Hs'|]].
  - rewrite forallb_app, Hl. apply (kept_step_loss (dmg := all_damage) s s' a Hs).
    by apply (own_order_kept (dmg := all_damage) s a).
  - apply (own_detach_step (dmg := all_damage) _ _ _ (si_inv _ _ Hs) Hm); [|done].
    intros i j v w. rewrite !(fs_fl _ _ (si_fg _ _ Hs)).
    destruct (y_fg s !! i) eqn:Ei, (y_fg s !! j) eqn:Ej; try done. intros _ _. by eapply Hone.
Qed.

Lemma ordered_open e high low w st (x : S) junk callers s0 :
  engine_open e high low w st x junk callers = Some s0 -> g_live w = 0 -> stats_wf st ->
  ordered_run s0 [] s0.
Proof.
  intros Ho Hw Hst. destruct (open_sim (dmg := all_damage) _ _ _ _ _ _ _ _ _ Ho Hw Hst) as [Hs _].
  exists [], (pipe_initial (file_byte x)). split_and!; [constructor|done|done|].
  intros i c y b Hi. cbn in Hi. by rewrite lookup_empty in Hi.
Qed.

Lemma ordered_engine e high low w st (x : S) junk callers s0 es s :
  engine_open e high low w st x junk callers = Some s0 -> g_live w = 0 -> stats_wf st ->
  ordered_run s0 es s -> exists ls, engine_losing x es ls s /\ forallb loud ls = true.
Proof.
  intros Ho Hw Hst (ls & _ & Hr & Hl & _). exists ls. split; [|done]. by do 8 eexists.
Qed.

End Apart.

Lemma silent_loud ls : forallb silent ls = true -> forallb loud ls = true -> ls = [].
Proof. unfold loud. by destruct ls as [|[]]. Qed.
