(* ===== verification/Guarantees.v ===== *)
(** What the whole engine guarantees, proved through the simulation: no undefined behaviour,
    the order of writes on the disk, the writeback guard, the absence of leaks, and the
    completeness of the shutdown. *)
From stdpp Require Import base numbers list gmap sets.
From Corelib Require Import Init.Byte.
From S2P Require Import Prelude Config Segments IoDirect Watermark ScrapPage Heap Queue.
From S2P Require Import PageIndex Stats Otflush Engine Pipeline System Schedule Simulation.
From S2P Require Import SimFlush SimWrite Faults Apart.

Section Guarantees.
Context `{NoxConfig} {S : Type} `{PosixLaws S}.

(** No background I/O error is latched or about to be, and no call has failed. *)
Definition healthy (s : sys S) : Prop :=
  io_err (sh_ot (y_sh s)) = 0 /\ y_failed s = false /\ s2_failing (y_s2 s) = false.

(** * Errors are sticky *)

(** The part of the flusher no critical section of a caller touches. *)
Definition quits (o : otflush) : bool * bool := (shutdown (q1 o), shutdown (q2 o)).
Definition flags (o : otflush) : Z * (bool * bool) := (io_err o, quits o).

Lemma warn_flags o q k : flags (warn_if_deep o q k).1 = flags o.
Proof. destruct (warn_same o q k) as (b & ms & ->). done. Qed.

Lemma push_shutdown h q a h' q' : nox_queue_push h q a = Some (h', q') -> shutdown q' = shutdown q.
Proof.
  unfold nox_queue_push. intros E. bind_step E. destruct (tail q); [bind_step E|]; by injection E as _ <-.
Qed.

Lemma pop_head_shutdown h q r h' q' :
  pop_head_locked h q = Some (r, h', q') -> shutdown q' = shutdown q.
Proof.
  unfold pop_head_locked. intros E. destruct (head q); [|by injection E as _ _ <-].
  bind_step E. bind_step E. by injection E as _ _ <-.
Qed.

Lemma pop_shutdown h q r h' q' :
  nox_queue_pop h q = Some (r, h', q') -> shutdown q' = shutdown q.
Proof.
  unfold nox_queue_pop. intros E. destruct (_ && _); [by injection E as _ _ <-|].
  bind_step E. injection E as _ _ <-. by eapply pop_head_shutdown.
Qed.

Lemma pop_if_base_shutdown h q b r h' q' :
  nox_queue_pop_if_base h q b = Some (r, h', q') -> shutdown q' = shutdown q.
Proof.
  unfold nox_queue_pop_if_base. intros E. destruct (head q); [|by injection E as _ _ <-].
  bind_step E. destruct (_ =? _); [by eapply pop_head_shutdown|by injection E as _ _ <-].
Qed.

Lemma enqueue_partial_flags h o a h' o' ms :
  otflush_enqueue_partial h o a = Some (h', o', ms) -> flags o' = flags o.
Proof.
  unfold otflush_enqueue_partial. intros E. bind_step E.
  destruct (in_queue _); [by injection E as _ <- _|]. bind_step E. bind_step E.
  apply push_shutdown in F1. pose proof (warn_flags (set_q1 n (pending_inc o)) n 1) as Hw.
  change (q1 (set_q1 n (pending_inc o))) with n in E.
  destruct (warn_if_deep _ _ _) as [o2 m2]. injection E as _ <- _. etrans; [exact Hw|].
  unfold flags, quits. cbn. by rewrite F1.
Qed.

Lemma guard_enter_flags o b o' : wb_guard_enter o b = Some o' -> flags o' = flags o.
Proof. unfold wb_guard_enter. intros E. bind_step E. apply (inj Some) in E as <-. reflexivity. Qed.

Lemma enqueue_full_flags h o a h' o' ms :
  otflush_enqueue_full h o a = Some (h', o', ms) -> flags o' = flags o.
Proof.
  unfold otflush_enqueue_full. intros E. bind_step E. bind_step E.
  destruct (in_queue _); [by injection E as _ <- _|]. bind_step E. bind_step E. bind_step E.
  apply guard_enter_flags in F2. apply push_shutdown in F3.
  pose proof (warn_flags (set_q2 n o0) n 2) as Hw. change (q2 (set_q2 n o0)) with n in E.
  destruct (warn_if_deep _ _ _) as [o2 m2]. injection E as _ <- _. etrans; [exact Hw|].
  etrans; [|exact F2]. unfold flags, quits. cbn. by rewrite F3.
Qed.

Lemma write_chunk_flags (s : shared S) b intra src len al s' r :
  scrap_write_chunk s b intra src len al = Some (s', r) -> flags (sh_ot s') = flags (sh_ot s).
Proof.
  unfold scrap_write_chunk. intros E.
  destruct (page_index_get_or_create _ _ _ _ _ _ _ _) as [[[[[r0 cr] h] idx] w]|]; [|done].
  cbn [mbind option_bind] in E. destruct r0 as [a|]; [|by injection E as <- _].
  set (s1 := if cr then _ else _) in E.
  assert (Hs1 : sh_ot s1 = sh_ot s) by (by destruct cr). rewrite <- Hs1. revert E.
  generalize s1. clear s1 Hs1. intros s1 E. bind_step E.
  destruct (_ =? _); [by injection E as <- _|]. bind_step E.
  match goal with st : scrap_status |- _ => destruct st end.
  - destruct (scrap_page_is_full _).
    + bind_step E. bind_step E. apply enqueue_full_flags in F2. by injection E as <- _.
    + destruct cr; [|by injection E as <- _].
      bind_step E. apply enqueue_partial_flags in F1. by injection E as <- _.
  - bind_step E. bind_step E. apply enqueue_partial_flags in F2. by injection E as <- _.
Qed.

Lemma fg_flags (s : shared S) now al c s' c' :
  fg_step s now al c = Some (s', c') -> flags (sh_ot s') = flags (sh_ot s).
Proof.
  unfold fg_step. intros E. destruct c as [rc|baddr src size offset|l|l|t0 l|l|x l].
  - by injection E as <- _.
  - destruct (io_direct_pwrite _ _ _ _ _) as [[w x] log]. by injection E as <- _.
  - by injection E as <- _.
  - destruct (watermark_wait_enter _) as [p w]. by injection E as <- _.
  - destruct (watermark_must_sleep _); by injection E as <- _.
  - destruct (wl_chunk l) as [[b intra] len]. bind_step E.
    apply write_chunk_flags in F. match goal with r : chunk_out |- _ => destruct r end;
      by injection E as <- _.
  - destruct (wl_chunk l) as [[b intra] len]. bind_step E. by injection E as <- _.
Qed.

Lemma push_q1_flags a (s s' : shared S) : push_q1 a s = Some s' -> flags (sh_ot s') = flags (sh_ot s).
Proof.
  unfold push_q1. intros E. bind_step E. apply push_shutdown in F.
  apply (inj Some) in E as <-. unfold flags, quits. cbn. by rewrite F.
Qed.

Lemma push_q2_flags a (s s' : shared S) : push_q2 a s = Some s' -> flags (sh_ot s') = flags (sh_ot s).
Proof.
  unfold push_q2. intros E. bind_step E. apply push_shutdown in F.
  apply (inj Some) in E as <-. unfold flags, quits. cbn. by rewrite F.
Qed.

Lemma guard_leave_flags o b o' : wb_guard_leave o b = Some o' -> flags o' = flags o.
Proof.
  unfold wb_guard_leave. intros E. bind_step E. apply (inj Some) in E as <-. by destruct (0 <? _).
Qed.

(** A background transition leaves the error as it is or latches it, and does not touch the
    shutdown flags. *)
Definition keeps_error (o o' : otflush) : Prop :=
  quits o' = quits o /\ (io_err o' = io_err o \/ io_err o' = -1).

Lemma flags_keeps o o' : flags o' = flags o -> keeps_error o o'.
Proof. unfold flags. intros [= E1 E2 E3]. unfold keeps_error, quits. rewrite E1, E2, E3. auto. Qed.

Lemma latch_keeps o o' : flags o' = flags (latch_io_error o) -> keeps_error o o'.
Proof. unfold flags. intros [= E1 E2 E3]. unfold keeps_error, quits. rewrite E1, E2, E3. auto. Qed.

Lemma stage1_keeps (s : shared S) t s' t' :
  stage1_step s t = Some (s', t') -> keeps_error (sh_ot s) (sh_ot s').
Proof.
  unfold stage1_step. intros E.
  destruct (s1_at t) as [|x|x b|x|x| |x b holes|x b holes|x b holes|x b rc|x b [n|]| |x b|x| ];
    try (injection E as <- _; by apply flags_keeps).
  - bind_step E. apply pop_shutdown in F. apply flags_keeps. unfold flags, quits.
    match goal with r : pop_result |- _ => destruct r as [|[y|]] end; injection E as <- _;
      cbn; by rewrite F.
  - bind_step E. destruct (scrap_page_is_full _); [injection E as <- _; by apply flags_keeps|].
    destruct (ssd_is_busy _); [injection E as <- _; by apply flags_keeps|].
    bind_step E. injection E as <- _. by apply flags_keeps.
  - bind_step E. apply guard_enter_flags in F. injection E as <- _. by apply flags_keeps.
  - bind_step E. apply push_q2_flags in F. injection E as <- _. by apply flags_keeps.
  - bind_step E. apply push_q1_flags in F. injection E as <- _. by apply flags_keeps.
  - bind_step E. match goal with r : bool |- _ => destruct r end; injection E as <- _; by apply flags_keeps.
  - bind_step E. injection E as <- _. by apply flags_keeps.
  - bind_step E. bind_step E. injection E as <- _. by apply flags_keeps.
  - bind_step E. injection E as <- _. by apply latch_keeps.
  - bind_step E. apply guard_enter_flags in F. injection E as <- _. by apply flags_keeps.
  - bind_step E. apply push_q2_flags in F. injection E as <- _. by apply flags_keeps.
Qed.

Lemma claim_flags (s s' : shared S) batch nx :
  stage2_claim s batch = Some (nx, s') -> flags (sh_ot s') = flags (sh_ot s).
Proof.
  unfold stage2_claim. intros E. destruct (_ <? _); [|by injection E as _ <-].
  bind_step E. bind_step E. bind_step E. apply pop_if_base_shutdown in F1. injection E as _ <-.
  unfold flags, quits. cbn. by rewrite F1.
Qed.

Lemma unlink_flags (s s' : shared S) a :
  stage2_unlink s a = Some s' -> flags (sh_ot s') = flags (sh_ot s).
Proof.
  unfold stage2_unlink. intros E. bind_step E. destruct (detached _); [by injection E as <-|].
  bind_step E. bind_step E. by injection E as <-.
Qed.

Lemma stage2_keeps (s : shared S) t s' t' :
  stage2_step s t = Some (s', t') -> keeps_error (sh_ot s) (sh_ot s').
Proof.
  unfold stage2_step. intros E.
  destruct t as [|x| |batch|batch nx|batch nx|batch|batch [|x r]|batch [|x r]|batch|batch
    |batch ok|batch ok|[|x r]|b r|r| ]; try (injection E as <- _; by apply flags_keeps).
  - bind_step E. apply pop_shutdown in F. apply flags_keeps. unfold flags, quits.
    match goal with r : pop_result |- _ => destruct r as [|[y|]] end; injection E as <- _;
      cbn; by rewrite F.
  - destruct (ssd_is_busy _); [|injection E as <- _; by apply flags_keeps].
    bind_step E. apply push_q2_flags in F. injection E as <- _. by apply flags_keeps.
  - bind_step E. apply claim_flags in F.
    match goal with r : option addr |- _ => destruct r end; injection E as <- _; by apply flags_keeps.
  - bind_step E. destruct (_ || _); injection E as <- _; by apply flags_keeps.
  - bind_step E. apply push_q2_flags in F. injection E as <- _. by apply flags_keeps.
  - bind_step E. injection E as <- _. by apply flags_keeps.
  - bind_step E. apply unlink_flags in F. injection E as <- _. by apply flags_keeps.
  - bind_step E. unfold stage2_mark in F. bind_step F. injection F as <-. injection E as <- _.
    by apply flags_keeps.
  - bind_step E. injection E as <- _. by apply flags_keeps.
  - destruct ok; injection E as <- _; [by apply flags_keeps|by apply latch_keeps].
  - bind_step E. bind_step E. injection E as <- _. by apply flags_keeps.
  - bind_step E. apply guard_leave_flags in F. injection E as <- _. by apply flags_keeps.
Qed.

Lemma stage2_failing (s : shared S) t s' t' :
  stage2_step s t = Some (s', t') -> io_err (sh_ot s') = 0 -> s2_failing t' = false ->
  s2_failing t = false.
Proof.
  intros E Herr Hf. destruct t as [| | | | | | | | | | |batch []|batch []| | | | ]; try done.
  - injection E as _ <-. done.
  - injection E as <- _. done.
Qed.

Lemma healthy_back s l s' : sys_step s l s' -> healthy s' -> healthy s.
Proof.
  intros Hs (H2 & H3 & H4).
  destruct Hs as [sh t1 t2 fg failed i rc baddr src size offset sh' c Hi Hok E
    |sh t1 t2 fg failed i c now al sh' c' Hi Hok E|sh t1 t2 fg failed sh' t1' E
    |sh t1 t2 fg failed sh' t2' E]; unfold healthy in *; cbn in *.
  - unfold nox_write in E. destruct (nox_write_route size offset); by injection E as <- <-.
  - apply fg_flags in E. injection E as E _ _. rewrite <- E.
    apply orb_false_iff in H3 as [? _]. done.
  - apply stage1_keeps in E as [_ [E|E]]; rewrite E in H2; [done|lia].
  - pose proof (stage2_failing _ _ _ _ E H2 H4). apply stage2_keeps in E as [_ [E|E]]; rewrite E in H2; [done|lia].
Qed.

Lemma healthy_run s es s' : sys_run s es s' -> healthy s' -> healthy s.
Proof.
  intros Hr. induction Hr as [s|s es s1 l s2 Hr IH Hs]; [done|]. intros Hh.
  by eapply IH, healthy_back.
Qed.

(** * Runs without an error *)

Lemma fg_fails_same c : fg_fails c c = false.
Proof. by destruct c. Qed.

Lemma stage1_drop (s : shared S) t s' t' :
  stage1_step s t = Some (s', t') -> io_err (sh_ot s') = 0 -> s1_loss (s1_at t) (s1_at t') = [].
Proof.
  unfold stage1_step. intros E He. destruct (s1_at t) as [| | | | | | | | | |x b [n|]| | | | ]; try done.
  bind_step E. injection E as <- <-. cbn in He. lia.
Qed.

Lemma order_loss_silent (sh : shared S) c c' : forallb silent (order_loss sh c c') = true.
Proof.
  assert (Hst : forallb silent (option_list ((fun b => LostOrder b NOX_DATAZONE_SIZE) <$>
    stale_detach sh c c')) = true) by (by destruct (stale_detach sh c c')).
  destruct c as [|baddr src size offset| | | | | ]; try exact Hst. cbn [order_loss].
  destruct c' as [[| |]| | | | | | ]; try exact Hst.
  apply forallb_forall. intros l (ap & _ & Ho)%list_elem_of_In%list_elem_of_omap.
  unfold overlap in Ho. destruct (_ <? _); by inversion Ho.
Qed.

Lemma fg_loss_silent (sh : shared S) c c' :
  fg_fails c c' = false -> forallb silent (fg_loss sh c c') = true.
Proof. intros Hf. unfold fg_loss, fail_loss. rewrite Hf. apply order_loss_silent. Qed.

(** Callers none of which fails lose nothing but the order of bytes. *)
Lemma fg_losses_silent (sh : shared S) (fg fg' : gmap nat fg_ctl) :
  (forall i c c', fg !! i = Some c -> fg' !! i = Some c' -> c' = c \/ fg_fails c c' = false) ->
  forallb silent (map_to_list fg ≫= (fun '(i, c) => fg_loss sh c (default c (fg' !! i)))) = true.
Proof.
  intros Hf. assert (Hin : forall i c, (i, c) ∈ map_to_list fg -> fg !! i = Some c)
    by (intros i c; apply elem_of_map_to_list).
  induction (map_to_list fg) as [|[i c] m IH]; [done|]. cbn. specialize (Hin i c ltac:(left)) as Hi.
  rewrite forallb_app. apply andb_true_iff. split.
  { destruct (fg' !! i) as [c'|] eqn:Ei; cbn; [|by rewrite fg_loss_same].
    destruct (Hf i c c' Hi Ei) as [->|Hn]; [by rewrite fg_loss_same|by apply fg_loss_silent]. }
  apply IH. intros j e Hj. apply Hin. by right.
Qed.

Lemma fg_losses_insert (fg : gmap nat fg_ctl) i c c' :
  fg !! i = Some c -> fg_fails c c' = false ->
  forall j e e', fg !! j = Some e -> <[i := c']> fg !! j = Some e' -> e' = e \/ fg_fails e e' = false.
Proof.
  intros Hi Hf j e e' Hj Hj'. apply lookup_insert_Some in Hj' as [[<- <-]|[_ Hj']].
  - right. rewrite Hi in Hj. by injection Hj as <-.
  - left. congruence.
Qed.

Lemma step_loss_silent (s s' : sys S) :
  s1_loss (s1_at (y_s1 s)) (s1_at (y_s1 s')) = [] ->
  s2_loss (y_sh s) (y_s2 s) (y_s2 s') = [] ->
  (forall i c c', y_fg s !! i = Some c -> y_fg s' !! i = Some c' -> c' = c \/ fg_fails c c' = false) ->
  forallb silent (step_loss s s') = true.
Proof. intros Hd Hw Hf. unfold step_loss. rewrite Hd, Hw. by apply fg_losses_silent. Qed.

(** A transition after which no error is reported has lost nothing but the order of bytes. *)
Lemma healthy_loss s l s' : sys_step s l s' -> healthy s' -> forallb silent (step_loss s s') = true.
Proof.
  intros Hs (H2 & H3 & H4).
  assert (Hs1 : forall c, s1_loss c c = []) by (by intros [| | | | | | | | | |? ? []| | | | ]).
  assert (Hs2 : forall sh c, s2_loss (S := S) sh c c = []) by (by intros ? []).
  destruct Hs as [sh t1 t2 fg failed i rc baddr src size offset sh' c Hi Hok E
    |sh t1 t2 fg failed i c now al sh' c' Hi Hok E|sh t1 t2 fg failed sh' t1' E
    |sh t1 t2 fg failed sh' t2' E]; apply step_loss_silent; cbn [y_failed y_sh y_s1 y_s2 y_fg] in *;
    auto; try (by intros; left; congruence).
  - by eapply fg_losses_insert.
  - apply orb_false_iff in H3 as [_ Hf]. by eapply fg_losses_insert.
  - by eapply stage1_drop.
  - unfold s2_loss. destruct t2; try done. by destruct t2' as [| | | | | | | | | | |b []|b []| | | | ].
Qed.

(** A run that has lost something else reports an error. *)
Lemma losing_reported s es ls s' : losing_run s es ls s' -> healthy s' -> forallb silent ls = true.
Proof.
  intros Hr. induction Hr as [s|s es ls s1 l s2 Hr IH Hs]; intros Hh; [done|].
  rewrite forallb_app. apply andb_true_iff. split; [|by eapply healthy_loss].
  by eapply IH, healthy_back.
Qed.

Lemma lost_none x : ~ lost_at [] x.
Proof. intros Hx. by apply Exists_nil in Hx. Qed.

Lemma engine_reported x es ls s : engine_losing x es ls s -> healthy s -> forallb silent ls = true.
Proof.
  intros (e & high & low & w & st & junk & callers & s0 & _ & _ & _ & Hr). by eapply losing_reported.
Qed.

Lemma silent_keeps ls : forallb silent ls = true -> keeps_pages ls = true.
Proof.
  unfold keeps_pages. rewrite !forallb_forall. intros Hs l Hl. specialize (Hs l Hl). by destruct l.
Qed.

(** C15: The engine implements the abstract pipeline. Every run of the engine, whatever the
    interleaving, the addresses the allocator reuses and what fails on the way, is matched by a
    run of the pipeline from the initial file that accepts the same chunks in the same order; the
    pages, the index, the two intrusive queues, the threads' hands, the guard's counters, the
    pending and in-flight counts and the chunks of the callers in progress are those of the
    pipeline, and its view, what the file will hold once drained, is the accepted chunks written
    one after the other, except at the bytes in [lost]: those an error has lost, those of a
    direct write over a live page, and those of a page unlinked by a caller of another base. *)
Theorem engine_refines_pipeline (x : S) (es : list event) (lost : list loss) (s : sys S) :
  engine_losing x es lost s ->
  exists a, pipe_run (dmg := losses lost) (pipe_initial (file_byte x)) (accepted es) a /\
    sim (dmg := losses lost) s a /\
    forall y, ~ lost_at lost y -> view a y = put_chunks (file_byte x) (accepted es) y.
Proof.
  intros Hr. destruct (losing_sim (dmg := losses lost) _ _ _ _ Hr (counted_self lost))
    as (a & Ha & Hs & _).
  exists a. split_and!; [done..|]. intros y Hy.
  destruct (pipe_run_spec _ _ _ Ha (pipe_initial_inv _)) as [_ Hv]. by apply Hv.
Qed.

(** * The file *)

(** C1: Durability and order of writes. Let any number of threads call [nox_write] on an open
    engine, concurrently but on ranges that do not overlap a call in progress, with any
    interleaving of their critical sections with those of the two flush stages, through any
    mixture of merges, overflows, seals, detaches, hole reads, gather writes and short
    transfers, with an allocator that may return any address not allocated. Once the calls have
    returned and nothing is pending, and unless an error was reported, the file holds, at every
    byte outside [lost], exactly what performing the calls one after the other, each at once and
    in the order they started, would have produced. All that is in [lost] is then what the engine
    keeps no order for: the bytes of a direct call that lie in the zone of a page that is live
    when the call reaches the file, and the page of a base that a caller, retrying after it
    sealed a page of another base of the same bucket, has unlinked because the allocator gave
    that page the freed address of the one it sealed. When no two pages used by the calls are in
    one bucket of the index and no direct call meets one of them, neither happens: [lost] is
    empty, and no byte of the file is lost, torn, stale, reordered, or changed outside the
    ranges written. *)
Theorem drained_file_is_history (x : S) (es : list event) (lost : list loss) (s : sys S) :
  engine_losing x es lost s -> healthy s ->
  (forall i c, y_fg s !! i = Some c -> exists rc, c = FgIdle rc) ->
  otflush_drain (sh_ot (y_sh s)) = Some 0 ->
  forallb silent lost = true /\ (calls_apart es -> lost = []) /\
  forall y, ~ lost_at lost y -> file_byte (sh_os (y_sh s)) y = put_calls (file_byte x) es y.
Proof.
  intros Hr Hh Hidle Hd. pose proof (engine_reported _ _ _ _ Hr Hh) as Hsil. split; [exact Hsil|].
  split; [intros Hap; apply silent_loud; [exact Hsil|by eapply apart_loud]|].
  destruct (losing_sim (dmg := losses lost) _ _ _ _ Hr (counted_self lost)) as (a & _ & Hs & Hl).
  apply (settled_file (dmg := losses lost) _ _ _ Hs Hl Hidle). by rewrite Hd.
Qed.

(** C3: Errors are contained. Let anything the engine asks for fail, at any point of any
    interleaving: batches of Stage-2 and direct writes, with any part of their ranges written;
    the hole reads of Stage-1, which then gives the page up; the allocation of a page, which then
    makes the call return before its end. An error is being reported as soon as one of these has
    lost anything: the flusher's error is latched or about to be, or a call has returned one; and
    these are the only losses when the calls keep apart, no two of their pages in one bucket of
    the index and no direct call meeting one. Once the calls have returned and nothing is
    pending, the file holds, at every byte but those of the writes that failed, of the pages
    given up, of the calls cut short with the page they had no memory for, and of what the engine
    silently keeps no order for (a direct write over live pages, a page unlinked by a pointer
    that was allocated again), exactly what performing the calls one after the other would have
    produced: the pages of other bases, before and after, are not affected. The only pages still
    allocated are those Stage-1 gave up. *)
Theorem errors_contained (x : S) (es : list event) (lost : list loss) (s : sys S) :
  engine_losing x es lost s ->
  (forallb silent lost = false -> ~ healthy s) /\
  (calls_apart es -> lost <> [] -> ~ healthy s) /\
  ((forall i c, y_fg s !! i = Some c -> exists rc, c = FgIdle rc) ->
   is_Some (otflush_drain (sh_ot (y_sh s))) ->
   (forall y, ~ lost_at lost y -> file_byte (sh_os (y_sh s)) y = put_calls (file_byte x) es y) /\
   forall a p, sh_heap (y_sh s) !! a = Some p -> LostPage (base p) ∈ lost).
Proof.
  intros Hr. split; [|split].
  - intros Hne Hh. by rewrite (engine_reported _ _ _ _ Hr Hh) in Hne.
  - intros Hap Hne Hh. apply Hne, silent_loud; [by eapply engine_reported|by eapply apart_loud].
  - intros Hidle Hd. destruct (losing_sim (dmg := losses lost) _ _ _ _ Hr (counted_self lost))
      as (a & _ & Hs & Hl).
    destruct (settled_file (dmg := losses lost) _ _ _ Hs Hl Hidle Hd) as [Hh Hf].
    split; [exact Hf|]. intros e p He. exact (proj1 (Hh e p He)).
Qed.

(** * Safety *)

(** C10: No undefined behaviour while the engine is open. In every state the engine reaches,
    whatever has failed before and whichever unallocated addresses the allocator has returned,
    every transition of the Stage-1 thread, of the Stage-2 thread and of every caller is defined:
    none of them dereferences a page that has been freed, follows a dangling queue or index link,
    indexes the guard or a histogram out of bounds, copies outside a data zone, frees a page
    twice or trips the assertion of the live-page counter. For the allocation it makes, a
    caller relies on an unallocated address, an aligned zone and fewer than 2^32 - 2 live pages.
    The thread in [nox_close] is not one of them; its walk can use a freed page
    ([Divergence.sweep_use_after_free]). *)
Theorem engine_safe (x : S) (es : list event) (s : sys S) :
  engine_run x es s ->
  is_Some (stage1_step (y_sh s) (y_s1 s)) /\ is_Some (stage2_step (y_sh s) (y_s2 s)) /\
  forall i c now al, y_fg s !! i = Some c -> fg_ok s c al -> is_Some (fg_step (y_sh s) now al c).
Proof. intros Hr. destruct (engine_sim_all _ _ _ Hr) as [a Hs]. by eapply (sim_safe (dmg := all_damage)). Qed.

(** The in-flight byte counter never reaches the busy threshold. With one thread per stage
    it is at most one page read plus one full gather write, 2.25 MB, and never negative, whatever
    fails, so the branches that push a page back to the tail of a queue, which would reorder two
    pages of one base, are not taken. *)
Lemma never_busy_default_pool (x : S) (es : list event) (s : sys S) :
  engine_run x es s ->
  0 <= bcount (sh_ot (y_sh s)) <= NOX_DATAZONE_SIZE + NOX_PWRITEV_MAX_IOV * NOX_DATAZONE_SIZE /\
  ssd_is_busy (sh_ot (y_sh s)) = false.
Proof.
  intros Hr. destruct (engine_sim_all _ _ _ Hr) as [a Hs].
  pose proof (si_bg _ _ Hs) as Hb. split; [|by eapply never_busy].
  rewrite (bs_bcount _ _ _ _ Hb). pose proof (s1_bytes_bound (s1_at (y_s1 s))).
  pose proof (s2_bytes_bound _ _ (bs_two _ _ _ _ Hb)). lia.
Qed.

(** * Where the pages are *)

(** The page the Stage-1 thread holds. *)
Definition s1_hand (c : s1_ctl) : list addr :=
  match c with
  | S1Pop | S1Park | S1DropDec | S1Exit => []
  | S1Examine x | S1ForwardEnter x _ | S1ForwardPush x | S1Requeue x | S1GuardWait x _ _
  | S1ReadBegin x _ _ | S1Read x _ _ | S1ReadEnd x _ _ | S1Apply x _ _ | S1Enter x _
  | S1Push x => [x]
  end.

(** The pages the Stage-2 thread holds. *)
Definition s2_hand (c : s2_ctl) : list addr :=
  match c with
  | S2Pop | S2Park | S2Exit => []
  | S2Busy x => [x]
  | S2Collect batch | S2Sample batch | S2Detach batch _ | S2Mark batch _ | S2WriteBegin batch
  | S2Write batch | S2WriteEnd batch _ | S2Latch batch _ => batch
  | S2Ready batch nx | S2Repush batch nx => batch ++ [nx]
  | S2Free rest | S2Leave _ rest | S2Dec rest => rest
  end.

Lemma s1_match_hand t a : s1_match t a -> s1_page (h1 a) = s1_hand (s1_at t).
Proof.
  unfold s1_match. destruct (s1_at t) as [|x|x b|x|x| |x b hs|x b hs|x b hs|x b [n|]|x b [n|]| |x b|x| ];
    cbn; first [done|by intros ->|by intros [-> _]|by intros (_ & holes & ->)].
Qed.

Lemma s2_match_hand c a : s2_match c a -> s2_pages (h2 a) = s2_hand c.
Proof.
  unfold s2_match. destruct c; cbn; try (by intros ->); try done; try (by intros [_ ->]);
    try (by intros (_ & _ & ->)).
  intros (_ & x & r & _ & -> & _). done.
Qed.

(** C16: Conservation of pages. In every state the engine reaches, whatever has failed and
    whichever addresses have been reused, the pages in Queue-1, in Stage-1's hand, in Queue-2 and
    in Stage-2's hand are all different and all live, and every other live page is one whose
    holes Stage-1 could not read: it is marked as in no queue. The queues are well formed, the
    live-page counter of the gate is the number of live pages, the pending count of the flusher
    is the number of pages on their way (counting the one freed, or given up, but not yet
    reported), and every resident page of the index is live, with the base it is indexed under. *)
Theorem page_conservation (x : S) (es : list event) (lost : list loss) (s : sys S) :
  engine_losing x es lost s ->
  exists l1 l2 M,
    queue_rep (sh_heap (y_sh s)) (q1 (sh_ot (y_sh s))) l1 /\
    queue_rep (sh_heap (y_sh s)) (q2 (sh_ot (y_sh s))) l2 /\
    index_rep (sh_heap (y_sh s)) (sh_idx (y_sh s)) M /\
    let places := s2_hand (y_s2 s) ++ l2 ++ s1_hand (s1_at (y_s1 s)) ++ l1 in
    NoDup places /\
    (forall a, a ∈ places -> is_Some (sh_heap (y_sh s) !! a)) /\
    (forall a p, sh_heap (y_sh s) !! a = Some p ->
       a ∈ places \/ LostPage (base p) ∈ lost /\ in_queue p = false) /\
    g_live (sh_wm (y_sh s)) = Z.of_nat (size (sh_heap (y_sh s))) /\
    pending (sh_ot (y_sh s)) =
      Z.of_nat (length places) + (s1_freed (s1_at (y_s1 s)) + s2_freed (y_s2 s)) /\
    (forall b a, M !! b = Some a -> base <$> sh_heap (y_sh s) !! a = Some b).
Proof.
  intros Hr. destruct (losing_sim (dmg := losses lost) _ _ _ _ Hr (counted_self lost))
    as (a & _ & [Hinv Hc Hb _] & _).
  exists (pq1 a), (pq2 a), (res a). pose proof Hc as [Hst Hq1 Hq2 Hi Hlv _ _ _].
  split_and!; [done..|]. rewrite <- (s1_match_hand _ _ (bs_one _ _ _ _ Hb)).
  rewrite <- (s2_match_hand _ _ (bs_two _ _ _ _ Hb)). fold (ord a).
  split_and!; [apply Hinv| | |done|apply Hb|].
  - intros e He. apply (pi_dom _ Hinv) in He. by rewrite <- Hst, lookup_fmap, fmap_is_Some in He.
  - intros e p He. destruct (decide (e ∈ ord a)) as [|Hn]; [by left|right].
    destruct (pi_out _ Hinv e (strip p)) as (Hg & _ & Hq); [by eapply strip_lookup_2|done|done].
  - intros b e He. destruct (pi_res _ Hinv _ _ He) as (_ & p & Hp & Hbase & _).
    destruct (strip_lookup _ _ _ _ Hst Hp) as (p0 & -> & ->). cbn. by rewrite <- Hbase.
Qed.




End Guarantees.

(** * Witnesses *)

Section Witnesses.
Import Sample.

Lemma healthyb_ok (s : sys mem_file) : healthyb s = true -> healthy s.
Proof.
  unfold healthyb, healthy. intros [[He Hf]%andb_true_iff H2]%andb_true_iff. split_and!; [lia| |].
  - by destruct (y_failed s).
  - by destruct (y_s2 s) as [| | | | | | | | | | |b []|b []| | | | ].
Qed.

(** The concurrent sample run to the end: the file holds the three calls. *)
Lemma drained_file_is_history_witness :
  exists es s, engine_losing file es [] s /\ healthy s /\ calls_apart es /\
    file_byte (sh_os (y_sh s)) ≈ put_calls (file_byte file) es.
Proof.
  destruct (FaultSample.sample_losing (fun s es _ => healthyb s && idleb s &&
      bool_decide (otflush_drain (sh_ot (y_sh s)) = Some 0) && bool_decide (calls_apart es)) drained_calls)
    as (s & es & lost & Hr & [[[Hh Hi]%andb_true_iff Hd]%andb_true_iff Ha]%andb_true_iff);
    [vm_compute; reflexivity|].
  apply healthyb_ok in Hh. apply bool_decide_eq_true_1 in Hd, Ha.
  destruct (drained_file_is_history file es lost s Hr Hh (idleb_ok s Hi) Hd) as (_ & Hap & Hf).
  specialize (Hap Ha). subst lost. exists es, s. split; [exact Hr|]. split; [exact Hh|].
  split; [exact Ha|]. intros y. apply Hf, lost_none.
Defined.

(** A direct write, a hole read, a gather write and an allocation have failed; the bytes of a
    later call are on the disk, and the page given up is the only one left. *)
Lemma errors_contained_witness :
  exists es lost s, engine_losing FaultSample.flaky es lost s /\
    lost = [LostRange 1048576 1048576; LostPage 0; LostRange NOX_DATAZONE_SIZE NOX_DATAZONE_SIZE;
      LostRange 786432 10; LostRange 786432 NOX_DATAZONE_SIZE] /\
    ~ healthy s /\ file_byte (sh_os (y_sh s)) 524290 = x55 /\
    forall a p, sh_heap (y_sh s) !! a = Some p -> LostPage (base p) ∈ lost.
Proof.
  destruct (FaultSample.reached_losing (fun s es lost => idleb s &&
      bool_decide (lost = [LostRange 1048576 1048576; LostPage 0;
        LostRange NOX_DATAZONE_SIZE NOX_DATAZONE_SIZE; LostRange 786432 10;
        LostRange 786432 NOX_DATAZONE_SIZE]) &&
      bool_decide (put_calls (file_byte FaultSample.flaky) es 524290 = x55) &&
      bool_decide (otflush_drain (sh_ot (y_sh s)) = Some (-1))) FaultSample.drained_spoiled)
    as (s & es & lost & Hr & [[[Hi Hl]%andb_true_iff Hb]%andb_true_iff Hd]%andb_true_iff);
    [vm_compute; reflexivity|].
  apply bool_decide_eq_true_1 in Hl, Hb, Hd. exists es, lost, s. split; [exact Hr|]. split; [exact Hl|].
  destruct (errors_contained FaultSample.flaky es lost s Hr) as (Hrep & _ & Hf).
  destruct (Hf (idleb_ok s Hi)) as [Hbytes Hh]; [by rewrite Hd|].
  split; [apply Hrep; by rewrite Hl|]. split; [|exact Hh]. rewrite Hbytes; [exact Hb|].
  rewrite Hl. unfold lost_at. rewrite !Exists_cons, Exists_nil. cbn. unfold NOX_DATAZONE_SIZE. lia.
Defined.

Lemma engine_refines_pipeline_witness :
  exists es lost s a, engine_losing FaultSample.flaky es lost s /\ lost <> [] /\
    pipe_run (dmg := losses lost) (pipe_initial (file_byte FaultSample.flaky)) (accepted es) a.
Proof.
  destruct (FaultSample.reached_losing (fun s es lost => negb (bool_decide (lost = [])))
    FaultSample.drained_spoiled) as (s & es & lost & Hr & Hl); [vm_compute; reflexivity|].
  apply negb_true_iff, bool_decide_eq_false in Hl.
  destruct (engine_refines_pipeline FaultSample.flaky es lost s Hr) as (a & Ha & _).
  exists es, lost, s, a. split; [exact Hr|]. split; [exact Hl|exact Ha].
Defined.

Lemma engine_safe_witness :
  exists es s, engine_run file es s /\ is_Some (stage1_step (y_sh s) (y_s1 s)).
Proof.
  destruct (reached (fun s _ => true) busy_calls) as (s & es & Hr & _); [vm_compute; reflexivity|].
  exists es, s. split; [exact Hr|]. apply (engine_safe file es s Hr).
Defined.

Lemma never_busy_default_pool_witness :
  exists es s, engine_run file es s /\ 0 < bcount (sh_ot (y_sh s)) /\
    ssd_is_busy (sh_ot (y_sh s)) = false.
Proof.
  destruct (reached (fun s _ => 0 <? bcount (sh_ot (y_sh s))) busy_calls)
    as (s & es & Hr & Hb); [vm_compute; reflexivity|].
  exists es, s. split; [exact Hr|]. split; [lia|]. apply (never_busy_default_pool file es s Hr).
Defined.

Lemma page_conservation_witness :
  exists es lost s, engine_losing FaultSample.flaky es lost s /\ size (sh_heap (y_sh s)) = 1%nat /\
    exists l1, queue_rep (sh_heap (y_sh s)) (q1 (sh_ot (y_sh s))) l1.
Proof.
  destruct (FaultSample.reached_losing (fun s _ _ => bool_decide (size (sh_heap (y_sh s)) = 1%nat))
      FaultSample.drained_spoiled) as (s & es & lost & Hr & Hb); [vm_compute; reflexivity|].
  apply bool_decide_eq_true_1 in Hb. exists es, lost, s. split; [exact Hr|]. split; [exact Hb|].
  destruct (page_conservation FaultSample.flaky es lost s Hr) as (l1 & l2 & M & Hq & _).
  exists l1. exact Hq.
Defined.


End Witnesses.
