(* ===== verification/Progress.v ===== *)
(** The flusher makes progress: with the callers quiet, a measure of the work left drops with
    every transition of a stage that is not blocked, and the two stages are never blocked
    together while a page is pending. Draining therefore ends, within an explicit number of
    rounds of any fair schedule. *)
From stdpp Require Import base numbers list gmap sets.
From Corelib Require Import Init.Byte.
From S2P Require Import Prelude Config Segments IoDirect Watermark ScrapPage Heap Queue.
From S2P Require Import PageIndex Stats Otflush Engine Pipeline System Schedule Simulation.
From S2P Require Import SimFlush SimWrite Faults Apart Guarantees.

(** * The work left *)

(** Transitions the Stage-2 thread needs for the pages it holds. *)
Definition s2_work (c : s2_ctl) : Z :=
  match c with
  | S2Pop | S2Exit => 0
  | S2Park => 1
  | S2Busy _ => 14
  | S2Collect batch => 5 * Z.of_nat (length batch) + 8
  | S2Ready batch _ => 5 * Z.of_nat (length batch) + 14
  | S2Repush batch _ => 5 * Z.of_nat (length batch) + 13
  | S2Sample batch => 5 * Z.of_nat (length batch) + 7
  | S2Detach batch rest => 3 * Z.of_nat (length batch) + 6 + 2 * Z.of_nat (length rest)
  | S2Mark batch rest => 3 * Z.of_nat (length batch) + 5 + 2 * Z.of_nat (length rest)
  | S2WriteBegin batch => 3 * Z.of_nat (length batch) + 5
  | S2Write batch => 3 * Z.of_nat (length batch) + 4
  | S2WriteEnd batch _ => 3 * Z.of_nat (length batch) + 3
  | S2Latch batch _ => 3 * Z.of_nat (length batch) + 2
  | S2Free rest => 3 * Z.of_nat (length rest) + 1
  | S2Leave _ rest => 3 * Z.of_nat (length rest) + 3
  | S2Dec rest => 3 * Z.of_nat (length rest) + 2
  end.

(** A page in Queue-2 is worth 15; the Stage-1 thread's page is worth what it still costs
    there, and then those 15. *)
Definition s1_work (c : s1_ctl) : Z :=
  match c with
  | S1Pop | S1Exit => 0
  | S1Park | S1DropDec => 1
  | S1Examine _ | S1Requeue _ => 23
  | S1GuardWait _ _ _ => 22
  | S1ReadBegin _ _ _ => 21
  | S1Read _ _ _ => 20
  | S1ReadEnd _ _ _ => 19
  | S1Apply _ _ _ => 18
  | S1ForwardEnter _ _ | S1Enter _ _ => 17
  | S1ForwardPush _ | S1Push _ => 16
  end.

Definition work {S} (sh : shared S) (c1 : s1_ctl) (c2 : s2_ctl) : Z :=
  s1_work c1 + 24 * depth (q1 (sh_ot sh)) + s2_work c2 + 15 * depth (q2 (sh_ot sh)).

Section Progress.
Context `{NoxConfig} {dmg : Damage} {S : Type} `{PosixLaws S}.

Lemma sim_depth (s : sys S) a :
  sim s a -> depth (q1 (sh_ot (y_sh s))) = Z.of_nat (length (pq1 a)) /\
    depth (q2 (sh_ot (y_sh s))) = Z.of_nat (length (pq2 a)).
Proof. intros [_ [_ (_ & _ & ? & _) (_ & _ & ? & _)] _ _]. done. Qed.

Lemma s1_work_nonneg c : 0 <= s1_work c <= 23.
Proof. destruct c; cbn; lia. Qed.
Lemma s2_work_nonneg c : 0 <= s2_work c.
Proof. destruct c; cbn; lia. Qed.

Lemma work_nonneg (s : sys S) a : sim s a -> 0 <= work (y_sh s) (s1_at (y_s1 s)) (y_s2 s).
Proof.
  intros Hs. destruct (sim_depth _ _ Hs). unfold work.
  pose proof (s1_work_nonneg (s1_at (y_s1 s))). pose proof (s2_work_nonneg (y_s2 s)). lia.
Qed.

Lemma s1_work_hand c :
  s1_work c <= 24 * (Z.of_nat (length (s1_hand c)) + s1_freed c) + 1.
Proof. destruct c; cbn; lia. Qed.

Lemma s2_work_hand c a :
  s2_inv a -> s2_match c a -> s2_work c <= 24 * (Z.of_nat (length (s2_hand c)) + s2_freed c) + 1.
Proof.
  intros Hi Hm. unfold s2_inv in Hi. unfold s2_match, batch_ok in Hm.
  destruct c as [|x| |batch|batch nx|batch nx|batch|batch rest|batch rest|batch|batch
    |batch ok|batch ok|rest|b rest|rest| ]; cbn in *; rewrite ?length_app; cbn; try lia;
    try (destruct Hm as ([Hne _] & _); destruct batch; cbn in *; [done|lia]).
  - destruct Hm as ([Hne _] & Hm). rewrite Hm in Hi. destruct Hi as (_ & (pre & ->) & _).
    rewrite length_app in *. assert (length (pre ++ rest) <> 0%nat) by (by destruct (pre ++ rest)).
    rewrite length_app in *. lia.
  - destruct Hm as (_ & x & r & -> & Hm & Hx & Hr). rewrite Hm in Hi.
    destruct Hi as (_ & (pre & ->) & _). apply elem_of_app in Hx as [Hx|Hx]; [|done].
    rewrite length_app. destruct pre; [by apply not_elem_of_nil in Hx|]. cbn. lia.
Qed.

(** The work left is linear in the number of pages pending. *)
Lemma work_bound (s : sys S) a :
  sim s a -> work (y_sh s) (s1_at (y_s1 s)) (y_s2 s) <= 24 * pending (sh_ot (y_sh s)) + 2.
Proof.
  intros Hs. destruct (sim_depth _ _ Hs) as [E1 E2]. pose proof Hs as [Hi _ Hb _].
  rewrite (bs_pending _ _ _ _ Hb). unfold work, ord. rewrite E1, E2, !length_app.
  rewrite (s1_match_hand _ _ (bs_one _ _ _ _ Hb)), (s2_match_hand _ _ (bs_two _ _ _ _ Hb)).
  pose proof (s1_work_hand (s1_at (y_s1 s))).
  pose proof (s2_work_hand _ _ (pi_stageB _ Hi) (bs_two _ _ _ _ Hb)). lia.
Qed.

(** * One transition *)

Lemma push_depth h q a h' q' :
  nox_queue_push h q a = Some (h', q') -> 0 <= depth q -> depth q' <= depth q + 1.
Proof.
  unfold nox_queue_push. intros E Hq.
  assert (Hd : u64 (depth q + 1) <= depth q + 1) by (apply Z.mod_le; lia).
  bind_step E. destruct (tail q); [bind_step E|]; by injection E as _ <-.
Qed.

Lemma push_q2_depth a (s s' : shared S) :
  push_q2 a s = Some s' -> 0 <= depth (q2 (sh_ot s)) ->
  q1 (sh_ot s') = q1 (sh_ot s) /\ depth (q2 (sh_ot s')) <= depth (q2 (sh_ot s)) + 1.
Proof.
  unfold push_q2. intros E Hq. bind_step E. apply push_depth in F; [|done].
  apply (inj Some) in E as <-. done.
Qed.

Lemma guard_enter_queues o b o' : wb_guard_enter o b = Some o' -> q1 o' = q1 o /\ q2 o' = q2 o.
Proof. unfold wb_guard_enter. intros E. bind_step E. by apply (inj Some) in E as <-. Qed.

Lemma guard_leave_queues o b o' : wb_guard_leave o b = Some o' -> q1 o' = q1 o /\ q2 o' = q2 o.
Proof.
  unfold wb_guard_leave. intros E. bind_step E. apply (inj Some) in E as <-. by destruct (0 <? _).
Qed.

(** The Stage-1 thread waits for a page, or for a writeback that the guard announces. *)
Definition s1_stuck (sh : shared S) (c : s1_ctl) : Prop :=
  match c with
  | S1Pop => depth (q1 (sh_ot sh)) = 0 /\ shutdown (q1 (sh_ot sh)) = false
  | S1GuardWait _ b _ => wb_guard_blocked (sh_ot sh) b = Some true
  | S1Exit => True
  | _ => False
  end.

Lemma with_heap_id (s : shared S) q o :
  q = q1 o -> o = sh_ot s -> with_ot (set_q1 q o) (with_heap (sh_heap s) s) = s.
Proof. intros -> ->. rewrite set_q1_eta. by destruct s. Qed.

Lemma thread_eta t : mk_s1 (s1_at t) (s1_scratch t) (s1_saddr t) = t.
Proof. by destruct t. Qed.

Lemma pop_progress h q l r h' q' :
  queue_rep h q l -> nox_queue_pop h q = Some (r, h', q') ->
  h' = h /\ q' = q /\ depth q = 0 /\ r = (if shutdown q then PopGot None else PopBlocked) \/
  exists x, r = PopGot (Some x) /\ depth q' = depth q - 1.
Proof.
  intros Hq E. pose proof (pop_rep _ _ _ Hq) as Hp. destruct Hq as (_ & _ & Hd & _).
  destruct l as [|x l].
  - left. rewrite E in Hp. injection Hp as -> -> ->. done.
  - right. destruct Hp as (h1 & q1 & Hp & (_ & _ & Hd1 & _) & _). rewrite E in Hp.
    injection Hp as -> -> ->. exists x. split; [done|]. rewrite Hd, Hd1. cbn [length]. lia.
Qed.

Lemma stage1_work sh t1 t2 fg failed a sh' t1' :
  sim (mk_sys sh t1 t2 fg failed) a -> stage1_step sh t1 = Some (sh', t1') ->
  sh' = sh /\ t1' = t1 /\ s1_stuck sh (s1_at t1) \/
  sh' = sh /\ s1_at t1' = S1Exit /\ s1_at t1 = S1Pop /\ shutdown (q1 (sh_ot sh)) = true \/
  s1_at t1' <> S1Exit /\ work sh' (s1_at t1') t2 < work sh (s1_at t1) t2.
Proof.
  intros Hs E. destruct (sim_depth _ _ Hs) as [E1 E2]. pose proof Hs as [_ Hc Hb _].
  pose proof (bs_one _ _ _ _ Hb) as Hm. cbn [y_sh y_s1 y_s2] in *. unfold s1_match in Hm.
  assert (Hq2 : 0 <= depth (q2 (sh_ot sh))) by lia. unfold stage1_step in E.
  destruct (s1_at t1) as [|x|x b|x|x| |x b holes|x b holes|x b holes|x b rc|x b [n|]| |x b|x| ] eqn:Et;
    try done; try (injection E as <- <-; right; right; unfold work; cbn; (split; [done|lia])).
  - bind_step E. destruct (pop_progress _ _ _ _ _ _ (co_first _ _ _ _ _ _ Hc) F)
      as [(-> & -> & Hd & Hr)|(y & -> & Hd)].
    + rewrite with_heap_id in E by done. destruct (shutdown (q1 (sh_ot sh))) eqn:Esd; rewrite Hr in E;
        injection E as <- <-; [right; by left|left]. split; [done|].
      split; [by rewrite <- Et, thread_eta|done].
    + injection E as <- <-. right. right. unfold work. cbn. split; [done|lia].
  - bind_step E. destruct (scrap_page_is_full _);
      [injection E as <- <-; right; right; unfold work; cbn; split; [done|lia]|].
    rewrite (never_busy _ _ _ _ Hb) in E. bind_step E. injection E as <- <-. right. right.
    unfold work. cbn. split; [done|lia].
  - bind_step E. destruct (guard_enter_queues _ _ _ F) as [Q1 Q2]. injection E as <- <-. right. right.
    unfold work. cbn. rewrite Q1, Q2. split; [done|lia].
  - bind_step E. destruct (push_q2_depth _ _ _ F Hq2) as [Q1 Q2]. injection E as <- <-. right. right.
    unfold work. cbn. rewrite Q1. split; [done|lia].
  - bind_step E. destruct b0; injection E as <- <-.
    + left. split; [done|]. split; [by rewrite <- Et, thread_eta|exact F].
    + right. right. unfold work. cbn. split; [done|lia].
  - bind_step E. injection E as <- <-. right. right. unfold work. cbn. split; [done|lia].
  - bind_step E. bind_step E. injection E as <- <-. right. right. unfold work. cbn. split; [done|lia].
  - bind_step E. injection E as <- <-. right. right. unfold work. cbn. split; [done|lia].
  - bind_step E. destruct (guard_enter_queues _ _ _ F) as [Q1 Q2]. injection E as <- <-. right. right.
    unfold work. cbn. rewrite Q1, Q2. split; [done|lia].
  - bind_step E. destruct (push_q2_depth _ _ _ F Hq2) as [Q1 Q2]. injection E as <- <-. right. right.
    unfold work. cbn. rewrite Q1. split; [done|lia].
  - injection E as <- <-. left. split; [done|]. split; [by rewrite <- Et, thread_eta|done].
Qed.

(** The Stage-2 thread waits for a page. *)
Definition s2_stuck (sh : shared S) (c : s2_ctl) : Prop :=
  match c with
  | S2Pop => depth (q2 (sh_ot sh)) = 0 /\ shutdown (q2 (sh_ot sh)) = false
  | S2Exit => True
  | _ => False
  end.

Lemma with_heap_id2 (s : shared S) : with_ot (set_q2 (q2 (sh_ot s)) (sh_ot s)) (with_heap (sh_heap s) s) = s.
Proof. rewrite set_q2_eta. by destruct s. Qed.

Lemma claim_depth (s s' : shared S) l batch nx :
  queue_rep (sh_heap s) (q2 (sh_ot s)) l -> stage2_claim s batch = Some (nx, s') ->
  q1 (sh_ot s') = q1 (sh_ot s) /\
  depth (q2 (sh_ot s')) = depth (q2 (sh_ot s)) - (match nx with Some _ => 1 | None => 0 end).
Proof.
  unfold stage2_claim. intros Hq E. destruct (_ <? _); [|injection E as <- <-; split; [done|lia]].
  bind_step E. bind_step E. bind_step E. injection E as <- <-. split; [done|]. cbn.
  destruct (pop_if_base_rep _ _ _ (u64 (base s0 + Z.of_nat (length batch) * NOX_DATAZONE_SIZE)) Hq)
    as [(a1 & r & pp & El & _ & _ & hh & qq & Ep & (_ & _ & Hd & _) & _)|[Ep _]];
    rewrite F1 in Ep; injection Ep as -> -> ->; cbn.
  - destruct Hq as (_ & _ & Hd0 & _). rewrite Hd, Hd0, El. cbn [length]. lia.
  - lia.
Qed.

Lemma unlink_queues (s s' : shared S) a : stage2_unlink s a = Some s' -> sh_ot s' = sh_ot s.
Proof.
  unfold stage2_unlink. intros E. bind_step E. destruct (detached _); [by injection E as <-|].
  bind_step E. bind_step E. by injection E as <-.
Qed.

Lemma stage2_work sh t1 t2 fg failed a sh' t2' :
  sim (mk_sys sh t1 t2 fg failed) a -> stage2_step sh t2 = Some (sh', t2') ->
  sh' = sh /\ t2' = t2 /\ s2_stuck sh t2 \/
  sh' = sh /\ t2' = S2Exit /\ t2 = S2Pop /\ shutdown (q2 (sh_ot sh)) = true \/
  t2' <> S2Exit /\ work sh' (s1_at t1) t2' < work sh (s1_at t1) t2.
Proof.
  intros Hs E. destruct (sim_depth _ _ Hs) as [E1 E2]. pose proof Hs as [_ Hc Hb _].
  pose proof (bs_two _ _ _ _ Hb) as Hm. cbn [y_sh y_s1 y_s2] in *. unfold s2_match in Hm.
  assert (Hq2 : 0 <= depth (q2 (sh_ot sh))) by lia. unfold stage2_step in E.
  destruct t2 as [|x| |batch|batch nx|batch nx|batch|batch [|x r]|batch [|x r]|batch|batch
    |batch ok|batch [|]|[|x r]|b r|r| ]; try done;
    try (injection E as <- <-; right; right; unfold work; cbn; (split; [done|lia])).
  - bind_step E. destruct (pop_progress _ _ _ _ _ _ (co_second _ _ _ _ _ _ Hc) F)
      as [(-> & -> & Hd & Hr)|(y & -> & Hd)].
    + rewrite with_heap_id2 in E. destruct (shutdown (q2 (sh_ot sh))) eqn:Esd; rewrite Hr in E;
        injection E as <- <-; [right; by left|by left].
    + injection E as <- <-. right. right. unfold work. cbn. split; [done|lia].
  - rewrite (never_busy _ _ _ _ Hb) in E. injection E as <- <-. right. right. unfold work. cbn.
    split; [done|lia].
  - bind_step E. destruct (claim_depth _ _ _ _ _ (co_second _ _ _ _ _ _ Hc) F) as [Q1 Q2].
    match goal with r : option addr |- _ => destruct r end; injection E as <- <-; right; right;
      unfold work; cbn; rewrite Q1, Q2; (split; [done|lia]).
  - bind_step E. destruct (_ || _) eqn:Ef; injection E as <- <-; right; right; unfold work; cbn;
      rewrite ?length_app; cbn; (split; [done|lia]).
  - bind_step E. injection E as <- <-. right. right. unfold work. cbn. split; [done|lia].
  - bind_step E. apply unlink_queues in F. injection E as <- <-. right. right. unfold work. rewrite F.
    cbn. split; [done|lia].
  - by destruct Hm as (_ & x & r & Hr & _).
  - bind_step E. unfold stage2_mark in F. bind_step F. injection F as <-. injection E as <- <-.
    right. right. unfold work. cbn. split; [done|lia].
  - bind_step E. injection E as <- <-. right. right. unfold work. cbn. split; [done|lia].
  - bind_step E. bind_step E. injection E as <- <-. right. right. unfold work. cbn. split; [done|lia].
  - bind_step E. destruct (guard_leave_queues _ _ _ F) as [Q1 Q2]. injection E as <- <-. right. right.
    unfold work. cbn. rewrite Q1, Q2. split; [done|lia].
  - injection E as <- <-. by left.
Qed.

(** * Never blocked together *)

Lemma guard_open_empty o b : wb_rep (wb o) [] -> wb_guard_blocked o b = Some false.
Proof.
  intros [_ Hk]. unfold wb_guard_blocked. fold (slot_of b). rewrite Hk by apply slot_of_lt. done.
Qed.

(** Both stages blocked means that nothing is pending. *)
Lemma both_stuck_drained (s : sys S) a :
  sim s a -> s1_at (y_s1 s) <> S1Exit -> y_s2 s <> S2Exit ->
  s1_stuck (y_sh s) (s1_at (y_s1 s)) -> s2_stuck (y_sh s) (y_s2 s) ->
  pending (sh_ot (y_sh s)) = 0 /\ work (y_sh s) (s1_at (y_s1 s)) (y_s2 s) = 0.
Proof.
  intros Hs N1 N2 K1 K2. destruct (sim_depth _ _ Hs) as [D1 D2]. pose proof Hs as [_ _ Hb _].
  pose proof Hb as [Hwb Hp _ M1 M2]. rewrite Hp. unfold ord, work.
  rewrite (s1_match_hand _ _ M1), (s2_match_hand _ _ M2). unfold guard_bases in Hwb.
  rewrite (s2_match_hand _ _ M2) in Hwb. destruct (y_s2 s); try done. cbn in *. destruct K2 as [K2 _]. pose proof K2 as K2'. rewrite D2 in K2'.
  destruct (pq2 a); [|done]. cbn in *. destruct (s1_at (y_s1 s)); try done; cbn in *.
  - destruct K1 as [K1 _]. rewrite K1, K2. rewrite D1 in K1. by destruct (pq1 a).
  - by rewrite guard_open_empty in K1.
Qed.

(** * Fair schedules *)

(** The threads run, and no shutdown has been requested. *)
Definition running (s : sys S) : Prop :=
  quits (sh_ot (y_sh s)) = (false, false) /\ s1_at (y_s1 s) <> S1Exit /\ y_s2 s <> S2Exit.

Definition background (m : move) : Prop := m = MStage1 \/ m = MStage2.

Definition stuck (s : sys S) (m : move) : Prop :=
  match m with
  | MStage1 => s1_stuck (y_sh s) (s1_at (y_s1 s))
  | MStage2 => s2_stuck (y_sh s) (y_s2 s)
  | _ => True
  end.

Definition sys_work (s : sys S) : Z := work (y_sh s) (s1_at (y_s1 s)) (y_s2 s).

Lemma exec_background s m a :
  sim s a -> background m -> exists s', exec true s m = Some (s', None).
Proof.
  intros Hs [-> | ->]; destruct s as [sh t1 t2 fg failed]; cbn [exec].
  - destruct (sim_stage1 _ _ _ _ _ _ Hs) as (? & ? & -> & _). by eexists.
  - destruct (sim_stage2 _ _ _ _ _ _ Hs) as (? & ? & -> & _). by eexists.
Qed.

Lemma exec_work s m s' l a :
  sim s a -> running s -> background m -> exec true s m = Some (s', l) ->
  running s' /\ (s' = s /\ stuck s m \/ sys_work s' < sys_work s).
Proof.
  intros Hs (Hq & N1 & N2) Hm E. destruct s as [sh t1 t2 fg failed]. cbn [exec] in E.
  unfold running, sys_work. cbn [y_sh y_s1 y_s2] in *.
  assert (Hq1 : shutdown (q1 (sh_ot sh)) = false /\ shutdown (q2 (sh_ot sh)) = false)
    by (by injection Hq). destruct Hq1 as [Hq1 Hq2].
  destruct Hm as [-> | ->]; bind_step E; apply (inj Some) in E; apply pair_eq in E as [<- _];
    cbn [y_sh y_s1 y_s2].
  - pose proof (stage1_keeps _ _ _ _ F) as [Hk _].
    destruct (stage1_work _ _ _ _ _ _ _ _ Hs F) as [(-> & -> & Hst)|[(_ & _ & _ & Hx)|[Hn Hw]]];
      try congruence;
      (split; [split_and!; congruence|]); auto.
  - pose proof (stage2_keeps _ _ _ _ F) as [Hk _].
    destruct (stage2_work _ _ _ _ _ _ _ _ Hs F) as [(-> & -> & Hst)|[(_ & _ & _ & Hx)|[Hn Hw]]];
      try congruence;
      (split; [split_and!; congruence|]); auto.
Qed.

(** A background move keeps the state related to a pipeline when everything may be damaged. *)
Lemma background_sim s m s' l a :
  (forall ls, counted ls) -> sim s a -> exec true s m = Some (s', l) -> exists a', sim s' a'.
Proof.
  intros Hall Hs E.
  destruct (sim_step_in _ _ _ _ (exec_step _ _ _ _ E) Hs (loss_contained _ _ (Hall _))) as (a' & _ & Hs').
  by exists a'.
Qed.

(** A schedule of background moves: the work left drops, or every thread it names is blocked and
    nothing changes. *)
Lemma run_background ms : forall s a,
  (forall ls, counted ls) -> sim s a -> running s -> Forall background ms ->
  exists s' a', run_schedule true s ms = Some (s', []) /\ sim s' a' /\ running s' /\
    (s' = s /\ Forall (stuck s) ms \/ sys_work s' < sys_work s).
Proof.
  induction ms as [|m ms IH]; intros s a Hall Hs Hr Hf.
  - exists s, a. split_and!; try done. left. by split.
  - apply Forall_cons in Hf as [Hm Hf]. destruct (exec_background _ _ _ Hs Hm) as [s1 E].
    destruct (exec_work _ _ _ _ _ Hs Hr Hm E) as [Hr1 Hw].
    destruct (background_sim _ _ _ _ _ Hall Hs E) as (a1 & Hs1).
    destruct (IH s1 a1 Hall Hs1 Hr1 Hf) as (s2 & a2 & E2 & Hs2 & Hr2 & Hw2).
    exists s2, a2. split; [cbn [run_schedule]; rewrite E; cbn [mbind option_bind]; by rewrite E2|].
    split_and!; try done. destruct Hw as [[-> Hst]|Hw], Hw2 as [[-> Hst2]|Hw2]; auto.
    right. lia.
Qed.

(** A round gives both threads a turn. *)
Definition fair_round (ms : list move) : Prop :=
  Forall background ms /\ MStage1 ∈ ms /\ MStage2 ∈ ms.

Lemma run_schedule_app c s ms1 ms2 s1 s2 es1 es2 :
  run_schedule (S := S) c s ms1 = Some (s1, es1) -> run_schedule c s1 ms2 = Some (s2, es2) ->
  run_schedule c s (ms1 ++ ms2) = Some (s2, es1 ++ es2).
Proof.
  revert s es1. induction ms1 as [|m ms1 IH]; intros s es1 E1 E2; cbn [run_schedule app] in *.
  - apply (inj Some) in E1. apply pair_eq in E1 as [<- <-]. done.
  - destruct (exec c s m) as [[s0 l]|]; [|done]. cbn [mbind option_bind] in *.
    destruct (run_schedule c s0 ms1) as [[s3 es3]|] eqn:E3; [|done]. cbn [mbind option_bind] in *.
    apply (inj Some) in E1. apply pair_eq in E1 as [-> <-]. rewrite (IH _ _ E3 E2).
    cbn [mbind option_bind]. by rewrite app_assoc.
Qed.

Lemma rounds_drain rounds : forall s a,
  (forall ls, counted ls) -> sim s a -> running s -> Forall fair_round rounds ->
  sys_work s < Z.of_nat (length rounds) \/ pending (sh_ot (y_sh s)) = 0 /\ sys_work s = 0 ->
  exists s', run_schedule true s (concat rounds) = Some (s', []) /\ pending (sh_ot (y_sh s')) = 0.
Proof.
  induction rounds as [|r rounds IH]; intros s a Hall Hs Hr Hf Hw.
  - pose proof (work_nonneg _ _ Hs) as Hn. fold (sys_work s) in Hn. exists s.
    split_and!; [done..|]. cbn in Hw. destruct Hw as [Hw|[Hp _]]; [lia|done].
  - apply Forall_cons in Hf as [[Hb [M1 M2]] Hf]. cbn [concat length] in *.
    destruct (run_background r s a Hall Hs Hr Hb) as (s' & a' & E & Hs' & Hr' & Hd).
    assert (Hw' : sys_work s' < Z.of_nat (length rounds) \/
                  pending (sh_ot (y_sh s')) = 0 /\ sys_work s' = 0).
    { destruct Hd as [[-> Hst]|Hd].
      - right. rewrite Forall_forall in Hst. destruct Hr as (_ & X1 & X2).
        exact (both_stuck_drained s a Hs X1 X2 (Hst _ M1) (Hst _ M2)).
      - pose proof (work_nonneg _ _ Hs') as Hn. fold (sys_work s') in Hn. left. lia. }
    destruct (IH s' a' Hall Hs' Hr' Hf Hw') as (s2 & E2 & Hp2).
    exists s2. split_and!; [|done..]. by rewrite (run_schedule_app _ _ _ _ _ _ _ _ E E2).
Qed.

(** * The engine drains *)

Lemma running_step s l s' a : sys_step s l s' -> sim s a -> running s -> running s'.
Proof.
  intros Hst Hs Hr. pose proof Hr as (Hq & N1 & N2).
  destruct Hst as [sh t1 t2 fg failed i rc baddr src size offset sh' c Hi Hok E
    |sh t1 t2 fg failed i c now al sh' c' Hi Hok E|sh t1 t2 fg failed sh' t1' E
    |sh t1 t2 fg failed sh' t2' E]; cbn [y_sh y_s1 y_s2] in *.
  - unfold nox_write in E. destruct (nox_write_route size offset); by injection E as <- <-.
  - apply fg_flags in E. unfold running, quits in *. cbn in *. injection E as _ -> ->. done.
  - eapply (exec_work _ MStage1); [done..|by left|]. cbn [exec]. by rewrite E.
  - eapply (exec_work _ MStage2); [done..|by right|]. cbn [exec]. by rewrite E.
Qed.

Lemma losing_running x s0 es ls s :
  losing_run s0 es ls s -> (forall ls, counted ls) ->
  sim s0 (pipe_initial (file_byte x)) -> running s0 -> running s.
Proof.
  intros Hr. induction Hr as [s|s es ls s1 l s2 Hr IH Hs]; intros Hd Hs0 Hr0; [done|].
  destruct (run_in_sim _ _ _ _ (losing_in _ _ _ _ Hr (Hd _)) Hs0) as (a & _ & Ha).
  eapply running_step; [done..|]. by apply IH.
Qed.

Lemma open_running e high low w st (x : S) junk callers s :
  engine_open e high low w st x junk callers = Some s -> s1_at (y_s1 s) <> S1Exit -> running s.
Proof.
  intros E Hx. unfold engine_open in E. rewrite open_spec in E. destruct (open_ok e); [|done].
  bind_step E. bind_step F. apply (inj Some) in F as [= <- <- <-]. cbn [mbind option_bind] in E.
  unfold stage1_start in E. destruct (posix_memalign _ _ _); apply (inj Some) in E as <-; [done|by destruct Hx].
Qed.

(** Stage-1 does not come back once it has left. *)
Lemma step_exit s l s' : sys_step s l s' -> s1_at (y_s1 s) = S1Exit -> s1_at (y_s1 s') = S1Exit.
Proof.
  intros Hs Hx. destruct Hs as [| |sh t1 t2 fg failed sh' t1' E|]; cbn [y_s1] in *; try done.
  unfold stage1_step in E. rewrite Hx in E. by injection E as _ <-.
Qed.

Lemma losing_exit s es ls s' :
  losing_run s es ls s' -> s1_at (y_s1 s') <> S1Exit -> s1_at (y_s1 s) <> S1Exit.
Proof.
  intros Hr. induction Hr as [s|s es ls s1 l s2 Hr IH Hs]; intros Hx; [done|].
  apply IH. intros Hx1. by apply Hx, (step_exit _ _ _ Hs).
Qed.

End Progress.

Section Drain.
Context `{NoxConfig} {S : Type} `{PosixLaws S}.

Lemma engine_losing_running (x : S) es ls s :
  engine_losing x es ls s -> s1_at (y_s1 s) <> S1Exit -> running s.
Proof.
  intros (e & high & low & w & st & junk & callers & s0 & Ho & Hw & Hst & Hr) Hx.
  destruct (open_sim (dmg := all_damage) _ _ _ _ _ _ _ _ _ Ho Hw Hst) as [Hs0 _].
  eapply (losing_running (dmg := all_damage)); [done|exact counted_all|done|].
  eapply open_running; [done|]. by eapply losing_exit.
Qed.

(** A healthy engine has its Stage-1 thread. *)
Lemma healthy_alive (x : S) es s : engine_run x es s -> healthy s -> s1_at (y_s1 s) <> S1Exit.
Proof.
  intros (e & high & low & w & st & junk & callers & s0 & Ho & Hw & Hst & Hr) Hh.
  destruct (open_sim (dmg := all_damage) _ _ _ _ _ _ _ _ _ Ho Hw Hst) as [Hs0 _].
  destruct (run_loses _ _ _ Hr) as [ls Hl].
  apply (losing_running (dmg := all_damage) x s0 es ls s); [exact Hl|exact counted_all|done|].
  eapply open_running; [done|]. pose proof (healthy_run _ _ _ Hr Hh) as Hh0.
  unfold engine_open in Ho. rewrite open_spec in Ho. destruct (open_ok e); [|done].
  bind_step Ho. bind_step F. apply (inj Some) in F as [= <- <- <-]. cbn [mbind option_bind] in Ho.
  unfold stage1_start in Ho. destruct (posix_memalign _ _ _); apply (inj Some) in Ho as <-; [done|by destruct Hh0].
Qed.

(** C14: Draining terminates, whatever fails. Take any state the engine reaches with its Stage-1
    thread alive, after any errors and any reuse of addresses, and let the flusher threads run alone under any schedule made
    of rounds in which each of them gets at least one turn, with any transfer failing on the way.
    The whole schedule executes without undefined behaviour and, if it has at least 24 rounds per
    pending page plus 3, ends with nothing pending, so that [otflush_drain] returns: 0, or the
    error latched. There is no deadlock and no livelock between the queues, the parking and the
    writeback guard, and neither a write that fails nor a page given up leaves a count behind. *)
Theorem drain_terminates (x : S) (es : list event) (s : sys S) (rounds : list (list move)) :
  engine_run x es s -> s1_at (y_s1 s) <> S1Exit -> Forall fair_round rounds ->
  24 * pending (sh_ot (y_sh s)) + 3 <= Z.of_nat (length rounds) ->
  exists s', run_schedule true s (concat rounds) = Some (s', []) /\
    pending (sh_ot (y_sh s')) = 0 /\
    otflush_drain (sh_ot (y_sh s')) = Some (io_err (sh_ot (y_sh s'))).
Proof.
  intros Hr Hx Hf Hlen. destruct (engine_loses _ _ _ Hr) as [ls Hl].
  pose proof (engine_losing_running _ _ _ _ Hl Hx) as Hrun.
  destruct (engine_sim_all _ _ _ Hr) as [a Hs].
  pose proof (work_bound (dmg := all_damage) _ _ Hs) as Hw. fold (sys_work s) in Hw.
  destruct (rounds_drain (dmg := all_damage) rounds s a) as (s' & E & Hp);
    [exact counted_all|done..|left; lia|].
  exists s'. split_and!; [done..|]. unfold otflush_drain. by rewrite Hp.
Qed.

End Drain.

Section Witness.
Import Sample.

(** The two pages of the sample, with Stage-1 in the middle of a hole read that will fail, and a
    gather write that will fail too. *)
Lemma drain_terminates_witness :
  exists es s, engine_run FaultSample.flaky es s /\ pending (sh_ot (y_sh s)) = 2 /\
    exists s', run_schedule true s (concat (replicate 51 [MStage2; MStage1])) = Some (s', []) /\
      pending (sh_ot (y_sh s')) = 0 /\
      otflush_drain (sh_ot (y_sh s')) = Some (io_err (sh_ot (y_sh s'))).
Proof.
  destruct (FaultSample.reached_losing (fun s _ _ =>
      match s1_at (y_s1 s) with S1Exit => false | _ => true end &&
      bool_decide (pending (sh_ot (y_sh s)) = 2)) FaultSample.spoiled_calls)
    as (s & es & lost & Hr & [Hh Hp]%andb_true_iff); [vm_compute; reflexivity|].
  apply bool_decide_eq_true_1 in Hp. apply losing_engine in Hr. exists es, s. split; [exact Hr|].
  split; [exact Hp|]. apply (drain_terminates FaultSample.flaky es s _ Hr).
  - intros E. by rewrite E in Hh.
  - apply Forall_replicate. split; [|split].
    + apply Forall_cons. split; [by right|]. apply Forall_cons. by split; [left|].
    + right. left.
    + left.
  - rewrite Hp, length_replicate. lia.
Defined.

End Witness.
