(* ===== verification/CloseErrors.v ===== *)
(** Closing the engine: [nox_close] as a third thread beside the two stages it drains, stops
    and joins, and what it returns. The theorem follows [nox_close] from any state at all,
    through failing transfers, and shows that its result is exact: 0 when no background
    transfer failed and [close(2)] succeeded, -1 otherwise. *)
From stdpp Require Import base numbers list gmap sets.
From Corelib Require Import Init.Byte.
From S2P Require Import Prelude Config Segments IoDirect Watermark ScrapPage Heap Queue.
From S2P Require Import PageIndex Stats Otflush Engine Pipeline System Schedule Simulation.
From S2P Require Import SimFlush SimWrite Faults Apart Guarantees.

Inductive close_move := CClose | CStage1 | CStage2.

(** A round gives each of the three threads a turn. *)
Definition close_round (ms : list close_move) : Prop := forall m, m ∈ ms.

Definition one_round : list close_move := [CClose; CStage2; CStage1].

Lemma one_round_turns n : Forall close_round (replicate n one_round).
Proof. apply Forall_replicate. intros []; unfold one_round; set_solver. Qed.

(** * A sweep that keeps an invariant of its context *)

Lemma foreach_step_keeps {A} (P : A -> Prop) fn :
  (forall a h c h' c', fn a h c = Some (h', c') -> P c -> P c') ->
  forall h c idx w h' c' w', foreach_step fn h c idx w = Some (h', c', w') -> P c -> P c'.
Proof.
  intros Hfn h c idx w h' c' w' E Hc. destruct w as [b|b a|b a]; cbn [foreach_step] in E.
  - destruct (_ <? _); [bind_step E|]; by injection E as _ <- _.
  - bind_step E. injection E as <- <- <-. eauto.
  - bind_step E. by injection E as _ <- _.
Qed.

Section CloseErrors.
Context `{NoxConfig} {S : Type} `{PosixLaws S}.

(** * The closing engine *)

Definition close_exec (close_ok : bool) (s : sys S) (c : close_ctl) (m : close_move)
  : option (sys S * close_ctl) :=
  let '(mk_sys sh t1 t2 fg failed) := s in
  match m with
  | CClose =>
      '(sh', c') ← close_step sh (s1_at t1) t2 close_ok c; Some (mk_sys sh' t1 t2 fg failed, c')
  | CStage1 => '(sh', t1') ← stage1_step sh t1; Some (mk_sys sh' t1' t2 fg failed, c)
  | CStage2 => '(sh', t2') ← stage2_step sh t2; Some (mk_sys sh' t1 t2' fg failed, c)
  end.

Fixpoint close_run (close_ok : bool) (s : sys S) (c : close_ctl) (ms : list close_move)
  : option (sys S * close_ctl) :=
  match ms with
  | [] => Some (s, c)
  | m :: ms => '(s, c) ← close_exec close_ok s c m; close_run close_ok s c ms
  end.

(** What the errors of a run may have spoiled. *)
Fixpoint close_losses (close_ok : bool) (s : sys S) (c : close_ctl) (ms : list close_move)
  : list loss :=
  match ms with
  | [] => []
  | m :: ms =>
      match close_exec close_ok s c m with
      | Some (s', c') => step_loss s s' ++ close_losses close_ok s' c' ms
      | None => []
      end
  end.

Lemma close_exec_fg ok s c m s' c' : close_exec ok s c m = Some (s', c') -> y_fg s' = y_fg s.
Proof.
  destruct s as [sh t1 t2 fg failed]. destruct m; cbn [close_exec]; intros E; bind_step E;
    by injection E as <- _.
Qed.

Lemma close_run_app ok s c ms1 ms2 s1 c1 :
  close_run ok s c ms1 = Some (s1, c1) -> close_run ok s c (ms1 ++ ms2) = close_run ok s1 c1 ms2.
Proof.
  revert s c. induction ms1 as [|m ms1 IH]; intros s c E; cbn [close_run app] in *.
  - apply (inj Some) in E. by apply pair_eq in E as [<- <-].
  - bind_step E. by apply IH.
Qed.

Lemma sweep_flags h o m idx w h' o' m' w' :
  foreach_step enqueue_one h (o, m) idx w = Some (h', (o', m'), w') -> flags o' = flags o.
Proof.
  intros E. apply (foreach_step_keeps (fun c : otflush * list message => flags c.1 = flags o)) in E;
    [done| |done].
  intros a h1 [o1 m1] h2 [o2 m2] Ef Hf. unfold enqueue_one in Ef. bind_step Ef. cbn in *.
  destruct (scrap_page_is_full _); bind_step Ef; injection Ef as _ <- _; rewrite <- Hf;
    [by eapply enqueue_full_flags|by eapply enqueue_partial_flags].
Qed.

Lemma close_losses_app ok s c ms1 ms2 s1 c1 :
  close_run ok s c ms1 = Some (s1, c1) ->
  close_losses ok s c (ms1 ++ ms2) = close_losses ok s c ms1 ++ close_losses ok s1 c1 ms2.
Proof.
  revert s c. induction ms1 as [|m ms1 IH]; intros s c E; cbn [close_run close_losses app] in *.
  - apply (inj Some) in E. by apply pair_eq in E as [<- <-].
  - destruct (close_exec ok s c m) as [[s2 c2]|]; [|done]. cbn [mbind option_bind] in *.
    rewrite <- app_assoc. by rewrite (IH _ _ E).
Qed.

(** [nox_close] itself touches neither the latched error nor a failed call. *)
Lemma close_step_flags (sh sh' : shared S) t1 t2 ok c c' :
  close_step sh t1 t2 ok c = Some (sh', c') -> io_err (sh_ot sh') = io_err (sh_ot sh).
Proof.
  intros E. destruct c; cbn [close_step] in E; try (by injection E as <- _);
    try (destruct (otflush_drain (sh_ot sh)); by injection E as <- _).
  - bind_step E. apply sweep_flags in F as [= Ei _ _]. by injection E as <- _.
  - bind_step E. by injection E as <- _.
Qed.

(** * The invariant *)

(** The latched error, as a return value. *)
Definition err_code (o : otflush) : Prop := io_err o = 0 \/ io_err o = -1.

(** An error code read from the latch earlier: it can only have been 0 or what it is now. *)
Definition earlier (o : otflush) (e : Z) : Prop := e = 0 \/ e = -1 /\ io_err o = -1.

Definition exited (s : sys S) : Prop := s1_at (y_s1 s) = S1Exit /\ y_s2 s = S2Exit.

Definition result_of (o : otflush) (ok : bool) : Z :=
  if (io_err o =? 0) && ok then 0 else -1.

Lemma result_zero o ok : 0 = result_of o ok -> io_err o = 0 /\ ok = true.
Proof. unfold result_of. destruct (io_err o =? 0) eqn:E, ok; try done. split; [lia|done]. Qed.

Definition errors_inv (ok : bool) (s : sys S) (c : close_ctl) : Prop :=
  let o := sh_ot (y_sh s) in
  err_code o /\
  match c with
  | ClDisarm | ClDrain => True
  | ClSweep e _ | ClStopDrain e => earlier o e
  | ClStopFlag e e' | ClJoin1 e e' => earlier o e /\ earlier o e'
  | ClShutQ2 e e' | ClJoin2 e e' => s1_at (y_s1 s) = S1Exit /\ earlier o e /\ earlier o e'
  | ClErr e e' => exited s /\ earlier o e /\ earlier o e'
  | ClDestroy e | ClClose e => exited s /\ e = result_of o true
  | ClDone e => exited s /\ e = result_of o ok
  end.

Lemma earlier_drain o e : err_code o -> otflush_drain o = Some e -> earlier o e.
Proof.
  unfold otflush_drain. intros He E. destruct (0 <? pending o); [done|]. injection E as <-.
  destruct He as [He|He]; rewrite He; [by left|by right].
Qed.

Lemma earlier_error o o' e : io_err o' = io_err o \/ io_err o' = -1 -> earlier o e -> earlier o' e.
Proof. intros Hk [-> |[-> He]]; [by left|right]. split; [done|]. destruct Hk; congruence. Qed.

Lemma err_code_latch o o' : io_err o' = io_err o \/ io_err o' = -1 -> err_code o -> err_code o'.
Proof. intros [E|E] He; unfold err_code in *; rewrite E; auto. Qed.

(** The latch holds 0 or -1 in every state of a run. *)
Lemma step_err_code (s : sys S) l s' :
  sys_step s l s' -> err_code (sh_ot (y_sh s)) -> err_code (sh_ot (y_sh s')).
Proof.
  intros Hs. destruct Hs as [sh t1 t2 fg failed i rc baddr src size offset sh' c Hi Hok E
    |sh t1 t2 fg failed i c now al sh' c' Hi Hok E|sh t1 t2 fg failed sh' t1' E
    |sh t1 t2 fg failed sh' t2' E]; cbn [y_sh]; apply err_code_latch.
  - left. unfold nox_write in E. destruct (nox_write_route size offset); by injection E as <- _.
  - left. apply fg_flags in E. by injection E.
  - by apply stage1_keeps in E as [_ Hk].
  - by apply stage2_keeps in E as [_ Hk].
Qed.

Lemma engine_err_code x es (s : sys S) : engine_run x es s -> err_code (sh_ot (y_sh s)).
Proof.
  intros (e & high & low & w & st & junk & callers & s0 & Ho & _ & _ & Hr).
  induction Hr as [s|s es s1 l s2 Hr IH Hs]; [|by eapply step_err_code; [|apply IH]].
  unfold engine_open in Ho. rewrite open_spec in Ho. destruct (open_ok e); [|done].
  bind_step Ho. bind_step F. apply (inj Some) in F as [= <- <- <-]. cbn [mbind option_bind] in Ho.
  unfold stage1_start in Ho. destruct (posix_memalign _ _ _); apply (inj Some) in Ho as <-;
    [by left|by right].
Qed.

Lemma exit_stays1 (s : shared S) t s' t' :
  stage1_step s t = Some (s', t') -> s1_at t = S1Exit -> s' = s /\ s1_at t' = S1Exit.
Proof. unfold stage1_step. intros E Ht. rewrite Ht in E. by injection E as <- <-. Qed.

Lemma exit_stays2 (s : shared S) s' t' :
  stage2_step s S2Exit = Some (s', t') -> s' = s /\ t' = S2Exit.
Proof. intros E. by injection E as <- <-. Qed.

(** A background transition latches or keeps the error, and an exited thread does nothing. *)
Lemma errors_frame ok s s' c :
  errors_inv ok s c ->
  io_err (sh_ot (y_sh s')) = io_err (sh_ot (y_sh s)) \/ io_err (sh_ot (y_sh s')) = -1 ->
  (s1_at (y_s1 s) = S1Exit -> s1_at (y_s1 s') = S1Exit) ->
  (exited s -> y_sh s' = y_sh s /\ exited s') -> errors_inv ok s' c.
Proof.
  intros [He Hc] Hk K1 K2. split; [by eapply err_code_latch|].
  destruct c; destruct_and?; try done; split_and?; eauto using earlier_error;
    try (by apply K2); by destruct (K2 ltac:(done)) as [-> _].
Qed.

Lemma close_errors ok sh t1 t2 fg failed c sh' c' :
  errors_inv ok (mk_sys sh t1 t2 fg failed) c ->
  close_step sh (s1_at t1) t2 ok c = Some (sh', c') ->
  errors_inv ok (mk_sys sh' t1 t2 fg failed) c'.
Proof.
  unfold errors_inv, exited. cbn [y_sh y_s1 y_s2]. intros [He Hc] E.
  destruct c as [| |e w|e|e e'|e e'|e e'|e e'|e e'|e|e|e]; cbn [close_step] in E.
  - by injection E as <- <-.
  - destruct (otflush_drain (sh_ot sh)) eqn:Ed; injection E as <- <-; [|done].
    split; [done|]. by apply earlier_drain.
  - bind_step E. injection E as <- <-. apply sweep_flags in F as [= Ei _ _].
    unfold err_code, earlier in *. cbn. rewrite Ei. by destruct o.
  - destruct (otflush_drain (sh_ot sh)) eqn:Ed; injection E as <- <-; [|done].
    split_and!; try done. by apply earlier_drain.
  - by injection E as <- <-.
  - injection E as <- <-. destruct (s1_at t1); by split_and!; destruct_and?.
  - by injection E as <- <-.
  - injection E as <- <-. destruct t2; by split_and!; destruct_and?.
  - injection E as <- <-. destruct Hc as (Hx & [-> |[-> Hi]] & He'). 
    + split_and!; try apply Hx; [done|]. unfold result_of. rewrite andb_true_r.
      destruct (io_err (sh_ot sh) =? 0) eqn:Ei; [|done]. destruct He' as [-> |[-> Hi]]; [done|lia].
    + split_and!; try apply Hx; [done|]. unfold result_of. rewrite Hi. done.
  - bind_step E. by injection E as <- <-.
  - injection E as <- <-. destruct Hc as [Hx ->]. split_and!; try apply Hx; [done|]. unfold result_of.
    by destruct ok, (io_err (sh_ot sh) =? 0).
  - by injection E as <- <-.
Qed.

Lemma exec_errors ok s c m s' c' :
  errors_inv ok s c -> close_exec ok s c m = Some (s', c') -> errors_inv ok s' c'.
Proof.
  destruct s as [sh t1 t2 fg failed]. intros Hi E. unfold close_exec in E.
  destruct m; bind_step E; injection E as <- <-.
  - by eapply close_errors.
  - pose proof (exit_stays1 _ _ _ _ F) as Hx. apply stage1_keeps in F as [_ Hk].
    eapply errors_frame; [done|done|naive_solver|]. unfold exited. cbn in *. naive_solver.
  - assert (Hx : t2 = S2Exit -> s = sh /\ s0 = S2Exit)
      by (intros ->; by apply exit_stays2).
    apply stage2_keeps in F as [_ Hk].
    eapply errors_frame; [done|done|naive_solver|]. unfold exited. cbn in *. naive_solver.
Qed.

Lemma run_errors ok ms : forall s c s' c',
  errors_inv ok s c -> close_run ok s c ms = Some (s', c') -> errors_inv ok s' c'.
Proof.
  induction ms as [|m ms IH]; intros s c s' c' Hi E; cbn [close_run] in E.
  - by injection E as <- <-.
  - bind_step E. eauto using exec_errors.
Qed.

(** The latch is sticky over a run. *)
Lemma run_sticky ok ms : forall s c s' c',
  close_run ok s c ms = Some (s', c') ->
  io_err (sh_ot (y_sh s)) = -1 -> io_err (sh_ot (y_sh s')) = -1.
Proof.
  induction ms as [|m ms IH]; intros s c s' c' E He; cbn [close_run] in E.
  - by injection E as <- <-.
  - bind_step E. eapply IH; [done|]. destruct s as [sh t1 t2 fg failed]. unfold close_exec in F.
    destruct m; bind_step F; injection F as <- <-; cbn in *.
    + destruct c; cbn [close_step] in F0;
        try (injection F0 as <- _; done);
        try (destruct (otflush_drain (sh_ot sh)); injection F0 as <- _; done).
      * bind_step F0. apply sweep_flags in F as [= Ei _ _].
        injection F0 as <- _. cbn. congruence.
      * bind_step F0. by injection F0 as <- _.
    + apply stage1_keeps in F0 as [_ [-> | ->]]; done.
    + apply stage2_keeps in F0 as [_ [-> | ->]]; done.
Qed.

(** The move that ends a failed transfer. *)
Definition latches (s : sys S) (m : close_move) : Prop :=
  match m with
  | CClose => False
  | CStage1 => exists a b, s1_at (y_s1 s) = S1Apply a b None
  | CStage2 => exists batch, y_s2 s = S2Latch batch false
  end.

Lemma latches_error ok s c m s' c' :
  latches s m -> close_exec ok s c m = Some (s', c') -> io_err (sh_ot (y_sh s')) = -1.
Proof.
  destruct s as [sh t1 t2 fg failed]. unfold close_exec, latches. cbn [y_s1 y_s2].
  destruct m; [done|intros (a & b & Et) E|intros (batch & ->) E]; bind_step E; injection E as <- _.
  - unfold stage1_step in F. rewrite Et in F. bind_step F. by injection F as <- _.
  - by injection F as <- _.
Qed.

(** C6: [nox_close] swallows no error. From any state of the engine whatever, healthy or not,
    and under any schedule: when [nox_close] returns, both flusher threads have exited, and its
    result is 0 exactly when no background error is latched and [close(2)] succeeded, and -1
    otherwise. In particular it is -1 when an error was latched before the call, and when a
    hole read or a writeback fails at any time during the close. *)
Theorem close_reports_errors (ok : bool) (s : sys S) (ms : list close_move) (s' : sys S)
    (err : Z) :
  err_code (sh_ot (y_sh s)) -> close_run ok s ClDisarm ms = Some (s', ClDone err) ->
  exited s' /\ err = result_of (sh_ot (y_sh s')) ok /\
  (io_err (sh_ot (y_sh s)) = -1 -> err = -1) /\
  (forall ms1 m ms2 s1 c1, ms = ms1 ++ m :: ms2 -> close_run ok s ClDisarm ms1 = Some (s1, c1) ->
     latches s1 m -> err = -1).
Proof.
  intros He E.
  assert (Hi : errors_inv ok s' (ClDone err)) by (eapply (run_errors ok ms s ClDisarm); [exact (conj He I)|exact E]).
  destruct Hi as (_ & Hx & ->). split_and!; try done.
  - intros Hb. unfold result_of. by rewrite (run_sticky _ _ _ _ _ _ E Hb).
  - intros ms1 m ms2 s1 c1 -> E1 Hl. rewrite (close_run_app _ _ _ _ _ _ _ E1) in E.
    cbn [close_run] in E. bind_step E. apply (latches_error _ _ _ _ _ _ Hl) in F.
    unfold result_of. by rewrite (run_sticky _ _ _ _ _ _ E F).
Qed.

End CloseErrors.

Section Witness.
Import Sample.

(** One small write; the hole read succeeds and the writeback, during the close, fails. *)
Definition refusing_file : mem_file := mk_file (bytes xee) (2 * NOX_DATAZONE_SIZE) [Full; Fail EIO].

Definition refused_close : option (sys mem_file * sys mem_file * close_ctl) :=
  s ← engine_open all_ok NOX_WATERMARK_HIGH (NOX_WATERMARK_LOW NOX_WATERMARK_HIGH) wm_initial
        stats_zero refusing_file (bytes x00) {[0%nat]};
  '(s, _) ← run_schedule true s ([MCall 0 5 (bytes x11) 10 100] ++ one_chunk 0 1%positive ++
                                 [MFg 0 0 (from 2%positive)]);
  '(s', c) ← close_run true s ClDisarm (concat (replicate 1100 one_round)); Some (s, s', c).

Lemma close_reports_errors_witness :
  exists s s' err, io_err (sh_ot (y_sh s)) = 0 /\ io_err (sh_ot (y_sh s')) = -1 /\
    close_run true s ClDisarm (concat (replicate 1100 one_round)) = Some (s', ClDone err) /\
    exited s' /\ err = -1.
Proof.
  assert (Ht : match refused_close with
    | Some (s, s', ClDone _) => (io_err (sh_ot (y_sh s)) =? 0) && (io_err (sh_ot (y_sh s')) =? (-1))
    | _ => false end = true) by (vm_compute; reflexivity).
  unfold refused_close in Ht.
  destruct (engine_open _ _ _ _ _ _ _ _) as [s0|]; [cbn [mbind option_bind] in Ht|discriminate Ht].
  destruct (run_schedule true s0 _) as [[s es]|]; [cbn [mbind option_bind] in Ht|discriminate Ht].
  destruct (close_run true s ClDisarm _) as [[s' c]|] eqn:E; [cbn [mbind option_bind] in Ht|discriminate Ht].
  destruct c as [| | | | | | | | | | |err]; try discriminate Ht.
  apply andb_true_iff in Ht as [H1 H2]. apply Z.eqb_eq in H1, H2.
  destruct (close_reports_errors true s _ s' err (or_introl H1) E) as (Hx & He & _).
  exists s, s', err. split; [exact H1|]. split; [exact H2|]. split; [exact E|]. split; [exact Hx|].
  rewrite He. unfold result_of. by rewrite H2.
Defined.

End Witness.
