(* ===== verification/Sweep.v ===== *)
(** The shutdown sweep of [nox_close]: the walk of the index, access by access, gives each page
    that Stage-1 has given up another chance, by putting it back in a queue. *)
From stdpp Require Import base numbers list gmap sets.
From Corelib Require Import Init.Byte.
From S2P Require Import Prelude Config Segments IoDirect Watermark ScrapPage Heap Queue.
From S2P Require Import PageIndex Stats Otflush Engine Pipeline System Schedule Simulation.
From S2P Require Import SimFlush SimWrite Faults Apart Guarantees CloseErrors.

(** * The callback keeps the chains *)

Definition keeps_next (h h' : heap) : Prop :=
  forall b p, h !! b = Some p -> exists p', h' !! b = Some p' /\ next p' = next p.

#[export] Instance keeps_next_preorder : PreOrder keeps_next.
Proof.
  split; [intros h b p Hp; eauto|]. intros h1 h2 h3 K1 K2 b p Hp.
  destruct (K1 _ _ Hp) as (p1 & Hp1 & <-). by apply K2.
Qed.

Lemma store_keeps_next a f h h' :
  store a f h = Some h' -> (forall p, next (f p) = next p) -> keeps_next h h'.
Proof.
  unfold store. intros E Hf. bind_step E. injection E as <-. intros b p Hp.
  rewrite lookup_insert. case_decide; [subst; eexists; split; [done|]; rewrite Hf; congruence|eauto].
Qed.

Lemma push_keeps_next h q a h' q' : nox_queue_push h q a = Some (h', q') -> keeps_next h h'.
Proof.
  unfold nox_queue_push. intros E. bind_step E. apply store_keeps_next in F; [|done].
  destruct (tail q); [|by injection E as <- _]. bind_step E. apply store_keeps_next in F0; [|done].
  injection E as <- _. by etrans.
Qed.

Lemma enqueue_partial_keeps_next h o a h' o' m :
  otflush_enqueue_partial h o a = Some (h', o', m) -> keeps_next h h'.
Proof.
  unfold otflush_enqueue_partial. intros E. bind_step E. destruct (in_queue _); [by injection E as <- _ _|].
  bind_step E. bind_step E. apply store_keeps_next in F0; [|done]. apply push_keeps_next in F1.
  destruct (warn_if_deep _ _ _). injection E as <- _ _. by etrans.
Qed.

Lemma enqueue_full_keeps_next h o a h' o' m :
  otflush_enqueue_full h o a = Some (h', o', m) -> keeps_next h h'.
Proof.
  unfold otflush_enqueue_full. intros E. bind_step E. bind_step E. apply store_keeps_next in F; [|done].
  destruct (in_queue _); [by injection E as <- _ _|]. bind_step E. bind_step E. bind_step E.
  apply store_keeps_next in F1; [|done]. apply push_keeps_next in F3.
  destruct (warn_if_deep _ _ _). injection E as <- _ _. etrans; [done|]. by etrans.
Qed.

Lemma enqueue_one_keeps : keeps_chains enqueue_one.
Proof.
  intros a h [o m] h' c' b p E Hp. unfold enqueue_one in E. bind_step E.
  destruct (scrap_page_is_full _); bind_step E; injection E as <- _;
    [eapply enqueue_full_keeps_next|eapply enqueue_partial_keeps_next]; done.
Qed.

Lemma enqueue_one_flags a h o m h' o' m' :
  enqueue_one a h (o, m) = Some (h', (o', m')) -> flags o' = flags o.
Proof.
  unfold enqueue_one. intros E. bind_step E. destruct (scrap_page_is_full _); bind_step E;
    injection E as _ <- _; [by eapply enqueue_full_flags|by eapply enqueue_partial_flags].
Qed.

(** * The bytes of the pages stay *)

(** The same pages with the same user bytes. *)
Definition same_bytes (m m' : gmap addr scrap_page) : Prop :=
  dom m' = dom m /\
  forall e p, m !! e = Some p ->
    exists p', m' !! e = Some p' /\ base p' = base p /\ data p' = data p /\
      forall x, covered p' x <-> covered p x.

#[export] Instance same_bytes_preorder : PreOrder same_bytes.
Proof.
  split; [intros m; split; [done|intros e p Hp; by exists p]|].
  intros m1 m2 m3 [D1 K1] [D2 K2]. split; [congruence|]. intros e p Hp. clear D1 D2.
  destruct (K1 _ _ Hp) as (p1 & Hp1 & B1 & D1 & C1). destruct (K2 _ _ Hp1) as (p2 & Hp2 & B2 & D2 & C2).
  exists p2. split_and!; [done|congruence..|]. intros x. by rewrite C2, C1.
Qed.

Lemma requeue_same_bytes `{NoxConfig} (m : gmap addr scrap_page) e p :
  m !! e = Some p -> same_bytes m (<[e := set_in_queue true (tag_if_full p)]> m).
Proof.
  intros He. split; [rewrite dom_insert_L; apply elem_of_dom_2 in He; set_solver|].
  intros x q Hx. rewrite lookup_insert. case_decide as Hd; [subst x|by exists q].
  rewrite He in Hx. injection Hx as <-. eexists. split; [done|]. unfold tag_if_full.
  by destruct (scrap_page_is_full p).
Qed.

(** * The pages go back to the queues *)

Section Sweep.
Context `{NoxConfig} {dmg : Damage} {S : Type} `{PosixLaws S}.

Lemma ord_room (sh : shared S) a e p :
  pinv a -> core sh (pg a) (res a) (pq1 a) (pq2 a) (disk a) -> pg a !! e = Some p -> e ∉ ord a ->
  Z.of_nat (length (ord a)) + 1 <= Z.of_nat (size (sh_heap sh)).
Proof.
  intros Hinv [] Hp He. rewrite <- (map_size_fmap strip (sh_heap sh)), co_pg, <- size_dom.
  assert (Hnd : NoDup (e :: ord a)) by (constructor; [done|apply Hinv]).
  pose proof (size_list_to_set (C := gset positive) (e :: ord a) Hnd) as Hsz. cbn [length] in Hsz.
  enough (length (ord a) + 1 <= size (dom (pg a)))%nat by lia. rewrite Nat.add_1_r, <- Hsz.
  apply subseteq_size. intros x. rewrite elem_of_list_to_set, elem_of_dom, elem_of_cons.
  intros [->|Hx]; [by eexists|by apply Hinv].
Qed.

Lemma sweep_one (sh : shared S) t1 t2 fg failed a e b m :
  sim (mk_sys sh t1 t2 fg failed) a -> e ∉ ord a -> res a !! b = Some e ->
  exists h o ms a', enqueue_one e (sh_heap sh) (sh_ot sh, m) = Some (h, (o, m ++ ms)) /\
    sim (mk_sys (with_ot o (with_heap h sh)) t1 t2 fg failed) a' /\
    res a' = res a /\ ord a' ≡ₚ e :: ord a /\ same_bytes (pg a) (pg a').
Proof.
  intros [Hinv Hc Hb Hf] He Hr. cbn [y_sh y_s1 y_s2 y_fg] in *.
  destruct (pi_res _ Hinv _ _ Hr) as (_ & p & Hp & Hbp & _ & _).
  pose proof (ord_room _ _ _ _ Hinv Hc Hp He) as Hroom.
  destruct a as [pgs r l1 l2 k1 k2 d f]. cbn [pg res pq1 pq2 disk fl] in *.
  destruct (heap_page _ _ _ _ _ _ _ _ Hc Hp) as (q & Hq & ->).
  destruct (pi_out _ Hinv e _ Hp He) as (_ & _ & Hiq).
  assert (Hx12 : (e ∉ l1) /\ (e ∉ l2)) by (unfold ord in He; cbn in He; rewrite !elem_of_app in He; tauto).
  destruct Hx12 as [X1 X2]. pose proof (queues_apart _ _ _ _ _ _ _ _ Hinv) as Hd12.
  pose proof (pending_room _ _ _ _ _ _ _ _ _ _ _ Hinv Hc Hb) as Hpend.
  unfold enqueue_one. rewrite Hq. cbn [mbind option_bind].
  pose proof (ps_sweep pgs r l1 l2 k1 k2 d f b e (strip q) Hr Hp He) as Hstep.
  unfold tag_if_full in Hstep.
  change (scrap_page_is_full (strip q)) with (scrap_page_is_full q) in Hstep.
  pose proof (step_inv _ _ _ Hinv Hstep) as Hinv'.
  pose proof (requeue_same_bytes pgs e (strip q) Hp) as Hsame. unfold tag_if_full in Hsame.
  change (scrap_page_is_full (strip q)) with (scrap_page_is_full q) in Hsame.
  destruct (scrap_page_is_full q) eqn:Ef.
  - pose proof (guard_within _ _ _ _ _ _ _ _ _ _ _ Hb) as Hg. pose proof Hb as [Hwb _ _ _ _].
    pose proof (co_size _ _ _ _ _ _ Hc) as Hsz.
    destruct (enqueue_full_new sh pgs r l1 l2 d e q _ Hc Hq Hiq X1 X2 Hd12 Hwb)
      as (h & o & ms & Ee & Hce & Hwbe & Hpe & Hbce); [lia|].
    rewrite Ee. cbn [mbind option_bind]. do 4 eexists. split; [done|].
    split; [split; cbn [y_sh y_s1 y_s2 y_fg pg res pq1 pq2 disk fl]; try done|].
    + apply (bg_sim_born (sh_ot sh) o t1 t2 pgs r r l1 l2 k1 k2 d f f e _ (base q) true Hb); try done.
      by rewrite Hpe.
    + split_and!; [done| |exact Hsame]. unfold ord. cbn. solve_Permutation.
  - destruct (enqueue_partial_new sh pgs r l1 l2 d e q Hc Hq Hiq X1 X2 Hd12)
      as (h & o & ms & Ee & Hce & Hwbe & Hpe & Hbce).
    rewrite Ee. cbn [mbind option_bind]. do 4 eexists. split; [done|].
    split; [split; cbn [y_sh y_s1 y_s2 y_fg pg res pq1 pq2 disk fl]; try done|].
    + apply (bg_sim_born (sh_ot sh) o t1 t2 pgs r r l1 l2 k1 k2 d f f e _ (base q) false Hb); try done.
      by rewrite Hpe.
    + split_and!; [done| |exact Hsame]. unfold ord. cbn. solve_Permutation.
Qed.

Lemma sweep_calls t1 t2 fg failed l : forall (sh : shared S) m a,
  sim (mk_sys sh t1 t2 fg failed) a -> NoDup l ->
  (forall e, e ∈ l -> (e ∉ ord a) /\ exists b, res a !! b = Some e) ->
  exists h o m' a', run_calls enqueue_one (sh_heap sh) (sh_ot sh, m) l = Some (h, (o, m')) /\
    sim (mk_sys (with_ot o (with_heap h sh)) t1 t2 fg failed) a' /\
    res a' = res a /\ ord a' ≡ₚ l ++ ord a /\ same_bytes (pg a) (pg a') /\
    flags o = flags (sh_ot sh).
Proof.
  induction l as [|e l IH]; intros sh m a Hs Hnd Hl; cbn [run_calls].
  - do 4 eexists. split; [done|]. split; [by destruct sh|done].
  - apply NoDup_cons in Hnd as [Hel Hnd]. destruct (Hl e) as [He [b Hr]]; [by left|].
    destruct (sweep_one _ _ _ _ _ _ _ _ m Hs He Hr) as (h & o & ms & a1 & E & Hs1 & Hres & Hord & Hsame).
    pose proof (enqueue_one_flags _ _ _ _ _ _ _ E) as Hfl. rewrite E. cbn [mbind option_bind].
    destruct (IH (with_ot o (with_heap h sh)) (m ++ ms) a1 Hs1 Hnd)
      as (h2 & o2 & m2 & a2 & E2 & Hs2 & Hr2 & Ho2 & Hsame2 & Hfl2).
    { intros x Hx. rewrite Hres. destruct (Hl x) as [Hxo Hxr]; [by right|]. split; [|done].
      rewrite Hord. apply not_elem_of_cons. split; [by intros ->|done]. }
    exists h2, o2, m2, a2. split; [exact E2|]. split; [by destruct sh|].
    split; [congruence|]. split; [rewrite Ho2, Hord; solve_Permutation|].
    split; [by etrans|]. cbn in Hfl2. congruence.
Qed.

End Sweep.

(** * [nox_close] alone in its sweep *)

Section Requeue.
Context `{NoxConfig} {S : Type} `{PosixLaws S}.

(** What the callback has printed before does not matter to it. *)
Lemma enqueue_one_log a h o m :
  enqueue_one a h (o, m) = ('(h, (o, ms)) ← enqueue_one a h (o, []); Some (h, (o, m ++ ms))).
Proof.
  unfold enqueue_one. destruct (h !! a) as [p|]; [|done]. cbn [mbind option_bind].
  destruct (if scrap_page_is_full p then _ else _) as [[[h1 o1] m1]|]; done.
Qed.

Lemma print_nil (sh : shared S) : print [] sh = sh.
Proof. destruct sh. unfold print. cbn. by rewrite app_nil_r. Qed.

(** The walk of the closing thread is the walk of the index. *)
Lemma sweep_alone ok err t1 t2 fg failed n : forall (sh : shared S) m w h o m',
  run_foreach n enqueue_one (sh_heap sh) (sh_ot sh, m) (sh_idx sh) w = Some (h, (o, m')) ->
  exists k ms, close_run ok (mk_sys sh t1 t2 fg failed) (ClSweep err w) (replicate k CClose) =
    Some (mk_sys (print ms (with_ot o (with_heap h sh))) t1 t2 fg failed, ClStopDrain err).
Proof.
  induction n as [|n IH]; intros sh m w h o m' E; cbn [run_foreach] in E; [done|].
  assert (Hlog : foreach_step enqueue_one (sh_heap sh) (sh_ot sh, m) (sh_idx sh) w =
    ('(h, (o, ms), w) ← foreach_step enqueue_one (sh_heap sh) (sh_ot sh, []) (sh_idx sh) w;
     Some (h, (o, m ++ ms), w))).
  { destruct w as [b|b a|b a]; cbn [foreach_step].
    - destruct (_ <? _); [destruct (buckets _ !! b)|]; cbn; rewrite ?app_nil_r; done.
    - rewrite enqueue_one_log. by destruct (enqueue_one a _ _) as [[? []]|].
    - destruct (_ !! a); cbn; rewrite ?app_nil_r; done. }
  rewrite Hlog in E. clear Hlog.
  destruct (foreach_step enqueue_one (sh_heap sh) (sh_ot sh, []) (sh_idx sh) w)
    as [[[h1 [o1 m1]] w1]|] eqn:E1; [|done]. cbn [mbind option_bind] in E.
  assert (Estep : close_exec ok (mk_sys sh t1 t2 fg failed) (ClSweep err w) CClose =
    Some (mk_sys (print m1 (with_ot o1 (with_heap h1 sh))) t1 t2 fg failed,
          match w1 with Some w => ClSweep err w | None => ClStopDrain err end))
    by (cbn [close_exec close_step]; by rewrite E1).
  destruct w1 as [w1|].
  - destruct (IH (print m1 (with_ot o1 (with_heap h1 sh))) _ _ _ _ _ E) as (k & ms & Ek).
    exists (Datatypes.S k), (m1 ++ ms). cbn [replicate close_run]. rewrite Estep. cbn [mbind option_bind].
    rewrite Ek. unfold print. cbn. by rewrite app_assoc.
  - injection E as <- <- <-. exists 1%nat, m1. cbn [replicate close_run]. by rewrite Estep.
Qed.

(** The closing thread walks the whole index, from a state in which nothing is pending. *)
Lemma sweep_run {dmg : Damage} ok err (s : sys S) a :
  sim s a -> pending (sh_ot (y_sh s)) = 0 ->
  exists n s' a' l,
    close_run ok s (ClSweep err (FeBucket 0)) (replicate n CClose) = Some (s', ClStopDrain err) /\
    sim s' a' /\ res a' = res a /\ same_bytes (pg a) (pg a') /\ NoDup l /\ ord a' ≡ₚ l /\
    (forall e, e ∈ l <-> exists p, sh_heap (y_sh s) !! e = Some p /\ res a !! base p = Some e) /\
    flags (sh_ot (y_sh s')) = flags (sh_ot (y_sh s)) /\
    sh_idx (y_sh s') = sh_idx (y_sh s) /\ sh_os (y_sh s') = sh_os (y_sh s) /\
    y_s1 s' = y_s1 s /\ y_s2 s' = y_s2 s /\ y_fg s' = y_fg s.
Proof.
  intros Hs Hp. destruct (drained_sim _ _ Hs Hp) as (Ho & _).
  destruct s as [sh t1 t2 fg failed]. cbn [y_sh y_s1 y_s2 y_fg] in *.
  pose proof (co_idx _ _ _ _ _ _ (si_core _ _ Hs)) as Hx. cbn [y_sh] in Hx.
  destruct (foreach_alone enqueue_one _ _ _ Hx enqueue_one_keeps) as (n & Hn).
  destruct (foreach_visits_each_once enqueue_one _ _ _ Hx enqueue_one_keeps) as (l & Hnd & Hl & Hcalls).
  destruct (sweep_calls t1 t2 fg failed l sh [] a Hs Hnd) as (h & o & m & a' & E & Hs' & Hres & Hord & Hb & Hfl).
  { intros e (p & _ & Hm)%Hl. rewrite Ho. split; [apply not_elem_of_nil|by eexists]. }
  rewrite <- Hcalls, <- Hn in E. destruct (sweep_alone ok err t1 t2 fg failed _ _ _ _ _ _ _ E) as (k & ms & Ek).
  rewrite Ho, app_nil_r in Hord. exists k. do 2 eexists. exists l. split; [exact Ek|].
  split; [|by split_and!]. destruct Hs' as [Hi Hc Hbg Hf]. split; [done| |done..]. by apply core_print.
Qed.

(** The sweep of [nox_close] gives the pages that were given up another chance. Take any
    state the engine reaches, after any errors, in which nothing is pending, and let the thread
    in [nox_close] walk the index on its own. The walk ends; of the pages resident when it
    started, none of them queued, each is afterwards in exactly one place of one of the two
    queues and marked so, with the base it had; the count of pending pages is the number of
    these pages; and the walk touches neither the index, the file, the flusher threads nor the
    callers. *)
Lemma sweep_requeues (x : S) (es : list event) (s : sys S) (ok : bool) (err : Z) :
  engine_run x es s -> pending (sh_ot (y_sh s)) = 0 ->
  exists n s' M l l1 l2,
    close_run ok s (ClSweep err (FeBucket 0)) (replicate n CClose) = Some (s', ClStopDrain err) /\
    index_rep (sh_heap (y_sh s)) (sh_idx (y_sh s)) M /\ NoDup l /\
    (forall a, a ∈ l <-> exists p, sh_heap (y_sh s) !! a = Some p /\ M !! base p = Some a) /\
    (forall a p, a ∈ l -> sh_heap (y_sh s) !! a = Some p -> in_queue p = false /\
       exists p', sh_heap (y_sh s') !! a = Some p' /\ in_queue p' = true /\ base p' = base p) /\
    queue_rep (sh_heap (y_sh s')) (q1 (sh_ot (y_sh s'))) l1 /\
    queue_rep (sh_heap (y_sh s')) (q2 (sh_ot (y_sh s'))) l2 /\ l1 ++ l2 ≡ₚ l /\
    pending (sh_ot (y_sh s')) = Z.of_nat (length l) /\
    sh_idx (y_sh s') = sh_idx (y_sh s) /\ sh_os (y_sh s') = sh_os (y_sh s) /\
    y_s1 s' = y_s1 s /\ y_s2 s' = y_s2 s /\ y_fg s' = y_fg s.
Proof.
  intros Hr Hp. destruct (engine_sim_all _ _ _ Hr) as (a & Hs).
  destruct (drained_sim _ _ Hs Hp) as (Ho & F1 & F2 & Hout & _).
  destruct (sweep_run ok err s a Hs Hp)
    as (n & s' & a' & l & E & Hs' & Hres & _ & Hnd & Hord & Hl & _ & Ei & Eo & E1 & E2 & Ef).
  destruct Hs' as [Hinv' Hc' Hb' _]. pose proof (co_idx _ _ _ _ _ _ (si_core _ _ Hs)) as Hx.
  exists n, s', (res a), l, (pq1 a'), (pq2 a'). split; [exact E|].
  split_and!; try done; try apply Hc'.
  - intros e p He Hpe. split; [by apply (Hout e p)|].
    destruct (Hl e) as [(p0 & Hp0 & Hm) _]; [done|]. rewrite Hpe in Hp0. injection Hp0 as <-.
    rewrite <- Hres in Hm. destruct (pi_res _ Hinv' _ _ Hm) as (_ & q & Hq & Hbq & Hin & _).
    destruct (heap_page _ _ _ _ _ _ _ _ Hc' Hq) as (p' & Hp' & ->). exists p'.
    split; [exact Hp'|]. split; [|exact Hbq]. apply Hin. by rewrite Hord.
  - rewrite <- Hord. destruct (si_bg _ _ Hs) as [_ _ _ M1 M2].
    unfold ord in Ho |- *. apply app_eq_nil in Ho as [Z2 Ho]. apply app_eq_nil in Ho as [_ Ho].
    apply app_eq_nil in Ho as [Z1 _].
    rewrite (s1_match_hand _ _ (bs_one _ _ _ _ Hb')), E1, <- (s1_match_hand _ _ M1), Z1.
    rewrite (s2_match_hand _ _ (bs_two _ _ _ _ Hb')), E2, <- (s2_match_hand _ _ M2), Z2.
    cbn. solve_Permutation.
  - pose proof (bs_pending _ _ _ _ Hb') as Hn'. rewrite E1, E2 in Hn'. rewrite Hn', F1, F2, Hord. lia.
Qed.

End Requeue.
