(* ===== verification/Close.v ===== *)
(** Closing completes and keeps its contract: [nox_close], run beside the two stages, returns,
    with every byte written through the engine in the file and nothing left allocated or
    running; when writes fail, only what the errors have lost may differ. Where Stage-1 has given a
    page up before the sweep, the sweep, which takes no lock, races with the stages it has put to
    work; past the sweep the invariant here allows for pages given up. *)
From stdpp Require Import base numbers list gmap sets.
From Corelib Require Import Init.Byte.
From S2P Require Import Prelude Config Segments IoDirect Watermark ScrapPage Heap Queue.
From S2P Require Import PageIndex Stats Otflush Engine Pipeline System Schedule Simulation.
From S2P Require Import SimFlush SimWrite Faults Apart Guarantees CloseErrors Progress.

Section Close.
Context `{NoxConfig} {dmg : Damage} {S : Type} `{PosixLaws S}.

(** * Nothing pending, nothing moves *)

Lemma quiet_hands (s : sys S) a :
  sim s a -> pending (sh_ot (y_sh s)) = 0 ->
  s1_hand (s1_at (y_s1 s)) = [] /\ s1_at (y_s1 s) <> S1DropDec /\
  s2_hand (y_s2 s) = [] /\ s2_freed (y_s2 s) = 0 /\
  queue_rep (sh_heap (y_sh s)) (q1 (sh_ot (y_sh s))) [] /\
  queue_rep (sh_heap (y_sh s)) (q2 (sh_ot (y_sh s))) [].
Proof.
  intros Hs Hp. destruct (drained_sim _ _ Hs Hp) as (Ho & F1 & F2 & _). destruct Hs as [_ Hc Hb _].
  rewrite <- (s1_match_hand _ _ (bs_one _ _ _ _ Hb)), <- (s2_match_hand _ _ (bs_two _ _ _ _ Hb)).
  unfold ord in Ho. apply app_eq_nil in Ho as [-> Ho]. apply app_eq_nil in Ho as [E2 Ho].
  apply app_eq_nil in Ho as [-> E1]. destruct Hc as [_ Hq1 Hq2 _ _ _ _ _].
  rewrite E1 in Hq1. rewrite E2 in Hq2. split_and!; try done. intros E. by rewrite E in F1.
Qed.

Lemma quiet_stage1 sh t1 t2 fg failed a sh' t1' :
  sim (mk_sys sh t1 t2 fg failed) a -> pending (sh_ot sh) = 0 ->
  stage1_step sh t1 = Some (sh', t1') -> sh' = sh.
Proof.
  intros Hs Hp E. destruct (quiet_hands _ _ Hs Hp) as (Hh & Hd & _ & _ & Hq & _).
  pose proof (bs_one _ _ _ _ (si_bg _ _ Hs)) as Hm. cbn [y_sh y_s1] in *. unfold s1_match in Hm.
  unfold stage1_step in E. destruct (s1_at t1); try done; try (by injection E as <- _).
  pose proof (pop_rep _ _ _ Hq) as Hpop. cbn in Hpop. rewrite Hpop in E. cbn [mbind option_bind] in E.
  rewrite with_heap_id in E by done. destruct (shutdown _); by injection E as <- _.
Qed.

Lemma quiet_stage2 sh t1 t2 fg failed a sh' t2' :
  sim (mk_sys sh t1 t2 fg failed) a -> pending (sh_ot sh) = 0 ->
  stage2_step sh t2 = Some (sh', t2') -> sh' = sh.
Proof.
  intros Hs Hp E. destruct (quiet_hands _ _ Hs Hp) as (_ & _ & Hh & Hf & _ & Hq).
  pose proof (bs_two _ _ _ _ (si_bg _ _ Hs)) as Hm. cbn [y_sh y_s1 y_s2] in *. unfold s2_match, batch_ok in Hm.
  unfold stage2_step in E. destruct t2; cbn in Hh; subst; try done; try (by injection E as <- _);
    try (match type of Hm with _ /\ _ => destruct Hm as [[Hm _] _] end; done).
  - pose proof (pop_rep _ _ _ Hq) as Hpop. cbn in Hpop. rewrite Hpop in E. cbn [mbind option_bind] in E.
    rewrite with_heap_id2 in E. destruct (shutdown _); by injection E as <- _.
Qed.

(** The index of a heap without pages is empty. *)
Lemma quiet_index (s : sys S) a :
  (forall b, ~ gives_up b) -> sim s a -> pending (sh_ot (y_sh s)) = 0 ->
  sh_heap (y_sh s) = ∅ /\ g_live (sh_wm (y_sh s)) = 0 /\ exists M, index_rep ∅ (sh_idx (y_sh s)) M.
Proof.
  intros Hkeep Hs Hp. destruct (drained_sim _ _ Hs Hp) as (_ & _ & _ & Hh & _). destruct Hs as [_ Hc _ _].
  destruct Hc as [_ _ _ Hx Hlv _ _ _].
  assert (sh_heap (y_sh s) = ∅) as He.
  { apply map_eq. intros e. rewrite lookup_empty. destruct (sh_heap (y_sh s) !! e) as [p|] eqn:E; [|done].
    by destruct (Hkeep (base p) (proj1 (Hh e p E))). }
  rewrite He in *. split_and!; [done..|by eexists].
Qed.

Lemma empty_buckets idx M :
  index_rep ∅ idx M ->
  Z.of_nat (length (buckets idx)) = PI_BUCKETS /\ Forall (fun hd => hd = None) (buckets idx).
Proof.
  intros (C & Hlen & Hch & _). split; [by rewrite Hlen|]. apply Forall_lookup. intros i hd Hi. apply Hch in Hi.
  destruct (C i) as [|e l]; [done|]. destruct Hi as (_ & p & Hp & _). by rewrite lookup_empty in Hp.
Qed.

(** The walk of an empty index goes from bucket to bucket. *)
Lemma sweep_empty idx M (c : otflush * list message) b :
  index_rep ∅ idx M ->
  foreach_step enqueue_one ∅ c idx (FeBucket b) =
    Some (∅, c, if Z.of_nat b <? PI_BUCKETS then Some (FeBucket (Datatypes.S b)) else None).
Proof.
  intros [Hlen Hx]%empty_buckets. cbn [foreach_step]. destruct (_ <? _) eqn:E; [|done].
  destruct (buckets idx !! b) as [hd|] eqn:Eb.
  - rewrite Forall_lookup in Hx. by rewrite (Hx _ _ Eb).
  - apply lookup_ge_None in Eb. lia.
Qed.

(** * Pages out of the index *)

(** A page is one of [L], or resident, or in the hands of Stage-2. *)
Definition kept (L : gset addr) (a : pipe) : Prop :=
  forall e, is_Some (pg a !! e) -> e ∈ L \/ (exists b, res a !! b = Some e) \/ e ∈ s2_pages (h2 a).

Lemma kept_insert L a e p :
  kept L a -> is_Some (pg a !! e) ->
  forall x, is_Some (<[e := p]> (pg a) !! x) ->
    x ∈ L \/ (exists b, res a !! b = Some x) \/ x ∈ s2_pages (h2 a).
Proof. intros Hk He x. rewrite lookup_insert. case_decide; [subst; auto|apply Hk]. Qed.

(** Only Stage-2 takes a page out of the index, and it has the page in its hands then. *)
Lemma bg_kept L a a' : pinv a -> fl a = ∅ -> bg_move a a' -> kept L a -> kept L a'.
Proof.
  intros Hinv Hfl [[->|Hs] Hfl'] Hk; [done|]. rewrite Hfl in Hfl'.
  assert (Hins : forall e p q, pg a !! e = Some p -> forall x, is_Some (<[e := q]> (pg a) !! x) ->
    x ∈ L \/ (exists b, res a !! b = Some x) \/ x ∈ s2_pages (h2 a))
    by (intros e p q He; apply kept_insert; [done|by eexists]).
  inversion Hs; subst; cbn [fl] in *; subst; try done; try exact Hk;
    try (intros x Hx; eapply Hins; [|exact Hx]; done).
  - intros x Hx. destruct (Hk x Hx) as [|[|Hin]]; [by left|by right; left|by apply elem_of_nil in Hin].
  - intros x Hx. destruct (Hk x Hx) as [|[|Hin]]; [by left|by right; left|right; right].
    cbn in *. rewrite app_comm_cons. apply elem_of_app. by left.
  - intros x Hx. destruct (Hins a0 p (set_detached true p) ltac:(done) x Hx) as [|[[b Hb]|Hin]];
      [by left| |by right; right].
    destruct (pi_stageB _ Hinv) as (_ & [pre ->] & _). unfold unlink_res.
    destruct (decide (x = a0)) as [->|Hne]; [right; right; cbn; set_solver|right; left; exists b].
    cbn in *. case_decide as Hd; [|done]. rewrite lookup_delete_ne; [done|]. intros <-. congruence.
  - intros x Hx. cbn in Hx. destruct (decide (x = a0)) as [->|Hne].
    + rewrite lookup_delete_eq in Hx. by destruct Hx.
    + rewrite lookup_delete_ne in Hx by done.
      destruct (Hk x Hx) as [|[|Hin]]; [by left|by right; left|right; right]. cbn in *.
      by apply elem_of_cons in Hin as [|].
Qed.

(** * The invariant of the shutdown *)

(** The pages that may be left at the end, and what the file is to hold. *)
Variables (L : gset addr) (v : buf).

Definition idle (s : sys S) : Prop := forall i c, y_fg s !! i = Some c -> exists rc, c = FgIdle rc.

Lemma idle_flight (s : sys S) a : sim s a -> idle s -> fl a = ∅.
Proof.
  intros Hs Hid. apply map_eq. intros i. rewrite lookup_empty.
  destruct (fl a !! i) as [[c0 ph]|] eqn:E; [|done].
  destruct (si_fg _ _ Hs) as [Hf _ _]. exfalso. specialize (Hf i). rewrite E in Hf.
  destruct (y_fg s !! i) as [c1|] eqn:E1; [|done]. by destruct (Hid i c1 E1) as [rc ->].
Qed.

(** Which threads still run and what was shut down. *)
Definition close_inv (s : sys S) (c : close_ctl) : Prop :=
  let o := sh_ot (y_sh s) in
  let up := quits o = (false, false) /\ s1_at (y_s1 s) <> S1Exit /\ y_s2 s <> S2Exit in
  match c with
  | ClDisarm | ClDrain | ClStopDrain _ => up
  | ClSweep _ w =>
      up /\ pending o = 0 /\ sh_heap (y_sh s) = ∅ /\
      exists b, w = FeBucket b /\ Z.of_nat b <= PI_BUCKETS
  | ClStopFlag _ _ => up /\ pending o = 0
  | ClJoin1 _ _ => quits o = (true, false) /\ y_s2 s <> S2Exit /\ pending o = 0
  | ClShutQ2 _ _ =>
      quits o = (true, false) /\ s1_at (y_s1 s) = S1Exit /\ y_s2 s <> S2Exit /\ pending o = 0
  | ClJoin2 _ _ => quits o = (true, true) /\ s1_at (y_s1 s) = S1Exit /\ pending o = 0
  | ClErr _ _ | ClDestroy _ | ClClose _ | ClDone _ =>
      s1_at (y_s1 s) = S1Exit /\ y_s2 s = S2Exit /\ pending o = 0
  end.

(** Transitions of [nox_close] left, when it finds the index empty. *)
Definition close_rank (c : close_ctl) : Z :=
  match c with
  | ClDisarm => 11 + PI_BUCKETS | ClDrain => 10 + PI_BUCKETS
  | ClSweep _ w => 9 + PI_BUCKETS - match w with FeBucket b => Z.of_nat b | _ => PI_BUCKETS end
  | ClStopDrain _ => 8 | ClStopFlag _ _ => 7
  | ClJoin1 _ _ => 6 | ClShutQ2 _ _ => 5 | ClJoin2 _ _ => 4 | ClErr _ _ => 3 | ClDestroy _ => 2
  | ClClose _ => 1 | ClDone _ => 0
  end.

Definition exits (s : sys S) : Z :=
  (match s1_at (y_s1 s) with S1Exit => 0 | _ => 1 end) + (match y_s2 s with S2Exit => 0 | _ => 1 end).

Definition close_work (s : sys S) (c : close_ctl) : Z := sys_work s + exits s + close_rank c.

(** The thread cannot move. *)
Definition close_stuck (s : sys S) (c : close_ctl) (m : close_move) : Prop :=
  match m with
  | CStage1 => s1_stuck (y_sh s) (s1_at (y_s1 s))
  | CStage2 => s2_stuck (y_sh s) (y_s2 s)
  | CClose =>
      match c with
      | ClDrain | ClStopDrain _ => 0 < pending (sh_ot (y_sh s))
      | ClJoin1 _ _ => s1_at (y_s1 s) <> S1Exit
      | ClJoin2 _ _ => y_s2 s <> S2Exit
      | ClDone _ => True
      | _ => False
      end
  end.

(** Past the sweep; past the destruction of the index. *)
Definition swept (c : close_ctl) : bool :=
  match c with ClDisarm | ClDrain | ClSweep _ _ => false | _ => true end.

Definition destroyed (c : close_ctl) : bool :=
  match c with ClClose _ | ClDone _ => true | _ => false end.

(** The pipeline of a state: its view is [v] where nothing is damaged, and once past the sweep
    every page but those of [L] is within reach of the index or of Stage-2. *)
Definition tied (s : sys S) (c : close_ctl) (a : pipe) : Prop :=
  sim s a /\ agree (view a) v /\ (swept c = true -> kept L a).

(** What is left when the index is gone. *)
Definition settled (s : sys S) : Prop :=
  agree (file_byte (sh_os (y_sh s))) v /\
  (forall e, is_Some (sh_heap (y_sh s) !! e) -> e ∈ L) /\
  nox_watermark_live (sh_wm (y_sh s)) = Z.of_nat (size (sh_heap (y_sh s))) /\ sys_work s = 0.

(** The state while closing: callers idle, the invariant, and a pipeline it is related to. Only
    past the sweep may pages have been given up. *)
Definition closing (s : sys S) (c : close_ctl) : Prop :=
  idle s /\ close_inv s c /\ (swept c = false -> forall b, ~ gives_up b) /\
  if destroyed c then settled s else exists a, tied s c a.

(** A change of the shared state that the pipeline does not see. *)
Lemma sim_shared sh sh' t1 t2 fg failed a :
  sim (mk_sys sh t1 t2 fg failed) a ->
  (forall pgs m l1 l2 d, core sh pgs m l1 l2 d -> core sh' pgs m l1 l2 d) ->
  wb (sh_ot sh') = wb (sh_ot sh) -> pending (sh_ot sh') = pending (sh_ot sh) ->
  bcount (sh_ot sh') = bcount (sh_ot sh) -> sim (mk_sys sh' t1 t2 fg failed) a.
Proof.
  intros [Hi Hc Hb Hf] Hcore E1 E2 E3. cbn [y_sh y_s1 y_s2 y_fg y_failed] in *.
  split; cbn [y_sh y_s1 y_s2 y_fg y_failed]; try done; [by apply Hcore|].
  destruct Hb. split; rewrite ?E1, ?E2, ?E3; done.
Qed.

Lemma core_same_queues (sh : shared S) o pgs m l1 l2 d :
  core sh pgs m l1 l2 d ->
  (forall h l, queue_rep h (q1 (sh_ot sh)) l -> queue_rep h (q1 o) l) ->
  (forall h l, queue_rep h (q2 (sh_ot sh)) l -> queue_rep h (q2 o) l) ->
  core (with_ot o sh) pgs m l1 l2 d.
Proof. intros [] Hq1 Hq2. split; cbn; auto. Qed.

Lemma drain_result (o : otflush) :
  0 <= pending o ->
  otflush_drain o = None /\ 0 < pending o \/ otflush_drain o = Some (io_err o) /\ pending o = 0.
Proof.
  intros Hp. unfold otflush_drain. destruct (0 <? pending o) eqn:E; [left|right];
    (split; [done|lia]).
Qed.

(** The outcome of a transition: the state stays closing, and the work drops or nothing moves. *)
Definition close_next (s : sys S) (c : close_ctl) (m : close_move)
    (s' : sys S) (c' : close_ctl) : Prop :=
  closing s' c' /\
  (s' = s /\ c' = c /\ close_stuck s c m \/ close_work s' c' < close_work s c).

(** A transition of [nox_close] in the same state of the threads. *)
Lemma close_move_next s c s' c' a :
  closing s c -> destroyed c' = false -> tied s c a ->
  y_fg s' = y_fg s -> close_inv s' c' -> (swept c' = false -> swept c = false) ->
  sim s' a -> (swept c = false -> swept c' = true -> kept L a) ->
  close_work s' c' < close_work s c ->
  close_next s c CClose s' c'.
Proof.
  intros (Hid & _ & Hk & _) Hd (Hs & Hv & Hkp) Hfg Hi Hsw Hs' Hkp' Hw. split; [|by right].
  split_and!; [unfold idle; by rewrite Hfg|done|auto|]. rewrite Hd. exists a. split_and!; try done.
  destruct (swept c) eqn:E; auto.
Qed.

Lemma close_stay_next s c :
  closing s c -> close_stuck s c CClose -> close_next s c CClose s c.
Proof. intros Hc Hst. split; [done|by left]. Qed.

(** Once the threads have left, no work is left. *)
Lemma left_no_work (s : sys S) a :
  sim s a -> s1_at (y_s1 s) = S1Exit -> y_s2 s = S2Exit -> pending (sh_ot (y_sh s)) = 0 ->
  sys_work s = 0.
Proof.
  intros Hs X1 X2 Hp.
  destruct (quiet_hands _ _ Hs Hp) as (_ & _ & _ & _ & (_ & _ & D1 & _) & (_ & _ & D2 & _)).
  unfold sys_work, work. rewrite X1, X2, D1, D2. done.
Qed.

Ltac less_work :=
  unfold close_work, sys_work, exits, work; cbn -[PI_BUCKETS];
  repeat match goal with E : s1_at _ = _ |- _ => rewrite E end; lia.

(** The index is destroyed: the pages it holds go, those of [L] may stay. *)
Lemma destroy_next ok sh t1 t2 fg failed err :
  let s := mk_sys sh t1 t2 fg failed in
  closing s (ClDestroy err) ->
  exists s', close_exec ok s (ClDestroy err) CClose = Some (s', ClClose err) /\
    close_next s (ClDestroy err) CClose s' (ClClose err).
Proof.
  intros s (Hid & (X1 & X2 & Hp) & _ & a & Hs & Hv & Hk). subst s.
  destruct (drained_sim _ _ Hs Hp) as (Ho & _ & _ & _ & Hfile).
  pose proof (left_no_work _ _ Hs X1 X2 Hp) as Hw.
  pose proof (si_core _ _ Hs) as Hc. cbn [y_sh y_s1 y_s2] in *.
  destruct (destroy_frees_resident _ _ _ _ (co_idx _ _ _ _ _ _ Hc) (co_live _ _ _ _ _ _ Hc))
    as (h' & w' & E & Hlive & Hh).
  cbn [close_exec close_step]. rewrite E. cbn [mbind option_bind]. eexists. split; [done|].
  split; [split_and!; try done|right; unfold close_work, sys_work, exits, work; cbn; lia].
  split_and!; cbn; try done.
  - intros y Hy. rewrite (Hfile y). by apply Hv.
  - intros e He. rewrite Hh in He. destruct (sh_heap sh !! e) as [p|] eqn:Ep; [|by destruct He].
    cbn [mbind option_bind] in He. case_decide as Hr; [by destruct He|].
    pose proof (strip_lookup_2 _ _ _ _ (co_pg _ _ _ _ _ _ Hc) Ep) as Hpg.
    destruct (Hk eq_refl e) as [|[[b Hb]|Hin]]; [by eexists|done| |].
    + destruct (pi_res _ (si_inv _ _ Hs) _ _ Hb) as (_ & q & Hq & Hbq & _). destruct Hr.
      rewrite Hpg in Hq. injection Hq as <-. by rewrite <- Hbq in Hb.
    + unfold ord in Ho. apply app_eq_nil in Ho as [Ho _]. rewrite Ho in Hin. by apply elem_of_nil in Hin.
Qed.

(** Before the walk is over. *)
Lemma close_step_before ok sh t1 t2 fg failed c :
  let s := mk_sys sh t1 t2 fg failed in
  closing s c -> swept c = false ->
  exists s' c', close_exec ok s c CClose = Some (s', c') /\ close_next s c CClose s' c'.
Proof.
  intros s Hcl Hsw. subst s. pose proof Hcl as (_ & Hinv & Hkeep & Htie).
  destruct c as [| |err w| | | | | | | | | ]; try done; destruct Htie as [a Ha]; pose proof Ha as (Hs & _ & _);
    cbn [close_exec close_step mbind option_bind y_sh y_s1 y_s2];
    cbn [close_inv y_sh y_s1 y_s2] in Hinv.
  - do 2 eexists. split; [done|]. eapply (close_move_next _ _ _ _ a); try done; [|less_work].
    eapply sim_shared; [done| |done..]. intros. by apply core_wm.
  - pose proof (sim_pending _ _ Hs) as Hp0. cbn [y_sh] in Hp0.
    destruct (drain_result _ Hp0) as [[-> Hp]|[-> Hp]]; do 2 eexists; (split; [done|]);
      [by apply close_stay_next|].
    destruct (quiet_index _ _ (Hkeep eq_refl) Hs Hp) as (Hhp & _).
    eapply (close_move_next _ _ _ _ a); try done; [|less_work].
    split_and!; [by apply Hinv..|done|done|by exists 0%nat].
  - destruct Hinv as (Hup & Hp & Hhp & b & -> & Hb).
    pose proof (co_idx _ _ _ _ _ _ (si_core _ _ Hs)) as Hx. cbn [y_sh] in Hx. rewrite Hhp in Hx.
    rewrite Hhp, (sweep_empty _ _ _ _ Hx). cbn [mbind option_bind].
    assert (Hs' : sim (mk_sys (print [] (with_ot (sh_ot sh) (with_heap ∅ sh))) t1 t2 fg failed) a).
    { eapply sim_shared; [done| |done..]. intros ????? Hc. rewrite <- Hhp. apply core_print.
      destruct sh. exact Hc. }
    do 2 eexists. split; [done|].
    destruct (Z.of_nat b <? PI_BUCKETS) eqn:Eb; eapply (close_move_next _ _ _ _ a); try done;
      try less_work.
    + split_and!; [by apply Hup..|done|done|]. exists (Datatypes.S b). split; [done|lia].
    + intros _ _ e [p Hp']. rewrite <- (co_pg _ _ _ _ _ _ (si_core _ _ Hs)) in Hp'. cbn [y_sh] in Hp'.
      by rewrite Hhp, fmap_empty, lookup_empty in Hp'.
Qed.

(** After the walk, until the index is destroyed. *)
Lemma close_step_after ok sh t1 t2 fg failed c :
  let s := mk_sys sh t1 t2 fg failed in
  closing s c -> swept c = true -> destroyed c = false ->
  exists s' c', close_exec ok s c CClose = Some (s', c') /\ close_next s c CClose s' c'.
Proof.
  intros s Hcl Hsw Hd. subst s. pose proof Hcl as (_ & Hinv & _ & Htie). rewrite Hd in Htie.
  destruct Htie as [a Ha]. pose proof Ha as (Hs & _ & _).
  destruct c as [| | |err|err serr|err serr|err serr|err serr|err serr|err| | ]; try done;
    cbn [close_exec close_step mbind option_bind y_sh y_s1 y_s2];
    cbn [close_inv y_sh y_s1 y_s2] in Hinv.
  - pose proof (sim_pending _ _ Hs) as Hp0. cbn [y_sh] in Hp0.
    destruct (drain_result _ Hp0) as [[-> Hp]|[-> Hp]]; do 2 eexists; (split; [done|]);
      [by apply close_stay_next|].
    eapply (close_move_next _ _ _ _ a); try done; less_work.
  - destruct Hinv as ((Hq & N1 & N2) & Hp). do 2 eexists. split; [done|].
    eapply (close_move_next _ _ _ _ a); try done; [| |less_work].
    + unfold close_inv, quits in *. cbn. split_and!; congruence.
    + eapply sim_shared; [done| |done..]. intros ????? Hc. by apply core_same_queues.
  - do 2 eexists. split; [done|]. destruct (s1_at t1) eqn:Et;
      try (apply close_stay_next; [done|cbn; by rewrite Et]).
    eapply (close_move_next _ _ _ _ a); try done; [by destruct Hinv as (Hq & N2 & Hp)|less_work].
  - destruct Hinv as (Hq & X1 & N2 & Hp). do 2 eexists. split; [done|].
    eapply (close_move_next _ _ _ _ a); try done; [| |less_work].
    + unfold close_inv, quits in *. cbn. split_and!; congruence.
    + eapply sim_shared; [done| |done..]. intros ????? Hc. by apply core_same_queues.
  - do 2 eexists. split; [done|]. destruct t2; try (by apply close_stay_next).
    eapply (close_move_next _ _ _ _ a); try done; [by destruct Hinv as (_ & ? & ?)|less_work].
  - do 2 eexists. split; [done|]. eapply (close_move_next _ _ _ _ a); try done; less_work.
  - destruct (destroy_next ok sh t1 t2 fg failed err Hcl) as (s' & E & Hn).
    cbn [close_exec close_step] in E. rewrite E. by do 2 eexists.
Qed.

(** [nox_close] itself. *)
Lemma close_step_next ok sh t1 t2 fg failed c :
  let s := mk_sys sh t1 t2 fg failed in
  closing s c ->
  exists s' c', close_exec ok s c CClose = Some (s', c') /\ close_next s c CClose s' c'.
Proof.
  intros s Hcl. destruct (swept c) eqn:Es; [|by apply close_step_before].
  destruct (destroyed c) eqn:Ed; [|by apply close_step_after]. subst s.
  destruct Hcl as (Hid & Hinv & Hkeep & Hset).
  destruct c; try done; cbn [close_exec close_step mbind option_bind y_sh y_s1 y_s2].
  - do 2 eexists. split; [done|]. split; [split_and!; done|right; less_work].
  - do 2 eexists. split; [done|]. by apply close_stay_next.
Qed.

(** The invariant only looks at the flags, the pending count and which threads have exited. *)
Lemma close_inv_frame s s' c :
  close_inv s c -> quits (sh_ot (y_sh s')) = quits (sh_ot (y_sh s)) ->
  (pending (sh_ot (y_sh s)) = 0 -> y_sh s' = y_sh s) ->
  (s1_at (y_s1 s) = S1Exit -> s1_at (y_s1 s') = S1Exit) ->
  (y_s2 s = S2Exit -> y_s2 s' = S2Exit) ->
  (shutdown (q1 (sh_ot (y_sh s))) = false -> s1_at (y_s1 s) <> S1Exit -> s1_at (y_s1 s') <> S1Exit) ->
  (shutdown (q2 (sh_ot (y_sh s))) = false -> y_s2 s <> S2Exit -> y_s2 s' <> S2Exit) ->
  close_inv s' c.
Proof.
  intros Hi Hq Hp H2 H3 H4 H5. unfold close_inv in *. rewrite Hq.
  assert (Hp' : pending (sh_ot (y_sh s)) = 0 ->
    pending (sh_ot (y_sh s')) = 0 /\ sh_heap (y_sh s') = sh_heap (y_sh s))
    by (intros Hz; rewrite (Hp Hz); done).
  assert (Hsd : forall b1 b2, quits (sh_ot (y_sh s)) = (b1, b2) ->
    shutdown (q1 (sh_ot (y_sh s))) = b1 /\ shutdown (q2 (sh_ot (y_sh s))) = b2)
    by (unfold quits; by intros ?? [= -> ->]).
  destruct c; destruct_and?;
    repeat match goal with E : quits _ = (_, _) |- _ => destruct (Hsd _ _ E); revert E end;
    try (match goal with Hz : pending _ = 0 |- _ => destruct (Hp' Hz) end);
    intros; split_and?; auto; congruence.
Qed.

Lemma background_next s s' c m a a' :
  closing s c -> destroyed c = false -> tied s c a -> sim s' a' -> bg_move a a' ->
  y_fg s' = y_fg s -> close_inv s' c ->
  (s' = s /\ close_stuck s c m \/ sys_work s' + exits s' < sys_work s + exits s) ->
  close_next s c m s' c.
Proof.
  intros (Hid & _ & Hk & _) Hd (Hs & Hv & Hkp) Hs' Hm Hfg Hi Hw. split.
  - split_and!; [unfold idle; by rewrite Hfg|done|done|]. rewrite Hd. exists a'. split_and!; [done| |].
    + destruct (pipe_run_spec _ _ _ (bg_move_run _ _ Hm) (si_inv _ _ Hs)) as [_ Hv'].
      cbn in Hv'. by rewrite Hv'.
    + intros Hsw. eapply bg_kept; [by apply Hs|by eapply idle_flight|done|by apply Hkp].
  - destruct Hw as [[-> Hst]|Hw]; [by left|right]. unfold close_work. lia.
Qed.

Lemma stage1_next ok s c :
  closing s c ->
  exists s', close_exec ok s c CStage1 = Some (s', c) /\
    (contained s s' -> close_next s c CStage1 s' c).
Proof.
  intros Hcl. pose proof Hcl as (_ & Hi & _ & Htie). destruct s as [sh t1 t2 fg failed].
  assert (Hx : s1_at t1 = S1Exit -> stage1_step sh t1 = Some (sh, t1)).
  { intros Et. destruct t1. cbn in Et. by subst. }
  cbn [close_exec]. destruct (destroyed c) eqn:Ed.
  { assert (X1 : s1_at t1 = S1Exit) by (destruct c; try done; apply Hi).
    rewrite (Hx X1). eexists. split; [done|]. intros _. split; [done|left]. split_and!; try done.
    cbn. by rewrite X1. }
  destruct Htie as [a Ha]. pose proof Ha as (Hs & _).
  destruct (sim_stage1 _ _ _ _ _ _ Hs) as (sh' & t1' & E & Hsim). rewrite E.
  cbn [mbind option_bind]. eexists. split; [done|]. intros [Hone _].
  destruct (Hsim Hone) as (a' & Hm & Hs'). pose proof (stage1_work _ _ _ _ _ _ _ _ Hs E) as Hw.
  eapply background_next; try done.
  - apply (close_inv_frame _ _ c Hi); cbn [y_sh y_s1 y_s2]; try done.
    + by apply stage1_keeps in E as [Hk _].
    + intros Hp. exact (quiet_stage1 _ _ _ _ _ _ _ _ Hs Hp E).
    + intros Et. rewrite (Hx Et) in E. by injection E as <- <-.
    + intros Hq Hn. destruct Hw as [(_ & -> & _)|[(_ & _ & _ & ?)|[Hn' _]]]; congruence.
  - unfold exits, sys_work. cbn [y_sh y_s1 y_s2].
    destruct Hw as [(-> & -> & Hst)|[(-> & Ex & Ep & _)|[Hn Hw]]]; [by left|right..].
    + rewrite Ex, Ep. unfold work. cbn. lia.
    + destruct (s1_at t1) eqn:Et; [..|by rewrite (Hx eq_refl) in E; injection E as <- <-];
        destruct (s1_at t1'); try done; lia.
Qed.

Lemma stage2_next ok s c :
  closing s c ->
  exists s', close_exec ok s c CStage2 = Some (s', c) /\
    (contained s s' -> close_next s c CStage2 s' c).
Proof.
  intros Hcl. pose proof Hcl as (_ & Hi & _ & Htie). destruct s as [sh t1 t2 fg failed].
  assert (Hx : t2 = S2Exit -> stage2_step sh t2 = Some (sh, t2)) by (by intros ->).
  cbn [close_exec]. destruct (destroyed c) eqn:Ed.
  { assert (X2 : t2 = S2Exit) by (destruct c; try done; apply Hi).
    rewrite (Hx X2). eexists. split; [done|]. intros _. split; [done|left]. split_and!; try done.
    cbn. by rewrite X2. }
  destruct Htie as [a Ha]. pose proof Ha as (Hs & _).
  destruct (sim_stage2 _ _ _ _ _ _ Hs) as (sh' & t2' & E & Hsim). rewrite E.
  cbn [mbind option_bind]. eexists. split; [done|]. intros (_ & Htwo & _).
  destruct (Hsim Htwo) as (a' & Hm & Hs'). pose proof (stage2_work _ _ _ _ _ _ _ _ Hs E) as Hw.
  eapply background_next; try done.
  - apply (close_inv_frame _ _ c Hi); cbn [y_sh y_s1 y_s2]; try done.
    + by apply stage2_keeps in E as [Hk _].
    + intros Hp. exact (quiet_stage2 _ _ _ _ _ _ _ _ Hs Hp E).
    + intros Et. rewrite (Hx Et) in E. by injection E as <- <-.
    + intros Hq Hn. destruct Hw as [(_ & -> & _)|[(_ & _ & _ & ?)|[Hn' _]]]; congruence.
  - unfold exits, sys_work. cbn [y_sh y_s1 y_s2].
    destruct Hw as [(-> & -> & Hst)|[(-> & -> & -> & _)|[Hn Hw]]]; [by left|right..].
    + unfold work. cbn. lia.
    + destruct t2; [..|by rewrite (Hx eq_refl) in E; injection E as <- <-]; destruct t2'; try done; lia.
Qed.

(** * Closing completes *)

(** Only when [nox_close] has returned can all three threads be blocked. *)
Lemma close_never_deadlocks s c :
  closing s c -> close_stuck s c CClose -> close_stuck s c CStage1 -> close_stuck s c CStage2 ->
  exists err, c = ClDone err.
Proof.
  intros (_ & Hi & _ & Htie) K0 K1 K2. unfold close_inv in Hi.
  assert (Hup : s1_at (y_s1 s) <> S1Exit -> y_s2 s <> S2Exit -> destroyed c = false ->
    0 < pending (sh_ot (y_sh s)) -> False).
  { intros N1 N2 Hd Hp. rewrite Hd in Htie. destruct Htie as (a & Hs & _).
    destruct (both_stuck_drained s a Hs N1 N2 K1 K2). lia. }
  destruct c as [| |err w|err|err serr|err serr|err serr|err serr|err serr|err|err|err]; cbn in K0;
    try done; [exfalso..|by eexists]; try (by destruct Hi as (_ & ? & ?); apply Hup); try lia.
  - destruct Htie as (a & Hs & _). destruct Hi as (Hq & _ & Hp).
    destruct (quiet_hands _ _ Hs Hp) as (Hh & Hd & _).
    unfold quits in Hq. cbn in K1. destruct (s1_at (y_s1 s)); try done. destruct K1. congruence.
  - destruct Hi as (Hq & _). unfold quits in Hq. cbn in K2. destruct (y_s2 s); try done.
    destruct K2. congruence.
Qed.

Lemma close_exec_next ok s c m :
  closing s c ->
  exists s' c', close_exec ok s c m = Some (s', c') /\
    (contained s s' -> close_next s c m s' c').
Proof.
  intros Hc. destruct m.
  - destruct s as [sh t1 t2 fg failed].
    destruct (close_step_next ok sh t1 t2 fg failed c Hc) as (s' & c' & E & Hn). eauto.
  - destruct (stage1_next ok s c Hc) as (s' & E & Hn). eauto.
  - destruct (stage2_next ok s c Hc) as (s' & E & Hn). eauto.
Qed.

(** A run whose losses are all counted as damage stays related. *)
Lemma close_run_closing ok ms : forall s c s' c',
  closing s c -> close_run ok s c ms = Some (s', c') -> counted (close_losses ok s c ms) ->
  closing s' c'.
Proof.
  induction ms as [|m ms IH]; intros s c s' c' Hc E Hd; cbn [close_run close_losses] in *.
  - by injection E as <- <-.
  - destruct (close_exec_next ok s c m Hc) as (s1 & c1 & E1 & Hn). rewrite E1 in E, Hd.
    cbn [mbind option_bind] in *. apply counted_app in Hd as [Hd1 Hd2].
    eapply IH; [apply Hn, loss_contained, Hd1|done|exact Hd2].
Qed.

(** The run meets a loss that is not [fine]. *)
Definition breaks (fine : loss -> bool) (ok : bool) (s : sys S) (c : close_ctl)
    (ms : list close_move) : Prop :=
  exists pre s' c' l, pre `prefix_of` ms /\ close_run ok s c pre = Some (s', c') /\
    l ∈ close_losses ok s c pre /\ fine l = false.

Lemma breaks_app fine ok s c ms1 ms2 s1 c1 :
  close_run ok s c ms1 = Some (s1, c1) -> breaks fine ok s1 c1 ms2 ->
  breaks fine ok s c (ms1 ++ ms2).
Proof.
  intros E (pre & s2 & c2 & l & Hp & E2 & Hl). exists (ms1 ++ pre), s2, c2, l.
  split; [by apply prefix_app|]. split; [by rewrite (close_run_app _ _ _ _ _ _ _ E)|].
  rewrite (close_losses_app _ _ _ _ _ _ _ E), elem_of_app. split; [right|]; apply Hl.
Qed.

Section Fine.
Variable fine : loss -> bool.
Hypothesis fine_counted : forall ls, forallb fine ls = true -> counted ls.

Lemma close_run_next ok ms : forall s c,
  closing s c ->
  breaks fine ok s c ms \/
  exists s' c', close_run ok s c ms = Some (s', c') /\
    forallb fine (close_losses ok s c ms) = true /\ closing s' c' /\
    (s' = s /\ c' = c /\ Forall (close_stuck s c) ms \/ close_work s' c' < close_work s c).
Proof.
  induction ms as [|m ms IH]; intros s c Hc.
  - right. exists s, c. split_and!; try done. left. by split_and!.
  - destruct (close_exec_next ok s c m Hc) as (s1 & c1 & E & Hn).
    assert (E' : close_run ok s c [m] = Some (s1, c1)) by (cbn [close_run]; by rewrite E).
    assert (El : close_losses ok s c [m] = step_loss s s1)
      by (cbn [close_losses]; rewrite E; apply app_nil_r).
    destruct (forallb fine (step_loss s s1)) eqn:Hk.
    2: { left. apply forallb_false in Hk as (l & Hl & Hf). exists [m], s1, c1, l.
         split; [apply prefix_cons, prefix_nil|]. by rewrite El. }
    destruct Hn as [Hc1 Hw1]; [by apply loss_contained, fine_counted|].
    destruct (IH s1 c1 Hc1) as [Hbad|(s2 & c2 & E2 & Hk2 & Hc2 & Hw2)].
    + left. by apply (breaks_app _ _ _ _ [m] ms _ _ E').
    + right. exists s2, c2. cbn [close_run close_losses]. rewrite E, forallb_app, Hk.
      split_and!; try done. destruct Hw1 as [(-> & -> & Hst)|Hw1], Hw2 as [(-> & -> & Hst2)|Hw2]; auto.
      right. lia.
Qed.

Lemma close_work_nonneg s c : closing s c -> 0 <= close_work s c.
Proof.
  intros (_ & Hi & _ & Htie).
  assert (0 <= sys_work s).
  { destruct (destroyed c); [destruct Htie as (_ & _ & _ & ->); lia|].
    destruct Htie as (a & Hs & _). apply (work_nonneg _ _ Hs). }
  unfold close_work, exits. assert (0 <= close_rank c); [|destruct (s1_at (y_s1 s)), (y_s2 s); lia].
  destruct c as [| |err w| | | | | | | | | ]; cbn -[PI_BUCKETS]; unfold PI_BUCKETS; try done.
  destruct Hi as (_ & _ & _ & b & -> & Hb). unfold PI_BUCKETS in Hb. lia.
Qed.

Lemma close_work_done s err : closing s (ClDone err) -> close_work s (ClDone err) = 0.
Proof.
  intros (_ & (X1 & X2 & Hp) & _ & _ & _ & _ & Hw).
  unfold close_work, exits. by rewrite X1, X2, Hw.
Qed.

Lemma close_rounds ok rounds : forall s c,
  closing s c -> Forall close_round rounds ->
  close_work s c < Z.of_nat (length rounds) \/ (exists err, c = ClDone err) ->
  breaks fine ok s c (concat rounds) \/
  exists s' err, close_run ok s c (concat rounds) = Some (s', ClDone err) /\
    forallb fine (close_losses ok s c (concat rounds)) = true.
Proof.
  induction rounds as [|r rounds IH]; intros s c Hc Hf Hw.
  - right. pose proof (close_work_nonneg _ _ Hc). cbn in Hw.
    destruct Hw as [Hw|[err ->]]; [lia|]. by exists s, err.
  - apply Forall_cons in Hf as [Hr Hf]. cbn [concat length] in *.
    destruct (close_run_next ok r s c Hc)
      as [(pre & s' & c' & l & Hp & Hbad)|(s' & c' & E & Hk & Hc' & Hd)].
    { left. exists pre, s', c', l. split; [by apply prefix_app_r|done]. }
    assert (Hw' : close_work s' c' < Z.of_nat (length rounds) \/ exists err, c' = ClDone err).
    { destruct Hd as [(-> & -> & Hst)|Hd].
      - right. rewrite Forall_forall in Hst. by eapply close_never_deadlocks; eauto.
      - pose proof (close_work_nonneg _ _ Hc'). destruct Hw as [Hw|[err ->]]; [left; lia|].
        rewrite (close_work_done _ _ Hc) in Hd. lia. }
    rewrite (close_run_app _ _ _ _ _ _ _ E), (close_losses_app _ _ _ _ _ _ _ E), forallb_app, Hk.
    destruct (IH s' c' Hc' Hf Hw') as [Hbad|(s2 & err & E2 & Hk2)]; [left|right].
    + by eapply breaks_app.
    + by exists s2, err.
Qed.

End Fine.

End Close.

(** * The contract *)

Section Contract.
Context `{NoxConfig} {S : Type} `{PosixLaws S}.

(** Stage-1 gives a page up during a prefix of the run. *)
Definition abandons (ok : bool) (s : sys S) (c : close_ctl) (ms : list close_move) : Prop :=
  exists pre s' c' b, pre `prefix_of` ms /\ close_run ok s c pre = Some (s', c') /\
    LostPage b ∈ close_losses ok s c pre.

Definition keeps_page (l : loss) : bool := match l with LostPage _ => false | _ => true end.

Lemma breaks_abandons ok (s : sys S) c ms : breaks keeps_page ok s c ms -> abandons ok s c ms.
Proof. intros (pre & s' & c' & [|b|] & Hp & E & Hl & Hf); [done| |done]. by exists pre, s', c', b. Qed.

Lemma closing_start {dmg : Damage} (x : S) es lost s :
  engine_losing x es lost s -> counted lost -> (forall b, ~ gives_up b) ->
  s1_at (y_s1 s) <> S1Exit -> idle s ->
  closing ∅ (put_calls (file_byte x) es) s ClDisarm /\
  close_work s ClDisarm < 24 * pending (sh_ot (y_sh s)) + 1040.
Proof.
  intros Hr Hd Hk Hx Hid. destruct (losing_sim _ _ _ _ Hr Hd) as (a & _ & Hs & Hl). split.
  - split_and!; [done|by eapply engine_losing_running|done|]. exists a. split_and!; [done| |done].
    intros y Hy. apply (lg_done _ _ _ Hl); [done|]. intros i c lo len src Hi Hrest.
    by destruct (Hid i c Hi) as [rc ->].
  - pose proof (work_bound _ _ Hs) as Hw. fold (sys_work s) in Hw. unfold close_work, exits.
    cbn [close_rank]. change PI_BUCKETS with 1024. destruct (s1_at (y_s1 s)), (y_s2 s); lia.
Qed.

(** A close from a state reached without a page given up; the property below states it. *)
Lemma close_lossy (x : S) (es : list event) (lost : list loss) (s : sys S) (ok : bool)
    (rounds : list (list close_move)) :
  engine_losing x es lost s -> keeps_pages lost = true ->
  s1_at (y_s1 s) <> S1Exit -> idle s -> Forall close_round rounds ->
  24 * pending (sh_ot (y_sh s)) + 1040 <= Z.of_nat (length rounds) ->
  abandons ok s ClDisarm (concat rounds) \/
  exists s' err, close_run ok s ClDisarm (concat rounds) = Some (s', ClDone err) /\
    err = result_of (sh_ot (y_sh s')) ok /\
    (forall y, ~ lost_at (lost ++ close_losses ok s ClDisarm (concat rounds)) y ->
       file_byte (sh_os (y_sh s')) y = put_calls (file_byte x) es y) /\
    s1_at (y_s1 s') = S1Exit /\ y_s2 s' = S2Exit /\
    sh_heap (y_sh s') = ∅ /\ nox_watermark_live (sh_wm (y_sh s')) = 0.
Proof.
  intros Hr Hkeep Hx Hid Hf Hlen.
  destruct (closing_start (dmg := write_damage) x es lost s Hr) as [Hc Hw];
    [by apply counted_write_damage|by intros b []|done..|].
  destruct (close_rounds (dmg := write_damage) _ _ keeps_page counted_write_damage ok rounds s ClDisarm Hc Hf)
    as [Hbad|(s' & err & E & Hk)]; [left; lia|left; by apply breaks_abandons|right]. clear Hc Hw.
  set (lost' := lost ++ close_losses ok s ClDisarm (concat rounds)).
  assert (Hnone : forall b, ~ LostPage b ∈ lost')
    by (apply keeps_pages_true; unfold lost'; rewrite keeps_pages_app, Hkeep; exact Hk).
  pose proof (counted_self lost') as Hcl. apply counted_app in Hcl as [Hcl1 Hcl2].
  destruct (closing_start (dmg := losses lost') x es lost s Hr Hcl1 Hnone Hx Hid) as [Hc _].
  destruct (close_run_closing (dmg := losses lost') _ _ _ _ _ _ _ _ Hc E Hcl2)
    as (_ & (X1 & X2 & Hp) & _ & Hv & Hhp & Hlive & _).
  pose proof (engine_err_code _ _ _ (losing_engine _ _ _ _ Hr)) as He.
  destruct (run_errors ok _ s ClDisarm s' (ClDone err) (conj He I) E) as (_ & _ & Herr).
  assert (Hempty : sh_heap (y_sh s') = ∅).
  { apply map_eq. intros e. rewrite lookup_empty. destruct (_ !! e) eqn:Ee; [|done].
    destruct (not_elem_of_empty (C := gset addr) e). apply Hhp. by eexists. }
  exists s', err. split_and!; try done. by rewrite Hlive, Hempty.
Qed.

(** C4: [nox_close] completes whatever fails to be written. Start it in any state the engine
    reaches with its Stage-1 thread alive (it exits at once when it gets no scratch zone, and
    then nothing drains), after failed writes, calls that ran out of memory or both, with no page
    given up by Stage-1 and every caller returned; schedule it and the two flusher threads by any
    sequence of rounds in which each gets a turn, at least 24 rounds per pending page plus 1040,
    and let any writes fail on the way. Either Stage-1 gives a page up during the close because
    its holes could not be read, or [nox_close] returns: its result is -1 when an error is
    latched or [close] itself failed and 0 otherwise, both threads have exited, no page is left
    allocated, the level of the gate is back to zero, and every byte of every call is in the file
    except those in [lost] or lost during the close: to an error, to a direct write over live
    pages, or to a page being unlinked through a reused address by a caller of another base. *)
Theorem close_contains_failures (x : S) (es : list event) (lost : list loss) (s : sys S)
    (ok : bool) (rounds : list (list close_move)) :
  engine_losing x es lost s -> keeps_pages lost = true ->
  s1_at (y_s1 s) <> S1Exit -> idle s -> Forall close_round rounds ->
  24 * pending (sh_ot (y_sh s)) + 1040 <= Z.of_nat (length rounds) ->
  abandons ok s ClDisarm (concat rounds) \/
  exists s' err, close_run ok s ClDisarm (concat rounds) = Some (s', ClDone err) /\
    err = result_of (sh_ot (y_sh s')) ok /\
    (forall y, ~ lost_at (lost ++ close_losses ok s ClDisarm (concat rounds)) y ->
       file_byte (sh_os (y_sh s')) y = put_calls (file_byte x) es y) /\
    s1_at (y_s1 s') = S1Exit /\ y_s2 s' = S2Exit /\
    sh_heap (y_sh s') = ∅ /\ nox_watermark_live (sh_wm (y_sh s')) = 0.
Proof. exact (close_lossy x es lost s ok rounds). Qed.

(** ** Without an error *)

(** Some prefix of the run reports an error. *)
Definition failing_prefix (ok : bool) (s : sys S) (c : close_ctl) (ms : list close_move) : Prop :=
  exists pre s' c', pre `prefix_of` ms /\ close_run ok s c pre = Some (s', c') /\ ~ healthy s'.

Lemma close_healthy_back ok s c m s' c' :
  close_exec ok s c m = Some (s', c') -> healthy s' -> healthy s /\ step_loss s s' = [].
Proof.
  intros E Hh. destruct s as [sh t1 t2 fg failed]. destruct m; cbn [close_exec] in E; bind_step E;
    injection E as <- <-.
  - apply close_step_flags in F. split.
    + destruct Hh as (He & Hf & H2). cbn in *. split_and!; try done. cbn. congruence.
    + apply silent_loud; [|by apply still_loss_loud].
      apply step_loss_silent; cbn [y_sh y_s1 y_s2 y_fg];
        [by destruct (s1_at t1) as [| | | | | | | | | |? ? []| | | | ]|by destruct t2|].
      intros i e e' Hi Hi'. left. congruence.
  - pose proof (sy_stage1 _ _ t2 fg failed _ _ F) as Hs.
    split; [by eapply healthy_back|]. apply silent_loud; [by eapply healthy_loss|by apply still_loss_loud].
  - pose proof (sy_stage2 _ t1 _ fg failed _ _ F) as Hs.
    split; [by eapply healthy_back|]. apply silent_loud; [by eapply healthy_loss|by apply still_loss_loud].
Qed.

Lemma close_healthy_losses ok ms : forall s c s' c',
  close_run ok s c ms = Some (s', c') -> healthy s' -> healthy s /\ close_losses ok s c ms = [].
Proof.
  induction ms as [|m ms IH]; intros s c s' c' E Hh; cbn [close_run close_losses] in *.
  - by injection E as <- <-.
  - destruct (close_exec ok s c m) as [[s1 c1]|] eqn:E1; [|done]. cbn [mbind option_bind] in *.
    destruct (IH _ _ _ _ E Hh) as [Hh1 ->].
    by destruct (close_healthy_back _ _ _ _ _ _ E1 Hh1) as [Hh0 ->].
Qed.

(** The contract of a close from a healthy state; the property below states it. *)
Lemma close_contract (x : S) (es : list event) (lost : list loss) (s : sys S) (ok : bool)
    (rounds : list (list close_move)) :
  engine_losing x es lost s -> healthy s -> idle s -> Forall close_round rounds ->
  24 * pending (sh_ot (y_sh s)) + 1040 <= Z.of_nat (length rounds) ->
  forallb silent lost = true /\ (calls_apart es -> lost = []) /\
  (failing_prefix ok s ClDisarm (concat rounds) \/
   exists s', close_run ok s ClDisarm (concat rounds) = Some (s', ClDone (if ok then 0 else -1)) /\
    (forall y, ~ lost_at lost y -> file_byte (sh_os (y_sh s')) y = put_calls (file_byte x) es y) /\
    s1_at (y_s1 s') = S1Exit /\ y_s2 s' = S2Exit /\
    sh_heap (y_sh s') = ∅ /\ nox_watermark_live (sh_wm (y_sh s')) = 0).
Proof.
  intros Hr Hh Hid Hf Hlen. pose proof (engine_reported _ _ _ _ Hr Hh) as Hsil.
  split; [exact Hsil|]. split; [intros Hap; apply silent_loud; [exact Hsil|by eapply apart_loud]|].
  destruct (close_lossy x es lost s ok rounds Hr (silent_keeps _ Hsil))
    as [(pre & s' & c' & b & Hp & E & Hb)|(s' & err & E & -> & Hfile & X1 & X2 & Hhp & Hlv)];
    [by eapply healthy_alive, Hh; eapply losing_engine|done..| |].
  - left. exists pre, s', c'. split_and!; [done..|]. intros Hh'.
    destruct (close_healthy_losses _ _ _ _ _ _ E Hh') as [_ El]. rewrite El in Hb.
    by apply not_elem_of_nil in Hb.
  - destruct (decide (io_err (sh_ot (y_sh s')) = 0 /\ y_failed s' = false /\
                      s2_failing (y_s2 s') = false)) as [Hh'|Hh'].
    2: { left. by exists (concat rounds), s', (ClDone (result_of (sh_ot (y_sh s')) ok)). }
    right. destruct (close_healthy_losses _ _ _ _ _ _ E Hh') as [_ El]. exists s'.
    split_and!; try done.
    + unfold result_of in E. by rewrite (proj1 Hh') in E.
    + intros y Hy. apply Hfile. by rewrite El, app_nil_r.
Qed.

(** C2: [nox_close] keeps its contract. Start it in any state the engine reaches without an
    error and with every caller returned, and schedule it and the two flusher threads by any
    sequence of rounds in which each gets a turn, at least 24 rounds per pending page plus 1040.
    Either a background I/O error is latched on the way, or [nox_close] returns, without
    undefined behaviour and without deadlock, through the disarmed gate, both drains, the
    sweep of the 1024 chains of the index, the two shutdowns and the joins; it returns 0 unless
    [close] itself failed; both threads have exited; no page is left allocated, and the level of
    the gate is back to zero; and the file holds every byte of every call, outside [lost]. What
    can be in [lost] is what the engine silently keeps no order for: a direct write over live
    pages, and a page unlinked through a reused address by a caller of another base of its
    bucket. It is empty when no two pages used by the calls are in one bucket and no direct call
    meets one of them. *)
Theorem close_keeps_contract (x : S) (es : list event) (lost : list loss) (s : sys S) (ok : bool)
    (rounds : list (list close_move)) :
  engine_losing x es lost s -> healthy s -> idle s -> Forall close_round rounds ->
  24 * pending (sh_ot (y_sh s)) + 1040 <= Z.of_nat (length rounds) ->
  forallb silent lost = true /\ (calls_apart es -> lost = []) /\
  (failing_prefix ok s ClDisarm (concat rounds) \/
   exists s', close_run ok s ClDisarm (concat rounds) = Some (s', ClDone (if ok then 0 else -1)) /\
    (forall y, ~ lost_at lost y -> file_byte (sh_os (y_sh s')) y = put_calls (file_byte x) es y) /\
    s1_at (y_s1 s') = S1Exit /\ y_s2 s' = S2Exit /\
    sh_heap (y_sh s') = ∅ /\ nox_watermark_live (sh_wm (y_sh s')) = 0).
Proof. exact (close_contract x es lost s ok rounds). Qed.

End Contract.

Section Witness.
Import Sample.

(** Closing in the middle of the flush of the sample, [close] succeeding. *)
Lemma close_keeps_contract_witness :
  exists es s, engine_losing file es [] s /\ pending (sh_ot (y_sh s)) = 2 /\
    (failing_prefix true s ClDisarm (concat (replicate 1088 one_round)) \/
     exists s', close_run true s ClDisarm (concat (replicate 1088 one_round)) = Some (s', ClDone 0) /\
       file_byte (sh_os (y_sh s')) ≈ put_calls (file_byte file) es).
Proof.
  destruct (FaultSample.sample_losing (fun s es _ => healthyb s && idleb s &&
      bool_decide (pending (sh_ot (y_sh s)) = 2) && bool_decide (calls_apart es)) busy_calls)
    as (s & es & lost & Hr & [[[Hh Hi]%andb_true_iff Hp]%andb_true_iff Ha]%andb_true_iff);
    [vm_compute; reflexivity|].
  apply healthyb_ok in Hh. apply bool_decide_eq_true_1 in Hp, Ha.
  destruct (close_keeps_contract file es lost s true (replicate 1088 one_round) Hr Hh (idleb_ok s Hi))
    as (_ & Hap & Hc).
  - apply one_round_turns.
  - rewrite Hp, length_replicate. lia.
  - specialize (Hap Ha). subst lost. exists es, s. split; [exact Hr|]. split; [exact Hp|].
    destruct Hc as [Hbad|(s' & E & Hf & _)]; [left; exact Hbad|].
    right. exists s'. split; [exact E|]. intros y. apply Hf, lost_none.
Defined.

(** Closing the sample whose disk has refused a direct write, and is about to refuse a hole read
    or a gather write. *)
Lemma close_contains_failures_witness :
  exists es lost s, engine_losing FaultSample.flaky es lost s /\ lost <> [] /\
    pending (sh_ot (y_sh s)) = 2 /\
    (abandons true s ClDisarm (concat (replicate 1088 one_round)) \/
     exists s' err, close_run true s ClDisarm (concat (replicate 1088 one_round)) = Some (s', ClDone err) /\
       sh_heap (y_sh s') = ∅).
Proof.
  destruct (FaultSample.reached_losing (fun s _ lost =>
      match lost, s1_at (y_s1 s) with [], _ | _, S1Exit => false | _, _ => true end && idleb s &&
      bool_decide (pending (sh_ot (y_sh s)) = 2) && keeps_pages lost)
      FaultSample.spoiled_calls)
    as (s & es & lost & Hr & [[[Hh Hi]%andb_true_iff Hp]%andb_true_iff Hs]%andb_true_iff);
  [vm_compute; reflexivity|].
  apply bool_decide_eq_true_1 in Hp. exists es, lost, s. split; [exact Hr|].
  split; [by destruct lost|]. split; [exact Hp|].
  destruct (close_contains_failures FaultSample.flaky es lost s true (replicate 1088 one_round) Hr Hs)
    as [Hbad|(s' & err & E & _ & _ & _ & _ & Hheap & _)].
  - intros E. rewrite E in Hh. by destruct lost.
  - exact (idleb_ok s Hi).
  - apply one_round_turns.
  - rewrite Hp, length_replicate. lia.
  - left. exact Hbad.
  - right. exists s', err. split; [exact E|exact Hheap].
Defined.

End Witness.
