(* ===== verification/SecondChance.v ===== *)
(** The second chance. [nox_close], called when nothing is pending, walks the index before the
    flusher threads wake up and queues again the pages that Stage-1 had given up; then it
    completes, whatever fails on the way, and what those pages hold is in the file unless it is
    lost once more. *)
From stdpp Require Import base numbers list gmap sets.
From Corelib Require Import Init.Byte.
From S2P Require Import Prelude Config Segments IoDirect Watermark ScrapPage Heap Queue.
From S2P Require Import PageIndex Stats Otflush Engine Pipeline System Schedule Simulation.
From S2P Require Import SimFlush SimWrite Faults Apart Guarantees CloseErrors Progress Sweep Close.

(** * The pipeline after the sweep *)

Section Swept.
Context `{NoxConfig}.

(** Nothing in the hands of the stages, and every page that is queued resident. *)
Definition just_swept (a : pipe) : Prop :=
  s1_page (h1 a) = [] /\ s2_pages (h2 a) = [] /\ fl a = ∅ /\
  forall e, e ∈ ord a -> exists b, res a !! b = Some e.

Lemma swept_queued {dmg : Damage} a e p :
  pinv a -> just_swept a -> e ∈ ord a -> pg a !! e = Some p -> res a !! base p = Some e.
Proof.
  intros Hinv (_ & _ & _ & Hres) He Hp. destruct (Hres e He) as [b Hb].
  destruct (pi_res _ Hinv _ _ Hb) as (_ & q & Hq & <- & _). congruence.
Qed.

(** No two of the queued pages have the same base. *)
Lemma swept_newest {dmg : Damage} a e p :
  pinv a -> just_swept a -> e ∈ ord a -> pg a !! e = Some p -> is_newest a (base p) e.
Proof.
  intros Hinv Hsw He Hp. destruct (list_elem_of_split _ _ He) as (l1 & l2 & Ho).
  exists l1, l2. split; [done|]. intros c Hc Hb. unfold page_base in Hb.
  destruct (pg a !! c) as [q|] eqn:Hq; [|done]. injection Hb as Hb.
  assert (Hco : c ∈ ord a) by (rewrite Ho; set_solver).
  pose proof (swept_queued _ _ _ Hinv Hsw Hco Hq) as Rc. pose proof (swept_queued _ _ _ Hinv Hsw He Hp) as Re.
  rewrite Hb, Re in Rc. injection Rc as <-. pose proof (pi_nodup _ Hinv) as Hnd. rewrite Ho in Hnd.
  by apply NoDup_app in Hnd as (_ & _ & [Hn _]%NoDup_cons).
Qed.

(** The invariant holds with no more damage than the pages that are not queued. *)
Lemma swept_inv (dmg : Damage) a :
  pinv (dmg := all_damage) a -> just_swept a ->
  (forall e p, pg a !! e = Some p -> e ∉ ord a -> gives_up (base p) /\ spoiled (base p)) -> pinv a.
Proof.
  intros Hinv Hsw Hout. pose proof Hsw as (E1 & E2 & Hf & Hres).
  assert (Hord : forall e, e ∈ s1_page (h1 a) ++ pq1 a -> e ∈ ord a)
    by (unfold ord; intros e; rewrite !elem_of_app; tauto).
  split; try apply Hinv.
  - intros e p Hp He. destruct (Hout e p Hp He). split_and!; [done..|]. by apply (pi_out _ Hinv e).
  - intros b e Hb. destruct (pi_res _ Hinv _ _ Hb) as (_ & p & Hp & <- & Hq). split; [|by exists p].
    destruct (decide (e ∈ ord a)) as [He|He]; [left; by apply (swept_newest (dmg := all_damage) a e p)|right; by apply (Hout e p)].
  - unfold s1_inv. by destruct (h1 a).
  - pose proof (pi_stageB _ Hinv) as Hb. unfold s2_inv in *. destruct (h2 a) as [| | |rest]; try done.
    cbn in E2. subst rest. destruct Hb as (Hc & Hr & _). split_and!; [done..|].
    by intros e p x He%elem_of_nil.
  - intros e b He Hb Hn. destruct (pi_dom _ Hinv e (Hord e He)) as [p Hp].
    pose proof (swept_queued _ _ _ Hinv Hsw (Hord e He) Hp) as Hr. unfold page_base in Hb.
    rewrite Hp in Hb. injection Hb as Hb. congruence.
Qed.

(** The view is the page where a queued page holds the byte, and the file elsewhere. *)
Lemma swept_view {dmg : Damage} a e p y :
  pinv a -> just_swept a -> e ∈ ord a -> pg a !! e = Some p -> covered p (y - base p) ->
  view a y = data p (y - base p).
Proof.
  intros Hinv Hsw He Hp Hcov. destruct (swept_newest _ _ _ Hinv Hsw He Hp) as (l1 & l2 & Ho & Hl).
  pose proof (covered_zone _ _ (pi_wf _ Hinv _ _ Hp) Hcov). destruct (pi_wf _ Hinv _ _ Hp) as (_ & _ & Hal & _).
  unfold view. rewrite Ho, newest_split, (newest_other_base _ l2 (base p) y);
    [|apply Hinv|done|lia|done].
  assert (page_at (pg a) e y = Some (data p (y - base p))) as -> by (apply page_at_some; eauto).
  done.
Qed.

Lemma swept_view_disk a y :
  (forall e p, e ∈ ord a -> pg a !! e = Some p -> ~ covered p (y - base p)) -> view a y = disk a y.
Proof.
  intros Hc. unfold view. rewrite newest_none; [done|]. intros e He. apply page_at_none. eauto.
Qed.

End Swept.

(** * Closing after the sweep *)

Section SecondChance.
Context `{NoxConfig} {S : Type} `{PosixLaws S}.

(** The pages out of the index of a state, given its map. *)
Definition strays (h : heap) (M : gmap Z addr) : gset addr :=
  dom (filter (fun '(e, p) => M !! base p <> Some e) h).

Lemma elem_of_strays h M e : e ∈ strays h M <-> exists p, h !! e = Some p /\ M !! base p <> Some e.
Proof.
  unfold strays. rewrite elem_of_dom. split.
  - intros [p [Hp Hm]%map_lookup_filter_Some]. by exists p.
  - intros (p & Hp & Hm). exists p. by apply map_lookup_filter_Some.
Qed.

(** All bytes of these pages, as losses. *)
Definition page_losses (h : heap) (l : gset addr) : list loss :=
  omap (fun e => p ← h !! e; Some (LostPage (base p))) (elements l).

Lemma elem_of_page_losses h l b :
  LostPage b ∈ page_losses h l <-> exists e p, e ∈ l /\ h !! e = Some p /\ base p = b.
Proof.
  unfold page_losses. rewrite list_elem_of_omap. split.
  - intros (e & He%elem_of_elements & Hb). destruct (h !! e) as [p|] eqn:Ep; [|done].
    cbn in Hb. injection Hb as <-. by exists e, p.
  - intros (e & p & He & Hp & <-). exists e. rewrite elem_of_elements, Hp. done.
Qed.

Lemma lost_page_losses h l y :
  lost_at (page_losses h l) y ->
  exists e p, e ∈ l /\ h !! e = Some p /\ base p <= y < base p + NOX_DATAZONE_SIZE.
Proof.
  unfold lost_at. rewrite Exists_exists. intros (x & Hx & Hy). unfold page_losses in Hx.
  apply list_elem_of_omap in Hx as (e & He%elem_of_elements & Hb).
  destruct (h !! e) as [p|] eqn:Ep; [|done]. cbn in Hb. injection Hb as <-. by exists e, p.
Qed.

(** The closing thread gets through the walk on its own. *)
Lemma walk_first (x : S) es s (ok : bool) :
  engine_run x es s -> pending (sh_ot (y_sh s)) = 0 -> s1_at (y_s1 s) <> S1Exit -> idle s ->
  let h := sh_heap (y_sh s) in
  exists n s1 M a,
    close_run ok s ClDisarm (replicate n CClose) = Some (s1, ClStopDrain (io_err (sh_ot (y_sh s)))) /\
    index_rep h (sh_idx (y_sh s)) M /\ sim (dmg := all_damage) s1 a /\ just_swept a /\ res a = M /\
    same_bytes (strip <$> h) (pg a) /\ running s1 /\ idle s1 /\
    file_byte (sh_os (y_sh s1)) = file_byte (sh_os (y_sh s)) /\
    (forall e, e ∈ ord a <-> exists p, h !! e = Some p /\ M !! base p = Some e) /\
    pending (sh_ot (y_sh s1)) <= Z.of_nat (size h).
Proof.
  intros Hr Hp Hx Hid h. destruct (engine_loses _ _ _ Hr) as [lost Hl].
  pose proof (engine_losing_running _ _ _ _ Hl Hx) as (Hq & _ & N2).
  destruct (losing_sim (dmg := all_damage) _ _ _ _ Hl (counted_all lost)) as (a0 & _ & Hs0 & _). clear Hl lost.
  destruct s as [sh t1 t2 fg failed]. cbn [y_sh y_s1 y_s2] in *.
  set (sd := mk_sys (with_wm (nox_watermark_disarm (sh_wm sh)) sh) t1 t2 fg failed).
  assert (Hsd : sim (dmg := all_damage) sd a0).
  { eapply sim_shared; [done| |done..]. intros. by apply core_wm. }
  assert (Ed : close_run ok (mk_sys sh t1 t2 fg failed) ClDisarm [CClose; CClose] =
    Some (sd, ClSweep (io_err (sh_ot sh)) (FeBucket 0))).
  { cbn. unfold otflush_drain. cbn. by rewrite Hp. }
  destruct (sweep_run ok (io_err (sh_ot sh)) sd a0 Hsd Hp)
    as (n & s1 & a & l & E & Hs1 & Hres & Hsame & Hnd & Hord & Hl & Hfl & _ & Eo & E1 & E2 & Ef).
  destruct (drained_sim _ _ Hsd Hp) as (_ & F1 & F2 & _).
  destruct (quiet_hands _ _ Hsd Hp) as (K1 & _ & K2 & _). cbn [sd y_sh y_s1 y_s2 y_fg] in *.
  pose proof Hs1 as [_ _ [_ Hpe _ M1 M2] _]. rewrite E1 in *. rewrite E2 in *.
  assert (Hid1 : idle s1) by (unfold idle; by rewrite Ef).
  exists (2 + n)%nat, s1, (res a0), a. split_and!.
  - by rewrite <- (close_run_app _ _ _ _ _ _ _ Ed) in E.
  - apply (co_idx _ _ _ _ _ _ (si_core _ _ Hs0)).
  - done.
  - split_and!; [by rewrite (s1_match_hand _ _ M1)|by rewrite (s2_match_hand _ _ M2)|exact (idle_flight _ _ Hs1 Hid1)|].
    intros e He. rewrite Hord, Hl in He. destruct He as (p & _ & Hm). rewrite Hres. by eexists.
  - done.
  - pose proof (co_pg _ _ _ _ _ _ (si_core _ _ Hs0)) as Hpg. cbn [y_sh] in Hpg. by rewrite <- Hpg in Hsame.
  - split; [exact (eq_trans (f_equal snd Hfl) Hq)|by rewrite E1, E2].
  - done.
  - by rewrite Eo.
  - intros e. by rewrite Hord, Hl.
  - rewrite Hpe, F1, F2, Hord. change (0 + 0) with 0. rewrite Z.add_0_r. apply inj_le.
    rewrite <- (size_list_to_set (C := gset addr) l Hnd), <- size_dom. apply subseteq_size.
    intros e He%elem_of_list_to_set. apply Hl in He as (p & Hpe' & _). by apply elem_of_dom_2 in Hpe'.
Qed.

(** After the walk the state is closing, with any damage that counts the pages out of the index. *)
Lemma after_walk (dmg : Damage) (s1 : sys S) (h : heap) (M : gmap Z addr) a err :
  sim (dmg := all_damage) s1 a -> just_swept a -> res a = M -> same_bytes (strip <$> h) (pg a) ->
  running s1 -> idle s1 ->
  (forall e, e ∈ ord a <-> exists p, h !! e = Some p /\ M !! base p = Some e) ->
  (forall e p, h !! e = Some p -> e ∈ strays h M -> gives_up (base p) /\ spoiled (base p)) ->
  closing (strays h M) (view a) s1 (ClStopDrain err).
Proof.
  intros Hs Hsw Hres [Hdom Hsame] Hrun Hid Hord Hst.
  assert (Hpage : forall e, is_Some (pg a !! e) ->
    exists p q, h !! e = Some p /\ pg a !! e = Some q /\ base q = base p).
  { intros e [q Hq]. assert (He : e ∈ dom (strip <$> h)) by (rewrite <- Hdom; by eapply elem_of_dom_2).
    rewrite dom_fmap in He. apply elem_of_dom in He as [p Hp]. exists p, q.
    destruct (Hsame e (strip p)) as (q' & Hq' & Hb & _); [by rewrite lookup_fmap, Hp|].
    cbn in Hb. split_and!; [done..|]. congruence. }
  split_and!; [done|exact Hrun|done|]. exists a. split_and!; [|done|].
  - destruct Hs as [Hinv Hc Hb Hf]. split; [|exact Hc|exact Hb|exact Hf].
    apply swept_inv; [done..|]. intros e q Hq He. destruct (Hpage e) as (p & q' & Hp & Hq' & Hbase); [by eexists|].
    rewrite Hq in Hq'. injection Hq' as <-. rewrite Hbase. apply (Hst e p Hp).
    apply elem_of_strays. exists p. split; [done|]. intros Hm. apply He, Hord. eauto.
  - intros _ e He. destruct (Hpage e He) as (p & q & Hp & _).
    destruct (decide (M !! base p = Some e)) as [Hm|Hm].
    + right. left. exists (base p). by rewrite Hres.
    + left. apply elem_of_strays. eauto.
Qed.

(** The close that follows, whatever it loses. *)
Lemma second_run ok (s1 : sys S) h M a err rounds :
  sim (dmg := all_damage) s1 a -> just_swept a -> res a = M -> same_bytes (strip <$> h) (pg a) ->
  running s1 -> idle s1 ->
  (forall e, e ∈ ord a <-> exists p, h !! e = Some p /\ M !! base p = Some e) ->
  pending (sh_ot (y_sh s1)) <= Z.of_nat (size h) -> Forall close_round rounds ->
  24 * Z.of_nat (size h) + 13 <= Z.of_nat (length rounds) ->
  exists s' err', close_run ok s1 (ClStopDrain err) (concat rounds) = Some (s', ClDone err') /\
    settled (dmg := losses (page_losses h (strays h M) ++
                            close_losses ok s1 (ClStopDrain err) (concat rounds)))
      (strays h M) (view a) s'.
Proof.
  intros Hs Hsw Hres Hsame Hrun Hid Hord Hpend Hf Hlen.
  pose proof (work_bound _ _ Hs) as Hw. fold (sys_work s1) in Hw.
  destruct (close_rounds (dmg := all_damage) (strays h M) (view a) (fun _ => true)
    (fun ls _ => counted_all ls) ok rounds s1 (ClStopDrain err))
    as [(pre & s' & c' & l & _ & _ & _ & Hl)|(s' & err' & E & _)]; [|done| |done|].
  - by apply after_walk.
  - left. unfold close_work, exits. cbn. destruct (s1_at (y_s1 s1)), (y_s2 s1); lia.
  - exists s', err'. split; [exact E|].
    set (ls := page_losses h (strays h M) ++ close_losses ok s1 (ClStopDrain err) (concat rounds)).
    pose proof (counted_self ls) as Hc. apply counted_app in Hc as [_ Hc].
    edestruct (close_run_closing (dmg := losses ls) (strays h M) (view a)) as (_ & _ & _ & Hset);
      [|exact E|exact Hc|exact Hset].
    apply after_walk; try done. intros e p Hp He.
    assert (Hl : LostPage (base p) ∈ ls)
      by (apply elem_of_app; left; apply elem_of_page_losses; by exists e, p).
    split; [exact Hl|]. intros y Hy. apply Exists_exists. by exists (LostPage (base p)).
Qed.

Lemma second_view {dmg : Damage} (s1 : sys S) h (M : gmap Z addr) a e p y :
  sim s1 a -> just_swept a -> same_bytes (strip <$> h) (pg a) ->
  (forall e, e ∈ ord a <-> exists p, h !! e = Some p /\ M !! base p = Some e) ->
  h !! e = Some p -> M !! base p = Some e -> covered p (y - base p) ->
  view a y = data p (y - base p).
Proof.
  intros Hs Hsw [_ Hsame] Hord He Hm Hcov.
  destruct (Hsame e (strip p)) as (q & Hq & Hb & Hd & Hc); [by rewrite lookup_fmap, He|].
  cbn in Hb, Hd. rewrite <- Hd, <- Hb. eapply swept_view; [by apply Hs|done|apply Hord; eauto|done|].
  apply Hc. by rewrite Hb.
Qed.

(** C5: [nox_close] gives the pages that Stage-1 has given up a second chance, and completes
    whatever fails. Take any state the engine reaches, after any errors, with nothing pending,
    every caller returned and the Stage-1 thread alive, and call [nox_close]; let it get through
    its walk of the index before the flusher threads move, and then schedule the three by any
    sequence of rounds in which each gets a turn, at least 24 rounds per allocated page plus 13.
    It returns, with the result of the latched error; both threads have exited; only pages that
    were out of the index before the call may still be allocated, and the level of the gate is
    their number. Unless a transfer of the close loses it, or such a page has the same base,
    every byte that a page in the index held, given up before, is in the file, and every other
    byte of the file is as it was. *)
Theorem close_second_chance (x : S) (es : list event) (s : sys S) (ok : bool) :
  engine_run x es s -> pending (sh_ot (y_sh s)) = 0 -> s1_at (y_s1 s) <> S1Exit -> idle s ->
  let h := sh_heap (y_sh s) in let err := io_err (sh_ot (y_sh s)) in
  exists n s1 M,
    close_run ok s ClDisarm (replicate n CClose) = Some (s1, ClStopDrain err) /\
    index_rep h (sh_idx (y_sh s)) M /\
    forall rounds, Forall close_round rounds ->
      24 * Z.of_nat (size h) + 13 <= Z.of_nat (length rounds) ->
      exists s',
        close_run ok s1 (ClStopDrain err) (concat rounds) =
          Some (s', ClDone (result_of (sh_ot (y_sh s')) ok)) /\
        exited s' /\ (forall e, is_Some (sh_heap (y_sh s') !! e) -> e ∈ strays h M) /\
        nox_watermark_live (sh_wm (y_sh s')) = Z.of_nat (size (sh_heap (y_sh s'))) /\
        forall y, ~ lost_at (page_losses h (strays h M) ++
                             close_losses ok s1 (ClStopDrain err) (concat rounds)) y ->
          (forall e p, h !! e = Some p -> M !! base p = Some e -> covered p (y - base p) ->
             file_byte (sh_os (y_sh s')) y = data p (y - base p)) /\
          ((forall e p, h !! e = Some p -> ~ covered p (y - base p)) ->
             file_byte (sh_os (y_sh s')) y = file_byte (sh_os (y_sh s)) y).
Proof.
  intros Hr Hp Hx Hid h err.
  destruct (walk_first x es s ok Hr Hp Hx Hid)
    as (n & s1 & M & a & E1 & Hidx & Hs1 & Hsw & Hres & Hsame & Hrun & Hid1 & Hf1 & Hord & Hpend).
  exists n, s1, M. split; [exact E1|]. split; [exact Hidx|]. intros rounds Hf Hlen.
  destruct (second_run ok s1 h M a err rounds) as (s' & err' & E2 & Hset); try done.
  pose proof (engine_err_code _ _ _ Hr) as He.
  assert (Ei : errors_inv ok s' (ClDone err')).
  { eapply run_errors; [|exact E2]. eapply run_errors; [|exact E1]. by split. }
  destruct Ei as (_ & Hex & ->). exists s'. split; [done|]. split; [done|].
  destruct Hset as (Hv & Hh & Hlive & _). split; [done|]. split; [done|].
  intros y Hy. split.
  - intros e p He' Hm Hcov. rewrite (Hv y Hy). by apply (second_view (dmg := all_damage) s1 h M a e p y).
  - intros Hno. rewrite (Hv y Hy), swept_view_disk, <- Hf1; [by rewrite (co_disk _ _ _ _ _ _ (si_core _ _ Hs1) y)|].
    intros e q He' Hq. destruct Hsame as [_ Hsame]. apply Hord in He' as (p & Hp' & _).
    destruct (Hsame e (strip p)) as (q' & Hq' & Hb & _ & Hc); [by rewrite lookup_fmap, Hp'|].
    rewrite Hq in Hq'. injection Hq' as <-. rewrite Hb, Hc. by apply (Hno e p).
Qed.

End SecondChance.

Section Witness.
Import Sample.

(** The bytes at which the calls of the sample wrote last, in the page that was given up. *)
Definition looked_at (s : sys mem_file) : list byte :=
  file_byte (sh_os (y_sh s)) <$> [100; 104; 108; 262134; 262143].

(** None of them is in the file before the close, and all of them are after it, which returns -1. *)
Lemma second_chance_sample :
  let drained := FaultSample.spoiled_calls ++
    concat (replicate 4 (replicate 30 MStage1 ++ replicate 60 MStage2)) in
  match FaultSample.outcome drained with
  | Some (s, _, _) =>
      looked_at s = replicate 5 xee /\
      match close_run true s ClDisarm (replicate 1030 CClose ++ concat (replicate 37 one_round)) with
      | Some (s', c) => looked_at s' = [x11; x33; x11; x22; x22] /\ c = ClDone (-1)
      | None => False
      end
  | None => False
  end.
Proof. vm_compute. by split. Qed.

(** The sample whose hole read was refused, when nothing is pending any more: its page is written
    by the close. *)
Lemma close_second_chance_witness :
  exists es s, engine_run FaultSample.flaky es s /\ pending (sh_ot (y_sh s)) = 0 /\
    size (sh_heap (y_sh s)) = 1%nat /\
    exists n s', close_run true s ClDisarm (replicate n CClose ++ concat (replicate 37 one_round)) =
      Some (s', ClDone (result_of (sh_ot (y_sh s')) true)).
Proof.
  destruct (FaultSample.reached_losing (fun s _ _ => bool_decide (pending (sh_ot (y_sh s)) = 0) &&
      bool_decide (size (sh_heap (y_sh s)) = 1%nat) && idleb s &&
      match s1_at (y_s1 s) with S1Exit => false | _ => true end)
      (FaultSample.spoiled_calls ++ concat (replicate 4 (replicate 30 MStage1 ++ replicate 60 MStage2))))
    as (s & es & lost & Hr & [[[Hp Hs]%andb_true_iff Hi]%andb_true_iff Hx]%andb_true_iff);
    [vm_compute; reflexivity|].
  apply bool_decide_eq_true_1 in Hp, Hs. apply losing_engine in Hr. exists es, s.
  split; [exact Hr|]. split; [exact Hp|]. split; [exact Hs|].
  destruct (close_second_chance FaultSample.flaky es s true Hr Hp) as (n & s1 & M & E1 & _ & Hrun).
  - intros E. by rewrite E in Hx.
  - exact (idleb_ok s Hi).
  - destruct (Hrun (replicate 37 one_round) (one_round_turns 37)) as (s' & E2 & _).
    + rewrite Hs, length_replicate. lia.
    + exists n, s'. rewrite (close_run_app _ _ _ _ _ _ _ E1). exact E2.
Defined.

End Witness.
