(* ===== verification/Benchmark.v ===== *)
(** The throughput driver [src/bench/benchmark.c]: one thread writes a region in large aligned
    blocks, which take the direct path, then a region in small unaligned pieces, which take the
    scrap path, and closes. Timing and the report are left out. The two loop counts are
    compile-time constants and a class here, so that a short run can be evaluated; [bench_counts]
    is the pair of the source. *)
From stdpp Require Import base numbers list gmap sets.
From Corelib Require Import Init.Byte.
From S2P Require Import Prelude Config Segments IoDirect Watermark ScrapPage Heap Queue.
From S2P Require Import PageIndex Stats Otflush Engine Pipeline System Schedule Simulation.
From S2P Require Import SimFlush SimWrite Faults Apart Guarantees CloseErrors Progress Close.

Definition BIG_WRITE_SIZE : Z := 4 * 1024 * 1024.
Definition SMALL_WRITE_SIZE : Z := 777.
Definition SMALL_STRIDE : Z := 333.

(** The counts are of type [int]. *)
Class BenchCounts := {
  BIG_WRITE_COUNT : Z;
  SMALL_WRITE_COUNT : Z;
  big_count_ok : 0 <= BIG_WRITE_COUNT < 2 ^ 31;
  small_count_ok : 0 <= SMALL_WRITE_COUNT < 2 ^ 31
}.

Definition bench_counts : BenchCounts.
Proof. refine {| BIG_WRITE_COUNT := 64; SMALL_WRITE_COUNT := 100000 |}; lia. Defined.

(** Where [main] is: at the head of a loop in iteration [i], inside [nox_write], or at the
    [nox_close] that ends it, with the status it returns unless the close fails. *)
Inductive bench_ctl :=
| BBig (i off : Z)
| BBigIn (i off : Z)
| BSmall (i base : Z)
| BSmallIn (i base : Z)
| BClose (rc : Z).

Section Bench.
Context `{BenchCounts} `{NoxConfig} {S : Type} `{Posix S}.

Record bench := mk_bench { b_sys : sys S; b_big : Z; b_ctl : bench_ctl }.

(** [main] up to the first loop: an exit status, or the process. [opened] is what [nox_open]
    returned, [big] what [posix_memalign] did. *)
Definition bench_start (argc : Z) (opened : option (sys S)) (big : option Z) : Z + bench :=
  if negb (argc =? 2) then inl 2
  else
    match opened with
    | None => inl 1
    | Some s =>
        match big with
        | None => inr (mk_bench s 0 (BClose 1))
        | Some a => inr (mk_bench s a (BBig 0 0))
        end
    end.

Definition big_src : buf := fun _ => xab.
Definition small_src : buf := fun _ => xcd.
Definition small_off (base i : Z) : Z := u64 (base + u64 (i * SMALL_STRIDE)).

(** One move of [main] itself, caller 0 of the engine; [saddr] is the address of [small] on the
    stack. A call inside the engine has to be over for [main] to move. *)
Definition bench_go (saddr : Z) (p : bench) : option (bench * option event) :=
  let '(mk_bench s big c) := p in
  let '(mk_sys sh t1 t2 fg failed) := s in
  rc ← match fg !! 0%nat with Some (FgIdle rc) => Some rc | _ => None end;
  match c with
  | BBig i off =>
      if i <? BIG_WRITE_COUNT then
        let '(sh', c') := nox_write sh big big_src BIG_WRITE_SIZE off in
        Some (mk_bench (mk_sys sh' t1 t2 (<[0%nat := c']> fg) failed) big (BBigIn i off),
              Some (ECall big_src BIG_WRITE_SIZE off))
      else Some (mk_bench s big (BSmall 0 off), None)
  | BBigIn i off =>
      Some (mk_bench s big (if rc =? 0 then BBig (i + 1) (u64 (off + BIG_WRITE_SIZE)) else BClose 1), None)
  | BSmall i base =>
      if i <? SMALL_WRITE_COUNT then
        let '(sh', c') := nox_write sh saddr small_src SMALL_WRITE_SIZE (small_off base i) in
        Some (mk_bench (mk_sys sh' t1 t2 (<[0%nat := c']> fg) failed) big (BSmallIn i base),
              Some (ECall small_src SMALL_WRITE_SIZE (small_off base i)))
      else Some (mk_bench s big (BClose 0), None)
  | BSmallIn i base =>
      Some (mk_bench s big (if rc =? 0 then BSmall (i + 1) base else BClose 1), None)
  | BClose _ => None
  end.

(** What [main] returns after [nox_close] returned [close_rc]. *)
Definition bench_exit (rc close_rc : Z) : Z :=
  if negb (rc =? 0) then rc else if negb (close_rc =? 0) then 1 else 0.

Inductive bench_step : bench -> option event -> bench -> Prop :=
| bn_main saddr p p' l : bench_go saddr p = Some (p', l) -> bench_step p l p'
| bn_call sh t1 t2 fg failed big b c now al sh' c' :
    fg !! 0%nat = Some c -> fg_ok (mk_sys sh t1 t2 fg failed) c al ->
    fg_step sh now al c = Some (sh', c') ->
    bench_step (mk_bench (mk_sys sh t1 t2 fg failed) big b) (EPut <$> fg_label c c')
      (mk_bench (mk_sys sh' t1 t2 (<[0%nat := c']> fg) (failed || fg_fails c c')) big b)
| bn_stage1 sh t1 t2 fg failed big b sh' t1' :
    stage1_step sh t1 = Some (sh', t1') ->
    bench_step (mk_bench (mk_sys sh t1 t2 fg failed) big b) None (mk_bench (mk_sys sh' t1' t2 fg failed) big b)
| bn_stage2 sh t1 t2 fg failed big b sh' t2' :
    stage2_step sh t2 = Some (sh', t2') ->
    bench_step (mk_bench (mk_sys sh t1 t2 fg failed) big b) None (mk_bench (mk_sys sh' t1 t2' fg failed) big b).

Inductive bench_run : bench -> list event -> bench -> Prop :=
| bnr_refl p : bench_run p [] p
| bnr_step p es p1 l p2 : bench_run p es p1 -> bench_step p1 l p2 -> bench_run p (es ++ option_list l) p2.

End Bench.
Arguments bench : clear implicits.
Arguments mk_bench {S}.
Arguments b_sys {S}.
Arguments b_big {S}.
Arguments b_ctl {S}.

(** * The file the driver writes *)

(** The length of what [n] small writes cover: they overlap, so there is no gap. *)
Definition small_extent (n : Z) : Z :=
  if n <=? 0 then 0 else (n - 1) * SMALL_STRIDE + SMALL_WRITE_SIZE.

(** After [nb] large and [ns] small writes. *)
Definition bench_image (d : buf) (nb ns : Z) : buf :=
  fun x => if in_range 0 (nb * BIG_WRITE_SIZE) x then xab
           else if in_range (nb * BIG_WRITE_SIZE) (small_extent ns) x then xcd else d x.

Lemma small_extent_next i :
  0 <= i -> small_extent (i + 1) = i * SMALL_STRIDE + SMALL_WRITE_SIZE /\
            i * SMALL_STRIDE <= small_extent i <= i * SMALL_STRIDE + SMALL_WRITE_SIZE.
Proof.
  intros Hi. unfold small_extent, SMALL_STRIDE, SMALL_WRITE_SIZE.
  destruct (i + 1 <=? 0) eqn:E1; [contra_lia|]. destruct (i <=? 0) eqn:E2; lia.
Qed.

Ltac img := unfold bench_image, in_range, BIG_WRITE_SIZE, SMALL_WRITE_SIZE, SMALL_STRIDE in *;
  repeat match goal with
  | |- context [if ?b then _ else _] => destruct b eqn:?
  end; try done; exfalso; lia.

Lemma image_start d : bench_image d 0 0 ≈ d.
Proof. intros x. unfold bench_image. change (small_extent 0) with 0. img. Qed.

Lemma image_big d i :
  0 <= i -> buf_put (bench_image d i 0) (i * BIG_WRITE_SIZE) big_src BIG_WRITE_SIZE ≈ bench_image d (i + 1) 0.
Proof. intros Hi x. unfold buf_put, big_src, bench_image. change (small_extent 0) with 0. img. Qed.

Lemma image_small d n i :
  0 <= n -> 0 <= i ->
  buf_put (bench_image d n i) (n * BIG_WRITE_SIZE + i * SMALL_STRIDE) small_src SMALL_WRITE_SIZE ≈
  bench_image d n (i + 1).
Proof.
  intros Hn Hi x. destruct (small_extent_next i Hi) as [E Hs]. unfold buf_put, small_src, bench_image.
  rewrite E. img.
Qed.

(** * The invariant of the process *)

Section Invariant.
Context `{BenchCounts} `{NoxConfig} {S : Type} `{PosixLaws S}.

(** Nothing was ever buffered: no page exists and the flusher threads wait. *)
Record pristine (s : sys S) : Prop := {
  pr_heap : sh_heap (y_sh s) = ∅;
  pr_q1 : q1 (sh_ot (y_sh s)) = queue_empty;
  pr_q2 : q2 (sh_ot (y_sh s)) = queue_empty;
  pr_s1 : s1_at (y_s1 s) = S1Pop \/ s1_at (y_s1 s) = S1Exit;
  pr_s2 : y_s2 s = S2Pop
}.

Definition not_direct (c : fg_ctl) : Prop := match c with FgDirect _ _ _ _ => False | _ => True end.

(** The only caller is [main], which is at [c]. *)
Definition caller (s : sys S) (c : fg_ctl) : Prop := y_fg s = {[0%nat := c]}.

(** What holds where [main] is; [d] is the file before, [es] what happened. *)
Definition ctl_inv (d : buf) (es : list event) (p : bench S) : Prop :=
  let s := b_sys p in
  match b_ctl p with
  | BBig i off =>
      0 <= i <= BIG_WRITE_COUNT /\ off = i * BIG_WRITE_SIZE /\ put_calls d es ≈ bench_image d i 0 /\
      pristine s /\ exists rc, caller s (FgIdle rc)
  | BBigIn i off =>
      0 <= i < BIG_WRITE_COUNT /\ off = i * BIG_WRITE_SIZE /\ put_calls d es ≈ bench_image d (i + 1) 0 /\
      pristine s /\ ((exists rc, caller s (FgIdle rc)) \/ caller s (FgDirect (b_big p) big_src BIG_WRITE_SIZE off))
  | BSmall i base =>
      0 <= i <= SMALL_WRITE_COUNT /\ base = BIG_WRITE_COUNT * BIG_WRITE_SIZE /\
      put_calls d es ≈ bench_image d BIG_WRITE_COUNT i /\ exists rc, caller s (FgIdle rc)
  | BSmallIn i base =>
      0 <= i < SMALL_WRITE_COUNT /\ base = BIG_WRITE_COUNT * BIG_WRITE_SIZE /\
      put_calls d es ≈ bench_image d BIG_WRITE_COUNT (i + 1) /\ exists c, caller s c /\ not_direct c
  | BClose rc =>
      (rc = 0 -> put_calls d es ≈ bench_image d BIG_WRITE_COUNT SMALL_WRITE_COUNT) /\
      exists rc', caller s (FgIdle rc')
  end.

Record bench_inv (d : buf) (s0 : sys S) (es : list event) (p : bench S) : Prop := {
  bi_run : ordered_run s0 es (b_sys p);
  bi_ctl : ctl_inv d es p
}.

(** ** The engine's own steps *)

Lemma pristine_stage1 sh t1 t2 fg failed sh' t1' :
  pristine (mk_sys sh t1 t2 fg failed) -> stage1_step sh t1 = Some (sh', t1') ->
  pristine (mk_sys sh' t1' t2 fg failed).
Proof.
  intros [Hh Hq1 Hq2 Hs1 Hs2] E. cbn in *. unfold stage1_step in E. destruct Hs1 as [Ht|Ht]; rewrite Ht in E.
  - rewrite Hq1, (pop_rep _ _ [] (queue_create_rep _)) in E. cbn in E. injection E as <- <-.
    split; cbn; auto.
  - injection E as <- <-. split; cbn; auto.
Qed.

Lemma pristine_stage2 sh t1 t2 fg failed sh' t2' :
  pristine (mk_sys sh t1 t2 fg failed) -> stage2_step sh t2 = Some (sh', t2') ->
  pristine (mk_sys sh' t1 t2' fg failed).
Proof.
  intros [Hh Hq1 Hq2 Hs1 Hs2] E. cbn in *. subst t2. unfold stage2_step in E.
  rewrite Hq2, (pop_rep _ _ [] (queue_create_rep _)) in E. cbn in E. injection E as <- <-.
  split; cbn; auto.
Qed.

Lemma pristine_direct sh t1 t2 fg fg' failed failed' now al baddr src size off sh' c' :
  pristine (mk_sys sh t1 t2 fg failed) -> fg_step sh now al (FgDirect baddr src size off) = Some (sh', c') ->
  pristine (mk_sys sh' t1 t2 fg' failed') /\ exists rc, c' = FgIdle rc.
Proof.
  intros [Hh Hq1 Hq2 Hs1 Hs2] E. cbn in *. destruct (io_direct_pwrite _ _ _ _ _) as [[w x] log].
  injection E as <- <-. split; [split; cbn; auto|by eexists].
Qed.

Lemma pristine_fg sh t1 t2 fg fg' failed failed' :
  pristine (mk_sys sh t1 t2 fg failed) -> pristine (mk_sys sh t1 t2 fg' failed').
Proof. intros []. by split. Qed.

Lemma not_direct_step (sh sh' : shared S) now al c c' :
  not_direct c -> fg_step sh now al c = Some (sh', c') -> not_direct c'.
Proof.
  intros Hc E. destruct c as [rc|baddr src size off|l|l|t0 l|l|a l]; [|done|..]; unfold fg_step in E.
  - by injection E as _ <-.
  - injection E as _ <-. by case_ifs.
  - destruct (watermark_wait_enter _) as [pass w]. injection E as _ <-. by case_ifs.
  - case_ifs; by injection E as _ <-.
  - destruct (wl_chunk l) as [[b intra] chunk]. bind_step E.
    match goal with r : chunk_out |- _ => destruct r end; by injection E as _ <-.
  - destruct (wl_chunk l) as [[b intra] chunk]. bind_step E. by injection E as _ <-.
Qed.

(** The large writes are multiples of the block from a multiple of the block; the small ones
    are below the threshold. *)
Lemma big_route (sh : shared S) big i :
  0 <= i -> nox_write sh big big_src BIG_WRITE_SIZE (i * BIG_WRITE_SIZE) =
            (sh, FgDirect big big_src BIG_WRITE_SIZE (i * BIG_WRITE_SIZE)).
Proof.
  intros Hi. unfold nox_write, nox_write_route. cbn [Z.eqb BIG_WRITE_SIZE Z.mul].
  replace (i * BIG_WRITE_SIZE) with ((1024 * i) * NOX_BLOCK_SIZE) by (unfold BIG_WRITE_SIZE, NOX_BLOCK_SIZE; lia).
  rewrite Z_mod_mult. done.
Qed.

Lemma small_route (sh sh' : shared S) saddr off c :
  nox_write sh saddr small_src SMALL_WRITE_SIZE off = (sh', c) -> not_direct c.
Proof. unfold nox_write, nox_write_route. cbn. by intros [= _ <-]. Qed.

(** ** One step of the process *)

Lemma caller_lone s c : caller s c -> lone s.
Proof.
  intros Hc i j d e. rewrite Hc. by intros [<- _]%lookup_singleton_Some [<- _]%lookup_singleton_Some.
Qed.

Lemma call_ok_single s c size off : caller s c -> range_ok off size -> call_ok s 0 size off.
Proof.
  intros Hc Hr. split; [done|]. intros j c' Hj Hl. rewrite Hc, lookup_singleton_ne in Hl by done. done.
Qed.

Lemma call_run s0 es sh t1 t2 fg failed rc baddr src size off sh' c :
  ordered_run s0 es (mk_sys sh t1 t2 fg failed) -> caller (mk_sys sh t1 t2 fg failed) (FgIdle rc) ->
  range_ok off size -> nox_write sh baddr src size off = (sh', c) ->
  ordered_run s0 (es ++ [ECall src size off]) (mk_sys sh' t1 t2 (<[0%nat := c]> fg) failed) /\
  caller (mk_sys sh' t1 t2 (<[0%nat := c]> fg) failed) c.
Proof.
  intros Hrun Hc Hr E. split.
  - apply (ordered_step _ _ _ (Some (ECall src size off)) _ Hrun); [|by eapply caller_lone|].
    + eapply sy_call; [|by eapply call_ok_single|exact E].
      unfold caller in Hc. cbn in Hc. rewrite Hc. apply lookup_singleton_eq.
    + intros i ba sr sz0 o a p Hi. unfold caller in Hc. rewrite Hc in Hi.
      by apply lookup_singleton_Some in Hi as [_ Hi].
  - unfold caller in *. cbn in *. rewrite Hc. apply insert_singleton_eq.
Qed.

Lemma put_calls_snoc d es src size off :
  put_calls d (es ++ option_list (Some (ECall src size off))) = buf_put (put_calls d es) off src size.
Proof. unfold put_calls. by rewrite foldl_app. Qed.

Lemma big_off_ok i : 0 <= i < BIG_WRITE_COUNT -> range_ok (i * BIG_WRITE_SIZE) BIG_WRITE_SIZE.
Proof.
  intros Hi. pose proof big_count_ok. unfold range_ok, BIG_WRITE_SIZE. change NOX_DATAZONE_SIZE with 262144. lia.
Qed.

Lemma small_off_eq i :
  0 <= i < SMALL_WRITE_COUNT ->
  small_off (BIG_WRITE_COUNT * BIG_WRITE_SIZE) i = BIG_WRITE_COUNT * BIG_WRITE_SIZE + i * SMALL_STRIDE /\
  range_ok (BIG_WRITE_COUNT * BIG_WRITE_SIZE + i * SMALL_STRIDE) SMALL_WRITE_SIZE.
Proof.
  intros Hi. pose proof big_count_ok. pose proof small_count_ok.
  unfold small_off, range_ok, BIG_WRITE_SIZE, SMALL_STRIDE, SMALL_WRITE_SIZE.
  change NOX_DATAZONE_SIZE with 262144. rewrite !u64_small; rewrite ?u64_small; lia.
Qed.

Lemma go_inv d s0 es saddr p p' l :
  bench_go saddr p = Some (p', l) -> bench_inv d s0 es p -> bench_inv d s0 (es ++ option_list l) p'.
Proof.
  intros E [Hrun Hctl]. destruct p as [[sh t1 t2 fg failed] big c]. unfold ctl_inv in Hctl.
  cbn [b_sys b_ctl b_big] in *. unfold bench_go in E.
  destruct (fg !! 0%nat) as [[rc| | | | | |]|] eqn:Efg; try done. cbn [mbind option_bind] in E.
  assert (Hfg : forall c0, caller (mk_sys sh t1 t2 fg failed) c0 -> c0 = FgIdle rc).
  { intros c0 Hc. unfold caller in Hc. cbn in Hc. rewrite Hc, lookup_singleton_eq in Efg. by injection Efg. }
  destruct c as [i off|i off|i base|i base|rc0]; [| | | |done].
  - destruct Hctl as (Hi & -> & Hf & Hp & rc1 & Hc). destruct (i <? BIG_WRITE_COUNT) eqn:El.
    + rewrite big_route in E by lia. apply (inj Some) in E. apply pair_eq in E as [<- <-].
      destruct (call_run s0 es sh t1 t2 fg failed rc1 big big_src BIG_WRITE_SIZE (i * BIG_WRITE_SIZE) _ _ Hrun Hc
        (big_off_ok i ltac:(lia)) (big_route sh big i ltac:(lia))) as [Hrun' Hc'].
      split; [exact Hrun'|]. unfold ctl_inv. cbn [b_sys b_ctl b_big]. rewrite put_calls_snoc, Hf.
      split_and!; [lia|lia|done|by apply image_big; lia| |by right]. by eapply pristine_fg.
    + apply (inj Some) in E. apply pair_eq in E as [<- <-]. rewrite app_nil_r.
      split; [done|]. unfold ctl_inv. cbn [b_sys b_ctl b_big]. assert (i = BIG_WRITE_COUNT) as -> by lia.
      pose proof small_count_ok. split_and!; [lia|lia|done|done|by exists rc1].
  - destruct Hctl as (Hi & -> & Hf & Hp & Hc). apply (inj Some) in E. apply pair_eq in E as [<- <-].
    assert (Hc' : caller (mk_sys sh t1 t2 fg failed) (FgIdle rc))
      by (destruct Hc as [[rc1 Hc]|Hc]; [by rewrite <- (Hfg _ Hc)|by apply Hfg in Hc]).
    rewrite app_nil_r. split; [done|]. unfold ctl_inv. cbn [b_sys b_ctl b_big].
    destruct (rc =? 0) eqn:Er; [|by split; [lia|eauto]].
    pose proof (big_off_ok i ltac:(lia)) as Hr. unfold range_ok in Hr.
    change NOX_DATAZONE_SIZE with 262144 in Hr.
    split_and!; [lia|lia| |done|done|by eauto]. rewrite u64_small by (unfold BIG_WRITE_SIZE in *; lia). lia.
  - destruct Hctl as (Hi & -> & Hf & rc1 & Hc). destruct (i <? SMALL_WRITE_COUNT) eqn:El.
    + destruct (small_off_eq i ltac:(lia)) as [Eo Hr]. rewrite Eo in E.
      destruct (nox_write _ _ _ _ _) as [sh' c'] eqn:En. apply (inj Some) in E. apply pair_eq in E as [<- <-].
      destruct (call_run _ _ _ _ _ _ _ _ _ _ _ _ _ _ Hrun Hc Hr En) as [Hrun' Hc'].
      split; [exact Hrun'|]. unfold ctl_inv. cbn [b_sys b_ctl b_big]. rewrite put_calls_snoc, Hf.
      pose proof big_count_ok. split_and!; [lia|lia|done|by apply image_small; lia|].
      exists c'. split; [done|]. by eapply small_route.
    + apply (inj Some) in E. apply pair_eq in E as [<- <-]. rewrite app_nil_r.
      split; [done|]. unfold ctl_inv. cbn [b_sys b_ctl b_big]. assert (i = SMALL_WRITE_COUNT) as -> by lia.
      split; [done|by exists rc1].
  - destruct Hctl as (Hi & -> & Hf & c0 & Hc & _). rewrite (Hfg _ Hc) in Hc.
    apply (inj Some) in E. apply pair_eq in E as [<- <-]. rewrite app_nil_r.
    split; [done|]. unfold ctl_inv. cbn [b_sys b_ctl b_big].
    destruct (rc =? 0) eqn:Er; [|by split; [lia|eauto]]. split_and!; [lia|lia|done|done|by eauto].
Qed.

Lemma put_calls_silent d es ch :
  put_calls d (es ++ option_list (EPut <$> ch)) = put_calls d es.
Proof. unfold put_calls. rewrite foldl_app. by destruct ch. Qed.

Lemma caller_insert sh sh' t1 t2 fg failed failed' c c' :
  caller (mk_sys sh t1 t2 fg failed) c -> caller (mk_sys sh' t1 t2 (<[0%nat := c']> fg) failed') c'.
Proof. unfold caller. cbn. intros ->. apply insert_singleton_eq. Qed.

Lemma caller_lookup sh t1 t2 fg failed c c0 :
  caller (mk_sys sh t1 t2 fg failed) c0 -> fg !! 0%nat = Some c -> c0 = c.
Proof. unfold caller. cbn. intros ->. rewrite lookup_singleton_eq. by intros [= ->]. Qed.

(** There is one caller, and on the direct path it meets no buffered page: nothing was buffered
    before. *)
Lemma ctl_caller d es p : ctl_inv d es p -> exists c, caller (b_sys p) c.
Proof. unfold ctl_inv. destruct (b_ctl p); naive_solver. Qed.

Lemma direct_alone d es p : ctl_inv d es p -> direct_clear (b_sys p).
Proof.
  destruct p as [[sh t1 t2 fg failed] big b]. unfold ctl_inv. cbn [b_sys b_ctl b_big y_fg].
  intros Hctl i baddr src size off a q Hi Hq. cbn [y_fg y_sh] in *.
  assert (Hno : forall c0, caller (mk_sys sh t1 t2 fg failed) c0 -> not_direct c0 -> False).
  { intros c0 Hc Hn. unfold caller in Hc. cbn in Hc. rewrite Hc in Hi.
    apply lookup_singleton_Some in Hi as [_ Hi]. by rewrite Hi in Hn. }
  destruct b as [j o|j o|j o|j o|rc].
  - destruct Hctl as (_ & _ & _ & _ & rc & Hx). by destruct (Hno _ Hx).
  - destruct Hctl as (_ & _ & _ & [Hh _ _ _ _] & _). cbn in Hh. by rewrite Hh in Hq.
  - destruct Hctl as (_ & _ & _ & rc & Hx). by destruct (Hno _ Hx).
  - destruct Hctl as (_ & _ & _ & c & Hx & Hn). by destruct (Hno _ Hx).
  - destruct Hctl as (_ & rc' & Hx). by destruct (Hno _ Hx).
Qed.

(** A step of the call keeps what holds where [main] is. *)
Lemma ctl_call d es sh t1 t2 fg failed failed' big b c now al sh' c' ch :
  ctl_inv d es (mk_bench (mk_sys sh t1 t2 fg failed) big b) -> fg !! 0%nat = Some c ->
  fg_step sh now al c = Some (sh', c') ->
  ctl_inv d (es ++ option_list (EPut <$> ch)) (mk_bench (mk_sys sh' t1 t2 (<[0%nat := c']> fg) failed') big b).
Proof.
  unfold ctl_inv. cbn [b_sys b_ctl b_big]. rewrite put_calls_silent. intros Hctl Hc E.
  assert (Hidle : forall rc, caller (mk_sys sh t1 t2 fg failed) (FgIdle rc) ->
    sh' = sh /\ c' = FgIdle rc).
  { intros rc Hx. rewrite <- (caller_lookup _ _ _ _ _ _ _ Hx Hc) in E. by injection E as <- <-. }
  destruct b as [i off|i off|i off|i off|rc].
  - destruct Hctl as (Hi & Ho & Hf & Hp & rc & Hx). destruct (Hidle _ Hx) as [-> ->].
    split_and!; try done; [lia|lia| |eexists; by eapply caller_insert]. by eapply pristine_fg.
  - destruct Hctl as (Hi & Ho & Hf & Hp & [[rc Hx]|Hx]).
    + destruct (Hidle _ Hx) as [-> ->]. split_and!; try done; [lia|lia| |].
      * by eapply pristine_fg.
      * left. eexists. by eapply caller_insert.
    + rewrite <- (caller_lookup _ _ _ _ _ _ _ Hx Hc) in E.
      destruct (pristine_direct _ _ _ _ (<[0%nat := c']> fg) _ failed' _ _ _ _ _ _ _ _ Hp E) as [Hp' [rc ->]].
      split_and!; try done; [lia|lia|]. left. eexists. by eapply caller_insert.
  - destruct Hctl as (Hi & Ho & Hf & rc & Hx). destruct (Hidle _ Hx) as [-> ->].
    split_and!; try done; [lia|lia|eexists; by eapply caller_insert].
  - destruct Hctl as (Hi & Ho & Hf & c0 & Hx & Hn).
    rewrite (caller_lookup _ _ _ _ _ _ _ Hx Hc) in Hn. split_and!; try done; [lia|lia|].
    exists c'. split; [by eapply caller_insert|by eapply not_direct_step].
  - destruct Hctl as (Hf & rc' & Hx). destruct (Hidle _ Hx) as [-> ->].
    split; [done|eexists; by eapply caller_insert].
Qed.

(** A step of a flusher thread, which leaves a pristine engine pristine. *)
Lemma ctl_flush d es sh t1 t2 fg failed big b sh' t1' t2' :
  ctl_inv d es (mk_bench (mk_sys sh t1 t2 fg failed) big b) ->
  (pristine (mk_sys sh t1 t2 fg failed) -> pristine (mk_sys sh' t1' t2' fg failed)) ->
  ctl_inv d es (mk_bench (mk_sys sh' t1' t2' fg failed) big b).
Proof.
  unfold ctl_inv, caller. cbn [b_sys b_ctl b_big y_fg]. intros Hctl Hp. destruct b; naive_solver.
Qed.

Lemma bench_step_inv d s0 es p l p' :
  bench_step p l p' -> bench_inv d s0 es p -> bench_inv d s0 (es ++ option_list l) p'.
Proof.
  intros Hst. destruct Hst as [saddr p p' l E|sh t1 t2 fg failed big b c now al sh' c' Hc Hal E
    |sh t1 t2 fg failed big b sh' t1' E|sh t1 t2 fg failed big b sh' t2' E]; intros Hi.
  - by eapply go_inv.
  - destruct Hi as [Hrun Hctl]. split; [|by eapply ctl_call].
    destruct (ctl_caller _ _ _ Hctl) as [c0 Hx].
    apply (ordered_step _ _ _ _ _ Hrun); [|by eapply caller_lone|exact (direct_alone _ _ _ Hctl)].
    by econstructor.
  - destruct Hi as [Hrun Hctl]. destruct (ctl_caller _ _ _ Hctl) as [c0 Hx].
    split; [apply (ordered_step _ _ _ None _ Hrun);
      [by constructor|by eapply caller_lone|exact (direct_alone _ _ _ Hctl)]|].
    rewrite app_nil_r. eapply ctl_flush; [exact Hctl|]. intros Hp. by eapply pristine_stage1.
  - destruct Hi as [Hrun Hctl]. destruct (ctl_caller _ _ _ Hctl) as [c0 Hx].
    split; [apply (ordered_step _ _ _ None _ Hrun);
      [by constructor|by eapply caller_lone|exact (direct_alone _ _ _ Hctl)]|].
    rewrite app_nil_r. eapply ctl_flush; [exact Hctl|]. intros Hp. by eapply pristine_stage2.
Qed.

Lemma bench_run_inv d s0 es0 p es p' :
  bench_run p es p' -> bench_inv d s0 es0 p -> bench_inv d s0 (es0 ++ es) p'.
Proof.
  induction 1 as [p|p es p1 l p2 Hr IH Hs]; intros Hi; [by rewrite app_nil_r|].
  rewrite app_assoc. eapply bench_step_inv; eauto.
Qed.

(** ** The start *)

Lemma open_pristine e high low w st (x : S) junk s :
  engine_open e high low w st x junk {[0%nat]} = Some s -> pristine s /\ caller s (FgIdle 0).
Proof.
  intros E. unfold engine_open in E. rewrite open_spec in E. destruct (open_ok e); [|done].
  destruct (nox_watermark_arm _ _ _); [|done]. cbn [mbind option_bind] in E. unfold stage1_start in E.
  assert (gset_to_gmap (FgIdle 0) {[0%nat]} = {[0%nat := FgIdle 0]} :> gmap nat fg_ctl) as Eg.
  { apply map_eq. intros i. rewrite lookup_gset_to_gmap. destruct (decide (i = 0%nat)) as [->|Hne].
    - rewrite option_guard_True by set_solver. by rewrite lookup_singleton_eq.
    - rewrite option_guard_False by set_solver. by rewrite lookup_singleton_ne. }
  destruct (posix_memalign _ _ _); apply (inj Some) in E as <-; (split; [split; cbn; auto|exact Eg]).
Qed.

Lemma bench_start_inv e high low w st (x : S) junk s argc big p :
  engine_open e high low w st x junk {[0%nat]} = Some s -> g_live w = 0 -> stats_wf st ->
  bench_start argc (Some s) big = inr p -> bench_inv (file_byte x) s [] p.
Proof.
  intros Ho Hw Hst Hs. pose proof (ordered_open _ _ _ _ _ _ _ _ _ Ho Hw Hst) as Hord.
  apply open_pristine in Ho as [Hp Hc]. unfold bench_start in Hs.
  destruct (negb _); [done|]. pose proof big_count_ok. pose proof small_count_ok.
  destruct big as [a|]; injection Hs as <-; (split; [exact Hord|]); unfold ctl_inv; cbn [b_sys b_ctl b_big].
  - split_and!; [lia|lia|done| |done|by eexists]. symmetry. apply image_start.
  - split; [lia|by eexists].
Qed.

End Invariant.

(** * Executable runs *)

Inductive bench_move :=
| BmMain (saddr : Z)
| BmCall (now : Z) (al : alloc_answer)
| BmStage1
| BmStage2.

Section Exec.
Context `{BenchCounts} `{NoxConfig} {S : Type} `{Posix S}.

Definition bench_exec (p : bench S) (m : bench_move) : option (bench S * option event) :=
  let '(mk_bench s big b) := p in
  let '(mk_sys sh t1 t2 fg failed) := s in
  match m with
  | BmMain saddr => bench_go saddr p
  | BmCall now al =>
      c ← fg !! 0%nat;
      if fg_okb s c al then
        '(sh', c') ← fg_step sh now al c;
        Some (mk_bench (mk_sys sh' t1 t2 (<[0%nat := c']> fg) (failed || fg_fails c c')) big b,
              EPut <$> fg_label c c')
      else None
  | BmStage1 => '(sh', t1') ← stage1_step sh t1; Some (mk_bench (mk_sys sh' t1' t2 fg failed) big b, None)
  | BmStage2 => '(sh', t2') ← stage2_step sh t2; Some (mk_bench (mk_sys sh' t1 t2' fg failed) big b, None)
  end.

Fixpoint bench_sched (p : bench S) (es : list event) (ms : list bench_move) : option (bench S * list event) :=
  match ms with
  | [] => Some (p, es)
  | m :: ms => '(p, l) ← bench_exec p m; bench_sched p (es ++ option_list l) ms
  end.

Lemma bench_exec_step p m p' l : bench_exec p m = Some (p', l) -> bench_step p l p'.
Proof.
  destruct p as [[sh t1 t2 fg failed] big b]. unfold bench_exec. intros E. destruct m as [saddr|now al| |].
  - by eapply bn_main.
  - destruct (fg !! 0%nat) as [c|] eqn:Ec; [|done]. cbn [mbind option_bind] in E.
    destruct (fg_okb _ _ _) eqn:Eo; [|done].
    destruct (fg_step _ _ _ _) as [[sh' c']|] eqn:Ef; [|done]. cbn [mbind option_bind] in E.
    apply (inj Some) in E. apply pair_eq in E as [<- <-]. eapply bn_call; [done| |done].
    by apply fg_okb_ok.
  - destruct (stage1_step _ _) as [[sh' t']|] eqn:Ef; [|done]. cbn [mbind option_bind] in E.
    apply (inj Some) in E. apply pair_eq in E as [<- <-]. by constructor.
  - destruct (stage2_step _ _) as [[sh' t']|] eqn:Ef; [|done]. cbn [mbind option_bind] in E.
    apply (inj Some) in E. apply pair_eq in E as [<- <-]. by constructor.
Qed.

Lemma bench_sched_run p0 p es ms p' es' :
  bench_run p0 es p -> bench_sched p es ms = Some (p', es') -> bench_run p0 es' p'.
Proof.
  revert p es. induction ms as [|m ms IH]; intros p es Hr E; cbn [bench_sched] in E.
  - apply (inj Some) in E. by apply pair_eq in E as [<- <-].
  - destruct (bench_exec p m) as [[p1 l]|] eqn:Em; [|done]. cbn [mbind option_bind] in E.
    eapply IH; [|exact E]. econstructor; [exact Hr|by eapply bench_exec_step].
Qed.

End Exec.

Section Properties.
Context `{BenchCounts} `{NoxConfig} {S : Type} `{PosixLaws S}.

(** During the large writes the caller is idle or on the direct path and no page exists; during
    the small ones it is never on the direct path. *)
Definition phase_ok (p : bench S) : Prop :=
  match b_ctl p, y_fg (b_sys p) !! 0%nat with
  | (BBig _ _ | BBigIn _ _), Some (FgIdle _ | FgDirect _ _ _ _) => sh_heap (y_sh (b_sys p)) = ∅
  | (BBig _ _ | BBigIn _ _), _ => False
  | _, Some (FgDirect _ _ _ _) => False
  | _, _ => True
  end.

Lemma ctl_phase d es p : ctl_inv d es p -> phase_ok p.
Proof.
  destruct p as [[sh t1 t2 fg failed] big b]. unfold ctl_inv, phase_ok, caller. cbn [b_sys b_ctl b_big y_fg y_sh].
  destruct b as [i off|i off|i off|i off|rc].
  - intros (_ & _ & _ & [Hh _ _ _ _] & rc & ->). by rewrite lookup_singleton_eq.
  - intros (_ & _ & _ & [Hh _ _ _ _] & [[rc ->]| ->]); by rewrite lookup_singleton_eq.
  - intros (_ & _ & _ & rc & ->). by rewrite lookup_singleton_eq.
  - intros (_ & _ & _ & c & -> & Hn). rewrite lookup_singleton_eq. by destruct c.
  - intros (_ & rc' & ->). by rewrite lookup_singleton_eq.
Qed.

(** C9: the throughput driver, with whatever counts it is compiled, however the flusher threads
    interleave with it and whichever addresses the allocator reuses. In every state it reaches,
    the large writes take the direct path with no page ever buffered and the small ones take the
    scrap path. When both loops have run to their end, every call having returned 0, and no
    transfer of the flusher has failed so far, then, unless one fails during the close,
    [nox_close], scheduled fairly and with [close(2)] succeeding, returns 0, [main] returns 0,
    and the file is the large region filled with 0xAB, right after it the small region filled
    with 0xCD without a gap, and otherwise what it was. That the direct writes meet no buffered page follows from the order of
    the two loops, and that no retry unlinks a page of another base from there being one caller;
    neither is assumed. *)
Theorem benchmark_contract (e : open_env) (high low : Z) (w : watermark) (st : nox_stats) (x : S)
    (junk : buf) (s0 : sys S) (big : Z) (p0 p : bench S) (es : list event) :
  engine_open e high low w st x junk {[0%nat]} = Some s0 -> g_live w = 0 -> stats_wf st ->
  bench_start 2 (Some s0) (Some big) = inr p0 -> bench_run p0 es p ->
  phase_ok p /\
  (b_ctl p = BClose 0 -> healthy (b_sys p) -> forall turns, Forall close_round turns ->
   24 * pending (sh_ot (y_sh (b_sys p))) + 1040 <= Z.of_nat (length turns) ->
   failing_prefix true (b_sys p) ClDisarm (concat turns) \/
   exists s' rc, close_run true (b_sys p) ClDisarm (concat turns) = Some (s', ClDone rc) /\
     bench_exit 0 rc = 0 /\
     file_byte (sh_os (y_sh s')) ≈ bench_image (file_byte x) BIG_WRITE_COUNT SMALL_WRITE_COUNT).
Proof.
  intros Ho Hw Hst Hs Hr. pose proof (bench_start_inv _ _ _ _ _ _ _ _ _ _ _ Ho Hw Hst Hs) as Hi.
  apply (bench_run_inv _ _ _ _ _ _ Hr) in Hi as [Hrun Hctl]. split; [by eapply ctl_phase|].
  intros Hb Hh turns Ht Hlen. unfold ctl_inv in Hctl. rewrite Hb in Hctl. cbn [app] in *.
  destruct Hctl as (Hf & rc & Hc).
  destruct (ordered_engine _ _ _ _ _ _ _ _ _ _ _ Ho Hw Hst Hrun) as (ls & Hl & Hloud).
  pose proof (silent_loud ls (engine_reported _ _ _ _ Hl Hh) Hloud) as ->.
  destruct (close_contract x es [] (b_sys p) true turns Hl Hh) as (_ & _ & Hcl); [|done..|].
  - intros i c Hi. unfold caller in Hc. rewrite Hc in Hi. apply lookup_singleton_Some in Hi as [_ <-]. by eexists.
  - destruct Hcl as [Hbad|(s' & E & Hfile & _)]; [by left|right].
    exists s', 0. split_and!; [exact E|done|]. rewrite <- (Hf eq_refl). intros y. apply Hfile, lost_none.
Qed.

End Properties.

Section Witness.
Import Sample.

(** Two large writes and three small ones. *)
#[local] Instance short_counts : BenchCounts.
Proof. refine {| BIG_WRITE_COUNT := 2; SMALL_WRITE_COUNT := 3 |}; lia. Defined.

Definition bench_opened : option (sys mem_file) :=
  engine_open all_ok NOX_WATERMARK_HIGH (NOX_WATERMARK_LOW NOX_WATERMARK_HIGH) wm_initial
    stats_zero file (bytes x00) {[0%nat]}.

Definition bench_sample : option (bench mem_file * bench mem_file * list event) :=
  s ← bench_opened;
  match bench_start 2 (Some s) (Some 4096) with
  | inl _ => None
  | inr p0 =>
      '(p, es) ← bench_sched p0 [] (
        concat (replicate 2 [BmMain 5; BmStage1; BmCall 0 (from 1%positive); BmStage2; BmMain 5]) ++ [BmMain 5] ++
        concat ((fun a => [BmMain 5] ++ replicate 4 (BmCall 0 (from a)) ++ [BmStage1; BmMain 5]) <$> [1; 2; 3]%positive) ++
        [BmMain 5]);
      Some (p0, p, es)
  end.

Definition closing (c : bench_ctl) : bool := match c with BClose rc => rc =? 0 | _ => false end.

Lemma benchmark_contract_witness :
  exists p0 p es, bench_sample = Some (p0, p, es) /\ b_ctl p = BClose 0 /\
    let turns := replicate 1088 one_round in
    (failing_prefix true (b_sys p) ClDisarm (concat turns) \/
     exists s' rc, close_run true (b_sys p) ClDisarm (concat turns) = Some (s', ClDone rc) /\
       bench_exit 0 rc = 0 /\ file_byte (sh_os (y_sh s')) ≈ bench_image (file_byte file) 2 3).
Proof.
  assert (Ht : match bench_sample with
    | Some (_, p, _) => closing (b_ctl p) && healthyb (b_sys p) && (pending (sh_ot (y_sh (b_sys p))) <=? 2)
    | None => false end = true) by (vm_compute; reflexivity).
  unfold bench_sample in Ht |- *. destruct bench_opened as [s0|] eqn:Eo; [|discriminate Ht].
  cbn [mbind option_bind] in Ht |- *.
  destruct (bench_start _ _ _) as [?|p0] eqn:Es; [discriminate Ht|].
  destruct (bench_sched _ _ _) as [[p es]|] eqn:Er; [|discriminate Ht].
  cbn [mbind option_bind] in Ht |- *. rewrite !andb_true_iff in Ht. destruct Ht as [[Hc Hh] Hp].
  apply healthyb_ok in Hh. assert (b_ctl p = BClose 0) as Hb.
  { destruct (b_ctl p); try discriminate Hc. cbn in Hc. f_equal. by apply Z.eqb_eq. }
  exists p0, p, es. split; [reflexivity|]. split; [exact Hb|].
  destruct (benchmark_contract all_ok NOX_WATERMARK_HIGH (NOX_WATERMARK_LOW NOX_WATERMARK_HIGH) wm_initial
    stats_zero file (bytes x00) s0 4096 p0 p es) as [_ Hk].
  - exact Eo.
  - reflexivity.
  - repeat split.
  - exact Es.
  - eapply bench_sched_run; [|exact Er]. constructor.
  - apply (Hk Hb Hh).
    + apply one_round_turns.
    + rewrite length_replicate. lia.
Defined.

End Witness.
