(* ===== verification/Lifecycle.v ===== *)
(** The resources of an engine over its life: what [nox_open] acquires, [nox_close] gives
    back, each thing once, in one order, at the statement that is there for it. *)
From stdpp Require Import base numbers list gmap sets.
From Corelib Require Import Init.Byte.
From S2P Require Import Prelude Config Segments IoDirect Watermark ScrapPage Heap Queue.
From S2P Require Import PageIndex Stats Otflush Engine Pipeline System Schedule Simulation.
From S2P Require Import SimFlush SimWrite Faults Guarantees CloseErrors Progress Close.

Section Lifecycle.
Context `{NoxConfig} {S : Type} `{Posix S}.

(** * Closing with the resources held *)

(** The statements of [nox_close] still ahead, counted. *)
Definition close_phase (c : close_ctl) : Z :=
  match c with
  | ClDisarm => 11 | ClDrain => 10 | ClSweep _ _ => 9 | ClStopDrain _ => 8 | ClStopFlag _ _ => 7
  | ClJoin1 _ _ => 6 | ClShutQ2 _ _ => 5 | ClJoin2 _ _ => 4 | ClErr _ _ => 3 | ClDestroy _ => 2
  | ClClose _ => 1 | ClDone _ => 0
  end.

(** A statement of [nox_close] is left when its transition moves on. *)
Definition leaves (c c' : close_ctl) : bool := close_phase c' <? close_phase c.

(** With what is held, and what was released, in order; [None] also when something is released
    that is not held. *)
Definition close_exec_held (ok : bool) (o : otflush) (s : sys S) (c : close_ctl)
    (held log : list resource) (m : close_move)
  : option (sys S * close_ctl * list resource * list resource) :=
  '(s', c') ← close_exec ok s c m;
  let rs := if leaves c c' then close_release o c else [] in
  held ← take_out_all rs held;
  Some (s', c', held, log ++ rs).

Fixpoint close_run_held (ok : bool) (o : otflush) (s : sys S) (c : close_ctl)
    (held log : list resource) (ms : list close_move)
  : option (sys S * close_ctl * list resource * list resource) :=
  match ms with
  | [] => Some (s, c, held, log)
  | m :: ms => '(s, c, held, log) ← close_exec_held ok o s c held log m;
               close_run_held ok o s c held log ms
  end.

(** * When each resource goes *)

(** What is released when [nox_close] is at [c], in order: the Stage-1 threads are joined, then
    the Stage-2 threads; the flusher goes, then the index, the descriptor and the engine. *)
Definition released_by (o : otflush) (c : close_ctl) : list resource :=
  (if close_phase c <? 6 then ROtflush <$> stop_join1 o else []) ++
  (if close_phase c <? 4 then ROtflush <$> stop_join2 o else []) ++
  (if close_phase c <? 3 then ROtflush <$> stop_destroy o else []) ++
  (if close_phase c <? 2 then destroy_index else []) ++
  (if close_phase c <? 1 then [RFd; REngine] else []).

(** What is still to be released. *)
Definition to_release (o : otflush) (c : close_ctl) : list resource :=
  (if 6 <=? close_phase c then ROtflush <$> stop_join1 o else []) ++
  (if 4 <=? close_phase c then ROtflush <$> stop_join2 o else []) ++
  (if 3 <=? close_phase c then ROtflush <$> stop_destroy o else []) ++
  (if 2 <=? close_phase c then destroy_index else []) ++
  (if 1 <=? close_phase c then [RFd; REngine] else []).

Definition step_release (o : otflush) (c c' : close_ctl) : list resource :=
  if leaves c c' then close_release o c else [].

Lemma released_all o c : released_by o c ++ to_release o c = to_release o ClDisarm.
Proof. destruct c; unfold released_by, to_release; cbn [close_phase Z.ltb Z.leb Z.compare Pos.compare Pos.compare_cont]; rewrite ?app_nil_l, ?app_nil_r, <- ?app_assoc; reflexivity. Qed.

Lemma to_release_step o c c' :
  close_phase c' = close_phase c \/ close_phase c' = close_phase c - 1 ->
  to_release o c = step_release o c c' ++ to_release o c' /\
  released_by o c' = released_by o c ++ step_release o c c'.
Proof.
  intros Hp. destruct c, c'; cbn in Hp; try (exfalso; lia); (split; [reflexivity|]);
    unfold released_by, step_release, leaves;
    cbn [close_phase close_release Z.ltb Z.leb Z.compare Pos.compare Pos.compare_cont];
    rewrite ?app_nil_l, ?app_nil_r, <- ?app_assoc; reflexivity.
Qed.

Lemma close_step_phase (s s' : shared S) c1 c2 ok c c' :
  close_step s c1 c2 ok c = Some (s', c') -> close_phase c' = close_phase c \/ close_phase c' = close_phase c - 1.
Proof.
  intros E. destruct c; cbn [close_step] in E; repeat bind_step E;
    try (destruct (otflush_drain _)); injection E as _ <-; try (destruct c1); try (destruct c2);
    try case_match; cbn; lia.
Qed.

Lemma close_exec_phase ok (s s' : sys S) c c' m :
  close_exec ok s c m = Some (s', c') -> close_phase c' = close_phase c \/ close_phase c' = close_phase c - 1.
Proof.
  destruct s as [sh t1 t2 fg failed]. unfold close_exec.
  destruct m; intros F; bind_step F; apply (inj Some) in F; injection F as _ <-; [|by left..].
  by eapply close_step_phase.
Qed.

(** No step of a run releases what is not held, and each releases what its statement does. *)
Lemma run_held ok o ms : forall (s s' : sys S) c c' held,
  close_run ok s c ms = Some (s', c') -> held ≡ₚ to_release o c ->
  exists held', close_run_held ok o s c held (released_by o c) ms =
      Some (s', c', held', released_by o c') /\ held' ≡ₚ to_release o c'.
Proof.
  induction ms as [|m ms IH]; intros s s' c c' held; cbn [close_run close_run_held].
  - intros [= -> ->] Hh. by exists held.
  - unfold close_exec_held. destruct (close_exec ok s c m) as [[s1 c1]|] eqn:E; [|done].
    cbn [mbind option_bind]. intros Hr Hh. apply close_exec_phase in E.
    destruct (to_release_step o c c1 E) as [Ht Hb]. rewrite Ht in Hh.
    destruct (take_out_all_ok _ _ _ Hh) as (h1 & Eh & Hh1). fold (step_release o c c1). rewrite Eh.
    cbn [mbind option_bind]. rewrite <- Hb. by apply IH.
Qed.

(** What an open engine holds, each thing once, is what closing is there to release. *)
Lemma open_held (e : open_env) (high low : Z) (w w' : watermark) idx o held :
  nox_open e high low w = Some (Some (idx, o), w', held) ->
  NoDup held /\ held ≡ₚ to_release o ClDisarm.
Proof.
  intros Eo. rewrite open_spec in Eo. destruct (open_ok e); [|done]. bind_step Eo.
  apply (inj Some) in Eo. injection Eo as _ <- _ <-. split.
  - apply (bool_decide_unpack _). vm_compute. exact I.
  - rewrite <- (app_nil_r (to_release _ _)). apply take_out_all_perm. vm_compute. reflexivity.
Qed.

(** C33: Closing releases everything opening acquired, each thing exactly once and in one order.
    Let [nox_open] return holding [held]: the engine, the descriptor, the index with its shard
    locks, the flusher with its mutex, condition variables, both queues and all its threads. They
    are distinct. Then in every execution of [nox_close] up to any of its statements, failing
    transfers included, nothing is ever released that is not held; what has been released by then
    is determined by the statement reached, and with what is still held it is [held]; and at the
    end nothing is held and the order was: the Stage-1 threads joined, then the Stage-2 threads,
    the parts of the flusher, the shard locks and the index, the descriptor, the engine. *)
Theorem open_close_roundtrip (e : open_env) (high low : Z) (w w' : watermark)
    (idx : page_index) (o : otflush) (held : list resource)
    (ok : bool) (s s' : sys S) (c : close_ctl) (ms : list close_move) :
  nox_open e high low w = Some (Some (idx, o), w', held) ->
  close_run ok s ClDisarm ms = Some (s', c) ->
  NoDup held /\
  exists held', close_run_held ok o s ClDisarm held [] ms = Some (s', c, held', released_by o c) /\
    held ≡ₚ released_by o c ++ held' /\
    (forall err, c = ClDone err ->
       held' = [] /\
       released_by o c = (ROtflush <$> stop_join1 o) ++ (ROtflush <$> stop_join2 o) ++
         (ROtflush <$> stop_destroy o) ++ destroy_index ++ [RFd; REngine]).
Proof.
  intros Eo Ec. destruct (open_held _ _ _ _ _ _ _ _ Eo) as [Hn Hp]. split; [exact Hn|].
  destruct (run_held ok o ms _ _ _ _ held Ec Hp) as (held' & E & Hh). exists held'. split_and!.
  - exact E.
  - by rewrite Hh, released_all.
  - intros err ->. split; [by apply Permutation_nil|reflexivity].
Qed.

End Lifecycle.

Section Witness.
Import Sample.

(** Opening, and closing at once with [close(2)] failing. *)
Lemma open_close_roundtrip_witness :
  exists idx o w held s s', nox_open all_ok NOX_WATERMARK_HIGH (NOX_WATERMARK_LOW NOX_WATERMARK_HIGH)
      wm_initial = Some (Some (idx, o), w, held) /\ start = Some s /\ NoDup held /\
    close_run_held false o s ClDisarm held [] (concat (replicate 1100 one_round)) =
      Some (s', ClDone (-1), [], released_by o (ClDone (-1))).
Proof.
  destruct (nox_open all_ok _ _ wm_initial) as [[[[[idx o]|] w] held]|] eqn:Eo;
    try (vm_compute in Eo; discriminate Eo).
  destruct start as [s|] eqn:Es; [|vm_compute in Es; discriminate Es].
  assert (Ht : match close_run false s ClDisarm (concat (replicate 1100 one_round)) with
    | Some (_, ClDone e) => e =? -1 | _ => false end = true).
  { apply (inj Some) in Es. rewrite <- Es. vm_compute. reflexivity. }
  destruct (close_run _ _ _ _) as [[s' c]|] eqn:Ec; [|discriminate Ht].
  destruct c as [| | | | | | | | | | |err]; try discriminate Ht. apply Z.eqb_eq in Ht as ->.
  destruct (open_close_roundtrip _ _ _ _ _ _ _ _ _ _ _ _ _ Eo Ec) as (Hn & held' & E & _ & Hd).
  destruct (Hd _ eq_refl) as [-> _]. by exists idx, o, w, held, s, s'.
Defined.

End Witness.
