(* ===== verification/Workload.v ===== *)
(** Concurrent drivers of the engine whose threads own disjoint parts of the file: the
    construction of [src/bench/order_repro.c] and [src/bench/otflush_soak.c]. Ownership alone
    implies the contract of [nox_write], so what such a driver executes is a run of the engine
    and every theorem on runs applies to it. *)
From stdpp Require Import base numbers list gmap sets.
From Corelib Require Import Init.Byte.
From S2P Require Import Prelude Config Segments IoDirect Watermark ScrapPage Heap Queue.
From S2P Require Import PageIndex Stats Otflush Engine Pipeline System Schedule Simulation.
From S2P Require Import SimFlush SimWrite Faults Apart Guarantees.

Section Workload.
Context `{NoxConfig} {S : Type} `{Posix S}.

(** * The callers *)

Lemma idle_step (s s' : sys S) l t rc :
  sys_step s l s' -> (forall src size offset, l <> Some (ECall src size offset)) ->
  y_fg s !! t = Some (FgIdle rc) -> y_fg s' !! t = Some (FgIdle rc).
Proof.
  intros Hst Hl Ht. destruct Hst as [sh t1 t2 fg failed i rc' baddr src size offset sh' c Hi Hok E
    |sh t1 t2 fg failed i c now al sh' c' Hi Hok E|sh t1 t2 fg failed sh' t1' E
    |sh t1 t2 fg failed sh' t2' E]; [by destruct (Hl src size offset)| |done|done].
  cbn in *. rewrite lookup_insert. case_decide; [subst|done]. rewrite Ht in Hi.
  injection Hi as <-. by injection E as _ <-.
Qed.

Lemma dom_step (s s' : sys S) l i c :
  sys_step s l s' -> y_fg s' !! i = Some c -> exists c0, y_fg s !! i = Some c0.
Proof.
  intros Hst Hi'. destruct Hst as [sh t1 t2 fg failed j rc' baddr src size offset sh' c' Hi Hok E
    |sh t1 t2 fg failed j c0 now al sh' c' Hi Hok E|sh t1 t2 fg failed sh' t1' E
    |sh t1 t2 fg failed sh' t2' E]; cbn in *; eauto;
  rewrite lookup_insert in Hi'; case_decide; subst; eauto.
Qed.

Lemma open_callers e high low w st x junk callers (s0 : sys S) i :
  engine_open e high low w st x junk callers = Some s0 ->
  y_fg s0 !! i = if decide (i ∈ callers) then Some (FgIdle 0) else None.
Proof.
  unfold engine_open. intros E. bind_step E. bind_step E.
  destruct (stage1_start _ _) as [sh t1]. injection E as <-. cbn.
  rewrite lookup_gset_to_gmap. case_decide; [by rewrite option_guard_True|by rewrite option_guard_False].
Qed.

Lemma exec_no_call (s s' : sys S) m l :
  match m with MCall _ _ _ _ _ => False | _ => True end -> exec true s m = Some (s', l) ->
  forall src size offset, l <> Some (ECall src size offset).
Proof.
  intros Hm Ex src size offset ->. destruct s as [sh t1 t2 fg failed]. unfold exec in Ex.
  destruct m; try done; repeat bind_step Ex; cbn [negb orb] in Ex; try discriminate Ex.
  destruct (fg_okb _ _ _); [|done]. bind_step Ex. apply (inj Some), pair_eq in Ex as [_ Ex].
  by destruct (fg_label _ _).
Qed.

(** * Ownership *)

Section Owners.
Variable own : nat -> Z -> Prop.
Hypothesis own_disjoint : forall i j x, own i x -> own j x -> i = j.

Definition owns (i : nat) (lo len : Z) : Prop := forall x, lo <= x < lo + len -> own i x.

(** What each caller still has to write lies in a non-empty range it owns. *)
Definition within_owned (i : nat) (c : fg_ctl) : Prop :=
  exists lo len, 0 < len /\ owns i lo len /\ range_within (fg_range c) (Some (lo, len)).

Definition owned (s : sys S) : Prop :=
  forall i c, y_fg s !! i = Some c -> fg_wf c /\ (fg_range c = None \/ within_owned i c).

(** A run in which the callers write only what they own. *)
Inductive driven : sys S -> list event -> sys S -> Prop :=
| dr_refl s : driven s [] s
| dr_call s es sh t1 t2 fg failed i rc baddr src size offset sh' c :
    driven s es (mk_sys sh t1 t2 fg failed) -> fg !! i = Some (FgIdle rc) ->
    range_ok offset size -> 0 < size -> owns i offset size ->
    nox_write sh baddr src size offset = (sh', c) ->
    driven s (es ++ [ECall src size offset]) (mk_sys sh' t1 t2 (<[i := c]> fg) failed)
| dr_step s es s1 l s2 :
    driven s es s1 -> sys_step s1 l s2 -> (forall src size offset, l <> Some (ECall src size offset)) ->
    driven s (es ++ option_list l) s2.

Lemma owned_call_ok s i size offset :
  owned s -> range_ok offset size -> 0 < size -> owns i offset size -> call_ok s i size offset.
Proof.
  intros Ho Hr Hs Hown. split; [done|]. intros j c Hne Hj. destruct (Ho j c Hj) as [_ [->|Hw]]; [done|].
  destruct Hw as (lo & len & Hl & Hj' & Hin). unfold range_within in Hin.
  destruct (fg_range c) as [[lo' len']|]; [|done]. cbn.
  destruct (decide (offset + size <= lo)); [lia|]. destruct (decide (lo + len <= offset)); [lia|].
  destruct Hne. symmetry. apply (own_disjoint _ _ (Z.max offset lo)); [apply Hown|apply Hj']; lia.
Qed.

Lemma owned_insert sh sh' t1 t1' t2 t2' fg failed failed' i c :
  owned (mk_sys sh t1 t2 fg failed) -> fg_wf c -> fg_range c = None \/ within_owned i c ->
  owned (mk_sys sh' t1' t2' (<[i := c]> fg) failed').
Proof.
  intros Ho Hw Hc j d. cbn. rewrite lookup_insert. case_decide; [|by apply Ho].
  intros [= <-]. by subst.
Qed.

Lemma nox_write_start (sh sh' : shared S) baddr src size offset c :
  nox_write sh baddr src size offset = (sh', c) -> range_ok offset size -> 0 < size ->
  fg_wf c /\ fg_range c = Some (offset, size).
Proof.
  unfold nox_write, nox_write_route. intros E Hr Hs. destruct (size =? 0) eqn:E0; [lia|].
  destruct (_ && _); by injection E as _ <-.
Qed.

Lemma range_within_trans r1 r2 r3 : range_within r1 r2 -> range_within r2 r3 -> range_within r1 r3.
Proof.
  unfold range_within. destruct r1 as [[]|], r2 as [[]|], r3 as [[]|]; naive_solver lia.
Qed.

(** Ownership is an invariant, and a driven run is a run. *)
Lemma driven_run s es s' : driven s es s' -> owned s -> sys_run s es s' /\ owned s'.
Proof.
  induction 1 as [s|s es sh t1 t2 fg failed i rc baddr src size offset sh' c Hd IH Hi Hr Hs Hown E
    |s es s1 l s2 Hd IH Hst Hl]; intros Ho.
  - split; [constructor|done].
  - destruct (IH Ho) as [Hrun Ho1]. pose proof (owned_call_ok _ _ _ _ Ho1 Hr Hs Hown) as Hok.
    split; [apply (sr_step _ _ _ (Some (ECall src size offset)) _ Hrun); by econstructor|].
    destruct (nox_write_start _ _ _ _ _ _ _ E Hr Hs) as [Hw Hrng].
    eapply owned_insert; [done..|]. right. exists offset, size. rewrite Hrng. cbn. split_and!; try done; lia.
  - destruct (IH Ho) as [Hrun Ho1]. split; [by econstructor|].
    destruct Hst as [sh t1 t2 fg failed i rc baddr src size offset sh' c Hi Hok E
      |sh t1 t2 fg failed i c now al sh' c' Hi Hok E|sh t1 t2 fg failed sh' t1' E
      |sh t1 t2 fg failed sh' t2' E]; [by destruct (Hl src size offset)| |done|done].
    destruct (Ho1 i c Hi) as [Hw Hc]. destruct (fg_step_within _ _ _ _ _ _ E Hw) as [Hw' Hin].
    eapply owned_insert; [done..|]. destruct Hc as [Hc|(lo & len & Hlen & Hown & Hin')].
    + left. rewrite Hc in Hin. by destruct (fg_range c') as [[]|].
    + right. exists lo, len. split_and!; try done. by eapply range_within_trans.
Qed.

Lemma idle_owned s : (forall i c, y_fg s !! i = Some c -> exists rc, c = FgIdle rc) -> owned s.
Proof. intros Hi i c Hc. destruct (Hi i c Hc) as [rc ->]. split; [done|by left]. Qed.

(** * Callers that each stay in one page *)

Variable home : nat -> Z.
Hypothesis own_home : forall i x, own i x -> x / NOX_DATAZONE_SIZE = home i.
Hypothesis homes_apart : forall i j x y, own i x -> own j y ->
  bucket_of (home i * NOX_DATAZONE_SIZE) = bucket_of (home j * NOX_DATAZONE_SIZE) -> home i = home j.

Lemma driven_calls s es s' src size offset :
  driven s es s' -> ECall src size offset ∈ es ->
  exists i, range_ok offset size /\ 0 < size /\ owns i offset size.
Proof.
  induction 1 as [s|s es sh t1 t2 fg failed i rc baddr src' size' offset' sh' c Hd IH Hi Hr Hs Hown E
    |s es s1 l s2 Hd IH Hst Hl]; intros Hin.
  - by apply not_elem_of_nil in Hin.
  - apply elem_of_app in Hin as [Hin|Hin%list_elem_of_singleton]; [by apply IH|].
    injection Hin as -> -> ->. by exists i.
  - apply elem_of_app in Hin as [Hin|Hin]; [by apply IH|].
    destruct l as [e|]; [|by apply not_elem_of_nil in Hin].
    apply list_elem_of_singleton in Hin. subst e. by destruct (Hl src size offset).
Qed.

(** A call within one page is not direct and uses that page. *)
Lemma home_call i src size offset :
  range_ok offset size -> 0 < size -> owns i offset size ->
  call_bases (ECall src size offset) = [home i * NOX_DATAZONE_SIZE] /\
  call_direct (ECall src size offset) = None.
Proof.
  intros Hr Hs Hown. pose proof (own_home i offset ltac:(apply Hown; lia)) as E1.
  pose proof (own_home i (offset + size - 1) ltac:(apply Hown; lia)) as E2.
  assert (Hsz : size <= NOX_DATAZONE_SIZE).
  { pose proof (Z.div_mod offset NOX_DATAZONE_SIZE ltac:(sz)).
    pose proof (Z.div_mod (offset + size - 1) NOX_DATAZONE_SIZE ltac:(sz)).
    pose proof (Z.mod_pos_bound offset NOX_DATAZONE_SIZE ltac:(sz)).
    pose proof (Z.mod_pos_bound (offset + size - 1) NOX_DATAZONE_SIZE ltac:(sz)). rewrite E1, E2 in *. lia. }
  assert (Hrt : nox_write_route size offset = RouteScrap).
  { unfold nox_write_route. destruct (size =? 0) eqn:E0; [lia|].
    destruct (NOX_DIRECT_THRESHOLD <=? size) eqn:Et; [sz|done]. }
  cbn. rewrite Hrt, E1, E2. split; [|done]. by replace (home i - home i + 1) with 1 by lia.
Qed.

Lemma driven_apart s es s' : driven s es s' -> calls_apart es.
Proof.
  intros Hd.
  assert (Hb : forall b, b ∈ es ≫= call_bases ->
    exists i x, own i x /\ b = home i * NOX_DATAZONE_SIZE).
  { intros b ([src size offset|] & Hb & He)%list_elem_of_bind; [|by apply not_elem_of_nil in Hb].
    destruct (driven_calls _ _ _ _ _ _ Hd He) as (i & Hr & Hs & Hown).
    destruct (home_call i src size offset Hr Hs Hown) as [E _]. rewrite E in Hb.
    apply list_elem_of_singleton in Hb as ->. exists i, offset. split; [|done]. apply Hown. lia. }
  split; apply Forall_forall; intros b Hin; apply Forall_forall.
  - intros b' Hin' E. destruct (Hb b Hin) as (i & x & Hx & ->), (Hb b' Hin') as (j & y & Hy & ->).
    by rewrite (homes_apart i j x y Hx Hy E).
  - intros r ([src size offset|] & He & Hr)%list_elem_of_omap; [|done].
    destruct (driven_calls _ _ _ _ _ _ Hd He) as (i & Hr' & Hs & Hown).
    destruct (home_call i src size offset Hr' Hs Hown) as [_ E]. congruence.
Qed.

End Owners.
End Workload.
