(* ===== verification/OrderRepro.v ===== *)
(** The write-ordering driver [src/bench/order_repro.c]: several threads rewrite the slots of
    one page, each thread only its own slots, and the file is then compared with the last value
    written to each slot. The driver predicts PASS for the default pool of one thread per
    stage; here the prediction is a theorem. [rand_r(3)] is a parameter. *)
From stdpp Require Import base numbers list gmap sets.
From Corelib Require Import Init.Byte.
From S2P Require Import Prelude Config Segments IoDirect Watermark ScrapPage Heap Queue.
From S2P Require Import PageIndex Stats Otflush Engine Pipeline System Schedule Simulation.
From S2P Require Import SimFlush SimWrite Faults Apart Guarantees CloseErrors Progress Close Workload.

(** * Slots and records *)

Definition SLOT_STRIDE : Z := 2048.
Definition SLOTS : Z := NOX_DATAZONE_SIZE / SLOT_STRIDE.
Definition TEST_BASE : Z := NOX_DATAZONE_SIZE * 4.

Record record_t := mk_record { r_seq : Z; r_slot : Z }.

(** The eight bytes of a record, and the [memcpy] back. *)
Definition record_bytes (r : record_t) : buf :=
  fun i => if i <? 4 then le_bytes (r_seq r) i else le_bytes (r_slot r) (i - 4).
Definition record_at (b : buf) (off : Z) : record_t :=
  mk_record (le_value 4 b off) (le_value 4 b (off + 4)).

Definition slot_off (slot : Z) : Z := u64 (TEST_BASE + u64 (slot * SLOT_STRIDE)).

(** * The writers *)

(** The thread count of [main]: the argument if it is legal, and then down to a divisor. *)
Fixpoint to_divisor (fuel : nat) (nthreads : Z) : option Z :=
  match fuel with
  | O => None
  | S fuel => if SLOTS mod nthreads =? 0 then Some nthreads else to_divisor fuel (nthreads - 1)
  end.

Definition thread_count (arg : Z) : option Z :=
  let nthreads := if (arg =? 0) || (SLOTS <? arg) then 4 else arg in
  to_divisor (Z.to_nat nthreads) nthreads.

(** Where a writer is: at the head of its loop in round [r], inside [nox_write], or returned. *)
Inductive writer_ctl :=
| WLoop (r seed : Z)
| WIn (r seed : Z)
| WDone (rc : Z).

Section Driver.
Context (rand_r : Z -> Z * Z) (nthreads rounds : Z).

(** The slot a writer picks, and its next seed. *)
Definition pick (first_slot seed : Z) : Z * Z :=
  let '(v, seed) := rand_r seed in
  let k := u32 v mod (SLOTS / nthreads) in
  (u32 (first_slot + u32 (k * nthreads)), seed).

Definition writer_seed (first_slot : Z) : Z := u32 (0x9E37 + first_slot).

Context `{NoxConfig} {S : Type} `{Posix S}.

(** The process while the writers run: the engine, [g_expected], and the writers, of which the
    [t]-th is caller [t] of the engine. *)
Record repro := mk_repro {
  rp_sys : sys S;
  rp_expected : list Z;
  rp_writers : list writer_ctl
}.

(** A writer's own transitions: the call of its loop body, the return of the call, the end of
    its loop. Everything else is the engine. *)
Inductive repro_step : repro -> option event -> repro -> Prop :=
| rs_call sh t1 t2 fg failed exp ws t r seed slot seed' e rc baddr sh' c :
    ws !! t = Some (WLoop r seed) -> r < rounds -> fg !! t = Some (FgIdle rc) ->
    pick (Z.of_nat t) seed = (slot, seed') -> exp !! Z.to_nat slot = Some e ->
    let rec := record_bytes (mk_record (u32 (e + 1)) slot) in
    nox_write sh baddr rec 8 (slot_off slot) = (sh', c) ->
    repro_step (mk_repro (mk_sys sh t1 t2 fg failed) exp ws) (Some (ECall rec 8 (slot_off slot)))
      (mk_repro (mk_sys sh' t1 t2 (<[t := c]> fg) failed) (<[Z.to_nat slot := u32 (e + 1)]> exp)
         (<[t := WIn r seed']> ws))
| rs_return s exp ws t r seed rc :
    ws !! t = Some (WIn r seed) -> y_fg s !! t = Some (FgIdle rc) ->
    repro_step (mk_repro s exp ws) None
      (mk_repro s exp (<[t := if rc =? 0 then WLoop (r + 1) seed else WDone (-1)]> ws))
| rs_end s exp ws t r seed :
    ws !! t = Some (WLoop r seed) -> rounds <= r ->
    repro_step (mk_repro s exp ws) None (mk_repro s exp (<[t := WDone 0]> ws))
| rs_engine s l s' exp ws :
    sys_step s l s' -> (forall src size offset, l <> Some (ECall src size offset)) ->
    repro_step (mk_repro s exp ws) l (mk_repro s' exp ws).

Inductive repro_run : repro -> list event -> repro -> Prop :=
| rr_refl p : repro_run p [] p
| rr_step p es p1 l p2 :
    repro_run p es p1 -> repro_step p1 l p2 -> repro_run p (es ++ option_list l) p2.

(** The process when the engine is open and the writers are created. *)
Definition repro_start (s : sys S) : repro :=
  mk_repro s (replicate (Z.to_nat SLOTS) 0)
    ((fun t => WLoop 0 (writer_seed (Z.of_nat t))) <$> seq 0 (Z.to_nat nthreads)).

(** * The start of [main] *)

(** The thread count and the rounds asked for on the command line, as [strtoul] read them. *)
Definition repro_args (argc targ rarg : Z) : Z * Z :=
  (if 2 <? argc then u32 targ else 4, if 3 <? argc then u32 rarg else 20000).

(** The outcome of the calls of [main] before the writers run; [pe_open] is what [nox_open]
    returned, [pe_thread] whether the [t]-th writer could be created. *)
Record prepare_env := mk_prepare {
  pe_create : bool;
  pe_ftruncate : bool;
  pe_open : option (sys S);
  pe_calloc : bool;
  pe_thread : nat -> bool
}.

(** An exit status, or the process with all writers created. *)
Definition repro_prepare (argc : Z) (e : prepare_env) : Z + repro :=
  if argc <? 2 then inl 2
  else if negb (pe_create e) then inl 1
  else if negb (pe_ftruncate e) then inl 1
  else
    match pe_open e with
    | None => inl 1
    | Some s =>
        if negb (pe_calloc e) then inl 1
        else if forallb (pe_thread e) (seq 0 (Z.to_nat nthreads)) then inr (repro_start s)
        else inl 1
    end.

(** * The comparison *)

(** [read_back_direct] after its [open]: the page of the file, or failure. *)
Definition read_back_direct (x : S) : option buf * S :=
  match sys_pread x NOX_DATAZONE_SIZE TEST_BASE with
  | (SysOk got, b, x') => (if got =? NOX_DATAZONE_SIZE then Some b else None, x')
  | (SysErr _, _, x') => (None, x')
  end.

Record tally := mk_tally {
  stale : Z; torn : Z; impossible : Z; missing : Z; worst_gap : Z
}.

(** One iteration of the classification loop. *)
Definition classify_slot (b : buf) (s want : Z) (c : tally) : tally :=
  let got := record_at b (s * SLOT_STRIDE) in
  if want =? 0 then c
  else if (r_seq got =? want) && (r_slot got =? s) then c
  else if negb (r_slot got =? s) then
    mk_tally (stale c) (u32 (torn c + 1)) (impossible c) (missing c) (worst_gap c)
  else if r_seq got =? 0 then
    mk_tally (stale c) (torn c) (impossible c) (u32 (missing c + 1)) (worst_gap c)
  else if r_seq got <? want then
    mk_tally (u32 (stale c + 1)) (torn c) (impossible c) (missing c)
      (if worst_gap c <? u32 (want - r_seq got) then u32 (want - r_seq got) else worst_gap c)
  else mk_tally (stale c) (torn c) (u32 (impossible c + 1)) (missing c) (worst_gap c).

Fixpoint classify (b : buf) (s : Z) (expected : list Z) (c : tally) : tally :=
  match expected with
  | [] => c
  | want :: r => classify b (s + 1) r (classify_slot b s want c)
  end.

Definition bad (c : tally) : Z := u32 (stale c + torn c + impossible c + missing c).

Inductive verdict := VerdictError | VerdictPass | VerdictOrdering | VerdictOther (n bad : Z).

Definition judge (wr_rc : Z) (c : tally) : verdict :=
  if negb (wr_rc =? 0) then VerdictError
  else if bad c =? 0 then VerdictPass
  else if stale c =? bad c then VerdictOrdering
  else VerdictOther (u32 (bad c - stale c)) (bad c).

(** [main] from the joins on: the writers' results, the result of [nox_close], the read-back.
    [None] is the exit without a verdict, after a failed read-back. *)
Definition joined (ws : list writer_ctl) : Z :=
  if forallb (fun w => match w with WDone rc => rc =? 0 | _ => true end) ws then 0 else -1.

Definition main_verdict (ws : list writer_ctl) (close_rc : Z) (b : option buf)
    (expected : list Z) : option verdict :=
  b ← b;
  let wr_rc := if close_rc =? 0 then joined ws else -1 in
  Some (judge wr_rc (classify b 0 expected (mk_tally 0 0 0 0 0))).

Definition main_exit (v : option verdict) : Z :=
  match v with Some VerdictPass => 0 | _ => 1 end.

(** What [main] returns once the writers are joined and [nox_close] has returned [close_rc];
    [mem] and [opened] are the outcome of [posix_memalign] and of the [open] of the read-back. *)
Definition repro_finish (ws : list writer_ctl) (close_rc : Z) (mem opened : bool) (x : S)
    (expected : list Z) : Z :=
  if negb mem then 1
  else if negb opened then 1
  else main_exit (main_verdict ws close_rc (read_back_direct x).1 expected).

End Driver.
Arguments repro : clear implicits.
Arguments mk_repro {S}.
Arguments rp_sys {S}.
Arguments rp_expected {S}.
Arguments rp_writers {S}.
Arguments prepare_env : clear implicits.
Arguments mk_prepare {S}.
Arguments pe_open {S}.

(** * Records *)

Definition is_u32 (v : Z) : Prop := 0 <= v < 2 ^ 32.

Lemma u32_is v : is_u32 (u32 v).
Proof. apply u32_range. Qed.

Lemma record_at_ext b b' off off' :
  (forall i, 0 <= i < 8 -> b (off + i) = b' (off' + i)) -> record_at b off = record_at b' off'.
Proof.
  intros Hb. unfold record_at. f_equal; apply le_value_ext; intros i Hi.
  - apply Hb. lia.
  - rewrite <- !Z.add_assoc. apply Hb. lia.
Qed.

(** Writing a record and reading it back. *)
Lemma record_roundtrip d off r :
  is_u32 (r_seq r) -> is_u32 (r_slot r) ->
  record_at (buf_put d off (record_bytes r) 8) off = r.
Proof.
  intros H1 H2. rewrite (record_at_ext _ (record_bytes r) off 0).
  - destruct r as [q s]. unfold record_at. cbn [r_seq r_slot] in *. f_equal.
    + trans (le_value 4 (le_bytes q) 0); [|by apply le_roundtrip]. apply le_value_ext. intros i Hi.
      unfold record_bytes. destruct (0 + i <? 4) eqn:E; [done|lia].
    + trans (le_value 4 (le_bytes s) 0); [|by apply le_roundtrip]. apply le_value_ext. intros i Hi.
      unfold record_bytes. destruct (0 + 4 + i <? 4) eqn:E; [lia|]. cbn [r_slot]. f_equal. lia.
  - intros i Hi. rewrite buf_put_in by lia. f_equal. lia.
Qed.

Lemma record_elsewhere d off off' src :
  off' + 8 <= off \/ off + 8 <= off' -> record_at (buf_put d off' src 8) off = record_at d off.
Proof. intros Hd. apply record_at_ext. intros i Hi. apply buf_put_out. lia. Qed.

(** * Stripes *)

Lemma SLOTS_eq : SLOTS = 128.
Proof. reflexivity. Qed.

Lemma slot_off_eq slot : 0 <= slot < SLOTS -> slot_off slot = 1048576 + 2048 * slot.
Proof.
  rewrite SLOTS_eq. intros Hs. unfold slot_off. change TEST_BASE with 1048576.
  change SLOT_STRIDE with 2048. rewrite !u64_small; rewrite ?u64_small; lia.
Qed.

Lemma to_divisor_spec fuel n m :
  (0 < n) -> to_divisor fuel n = Some m -> 0 < m <= n /\ SLOTS mod m = 0.
Proof.
  revert n. induction fuel as [|fuel IH]; intros n Hn E; [done|]. cbn in E.
  destruct (SLOTS mod n =? 0) eqn:Ed; [injection E as <-; split; [lia|lia]|].
  destruct (decide (n = 1)) as [->|Hne]; [by rewrite Z.mod_1_r in Ed|].
  destruct (IH (n - 1)) as [? ?]; [lia|done|]. split; [lia|done].
Qed.

Lemma to_divisor_total fuel n : 0 < n <= Z.of_nat fuel -> is_Some (to_divisor fuel n).
Proof.
  revert n. induction fuel as [|fuel IH]; intros n Hn; [lia|]. cbn.
  destruct (SLOTS mod n =? 0) eqn:Ed; [by eexists|]. apply IH.
  destruct (decide (n = 1)) as [->|Hne]; [by rewrite Z.mod_1_r in Ed|lia].
Qed.

(** The thread count of [main] is defined for every argument, positive, and divides the number
    of slots. *)
Lemma thread_count_spec arg :
  0 <= arg -> exists n, thread_count arg = Some n /\ 0 < n <= SLOTS /\ SLOTS mod n = 0.
Proof.
  intros Ha. unfold thread_count. change (SLOTS <? arg) with (128 <? arg).
  set (n := if (arg =? 0) || (128 <? arg) then 4 else arg).
  assert (0 < n <= 128) by (subst n; destruct ((arg =? 0) || (128 <? arg)) eqn:E; lia).
  destruct (to_divisor_total (Z.to_nat n) n) as [m E]; [lia|]. exists m. split; [done|].
  apply to_divisor_spec in E; [|lia]. rewrite SLOTS_eq in *. intuition lia.
Qed.

Section Driven.
Context (rand_r : Z -> Z * Z) (nthreads rounds : Z).
Context (Hn : 0 < nthreads) (Hdiv : SLOTS mod nthreads = 0).

Lemma pick_spec t seed slot seed' :
  0 <= t < nthreads -> pick rand_r nthreads t seed = (slot, seed') ->
  0 <= slot < SLOTS /\ slot mod nthreads = t.
Proof.
  unfold pick. destruct (rand_r seed) as [v s]. intros Ht [= <- _]. rewrite SLOTS_eq in *.
  apply Z.mod_divide in Hdiv as [q Hq]; [|lia]. rewrite Hq, Z.div_mul by lia.
  pose proof (Z.mod_pos_bound (u32 v) q ltac:(nia)) as Hk. set (k := u32 v mod q) in *.
  assert (0 <= k * nthreads <= 128 - nthreads) by nia.
  rewrite (u32_small (k * nthreads)), u32_small by lia. split; [lia|].
  rewrite Z.mod_add by lia. by apply Z.mod_small.
Qed.

(** What a writer owns: the records of the slots of its stripe. *)
Definition stripe (t : nat) (x : Z) : Prop :=
  exists slot, 0 <= slot < SLOTS /\ slot mod nthreads = Z.of_nat t /\
    slot_off slot <= x < slot_off slot + 8.

Lemma repro_stripe_page t x : stripe t x -> x / NOX_DATAZONE_SIZE = TEST_BASE / NOX_DATAZONE_SIZE.
Proof.
  intros (slot & Hs & _ & Hx). rewrite slot_off_eq in Hx by done.
  unfold TEST_BASE, SLOTS, SLOT_STRIDE in *. change (NOX_DATAZONE_SIZE * 4 / NOX_DATAZONE_SIZE) with 4.
  change (NOX_DATAZONE_SIZE / 2048) with 128 in Hs. symmetry.
  apply (Z.div_unique _ _ _ (x - 4 * NOX_DATAZONE_SIZE)); [left|]; sz.
Qed.

Lemma stripe_disjoint i j x : stripe i x -> stripe j x -> i = j.
Proof.
  intros (s1 & H1 & M1 & R1) (s2 & H2 & M2 & R2). rewrite slot_off_eq in R1, R2 by done.
  assert (s1 = s2) as -> by lia. lia.
Qed.

Lemma slot_range slot : 0 <= slot < SLOTS -> range_ok (slot_off slot) 8.
Proof.
  intros Hs. rewrite slot_off_eq by done. rewrite SLOTS_eq in Hs. unfold range_ok.
  change NOX_DATAZONE_SIZE with 262144. lia.
Qed.

Context `{NoxConfig} {S : Type} `{PosixLaws S}.

(** * The invariant of the process *)

Definition expected_ok (d : buf) (exp : list Z) : Prop :=
  length exp = Z.to_nat SLOTS /\
  forall slot e, 0 <= slot < SLOTS -> exp !! Z.to_nat slot = Some e ->
    is_u32 e /\ (e <> 0 -> record_at d (slot_off slot) = mk_record e slot).

Definition writers_ok (s : sys S) (ws : list writer_ctl) : Prop :=
  length ws = Z.to_nat nthreads /\
  (forall i c, y_fg s !! i = Some c -> (i < Z.to_nat nthreads)%nat) /\
  (forall t w, ws !! t = Some w ->
     match w with WIn _ _ => True | _ => exists rc, y_fg s !! t = Some (FgIdle rc) end).

Record repro_inv (d : buf) (s0 : sys S) (es : list event) (p : repro S) : Prop := {
  ri_driven : driven stripe s0 es (rp_sys p);
  ri_expected : expected_ok (put_calls d es) (rp_expected p);
  ri_writers : writers_ok (rp_sys p) (rp_writers p)
}.

Lemma expected_call d exp slot e :
  0 <= slot < SLOTS -> exp !! Z.to_nat slot = Some e -> expected_ok d exp ->
  expected_ok (buf_put d (slot_off slot) (record_bytes (mk_record (u32 (e + 1)) slot)) 8)
    (<[Z.to_nat slot := u32 (e + 1)]> exp).
Proof.
  intros Hs He [Hl Hex]. split; [by rewrite length_insert|]. intros s' e' Hs' E.
  destruct (decide (s' = slot)) as [->|Hne].
  - rewrite list_lookup_insert_eq in E by (by eapply lookup_lt_Some). injection E as <-.
    split; [apply u32_is|]. intros _. apply record_roundtrip; [apply u32_is|].
    rewrite SLOTS_eq in Hs. unfold is_u32. cbn. lia.
  - rewrite list_lookup_insert_ne in E by lia. destruct (Hex s' e' Hs' E) as [Hu Hr].
    split; [done|]. intros Hz. rewrite record_elsewhere; [by apply Hr|].
    rewrite !slot_off_eq by done. lia.
Qed.

Lemma repro_step_inv d s0 es p l p' :
  repro_step rand_r nthreads rounds p l p' -> repro_inv d s0 es p ->
  repro_inv d s0 (es ++ option_list l) p'.
Proof.
  intros Hs [Hd He (Hlw & Hdom & Hw)].
  destruct Hs as [sh t1 t2 fg failed exp ws t r seed slot seed' e rc baddr sh' c Ht Hr Hi Hp Hx rec E
    |s exp ws t r seed rc Ht Hi|s exp ws t r seed Ht Hr|s l s' exp ws Hst Hl]; cbn in *.
  - destruct (pick_spec (Z.of_nat t) seed slot seed') as [Hs Hm];
      [apply lookup_lt_Some in Ht; lia|exact Hp|].
    split; cbn.
    + eapply dr_call; [exact Hd|exact Hi|by apply slot_range|lia| |exact E].
      intros x Hx'. by exists slot.
    + unfold put_calls. rewrite foldl_app. cbn. by apply expected_call.
    + split_and!; [by rewrite length_insert| |].
      * intros i c'. cbn. rewrite lookup_insert. case_decide; [subst; eauto|apply Hdom].
      * intros t' w. rewrite list_lookup_insert_Some. intros [(<- & <- & _)|[Hne Ht']]; [done|].
        pose proof (Hw _ _ Ht') as Hw'. cbn. by rewrite lookup_insert_ne.
  - rewrite app_nil_r. split; cbn; try done. split_and!; [by rewrite length_insert|done|].
    intros t' w. rewrite list_lookup_insert_Some. intros [(<- & <- & _)|[Hne Ht']]; [|by apply Hw].
    destruct (rc =? 0); eauto.
  - rewrite app_nil_r. split; cbn; try done. split_and!; [by rewrite length_insert|done|].
    intros t' w. rewrite list_lookup_insert_Some. intros [(<- & <- & _)|[Hne Ht']]; [|by apply Hw].
    apply (Hw _ _ Ht).
  - split; cbn; [by econstructor| |split_and!; try done].
    + unfold put_calls in *. rewrite foldl_app. destruct l as [[src size offset|ch]|]; try done.
      by destruct (Hl src size offset).
    + intros i c Hc. destruct (dom_step _ _ _ _ _ Hst Hc) as [c0 Hc0]. eauto.
    + intros t w Ht. pose proof (Hw t w Ht) as Hi. destruct w; try done;
        destruct Hi as [rc0 Hi]; exists rc0; by eapply idle_step.
Qed.

Lemma repro_run_inv d s0 es0 p es p' :
  repro_run rand_r nthreads rounds p es p' -> repro_inv d s0 es0 p -> repro_inv d s0 (es0 ++ es) p'.
Proof.
  induction 1 as [p|p es p1 l p2 Hr IH Hs]; intros Hi; [by rewrite app_nil_r|].
  rewrite app_assoc. eapply repro_step_inv; eauto.
Qed.

(** * From the start to the verdict *)

Lemma start_inv d (s0 : sys S) :
  (forall i, y_fg s0 !! i = if decide (i < Z.to_nat nthreads)%nat then Some (FgIdle 0) else None) ->
  repro_inv d s0 [] (repro_start nthreads s0).
Proof.
  intros Hf. split; cbn.
  - constructor.
  - split; [apply length_replicate|]. intros slot e Hs He. apply lookup_replicate in He as [-> _].
    split; [unfold is_u32; lia|done].
  - split_and!.
    + by rewrite length_fmap, length_seq.
    + intros i c. rewrite Hf. by case_decide.
    + intros t w. rewrite list_lookup_fmap, fmap_Some. intros (j & [-> Hj]%lookup_seq & ->).
      exists 0. rewrite Hf, decide_True; [done|lia].
Qed.

Lemma classify_pass b exp s c :
  (forall k e, exp !! k = Some e -> e <> 0 ->
     record_at b ((s + Z.of_nat k) * SLOT_STRIDE) = mk_record e (s + Z.of_nat k)) ->
  classify b s exp c = c.
Proof.
  revert s c. induction exp as [|e exp IH]; intros s c Hr; [done|]. cbn [classify].
  assert (classify_slot b s e c = c) as ->.
  { unfold classify_slot. destruct (e =? 0) eqn:E; [done|].
    pose proof (Hr 0%nat e eq_refl ltac:(lia)) as Hz. rewrite Z.add_0_r in Hz. rewrite Hz. cbn.
    by rewrite !Z.eqb_refl. }
  apply IH. intros k e' Hk He. specialize (Hr (Datatypes.S k) e' Hk He).
  by replace (s + 1 + Z.of_nat k) with (s + Z.of_nat (Datatypes.S k)) by lia.
Qed.

(** The comparison accepts a file that holds the history. *)
Lemma compare_pass d (x x' : S) b exp :
  expected_ok d exp -> file_byte x ≈ d -> read_back_direct x = (Some b, x') ->
  forall c, classify b 0 exp c = c.
Proof.
  intros [Hlen He] Hf Hb c. unfold read_back_direct in Hb.
  destruct (sys_pread x NOX_DATAZONE_SIZE TEST_BASE) as [[[got|e] b'] x1] eqn:Ep; [|done].
  destruct (got =? NOX_DATAZONE_SIZE) eqn:Eg; [|done]. apply Z.eqb_eq in Eg as ->.
  injection Hb as -> ->. apply pread_ok in Ep as (_ & Hin & _).
  apply classify_pass. intros k e Hk Hne.
  assert (Hs : 0 <= Z.of_nat k < SLOTS) by (apply lookup_lt_Some in Hk; rewrite Hlen, SLOTS_eq in Hk;
    rewrite SLOTS_eq; lia).
  destruct (He (Z.of_nat k) e Hs) as [_ Hr]; [by rewrite Nat2Z.id|].
  rewrite Z.add_0_l, <- (Hr Hne).
  apply record_at_ext. intros i Hi. rewrite slot_off_eq by done. rewrite SLOTS_eq in Hs.
  rewrite Hin by (change NOX_DATAZONE_SIZE with 262144; change SLOT_STRIDE with 2048; lia).
  rewrite (Hf _). f_equal. change TEST_BASE with 1048576. change SLOT_STRIDE with 2048. lia.
Qed.

Lemma joined_zero ws : (forall t w, ws !! t = Some w -> w = WDone 0) -> joined ws = 0.
Proof.
  intros Hw. unfold joined. replace (forallb _ ws) with true; [done|]. symmetry.
  apply forallb_forall. intros w Hin. apply list_elem_of_In, list_elem_of_lookup in Hin as [t Ht].
  by rewrite (Hw t w Ht).
Qed.

End Driven.

(** * Executable runs *)

Inductive repro_move :=
| RCall (t : nat) (baddr : Z)
| RReturn (t : nat)
| REnd (t : nat)
| REngine (m : move).

Section Exec.
Context (rand_r : Z -> Z * Z) (nthreads rounds : Z) `{NoxConfig} {S : Type} `{Posix S}.

Definition repro_exec (p : repro S) (m : repro_move) : option (repro S * option event) :=
  let '(mk_repro s exp ws) := p in
  match m with
  | RCall t baddr =>
      w ← ws !! t; c ← y_fg s !! t;
      match w, c with
      | WLoop r seed, FgIdle _ =>
          if r <? rounds then
            let '(slot, seed') := pick rand_r nthreads (Z.of_nat t) seed in
            e ← exp !! Z.to_nat slot;
            let rec := record_bytes (mk_record (u32 (e + 1)) slot) in
            let '(mk_sys sh t1 t2 fg failed) := s in
            let '(sh', c') := nox_write sh baddr rec 8 (slot_off slot) in
            Some (mk_repro (mk_sys sh' t1 t2 (<[t := c']> fg) failed)
                    (<[Z.to_nat slot := u32 (e + 1)]> exp) (<[t := WIn r seed']> ws),
                  Some (ECall rec 8 (slot_off slot)))
          else None
      | _, _ => None
      end
  | RReturn t =>
      w ← ws !! t; c ← y_fg s !! t;
      match w, c with
      | WIn r seed, FgIdle rc =>
          Some (mk_repro s exp (<[t := if rc =? 0 then WLoop (r + 1) seed else WDone (-1)]> ws), None)
      | _, _ => None
      end
  | REnd t =>
      w ← ws !! t;
      match w with
      | WLoop r seed =>
          if rounds <=? r then Some (mk_repro s exp (<[t := WDone 0]> ws), None) else None
      | _ => None
      end
  | REngine m =>
      match m with
      | MCall _ _ _ _ _ => None
      | _ => '(s, l) ← exec true s m; Some (mk_repro s exp ws, l)
      end
  end.

Fixpoint repro_sched (p : repro S) (ms : list repro_move) : option (repro S * list event) :=
  match ms with
  | [] => Some (p, [])
  | m :: ms =>
      '(p, l) ← repro_exec p m; '(p, es) ← repro_sched p ms; Some (p, option_list l ++ es)
  end.

Lemma repro_exec_step p m p' l :
  repro_exec p m = Some (p', l) -> repro_step rand_r nthreads rounds p l p'.
Proof.
  destruct p as [s exp ws]. unfold repro_exec. intros E. destruct m as [t baddr|t|t|m].
  - destruct (ws !! t) as [[r seed| |]|] eqn:Ew; try done; cbn [mbind option_bind] in E;
      destruct (y_fg s !! t) as [[rc0| | | | | |]|] eqn:Ef; try done; cbn [mbind option_bind] in E.
    destruct (r <? rounds) eqn:Er; [|done]. destruct (pick _ _ _ _) as [slot seed'] eqn:Ep.
    destruct (exp !! Z.to_nat slot) as [e|] eqn:Ee; [|done]. cbn [mbind option_bind] in E.
    destruct s as [sh t1 t2 fg failed]. destruct (nox_write _ _ _ _ _) as [sh' c'] eqn:En.
    apply (inj Some) in E. apply pair_eq in E as [<- <-]. eapply rs_call; eauto. lia.
  - destruct (ws !! t) as [[| r seed|]|] eqn:Ew; try done; cbn [mbind option_bind] in E;
      destruct (y_fg s !! t) as [[rc0| | | | | |]|] eqn:Ef; try done; cbn [mbind option_bind] in E.
    apply (inj Some) in E. apply pair_eq in E as [<- <-]. by eapply rs_return.
  - destruct (ws !! t) as [[r seed| |]|] eqn:Ew; try done. cbn [mbind option_bind] in E.
    destruct (rounds <=? r) eqn:Er; [|done]. apply (inj Some) in E. apply pair_eq in E as [<- <-].
    eapply rs_end; [done|lia].
  - destruct (match m with MCall _ _ _ _ _ => true | _ => false end) eqn:Em; [by destruct m|].
    destruct (exec true s m) as [[s' l']|] eqn:Ex; [|by destruct m].
    assert (Some (mk_repro s' exp ws, l') = Some (p', l)) as E' by (by destruct m).
    apply (inj Some) in E'. apply pair_eq in E' as [<- <-]. apply rs_engine; [by eapply exec_step|].
    eapply exec_no_call; [|exact Ex]. by destruct m.
Qed.

Lemma repro_run_cons p l p1 es p2 :
  repro_step rand_r nthreads rounds p l p1 -> repro_run rand_r nthreads rounds p1 es p2 ->
  repro_run rand_r nthreads rounds p (option_list l ++ es) p2.
Proof.
  intros Hs Hr. induction Hr as [p1|p1 es p2 l' p3 Hr IH Hs'].
  - rewrite app_nil_r. apply (rr_step _ _ _ p [] p); [constructor|done].
  - rewrite app_assoc. econstructor; [by apply IH|done].
Qed.

Lemma repro_sched_run p ms p' es :
  repro_sched p ms = Some (p', es) -> repro_run rand_r nthreads rounds p es p'.
Proof.
  revert p es. induction ms as [|m ms IH]; intros p es E; cbn [repro_sched] in E.
  - apply (inj Some) in E. apply pair_eq in E as [<- <-]. constructor.
  - bind_step E. bind_step E. apply (inj Some) in E. apply pair_eq in E as [<- <-].
    eapply repro_run_cons; [by eapply repro_exec_step|by apply IH].
Qed.

End Exec.

Section Passes.
Context (rand_r : Z -> Z * Z) `{NoxConfig} {S : Type} `{PosixLaws S}.

Lemma args_nonneg argc targ rarg arg rounds : repro_args argc targ rarg = (arg, rounds) -> 0 <= arg.
Proof. unfold repro_args. intros [= <- _]. destruct (2 <? argc); [apply u32_range|done]. Qed.

Lemma prepare_starts nthreads argc (pe : prepare_env S) (s : sys S) p :
  pe_open pe = Some s -> repro_prepare nthreads argc pe = inr p -> p = repro_start nthreads s.
Proof.
  unfold repro_prepare. intros Ho. rewrite Ho. repeat (case_match; try done). by intros [= <-].
Qed.

(** C8: The prediction of the write-ordering driver for the default pool. Whatever thread count
    and number of rounds it is started with, once its preparation has succeeded, however its
    writers, the engine's callers and the two flusher threads interleave, whichever addresses the
    allocator reuses, and whatever [rand_r] returns: when all writers have returned 0 and no
    background error is latched, or about to be, before the close, [nox_close], scheduled fairly
    and with [close(2)] succeeding, returns 0, and the driver reads back in every slot the last
    record written to it, prints PASS and exits with 0, unless a transfer fails during the close
    or the read-back itself (its memory, its open, its reads) fails. That no order is lost is not
    assumed: all slots are in one page and no write is direct. *)
Theorem order_repro_passes (argc targ rarg arg rounds nthreads : Z) (pe : prepare_env S)
    (e : open_env) (high low : Z) (w : watermark) (st : nox_stats) (x : S) (junk : buf) (s0 : sys S)
    (es : list event) (p0 p : repro S) (turns : list (list close_move)) :
  repro_args argc targ rarg = (arg, rounds) -> thread_count arg = Some nthreads ->
  engine_open e high low w st x junk (set_seq 0 (Z.to_nat nthreads)) = Some s0 ->
  g_live w = 0 -> stats_wf st -> pe_open pe = Some s0 -> repro_prepare nthreads argc pe = inr p0 ->
  repro_run rand_r nthreads rounds p0 es p ->
  (forall t c, rp_writers p !! t = Some c -> c = WDone 0) -> healthy (rp_sys p) ->
  Forall close_round turns ->
  24 * pending (sh_ot (y_sh (rp_sys p))) + 1040 <= Z.of_nat (length turns) ->
  failing_prefix true (rp_sys p) ClDisarm (concat turns) \/
  exists s', close_run true (rp_sys p) ClDisarm (concat turns) = Some (s', ClDone 0) /\
    forall b x', read_back_direct (sh_os (y_sh s')) = (Some b, x') ->
      main_verdict (rp_writers p) 0 (Some b) (rp_expected p) = Some VerdictPass /\
      repro_finish (rp_writers p) 0 true true (sh_os (y_sh s')) (rp_expected p) = 0.
Proof.
  intros Ha Hn He Hw Hst Hpo Hp Hr Hdone Hh Ht Hlen. apply (prepare_starts _ _ _ _ _ Hpo) in Hp as ->.
  apply args_nonneg in Ha.
  destruct (thread_count_spec arg Ha) as (n & En & Hpos & Hdiv). rewrite Hn in En. injection En as <-.
  assert (Hi : repro_inv nthreads (file_byte x) s0 ([] ++ es) p).
  { eapply repro_run_inv; [lia|done|exact Hr|]. apply start_inv. intros i.
    rewrite (open_callers _ _ _ _ _ _ _ _ _ _ He). apply decide_ext. rewrite elem_of_set_seq. lia. }
  destruct Hi as [Hd Hex (Hlw & Hdom & Hwr)]. cbn [app] in *.
  assert (Hap : calls_apart es).
  { eapply (driven_apart (stripe nthreads) (fun _ => TEST_BASE / NOX_DATAZONE_SIZE)); [|by intros|exact Hd].
    intros i y Hy. by eapply repro_stripe_page. }
  apply driven_run in Hd as [Hrun _].
  2: { apply stripe_disjoint. }
  2: { apply idle_owned. intros i c Hc. rewrite (open_callers _ _ _ _ _ _ _ _ _ _ He) in Hc.
       case_decide; [|done]. injection Hc as <-. by eexists. }
  assert (Hidle : idle (rp_sys p)).
  { intros i c Hc. specialize (Hdom i c Hc). rewrite <- Hlw in Hdom.
    apply lookup_lt_is_Some in Hdom as [c' Hc']. pose proof (Hwr _ _ Hc') as Hi.
    rewrite (Hdone _ _ Hc') in Hi. destruct Hi as [rc Hi]. rewrite Hi in Hc. injection Hc as <-. by eexists. }
  destruct (engine_loses x es (rp_sys p)) as [lost Hl]; [do 8 eexists; by split_and!|].
  destruct (close_contract x es lost (rp_sys p) true turns Hl Hh Hidle Ht Hlen) as (_ & Hlost & Hcl).
  rewrite (Hlost Hap) in Hcl. destruct Hcl as [Hbad|(s' & E & Hf' & _)].
  - by left.
  - assert (Hf : file_byte (sh_os (y_sh s')) ≈ put_calls (file_byte x) es)
      by (intros y; apply Hf', lost_none).
    right. exists s'. split; [done|]. intros b x' Hb. unfold repro_finish. rewrite Hb. unfold main_verdict. cbn [fst negb mbind option_bind Z.eqb].
    rewrite joined_zero by done. rewrite (compare_pass _ _ _ _ _ Hex Hf Hb). done.
Qed.

End Passes.

Section Witness.
Import Sample.

(** A linear congruential generator for [rand_r]. *)
Definition lcg (seed : Z) : Z * Z :=
  let seed := u32 (seed * 1103515245 + 12345) in (Z.shiftr seed 16 mod 32768, seed).

Definition repro_file : mem_file := mk_file (bytes x00) (TEST_BASE + NOX_DATAZONE_SIZE) [].

Definition repro_opened : option (sys mem_file) :=
  engine_open all_ok NOX_WATERMARK_HIGH (NOX_WATERMARK_LOW NOX_WATERMARK_HIGH) wm_initial
    stats_zero repro_file (bytes x00) (set_seq 0 2).

(** Two writers, two rounds each, interleaved, with Stage-1 under way. *)
Definition repro_moves : list repro_move :=
  let go t a := replicate 4 (REngine (MFg t 0 (from a))) in
  [RCall 0 5; RCall 1 6] ++ go 1%nat 1%positive ++ replicate 3 (REngine MStage1) ++ go 0%nat 2%positive ++
  [RReturn 0; RReturn 1; RCall 1 6; RCall 0 7] ++ go 0%nat 3%positive ++ go 1%nat 4%positive ++
  [RReturn 1; REnd 1; RReturn 0; REnd 0].

Definition repro_sample : option (repro mem_file * list event) :=
  s ← repro_opened; repro_sched lcg 2 2 (repro_start 2 s) repro_moves.

Definition all_done (ws : list writer_ctl) : bool :=
  forallb (fun w => match w with WDone 0 => true | _ => false end) ws.

Lemma all_done_ok ws : all_done ws = true -> forall t c, ws !! t = Some c -> c = WDone 0.
Proof.
  unfold all_done. rewrite forallb_forall. intros Hf t c Ht.
  apply list_elem_of_lookup_2, list_elem_of_In, Hf in Ht. by destruct c as [| |[| |]].
Qed.

Lemma order_repro_passes_witness :
  exists p es, repro_sample = Some (p, es) /\ length es = 8%nat /\
    (failing_prefix true (rp_sys p) ClDisarm (concat (replicate 1088 one_round)) \/
     exists s', close_run true (rp_sys p) ClDisarm (concat (replicate 1088 one_round)) = Some (s', ClDone 0) /\
       forall b x', read_back_direct (sh_os (y_sh s')) = (Some b, x') ->
         main_verdict (rp_writers p) 0 (Some b) (rp_expected p) = Some VerdictPass /\
         repro_finish (rp_writers p) 0 true true (sh_os (y_sh s')) (rp_expected p) = 0).
Proof.
  assert (Ht : match repro_sample with
    | Some (p, es) => all_done (rp_writers p) && healthyb (rp_sys p) && (length es =? 8)%nat &&
                      (pending (sh_ot (y_sh (rp_sys p))) <=? 2)
    | None => false end = true) by (vm_compute; reflexivity).
  unfold repro_sample in Ht |- *. destruct repro_opened as [s0|] eqn:Eo; [|discriminate Ht].
  cbn [mbind option_bind] in Ht |- *.
  destruct (repro_sched _ _ _ _ _) as [[p es]|] eqn:Er; [|discriminate Ht].
  rewrite !andb_true_iff in Ht. destruct Ht as [[[Hd Hh] Hl] Hp].
  exists p, es. split; [reflexivity|]. split; [by apply Nat.eqb_eq|].
  apply (order_repro_passes lcg 4 2 2 2 2 2 (mk_prepare true true (Some s0) true (fun _ => true)) all_ok
    NOX_WATERMARK_HIGH (NOX_WATERMARK_LOW NOX_WATERMARK_HIGH) wm_initial stats_zero repro_file
    (bytes x00) s0 es (repro_start 2 s0) p).
  - reflexivity.
  - reflexivity.
  - exact Eo.
  - reflexivity.
  - repeat split.
  - reflexivity.
  - reflexivity.
  - by apply repro_sched_run in Er.
  - by apply all_done_ok.
  - by apply healthyb_ok.
  - apply one_round_turns.
  - rewrite length_replicate. lia.
Defined.

End Witness.
