(* ===== verification/Soak.v ===== *)
(** The soak driver [src/bench/otflush_soak.c]: many threads write random ranges of a few shared
    pages, each thread inside a stripe of bytes of its own, while the resident set size is
    sampled; afterwards the file is compared with the threads' shadows and three criteria are
    judged. Modelled are the assignment of stripes, the workers on top of the engine, the
    latency reservoir, the comparison, and the verdict. The clock and the value of [VmRSS] are
    inputs of the transitions that read them. *)
From stdpp Require Import base numbers list gmap sets sorting.
From Corelib Require Import Init.Byte.
From S2P Require Import Prelude Config Segments IoDirect Watermark ScrapPage Heap Queue.
From S2P Require Import PageIndex Stats Otflush Engine Pipeline System Schedule Simulation.
From S2P Require Import SimFlush SimWrite Faults Apart Guarantees CloseErrors Progress Close Workload.

(** * Configuration *)

Definition REG : Z := NOX_DATAZONE_SIZE.

(** The settings a build may override. *)
Class SoakConfig := {
  SHARED_BASES : Z;
  SOAK_MAXLEN : Z;
  shared_bases_pos : 0 < SHARED_BASES < 2 ^ 32;
  soak_maxlen_pos : 0 < SOAK_MAXLEN < 2 ^ 31
}.

Definition soak_default : SoakConfig.
Proof. refine {| SHARED_BASES := 4; SOAK_MAXLEN := 512 |}; lia. Defined.

Definition STALL_NS : Z := 200000.
Definition DEFAULT_SECONDS : Z := 1200.
Definition DEFAULT_THREADS : Z := 16.
Definition LAT_RESERVOIR_CAP : Z := 200000.
Definition RSS_CEILING_SLACK_KB : Z := 64 * 1024.
Definition RSS_PLATEAU_SLACK_KB : Z := 64 * 1024.
Definition RSS_PLATEAU_MIN_SAMPLES : Z := 8.

(** The arguments of [main]: an argument wins over the environment, which wins over the
    default; [None] is an exit with 2. The numbers are what [strtoull] makes of the strings. *)
Definition setting (arg env : option Z) (def : Z) : Z :=
  match arg with Some v => v | None => default def env end.

Definition soak_args (arg_s env_s arg_n env_n : option Z) : option (Z * Z) :=
  let seconds := setting arg_s env_s DEFAULT_SECONDS in
  if seconds =? 0 then None
  else
    let nthreads := setting arg_n env_n DEFAULT_THREADS in
    if (nthreads <? 1) || (4096 <? nthreads) then None else Some (seconds, nthreads).

(** * Workers *)

(** xorshift *)
Definition rnd (x : Z) : Z :=
  let x := Z.lxor x (u32 (Z.shiftl x 13)) in
  let x := Z.lxor x (Z.shiftr x 17) in
  Z.lxor x (u32 (Z.shiftl x 5)).

Record worker_t := mk_worker {
  w_tid : Z;
  w_base : Z;
  w_stripe_start : Z;
  w_stripe_width : Z;
  w_shadow : buf;
  w_lat : Z -> Z;
  w_nlat_seen : Z;
  w_lat_max_ns : Z;
  w_over_thresh : Z;
  w_err : Z
}.

(** A worker at the head of its loop with the state of its generator, inside [nox_write] with
    the range and bytes of the call and the time it began, or returned. *)
Inductive worker_ctl :=
| KLoop (s : Z)
| KIn (s off len : Z) (src : buf) (t0 : Z)
| KDone.

Section Workers.
Context `{SoakConfig}.

Definition worker_seed (tid : Z) : Z := Z.lor (u32 (tid * 2654435761)) 1.

(** The range of the next write, inside the stripe. *)
Definition draw (w : worker_t) (s : Z) : Z * Z * Z :=
  let local_max := if w_stripe_width w <? SOAK_MAXLEN then w_stripe_width w else SOAK_MAXLEN in
  let s := rnd s in
  let len := u32 (1 + s mod local_max) in
  let s := rnd s in
  let off := s mod u32 (u32 (w_stripe_width w - len) + 1) in
  (len, off, s).

Definition payload (w : worker_t) : buf :=
  fun k => byte_of (u32 (u32 (w_tid w * 31) + u32 (u32 (w_nlat_seen w) * 7) + k)).

Definition write_offset (w : worker_t) (off : Z) : Z :=
  u64 (u64 (w_base w + w_stripe_start w) + off).

(** The statistics of one write. C leaves open which of the two calls of [rnd] in the draw of
    [j] comes first: [lo_first]. *)
Definition draw_index (lo_first : bool) (s i : Z) : Z * Z :=
  let a := rnd s in
  let b := rnd a in
  let '(lo, hi) := if lo_first then (a, b) else (b, a) in
  (Z.lor lo (u64 (Z.shiftl hi 32)) mod u64 (i + 1), b).

Definition lat_put (lat : Z -> Z) (i v : Z) : Z -> Z := fun k => if k =? i then v else lat k.

Definition record_latency (lo_first : bool) (dt : Z) (w : worker_t) (s : Z) : worker_t * Z :=
  let max := if w_lat_max_ns w <? dt then dt else w_lat_max_ns w in
  let over := if STALL_NS <? dt then u64 (w_over_thresh w + 1) else w_over_thresh w in
  let i := w_nlat_seen w in
  let '(lat, s) :=
    if i <? LAT_RESERVOIR_CAP then (lat_put (w_lat w) i dt, s)
    else
      let '(j, s) := draw_index lo_first s i in
      (if j <? LAT_RESERVOIR_CAP then lat_put (w_lat w) j dt else w_lat w, s) in
  (mk_worker (w_tid w) (w_base w) (w_stripe_start w) (w_stripe_width w) (w_shadow w) lat
     (u64 (i + 1)) max over (w_err w), s).

Definition with_shadow (b : buf) (w : worker_t) : worker_t :=
  mk_worker (w_tid w) (w_base w) (w_stripe_start w) (w_stripe_width w) b (w_lat w)
    (w_nlat_seen w) (w_lat_max_ns w) (w_over_thresh w) (w_err w).
Definition with_err (w : worker_t) : worker_t :=
  mk_worker (w_tid w) (w_base w) (w_stripe_start w) (w_stripe_width w) (w_shadow w) (w_lat w)
    (w_nlat_seen w) (w_lat_max_ns w) (w_over_thresh w) (-1).

(** The loop body after [nox_write] has returned [rc] at time [t1]. *)
Definition after_write (lo_first : bool) (rc t1 : Z) (s off len : Z) (src : buf) (t0 : Z)
    (w : worker_t) : worker_t * worker_ctl :=
  if negb (rc =? 0) then (with_err w, KDone)
  else
    let '(w, s) := record_latency lo_first (u64 (t1 - t0)) (with_shadow (buf_put (w_shadow w) off src len) w) s in
    (w, KLoop s).

(** ** Stripe assignment *)

(** [counts]: how many threads each base has. *)
Definition count_thread (c : list Z) (t : nat) : list Z :=
  alter (fun n => u32 (n + 1)) (Z.to_nat (Z.of_nat t mod SHARED_BASES)) c.
Definition counts (nthreads : nat) : list Z :=
  foldl count_thread (replicate (Z.to_nat SHARED_BASES) 0) (seq 0 nthreads).

Definition used_bases (nthreads : nat) : Z :=
  if Z.of_nat nthreads <? SHARED_BASES then u32 (Z.of_nat nthreads) else SHARED_BASES.

Definition max_per_base (nthreads : nat) : Z :=
  foldl (fun m n => if m <? n then n else m) 0 (take (Z.to_nat (used_bases nthreads)) (counts nthreads)).

(** One iteration of the loop that fills in [w]; [None] is the exit with 2 on an empty
    stripe. [junk]: the contents of the reservoir [malloc] returns. *)
Definition new_worker (junk : Z -> Z) (c : list Z) (t : nat) : option worker_t :=
  let base_slot := u32 (Z.of_nat t mod SHARED_BASES) in
  let rank := u32 (Z.of_nat t / SHARED_BASES) in
  n ← c !! Z.to_nat base_slot;
  let stripe_w := REG / n in
  if stripe_w =? 0 then None
  else Some (mk_worker (Z.of_nat t) (u64 (base_slot * REG)) (u32 (rank * stripe_w)) stripe_w
               (fun _ => x00) junk 0 0 0 0).

Definition assign (junk : Z -> Z) (nthreads : nat) : option (list worker_t) :=
  mapM (new_worker junk (counts nthreads)) (seq 0 nthreads).

End Workers.

(** * The process *)

Record soak (S : Type) := mk_soak {
  k_sys : sys S;
  k_workers : list (worker_t * worker_ctl);
  k_stop : bool
}.
Arguments mk_soak {S}.
Arguments k_sys {S}.
Arguments k_workers {S}.
Arguments k_stop {S}.

Section Process.
Context `{SoakConfig} (lo_first : bool) `{NoxConfig} {S : Type} `{Posix S}.

Inductive soak_step : soak S -> option event -> soak S -> Prop :=
| ks_call sh t1 t2 fg failed ws t w s len off s' rc baddr now sh' c :
    ws !! t = Some (w, KLoop s) -> fg !! t = Some (FgIdle rc) -> draw w s = (len, off, s') ->
    nox_write sh baddr (payload w) len (write_offset w off) = (sh', c) ->
    soak_step (mk_soak (mk_sys sh t1 t2 fg failed) ws false)
      (Some (ECall (payload w) len (write_offset w off)))
      (mk_soak (mk_sys sh' t1 t2 (<[t := c]> fg) failed) (<[t := (w, KIn s' off len (payload w) now)]> ws) false)
| ks_return sy ws stop t w s off len src t0 rc now :
    ws !! t = Some (w, KIn s off len src t0) -> y_fg sy !! t = Some (FgIdle rc) ->
    soak_step (mk_soak sy ws stop) None
      (mk_soak sy (<[t := after_write lo_first rc now s off len src t0 w]> ws) stop)
| ks_exit sy ws t w s :
    ws !! t = Some (w, KLoop s) ->
    soak_step (mk_soak sy ws true) None (mk_soak sy (<[t := (w, KDone)]> ws) true)
| ks_deadline sy ws stop :
    soak_step (mk_soak sy ws stop) None (mk_soak sy ws true)
| ks_engine sy l sy' ws stop :
    sys_step sy l sy' -> (forall src size offset, l <> Some (ECall src size offset)) ->
    soak_step (mk_soak sy ws stop) l (mk_soak sy' ws stop).

Inductive soak_run : soak S -> list event -> soak S -> Prop :=
| kr_refl p : soak_run p [] p
| kr_step p es p1 l p2 : soak_run p es p1 -> soak_step p1 l p2 -> soak_run p (es ++ option_list l) p2.

Definition soak_start (sy : sys S) (ws : list worker_t) : soak S :=
  mk_soak sy ((fun w => (w, KLoop (worker_seed (w_tid w)))) <$> ws) false.

(** * The start of [main] *)

(** The outcome of the calls of [main] before the workers run: the two arrays, the shadow and
    the reservoir of each worker, [nox_open], the samples and the thread of the monitor, and the
    creation of each worker. *)
Record soak_env := mk_soak_env {
  ke_calloc : bool;
  ke_worker : nat -> bool;
  ke_open : option (sys S);
  ke_samples : bool;
  ke_monitor : bool;
  ke_thread : nat -> bool
}.

(** The loop that fills in [w], for the threads [ts]; an exit status, or the workers. *)
Fixpoint fill_workers (ok : nat -> bool) (junk : Z -> Z) (c : list Z) (ts : list nat) : Z + list worker_t :=
  match ts with
  | [] => inr []
  | t :: ts =>
      match new_worker junk c t with
      | None => inl 2
      | Some w =>
          if negb (ok t) then inl 1
          else match fill_workers ok junk c ts with inl rc => inl rc | inr ws => inr (w :: ws) end
      end
  end.

Definition soak_prepare (argc : Z) (arg_s env_s arg_n env_n : option Z) (junk : Z -> Z) (e : soak_env)
  : Z + soak S :=
  if (argc <? 2) || (4 <? argc) then inl 2
  else
    match soak_args arg_s env_s arg_n env_n with
    | None => inl 2
    | Some (_, nthreads) =>
        let n := Z.to_nat nthreads in
        if negb (ke_calloc e) then inl 1
        else
          match fill_workers (ke_worker e) junk (counts n) (seq 0 n) with
          | inl rc => inl rc
          | inr ws =>
              match ke_open e with
              | None => inl 1
              | Some sy =>
                  if negb (ke_samples e) then inl 1
                  else if negb (ke_monitor e) then inl 1
                  else if forallb (ke_thread e) (seq 0 n) then inr (soak_start sy ws)
                  else inl 1
              end
          end
    end.

(** * Criterion 1 *)

(** The page a base should hold. *)
Fixpoint assemble (b t : Z) (ws : list worker_t) (whole : buf) : buf :=
  match ws with
  | [] => whole
  | w :: ws =>
      assemble b (t + 1) ws
        (if t mod SHARED_BASES =? b
         then buf_put whole (w_stripe_start w) (w_shadow w) (w_stripe_width w) else whole)
  end.

Fixpoint first_diff (fuel : nat) (j : Z) (a b : buf) : Z :=
  match fuel with
  | O => j
  | Datatypes.S fuel => if bool_decide (a j = b j) then first_diff fuel (j + 1) a b else j
  end.

Inductive verify_result :=
| VOk
| VOpen
| VMemory
| VCrash
| VRead (b : Z) (e : errno)
| VShort (b rd : Z)
| VMismatch (b j : Z).

Fixpoint verify_bases (ws : list worker_t) (n : nat) (b : Z) (x : S) : verify_result * S :=
  match n with
  | O => (VOk, x)
  | Datatypes.S n =>
      let whole := assemble b 0 ws (fun _ => x00) in
      match sys_pread x REG (u64 (b * REG)) with
      | (SysErr e, _, x) => (VRead b e, x)
      | (SysOk rd, disk, x) =>
          if negb (rd =? REG) then (VShort b rd, x)
          else if memcmp_eq disk whole (Z.to_nat REG) then verify_bases ws n (b + 1) x
          else (VMismatch b (first_diff (Z.to_nat REG) 0 disk whole), x)
      end
  end.

(** [mem_ok] and [whole_ok]: the outcome of [posix_memalign] and of [calloc]; the second is not
    checked, and [VCrash] is the access through the null pointer. *)
Definition verify (open_ok mem_ok whole_ok : bool) (ws : list worker_t) (x : S) : verify_result * S :=
  if negb open_ok then (VOpen, x)
  else if negb mem_ok then (VMemory, x)
  else if negb whole_ok && (0 <? used_bases (length ws)) then (VCrash, x)
  else verify_bases ws (Z.to_nat (used_bases (length ws))) 0 x.

End Process.
Arguments soak_env : clear implicits.
Arguments mk_soak_env {S}.
Arguments ke_calloc {S}.
Arguments ke_worker {S}.
Arguments ke_open {S}.
Arguments ke_samples {S}.
Arguments ke_monitor {S}.
Arguments ke_thread {S}.

Definition is_bad (v : verify_result) : bool := match v with VOk => false | _ => true end.

(** * Criterion 2 *)

(** [read_rss_kb]: the first line of [/proc/self/status] that [sscanf] ([scan]) takes, if the
    file could be opened. *)
Fixpoint first_rss {A : Type} (scan : A -> option Z) (lines : list A) : Z :=
  match lines with
  | [] => -1
  | l :: r => match scan l with Some kb => kb | None => first_rss scan r end
  end.
Definition read_rss_kb {A : Type} (scan : A -> option Z) (status : option (list A)) : Z :=
  match status with None => -1 | Some lines => first_rss scan lines end.

Record rss_sample_t := mk_sample { s_t : Z; s_kb : Z }.

Record rss_monitor_t := mk_monitor { m_samples : list rss_sample_t; m_cap : Z }.

(** One reading, appended while there is room. *)
Definition rss_take_sample (m : rss_monitor_t) (t0 now kb : Z) : rss_monitor_t :=
  if Z.of_nat (length (m_samples m)) <? m_cap m
  then mk_monitor (m_samples m ++ [mk_sample (u64 (now - t0) / 1000000000) kb]) (m_cap m)
  else m.

Definition new_monitor (seconds interval : Z) : rss_monitor_t := mk_monitor [] (u64 (seconds / interval + 8)).

(** The monitor thread: the readings of its loop, then the one at the deadline. *)
Definition rss_monitor_loop (m : rss_monitor_t) (t0 : Z) (periodic : list (Z * Z)) (final : Z * Z) : rss_monitor_t :=
  let m := foldl (fun m '(now, kb) => rss_take_sample m t0 now kb) m periodic in
  rss_take_sample m t0 (final.1) (final.2).

Definition peak_kb (l : list rss_sample_t) : Z :=
  foldl (fun peak s => if peak <? s_kb s then s_kb s else peak) (-1) l.

Definition first_kb (l : list rss_sample_t) : Z := match l with [] => -1 | s :: _ => s_kb s end.

Definition rss_available (l : list rss_sample_t) : bool := (0 <=? first_kb l) && (0 <=? peak_kb l).
Definition growth_kb (l : list rss_sample_t) : Z :=
  if rss_available l then peak_kb l - first_kb l else -1.
Definition rss_conclusive (l : list rss_sample_t) : bool := 2 <=? Z.of_nat (length l).

Definition engine_ceiling_kb (nthreads : Z) : Z :=
  u64 (u64 (NOX_WATERMARK_HIGH + nthreads) * (NOX_DATAZONE_SIZE / 1024)).
Definition driver_ceiling_kb (ws : list worker_t) : Z :=
  foldl (fun acc w => u64 (acc + u64 (w_stripe_width w + u64 (LAT_RESERVOIR_CAP * 8)) / 1024)) 0 ws.
Definition ceiling_kb (ws : list worker_t) : Z :=
  u64 (u64 (engine_ceiling_kb (Z.of_nat (length ws)) + driver_ceiling_kb ws) + RSS_CEILING_SLACK_KB).

Definition rss_ceiling_ok (ws : list worker_t) (l : list rss_sample_t) : bool :=
  rss_available l && rss_conclusive l && (u64 (growth_kb l) <=? ceiling_kb ws).

(** The plateau test and whether it ran. *)
Definition plateau_split (n : Z) : Z * Z := let warm := n / 4 in (warm, warm + (n - warm) / 2).
Definition rss_plateau (l : list rss_sample_t) : bool * bool :=
  let n := Z.of_nat (length l) in
  if rss_available l && (RSS_PLATEAU_MIN_SAMPLES <=? n) then
    let '(warm, split) := plateau_split n in
    let early := peak_kb (take (Z.to_nat (split - warm)) (drop (Z.to_nat warm) l)) in
    let late := peak_kb (drop (Z.to_nat split) l) in
    (true, late - early <=? RSS_PLATEAU_SLACK_KB)
  else (false, true).

Definition rss_bounded (ws : list worker_t) (l : list rss_sample_t) : bool :=
  let '(ran, ok) := rss_plateau l in rss_ceiling_ok ws l && (negb ran || ok).

Inductive rss_verdict := RssSkip | RssInconclusive | RssPass | RssFailCeiling | RssFailPlateau.
Definition judge_rss (ws : list worker_t) (l : list rss_sample_t) : rss_verdict :=
  if negb (rss_available l) then RssSkip
  else if negb (rss_conclusive l) then RssInconclusive
  else if rss_bounded ws l then RssPass
  else if negb (rss_ceiling_ok ws l) then RssFailCeiling else RssFailPlateau.

(** * Criterion 3 *)

Definition reservoir_size (w : worker_t) : Z :=
  if w_nlat_seen w <? LAT_RESERVOIR_CAP then w_nlat_seen w else LAT_RESERVOIR_CAP.
Definition reservoir (w : worker_t) : list Z := w_lat w <$> seqZ 0 (reservoir_size w).

(** [all] after [qsort]. *)
Definition all_latencies (ws : list worker_t) : list Z := merge_sort Z.le (concat (reservoir <$> ws)).

(** [rank]: the floating-point product truncated to an index. *)
Definition percentile (rank : Z -> Z) (ws : list worker_t) : option Z :=
  let all := all_latencies ws in
  match all with [] => Some 0 | _ => all !! Z.to_nat (rank (Z.of_nat (length all))) end.

Definition total_over (ws : list worker_t) : Z := foldl (fun acc w => u64 (acc + w_over_thresh w)) 0 ws.
Definition global_max (ws : list worker_t) : Z :=
  foldl (fun m w => if m <? w_lat_max_ns w then w_lat_max_ns w else m) 0 ws.

(** * The verdict *)

Inductive soak_verdict := SoakFail | SoakInconclusive | SoakPass.

(** [main] from the joins on; [p999] is the percentile. *)
Definition overall (ws : list worker_t) (close_err : Z) (v : verify_result) (l : list rss_sample_t)
    (p999 : Z) : soak_verdict :=
  let werr := existsb (fun w => negb (w_err w =? 0)) ws in
  let stalled := STALL_NS <? p999 in
  let rss_grew := rss_available l && rss_conclusive l && negb (rss_bounded ws l) in
  let inconclusive := rss_available l && negb (rss_conclusive l) in
  let real_fail := is_bad v || stalled || rss_grew || werr || negb (close_err =? 0) in
  if real_fail then SoakFail else if inconclusive then SoakInconclusive else SoakPass.

Definition soak_exit (v : soak_verdict) : Z := match v with SoakPass => 0 | _ => 1 end.

(** What [main] returns once [nox_close] has returned; [mem] is whether the array of all latencies
    could be allocated, [rank] the position of the percentile. [None] is an access past the
    array. *)
Definition soak_finish (mem : bool) (rank : Z -> Z) (ws : list worker_t) (close_err : Z) (v : verify_result)
    (l : list rss_sample_t) : option Z :=
  if negb mem then Some 1
  else p999 ← percentile rank ws; Some (soak_exit (overall ws close_err v l p999)).

(** * Stripes are disjoint *)

Section Stripes.
Context `{SoakConfig}.

Lemma bases_pos : 0 < SHARED_BASES.
Proof. pose proof shared_bases_pos. lia. Qed.

Lemma bases_nz : SHARED_BASES <> 0.
Proof. pose proof bases_pos. lia. Qed.

Definition base_count (n : nat) (b : Z) : Z := (Z.of_nat n + SHARED_BASES - 1 - b) / SHARED_BASES.

Lemma base_count_S n b :
  0 <= b < SHARED_BASES ->
  base_count (S n) b = base_count n b + (if Z.of_nat n mod SHARED_BASES =? b then 1 else 0).
Proof.
  intros Hb. unfold base_count. set (B := SHARED_BASES) in *.
  pose proof (Z.div_mod (Z.of_nat n) B ltac:(lia)) as Hn.
  pose proof (Z.mod_pos_bound (Z.of_nat n) B ltac:(lia)) as Hr.
  set (q := Z.of_nat n / B) in *. set (r := Z.of_nat n mod B) in *.
  replace (Z.of_nat (S n) + B - 1 - b) with (r + B - b + q * B) by lia.
  replace (Z.of_nat n + B - 1 - b) with (r + B - 1 - b + q * B) by lia.
  rewrite !Z.div_add by lia.
  assert (Hd : forall x, 0 <= x < 2 * B -> x / B = if B <=? x then 1 else 0).
  { intros x Hx. destruct (B <=? x) eqn:E; [|apply Z.div_small; lia].
    symmetry. apply (Z.div_unique _ _ _ (x - B)); lia. }
  rewrite !Hd by lia.
  destruct (B <=? r + B - b) eqn:E1, (B <=? r + B - 1 - b) eqn:E2, (r =? b) eqn:E3; lia.
Qed.

Lemma base_count_le n b : 0 <= b < SHARED_BASES -> 0 <= base_count n b <= Z.of_nat n.
Proof.
  intros Hb. induction n as [|n IH].
  - unfold base_count. rewrite Z.div_small; lia.
  - rewrite base_count_S by done. destruct (_ =? _); lia.
Qed.

Lemma counts_lookup n b :
  0 <= b < SHARED_BASES -> Z.of_nat n < 2 ^ 32 -> counts n !! Z.to_nat b = Some (base_count n b).
Proof.
  intros Hb. induction n as [|n IH]; intros Hn.
  - unfold counts, base_count. cbn [seq foldl]. rewrite lookup_replicate_2 by lia.
    f_equal. symmetry. apply Z.div_small. lia.
  - unfold counts. rewrite seq_S, foldl_app. cbn [foldl Nat.add]. fold (counts n). unfold count_thread at 1.
    rewrite base_count_S by done. pose proof (base_count_le n b Hb).
    pose proof (Z.mod_pos_bound (Z.of_nat n) SHARED_BASES bases_pos).
    destruct (Z.of_nat n mod SHARED_BASES =? b) eqn:E.
    + apply Z.eqb_eq in E as ->. rewrite list_lookup_alter_eq, IH by lia. cbn [fmap option_fmap option_map]. f_equal. apply u32_small. lia.
    + rewrite list_lookup_alter_ne by lia. rewrite IH by lia. f_equal. lia.
Qed.

(** The stripe of thread [t]: never empty, inside its page. *)
Lemma new_worker_spec junk n t :
  (t < n)%nat -> Z.of_nat n <= 4096 ->
  exists w, new_worker junk (counts n) t = Some w /\
    let sw := REG / base_count n (Z.of_nat t mod SHARED_BASES) in
    w = mk_worker (Z.of_nat t) (Z.of_nat t mod SHARED_BASES * REG) (Z.of_nat t / SHARED_BASES * sw) sw
          (fun _ => x00) junk 0 0 0 0 /\
    0 < sw /\ Z.of_nat t / SHARED_BASES * sw + sw <= REG.
Proof.
  intros Ht Hn. pose proof shared_bases_pos as HB.
  pose proof (Z.div_mod (Z.of_nat t) SHARED_BASES bases_nz) as Hdm.
  pose proof (Z.mod_pos_bound (Z.of_nat t) SHARED_BASES bases_pos) as Hr.
  set (r := Z.of_nat t mod SHARED_BASES) in *. set (q := Z.of_nat t / SHARED_BASES) in *.
  assert (Hq : 0 <= q <= Z.of_nat t) by (subst q; split; [apply Z.div_pos; lia|nia]).
  assert (Hrt : r <= Z.of_nat t) by nia.
  assert (Hc : q + 1 <= base_count n r <= 4096).
  { split; [|pose proof (base_count_le n r); lia]. unfold base_count. apply Z.div_le_lower_bound; nia. }
  set (sw := REG / base_count n r).
  assert (Hsw : 0 < sw) by (apply Z.div_str_pos; unfold REG; sz).
  assert (Hfit : base_count n r * sw <= REG) by (apply Z.mul_div_le; lia).
  unfold new_worker. fold r q. rewrite !u32_small by lia. rewrite counts_lookup by lia.
  cbn [mbind option_bind]. fold sw. destruct (sw =? 0) eqn:E; [lia|]. eexists. split; [done|].
  assert (REG = 262144) by reflexivity. assert (q * sw + sw <= REG) by nia.
  rewrite u64_small, u32_small by nia. split; [done|]. split; [done|lia].
Qed.

Lemma assign_total junk n :
  Z.of_nat n <= 4096 -> exists ws, assign junk n = Some ws.
Proof.
  intros Hn. unfold assign. apply mapM_is_Some, Forall_forall. intros t Ht%elem_of_seq.
  destruct (new_worker_spec junk n t) as (w & E & _); [lia|done|by exists w].
Qed.

Lemma assign_lookup junk n ws t w :
  assign junk n = Some ws -> ws !! t = Some w -> new_worker junk (counts n) t = Some w /\ (t < n)%nat.
Proof.
  unfold assign. intros Hm%mapM_Some Ht.
  destruct (Forall2_lookup_r _ _ _ _ _ Hm Ht) as (t' & [-> Hlt]%lookup_seq & E). done.
Qed.

Lemma assign_length junk n ws : assign junk n = Some ws -> length ws = n.
Proof. unfold assign. intros Hm%length_mapM. by rewrite length_seq in Hm. Qed.

(** What a worker owns. *)
Definition in_stripe (w : worker_t) (x : Z) : Prop :=
  w_base w + w_stripe_start w <= x < w_base w + w_stripe_start w + w_stripe_width w.
Definition stripe (ws : list worker_t) (t : nat) (x : Z) : Prop := exists w, ws !! t = Some w /\ in_stripe w x.

Lemma stripe_page junk n ws t w x :
  assign junk n = Some ws -> Z.of_nat n <= 4096 -> ws !! t = Some w -> in_stripe w x ->
  x / REG = Z.of_nat t mod SHARED_BASES /\ w_base w = Z.of_nat t mod SHARED_BASES * REG.
Proof.
  intros Ha Hn Ht Hx. destruct (assign_lookup _ _ _ _ _ Ha Ht) as [E Hlt].
  destruct (new_worker_spec junk n t Hlt Hn) as (w' & E' & -> & Hsw & Hfit). rewrite E' in E. injection E as <-.
  unfold in_stripe in Hx. cbn [w_base w_stripe_start w_stripe_width] in *. split; [|done].
  pose proof (Z.div_pos (Z.of_nat t) SHARED_BASES ltac:(lia) bases_pos).
  symmetry. apply (Z.div_unique _ _ _ (x - Z.of_nat t mod SHARED_BASES * REG)); [left|]; nia.
Qed.

Lemma stripes_disjoint junk n ws i j x :
  assign junk n = Some ws -> Z.of_nat n <= 4096 -> stripe ws i x -> stripe ws j x -> i = j.
Proof.
  intros Ha Hn (wi & Hi & Xi) (wj & Hj & Xj).
  destruct (stripe_page _ _ _ _ _ _ Ha Hn Hi Xi) as [Pi _]. destruct (stripe_page _ _ _ _ _ _ Ha Hn Hj Xj) as [Pj _].
  destruct (assign_lookup _ _ _ _ _ Ha Hi) as [Ei Li]. destruct (assign_lookup _ _ _ _ _ Ha Hj) as [Ej Lj].
  destruct (new_worker_spec junk n i Li Hn) as (wi' & Ei' & -> & Hsi & _). rewrite Ei' in Ei. injection Ei as <-.
  destruct (new_worker_spec junk n j Lj Hn) as (wj' & Ej' & -> & Hsj & _). rewrite Ej' in Ej. injection Ej as <-.
  unfold in_stripe in *. cbn [w_base w_stripe_start w_stripe_width] in *.
  assert (Em : Z.of_nat i mod SHARED_BASES = Z.of_nat j mod SHARED_BASES) by congruence.
  rewrite Em in Xi, Hsi. pose proof (Z.div_mod (Z.of_nat i) SHARED_BASES bases_nz) as Di.
  pose proof (Z.div_mod (Z.of_nat j) SHARED_BASES bases_nz) as Dj. rewrite Em in Di.
  set (sw := REG / base_count n (Z.of_nat j mod SHARED_BASES)) in *.
  assert (Z.of_nat i / SHARED_BASES = Z.of_nat j / SHARED_BASES) by nia. nia.
Qed.

End Stripes.

(** * The workers stay in their stripes *)

Section Driven.
Context `{SoakConfig} (junk : Z -> Z) (n : nat) (ws0 : list worker_t).
Context (Hn : Z.of_nat n <= 4096) (Ha : assign junk n = Some ws0).

Definition same_place (w w' : worker_t) : Prop :=
  w_tid w' = w_tid w /\ w_base w' = w_base w /\ w_stripe_start w' = w_stripe_start w /\
  w_stripe_width w' = w_stripe_width w.

Lemma draw_spec w s len off s' :
  0 < w_stripe_width w <= REG -> draw w s = (len, off, s') ->
  0 < len /\ 0 <= off /\ off + len <= w_stripe_width w.
Proof.
  unfold draw. intros Hw [= <- <- _]. pose proof soak_maxlen_pos. assert (REG = 262144) by reflexivity.
  set (m := if _ <? _ then _ else _).
  assert (0 < m <= w_stripe_width w) by (subst m; destruct (w_stripe_width w <? SOAK_MAXLEN) eqn:E; lia).
  pose proof (Z.mod_pos_bound (rnd s) m ltac:(lia)).
  rewrite (u32_small (1 + _)) by lia. rewrite (u32_small (_ - _)) by lia. rewrite u32_small by lia.
  set (k := _ - _ + 1). pose proof (Z.mod_pos_bound (rnd (rnd s)) k ltac:(subst k; lia)). subst k. lia.
Qed.

Lemma stripe_owned t w0 w s len off s' :
  ws0 !! t = Some w0 -> same_place w0 w -> draw w s = (len, off, s') ->
  write_offset w off = w_base w + w_stripe_start w + off /\ 0 <= off /\ off + len <= w_stripe_width w /\
  0 < len /\ range_ok (write_offset w off) len /\ owns (stripe ws0) t (write_offset w off) len.
Proof.
  intros Ht (_ & E2 & E3 & E4) Hd. destruct (assign_lookup _ _ _ _ _ Ha Ht) as [E Hlt].
  destruct (new_worker_spec junk n t Hlt Hn) as (w' & E' & -> & Hsw & Hfit). rewrite E' in E. injection E as <-.
  cbn [w_base w_stripe_start w_stripe_width] in *.
  pose proof (Z.div_pos (Z.of_nat t) SHARED_BASES ltac:(lia) bases_pos) as Hq.
  pose proof (Z.mod_pos_bound (Z.of_nat t) SHARED_BASES bases_pos) as Hr.
  pose proof (Z.mod_le (Z.of_nat t) SHARED_BASES ltac:(lia) bases_pos) as Hle.
  set (sw := REG / _) in *. assert (HR : REG = 262144) by reflexivity.
  assert (0 <= Z.of_nat t / SHARED_BASES * sw) by nia.
  destruct (draw_spec w s len off s') as (D1 & D2 & D3); [lia|done|].
  assert (Eo : write_offset w off = w_base w + w_stripe_start w + off).
  { unfold write_offset. rewrite !u64_small; rewrite ?u64_small; rewrite ?E2, ?E3; lia. }
  split_and!; try done.
  - rewrite Eo. unfold range_ok. change NOX_DATAZONE_SIZE with REG. rewrite HR in *. lia.
  - intros x Hx. rewrite Eo in Hx. eexists. split; [exact Ht|]. unfold in_stripe.
    cbn [w_base w_stripe_start w_stripe_width]. fold sw. lia.
Qed.

Context (lo_first : bool) `{NoxConfig} {S : Type} `{PosixLaws S}.

(** What the file will hold of a worker's stripe. *)
Definition shown (w : worker_t) (k : worker_ctl) : buf :=
  match k with KIn _ off len src _ => buf_put (w_shadow w) off src len | _ => w_shadow w end.

Definition workers_ok (sy : sys S) (ws : list (worker_t * worker_ctl)) : Prop :=
  length ws = length ws0 /\
  (forall i c, y_fg sy !! i = Some c -> (i < length ws0)%nat) /\
  (forall t w k, ws !! t = Some (w, k) ->
     (exists w0, ws0 !! t = Some w0 /\ same_place w0 w) /\
     match k with KIn _ _ _ _ _ => True | _ => exists rc, y_fg sy !! t = Some (FgIdle rc) end).

Definition shadows_ok (d : buf) (ws : list (worker_t * worker_ctl)) : Prop :=
  forall t w k i, ws !! t = Some (w, k) -> w_err w = 0 -> 0 <= i < w_stripe_width w ->
    d (w_base w + w_stripe_start w + i) = shown w k i.

Definition untouched (d d' : buf) : Prop := forall x, (forall t, ~ stripe ws0 t x) -> d' x = d x.

Record soak_inv (d : buf) (s0 : sys S) (es : list event) (p : soak S) : Prop := {
  si_driven : driven (stripe ws0) s0 es (k_sys p);
  si_workers : workers_ok (k_sys p) (k_workers p);
  si_shadows : shadows_ok (put_calls d es) (k_workers p);
  si_untouched : untouched d (put_calls d es)
}.

Lemma after_write_spec rc t1 s off len src t0 w w' k' :
  after_write lo_first rc t1 s off len src t0 w = (w', k') ->
  same_place w w' /\ (w_err w' = 0 -> w_err w = 0 /\ shown w' k' = buf_put (w_shadow w) off src len) /\
  match k' with KIn _ _ _ _ _ => False | _ => True end.
Proof.
  unfold after_write. destruct (negb (rc =? 0)).
  - intros [= <- <-]. by split_and!.
  - unfold record_latency. destruct (_ <? LAT_RESERVOIR_CAP).
    + intros [= <- <-]. cbn. by split_and!.
    + destruct (draw_index _ _ _) as [j s']. intros [= <- <-]. cbn. by split_and!.
Qed.

Lemma same_place_trans w1 w2 w3 : same_place w1 w2 -> same_place w2 w3 -> same_place w1 w3.
Proof. unfold same_place. intros (? & ? & ? & ?) (? & ? & ? & ?). split_and!; congruence. Qed.

(** A call changes the caller's stripe only. *)
Lemma call_shadows d ws t w s len off s' now sy :
  workers_ok sy ws -> shadows_ok d ws -> ws !! t = Some (w, KLoop s) -> draw w s = (len, off, s') ->
  shadows_ok (buf_put d (write_offset w off) (payload w) len) (<[t := (w, KIn s' off len (payload w) now)]> ws).
Proof.
  intros (_ & _ & Hw) Hsh Ht Hd t' w' k i. destruct (Hw t w _ Ht) as [(w0 & Hw0 & Hp) _].
  destruct (stripe_owned t w0 w s len off s' Hw0 Hp Hd) as (Eo & O1 & O2 & O3 & _ & Hown).
  rewrite list_lookup_insert_Some. intros [(<- & [= <- <-] & _)|[Hne Ht']] He Hi; rewrite Eo.
  - cbn [shown]. pose proof (Hsh t w (KLoop s) i Ht He Hi) as Hx. cbn [shown] in Hx.
    destruct (decide (off <= i < off + len)).
    + rewrite !buf_put_in by lia. f_equal. lia.
    + rewrite !buf_put_out by lia. exact Hx.
  - rewrite buf_put_out; [by apply (Hsh t')|]. intros Hx. apply Hne.
    destruct (Hw t' w' k Ht') as [(w0' & Hw0' & (_ & E2 & E3 & E4)) _].
    apply (stripes_disjoint junk n ws0 t t' (w_base w' + w_stripe_start w' + i) Ha Hn).
    + apply Hown. rewrite Eo. exact Hx.
    + exists w0'. split; [done|]. unfold in_stripe. lia.
Qed.

Lemma soak_step_inv d s0 es p l p' :
  soak_step lo_first p l p' -> soak_inv d s0 es p -> soak_inv d s0 (es ++ option_list l) p'.
Proof.
  intros Hs [Hd Hw Hsh Hun].
  destruct Hs as [sh t1 t2 fg failed ws t w s len off s' rc baddr now sh' c Ht Hi Hdr E
    |sy ws stop t w s off len src t0 rc now Ht Hi|sy ws t w s Ht|sy ws stop|sy l sy' ws stop Hst Hl];
    cbn [k_sys k_workers k_stop option_list] in *; rewrite ?app_nil_r.
  - pose proof Hw as (Hlen & Hdom & Hwk). destruct (Hwk t w _ Ht) as [(w0 & Hw0 & Hp) _].
    destruct (stripe_owned t w0 w s len off s' Hw0 Hp Hdr) as (Eo & O1 & O2 & O3 & Hr & Hown).
    split; cbn [k_sys k_workers].
    + by eapply dr_call.
    + split_and!; [by rewrite length_insert| |].
      * intros i c'. cbn. rewrite lookup_insert. case_decide; [subst; eauto|apply Hdom].
      * intros t' w' k. rewrite list_lookup_insert_Some. intros [(<- & [= <- <-] & _)|[Hne Ht']]; [eauto|].
        pose proof (Hwk _ _ _ Ht') as [? Hk]. split; [done|]. cbn. by rewrite lookup_insert_ne.
    + unfold put_calls. rewrite foldl_app. cbn. by eapply call_shadows.
    + unfold put_calls. rewrite foldl_app. cbn. intros x Hx. rewrite buf_put_out; [by apply Hun|].
      intros Hin. by apply (Hx t), Hown.
  - destruct Hw as (Hlen & Hdom & Hwk). destruct (Hwk t w _ Ht) as [(w0 & Hw0 & Hp) _].
    destruct (after_write _ _ _ _ _ _ _ _ _) as [w' k'] eqn:Ew.
    destruct (after_write_spec _ _ _ _ _ _ _ _ _ _ Ew) as (Hp' & Hs' & Hk').
    split; cbn [k_sys k_workers]; try done.
    + split_and!; [by rewrite length_insert|done|].
      intros t' w1 k1. rewrite list_lookup_insert_Some. intros [(<- & [= <- <-] & _)|[Hne Ht']]; [|exact (Hwk t' w1 k1 Ht')].
      split; [exists w0; split; [done|by eapply same_place_trans]|]. destruct k'; try done; by exists rc.
    + intros t' w1 k1 i. rewrite list_lookup_insert_Some. intros [(<- & [= <- <-] & _)|[Hne Ht']]; [|exact (Hsh t' w1 k1 i Ht')].
      intros He Hi'. destruct (Hs' He) as [He0 ->]. destruct Hp' as (_ & E2 & E3 & E4). rewrite E2, E3.
      apply (Hsh t w _ i Ht He0). lia.
  - destruct Hw as (Hlen & Hdom & Hwk). split; cbn [k_sys k_workers]; try done.
    + split_and!; [by rewrite length_insert|done|].
      intros t' w1 k1. rewrite list_lookup_insert_Some. intros [(<- & [= <- <-] & _)|[Hne Ht']]; [|exact (Hwk t' w1 k1 Ht')].
      exact (Hwk t w _ Ht).
    + intros t' w1 k1 i. rewrite list_lookup_insert_Some. intros [(<- & [= <- <-] & _)|[Hne Ht']]; [|exact (Hsh t' w1 k1 i Ht')].
      exact (Hsh t w (KLoop s) i Ht).
  - by split.
  - destruct Hw as (Hlen & Hdom & Hwk).
    assert (Epc : put_calls d (es ++ option_list l) = put_calls d es).
    { unfold put_calls. rewrite foldl_app. destruct l as [[src size offset|ch]|]; try done. by destruct (Hl src size offset). }
    split; cbn [k_sys k_workers]; rewrite ?Epc; try done; [by econstructor|]. split_and!; [done| |].
    + intros i c Hc. destruct (dom_step _ _ _ _ _ Hst Hc) as [c0 Hc0]. eauto.
    + intros t w k Ht. destruct (Hwk t w k Ht) as [? Hk]. split; [done|].
      destruct k; try done; destruct Hk as [rc0 Hk]; exists rc0; by eapply idle_step.
Qed.

Lemma soak_run_inv d s0 es0 p es p' :
  soak_run lo_first p es p' -> soak_inv d s0 es0 p -> soak_inv d s0 (es0 ++ es) p'.
Proof.
  induction 1 as [p|p es p1 l p2 Hr IH Hs]; intros Hi; [by rewrite app_nil_r|].
  rewrite app_assoc. eapply soak_step_inv; eauto.
Qed.

Lemma soak_start_inv d (s0 : sys S) :
  (forall x, d x = x00) ->
  (forall i, y_fg s0 !! i = if decide (i < length ws0)%nat then Some (FgIdle 0) else None) ->
  soak_inv d s0 [] (soak_start s0 ws0).
Proof.
  intros Hz Hf. split; cbn; [constructor| | |done].
  - split_and!; [by rewrite length_fmap| |].
    + intros i c. rewrite Hf. by case_decide.
    + intros t w k. rewrite list_lookup_fmap, fmap_Some. intros (w' & Ht & [= -> ->]). split; [by exists w'|].
      exists 0. rewrite Hf, decide_True; [done|]. by eapply lookup_lt_Some.
  - intros t w k i. rewrite list_lookup_fmap, fmap_Some. intros (w' & Ht & [= -> ->]) _ Hi. cbn.
    destruct (assign_lookup _ _ _ _ _ Ha Ht) as [E Hlt].
    destruct (new_worker_spec junk n t Hlt Hn) as (w1 & E' & -> & _). rewrite E' in E. injection E as <-. apply Hz.
Qed.

End Driven.

(** * The comparison *)

Section Compare.
Context `{SoakConfig} {S : Type} `{PosixLaws S}.

(** A page is assembled to [D] where the stripes hold [D] and [D] is what was there elsewhere. *)
Lemma assemble_spec b ws t whole D :
  (forall j w i, ws !! j = Some w -> (t + Z.of_nat j) mod SHARED_BASES = b -> 0 <= i < w_stripe_width w ->
     w_shadow w i = D (w_stripe_start w + i)) ->
  (forall i, (forall j w, ws !! j = Some w -> (t + Z.of_nat j) mod SHARED_BASES = b ->
       ~ (w_stripe_start w <= i < w_stripe_start w + w_stripe_width w)) -> whole i = D i) ->
  forall i, assemble b t ws whole i = D i.
Proof.
  revert t whole. induction ws as [|w ws IH]; intros t whole Hsh Hout i; cbn [assemble].
  - apply Hout. intros j w. by rewrite lookup_nil.
  - assert (Hidx : forall j, t + 1 + Z.of_nat j = t + Z.of_nat (Datatypes.S j)) by lia.
    apply IH.
    + intros j w' k Hj Hb. apply (Hsh (Datatypes.S j) w' k Hj). by rewrite <- Hidx.
    + intros k Hk. assert (Hrest : ~ (t mod SHARED_BASES = b /\ w_stripe_start w <= k < w_stripe_start w + w_stripe_width w) ->
        whole k = D k).
      { intros Hw. apply Hout. intros [|j] w' Hj; cbn in Hj.
        - injection Hj as <-. rewrite Z.add_0_r. intros Hb Hx. by apply Hw.
        - rewrite <- Hidx. by apply Hk. }
      destruct (t mod SHARED_BASES =? b) eqn:Eb; [|apply Hrest; lia].
      destruct (decide (w_stripe_start w <= k < w_stripe_start w + w_stripe_width w)) as [Hin|Hin].
      * rewrite buf_put_in by done. rewrite (Hsh 0%nat w); [f_equal; lia|done|rewrite Z.add_0_r; lia|lia].
      * rewrite buf_put_out by done. apply Hrest. tauto.
Qed.

(** A file that holds every page as assembled passes, up to errors and short reads. *)
Lemma verify_bases_ok ws m b (x : S) D :
  (forall b', b <= b' < b + Z.of_nat m -> forall i, 0 <= i < REG -> assemble b' 0 ws (fun _ => x00) i = D (b' * REG + i)) ->
  file_byte x ≈ D -> 0 <= b -> (b + Z.of_nat m) * REG < 2 ^ 64 ->
  match (verify_bases ws m b x).1 with VMismatch _ _ | VOpen | VMemory | VCrash => False | _ => True end.
Proof.
  revert b x. induction m as [|m IH]; intros b x Has Hf Hb Hfit; cbn [verify_bases]; [done|].
  assert (HR : REG = 262144) by reflexivity. rewrite u64_small by lia.
  destruct (sys_pread x REG (b * REG)) as [[[rd|e] disk] x1] eqn:Ep; [|done].
  destruct (negb (rd =? REG)) eqn:Er; [done|]. assert (rd = REG) as -> by lia.
  apply pread_ok in Ep as (_ & Hin & _ & Hf1).
  rewrite memcmp_eq_ok.
  - apply IH; [|by rewrite Hf1|lia|lia]. intros b' Hb'. apply Has. lia.
  - intros i Hi. rewrite Hin by lia. rewrite (Hf _). symmetry. apply Has; lia.
Qed.

End Compare.

Section Integrity.
Context `{SoakConfig} (lo_first : bool) (junk : Z -> Z) `{NoxConfig} {S : Type} `{PosixLaws S}.

(** When the workers have returned without an error, the history holds every assembled page. *)
Lemma history_assembled n ws0 d (s0 : sys S) es p b i :
  Z.of_nat n <= 4096 -> assign junk n = Some ws0 -> soak_inv ws0 d s0 es p -> (forall x, d x = x00) ->
  (forall t w k, k_workers p !! t = Some (w, k) -> k = KDone /\ w_err w = 0) ->
  0 <= b -> 0 <= i < REG ->
  assemble b 0 (k_workers p).*1 (fun _ => x00) i = put_calls d es (b * REG + i).
Proof.
  intros Hn Ha [_ (Hlen & _ & Hwk) Hsh Hun] Hz Hdone Hb Hi.
  assert (HR : REG = 262144) by reflexivity.
  assert (Hl : forall j w, (k_workers p).*1 !! j = Some w ->
    k_workers p !! j = Some (w, KDone) /\ w_err w = 0 /\ exists w0, ws0 !! j = Some w0 /\ same_place w0 w).
  { intros j w. rewrite list_lookup_fmap, fmap_Some. intros ([w' k] & Hj & ->). cbn.
    destruct (Hdone j w' k Hj) as [-> He]. split; [done|]. split; [done|]. by destruct (Hwk j w' KDone Hj). }
  assert (Hpl : forall j w, (k_workers p).*1 !! j = Some w ->
    w_base w = Z.of_nat j mod SHARED_BASES * REG /\ 0 <= w_stripe_start w /\ w_stripe_start w + w_stripe_width w <= REG).
  { intros j w Hj. destruct (Hl j w Hj) as (_ & _ & w0 & Hj0 & (_ & -> & -> & ->)).
    destruct (assign_lookup _ _ _ _ _ Ha Hj0) as [E Hlt].
    destruct (new_worker_spec junk n j Hlt Hn) as (w' & E' & -> & Hsw & Hfit). rewrite E' in E. injection E as <-.
    cbn. split; [done|]. pose proof (Z.div_pos (Z.of_nat j) SHARED_BASES ltac:(lia) bases_pos). nia. }
  set (D := fun i => if decide (0 <= i < REG) then put_calls d es (b * REG + i) else x00).
  trans (D i); [|subst D; cbn; by rewrite decide_True]. apply assemble_spec.
  - intros j w k Hj Hb' Hk. destruct (Hl j w Hj) as (Hj' & He & _). destruct (Hpl j w Hj) as (E1 & E2 & E3).
    subst D. cbn. rewrite decide_True by lia. rewrite Z.add_0_l in Hb'. rewrite Hb' in E1.
    rewrite Z.add_assoc, <- E1. symmetry. by apply (Hsh j w KDone).
  - intros k Hk. subst D. cbn. case_decide as Hr; [|done]. rewrite <- (Hz (b * REG + k)). symmetry. apply Hun.
    intros t (w0 & Ht & Hx). destruct (stripe_page _ _ _ _ _ _ Ha Hn Ht Hx) as [Pg Bs].
    destruct (lookup_lt_is_Some_2 (k_workers p).*1 t) as [w Hw].
    { rewrite length_fmap, Hlen. by eapply lookup_lt_Some. }
    destruct (Hl t w Hw) as (_ & _ & w0' & Ht' & (_ & E2 & E3 & E4)). rewrite Ht in Ht'. injection Ht' as <-.
    assert (b = (b * REG + k) / REG) as Hbd by (apply (Z.div_unique _ _ _ k); [left|]; lia).
    apply (Hk t w Hw); [rewrite Z.add_0_l; congruence|]. unfold in_stripe in Hx.
    rewrite E3, E4. rewrite Bs, <- Pg, <- Hbd in Hx. lia.
Qed.

(** A preparation that succeeds has assigned the stripes and started the workers. *)
Lemma fill_assigned ok c ts ws : fill_workers ok junk c ts = inr ws -> mapM (new_worker junk c) ts = Some ws.
Proof.
  revert ws. induction ts as [|t ts IH]; intros ws E; cbn [fill_workers] in E; [by injection E as <-|].
  destruct (new_worker junk c t) as [w|] eqn:Ew; [|done]. destruct (negb _); [done|].
  destruct (fill_workers ok junk c ts) as [rc|ws'] eqn:Ef; [done|]. injection E as <-.
  cbn. by rewrite Ew, (IH ws' eq_refl).
Qed.

Lemma prepare_assigned argc arg_s env_s arg_n env_n (ke : soak_env S) p :
  soak_prepare argc arg_s env_s arg_n env_n junk ke = inr p ->
  exists seconds nthreads sy ws, soak_args arg_s env_s arg_n env_n = Some (seconds, nthreads) /\
    1 <= nthreads <= 4096 /\ ke_open ke = Some sy /\ assign junk (Z.to_nat nthreads) = Some ws /\
    p = soak_start sy ws.
Proof.
  unfold soak_prepare. destruct (_ || _); [done|].
  destruct (soak_args _ _ _ _) as [[seconds n]|] eqn:Ea; [|done]. destruct (negb _); [done|].
  destruct (fill_workers _ _ _ _) as [rc|ws] eqn:Ef; [done|]. destruct (ke_open ke) as [sy|] eqn:Eo; [|done].
  destruct (negb _); [done|]. destruct (negb _); [done|]. destruct (forallb _ _); [|done]. intros [= <-].
  exists seconds, n, sy, ws. split_and!; try done; [| |by eapply fill_assigned];
    unfold soak_args in Ea; repeat (case_match; try done); injection Ea as _ <-; lia.
Qed.

(** The exit on an empty stripe is never taken: with legal settings only a failing call ends
    the preparation. *)
Lemma prepare_total argc arg_s env_s arg_n env_n seconds nthreads (ke : soak_env S) sy :
  2 <= argc <= 4 -> soak_args arg_s env_s arg_n env_n = Some (seconds, nthreads) ->
  ke_calloc ke = true -> (forall t, ke_worker ke t = true) -> ke_open ke = Some sy ->
  ke_samples ke = true -> ke_monitor ke = true -> (forall t, ke_thread ke t = true) ->
  exists p, soak_prepare argc arg_s env_s arg_n env_n junk ke = inr p.
Proof.
  intros Hc Ha E1 E2 E3 E4 E5 E6. unfold soak_prepare. rewrite Ha, E1, E3, E4, E5.
  destruct (_ || _) eqn:E; [contra_lia|]. cbn [negb].
  assert (forall c ts ws, mapM (new_worker junk c) ts = Some ws -> fill_workers (ke_worker ke) junk c ts = inr ws) as Hf.
  { intros c. induction ts as [|t ts IH]; intros ws Em; cbn in Em |- *; [by injection Em as <-|].
    destruct (new_worker junk c t) as [w|]; [|done]. cbn in Em.
    destruct (mapM (new_worker junk c) ts) as [ws'|]; [|done]. injection Em as <-.
    by rewrite E2, (IH ws' eq_refl). }
  destruct (assign_total junk (Z.to_nat nthreads)) as [ws Hw].
  { unfold soak_args in Ha. repeat (case_match; try done). injection Ha as _ <-. lia. }
  rewrite (Hf _ _ ws Hw). replace (forallb _ _) with true; [by eexists|].
  symmetry. apply forallb_forall. auto.
Qed.

(** The calls of the workers keep apart. *)
Lemma soak_apart n ws0 s es s' :
  assign junk n = Some ws0 -> Z.of_nat n <= 4096 ->
  Z.min (Z.of_nat n) SHARED_BASES <= APART_PAGES ->
  driven (S := S) (stripe ws0) s es s' -> calls_apart es.
Proof.
  intros Ha Hn Hfew. pose proof (assign_length _ _ _ Ha) as Hl0. pose proof bases_pos as Hp.
  assert (Hpage : forall i y, stripe ws0 i y -> 0 <= Z.of_nat i mod SHARED_BASES < APART_PAGES).
  { intros i y (v & Hv%lookup_lt_Some & _). unfold APART_PAGES in *.
    pose proof (Z.mod_pos_bound (Z.of_nat i) SHARED_BASES Hp).
    pose proof (Z.mod_le (Z.of_nat i) SHARED_BASES ltac:(lia) Hp). lia. }
  apply (driven_apart (stripe ws0) (fun t => Z.of_nat t mod SHARED_BASES)).
  - intros i y (v & Hv & Hy). by apply (stripe_page _ _ _ _ _ y Ha Hn Hv).
  - intros i j y z Hi Hj. apply low_pages_apart; eauto.
Qed.

(** C7: The integrity criterion of the soak driver. Whatever settings it is started with, for at
    most 610 pages in use (4 in the default build), once its preparation has succeeded: however
    the workers, the deadline, the engine's callers and the two flusher threads interleave,
    whichever addresses the allocator reuses, and although many threads share every page:
    starting from a file of zeros, when all workers have returned without an error and no
    background error is latched, or about to be, before the close, [nox_close], scheduled fairly
    and with [close(2)] succeeding, returns 0, and the comparison of the file with the shadows,
    if it gets its file and memory, never reports a mismatch, unless a transfer fails during the
    close. That no order is lost is not assumed: every stripe is within one page, so
    no write is direct, and the pages are in different buckets of the index. *)
Theorem soak_integrity (argc : Z) (arg_s env_s arg_n env_n : option Z) (seconds nthreads : Z)
    (ke : soak_env S) (e : open_env) (high low : Z)
    (w : watermark) (st : nox_stats) (x : S) (scratch : buf) (s0 : sys S) (es : list event)
    (p0 p : soak S) (turns : list (list close_move)) :
  soak_args arg_s env_s arg_n env_n = Some (seconds, nthreads) ->
  Z.min nthreads SHARED_BASES <= APART_PAGES ->
  engine_open e high low w st x scratch (set_seq 0 (Z.to_nat nthreads)) = Some s0 -> g_live w = 0 -> stats_wf st ->
  (forall i, file_byte x i = x00) ->
  ke_open ke = Some s0 -> soak_prepare argc arg_s env_s arg_n env_n junk ke = inr p0 ->
  soak_run lo_first p0 es p ->
  (forall t v k, k_workers p !! t = Some (v, k) -> k = KDone /\ w_err v = 0) -> healthy (k_sys p) ->
  Forall close_round turns ->
  24 * pending (sh_ot (y_sh (k_sys p))) + 1040 <= Z.of_nat (length turns) ->
  failing_prefix true (k_sys p) ClDisarm (concat turns) \/
  exists s', close_run true (k_sys p) ClDisarm (concat turns) = Some (s', ClDone 0) /\
    match (verify true true true (k_workers p).*1 (sh_os (y_sh s'))).1 with
    | VMismatch _ _ | VOpen | VMemory | VCrash => False
    | _ => True
    end.
Proof.
  intros Hargs Hfew He Hw Hst Hz Hko Hp Hr Hdone Hh Ht Hlen.
  apply prepare_assigned in Hp as (sec & n' & sy & ws0 & Ea' & Hn' & Eo & Ha & ->).
  rewrite Hargs in Ea'. injection Ea' as <- <-. rewrite Hko in Eo. injection Eo as <-.
  set (n := Z.to_nat nthreads) in *. assert (Hn : Z.of_nat n <= 4096) by lia.
  pose proof (assign_length _ _ _ Ha) as Hl0.
  assert (Hi : soak_inv ws0 (file_byte x) s0 ([] ++ es) p).
  { eapply soak_run_inv; [exact Hn|exact Ha|exact Hr|]. eapply soak_start_inv; [exact Hn|exact Ha|done|]. intros i.
    rewrite (open_callers _ _ _ _ _ _ _ _ _ _ He). apply decide_ext. rewrite elem_of_set_seq. lia. }
  cbn [app] in Hi. pose proof Hi as [Hd (Hlw & Hdom & Hwk) _ _].
  assert (Hap : calls_apart es) by (eapply soak_apart; [exact Ha|exact Hn|lia|exact Hd]).
  apply driven_run in Hd as [Hrun _].
  2: { intros i j y. by eapply stripes_disjoint. }
  2: { apply idle_owned. intros i c Hc. rewrite (open_callers _ _ _ _ _ _ _ _ _ _ He) in Hc.
       case_decide; [|done]. injection Hc as <-. by eexists. }
  assert (Hidle : idle (k_sys p)).
  { intros i c Hc. specialize (Hdom i c Hc). rewrite <- Hlw in Hdom.
    apply lookup_lt_is_Some in Hdom as [[v k] Hv]. destruct (Hdone i v k Hv) as [-> _].
    destruct (Hwk i v KDone Hv) as [_ [rc Hx]]. rewrite Hx in Hc. injection Hc as <-. by eexists. }
  destruct (engine_loses x es (k_sys p)) as [lost Hl]; [do 8 eexists; by split_and!|].
  destruct (close_contract x es lost (k_sys p) true turns Hl Hh Hidle Ht Hlen) as (_ & Hlost & Hcl).
  rewrite (Hlost Hap) in Hcl. destruct Hcl as [Hbad|(s' & E & Hf' & _)]; [by left|].
  assert (Hf : file_byte (sh_os (y_sh s')) ≈ put_calls (file_byte x) es)
    by (intros y; apply Hf', lost_none).
  right. exists s'. split; [done|]. unfold verify. cbn [negb andb].
  eapply verify_bases_ok; [|exact Hf|lia|].
  - intros b Hb i Hi'. eapply history_assembled; eauto. lia.
  - unfold used_bases. rewrite length_fmap, Hlw, Hl0. assert (REG = 262144) by reflexivity.
    pose proof shared_bases_pos. destruct (Z.of_nat n <? SHARED_BASES) eqn:El; rewrite ?u32_small by lia; lia.
Qed.

End Integrity.
