(* ===== verification/SoakVerdict.v ===== *)
(** What the soak driver [src/bench/otflush_soak.c] measures and reports: the exact statistics
    and the bounded reservoir of latencies, the percentile drawn from it, the two tests on the
    resident set size, and the overall verdict; with the sample run of the integrity theorem of
    [Soak]. *)
From stdpp Require Import base numbers list gmap sets sorting.
From Corelib Require Import Init.Byte.
From S2P Require Import Prelude Config Segments IoDirect Watermark ScrapPage Heap Queue.
From S2P Require Import PageIndex Stats Otflush Engine Pipeline System Schedule Simulation.
From S2P Require Import SimFlush SimWrite Faults Apart Guarantees CloseErrors Progress Close Workload Soak.

(** * Latency *)

(** A worker that records the latencies [dts], one after the other. *)
Fixpoint record_all (lo_first : bool) (dts : list Z) (w : worker_t) (s : Z) : worker_t * Z :=
  match dts with
  | [] => (w, s)
  | dt :: dts => let '(w, s) := record_latency lo_first dt w s in record_all lo_first dts w s
  end.

Definition stalls (dts : list Z) : Z := zsum (fun dt => if STALL_NS <? dt then 1 else 0) dts.

(** What a worker's statistics say of the latencies it has seen. *)
Record lat_ok (dts : list Z) (w : worker_t) : Prop := {
  l_seen : w_nlat_seen w = Z.of_nat (length dts);
  l_max : w_lat_max_ns w = foldr Z.max 0 dts;
  l_over : w_over_thresh w = stalls dts;
  l_sample : forall i, 0 <= i < reservoir_size w -> w_lat w i ∈ dts;
  l_all : forall i dt, Z.of_nat (length dts) <= LAT_RESERVOIR_CAP -> dts !! i = Some dt -> w_lat w (Z.of_nat i) = dt
}.

Lemma stalls_bound dts : 0 <= stalls dts <= Z.of_nat (length dts).
Proof.
  unfold stalls. split; [apply zsum_nonneg; intros; destruct (_ <? _); lia|].
  rewrite <- (Z.mul_1_l (Z.of_nat _)), <- zsum_const. apply zsum_le. intros; destruct (_ <? _); lia.
Qed.

Lemma stalls_snoc dts dt : stalls (dts ++ [dt]) = stalls dts + (if STALL_NS <? dt then 1 else 0).
Proof. unfold stalls. rewrite zsum_app. cbn. lia. Qed.

Lemma foldr_max_snoc (dts : list Z) dt : foldr Z.max 0 (dts ++ [dt]) = Z.max (foldr Z.max 0 dts) (Z.max dt 0).
Proof. induction dts as [|x dts IH]; cbn; [lia|]. rewrite IH. lia. Qed.

Lemma record_latency_ok lo_first dts dt w s w' s' :
  lat_ok dts w -> 0 <= dt -> Z.of_nat (length dts) + 1 < 2 ^ 64 ->
  record_latency lo_first dt w s = (w', s') -> lat_ok (dts ++ [dt]) w'.
Proof.
  intros [Hs Hm Ho Hr Ha] Hdt Hfit. unfold record_latency. rewrite Hs.
  remember (Z.of_nat (length dts)) as i eqn:Hi. unfold reservoir_size in Hr. rewrite Hs in Hr.
  pose proof (stalls_bound dts) as Hsb.
  assert (Hmax : (if w_lat_max_ns w <? dt then dt else w_lat_max_ns w) = foldr Z.max 0 (dts ++ [dt])).
  { rewrite foldr_max_snoc, <- Hm. destruct (w_lat_max_ns w <? dt) eqn:E; lia. }
  assert (Hov : (if STALL_NS <? dt then u64 (w_over_thresh w + 1) else w_over_thresh w) = stalls (dts ++ [dt])).
  { rewrite stalls_snoc, Ho. destruct (STALL_NS <? dt); rewrite ?u64_small; lia. }
  assert (Hlen : u64 (i + 1) = Z.of_nat (length (dts ++ [dt]))).
  { rewrite length_app, u64_small; cbn; lia. }
  rewrite Hmax, Hov, Hlen.
  assert (Hkeep : forall k j, 0 <= k < i -> 0 <= k < LAT_RESERVOIR_CAP ->
    lat_put (w_lat w) j dt k ∈ dts ++ [dt] /\ w_lat w k ∈ dts ++ [dt]).
  { intros k j Hk Hc. assert (w_lat w k ∈ dts) by (apply Hr; destruct (i <? LAT_RESERVOIR_CAP); lia).
    unfold lat_put. destruct (k =? j); set_solver. }
  assert (Hsize : forall k w1, w_nlat_seen w1 = Z.of_nat (length (dts ++ [dt])) ->
    0 <= k < reservoir_size w1 -> 0 <= k <= i /\ k < LAT_RESERVOIR_CAP).
  { intros k w1 E. unfold reservoir_size. rewrite E, length_app. cbn [length].
    destruct (Z.of_nat (length dts + 1) <? LAT_RESERVOIR_CAP) eqn:El; lia. }
  destruct (i <? LAT_RESERVOIR_CAP) eqn:Ei.
  - intros [= <- <-]. split; cbn [w_nlat_seen w_lat_max_ns w_over_thresh w_lat]; try done.
    + intros k Hk. apply Hsize in Hk; [|done]. destruct (decide (k = i)) as [->|Hne].
      * unfold lat_put. rewrite Z.eqb_refl. set_solver.
      * apply Hkeep; lia.
    + intros k x Hle Hk. unfold lat_put. destruct (Z.of_nat k =? i) eqn:Ek.
      * assert (k = length dts) as -> by lia. rewrite lookup_app_r, Nat.sub_diag in Hk by lia. by injection Hk.
      * rewrite length_app in Hle. cbn in Hle. apply Ha; [lia|]. apply lookup_lt_Some in Hk as Hlt.
        rewrite length_app in Hlt. cbn in Hlt. rewrite lookup_app_l in Hk by lia. done.
  - unfold draw_index. destruct (if lo_first then _ else _) as [lo hi].
    intros [= <- <-]. split; cbn [w_nlat_seen w_lat_max_ns w_over_thresh w_lat]; try done.
    + intros k Hk. apply Hsize in Hk; [|done].
      destruct (Hkeep k (Z.lor lo (u64 (Z.shiftl hi 32)) mod u64 (i + 1))) as [? ?]; [lia..|].
      by destruct (Z.lor lo _ mod _ <? LAT_RESERVOIR_CAP).
    + intros k x Hle. rewrite length_app in Hle. cbn in Hle. lia.
Qed.

Lemma record_all_ok lo_first dts dts0 w s w' s' :
  lat_ok dts0 w -> Forall (Z.le 0) dts -> Z.of_nat (length (dts0 ++ dts)) < 2 ^ 64 ->
  record_all lo_first dts w s = (w', s') -> lat_ok (dts0 ++ dts) w'.
Proof.
  revert dts0 w s. induction dts as [|dt dts IH]; intros dts0 w s Hw Hpos Hfit; cbn [record_all].
  - intros [= <- <-]. by rewrite app_nil_r.
  - apply Forall_cons in Hpos as [Hdt Hpos]. destruct (record_latency _ _ _ _) as [w1 s1] eqn:E.
    rewrite length_app in Hfit. cbn [length] in Hfit.
    intros Hr. replace (dts0 ++ dt :: dts) with ((dts0 ++ [dt]) ++ dts) by (by rewrite <- app_assoc).
    apply (IH _ w1 s1); [|done|rewrite !length_app; cbn; lia|done].
    eapply record_latency_ok; [exact Hw|done|lia|exact E].
Qed.

Lemma new_worker_lat `{SoakConfig} junk c t w : new_worker junk c t = Some w -> lat_ok [] w.
Proof.
  unfold new_worker. destruct (c !! _) as [k|]; [|done]. cbn [mbind option_bind].
  destruct (_ =? 0); [done|]. intros [= <-]. split; try done. cbn. lia.
Qed.

(** The elements of [all] are latencies some worker has seen. *)
Lemma all_latencies_seen ws hist v :
  Forall2 lat_ok hist ws -> v ∈ all_latencies ws -> exists dts, dts ∈ hist /\ v ∈ dts.
Proof.
  intros Hf. unfold all_latencies. rewrite merge_sort_Permutation, list_elem_of_In, in_concat.
  intros (l & Hl & Hv). apply list_elem_of_In, list_elem_of_fmap in Hl as (w & -> & Hw).
  apply list_elem_of_In in Hv. unfold reservoir in Hv. apply list_elem_of_fmap in Hv as (i & -> & Hi%elem_of_seqZ).
  apply list_elem_of_lookup in Hw as [k Hk]. destruct (Forall2_lookup_r _ _ _ _ _ Hf Hk) as (dts & Hd & Hok).
  exists dts. split; [by eapply list_elem_of_lookup_2|]. apply (l_sample _ _ Hok). lia.
Qed.

Lemma global_max_ge ws w : w ∈ ws -> w_lat_max_ns w <= global_max ws.
Proof.
  unfold global_max. set (f := fun m w => if m <? w_lat_max_ns w then w_lat_max_ns w else m).
  assert (Hf : forall m x, m <= f m x /\ w_lat_max_ns x <= f m x)
    by (intros m x; unfold f; destruct (m <? _) eqn:E; lia).
  assert (Hle : forall l m, m <= foldl f m l).
  { intros l. induction l as [|x l IH]; intros m; cbn; [lia|]. specialize (IH (f m x)). destruct (Hf m x). lia. }
  generalize 0 as m. induction ws as [|x ws IH]; intros m Hw; [by apply elem_of_nil in Hw|]. cbn.
  apply elem_of_cons in Hw as [->|Hw]; [|by apply IH]. specialize (Hle ws (f m x)). destruct (Hf m x). lia.
Qed.

Lemma seen_le_max dts v : v ∈ dts -> v <= foldr Z.max 0 dts.
Proof.
  induction dts as [|x dts IH]; intros Hv; [by apply elem_of_nil in Hv|]. cbn.
  apply elem_of_cons in Hv as [->|Hv]; [lia|]. specialize (IH Hv). lia.
Qed.

(** No sample above the threshold, as counted, means no sample above it in the reservoir. *)
Lemma no_stall_seen dts v : stalls dts = 0 -> v ∈ dts -> v <= STALL_NS.
Proof.
  intros Hs [i Hi]%list_elem_of_lookup.
  pose proof (zsum_lookup_le (fun dt => if STALL_NS <? dt then 1 else 0) dts i v
    ltac:(intros y _; cbv beta; destruct (STALL_NS <? y); lia) Hi) as Hle.
  unfold stalls in Hs. cbv beta in Hle. destruct (STALL_NS <? v) eqn:E; lia.
Qed.

(** The latency figures of the soak driver. After any sequences of fewer than 2^64 writes
    in each worker, whatever the generator draws, the count, the maximum and the number of
    writes above the threshold are exact, the reservoir holds only latencies that were measured
    (all of them, in order, while they fit), and the percentile the third criterion looks at is
    read inside the sorted array and is one of the measured latencies, at most the exact
    maximum, and at most the threshold when no write exceeded it. *)
Theorem soak_latency `{SoakConfig} (lo_first : bool) (junk : Z -> Z) (n : nat) (ws0 ws : list worker_t)
    (hist : list (list Z)) (rank : Z -> Z) :
  assign junk n = Some ws0 ->
  Forall2 (fun '(w0, dts) w => exists s s', record_all lo_first dts w0 s = (w, s'))
    (zip ws0 hist) ws -> length hist = length ws0 ->
  Forall (fun dts => Forall (Z.le 0) dts /\ Z.of_nat (length dts) < 2 ^ 64) hist ->
  (forall k, 0 < k -> 0 <= rank k < k) ->
  Forall2 lat_ok hist ws /\
  exists v, percentile rank ws = Some v /\ v <= Z.max 0 (global_max ws) /\
    (v = 0 \/ exists dts, dts ∈ hist /\ v ∈ dts) /\
    (Forall (fun w => w_over_thresh w = 0) ws -> v <= STALL_NS).
Proof.
  intros Ha Hrec Hlen Hh Hrank.
  assert (Hok : Forall2 lat_ok hist ws).
  { apply Forall2_same_length_lookup. split.
    { rewrite <- (Forall2_length _ _ _ Hrec), length_zip. lia. }
    intros i dts w Hd Hw. destruct (Forall2_lookup_r _ _ _ _ _ Hrec Hw) as ([w0 dts'] & Hz & s & s' & Hr).
    apply lookup_zip_Some in Hz as [Hw0 Hd']. rewrite Hd in Hd'. injection Hd' as <-.
    destruct (proj1 (Forall_lookup _ _) Hh i dts Hd) as [Hpos Hfit].
    destruct (assign_lookup _ _ _ _ _ Ha Hw0) as [E _].
    apply (record_all_ok lo_first dts [] w0 s w s'); try done. by eapply new_worker_lat. }
  split; [done|]. unfold percentile. destruct (all_latencies ws) as [|v0 l] eqn:El.
  { exists 0. split_and!; [done|lia|by left|]. intros _. unfold STALL_NS. lia. }
  destruct (Hrank (Z.of_nat (length (v0 :: l)))) as [R1 R2]; [cbn; lia|].
  destruct (lookup_lt_is_Some_2 (v0 :: l) (Z.to_nat (rank (Z.of_nat (length (v0 :: l)))))) as [v Hv]; [lia|].
  exists v. split; [done|]. apply list_elem_of_lookup_2 in Hv. rewrite <- El in Hv.
  destruct (all_latencies_seen ws hist v Hok Hv) as (dts & Hd & Hvd).
  apply list_elem_of_lookup in Hd as Hd'. destruct Hd' as [i Hi].
  destruct (Forall2_lookup_l _ _ _ _ _ Hok Hi) as (w & Hw & Hlw). apply list_elem_of_lookup_2 in Hw.
  split_and!.
  - pose proof (global_max_ge ws w Hw) as Hg. rewrite (l_max _ _ Hlw) in Hg. pose proof (seen_le_max dts v Hvd). lia.
  - right. by exists dts.
  - intros Hz. apply (no_stall_seen dts); [|done]. rewrite <- (l_over _ _ Hlw). by apply (proj1 (Forall_forall _ _) Hz).
Qed.

Lemma soak_latency_witness :
  exists ws0 ws, assign (H := soak_default) (fun _ => 0) 2 = Some ws0 /\
    (exists v, percentile (fun k => k - 1) ws = Some v /\ (v = 0 \/ exists dts, dts ∈ [[5; 300000]; [7]] /\ v ∈ dts)) /\
    Forall2 lat_ok [[5; 300000]; [7]] ws.
Proof.
  destruct (assign (H := soak_default) (fun _ => 0) 2) as [ws0|] eqn:Ea; [|discriminate Ea].
  assert (Hlen : length ws0 = 2%nat) by (by eapply assign_length in Ea).
  destruct ws0 as [|w0 [|w1 [|]]]; try discriminate Hlen.
  destruct (record_all true [5; 300000] w0 1) as [v0 s0] eqn:E0.
  destruct (record_all true [7] w1 3) as [v1 s1] eqn:E1.
  exists [w0; w1], [v0; v1]. split; [done|].
  destruct (soak_latency (H := soak_default) true (fun _ => 0) 2 [w0; w1] [v0; v1] [[5; 300000]; [7]]
    (fun k => k - 1)) as [Hok (v & Hv & _ & Hin & _)].
  - exact Ea.
  - repeat constructor; eauto.
  - reflexivity.
  - repeat constructor; cbn; lia.
  - intros k Hk. lia.
  - split; [|exact Hok]. by exists v.
Defined.

(** * The resident set size *)

Lemma peak_gen l m :
  let p := foldl (fun peak s => if peak <? s_kb s then s_kb s else peak) m l in
  m <= p /\ (forall s, s ∈ l -> s_kb s <= p) /\ (p = m \/ exists s, s ∈ l /\ s_kb s = p).
Proof.
  revert m. induction l as [|x l IH]; intros m; cbn.
  - split_and!; [lia| |by left]. by intros s ?%elem_of_nil.
  - destruct (IH (if m <? s_kb x then s_kb x else m)) as (I1 & I2 & I3).
    set (p := foldl _ _ l) in *. split_and!.
    + destruct (m <? s_kb x) eqn:E; lia.
    + intros s [->|Hs]%elem_of_cons; [|by apply I2]. destruct (m <? s_kb x) eqn:E; lia.
    + destruct I3 as [->|(s & Hs & E)]; [|right; exists s; split; [by right|done]].
      destruct (m <? s_kb x); [right; exists x; split; [by left|done]|by left].
Qed.

Lemma peak_ge l s : s ∈ l -> s_kb s <= peak_kb l.
Proof. apply (peak_gen l (-1)). Qed.

Lemma peak_attained l : l <> [] -> (forall s, s ∈ l -> -1 <= s_kb s) -> exists s, s ∈ l /\ s_kb s = peak_kb l.
Proof.
  intros Hne Hk. destruct (peak_gen l (-1)) as (_ & H2 & [E|Hs]); [|exact Hs]. destruct l as [|x l]; [done|].
  exists x. split; [by left|]. fold (peak_kb (x :: l)) in *. specialize (H2 x ltac:(by left)).
  specialize (Hk x ltac:(by left)). lia.
Qed.

Lemma peak_le l b : -1 <= b -> (forall s, s ∈ l -> s_kb s <= b) -> peak_kb l <= b.
Proof.
  intros Hb Hl. destruct (peak_gen l (-1)) as (_ & _ & [E|(s & Hs & E)]); fold (peak_kb l) in *; [lia|].
  rewrite <- E. by apply Hl.
Qed.

Definition ceiling_exact (ws : list worker_t) : Z :=
  (NOX_WATERMARK_HIGH + Z.of_nat (length ws)) * 256 +
  zsum (fun w => (w_stripe_width w + 1600000) / 1024) ws + RSS_CEILING_SLACK_KB.

(** The ceiling is computed without wrapping. *)
Lemma ceiling_kb_eq ws :
  (length ws <= 4096)%nat -> (forall w, w ∈ ws -> 0 <= w_stripe_width w <= REG) ->
  ceiling_kb ws = ceiling_exact ws /\ 0 <= ceiling_exact ws < 2 ^ 63.
Proof.
  intros Hl Hw. set (f := fun w => (w_stripe_width w + 1600000) / 1024).
  assert (Hf : forall w, w ∈ ws -> 0 <= f w <= 2000).
  { intros w Hx. specialize (Hw w Hx). assert (REG = 262144) by reflexivity. unfold f.
    Z.to_euclidean_division_equations. lia. }
  assert (Hd : driver_ceiling_kb ws = zsum f ws).
  { unfold driver_ceiling_kb.
    assert (Hgen : forall a, 0 <= a -> a + 2000 * Z.of_nat (length ws) < 2 ^ 64 ->
      foldl (fun acc w => u64 (acc + u64 (w_stripe_width w + u64 (LAT_RESERVOIR_CAP * 8)) / 1024)) a ws = a + zsum f ws).
    { clear Hl. induction ws as [|w ws IH]; intros a Ha Hb; [cbn; lia|]. cbn [foldl length] in *.
      pose proof (Hf w ltac:(by left)) as Hfw. specialize (Hw w ltac:(by left)) as Hww.
      assert (Ew : u64 (w_stripe_width w + u64 (LAT_RESERVOIR_CAP * 8)) / 1024 = f w).
      { unfold f. change (LAT_RESERVOIR_CAP * 8) with 1600000. rewrite (u64_small 1600000) by lia.
        assert (REG = 262144) by reflexivity. rewrite u64_small by lia. done. }
      rewrite Ew, (u64_small (a + f w)) by lia. rewrite IH; try lia.
      - unfold zsum. cbn. fold (zsum f ws). lia.
      - intros; apply Hw. by right.
      - intros; apply Hf. by right. }
    rewrite Hgen; lia. }
  assert (Hs : 0 <= zsum f ws <= 2000 * Z.of_nat (length ws)).
  { rewrite <- (zsum_const 2000). split; [apply zsum_nonneg|apply zsum_le]; intros w Hx; specialize (Hf w Hx); lia. }
  unfold ceiling_kb, ceiling_exact, engine_ceiling_kb. fold f. rewrite Hd.
  change (NOX_DATAZONE_SIZE / 1024) with 256. change RSS_CEILING_SLACK_KB with 65536.
  change NOX_WATERMARK_HIGH with 4096.
  rewrite (u64_small (4096 + _)) by lia. rewrite (u64_small (_ * 256)) by lia.
  rewrite (u64_small (_ + zsum f ws)) by lia. rewrite u64_small by lia. lia.
Qed.

(** What the second criterion asks of the samples. *)
Definition rss_within (ws : list worker_t) (l : list rss_sample_t) : Prop :=
  2 <= Z.of_nat (length l) /\
  (forall s, s ∈ l -> s_kb s <= first_kb l + ceiling_exact ws) /\
  (8 <= Z.of_nat (length l) ->
   let '(warm, split) := plateau_split (Z.of_nat (length l)) in
   forall s, s ∈ drop (Z.to_nat split) l ->
     exists e, e ∈ take (Z.to_nat (split - warm)) (drop (Z.to_nat warm) l) /\
               s_kb s <= s_kb e + RSS_PLATEAU_SLACK_KB).

Lemma rss_bounded_iff ws l :
  (length ws <= 4096)%nat -> (forall w, w ∈ ws -> 0 <= w_stripe_width w <= REG) ->
  (forall s, s ∈ l -> -1 <= s_kb s < 2 ^ 63) -> rss_available l = true -> rss_conclusive l = true ->
  rss_bounded ws l = true <-> rss_within ws l.
Proof.
  intros Hn Hw Hk Hav Hcon. destruct (ceiling_kb_eq ws Hn Hw) as [Ec Hc].
  unfold rss_available in Hav. apply andb_prop in Hav as [A1 A2].
  assert (Hx : 0 <= peak_kb l - first_kb l < 2 ^ 63).
  { destruct l as [|x l]; [done|]. pose proof (peak_ge (x :: l) x ltac:(by left)) as Hge.
    cbn [first_kb] in *. destruct (peak_attained (x :: l)) as (s & Hs & Es); [done|intros s Hs; specialize (Hk s Hs); lia|].
    specialize (Hk s Hs). lia. }
  assert (Hceil : rss_ceiling_ok ws l = true <-> forall s, s ∈ l -> s_kb s <= first_kb l + ceiling_exact ws).
  { unfold rss_ceiling_ok, growth_kb, rss_available. rewrite A1, A2, Hcon. cbn [andb].
    rewrite u64_small, Ec, Z.leb_le by lia. split.
    - intros Hle s Hs. pose proof (peak_ge l s Hs). lia.
    - intros Hall. pose proof (peak_le l (first_kb l + ceiling_exact ws)). apply H in Hall; lia. }
  unfold rss_bounded, rss_plateau, rss_within. change RSS_PLATEAU_MIN_SAMPLES with 8.
  unfold rss_available. rewrite A1, A2. cbn [andb].
  unfold rss_conclusive in Hcon. destruct (8 <=? Z.of_nat (length l)) eqn:E8.
  - unfold plateau_split. set (N := Z.of_nat (length l)) in *. set (warm := N / 4). set (half := (N - warm) / 2).
    assert (0 <= warm <= half) by (subst warm half; Z.to_euclidean_division_equations; lia). assert (warm + half < N /\ 0 < half) by (subst warm half; Z.to_euclidean_division_equations; lia).
    set (early := take _ _). set (late := drop _ _).
    assert (Hearly : early <> []).
    { intros E. apply (f_equal length) in E. subst early. rewrite length_take, length_drop in E. cbn in E. lia. }
    assert (Hke : forall s, s ∈ early -> -1 <= s_kb s).
    { intros s Hs. specialize (Hk s). subst early. apply elem_of_take in Hs as (i & Hi & _).
      rewrite lookup_drop in Hi. apply list_elem_of_lookup_2 in Hi. apply Hk in Hi. lia. }
    rewrite andb_true_iff, Hceil. cbn [negb orb]. rewrite Z.leb_le. split.
    + intros [Hall Hp]. split; [lia|]. split; [done|]. intros _ s Hs.
      destruct (peak_attained early Hearly Hke) as (x & Hxe & Ex). exists x. split; [done|].
      pose proof (peak_ge late s Hs). lia.
    + intros (_ & Hall & Hp). split; [done|]. specialize (Hp ltac:(lia)).
      enough (peak_kb late <= peak_kb early + RSS_PLATEAU_SLACK_KB) by lia. apply peak_le.
      * destruct (peak_attained early Hearly Hke) as (x & Hxe & Ex). specialize (Hke x Hxe).
        unfold RSS_PLATEAU_SLACK_KB. lia.
      * intros s Hs. destruct (Hp s Hs) as (x & Hxe & Hle). pose proof (peak_ge early x Hxe). lia.
  - rewrite andb_true_r, Hceil. split.
    + intros Hall. split; [lia|]. split; [done|]. lia.
    + intros (_ & Hall & _). done.
Qed.

(** C35: The verdict of the soak driver. It exits with 0 exactly when no worker met an error,
    [nox_close] returned 0, the comparison went through, the percentile is within the
    threshold and, if the first sample of the resident set size could be read, there are at least
    two samples, every one of them exceeds the first by at most the ceiling derived from the
    watermark and the driver's own memory (a sum that does not wrap), and, from eight samples
    on, no late sample exceeds every mid-run sample by more than the slack. So a run whose first
    sample was read and is the only one never passes, while a run whose first sample could not be
    read (-1) is judged without the memory criterion, whatever the other samples are. *)
Theorem soak_verdict_exact (ws : list worker_t) (close_err : Z) (v : verify_result)
    (l : list rss_sample_t) (p999 : Z) :
  (length ws <= 4096)%nat -> (forall w, w ∈ ws -> 0 <= w_stripe_width w <= REG) ->
  (forall s, s ∈ l -> -1 <= s_kb s < 2 ^ 63) ->
  soak_exit (overall ws close_err v l p999) = 0 <->
  (forall w, w ∈ ws -> w_err w = 0) /\ close_err = 0 /\ v = VOk /\ p999 <= STALL_NS /\
  (0 <= first_kb l -> rss_within ws l).
Proof.
  intros Hn Hw Hk. unfold overall.
  assert (Hav : rss_available l = (0 <=? first_kb l)).
  { unfold rss_available. destruct (0 <=? first_kb l) eqn:E; [|done]. destruct l as [|x l]; [done|].
    pose proof (peak_ge (x :: l) x ltac:(by left)). cbn in E |- *. apply Z.leb_le. unfold peak_kb in *. cbn in *. lia. }
  assert (Hwe : existsb (fun w => negb (w_err w =? 0)) ws = false <-> forall w, w ∈ ws -> w_err w = 0).
  { rewrite <- not_true_iff_false, existsb_exists. split.
    - intros Hx w Hin. destruct (decide (w_err w = 0)) as [|Hne]; [done|]. destruct Hx. exists w.
      split; [by apply list_elem_of_In|lia].
    - intros Hx (w & Hin & E). apply list_elem_of_In, Hx in Hin. rewrite Hin in E. done. }
  set (werr := existsb _ ws) in *. rewrite <- Hwe. pose proof (rss_bounded_iff ws l Hn Hw Hk) as Hb.
  set (rss := rss_available l && rss_conclusive l && negb (rss_bounded ws l)).
  set (inc := rss_available l && negb (rss_conclusive l)).
  assert (Hexit : soak_exit (if is_bad v || (STALL_NS <? p999) || rss || werr || negb (close_err =? 0)
      then SoakFail else if inc then SoakInconclusive else SoakPass) = 0 <->
    is_bad v = false /\ (STALL_NS <? p999) = false /\ (rss = false /\ inc = false) /\ werr = false /\
    (close_err =? 0) = true).
  { destruct (is_bad v), (STALL_NS <? p999), rss, werr, (close_err =? 0), inc; cbn; intuition discriminate. }
  assert (Hbad : is_bad v = false <-> v = VOk) by (destruct v; cbn; intuition discriminate).
  assert (Hrss : rss = false /\ inc = false <-> (0 <= first_kb l -> rss_within ws l)).
  { subst rss inc. rewrite Hav in *. destruct (0 <=? first_kb l) eqn:Ef; cbn [andb]; [|intuition lia].
    apply Z.leb_le in Ef. destruct (rss_conclusive l) eqn:Ec; cbn [andb negb].
    - rewrite negb_false_iff, (Hb eq_refl eq_refl). tauto.
    - assert (~ rss_within ws l) by (unfold rss_within, rss_conclusive in *; lia). intuition discriminate. }
  rewrite Hexit, Hbad, Hrss, Z.eqb_eq, Z.ltb_ge. tauto.
Qed.

Definition whole_page : worker_t := mk_worker 0 0 0 262144 (fun _ => x00) (fun _ => 0) 0 0 0 0.

Lemma soak_verdict_exact_witness :
  soak_exit (overall [whole_page] 0 VOk [mk_sample 0 2600; mk_sample 3 158000] 90000) = 0 /\
  rss_within [whole_page] [mk_sample 0 2600; mk_sample 3 158000].
Proof.
  assert (E : soak_exit (overall [whole_page] 0 VOk [mk_sample 0 2600; mk_sample 3 158000] 90000) = 0) by reflexivity.
  split; [exact E|]. apply soak_verdict_exact in E as (_ & _ & _ & _ & Hr).
  - apply Hr. cbn. lia.
  - cbn. lia.
  - intros w [->|[]%elem_of_nil]%elem_of_cons. unfold REG, NOX_DATAZONE_SIZE. cbn. lia.
  - intros s [->|[->|[]%elem_of_nil]%elem_of_cons]%elem_of_cons; cbn; lia.
Defined.

(** * A sample run *)

Inductive soak_move :=
| KCall (t : nat) (baddr now : Z)
| KReturn (t : nat) (now : Z)
| KExit (t : nat)
| KDeadline
| KEngine (m : move).

Section Exec.
Context `{SoakConfig} (lo_first : bool) `{NoxConfig} {S : Type} `{Posix S}.

Definition soak_exec (p : soak S) (m : soak_move) : option (soak S * option event) :=
  let '(mk_soak sy ws stop) := p in
  match m with
  | KCall t baddr now =>
      x ← ws !! t; c ← y_fg sy !! t;
      match x, c, stop with
      | (w, KLoop s), FgIdle _, false =>
          let '(len, off, s') := draw w s in
          let '(mk_sys sh t1 t2 fg failed) := sy in
          let '(sh', c') := nox_write sh baddr (payload w) len (write_offset w off) in
          Some (mk_soak (mk_sys sh' t1 t2 (<[t := c']> fg) failed) (<[t := (w, KIn s' off len (payload w) now)]> ws) false,
                Some (ECall (payload w) len (write_offset w off)))
      | _, _, _ => None
      end
  | KReturn t now =>
      x ← ws !! t; c ← y_fg sy !! t;
      match x, c with
      | (w, KIn s off len src t0), FgIdle rc =>
          Some (mk_soak sy (<[t := after_write lo_first rc now s off len src t0 w]> ws) stop, None)
      | _, _ => None
      end
  | KExit t =>
      x ← ws !! t;
      match x, stop with
      | (w, KLoop s), true => Some (mk_soak sy (<[t := (w, KDone)]> ws) true, None)
      | _, _ => None
      end
  | KDeadline => Some (mk_soak sy ws true, None)
  | KEngine m =>
      match m with
      | MCall _ _ _ _ _ => None
      | _ => '(sy, l) ← exec true sy m; Some (mk_soak sy ws stop, l)
      end
  end.

Fixpoint soak_sched (p : soak S) (ms : list soak_move) : option (soak S * list event) :=
  match ms with
  | [] => Some (p, [])
  | m :: ms => '(p, l) ← soak_exec p m; '(p, es) ← soak_sched p ms; Some (p, option_list l ++ es)
  end.

Lemma soak_exec_step p m p' l : soak_exec p m = Some (p', l) -> soak_step lo_first p l p'.
Proof.
  destruct p as [sy ws stop]. unfold soak_exec. intros E. destruct m as [t baddr now|t now|t| |m].
  - destruct (ws !! t) as [[w [s| |]]|] eqn:Ew; try done; cbn [mbind option_bind] in E;
      destruct (y_fg sy !! t) as [[rc0| | | | | |]|] eqn:Ef; try done; cbn [mbind option_bind] in E.
    destruct stop; [done|]. destruct (draw w s) as [[len off] s'] eqn:Ed. destruct sy as [sh t1 t2 fg failed].
    destruct (nox_write _ _ _ _ _) as [sh' c'] eqn:En.
    apply (inj Some) in E. apply pair_eq in E as [<- <-]. by eapply ks_call.
  - destruct (ws !! t) as [[w [|s off len src t0|]]|] eqn:Ew; try done; cbn [mbind option_bind] in E;
      destruct (y_fg sy !! t) as [[rc0| | | | | |]|] eqn:Ef; try done; cbn [mbind option_bind] in E.
    apply (inj Some) in E. apply pair_eq in E as [<- <-]. by eapply ks_return.
  - destruct (ws !! t) as [[w [s| |]]|] eqn:Ew; try done; cbn [mbind option_bind] in E; destruct stop; try done.
    apply (inj Some) in E. apply pair_eq in E as [<- <-]. by eapply ks_exit.
  - apply (inj Some) in E. apply pair_eq in E as [<- <-]. apply ks_deadline.
  - destruct (match m with MCall _ _ _ _ _ => true | _ => false end) eqn:Em; [by destruct m|].
    destruct (exec true sy m) as [[s' l']|] eqn:Ex; [|by destruct m].
    assert (Some (mk_soak s' ws stop, l') = Some (p', l)) as E' by (by destruct m).
    apply (inj Some) in E'. apply pair_eq in E' as [<- <-]. apply ks_engine; [by eapply exec_step|].
    eapply exec_no_call; [|exact Ex]. by destruct m.
Qed.

Lemma soak_sched_run p ms p' es es0 p0 :
  soak_sched p ms = Some (p', es) -> soak_run lo_first p0 es0 p -> soak_run lo_first p0 (es0 ++ es) p'.
Proof.
  revert p es es0. induction ms as [|m ms IH]; intros p es es0 E Hr; cbn [soak_sched] in E.
  - apply (inj Some) in E. apply pair_eq in E as [<- <-]. by rewrite app_nil_r.
  - bind_step E. bind_step E. apply (inj Some) in E. apply pair_eq in E as [<- <-]. rewrite app_assoc.
    eapply IH; [done|]. econstructor; [done|by eapply soak_exec_step].
Qed.

End Exec.

Section Witness.
Import Sample.

(** Two threads that share one page. *)
Definition soak_shared : SoakConfig.
Proof. refine {| SHARED_BASES := 1; SOAK_MAXLEN := 512 |}; lia. Defined.

Definition soak_file : mem_file := mk_file (bytes x00) REG [].

Definition soak_opened : option (sys mem_file) :=
  engine_open all_ok NOX_WATERMARK_HIGH (NOX_WATERMARK_LOW NOX_WATERMARK_HIGH) wm_initial
    stats_zero soak_file (bytes x00) (set_seq 0 2).

Definition soak_moves : list soak_move :=
  let go t a := replicate 4 (KEngine (MFg t 0 (from a))) in
  [KCall 0 5 100; KCall 1 6 110] ++ go 1%nat 1%positive ++ replicate 3 (KEngine MStage1) ++ go 0%nat 2%positive ++
  [KReturn 0 150; KCall 0 5 160; KReturn 1 170] ++ go 0%nat 3%positive ++ [KDeadline; KReturn 0 190; KExit 0; KExit 1].

Definition soak_calls (s : sys mem_file) : soak_env mem_file :=
  mk_soak_env true (fun _ => true) (Some s) true true (fun _ => true).

Definition soak_sample : option (soak mem_file * list event) :=
  s ← soak_opened;
  match soak_prepare (H := soak_shared) 4 (Some 30) None (Some 2) None (fun _ => 0) (soak_calls s) with
  | inl _ => None
  | inr p0 => soak_sched (H := soak_shared) true p0 soak_moves
  end.

Definition all_returned (ws : list (worker_t * worker_ctl)) : bool :=
  forallb (fun x => match x.2 with KDone => w_err x.1 =? 0 | _ => false end) ws.

Lemma all_returned_ok ws : all_returned ws = true ->
  forall t w k, ws !! t = Some (w, k) -> k = KDone /\ w_err w = 0.
Proof.
  unfold all_returned. rewrite forallb_forall. intros Hf t w k Ht.
  apply list_elem_of_lookup_2, list_elem_of_In, Hf in Ht. cbn in Ht.
  destruct k; try done. by apply Z.eqb_eq in Ht.
Qed.

Lemma soak_integrity_witness :
  exists p es, soak_sample = Some (p, es) /\ length es = 6%nat /\
    (failing_prefix true (k_sys p) ClDisarm (concat (replicate 1088 one_round)) \/
     exists s', close_run true (k_sys p) ClDisarm (concat (replicate 1088 one_round)) = Some (s', ClDone 0) /\
       match (verify (H := soak_shared) true true true (k_workers p).*1 (sh_os (y_sh s'))).1 with
       | VMismatch _ _ | VOpen | VMemory | VCrash => False
       | _ => True
       end).
Proof.
  assert (Ht : match soak_sample with
    | Some (p, es) => all_returned (k_workers p) && healthyb (k_sys p) && (length es =? 6)%nat &&
                      (pending (sh_ot (y_sh (k_sys p))) <=? 2)
    | None => false end = true) by (vm_compute; reflexivity).
  unfold soak_sample in Ht |- *. destruct soak_opened as [s0|] eqn:Eo; [|discriminate Ht].
  cbn [mbind option_bind] in Ht |- *.
  destruct (soak_prepare _ _ _ _ _ _ _) as [rc|p0] eqn:Ep; [discriminate Ht|].
  destruct (soak_sched _ _ _) as [[p es]|] eqn:Er; [|discriminate Ht].
  rewrite !andb_true_iff in Ht. destruct Ht as [[[Hd Hh] Hl] Hp].
  exists p, es. split; [reflexivity|]. split; [by apply Nat.eqb_eq|].
  apply (soak_integrity (H := soak_shared) true (fun _ => 0) 4 (Some 30) None (Some 2) None 30 2 (soak_calls s0)
    all_ok NOX_WATERMARK_HIGH (NOX_WATERMARK_LOW NOX_WATERMARK_HIGH) wm_initial stats_zero soak_file (bytes x00)
    s0 es p0 p).
  - reflexivity.
  - cbn. unfold APART_PAGES. lia.
  - exact Eo.
  - reflexivity.
  - repeat split.
  - intros i. cbn. unfold mf_byte. by destruct (in_range _ _ _).
  - reflexivity.
  - exact Ep.
  - apply (soak_sched_run _ _ _ _ _ [] _ Er). constructor.
  - by apply all_returned_ok.
  - by apply healthyb_ok.
  - apply one_round_turns.
  - rewrite length_replicate. lia.
Defined.

End Witness.
