(* ===== verification/Divergence.v ===== *)
(** Where the code departs from what its comments promise, as concrete runs evaluated to the
    byte: the order the engine silently loses, which the theorems of [Guarantees] count as lost,
    and the pages and the walk of [nox_close] that errors spoil. *)
From stdpp Require Import base numbers list gmap sets.
From Corelib Require Import Init.Byte.
From S2P Require Import Prelude Config Segments IoDirect Watermark ScrapPage Heap Queue.
From S2P Require Import PageIndex Stats Otflush Engine Pipeline System Schedule Faults Guarantees.
From S2P Require Import CloseErrors Progress Close.

Import Sample.

(** A run that passes a test. *)
Lemma run_exists `{NoxConfig} (start : option (sys mem_file)) checked ms
    (test : sys mem_file -> list event -> bool) :
  match start with
  | Some s0 =>
      match run_schedule checked s0 ms with Some (s, es) => test s es | None => false end
  | None => false
  end = true ->
  exists s0 s es, start = Some s0 /\ run_schedule checked s0 ms = Some (s, es) /\ test s es = true.
Proof.
  destruct start as [s0|]; [|done]. destruct (run_schedule checked s0 ms) as [[s es]|] eqn:E; [|done].
  eauto 10.
Qed.

(** Every caller has returned 0. *)
Definition all_zero (s : sys mem_file) : bool :=
  forallb (fun ic => match ic.2 with FgIdle 0 => true | _ => false end) (map_to_list (y_fg s)).

(** * A direct write is overtaken by an older scrap page *)

(** One caller: ten bytes through the scrap path, then, in a call of its own, an aligned
    megabyte over them through the direct path; then the stages flush. *)
Definition direct_after_scrap : list move :=
  [MCall 0 5 (bytes x11) 10 100] ++ one_chunk 0 1%positive ++ [MFg 0 0 (from 2%positive)] ++
  [MCall 0 4096 (bytes x22) 1048576 0; MFg 0 0 (from 2%positive)] ++
  replicate 20 MStage1 ++ replicate 40 MStage2.

(** C38: A large aligned write does not see the scrap pages that are live in its range. The
    caller writes ten bytes, and after that call has returned overwrites them with a direct
    megabyte; both calls return 0 and no error is latched, but when everything is drained the
    file holds the ten older bytes, because the scrap page was written back last. *)
Theorem direct_write_overtaken :
  exists s0 s es, start = Some s0 /\ run_schedule true s0 direct_after_scrap = Some (s, es) /\
    all_zero s = true /\ otflush_drain (sh_ot (y_sh s)) = Some 0 /\
    put_calls (file_byte file) es 105 = x22 /\ file_byte (sh_os (y_sh s)) 105 = x11.
Proof.
  destruct (run_exists start true direct_after_scrap (fun s es =>
      all_zero s && bool_decide (otflush_drain (sh_ot (y_sh s)) = Some 0) &&
      bool_decide (put_calls (file_byte file) es 105 = x22) &&
      bool_decide (file_byte (sh_os (y_sh s)) 105 = x11)))
    as (s0 & s & es & E0 & E & Ht); [vm_compute; reflexivity|].
  exists s0, s, es. rewrite !andb_true_iff, !bool_decide_eq_true in Ht. tauto.
Qed.

(** * A failed call reorders later ones *)

(** One entry per page, the smallest legal configuration, keeps the run short. *)
Definition tiny_config : NoxConfig.
Proof. refine {| NOX_MAX_ENTRIES := 1 |}. lia. Defined.

Definition tiny_start (f : mem_file) : option (sys mem_file) :=
  engine_open all_ok NOX_WATERMARK_HIGH (NOX_WATERMARK_LOW NOX_WATERMARK_HIGH) wm_initial
    (stats_zero (H := tiny_config)) f (bytes x00) {[0%nat]}.

Definition no_memory : alloc_answer := mk_alloc 9%positive false None.

(** A byte at 0; a byte at 10 that seals the page and fails to allocate the next; then, with
    memory back, a call that covers the whole page and one byte more. *)
Definition failed_then_full : list move :=
  [MCall 0 5 (bytes x11) 1 0] ++ one_chunk 0 1%positive ++ [MFg 0 0 (from 2%positive)] ++
  [MCall 0 5 (bytes x22) 1 10] ++ replicate 6 (MFg 0 0 no_memory) ++
  [MCall 0 5 (bytes x33) 262145 0] ++ one_chunk 0 3%positive ++ one_chunk 0 4%positive ++
  [MFg 0 0 (from 5%positive)] ++
  replicate 40 MStage2 ++ replicate 40 MStage1 ++ replicate 40 MStage2.

(** C39: A call that runs out of memory after sealing a page leaves that page in Queue-1 with
    no page of its base in the index. A later call that fills a whole page of that base is
    sent straight to Queue-2 and is written first; the older page is written after it. The
    later call returned 0 and no background error is latched, yet its first byte is lost. *)
Theorem orphan_overwrites_full_page :
  exists s0 s es, tiny_start file = Some s0 /\
    run_schedule (H := tiny_config) true s0 failed_then_full = Some (s, es) /\
    y_fg s !! 0%nat = Some (FgIdle 0) /\ otflush_drain (sh_ot (y_sh s)) = Some 0 /\
    put_calls (file_byte file) es 0 = x33 /\ file_byte (sh_os (y_sh s)) 0 = x11.
Proof.
  destruct (run_exists (H := tiny_config) (tiny_start file) true failed_then_full (fun s es =>
      match y_fg s !! 0%nat with Some (FgIdle 0) => true | _ => false end &&
      bool_decide (otflush_drain (sh_ot (y_sh s)) = Some 0) &&
      bool_decide (put_calls (file_byte file) es 0 = x33) &&
      bool_decide (file_byte (sh_os (y_sh s)) 0 = x11)))
    as (s0 & s & es & E0 & E & Ht); [vm_compute; reflexivity|].
  exists s0, s, es. rewrite !andb_true_iff, !bool_decide_eq_true in Ht.
  destruct Ht as [[[Hr Hd] Hc] Hb]. split; [exact E0|]. split; [exact E|].
  split; [|split_and!; [exact Hd|exact Hc|exact Hb]].
  destruct (y_fg s !! 0%nat) as [[[| |]| | | | | |]|]; try discriminate Hr. reflexivity.
Qed.

(** * A retry unlinks the page of another base *)

Definition tiny_pair : option (sys mem_file) :=
  engine_open all_ok NOX_WATERMARK_HIGH (NOX_WATERMARK_LOW NOX_WATERMARK_HIGH) wm_initial
    (stats_zero (H := tiny_config)) file (bytes x00) {[0%nat; 1%nat]}.

(** A base in the bucket of base 0. *)
Definition twin : Z := 1597 * NOX_DATAZONE_SIZE.

(** Caller 0 seals the page of base 0 and stops before it detaches it; the stages write that page
    and free it; caller 1 writes a byte at [twin], whose page is allocated at the same address;
    caller 0 goes on; caller 1 writes the whole page of [twin], and the stages flush. *)
Definition reused_address : list move :=
  [MCall 0 5 (bytes x11) 1 0] ++ one_chunk 0 1%positive ++ [MFg 0 0 (from 2%positive)] ++
  [MCall 0 5 (bytes x22) 1 10] ++ replicate 3 (MFg 0 0 (from 2%positive)) ++
  replicate 20 MStage1 ++ replicate 20 MStage2 ++
  [MCall 1 6 (bytes x33) 1 twin] ++ one_chunk 1 1%positive ++ [MFg 1 0 (from 2%positive)] ++
  replicate 4 (MFg 0 0 (from 2%positive)) ++ [MFg 0 0 (from 2%positive)] ++
  [MCall 1 6 (bytes x44) NOX_DATAZONE_SIZE twin] ++ one_chunk 1 3%positive ++ [MFg 1 0 (from 4%positive)] ++
  replicate 40 MStage2 ++ replicate 60 MStage1 ++ replicate 60 MStage2.

(** C26: A caller that retries detaches by the address of the page it sealed. If that page has been
    flushed and freed in the meantime, and [malloc] has given the address to the page of another
    base of the same bucket, the caller takes that page out of the index: a write that then
    fills a whole page of that base goes to Queue-2 ahead of it, and is overwritten by the older
    byte. The run here does that, with one entry per page to keep it short: every call returned 0,
    the drain reports no error, the calls in order leave 0x44 at the first byte of that base, and
    the file has 0x33. Only the order of writes to that page is lost. *)
Theorem stale_detach_loses_update :
  exists s0 s es, tiny_pair = Some s0 /\
    run_losing (H := tiny_config) s0 reused_address = Some (s, es, [LostOrder twin NOX_DATAZONE_SIZE]) /\
    all_zero s = true /\ otflush_drain (sh_ot (y_sh s)) = Some 0 /\
    put_calls (file_byte file) es twin = x44 /\ file_byte (sh_os (y_sh s)) twin = x33.
Proof.
  assert (Ht : match tiny_pair with
    | Some s0 => match run_losing (H := tiny_config) s0 reused_address with
                 | Some (s, es, ls) =>
                     all_zero s && bool_decide (otflush_drain (sh_ot (y_sh s)) = Some 0) &&
                     bool_decide (ls = [LostOrder twin NOX_DATAZONE_SIZE]) &&
                     bool_decide (put_calls (file_byte file) es twin = x44) &&
                     bool_decide (file_byte (sh_os (y_sh s)) twin = x33)
                 | None => false
                 end
    | None => false end = true) by (vm_compute; reflexivity).
  destruct tiny_pair as [s0|]; [|discriminate Ht]. exists s0.
  destruct (run_losing s0 reused_address) as [[[s es] ls]|] eqn:E; [|discriminate Ht].
  rewrite !andb_true_iff, !bool_decide_eq_true in Ht. destruct Ht as [[[[Hz Hd] ->] Hc] Hb].
  exists s, es. split_and!; [reflexivity|reflexivity|exact Hz|exact Hd|exact Hc|exact Hb].
Qed.

(** * A read error leaks a sealed page *)

(** The first transfer on the file, Stage-1's hole read, fails. *)
Definition bad_file : mem_file := mk_file (bytes xee) (2 * NOX_DATAZONE_SIZE) [Fail EIO].

(** Two bytes of one page that do not fit in one entry: a sealed page and a fresh one. *)
Definition seal_once : list move :=
  [MCall 0 5 (bytes x11) 1 0] ++ one_chunk 0 1%positive ++ [MFg 0 0 (from 2%positive)] ++
  [MCall 0 5 (bytes x22) 1 10] ++ replicate 7 (MFg 0 0 (from 2%positive)).

(** When Stage-1 cannot read the holes of a page that was sealed, it drops the page: the
    page is no longer in the index, so neither the sweep nor the destruction of the index in
    [nox_close] meets it again. [nox_close] reports the error, but the page is never freed,
    and the level of live pages, which the gate of the next engine compares with its marks,
    stays one too high. *)
Theorem read_error_leaks_sealed_page :
  exists s0 s es s', tiny_start bad_file = Some s0 /\
    run_schedule (H := tiny_config) true s0 seal_once = Some (s, es) /\ idleb s = true /\
    close_run (H := tiny_config) true s ClDisarm
      (concat (replicate 1100 [CStage1; CStage2; CClose])) = Some (s', ClDone (-1)) /\
    size (sh_heap (y_sh s')) = 1%nat /\ nox_watermark_live (sh_wm (y_sh s')) = 1.
Proof.
  destruct (run_exists (H := tiny_config) (tiny_start bad_file) true seal_once (fun s _ =>
      idleb s && match close_run (H := tiny_config) true s ClDisarm
                    (concat (replicate 1100 [CStage1; CStage2; CClose])) with
                 | Some (s', ClDone e) => (e =? -1) && (size (sh_heap (y_sh s')) =? 1)%nat &&
                                         (nox_watermark_live (sh_wm (y_sh s')) =? 1)
                 | _ => false
                 end))
    as (s0 & s & es & E0 & E & Ht); [vm_compute; reflexivity|].
  apply andb_true_iff in Ht as [Hi Ht].
  destruct (close_run true s ClDisarm _) as [[s' [| | | | | | | | | | |e]]|] eqn:Ec; try discriminate Ht.
  rewrite !andb_true_iff, !Z.eqb_eq, Nat.eqb_eq in Ht. destruct Ht as [[-> Hs] Hl].
  exists s0, s, es, s'. split_and!; [exact E0|exact E|exact Hi|exact Ec|exact Hs|exact Hl].
Qed.

(** * The sweep races with the stages it puts to work *)

(** The page given up stays in the index; the sweep calls its callback on it, and both stages run
    before the sweep goes on. *)
Definition sweep_race : list close_move :=
  concat (replicate 20 [CStage1; CStage2]) ++ replicate 4 CClose ++
  concat (replicate 40 [CStage1; CStage2]).

(** The sweep of [nox_close] can use a page after it was freed. It walks the chains of the
    index without their locks. When Stage-1 has given a page up, the callback puts the page back
    in a queue, and the flusher threads may write it, detach it and free it before the walk reads
    its [next] field: the next access of [nox_close] is then to a page that is no longer
    allocated. *)
Theorem sweep_use_after_free :
  exists s0 s es s' err a, tiny_start bad_file = Some s0 /\
    run_schedule (H := tiny_config) true s0 ([MCall 0 5 (bytes x11) 1 0] ++ one_chunk 0 1%positive ++
      [MFg 0 0 (from 2%positive)]) = Some (s, es) /\ idleb s = true /\
    close_run (H := tiny_config) true s ClDisarm sweep_race = Some (s', ClSweep err (FeNext 0 a)) /\
    sh_heap (y_sh s') !! a = None /\
    close_exec (H := tiny_config) true s' (ClSweep err (FeNext 0 a)) CClose = None.
Proof.
  destruct (run_exists (H := tiny_config) (tiny_start bad_file) true
      ([MCall 0 5 (bytes x11) 1 0] ++ one_chunk 0 1%positive ++ [MFg 0 0 (from 2%positive)]) (fun s _ =>
      idleb s && match close_run (H := tiny_config) true s ClDisarm sweep_race with
                 | Some (s', ClSweep e (FeNext 0 a)) =>
                     match sh_heap (y_sh s') !! a with None => true | Some _ => false end
                 | _ => false
                 end))
    as (s0 & s & es & E0 & E & Ht); [vm_compute; reflexivity|].
  apply andb_true_iff in Ht as [Hi Ht].
  destruct (close_run true s ClDisarm _) as [[s' [| |err [|[] |[] a]| | | | | | | | | ]]|] eqn:Ec;
    try discriminate Ht.
  destruct (sh_heap (y_sh s') !! a) eqn:Ea; [discriminate Ht|].
  exists s0, s, es, s', err, a. split_and!; [exact E0|exact E|exact Hi|exact Ec|exact Ea|].
  destruct s' as [sh t1 t2 fg failed]. cbn [close_exec close_step foreach_step]. cbn in Ea. by rewrite Ea.
Qed.

(** * Without scratch memory the engine never drains *)

(** The sample file, on a system that has no memory for the scratch zone. *)
Definition poor_posix : Posix mem_file := {|
  file_byte := file_byte; sys_pread := sys_pread; sys_pwritev := sys_pwritev;
  posix_memalign := fun _ _ _ => None
|}.

Section Scratch.
Context `{NoxConfig} {S : Type} `{Posix S}.

(** If the Stage-1 thread cannot allocate its scratch zone it latches an error and exits,
    and nothing takes its place: once a page is pending in Queue-1 and Queue-2 is empty, no
    schedule of the flusher threads changes anything, so [otflush_drain], and [nox_close]
    with it, never returns. *)
Theorem scratch_failure_never_drains (s : shared S) (junk : buf) (s' : sys S)
    (ms : list move) :
  posix_memalign (sh_os s) NOX_BLOCK_SIZE NOX_DATAZONE_SIZE = None ->
  y_s1 s' = (stage1_start s junk).2 -> y_s2 s' = S2Pop ->
  head (q2 (sh_ot (y_sh s'))) = None -> shutdown (q2 (sh_ot (y_sh s'))) = false ->
  0 < pending (sh_ot (y_sh s')) -> Forall background ms ->
  io_err (sh_ot (stage1_start s junk).1) = -1 /\
  run_schedule true s' ms = Some (s', []) /\ otflush_drain (sh_ot (y_sh s')) = None.
Proof.
  intros Hm E1 E2 Hh Hs Hp Hb. unfold stage1_start in *. rewrite Hm in *. cbn [fst snd] in *.
  split; [done|]. split; [|unfold otflush_drain; by destruct (0 <? _) eqn:E; [|lia]].
  destruct s' as [sh t1 t2 fg failed]. cbn [y_sh y_s1 y_s2] in *. subst t1 t2.
  assert (Ep : stage2_step sh S2Pop = Some (sh, S2Pop)).
  { unfold stage2_step, nox_queue_pop. rewrite Hh, Hs, bool_decide_true by done.
    cbn [andb negb mbind option_bind]. by rewrite with_heap_id2. }
  induction Hb as [|m ms Hm' Hb IH]; [done|]. cbn [run_schedule].
  destruct Hm' as [-> | ->]; cbn [exec].
  - cbn [stage1_step s1_at mbind option_bind s1_scratch s1_saddr]. by rewrite IH.
  - rewrite Ep. cbn [mbind option_bind]. by rewrite IH.
Qed.

End Scratch.

(** One write into the engine whose Stage-1 thread could not start. *)
Definition poor_write : option (sys mem_file * list event) :=
  s ← engine_open (H0 := poor_posix) all_ok NOX_WATERMARK_HIGH
        (NOX_WATERMARK_LOW NOX_WATERMARK_HIGH) wm_initial stats_zero file (bytes x00) {[0%nat]};
  run_schedule (H0 := poor_posix) true s ([MCall 0 5 (bytes x11) 10 100] ++ one_chunk 0 1%positive).

Definition poor_shared : shared mem_file :=
  mk_shared ∅ (mk_index []) (ot_initial 1 1) wm_initial file stats_zero [].

Lemma scratch_failure_never_drains_witness :
  exists s es, poor_write = Some (s, es) /\
    run_schedule (H0 := poor_posix) true s [MStage1; MStage2; MStage1] = Some (s, []) /\
    otflush_drain (sh_ot (y_sh s)) = None.
Proof.
  assert (Ht : match poor_write with
    | Some (s, _) =>
        match y_s1 s with mk_s1 S1Exit _ 0 => true | _ => false end &&
        match y_s2 s with S2Pop => true | _ => false end &&
        bool_decide (head (q2 (sh_ot (y_sh s))) = None) && negb (shutdown (q2 (sh_ot (y_sh s)))) &&
        (0 <? pending (sh_ot (y_sh s)))
    | None => false end = true) by (vm_compute; reflexivity).
  destruct poor_write as [[s es]|]; [|discriminate Ht]. exists s, es. split; [reflexivity|].
  rewrite !andb_true_iff, bool_decide_eq_true, negb_true_iff in Ht.
  destruct Ht as [[[[H1 H2] H3] H4] H5].
  destruct (y_s1 s) as [c1 scr ad] eqn:E1. destruct c1; try discriminate H1.
  destruct ad; try discriminate H1. destruct (y_s2 s) eqn:E2; try discriminate H2.
  apply (scratch_failure_never_drains (H0 := poor_posix) poor_shared scr s);
    [reflexivity|exact E1|exact E2|exact H3|exact H4|lia|].
  repeat (apply Forall_cons; split; [(by left) || (by right)|]). by apply Forall_nil.
Defined.
