(* ===== verification/Pool.v ===== *)
(** A grown flusher pool: the same thread bodies with [NOX_STAGE1_THREADS] and
    [NOX_STAGE2_THREADS] raised by the build override that [src/bench/order_repro.c] uses. One
    thread per stage is the engine of [System]; two threads in either stage lose an update, as
    the comment beside the constants in [src/src/noxdb_config.h] predicts, and each stage for
    its own reason. *)
From stdpp Require Import base numbers list gmap sets.
From Corelib Require Import Init.Byte.
From S2P Require Import Prelude Config Segments IoDirect Watermark ScrapPage Heap Queue.
From S2P Require Import PageIndex Stats Otflush Engine Pipeline System Schedule Faults Guarantees.
From S2P Require Import Progress Close Divergence.

Record pool (S : Type) := mk_pool {
  pl_sh : shared S;
  pl_s1 : list s1_thread;
  pl_s2 : list s2_ctl;
  pl_fg : gmap nat fg_ctl
}.
Arguments mk_pool {S}.
Arguments pl_sh {S}.
Arguments pl_s1 {S}.
Arguments pl_s2 {S}.
Arguments pl_fg {S}.

(** A move of the pool names the thread of the stage. *)
Inductive pool_move :=
| PCall (i : nat) (baddr : Z) (src : buf) (size offset : Z)
| PFg (i : nat) (now : Z) (al : alloc_answer)
| PStage1 (k : nat)
| PStage2 (k : nat).

Section Pool.
Context `{NoxConfig} {S : Type} `{Posix S}.

Definition pool_exec (p : pool S) (m : pool_move) : option (pool S * option event) :=
  let '(mk_pool sh ts1 ts2 fg) := p in
  match m with
  | PCall i baddr src size offset =>
      c ← fg !! i;
      match c with
      | FgIdle _ =>
          let '(sh', c') := nox_write sh baddr src size offset in
          Some (mk_pool sh' ts1 ts2 (<[i := c']> fg), Some (ECall src size offset))
      | _ => None
      end
  | PFg i now al =>
      c ← fg !! i; '(sh', c') ← fg_step sh now al c;
      Some (mk_pool sh' ts1 ts2 (<[i := c']> fg), EPut <$> fg_label c c')
  | PStage1 k =>
      t ← ts1 !! k; '(sh', t') ← stage1_step sh t;
      Some (mk_pool sh' (<[k := t']> ts1) ts2 fg, None)
  | PStage2 k =>
      t ← ts2 !! k; '(sh', t') ← stage2_step sh t;
      Some (mk_pool sh' ts1 (<[k := t']> ts2) fg, None)
  end.

Fixpoint pool_run (p : pool S) (ms : list pool_move) : option (pool S * list event) :=
  match ms with
  | [] => Some (p, [])
  | m :: ms =>
      '(p, l) ← pool_exec p m; '(p, es) ← pool_run p ms; Some (p, option_list l ++ es)
  end.

(** The opened engine with [n1] Stage-1 and [n2] Stage-2 threads, each Stage-1 thread with a
    scratch zone of its own. *)
Definition pool_of (n1 n2 : nat) (s : sys S) : pool S :=
  mk_pool (y_sh s) (replicate n1 (y_s1 s)) (replicate n2 (y_s2 s)) (y_fg s).

(** * One thread per stage is the engine *)

Definition single (m : move) : pool_move :=
  match m with
  | MCall i baddr src size offset => PCall i baddr src size offset
  | MFg i now al => PFg i now al
  | MStage1 => PStage1 0
  | MStage2 => PStage2 0
  end.

Lemma exec_single s m :
  pool_exec (pool_of 1 1 s) (single m) = ('(s, l) ← exec false s m; Some (pool_of 1 1 s, l)).
Proof.
  destruct s as [sh t1 t2 fg failed], m as [i baddr src size offset|i now al| |];
    cbn [pool_of replicate pool_exec single exec y_sh y_s1 y_s2 y_fg list_lookup negb orb].
  - destruct (fg !! i) as [[]|]; try done. cbn [mbind option_bind]. by destruct (nox_write _ _ _ _ _).
  - destruct (fg !! i) as [c|]; [|done]. cbn [mbind option_bind].
    by destruct (fg_step _ _ _ _) as [[sh' c']|].
  - change ([t1] !! 0%nat) with (Some t1). cbn [mbind option_bind].
    by destruct (stage1_step _ _) as [[sh' t']|].
  - change ([t2] !! 0%nat) with (Some t2). cbn [mbind option_bind].
    by destruct (stage2_step _ _) as [[sh' t']|].
Qed.

(** The default pool runs exactly the schedules of the engine. *)
Lemma run_single ms : forall s,
  pool_run (pool_of 1 1 s) (single <$> ms) =
    ('(s, es) ← run_schedule false s ms; Some (pool_of 1 1 s, es)).
Proof.
  induction ms as [|m ms IH]; intros s; [done|]. cbn [fmap list_fmap pool_run run_schedule].
  rewrite exec_single. destruct (exec false s m) as [[s1 l]|]; [|done]. cbn [mbind option_bind].
  rewrite IH. by destruct (run_schedule false s1 ms) as [[s2 es]|].
Qed.

End Pool.

(** * Two threads in a stage *)

Import Sample.

(** What the runs below show: every call has returned 0, nothing is pending, no error is
    latched, and yet the byte at [x] is not the one the last call put there. *)
Definition lost_update (p : pool mem_file) (es : list event) (x : Z) : Prop :=
  pl_fg p !! 0%nat = Some (FgIdle 0) /\ otflush_drain (sh_ot (pl_sh p)) = Some 0 /\
  file_byte (sh_os (pl_sh p)) x <> put_calls (file_byte file) es x.

Definition lost_updateb (p : pool mem_file) (es : list event) (x : Z) : bool :=
  match pl_fg p !! 0%nat with Some (FgIdle 0) => true | _ => false end &&
  bool_decide (otflush_drain (sh_ot (pl_sh p)) = Some 0) &&
  negb (bool_decide (file_byte (sh_os (pl_sh p)) x = put_calls (file_byte file) es x)).

Lemma pool_loses `{NoxConfig} (start : option (sys mem_file)) n1 n2 ms x :
  match start with
  | Some s => match pool_run (pool_of n1 n2 s) ms with
              | Some (p, es) => lost_updateb p es x
              | None => false
              end
  | None => false
  end = true ->
  exists s p es, start = Some s /\ pool_run (pool_of n1 n2 s) ms = Some (p, es) /\
    lost_update p es x.
Proof.
  destruct start as [s|]; [|done]. destruct (pool_run _ ms) as [[p es]|] eqn:E; [|done].
  intros Ht. exists s, p, es. split; [done|]. split; [done|]. unfold lost_updateb in Ht.
  rewrite !andb_true_iff, negb_true_iff, bool_decide_eq_true, bool_decide_eq_false in Ht.
  destruct Ht as [[Hr Hd] Hb]. split_and!; [|exact Hd|exact Hb].
  destruct (pl_fg p !! 0%nat) as [[[| |]| | | | | |]|]; try discriminate Hr. reflexivity.
Qed.

Definition page_write (v : byte) (a : addr) : list pool_move :=
  [PCall 0 5 (bytes v) NOX_DATAZONE_SIZE 0] ++ replicate 4 (PFg 0 0 (from a)).

(** Two writes of the same whole page, one after the other. The first Stage-2 thread takes the
    first generation out of the index and stops before its write; the second thread writes the
    second generation; then the first thread resumes. *)
Definition overtake_in_stage2 : list pool_move :=
  page_write x11 1%positive ++ replicate 6 (PStage2 0) ++
  page_write x22 2%positive ++ replicate 20 (PStage2 1) ++ replicate 20 (PStage2 0).

(** Two bytes of one page that do not fit in one entry. The first Stage-1 thread has passed the
    guard with the sealed page when the second one fills and forwards its successor. *)
Definition overtake_in_stage1 : list pool_move :=
  [PCall 0 5 (bytes x11) 1 0] ++ replicate 4 (PFg 0 0 (from 1%positive)) ++
  replicate 4 (PStage1 0) ++
  [PCall 0 5 (bytes x22) 1 10] ++ replicate 7 (PFg 0 0 (from 2%positive)) ++
  replicate 20 (PStage1 1) ++ replicate 20 (PStage1 0) ++ replicate 40 (PStage2 0).

(** C40: More than one thread in either stage loses updates. One caller, every call returned
    before the next begins, nothing fails, everything is drained: with two Stage-2 threads a
    write of a whole page is overwritten by the older write of the same page, and with two
    Stage-1 threads a byte is overwritten by what the file held before it was written. *)
Theorem grown_pool_loses_update :
  (exists s p es, start = Some s /\ pool_run (pool_of 1 2 s) overtake_in_stage2 = Some (p, es) /\
     lost_update p es 0) /\
  (exists s p es, tiny_start file = Some s /\
     pool_run (H := tiny_config) (pool_of 2 1 s) overtake_in_stage1 = Some (p, es) /\
     lost_update p es 10).
Proof. split; apply pool_loses; vm_compute; reflexivity. Qed.
