(* ===== verification/Locks.v ===== *)
(** Mutexes and condition variables. A small language of what a function does with them, its
    branches on data left open, and threads that run such functions side by side. If every thread
    takes its mutexes in the order of a rank and sleeps holding nothing else, then no interleaving
    deadlocks on mutexes; and two threads are at the same shared state only where one of them
    goes there without the mutex, an access that the language keeps apart ([Peek]). *)
From stdpp Require Import base numbers list gmap sets.
From S2P Require Import Prelude Config Segments ScrapPage Heap.

(** * The mutexes of the engine *)

(** Of an index shard, of a page, of the flusher, of Queue-1 and Queue-2, of the gate. *)
Inductive lock := LShard (i : Z) | LPage (a : addr) | LFlusher | LQueue (second : bool) | LGate.

#[export] Instance lock_eq_dec : EqDecision lock.
Proof. solve_decision. Defined.

#[export] Instance lock_countable : Countable lock.
Proof.
  refine (inj_countable'
    (fun l => match l with
              | LShard i => inl (inl i) | LPage a => inl (inr a)
              | LFlusher => inr (inl None) | LQueue b => inr (inl (Some b)) | LGate => inr (inr ())
              end)
    (fun x => match x with
              | inl (inl i) => LShard i | inl (inr a) => LPage a
              | inr (inl None) => LFlusher | inr (inl (Some b)) => LQueue b | inr (inr _) => LGate
              end) _).
  by intros [].
Defined.

(** The order in which they nest: a shard, then a page, then at most one of the others. *)
Definition rank (l : lock) : nat :=
  match l with LShard _ => 0 | LPage _ => 1 | LFlusher | LQueue _ | LGate => 2 end%nat.

(** The condition variables, each with the mutex it is used with. *)
Inductive cond := CIdle | CNotBusy | CWbDone | CNotEmpty (second : bool) | CGate.

Definition cond_lock (c : cond) : lock :=
  match c with
  | CIdle | CNotBusy | CWbDone => LFlusher
  | CNotEmpty second => LQueue second
  | CGate => LGate
  end.

(** * Programs *)

(** [Touch l] is an access to the state that [l] guards, made under [l], and [Peek l] one that
    the code makes without it; [Wait] is [pthread_cond_wait] or [pthread_cond_timedwait]; [Wake]
    is a signal or a broadcast; [Join] is [pthread_join]. *)
Inductive act := Lock (l : lock) | Unlock (l : lock) | Touch (l : lock) | Peek (l : lock)
               | Wait (c : cond) | Wake (c : cond) | Join.

(** [Pick] leaves open what the data decides; [Loop] repeats its body until it gives a result. *)
Inductive prog (R : Type) : Type :=
| Ret (r : R)
| Act (a : act) (k : prog R)
| Pick {T : Type} `{Inhabited T} (k : T -> prog R)
| Loop {B : Type} (body : prog (option B)) (k : B -> prog R).
Arguments Ret {R} r.
Arguments Act {R} a k.
Arguments Pick {R T _} k.
Arguments Loop {R B} body k.

Fixpoint bind {R} (p : prog R) {U} (f : R -> prog U) : prog U :=
  match p with
  | Ret r => f r
  | Act a k => Act a (bind k f)
  | Pick k => Pick (fun t => bind (k t) f)
  | Loop body k => Loop body (fun b => bind (k b) f)
  end.

#[export] Instance prog_bind : MBind prog := fun A B f p => bind p f.
#[export] Instance prog_ret : MRet prog := fun A x => Ret x.

Definition do (a : act) : prog unit := Act a (Ret tt).
(** An answer that depends on data. *)
Definition any {T : Type} `{Inhabited T} : prog T := Pick Ret.
Definition loop {B} (body : prog (option B)) : prog B := Loop body Ret.

(** * The discipline *)

Definition act_ok (a : act) (H : gset lock) : Prop :=
  match a with
  | Lock l => forall l', l' ∈ H -> (rank l' < rank l)%nat
  | Unlock l | Touch l => l ∈ H
  | Peek _ => True
  | Wait c => H = {[cond_lock c]}
  | Wake c => cond_lock c ∈ H
  | Join => H = ∅
  end.

Definition act_held (a : act) (H : gset lock) : gset lock :=
  match a with
  | Lock l => {[l]} ∪ H
  | Unlock l => H ∖ {[l]}
  | Touch _ | Peek _ | Wait _ | Wake _ | Join => H
  end.

(** Started with the mutexes [H], the program keeps the discipline on every path, and ends with
    [Q] of its result and of the mutexes it then holds; each round of a loop that goes on gives
    back what it took. *)
Fixpoint safe {R} (p : prog R) (H : gset lock) (Q : R -> gset lock -> Prop) : Prop :=
  match p with
  | Ret r => Q r H
  | Act a k => act_ok a H /\ safe k (act_held a H) Q
  | Pick k => forall t, safe (k t) H Q
  | Loop body k =>
      safe body H (fun r H' => match r with None => H' = H | Some b => safe (k b) H' Q end)
  end.

Lemma safe_mono {R} (p : prog R) : forall H (Q Q' : R -> gset lock -> Prop),
  safe p H Q -> (forall r H', Q r H' -> Q' r H') -> safe p H Q'.
Proof.
  induction p as [R r|R a k IH|R T HT k IH|R B body IHb k IHk]; intros H Q Q' Hs HQ; cbn in *; eauto.
  - destruct Hs. eauto.
  - eapply IHb; [exact Hs|]. intros [b|] H' Hb; eauto.
Qed.

Lemma safe_bind {R U} (p : prog R) : forall (f : R -> prog U) H Q,
  safe p H (fun r H' => safe (f r) H' Q) -> safe (bind p f) H Q.
Proof.
  induction p as [R r|R a k IH|R T HT k IH|R B body IHb k IHk]; intros f H Q Hs; cbn in *; auto.
  - destruct Hs. auto.
  - eapply safe_mono; [exact Hs|]. intros [b|] H' Hb; auto.
Qed.

(** * Threads *)

(** A thread runs, sleeps on a condition variable, or waits for another thread to end. *)
Inductive tstate := Run (p : prog unit) | Asleep (c : cond) (k : prog unit) | Joining (k : prog unit).

Record thread := mk_thread { held : gset lock; state : tstate }.

Definition is_free (ts : list thread) (l : lock) : Prop := Forall (fun t => l ∉ held t) ts.

(** A thread asleep may wake up at any time, signalled or not, and then has to get its mutex
    back; a join may end at any time. *)
Inductive tstep (free : lock -> Prop) : thread -> thread -> Prop :=
| t_lock H l k : free l ->
    tstep free (mk_thread H (Run (Act (Lock l) k))) (mk_thread ({[l]} ∪ H) (Run k))
| t_unlock H l k : l ∈ H ->
    tstep free (mk_thread H (Run (Act (Unlock l) k))) (mk_thread (H ∖ {[l]}) (Run k))
| t_touch H l k : tstep free (mk_thread H (Run (Act (Touch l) k))) (mk_thread H (Run k))
| t_peek H l k : tstep free (mk_thread H (Run (Act (Peek l) k))) (mk_thread H (Run k))
| t_wake H c k : tstep free (mk_thread H (Run (Act (Wake c) k))) (mk_thread H (Run k))
| t_wait H c k : cond_lock c ∈ H ->
    tstep free (mk_thread H (Run (Act (Wait c) k))) (mk_thread (H ∖ {[cond_lock c]}) (Asleep c k))
| t_awake H c k :
    tstep free (mk_thread H (Asleep c k)) (mk_thread H (Run (Act (Lock (cond_lock c)) k)))
| t_join H k : tstep free (mk_thread H (Run (Act Join k))) (mk_thread H (Joining k))
| t_joined H k : tstep free (mk_thread H (Joining k)) (mk_thread H (Run k))
| t_pick H T `{Inhabited T} (k : T -> prog unit) x :
    tstep free (mk_thread H (Run (Pick k))) (mk_thread H (Run (k x)))
| t_loop H B (body : prog (option B)) k :
    tstep free (mk_thread H (Run (Loop body k)))
      (mk_thread H (Run (bind body (fun r => match r with None => Loop body k | Some b => k b end)))).

Definition lstep (ts ts' : list thread) : Prop :=
  exists i t t', ts !! i = Some t /\ tstep (is_free ts) t t' /\ ts' = <[i := t']> ts.

(** The thread has ended, sleeps, or waits for another to end. *)
Definition resting (t : thread) : Prop :=
  match state t with Run (Ret _) | Asleep _ _ | Joining _ => True | _ => False end.

(** The thread is about to touch the state that [l] guards. *)
Definition touching (t : thread) (l : lock) : Prop :=
  match state t with Run (Act (Touch l') _) => l' = l | _ => False end.

(** The thread is about to access it without [l]. *)
Definition peeking (t : thread) (l : lock) : Prop :=
  match state t with Run (Act (Peek l') _) => l' = l | _ => False end.

Definition accessing (t : thread) (l : lock) : Prop := touching t l \/ peeking t l.

(** What a program accesses without the mutex is in [P]. *)
Fixpoint peeks {R} (P : lock -> Prop) (p : prog R) : Prop :=
  match p with
  | Ret _ => True
  | Act a k => match a with Peek l => P l | _ => True end /\ peeks P k
  | Pick k => forall t, peeks P (k t)
  | Loop body k => peeks P body /\ forall b, peeks P (k b)
  end.

Definition thread_peeks (P : lock -> Prop) (t : thread) : Prop :=
  match state t with Run k | Asleep _ k | Joining k => peeks P k end.

Definition ends (_ : unit) (H : gset lock) : Prop := H = ∅.

Definition thread_ok (t : thread) : Prop :=
  match state t with
  | Run p => safe p (held t) ends
  | Asleep c k => held t = ∅ /\ safe k {[cond_lock c]} ends
  | Joining k => held t = ∅ /\ safe k ∅ ends
  end.

Definition locks_inv (ts : list thread) : Prop :=
  Forall thread_ok ts /\
  forall i j t u, i <> j -> ts !! i = Some t -> ts !! j = Some u -> held t ## held u.

(** The threads at their start. *)
Definition at_start (ps : list (prog unit)) : list thread := (fun p => mk_thread ∅ (Run p)) <$> ps.

#[export] Instance is_free_dec ts l : Decision (is_free ts l).
Proof. unfold is_free. apply _. Defined.

Lemma locks_start_inv ps : Forall (fun p => safe p ∅ ends) ps -> locks_inv (at_start ps).
Proof.
  intros Hs. split; [by apply Forall_fmap|]. unfold at_start. intros i j t u _ Ht _.
  rewrite list_lookup_fmap in Ht. apply fmap_Some in Ht as (p & _ & ->). cbn. set_solver.
Qed.

Lemma tstep_ok free t t' : thread_ok t -> tstep free t t' -> thread_ok t'.
Proof.
  unfold thread_ok. intros Hok Hs. destruct Hs; cbn in *; try tauto; try apply Hok;
    try (by destruct Hok as [-> Hk]).
  - destruct Hok as [-> Hk]. split; [set_solver|done].
  - destruct Hok as [-> Hk]. split; [set_solver|]. by rewrite union_empty_r_L.
  - apply safe_bind. eapply safe_mono; [exact Hok|]. intros [b|] H' Hb; [done|]. by subst H'.
Qed.

(** A step takes at most one mutex, and only a free one. *)
Lemma tstep_held free t t' l : tstep free t t' -> l ∈ held t' -> l ∈ held t \/ free l.
Proof. intros Hs. destruct Hs; cbn; set_solver. Qed.

Lemma lstep_inv ts ts' : locks_inv ts -> lstep ts ts' -> locks_inv ts'.
Proof.
  intros [Hok Hd] (i & t & t' & Hi & Hs & ->). pose proof (lookup_lt_Some _ _ _ Hi) as Hlt. split.
  - apply Forall_insert; [done|]. eapply tstep_ok; [|exact Hs]. by eapply Forall_lookup_1.
  - assert (Hnew : forall j u, i <> j -> ts !! j = Some u -> held t' ## held u).
    { intros j u Hij Hj l Hl Hu. destruct (tstep_held _ _ _ _ Hs Hl) as [Hl'|Hf].
      - by apply (Hd i j t u Hij Hi Hj l).
      - unfold is_free in Hf. rewrite Forall_lookup in Hf. by apply (Hf j u Hj). }
    intros j1 j2 u1 u2 Hne H1 H2.
    apply list_lookup_insert_Some in H1 as [(<- & <- & _)|[N1 H1]];
      apply list_lookup_insert_Some in H2 as [(<- & <- & _)|[N2 H2]]; try done; eauto.
    symmetry. eauto.
Qed.

(** The mutex a thread is about to take. *)
Definition wants (t : thread) : option lock :=
  match state t with Run (Act (Lock l) _) => Some l | _ => None end.

Lemma resting_held t : thread_ok t -> resting t -> held t = ∅.
Proof.
  unfold thread_ok, resting. destruct (state t) as [[r|a k|T HT k|B body k]|c k|k]; try done; by intros [].
Qed.

(** A thread that does not rest moves unless its mutex is taken. *)
Lemma thread_moves free t :
  thread_ok t -> ~ resting t -> (forall l, wants t = Some l -> free l) -> exists t', tstep free t t'.
Proof.
  destruct t as [H [[r|a k|T HT k|B body k]|c k|k]]; unfold thread_ok, resting, wants; cbn;
    intros Hok Hr Hf; try done.
  - destruct Hok as [Ha _]. destruct a; cbn in Ha; try (eexists; econstructor; by auto).
    eexists. constructor. rewrite Ha. set_solver.
  - eexists. by apply (t_pick _ _ _ _ inhabitant).
  - eexists. constructor.
Qed.

(** The owner of a mutex some thread wants wants a mutex of higher rank, if any. *)
Lemma owner_wants u l l' :
  thread_ok u -> l ∈ held u -> wants u = Some l' -> (rank l < rank l')%nat.
Proof.
  destruct u as [H [[r|[] k|T HT k|B body k]|c k|k]]; unfold thread_ok, wants; cbn; intros Hok Hl Hw;
    try done. injection Hw as <-. by apply Hok.
Qed.

Lemma someone_moves n ts i t :
  locks_inv ts -> ts !! i = Some t -> ~ resting t ->
  (forall l, wants t = Some l -> 2 < n + rank l)%nat ->
  exists j u u', ts !! j = Some u /\ ~ resting u /\ tstep (is_free ts) u u'.
Proof.
  intros [Hok Hd]. revert i t. induction n as [|n IH]; intros i t Hi Hr Hn;
    pose proof (Forall_lookup_1 _ _ _ _ Hok Hi) as Ht.
  { assert (wants t = None) as Hw.
    { destruct (wants t) as [l|]; [|done]. specialize (Hn l eq_refl). destruct l; cbn in Hn; lia. }
    destruct (thread_moves (is_free ts) t Ht Hr) as [t' Hs]; [by rewrite Hw|by exists i, t, t']. }
  destruct (wants t) as [l|] eqn:Hw.
  2: { destruct (thread_moves (is_free ts) t Ht Hr) as [t' Hs]; [by rewrite Hw|by exists i, t, t']. }
  destruct (decide (is_free ts l)) as [Hf|Hf].
  { destruct (thread_moves (is_free ts) t Ht Hr) as [t' Hs]; [rewrite Hw; by intros ? [= <-]|by exists i, t, t']. }
  unfold is_free in Hf. apply not_Forall_Exists in Hf; [|apply _].
  apply Exists_exists in Hf as (u & Hu & Hl). apply dec_stable in Hl.
  apply list_elem_of_lookup in Hu as [j Hj]. pose proof (Forall_lookup_1 _ _ _ _ Hok Hj) as Hok'.
  apply (IH j u Hj).
  - intros Hru. rewrite (resting_held _ Hok' Hru) in Hl. set_solver.
  - intros l' Hw'. pose proof (owner_wants _ _ _ Hok' Hl Hw'). specialize (Hn l eq_refl). lia.
Qed.

Lemma locks_run_inv ps ts :
  Forall (fun p => safe p ∅ ends) ps -> rtc lstep (at_start ps) ts -> locks_inv ts.
Proof.
  intros Hs Hr. apply locks_start_inv in Hs. revert Hs. induction Hr as [|ts1 ts2 ts3 Hst _ IH]; [done|].
  intros Hi. by eapply IH, lstep_inv.
Qed.

(** Threads that keep the discipline never deadlock on mutexes. *)
Lemma locks_no_deadlock ts :
  locks_inv ts -> Forall resting ts \/
  exists i t t', ts !! i = Some t /\ ~ resting t /\ tstep (is_free ts) t t'.
Proof.
  intros Hi. assert (Hdec : forall t, Decision (resting t)).
  { intros t. unfold resting. destruct (state t) as [[r|a k|T HT k|B body k]|c k|k]; apply _. }
  destruct (decide (Forall resting ts)) as [|Hr]; [by left|right].
  apply not_Forall_Exists in Hr; [|apply _]. apply Exists_exists in Hr as (t & Ht & Hr).
  apply list_elem_of_lookup in Ht as [i Hit]. eapply (someone_moves 3); eauto. intros; lia.
Qed.

(** A thread that touches holds the mutex. *)
Lemma touch_held ts i t l : locks_inv ts -> ts !! i = Some t -> touching t l -> l ∈ held t.
Proof.
  intros [Hok _] Hi Ht. pose proof (Forall_lookup_1 _ _ _ _ Hok Hi) as Hokt.
  unfold touching, thread_ok in *.
  destruct (state t) as [[r|[] p|T HT p|B body p]|c p|p]; try done. cbn in Hokt. subst. by destruct Hokt.
Qed.

(** No two of them touch the same state at once. *)
Lemma touch_alone ts i j t u l :
  locks_inv ts -> ts !! i = Some t -> ts !! j = Some u -> touching t l -> touching u l -> i = j.
Proof.
  intros Hi Ht Hu Tt Tu. destruct (decide (i = j)) as [|Hne]; [done|].
  destruct (proj2 Hi i j t u Hne Ht Hu l); eauto using touch_held.
Qed.

(** ** What is accessed without the mutex *)

Lemma peeks_bind {R U} P (p : prog R) (f : R -> prog U) :
  peeks P p -> (forall r, peeks P (f r)) -> peeks P (bind p f).
Proof.
  intros Hp Hf. revert U f Hf.
  induction p as [R r|R a k IH|R T HT k IH|R B body IHb k IHk]; intros U f Hf; cbn in *; auto.
  - destruct Hp. auto.
  - destruct Hp. auto.
Qed.

Lemma tstep_peeks P free t t' : thread_peeks P t -> tstep free t t' -> thread_peeks P t'.
Proof.
  unfold thread_peeks. intros Hp Hs. destruct Hs; cbn in *; try tauto; auto.
  destruct Hp as [Hb Hk]. apply peeks_bind; [done|]. by intros [b|].
Qed.

(** At every moment of a run, a thread has left only accesses that its program started with. *)
Lemma run_peeks {A} (f : A -> prog unit) (P : A -> lock -> Prop) (rs : list A) ts :
  Forall (fun r => peeks (P r) (f r)) rs -> rtc lstep (at_start (f <$> rs)) ts ->
  Forall2 (fun r t => thread_peeks (P r) t) rs ts.
Proof.
  intros Hrs Hr. cut (Forall2 (fun r t => thread_peeks (P r) t) rs (at_start (f <$> rs))).
  - revert Hr. generalize (at_start (f <$> rs)). intros ts0 Hr.
    induction Hr as [|x y z (i & t & t' & Hi & Hs & ->) _ IH]; [done|]. intros H0. apply IH.
    destruct (Forall2_lookup_r _ _ _ _ _ H0 Hi) as (r & Hri & Ht).
    rewrite <- (list_insert_id _ _ _ Hri). apply Forall2_insert; [done|].
    by eapply tstep_peeks.
  - unfold at_start. rewrite Forall2_fmap_r, Forall2_fmap_r. by apply Forall_Forall2_diag.
Qed.
