(* ===== verification/LockUse.v ===== *)
(** What every function of the engine does with mutexes and condition variables, as programs of
    [Locks]: the gate, the queues, the index, the flusher and its two threads, [nox_write] and
    [nox_close]. They keep the discipline, so no interleaving of any number of them deadlocks on
    mutexes, and two threads meet at guarded state only where the code accesses it without the
    mutex: the walks over the index, and a Stage-2 thread on the pages it has taken. *)
From stdpp Require Import base numbers list gmap sets.
From S2P Require Import Prelude Config Segments ScrapPage Heap PageIndex.
From S2P Require Import Locks.

(** * [watermark.c] *)

(** Arming wakes nobody. *)
Definition lk_arm : prog unit :=
  _ ← do (Lock LGate); _ ← do (Touch LGate); do (Unlock LGate).

Definition lk_disarm : prog unit :=
  _ ← do (Lock LGate); _ ← do (Touch LGate); _ ← do (Wake CGate); do (Unlock LGate).

(** Whether there is headroom, and then whether the wait goes on, is up to the level. *)
Definition lk_wait : prog unit :=
  _ ← do (Lock LGate);
  _ ← do (Touch LGate);
  room ← any (T := bool);
  if (room : bool) then do (Unlock LGate) else
  _ ← do (Touch LGate);
  _ ← loop (_ ← do (Touch LGate);
            closed ← any (T := bool);
            if (closed : bool) then _ ← do (Wait CGate); mret None else mret (Some tt));
  _ ← do (Touch LGate);
  do (Unlock LGate).

Definition lk_note_alloc : prog unit :=
  _ ← do (Lock LGate); _ ← do (Touch LGate); do (Unlock LGate).

Definition lk_note_free : prog unit :=
  _ ← do (Lock LGate);
  _ ← do (Touch LGate);
  low ← any (T := bool);
  _ ← (if (low : bool) then do (Wake CGate) else mret tt);
  do (Unlock LGate).

(** [nox_watermark_live], [nox_watermark_blocked_count] and [nox_watermark_blocked_ns]. *)
Definition lk_gate_read : prog unit :=
  _ ← do (Lock LGate); _ ← do (Touch LGate); do (Unlock LGate).

Definition lk_reset_for_test : prog unit :=
  _ ← do (Lock LGate); _ ← do (Touch LGate); _ ← do (Wake CGate); do (Unlock LGate).

(** * [scrap_page.c] *)

(** NULL when an allocation fails. *)
Definition lk_page_alloc : prog (option addr) :=
  p ← any (T := option addr);
  match p with None => mret None | Some a => _ ← lk_note_alloc; mret (Some a) end.

Definition lk_page_free : prog unit := lk_note_free.

(** * [queue.c] *)

Definition lk_push (q : bool) : prog unit :=
  _ ← do (Lock (LQueue q)); _ ← do (Touch (LQueue q)); _ ← do (Wake (CNotEmpty q));
  do (Unlock (LQueue q)).

Definition lk_pop (q : bool) : prog (option addr) :=
  _ ← do (Lock (LQueue q));
  _ ← loop (_ ← do (Touch (LQueue q));
            empty ← any (T := bool);
            if (empty : bool) then _ ← do (Wait (CNotEmpty q)); mret None else mret (Some tt));
  p ← any (T := option addr);
  _ ← do (Touch (LQueue q));
  _ ← do (Unlock (LQueue q));
  mret p.

Definition lk_pop_if_base (q : bool) : prog (option addr) :=
  _ ← do (Lock (LQueue q));
  _ ← do (Touch (LQueue q));
  p ← any (T := option addr);
  _ ← do (Unlock (LQueue q));
  mret p.

Definition lk_shutdown (q : bool) : prog unit :=
  _ ← do (Lock (LQueue q)); _ ← do (Touch (LQueue q)); _ ← do (Wake (CNotEmpty q));
  do (Unlock (LQueue q)).

Definition lk_depth (q : bool) : prog unit :=
  _ ← do (Lock (LQueue q)); _ ← do (Touch (LQueue q)); do (Unlock (LQueue q)).

(** * [page_index.c] *)

Definition shard_of (b : Z) : lock := LShard (pi_shard (pi_hash b)).

(** The page and [*created]; it comes locked. *)
Definition lk_get_or_create (b : Z) : prog (option (addr * bool)) :=
  _ ← do (Lock (shard_of b));
  _ ← do (Touch (shard_of b));
  found ← any (T := option addr);
  match found with
  | Some a =>
      _ ← do (Lock (LPage a)); _ ← do (Unlock (shard_of b)); mret (Some (a, false))
  | None =>
      p ← lk_page_alloc;
      match p with
      | None => _ ← do (Unlock (shard_of b)); mret None
      | Some a =>
          _ ← do (Touch (shard_of b));
          _ ← do (Lock (LPage a));
          _ ← do (Unlock (shard_of b));
          mret (Some (a, true))
      end
  end.

Definition lk_remove (b : Z) : prog unit :=
  _ ← do (Lock (shard_of b));
  _ ← do (Touch (shard_of b));
  found ← any (T := bool);
  _ ← do (Unlock (shard_of b));
  if (found : bool) then lk_page_free else mret tt.

Definition lk_detach_if (b : Z) : prog bool :=
  _ ← do (Lock (shard_of b));
  _ ← do (Touch (shard_of b));
  found ← any (T := bool);
  _ ← do (Unlock (shard_of b));
  mret found.

(** The walk takes no mutex: the head of each bucket, and then the link of each page, is read
    as it is. *)
Definition lk_foreach (fn : addr -> prog unit) : prog unit :=
  loop (bucket ← any (T := option Z);
        match bucket with
        | None => mret (Some tt)
        | Some b =>
            _ ← loop (_ ← do (Peek (LShard (pi_shard b)));
                      p ← any (T := option addr);
                      match p with None => mret (Some tt) | Some a => _ ← fn a; mret None end);
            mret None
        end).

(** The link is read before the page is freed. *)
Definition lk_destroy : prog unit :=
  loop (bucket ← any (T := option Z);
        match bucket with
        | None => mret (Some tt)
        | Some b =>
            _ ← do (Peek (LShard (pi_shard b)));
            _ ← loop (p ← any (T := option addr);
                      match p with
                      | None => mret (Some tt)
                      | Some a => _ ← do (Peek (LShard (pi_shard b))); _ ← lk_page_free; mret None
                      end);
            mret None
        end).

(** * [otflush.c] *)

(** [pending_inc] and [latch_io_error]: an update of the flusher's state. *)
Definition lk_pending_inc : prog unit :=
  _ ← do (Lock LFlusher); _ ← do (Touch LFlusher); do (Unlock LFlusher).

Definition lk_latch_io_error : prog unit :=
  _ ← do (Lock LFlusher); _ ← do (Touch LFlusher); do (Unlock LFlusher).

Definition lk_pending_dec : prog unit :=
  _ ← do (Lock LFlusher);
  _ ← do (Touch LFlusher);
  last ← any (T := bool);
  _ ← (if (last : bool) then do (Wake CIdle) else mret tt);
  do (Unlock LFlusher).

Definition lk_guard_enter : prog unit :=
  _ ← do (Lock LFlusher); _ ← do (Touch LFlusher); do (Unlock LFlusher).

Definition lk_guard_leave : prog unit :=
  _ ← do (Lock LFlusher); _ ← do (Touch LFlusher); _ ← do (Wake CWbDone); do (Unlock LFlusher).

Definition lk_guard_wait : prog unit :=
  _ ← do (Lock LFlusher);
  _ ← loop (_ ← do (Touch LFlusher);
            pending ← any (T := bool);
            if (pending : bool) then _ ← do (Wait CWbDone); mret None else mret (Some tt));
  do (Unlock LFlusher).

(** The counter itself is atomic. *)
Definition lk_bcount_sub : prog unit :=
  _ ← do (Lock LFlusher); _ ← do (Wake CNotBusy); do (Unlock LFlusher).

Definition lk_wait_not_busy : prog unit :=
  _ ← do (Lock LFlusher);
  _ ← do (Touch LFlusher);
  stopping ← any (T := bool);
  _ ← (if (stopping : bool) then mret tt else do (Wait CNotBusy));
  do (Unlock LFlusher).

(** The caller holds the page; the notice asks the queue for its depth. *)
Definition lk_enqueue_partial (a : addr) : prog unit :=
  _ ← do (Touch (LPage a));
  queued ← any (T := bool);
  if (queued : bool) then mret tt else
  _ ← do (Touch (LPage a));
  _ ← lk_pending_inc;
  _ ← lk_push false;
  lk_depth false.

Definition lk_enqueue_full (a : addr) : prog unit :=
  _ ← do (Touch (LPage a));
  queued ← any (T := bool);
  if (queued : bool) then mret tt else
  _ ← do (Touch (LPage a));
  _ ← lk_pending_inc;
  _ ← lk_guard_enter;
  _ ← lk_push true;
  lk_depth true.

(** One round of the Stage-1 thread; [Some tt] when the queue is shut down and empty. *)
Definition lk_stage1_round : prog (option unit) :=
  p ← lk_pop false;
  match p with
  | None => mret (Some tt)
  | Some a =>
      _ ← do (Lock (LPage a));
      _ ← do (Touch (LPage a));
      full ← any (T := bool);
      if (full : bool) then
        _ ← do (Unlock (LPage a)); _ ← lk_guard_enter; _ ← lk_push true; mret None
      else
      busy ← any (T := bool);
      if (busy : bool) then
        _ ← do (Unlock (LPage a)); _ ← lk_push false; _ ← lk_wait_not_busy; mret None
      else
      _ ← do (Touch (LPage a));
      _ ← do (Unlock (LPage a));
      _ ← lk_guard_wait;
      _ ← lk_bcount_sub;
      _ ← do (Lock (LPage a));
      read ← any (T := bool);
      if negb read then
        _ ← lk_latch_io_error;
        _ ← do (Touch (LPage a));
        _ ← do (Unlock (LPage a));
        _ ← lk_pending_dec;
        mret None
      else
      _ ← do (Touch (LPage a));
      _ ← do (Unlock (LPage a));
      _ ← lk_guard_enter;
      _ ← lk_push true;
      mret None
  end.

Definition lk_stage1_loop : prog unit :=
  scratch ← any (T := bool);
  if (scratch : bool) then loop lk_stage1_round else lk_latch_io_error.

(** The page was detached before, or is unlinked under the mutex of its shard; the field that
    says so is read and written without the mutex of the page, under which the page is marked. *)
Definition lk_stage2_detach (b : Z) (a : addr) : prog unit :=
  _ ← do (Peek (LPage a));
  detached ← any (T := bool);
  _ ← (if (detached : bool) then mret tt else _ ← lk_detach_if b; do (Peek (LPage a)));
  _ ← do (Lock (LPage a));
  _ ← do (Touch (LPage a));
  do (Unlock (LPage a)).

(** How a round of the loop of [stage2_collect] ends is open: the batch is full, no page fits,
    or one more was taken. *)
Definition lk_stage2_collect : prog unit :=
  loop (more ← any (T := bool);
        if negb more then mret (Some tt) else
        p ← lk_pop_if_base true;
        match p with
        | None => mret (Some tt)
        | Some a =>
            _ ← do (Lock (LPage a));
            _ ← do (Touch (LPage a));
            ready ← any (T := bool);
            _ ← do (Unlock (LPage a));
            if negb ready then _ ← lk_push true; mret (Some tt) else mret None
        end).

(** A loop over the batch: on each of its pages and their bases in turn. *)
Definition lk_batch (f : Z -> addr -> prog unit) : prog unit :=
  loop (p ← any (T := option (Z * addr));
        match p with None => mret (Some tt) | Some (b, a) => _ ← f b a; mret None end).

(** The data of a page is written to the file without its mutex. *)
Definition lk_stage2_round : prog (option unit) :=
  p ← lk_pop true;
  match p with
  | None => mret (Some tt)
  | Some _ =>
      busy ← any (T := bool);
      if (busy : bool) then _ ← lk_push true; _ ← lk_wait_not_busy; mret None else
      _ ← lk_stage2_collect;
      _ ← lk_batch lk_stage2_detach;
      _ ← lk_batch (fun _ a => do (Peek (LPage a)));
      _ ← lk_bcount_sub;
      written ← any (T := bool);
      _ ← (if (written : bool) then mret tt else lk_latch_io_error);
      _ ← lk_batch (fun _ _ => _ ← lk_page_free; _ ← lk_guard_leave; lk_pending_dec);
      mret None
  end.

Definition lk_stage2_loop : prog unit := loop lk_stage2_round.

Definition lk_drain : prog unit :=
  _ ← do (Lock LFlusher);
  _ ← loop (_ ← do (Touch LFlusher);
            pending ← any (T := bool);
            if (pending : bool) then _ ← do (Wait CIdle); mret None else mret (Some tt));
  _ ← do (Touch LFlusher);
  do (Unlock LFlusher).

Definition lk_join_all : prog unit :=
  loop (more ← any (T := bool);
        if (more : bool) then _ ← do Join; mret None else mret (Some tt)).

(** A start that fails after the first thread was created shuts the queues down and joins. *)
Definition lk_otflush_start : prog bool :=
  started ← any (T := bool);
  if (started : bool) then mret true else
  threads ← any (T := bool);
  if (threads : bool) then
    _ ← lk_shutdown false; _ ← lk_shutdown true; _ ← lk_join_all; mret false
  else mret false.

Definition lk_stop : prog unit :=
  _ ← lk_drain;
  _ ← do (Lock LFlusher);
  _ ← do (Touch LFlusher);
  _ ← do (Wake CNotBusy);
  _ ← do (Unlock LFlusher);
  _ ← lk_shutdown false;
  _ ← lk_join_all;
  _ ← lk_shutdown true;
  _ ← lk_join_all;
  _ ← do (Lock LFlusher);
  _ ← do (Touch LFlusher);
  do (Unlock LFlusher).

(** * [noxdb.c] *)

Definition lk_nox_open : prog unit :=
  ready ← any (T := bool);
  if negb ready then mret tt else
  started ← lk_otflush_start;
  if (started : bool) then lk_arm else lk_destroy.

(** A round of the loop of [scrap_write_chunk]: [Some] of whether it succeeded on return. *)
Definition lk_write_round (b : Z) : prog (option bool) :=
  _ ← lk_wait;
  r ← lk_get_or_create b;
  match r with
  | None => mret (Some false)
  | Some (a, created) =>
      _ ← do (Touch (LPage a));
      sealed ← any (T := bool);
      if (sealed : bool) then _ ← do (Unlock (LPage a)); _ ← lk_detach_if b; mret None else
      _ ← do (Touch (LPage a));
      overflow ← any (T := bool);
      if (overflow : bool) then
        _ ← do (Touch (LPage a));
        _ ← lk_enqueue_partial a;
        _ ← do (Unlock (LPage a));
        _ ← lk_detach_if b;
        mret None
      else
      full ← any (T := bool);
      _ ← (if (full : bool) then lk_enqueue_full a
           else if (created : bool) then lk_enqueue_partial a else mret tt);
      _ ← do (Unlock (LPage a));
      mret (Some true)
  end.

Definition lk_write_chunk (b : Z) : prog bool := loop (lk_write_round b).

(** A call, on the direct path or chunk after chunk. *)
Definition lk_nox_write : prog unit :=
  direct ← any (T := bool);
  if (direct : bool) then mret tt else
  loop (more ← any (T := option Z);
        match more with
        | None => mret (Some tt)
        | Some b => ok ← lk_write_chunk b; if (ok : bool) then mret None else mret (Some tt)
        end).

(** A thread of the application: any number of calls. *)
Definition lk_caller : prog unit :=
  loop (more ← any (T := bool);
        if (more : bool) then _ ← lk_nox_write; mret None else mret (Some tt)).

Definition lk_enqueue_one (a : addr) : prog unit :=
  _ ← do (Lock (LPage a));
  _ ← do (Touch (LPage a));
  full ← any (T := bool);
  _ ← (if (full : bool) then lk_enqueue_full a else lk_enqueue_partial a);
  do (Unlock (LPage a)).

Definition lk_nox_close : prog unit :=
  _ ← lk_disarm;
  _ ← lk_drain;
  _ ← lk_foreach lk_enqueue_one;
  _ ← lk_stop;
  lk_destroy.

(** * Every function keeps the discipline *)

Lemma give_back l (H : gset lock) : l ∉ H -> ({[l]} ∪ H) ∖ {[l]} = H.
Proof. set_solver. Qed.

Lemma holds_nothing (l : lock) : {[l]} ∖ {[l]} = (∅ : gset lock).
Proof. set_solver. Qed.

Lemma holds_one (l : lock) : {[l]} ∪ ∅ = ({[l]} : gset lock).
Proof. set_solver. Qed.

(** Mutexes that may be held when one of the last rank is taken. *)
Definition low (H : gset lock) : Prop := forall l, l ∈ H -> (rank l < 2)%nat.

Lemma low_not_in H l : low H -> rank l = 2%nat -> l ∉ H.
Proof. intros Hl Hr Hin. apply Hl in Hin. lia. Qed.

Lemma low_empty : low ∅.
Proof. intros l Hl. set_solver. Qed.

Lemma low_one l : (rank l < 2)%nat -> low {[l]}.
Proof. intros Hr l' ->%elem_of_singleton. done. Qed.

(** A function that can be called with any mutexes of lower rank, and gives back what it takes. *)
Definition leaf {R} (p : prog R) : Prop := forall H, low H -> safe p H (fun _ H' => H' = H).

(** A function called and left with no mutex. *)
Definition balanced {R} (p : prog R) : Prop := safe p ∅ (fun _ H' => H' = ∅).

Lemma low_add l H : (rank l < 2)%nat -> low H -> low ({[l]} ∪ H).
Proof. intros Hr Hl l' [->%elem_of_singleton|Hin]%elem_of_union; [done|by apply Hl]. Qed.

Lemma rank_page a : (rank (LPage a) < 2)%nat.
Proof. cbn. lia. Qed.

Lemma rank_shard b : (rank (shard_of b) < 2)%nat.
Proof. cbn. lia. Qed.

Lemma leaf_use {R} (p : prog R) H : leaf p -> low H -> safe p H (fun _ H' => H' = H).
Proof. intros Hp. apply Hp. Qed.

Lemma balanced_use {R} (p : prog R) : balanced p -> safe p ∅ (fun _ H' => H' = ∅).
Proof. done. Qed.

Create HintDb locks.
#[export] Hint Resolve low_empty low_one low_add rank_page rank_shard leaf_use balanced_use : locks.

Ltac lk_act :=
  cbn [act_ok act_held cond_lock];
  match goal with
  | |- forall l', l' ∈ ?H -> (rank l' < rank _)%nat =>
      let l' := fresh "l'" in let Hl' := fresh "Hl'" in
      intros l' Hl'; first
        [ match goal with Hlow : low H |- _ => exact (Hlow l' Hl') end
        | rewrite ?elem_of_union, ?elem_of_singleton in Hl';
          repeat (destruct Hl' as [Hl'|Hl']); subst; cbn; first [lia | set_solver] ]
  | _ => set_solver
  end.

(** One step through a program: an action, a branch, a call of a function already treated. *)
Ltac lk_step :=
  match goal with
  | |- safe (mbind _ _) _ _ => apply safe_bind
  | |- safe (do _) _ _ => split; [lk_act | cbn [act_held cond_lock safe]; rewrite ?holds_one, ?holds_nothing]
  | |- safe any _ _ => let x := fresh "x" in intros x; cbn [safe]
  | |- safe (mret _) _ _ => cbn [mret prog_ret safe]
  | |- safe (loop _) _ _ => unfold loop; cbn [safe]
  | |- safe (Loop _ _) _ _ => cbn [safe]
  | |- safe (if ?b then _ else _) _ _ => destruct b
  | |- safe (match ?x with Some _ => _ | None => _ end) _ _ => let y := fresh "y" in destruct x as [y|]; cbn beta iota
  | |- safe (match ?x with pair _ _ => _ end) _ _ => destruct x; cbn beta iota
  | |- safe _ _ _ => eapply safe_mono; [solve [auto with locks] | cbn beta; intros ? ? ->]
  end.

Ltac lk_done :=
  match goal with
  | |- _ ∖ _ = _ =>
      first [ rewrite give_back; [done|solve [eapply low_not_in; eauto | set_solver]] | set_solver ]
  | |- _ = _ => first [done | set_solver]
  end.

Ltac lk := repeat lk_step; try lk_done.


Lemma note_alloc_leaf : leaf lk_note_alloc.
Proof. intros H Hl. unfold lk_note_alloc. lk. Qed.

Lemma note_free_leaf : leaf lk_note_free.
Proof. intros H Hl. unfold lk_note_free. lk. Qed.

Lemma push_leaf (q : bool) : leaf (lk_push q).
Proof. intros H Hl. unfold lk_push. lk. Qed.

Lemma pop_if_base_leaf (q : bool) : leaf (lk_pop_if_base q).
Proof. intros H Hl. unfold lk_pop_if_base. lk. Qed.

Lemma shutdown_leaf (q : bool) : leaf (lk_shutdown q).
Proof. intros H Hl. unfold lk_shutdown. lk. Qed.

Lemma depth_leaf (q : bool) : leaf (lk_depth q).
Proof. intros H Hl. unfold lk_depth. lk. Qed.

Lemma pending_inc_leaf : leaf lk_pending_inc.
Proof. intros H Hl. unfold lk_pending_inc. lk. Qed.

Lemma latch_io_error_leaf : leaf lk_latch_io_error.
Proof. intros H Hl. unfold lk_latch_io_error. lk. Qed.

Lemma pending_dec_leaf : leaf lk_pending_dec.
Proof. intros H Hl. unfold lk_pending_dec. lk. Qed.

Lemma guard_enter_leaf : leaf lk_guard_enter.
Proof. intros H Hl. unfold lk_guard_enter. lk. Qed.

Lemma guard_leave_leaf : leaf lk_guard_leave.
Proof. intros H Hl. unfold lk_guard_leave. lk. Qed.

Lemma bcount_sub_leaf : leaf lk_bcount_sub.
Proof. intros H Hl. unfold lk_bcount_sub. lk. Qed.

#[export] Hint Resolve note_alloc_leaf note_free_leaf push_leaf pop_if_base_leaf shutdown_leaf
  depth_leaf pending_inc_leaf latch_io_error_leaf pending_dec_leaf guard_enter_leaf
  guard_leave_leaf bcount_sub_leaf : locks.

Lemma page_free_leaf : leaf lk_page_free.
Proof. exact note_free_leaf. Qed.

Lemma page_alloc_leaf : leaf lk_page_alloc.
Proof. intros H Hl. unfold lk_page_alloc. lk. Qed.

#[export] Hint Resolve page_free_leaf page_alloc_leaf : locks.

(** ** What sleeps is called with nothing held *)

Lemma arm_balanced : balanced lk_arm.
Proof. unfold balanced, lk_arm. lk. Qed.

Lemma gate_read_balanced : balanced lk_gate_read.
Proof. unfold balanced, lk_gate_read. lk. Qed.

Lemma reset_balanced : balanced lk_reset_for_test.
Proof. unfold balanced, lk_reset_for_test. lk. Qed.

Lemma disarm_balanced : balanced lk_disarm.
Proof. unfold balanced, lk_disarm. lk. Qed.

Lemma wait_balanced : balanced lk_wait.
Proof. unfold balanced, lk_wait. lk. Qed.

Lemma guard_wait_balanced : balanced lk_guard_wait.
Proof. unfold balanced, lk_guard_wait. lk. Qed.

Lemma wait_not_busy_balanced : balanced lk_wait_not_busy.
Proof. unfold balanced, lk_wait_not_busy. lk. Qed.

Lemma drain_balanced : balanced lk_drain.
Proof. unfold balanced, lk_drain. lk. Qed.

Lemma join_all_balanced : balanced lk_join_all.
Proof. unfold balanced, lk_join_all. lk. Qed.

Lemma pop_balanced (q : bool) : balanced (lk_pop q).
Proof. unfold balanced, lk_pop. lk. Qed.

#[export] Hint Resolve disarm_balanced wait_balanced guard_wait_balanced wait_not_busy_balanced
  drain_balanced join_all_balanced pop_balanced : locks.

(** ** With a page locked *)

Lemma enqueue_partial_page a : safe (lk_enqueue_partial a) {[LPage a]} (fun _ H' => H' = {[LPage a]}).
Proof. unfold lk_enqueue_partial. lk. Qed.

Lemma enqueue_full_page a : safe (lk_enqueue_full a) {[LPage a]} (fun _ H' => H' = {[LPage a]}).
Proof. unfold lk_enqueue_full. lk. Qed.

#[export] Hint Resolve enqueue_partial_page enqueue_full_page : locks.

(** The page comes back locked and the shard does not. *)
Lemma get_or_create_page b :
  safe (lk_get_or_create b) ∅
    (fun r H' => H' = match r with Some (a, _) => {[LPage a]} | None => ∅ end).
Proof. unfold lk_get_or_create. lk. Qed.

Lemma detach_if_balanced b : balanced (lk_detach_if b).
Proof. unfold balanced, lk_detach_if. lk. Qed.

Lemma remove_balanced b : balanced (lk_remove b).
Proof. unfold balanced, lk_remove. lk. Qed.

Lemma foreach_balanced f : (forall a, balanced (f a)) -> balanced (lk_foreach f).
Proof. intros Hf. unfold balanced, lk_foreach. lk. Qed.

Lemma destroy_balanced : balanced lk_destroy.
Proof. unfold balanced, lk_destroy. lk. Qed.

#[export] Hint Resolve get_or_create_page detach_if_balanced remove_balanced destroy_balanced : locks.

(** ** The threads *)

Lemma stage1_balanced : balanced lk_stage1_loop.
Proof. unfold balanced, lk_stage1_loop, lk_stage1_round. lk. Qed.

Lemma stage2_detach_balanced b a : balanced (lk_stage2_detach b a).
Proof. unfold balanced, lk_stage2_detach. lk. Qed.

Lemma stage2_collect_balanced : balanced lk_stage2_collect.
Proof. unfold balanced, lk_stage2_collect. lk. Qed.

Lemma batch_balanced f : (forall b a, balanced (f b a)) -> balanced (lk_batch f).
Proof. intros Hf. unfold balanced, lk_batch. lk. Qed.

Lemma stage2_balanced : balanced lk_stage2_loop.
Proof.
  pose proof (batch_balanced _ stage2_detach_balanced).
  assert (Hfree : forall (b : Z) (a : addr), balanced (_ ← lk_page_free; _ ← lk_guard_leave; lk_pending_dec))
    by (intros; unfold balanced; lk).
  assert (Hdata : forall (b : Z) (a : addr), balanced (do (Peek (LPage a)))) by (intros; unfold balanced; lk).
  pose proof (batch_balanced _ Hfree). pose proof (batch_balanced _ Hdata). pose proof stage2_collect_balanced.
  unfold balanced, lk_stage2_loop, lk_stage2_round. lk.
Qed.

Lemma write_chunk_balanced b : balanced (lk_write_chunk b).
Proof. unfold balanced, lk_write_chunk, lk_write_round. lk. Qed.

#[export] Hint Resolve write_chunk_balanced : locks.

Lemma nox_write_balanced : balanced lk_nox_write.
Proof. unfold balanced, lk_nox_write. lk. Qed.

#[export] Hint Resolve nox_write_balanced : locks.

Lemma caller_balanced : balanced lk_caller.
Proof. unfold balanced, lk_caller. lk. Qed.

Lemma enqueue_one_balanced a : balanced (lk_enqueue_one a).
Proof. unfold balanced, lk_enqueue_one. lk. Qed.

Lemma stop_balanced : balanced lk_stop.
Proof. unfold balanced, lk_stop. lk. Qed.

Lemma close_balanced : balanced lk_nox_close.
Proof.
  pose proof (foreach_balanced _ enqueue_one_balanced). pose proof stop_balanced.
  unfold balanced, lk_nox_close. lk.
Qed.

Lemma otflush_start_balanced : balanced lk_otflush_start.
Proof.
  assert (forall q : bool, balanced (lk_shutdown q)) by (intros; apply shutdown_leaf, low_empty).
  unfold balanced, lk_otflush_start. lk.
Qed.

Lemma open_balanced : balanced lk_nox_open.
Proof.
  pose proof otflush_start_balanced. pose proof arm_balanced. unfold balanced, lk_nox_open. lk.
Qed.

(** * Any number of threads *)

Inductive role := Opener | Caller | Stage1 | Stage2 | Closer | Reader | Resetter.

Definition lk_role (r : role) : prog unit :=
  match r with
  | Opener => lk_nox_open
  | Caller => lk_caller | Stage1 => lk_stage1_loop | Stage2 => lk_stage2_loop
  | Closer => lk_nox_close
  | Reader => lk_gate_read | Resetter => lk_reset_for_test
  end.

Lemma roles_safe (rs : list role) : Forall (fun p => safe p ∅ ends) (lk_role <$> rs).
Proof.
  apply Forall_fmap, Forall_true. intros []; [exact open_balanced|exact caller_balanced|
    exact stage1_balanced|exact stage2_balanced|exact close_balanced|exact gate_read_balanced|
    exact reset_balanced].
Qed.

(** What each thread accesses without the mutex: a Stage-2 thread a page, the walks of
    [nox_close], and the one of a [nox_open] that fails, the chains of the index. *)
Definition role_peeks (r : role) (l : lock) : Prop :=
  match r, l with
  | Stage2, LPage _ | Opener, LShard _ | Closer, LShard _ => True
  | _, _ => False
  end.

Ltac pk_step :=
  match goal with
  | |- peeks _ (mbind _ _) => apply peeks_bind; [|intros ?]
  | |- peeks _ (do _) => split; exact I
  | |- peeks _ any => intros ?; exact I
  | |- peeks _ (mret _) => exact I
  | |- peeks _ (loop _) => split; [|intros ?; exact I]
  | |- peeks _ (if ?b then _ else _) => destruct b
  | |- peeks _ (match ?x with Some _ => _ | None => _ end) => destruct x
  | |- peeks _ (match ?x with pair _ _ => _ end) => destruct x
  end.

(** Through the functions that are called. *)
Ltac pk_call :=
  match goal with
  | |- peeks _ (?f _ _) => unfold f
  | |- peeks _ (?f _) => unfold f
  | |- peeks _ ?f => unfold f
  end.

Ltac pk := repeat (first [pk_step | pk_call]; cbn beta iota).

Lemma roles_peek (rs : list role) : Forall (fun r => peeks (role_peeks r) (lk_role r)) rs.
Proof. apply Forall_true. intros []; unfold lk_role; pk. Qed.

(** Thread [i] accesses, without the mutex [l], state that [l] guards; it is one of those above. *)
Definition unguarded (rs : list role) (ts : list thread) (i : nat) (l : lock) : Prop :=
  exists t r, ts !! i = Some t /\ rs !! i = Some r /\ peeking t l /\ role_peeks r l.

Lemma run_unguarded rs ts i t l :
  rtc lstep (at_start (lk_role <$> rs)) ts -> ts !! i = Some t -> peeking t l -> unguarded rs ts i l.
Proof.
  intros Hr Ht Hp. pose proof (run_peeks _ _ _ _ (roles_peek rs) Hr) as H2.
  destruct (Forall2_lookup_r _ _ _ _ _ H2 Ht) as (r & Hri & Hpk). exists t, r. split_and!; [done..|].
  unfold peeking, thread_peeks in *.
  destruct (state t) as [[?|[] k|? ? k|? ? k]|? k|k]; try done. subst. apply Hpk.
Qed.

(** C11: The mutexes of the engine never deadlock, and what two threads can access at once is
    known. Let any number of threads run, each a caller making calls, a Stage-1 or a Stage-2
    thread, a caller in [nox_open] or [nox_close] or one that reads or resets the gate,
    interleaved at each single operation on a mutex or a condition variable and each access, with
    any outcome of every test on data and with spurious wake-ups. In every state they reach,
    unless each thread has ended, sleeps on a condition variable or waits in a join, some thread
    that does not can move; a thread that has ended, sleeps or joins holds no mutex, so the gate
    and the queues are waited on with nothing held. When two threads are about to access state
    guarded by the same mutex, at least one of them does so without it, and then it is a Stage-2
    thread at the mark or the data of a page, or [nox_close] or a failed [nox_open] walking over
    the index: never two threads at the gate, a queue or the flusher's state. *)
Theorem locks_never_deadlock (rs : list role) (ts : list thread) :
  rtc lstep (at_start (lk_role <$> rs)) ts ->
  (Forall resting ts \/
   exists i t t', ts !! i = Some t /\ ~ resting t /\ tstep (is_free ts) t t') /\
  (forall i t, ts !! i = Some t -> resting t -> held t = ∅) /\
  (forall i t l, ts !! i = Some t -> touching t l -> l ∈ held t) /\
  (forall i j t u l, i <> j -> ts !! i = Some t -> ts !! j = Some u ->
     accessing t l -> accessing u l -> unguarded rs ts i l \/ unguarded rs ts j l).
Proof.
  intros Hr. pose proof (locks_run_inv _ _ (roles_safe rs) Hr) as Hi. split_and!.
  - by apply locks_no_deadlock.
  - intros i t Ht Hrt. apply resting_held; [|done]. destruct Hi as [Hok _]. by eapply Forall_lookup_1.
  - intros i t l. by apply touch_held.
  - intros i j t u l Hne Ht Hu [At|At] [Au|Au]; eauto using run_unguarded.
    by destruct Hne; eapply (touch_alone ts).
Qed.

(** One step of thread [i], by the given rule. *)
Ltac run_at i c := eapply rtc_l; [exists i; do 2 eexists; split; [reflexivity|]; split; [c|reflexivity]|]; cbn.
Ltac run_one c := run_at 0%nat c.
Ltac run_two c := run_at 1%nat c.

Ltac alone := repeat (apply Forall_cons; split; [cbn; set_solver|]); apply Forall_nil; exact I.

(** A caller that finds the page it looks for holds the mutex of the shard and that of the page
    at once: the two are taken in this order, and not, as the comment in [scrap_page_alloc] has
    it, never together. *)
Lemma shard_and_page_held (b : Z) (a : addr) :
  exists t ts, rtc lstep (at_start (lk_role <$> [Caller; Stage1])) (t :: ts) /\
    held t = {[LPage a; shard_of b]}.
Proof.
  do 2 eexists. split.
  - unfold at_start. cbn [fmap list_fmap lk_role]. unfold lk_caller, loop.
    run_one ltac:(apply t_loop).
    run_one ltac:(apply (t_pick _ _ _ _ true)).
    run_one ltac:(apply (t_pick _ _ _ _ false)).
    run_one ltac:(apply t_loop).
    run_one ltac:(apply (t_pick _ _ _ _ (Some b))).
    run_one ltac:(apply t_loop).
    run_one ltac:(apply t_lock; alone).
    run_one ltac:(apply t_touch).
    run_one ltac:(apply (t_pick _ _ _ _ true)).
    run_one ltac:(apply t_unlock; set_solver).
    run_one ltac:(apply t_lock; alone).
    run_one ltac:(apply t_touch).
    run_one ltac:(apply (t_pick _ _ _ _ (Some a))).
    run_one ltac:(apply t_lock; alone).
    apply rtc_refl.
  - cbn. set_solver.
Qed.

(** The walk of [nox_close] does meet a Stage-2 thread: the one is about to read a chain of the
    index, with no mutex, that the other is about to unlink a page from. *)
Lemma closer_walk_meets_stage2 (b : Z) (a : addr) :
  exists t u, rtc lstep (at_start (lk_role <$> [Closer; Stage2])) [t; u] /\
    peeking t (shard_of b) /\ touching u (shard_of b).
Proof.
  do 2 eexists. split.
  - unfold at_start. cbn [fmap list_fmap lk_role]. unfold lk_nox_close, lk_stage2_loop, loop.
    run_one ltac:(apply t_lock; alone). run_one ltac:(apply t_touch).
    run_one ltac:(apply t_wake). run_one ltac:(apply t_unlock; set_solver).
    run_one ltac:(apply t_lock; alone). run_one ltac:(apply t_loop).
    run_one ltac:(apply t_touch). run_one ltac:(apply (t_pick _ _ _ _ false)).
    run_one ltac:(apply t_touch). run_one ltac:(apply t_unlock; set_solver).
    run_one ltac:(apply t_loop). run_one ltac:(apply (t_pick _ _ _ _ (Some (pi_hash b)))).
    run_one ltac:(apply t_loop).
    run_two ltac:(apply t_loop). run_two ltac:(apply t_lock; alone).
    run_two ltac:(apply t_loop). run_two ltac:(apply t_touch).
    run_two ltac:(apply (t_pick _ _ _ _ false)). run_two ltac:(apply (t_pick _ _ _ _ (Some a))).
    run_two ltac:(apply t_touch). run_two ltac:(apply t_unlock; set_solver).
    run_two ltac:(apply (t_pick _ _ _ _ false)).
    run_two ltac:(apply t_loop). run_two ltac:(apply (t_pick _ _ _ _ false)).
    run_two ltac:(apply t_loop). run_two ltac:(apply (t_pick _ _ _ _ (Some (b, a)))).
    run_two ltac:(apply t_peek). run_two ltac:(apply (t_pick _ _ _ _ false)).
    run_two ltac:(apply t_lock; alone).
    apply rtc_refl.
  - by split.
Qed.

Lemma locks_never_deadlock_witness :
  exists t ts, rtc lstep (at_start (lk_role <$> [Caller; Stage1])) (t :: ts) /\
    held t = {[LPage 1%positive; shard_of 0]} /\
    (Forall resting (t :: ts) \/
     exists i u u', (t :: ts) !! i = Some u /\ ~ resting u /\ tstep (is_free (t :: ts)) u u').
Proof.
  destruct (shard_and_page_held 0 1%positive) as (t & ts & Hr & Hh). exists t, ts.
  split; [exact Hr|]. split; [exact Hh|].
  exact (proj1 (locks_never_deadlock [Caller; Stage1] (t :: ts) Hr)).
Defined.
