(* ===== verification/Coupling.v ===== *)
(** Lock coupling. The life of the pages when the mutexes of the shards and of the pages are taken
    and given back one at a time, by any number of callers, Stage-1 threads and Stage-2 threads:
    the index, the two queues and the flags of the pages, with what the bytes of a page decide
    left open. No thread ever locks, holds or owns a page that has been freed. *)
From stdpp Require Import base numbers list gmap sets relations.
From S2P Require Import Prelude Config Segments ScrapPage Heap PageIndex.

(** * State *)

(** Of a page: its base, [in_queue] and [detached]. *)
Record kpage := mk_kpage { k_base : Z; k_queued : bool; k_detached : bool }.

(** The pages not freed, those linked in the chains of the index, and the two queues. *)
Record kshared := mk_k {
  k_live : gmap addr kpage;
  k_linked : gset addr;
  k_q1 : list addr;
  k_q2 : list addr
}.

(** Where a thread is. Callers, in [scrap_write_chunk] and [page_index_get_or_create]: outside;
    in the bucket, with the shard; with the shard and a page found, or a fresh one linked, about
    to take its mutex; with both; with the page; with the page, done with it; about to unlink it,
    without and with the shard. *)
Inductive pc :=
| KIdle
| KLookup (b : Z)
| KFound (b : Z) (a : addr) (created : bool)
| KBoth (b : Z) (a : addr) (created : bool)
| KMerge (b : Z) (a : addr) (created : bool)
| KLeave (b : Z) (a : addr) (detach : bool)
| KDetach (b : Z) (a : addr)
| KUnlink (b : Z) (a : addr)
(** Stage-1: waiting at Queue-1; about to take the mutex of the page; with it; reading its holes
    without it; with it again; about to push it on a queue. *)
| K1Pop
| K1Lock (a : addr)
| K1Held (a : addr)
| K1Read (a : addr)
| K1Again (a : addr)
| K1Push (second : bool) (a : addr)
(** Stage-2: waiting at Queue-2; with a page popped, before it looks whether the disk is busy;
    collecting; about to look at a page, and looking; about to put it back; about to
    detach the first page of a list, the pages of another being detached already; with the shard;
    about to mark it, and marking; freeing. *)
| K2Pop
| K2Took (a : addr)
| K2Busy (a : addr)
| K2Collect (batch : list addr)
| K2Peek (batch : list addr) (a : addr)
| K2Look (batch : list addr) (a : addr)
| K2Return (batch : list addr) (a : addr)
| K2Detach (todo done : list addr)
| K2Unlink (b : Z) (a : addr) (todo done : list addr)
| K2Lock (a : addr) (todo done : list addr)
| K2Mark (a : addr) (todo done : list addr)
| K2Free (done : list addr).

Definition kshard (b : Z) : Z := pi_shard (pi_hash b).

(** The shard whose mutex the thread holds. *)
Definition shard_held (c : pc) : option Z :=
  match c with
  | KLookup b | KFound b _ _ | KBoth b _ _ | KUnlink b _ | K2Unlink b _ _ _ => Some (kshard b)
  | _ => None
  end.

(** The page whose mutex it holds. *)
Definition page_held (c : pc) : option addr :=
  match c with
  | KBoth _ a _ | KMerge _ a _ | KLeave _ a _ | K1Held a | K1Again a | K2Look _ a
  | K2Mark a _ _ => Some a
  | _ => None
  end.

(** The page a caller has locked or is about to lock. *)
Definition sees (c : pc) : option addr :=
  match c with
  | KFound _ a _ | KBoth _ a _ | KMerge _ a _ | KLeave _ a _ => Some a
  | _ => None
  end.

(** The pages a background thread has taken from a queue. *)
Definition owned (c : pc) : list addr :=
  match c with
  | K1Lock a | K1Held a | K1Read a | K1Again a | K1Push _ a | K2Took a | K2Busy a => [a]
  | K2Collect batch => batch
  | K2Peek batch a | K2Look batch a | K2Return batch a => a :: batch
  | K2Detach todo done => todo ++ done
  | K2Unlink _ a todo done | K2Lock a todo done | K2Mark a todo done => a :: todo ++ done
  | K2Free done => done
  | _ => []
  end.

(** Those of them that it has detached and marked, and will free. *)
Definition doomed (c : pc) : list addr :=
  match c with
  | K2Detach _ done | K2Unlink _ _ _ done | K2Lock _ _ done | K2Mark _ _ done | K2Free done => done
  | _ => []
  end.

(** The thread holds the page's mutex, is about to take it, or owns the page. *)
Definition reaches (c : pc) (a : addr) : Prop :=
  page_held c = Some a \/ sees c = Some a \/ a ∈ owned c.

(** * Steps *)

Definition set_queued (q : bool) (p : kpage) : kpage := mk_kpage (k_base p) q (k_detached p).
Definition mark_detached (p : kpage) : kpage := mk_kpage (k_base p) (k_queued p) true.

Definition upd (a : addr) (f : kpage -> kpage) (s : kshared) : kshared :=
  mk_k (alter f a (k_live s)) (k_linked s) (k_q1 s) (k_q2 s).

Definition kpush (second : bool) (a : addr) (s : kshared) : kshared :=
  if second then mk_k (k_live s) (k_linked s) (k_q1 s) (k_q2 s ++ [a])
  else mk_k (k_live s) (k_linked s) (k_q1 s ++ [a]) (k_q2 s).

(** [otflush_enqueue_partial] and [otflush_enqueue_full]: nothing for a page in a queue. *)
Definition kenqueue (second : bool) (a : addr) (s : kshared) : option kshared :=
  p ← k_live s !! a;
  Some (if k_queued p then s else kpush second a (upd a (set_queued true) s)).

(** [page_index_detach_if] in the bucket of [b]: the page is compared by its address. *)
Definition kunlink (b : Z) (a : addr) (s : kshared) : kshared :=
  match k_live s !! a with
  | Some p => if pi_hash (k_base p) =? pi_hash b
              then mk_k (k_live s) (k_linked s ∖ {[a]}) (k_q1 s) (k_q2 s) else s
  | None => s
  end.

(** [sf] and [pf] tell which mutexes, of shards and of pages, are free. *)
Section Moves.
Variables (sf : Z -> Prop) (pf : addr -> Prop).

Definition k_missing (b : Z) (s : kshared) : Prop :=
  forall a p, a ∈ k_linked s -> k_live s !! a = Some p -> k_base p <> b.

(** A caller. The address of a fresh page is any that is not in use, so an address freed may come
    back. *)
Inductive caller_move : kshared -> pc -> kshared -> pc -> Prop :=
| c_enter s b : sf (kshard b) -> caller_move s KIdle s (KLookup b)
| c_found s b a p : a ∈ k_linked s -> k_live s !! a = Some p -> k_base p = b ->
    caller_move s (KLookup b) s (KFound b a false)
| c_oom s b : k_missing b s -> caller_move s (KLookup b) s KIdle
| c_fresh s b a : k_missing b s -> k_live s !! a = None ->
    caller_move s (KLookup b)
      (mk_k (<[a := mk_kpage b false false]> (k_live s)) ({[a]} ∪ k_linked s) (k_q1 s) (k_q2 s))
      (KFound b a true)
| c_lock s b a cr : pf a -> caller_move s (KFound b a cr) s (KBoth b a cr)
| c_couple s b a cr : caller_move s (KBoth b a cr) s (KMerge b a cr)
| c_sealed s b a cr : caller_move s (KMerge b a cr) s (KDetach b a)
| c_enqueue s b a cr second det s' :
    (second = true -> det = false) -> (second = false -> det = false -> cr = true) ->
    kenqueue second a s = Some s' -> caller_move s (KMerge b a cr) s' (KLeave b a det)
| c_merged s b a : caller_move s (KMerge b a false) s (KLeave b a false)
| c_unlock s b a (det : bool) :
    caller_move s (KLeave b a det) s (if det then KDetach b a else KIdle)
| c_detach s b a : sf (kshard b) -> caller_move s (KDetach b a) s (KUnlink b a)
| c_unlink s b a : caller_move s (KUnlink b a) (kunlink b a s) KIdle.

(** A Stage-1 thread. *)
Inductive stage1_move : kshared -> pc -> kshared -> pc -> Prop :=
| s1_pop s a r : k_q1 s = a :: r ->
    stage1_move s K1Pop (mk_k (k_live s) (k_linked s) r (k_q2 s)) (K1Lock a)
| s1_lock s a : pf a -> stage1_move s (K1Lock a) s (K1Held a)
| s1_full s a : stage1_move s (K1Held a) s (K1Push true a)
| s1_busy s a : stage1_move s (K1Held a) s (K1Push false a)
| s1_snapshot s a : stage1_move s (K1Held a) s (K1Read a)
| s1_again s a : pf a -> stage1_move s (K1Read a) s (K1Again a)
| s1_filled s a : stage1_move s (K1Again a) s (K1Push true a)
| s1_error s a : stage1_move s (K1Again a) (upd a (set_queued false) s) K1Pop
| s1_push s second a : stage1_move s (K1Push second a) (kpush second a s) K1Pop.

(** A Stage-2 thread. *)
Inductive stage2_move : kshared -> pc -> kshared -> pc -> Prop :=
| s2_pop s a r : k_q2 s = a :: r ->
    stage2_move s K2Pop (mk_k (k_live s) (k_linked s) (k_q1 s) r) (K2Took a)
| s2_busy s a : stage2_move s (K2Took a) s (K2Busy a)
| s2_requeue s a : stage2_move s (K2Busy a) (kpush true a s) K2Pop
| s2_start s a : stage2_move s (K2Took a) s (K2Collect [a])
| s2_more s batch a r : Z.of_nat (length batch) < NOX_PWRITEV_MAX_IOV -> k_q2 s = a :: r ->
    stage2_move s (K2Collect batch) (mk_k (k_live s) (k_linked s) (k_q1 s) r) (K2Peek batch a)
| s2_look s batch a : pf a -> stage2_move s (K2Peek batch a) s (K2Look batch a)
| s2_ready s batch a : stage2_move s (K2Look batch a) s (K2Collect (batch ++ [a]))
| s2_unready s batch a : stage2_move s (K2Look batch a) s (K2Return batch a)
| s2_return s batch a : stage2_move s (K2Return batch a) (kpush true a s) (K2Detach batch [])
| s2_collected s batch : stage2_move s (K2Collect batch) s (K2Detach batch [])
| s2_detach s a p todo done : k_live s !! a = Some p -> k_detached p = false ->
    sf (kshard (k_base p)) ->
    stage2_move s (K2Detach (a :: todo) done) s (K2Unlink (k_base p) a todo done)
| s2_skip s a p todo done : k_live s !! a = Some p -> k_detached p = true ->
    stage2_move s (K2Detach (a :: todo) done) s (K2Lock a todo done)
| s2_unlink s b a todo done :
    stage2_move s (K2Unlink b a todo done) (upd a mark_detached (kunlink b a s)) (K2Lock a todo done)
| s2_lock s a todo done : pf a -> stage2_move s (K2Lock a todo done) s (K2Mark a todo done)
| s2_mark s a todo done :
    stage2_move s (K2Mark a todo done) (upd a (set_queued false) s) (K2Detach todo (done ++ [a]))
| s2_write s done : stage2_move s (K2Detach [] done) s (K2Free done)
| s2_free s a done :
    stage2_move s (K2Free (a :: done))
      (mk_k (delete a (k_live s)) (k_linked s) (k_q1 s) (k_q2 s)) (K2Free done)
| s2_end s : stage2_move s (K2Free []) s K2Pop.

Definition kmove s c s' c' : Prop :=
  caller_move s c s' c' \/ stage1_move s c s' c' \/ stage2_move s c s' c'.

End Moves.

Definition shard_free (ts : list pc) (k : Z) : Prop := Forall (fun c => shard_held c <> Some k) ts.
Definition page_free (ts : list pc) (a : addr) : Prop := Forall (fun c => page_held c <> Some a) ts.

Definition kstep (x x' : kshared * list pc) : Prop :=
  exists i c c', x.2 !! i = Some c /\ kmove (shard_free x.2) (page_free x.2) x.1 c x'.1 c' /\
    x'.2 = <[i := c']> x.2.

(** An engine just opened, with its callers and its pools. *)
Definition k_start (callers s1_n s2_n : nat) : kshared * list pc :=
  (mk_k ∅ ∅ [] [], replicate callers KIdle ++ replicate s1_n K1Pop ++ replicate s2_n K2Pop).

(** * The invariant, between two threads, of a thread, and of the shared state *)

Definition apart (u v : pc) : Prop :=
  (forall k, shard_held u = Some k -> shard_held v <> Some k) /\
  (forall a, page_held u = Some a -> page_held v <> Some a) /\
  (forall a, a ∈ owned u -> a ∉ owned v) /\
  (forall a, a ∈ doomed u -> sees v <> Some a).

(** The page whose residence in the index the thread relies on, with the base it looked for. *)
Definition found (c : pc) : option (Z * addr) :=
  match c with KFound b a _ => Some (b, a) | _ => None end.

(** The page Stage-2 has unlinked and is about to mark. *)
Definition unlinked (c : pc) : option addr :=
  match c with K2Lock a _ _ | K2Mark a _ _ => Some a | _ => None end.

(** The base of the page Stage-2 is unlinking. *)
Definition unlinking (c : pc) : option (Z * addr) :=
  match c with K2Unlink b a _ _ => Some (b, a) | _ => None end.

Record thread_inv (s : kshared) (c : pc) : Prop := {
  th_nodup : NoDup (owned c);
  th_owned : forall a, a ∈ owned c -> is_Some (k_live s !! a) /\ (a ∉ k_q1 s) /\ (a ∉ k_q2 s);
  th_queued : forall a p, a ∈ owned c -> k_live s !! a = Some p -> k_queued p = false -> a ∈ doomed c;
  th_sees : forall a, sees c = Some a -> is_Some (k_live s !! a);
  th_found : forall b a, found c = Some (b, a) ->
    a ∈ k_linked s /\ exists p, k_live s !! a = Some p /\ k_base p = b;
  th_unlinked : forall a, unlinked c = Some a -> a ∉ k_linked s;
  th_unlinking : forall b a, unlinking c = Some (b, a) -> exists p, k_live s !! a = Some p /\ k_base p = b;
  th_doomed : forall a, a ∈ doomed c -> a ∉ k_linked s
}.

Record shared_inv (s : kshared) : Prop := {
  sh_nodup : NoDup (k_q1 s ++ k_q2 s);
  sh_queued : forall a, a ∈ k_q1 s ++ k_q2 s -> exists p, k_live s !! a = Some p /\ k_queued p = true;
  sh_linked : forall a, a ∈ k_linked s -> exists p, k_live s !! a = Some p /\ k_detached p = false
}.

Definition coupling_inv (x : kshared * list pc) : Prop :=
  shared_inv x.1 /\ Forall (thread_inv x.1) x.2 /\
  forall i j u v, i <> j -> x.2 !! i = Some u -> x.2 !! j = Some v -> apart u v.

(** What a step of [c] has to keep: the shared state, its own place, and any other thread [u]. *)
Definition keeps (ts : list pc) (s : kshared) (c : pc) (s' : kshared) (c' : pc) : Prop :=
  shared_inv s -> thread_inv s c ->
  (shared_inv s' /\ thread_inv s' c') /\
  forall u, u ∈ ts -> thread_inv s u -> apart c u -> apart u c ->
    thread_inv s' u /\ apart c' u /\ apart u c'.

Lemma step_coupling ts i s c s' c' :
  coupling_inv (s, ts) -> ts !! i = Some c -> keeps ts s c s' c' ->
  coupling_inv (s', <[i := c']> ts).
Proof.
  intros (Hs & Ht & Ha) Hi Hk. cbn in *. pose proof (lookup_lt_Some _ _ _ Hi) as Hlt.
  pose proof (Forall_lookup_1 _ _ _ _ Ht Hi) as Hc. destruct (Hk Hs Hc) as [[Hs' Hc'] Hu].
  assert (Hoth : forall j u, i <> j -> ts !! j = Some u ->
    thread_inv s' u /\ apart c' u /\ apart u c').
  { intros j u Hij Hj. apply Hu; [by eapply list_elem_of_lookup_2|by eapply Forall_lookup_1|
      by eapply Ha|eapply Ha; [|done..]; done]. }
  split; [done|]. split; cbn.
  - apply Forall_lookup. intros j u Hj. apply list_lookup_insert_Some in Hj as [(<- & <- & _)|[Hij Hj]];
      [done|]. by apply (Hoth j u).
  - intros j1 j2 u v Hne H1 H2.
    apply list_lookup_insert_Some in H1 as [(<- & <- & _)|[N1 H1]];
      apply list_lookup_insert_Some in H2 as [(<- & <- & _)|[N2 H2]]; try done.
    + by apply (Hoth j2 v).
    + by apply (Hoth j1 u).
    + by apply (Ha j1 j2 u v).
Qed.

(** ** What follows from where a thread is *)

Lemma sees_split c a : sees c = Some a -> page_held c = Some a \/ exists b, found c = Some (b, a).
Proof. destruct c; cbn; intros [= ->]; eauto. Qed.

Lemma found_sees c b a : found c = Some (b, a) -> sees c = Some a /\ shard_held c = Some (kshard b).
Proof. destruct c; cbn; intros [= -> ->]; done. Qed.

Lemma doomed_owned c a : a ∈ doomed c -> a ∈ owned c.
Proof. destruct c; cbn; set_solver. Qed.

Lemma unlinked_owned c a : unlinked c = Some a -> a ∈ owned c.
Proof. destruct c; cbn; intros [= ->]; set_solver. Qed.

Lemma unlinking_owned c b a :
  unlinking c = Some (b, a) -> a ∈ owned c /\ shard_held c = Some (kshard b).
Proof. destruct c; cbn; intros [= -> ->]; set_solver. Qed.

(** A mutex taken was free; what is seen, owned or doomed anew is not somebody else's. *)
Lemma apart_change ts c c' u :
  u ∈ ts -> apart c u -> apart u c ->
  (forall k, shard_held c' = Some k -> shard_held c = Some k \/ shard_free ts k) ->
  (forall a, page_held c' = Some a -> page_held c = Some a \/ page_free ts a) ->
  (forall a, a ∈ owned c' -> a ∈ owned c \/ a ∉ owned u) ->
  (forall a, a ∈ doomed c' -> a ∈ doomed c \/ sees u <> Some a) ->
  (forall a, sees c' = Some a -> sees c = Some a \/ a ∉ doomed u) ->
  apart c' u /\ apart u c'.
Proof.
  intros Hu (A1 & A2 & A3 & A4) (B1 & B2 & B3 & B4) H1 H2 H3 H4 H5.
  unfold shard_free, page_free in *. setoid_rewrite Forall_forall in H1. setoid_rewrite Forall_forall in H2.
  unfold apart. split; split_and!; naive_solver.
Qed.

(** Another thread keeps its invariant if the pages it is concerned with do not change. *)
Lemma thread_frame s s' u :
  thread_inv s u ->
  (forall a, a ∈ owned u \/ sees u = Some a -> k_live s' !! a = k_live s !! a) ->
  (forall a, a ∈ owned u -> (a ∈ k_q1 s' -> a ∈ k_q1 s) /\ (a ∈ k_q2 s' -> a ∈ k_q2 s)) ->
  (forall a, a ∈ k_linked s' -> a ∈ k_linked s \/ a ∉ owned u) ->
  (forall b a, found u = Some (b, a) -> a ∈ k_linked s -> a ∈ k_linked s') ->
  thread_inv s' u.
Proof.
  intros [I1 I2 I3 I4 I5 I6 I7 I8] HL HQ HK HF. split.
  - done.
  - intros a Ha. rewrite HL by auto. destruct (I2 a Ha) as (? & ? & ?). destruct (HQ a Ha). naive_solver.
  - intros a p Ha. rewrite HL by auto. eauto.
  - intros a Ha. rewrite HL by auto. eauto.
  - intros b a Ha. destruct (I5 b a Ha) as [Hl Hp]. split; [eauto|]. rewrite HL; [done|].
    right. by apply (found_sees _ b).
  - intros a Ha Hl. destruct (HK a Hl) as [|Hn]; [by apply (I6 a)|]. by apply Hn, unlinked_owned.
  - intros b a Ha. rewrite HL; [eauto|]. left. by apply (unlinking_owned _ b).
  - intros a Ha Hl. destruct (HK a Hl) as [|Hn]; [by apply (I8 a)|]. by apply Hn, doomed_owned.
Qed.

(** ** Every step keeps it *)

Ltac same_thread :=
  match goal with Hc : thread_inv _ _ |- _ => destruct Hc; split; cbn in *; try done; try set_solver; try naive_solver end.

Ltac same_apart :=
  match goal with Hu : _ ∈ _, A : apart _ ?u, B : apart ?u _ |- _ =>
    eapply apart_change; [exact Hu|exact A|exact B|..]; cbn; try done; try set_solver; try naive_solver end.

(** A thread with no page of its own. *)
Ltac owns_none :=
  split; cbn; try done; try (by apply NoDup_nil); try (by intros ? ?%elem_of_nil); try (by intros ? ? ?%elem_of_nil).

(** A step that leaves the shared state alone. *)
Ltac same := intros Hs Hc; split; [split; [done|same_thread] | intros u Hu Iu A B; split; [done|same_apart] ].

(** Unlinking a page disturbs nobody who relies on its residence: they hold its shard. *)
Lemma kunlink_thread s b a c u :
  shard_held c = Some (kshard b) -> apart c u -> thread_inv s u -> thread_inv (kunlink b a s) u.
Proof.
  intros Hsh (A1 & _) Iu. unfold kunlink. destruct (k_live s !! a) as [p|] eqn:Hp; [|done].
  destruct (_ =? _) eqn:E; [|done]. eapply thread_frame; [exact Iu|done|done|cbn; intros e [He _]%elem_of_difference; by left|].
  intros b' a' Hf Hl. cbn. apply elem_of_difference. split; [done|]. intros ->%elem_of_singleton.
  destruct (th_found _ _ Iu _ _ Hf) as (_ & q & Hq & Hb). rewrite Hp in Hq. injection Hq as <-.
  apply (A1 _ Hsh). rewrite (proj2 (found_sees _ _ _ Hf)). unfold kshard. rewrite <- Hb.
  apply Z.eqb_eq in E. by rewrite E.
Qed.

Lemma kunlink_shared s b a : shared_inv s -> shared_inv (kunlink b a s).
Proof.
  intros [I1 I2 I3]. unfold kunlink. destruct (k_live s !! a); [|done]. destruct (_ =? _); [|done].
  split; cbn; [done..|]. intros e [He _]%elem_of_difference. eauto.
Qed.

(** A push by a thread that is the only one to have the page. *)
Lemma kpush_shared s second a :
  shared_inv s -> a ∉ k_q1 s -> a ∉ k_q2 s ->
  (exists p, k_live s !! a = Some p /\ k_queued p = true) -> shared_inv (kpush second a s).
Proof.
  intros [I1 I2 I3] H1 H2 Hp. destruct second; split; cbn; try done.
  - rewrite app_assoc. apply NoDup_app. split; [done|]. split; [set_solver|apply NoDup_singleton].
  - intros e. rewrite app_assoc, elem_of_app, list_elem_of_singleton. intros [He| ->]; eauto.
  - rewrite <- app_assoc. apply NoDup_app in I1 as (N1 & Nd & N2). apply NoDup_app.
    split; [done|]. split; [|by constructor]. intros e He [->|Hin]%elem_of_cons; [done|by apply (Nd e)].
  - intros e. rewrite !elem_of_app, list_elem_of_singleton. intros [[He| ->]|He]; try done;
      apply I2, elem_of_app; auto.
Qed.

Lemma kpush_thread s second a u :
  thread_inv s u -> a ∉ owned u -> thread_inv (kpush second a s) u.
Proof.
  intros Iu Ha. assert (Hpush : forall e (q : list addr), e ∈ owned u -> e ∈ q ++ [a] -> e ∈ q).
  { intros e q He [?| ->%list_elem_of_singleton]%elem_of_app; done. }
  destruct second; (eapply thread_frame; [exact Iu|..]); cbn; try done; eauto.
Qed.

(** A change of the flags of a page that this thread owns, or that nobody does. *)
Lemma upd_thread s a f u :
  thread_inv s u -> a ∉ owned u -> (forall p, k_base (f p) = k_base p) -> thread_inv (upd a f s) u.
Proof.
  intros [I1 I2 I3 I4 I5 I6 I7 I8] Ha Hb.
  assert (Hl : forall e p, k_live s !! e = Some p ->
    exists p', k_live (upd a f s) !! e = Some p' /\ k_base p' = k_base p).
  { intros e p He. cbn. destruct (decide (e = a)) as [->|Hn].
    - rewrite lookup_alter_eq, He. cbn. eauto.
    - rewrite lookup_alter_ne by done. eauto. }
  split; try done.
  - intros e He. destruct (I2 e He) as ([p Hp] & Hq). destruct (Hl e p Hp) as (p' & Hp' & _).
    split; [by eexists|done].
  - intros e p He. cbn. rewrite lookup_alter_ne by congruence. eauto.
  - intros e He. destruct (I4 e He) as [p Hp]. destruct (Hl e p Hp) as (p' & Hp' & _). by eexists.
  - intros b e He. destruct (I5 b e He) as (Hli & p & Hp & Hbp). split; [done|].
    destruct (Hl e p Hp) as (p' & Hp' & Hbp'). exists p'. split; congruence.
  - intros b e He. destruct (I7 b e He) as (p & Hp & Hbp).
    destruct (Hl e p Hp) as (p' & Hp' & Hbp'). exists p'. split; congruence.
Qed.

Lemma upd_shared s a f :
  shared_inv s -> a ∉ k_q1 s ++ k_q2 s ->
  a ∉ k_linked s \/ (forall p, k_detached (f p) = k_detached p) -> shared_inv (upd a f s).
Proof.
  intros [I1 I2 I3] Hq Hd. split; cbn; [done|..].
  - intros e He. rewrite lookup_alter_ne by (by intros ->). eauto.
  - intros e He. destruct (I3 e He) as (p & Hp & Hdp). destruct (decide (e = a)) as [->|Hn].
    + destruct Hd as [Hd|Hd]; [done|]. rewrite lookup_alter_eq, Hp. exists (f p). split; [done|]. by rewrite Hd.
    + rewrite lookup_alter_ne by done. eauto.
Qed.

(** A page with the flag clear is in no queue, and only Stage-2, freeing it, may own it. *)
Lemma unqueued s a p :
  shared_inv s -> k_live s !! a = Some p -> k_queued p = false -> a ∉ k_q1 s ++ k_q2 s.
Proof. intros Hs Hp Hq Hin. destruct (sh_queued _ Hs _ Hin) as (q & Hp' & Hq'). congruence. Qed.

(** Taking a page from a queue. *)
Lemma pop_shared s a l1 l2 :
  shared_inv s -> k_q1 s ++ k_q2 s ≡ₚ a :: l1 ++ l2 ->
  shared_inv (mk_k (k_live s) (k_linked s) l1 l2) /\ (a ∉ l1) /\ (a ∉ l2) /\
  exists p, k_live s !! a = Some p /\ k_queued p = true.
Proof.
  intros [I1 I2 I3] Hp. rewrite Hp in I1. apply NoDup_cons in I1 as [Hn Hnd].
  split; [|split_and!; [set_solver..|apply I2; rewrite Hp; by left]].
  split; cbn; [done| |done]. intros e He. apply I2. rewrite Hp. by right.
Qed.

Lemma pop_thread s a l1 l2 u :
  thread_inv s u -> k_q1 s ++ k_q2 s ≡ₚ a :: l1 ++ l2 ->
  thread_inv (mk_k (k_live s) (k_linked s) l1 l2) u /\ a ∉ owned u.
Proof.
  intros Iu Hp. assert (Hin : forall e, e ∈ a :: l1 ++ l2 -> e ∉ owned u).
  { intros e He Ho. destruct (th_owned _ _ Iu e Ho) as (_ & H1 & H2). rewrite <- Hp in He.
    apply elem_of_app in He as [He|He]; done. }
  split; [|apply Hin; by left]. eapply thread_frame; [exact Iu|done| |by left|done].
  intros e Ho. split; intros He; destruct (Hin e); try done; right; apply elem_of_app; auto.
Qed.

(** A step of a background thread on its own pages, with the shared state left alone. *)
Lemma keeps_own ts s c c' :
  owned c' ≡ₚ owned c -> doomed c' = doomed c -> sees c' = None ->
  (forall k, shard_held c' = Some k -> shard_held c = Some k \/ shard_free ts k) ->
  (forall a, page_held c' = Some a -> page_held c = Some a \/ page_free ts a) ->
  (forall a, unlinked c' = Some a -> shared_inv s -> thread_inv s c -> a ∉ k_linked s) ->
  (forall b a, unlinking c' = Some (b, a) -> exists p, k_live s !! a = Some p /\ k_base p = b) ->
  keeps ts s c s c'.
Proof.
  intros Ho Hd Hs H1 H2 H3 H4 HS Hc. pose proof Hc as [I1 I2 I3 I4 I5 I6 I7 I8]. split.
  - split; [done|]. split; rewrite ?Ho, ?Hd; try done; [..|intros; by eapply H3].
    + intros a Ha. apply I2. by rewrite <- Ho.
    + intros a p Ha. apply I3. by rewrite <- Ho.
    + intros a Ha. by rewrite Hs in Ha.
    + intros b a [Ha _]%found_sees. by rewrite Hs in Ha.
  - intros u Hu Iu A B. split; [done|]. eapply apart_change; [exact Hu|exact A|exact B|..]; try done.
    + intros a Ha. left. by rewrite <- Ho.
    + intros a Ha. left. by rewrite <- Hd.
    + intros a Ha. by rewrite Hs in Ha.
Qed.

(** Nothing but pages of its own. *)
Definition plain (c : pc) : Prop :=
  doomed c = [] /\ sees c = None /\ shard_held c = None /\ page_held c = None /\
  unlinked c = None /\ unlinking c = None.

Lemma plain_apart (ts : list pc) c c' u :
  plain c' -> (forall a, a ∈ owned c' -> a ∈ owned c \/ a ∉ owned u) ->
  u ∈ ts -> apart c u -> apart u c -> apart c' u /\ apart u c'.
Proof.
  intros (P1 & P2 & P3 & P4 & _ & _) Ho Hu A B. eapply apart_change; [exact Hu|exact A|exact B|..];
    rewrite ?P1, ?P2, ?P3, ?P4; try done. by intros a ?%elem_of_nil.
Qed.

Lemma plain_thread s c :
  plain c -> NoDup (owned c) ->
  (forall a, a ∈ owned c -> (a ∉ k_q1 s) /\ (a ∉ k_q2 s) /\
     exists p, k_live s !! a = Some p /\ k_queued p = true) -> thread_inv s c.
Proof.
  intros (P1 & P2 & P3 & P4 & P5 & P6) Hnd Ho. split; rewrite ?P1, ?P2, ?P5, ?P6; try done.
  - intros a Ha. destruct (Ho a Ha) as (? & ? & p & Hp & _). split; [by eexists|done].
  - intros a p Ha Hp Hq. destruct (Ho a Ha) as (_ & _ & q & Hq' & Hqd). congruence.
  - intros b a [Hs _]%found_sees. congruence.
  - by intros a ?%elem_of_nil.
Qed.

Lemma own_queued s c a :
  thread_inv s c -> plain c -> a ∈ owned c ->
  (a ∉ k_q1 s) /\ (a ∉ k_q2 s) /\ exists p, k_live s !! a = Some p /\ k_queued p = true.
Proof.
  intros Hc [Hd _] Ha. destruct (th_owned _ _ Hc a Ha) as ([p Hp] & N1 & N2). split_and!; [done..|].
  exists p. split; [done|]. destruct (k_queued p) eqn:Hq; [done|].
  pose proof (th_queued _ _ Hc a p Ha Hp Hq) as Hin. rewrite Hd in Hin. by apply elem_of_nil in Hin.
Qed.

Lemma keeps_pop ts s c c' a l1 l2 :
  plain c -> plain c' -> k_q1 s ++ k_q2 s ≡ₚ a :: l1 ++ l2 -> owned c' ≡ₚ a :: owned c ->
  keeps ts s c (mk_k (k_live s) (k_linked s) l1 l2) c'.
Proof.
  intros Pc Pc' Hq Ho Hs Hc. destruct (pop_shared _ _ _ _ Hs Hq) as (Hs' & N1 & N2 & Hl).
  destruct (pop_thread _ _ _ _ _ Hc Hq) as [Hc' Hn]. split; [split; [done|]|].
  - apply plain_thread; [done|rewrite Ho; constructor; [done|apply Hc]|].
    intros e. rewrite Ho. intros [->|He]%elem_of_cons; [by cbn|]. by apply (own_queued _ c).
  - intros u Hu Iu A B. destruct (pop_thread _ _ _ _ _ Iu Hq) as [Iu' Hou]. split; [done|].
    eapply plain_apart; [done| |done..]. intros e. rewrite Ho. intros [->|He]%elem_of_cons; auto.
Qed.

Lemma keeps_push ts s c c' second a :
  plain c -> plain c' -> owned c ≡ₚ a :: owned c' -> keeps ts s c (kpush second a s) c'.
Proof.
  intros Pc Pc' Ho Hs Hc. assert (Ha : a ∈ owned c) by (rewrite Ho; by left).
  destruct (own_queued _ _ _ Hc Pc Ha) as (N1 & N2 & Hl).
  pose proof (th_nodup _ _ Hc) as Hnd. rewrite Ho in Hnd. apply NoDup_cons in Hnd as [Hna Hnd].
  split; [split; [by apply kpush_shared|]|].
  - apply plain_thread; [done..|]. intros e He.
    destruct (own_queued _ _ e Hc Pc) as (M1 & M2 & Hm); [rewrite Ho; by right|].
    assert (e <> a) by (by intros ->).
    destruct second; cbn; rewrite elem_of_app, list_elem_of_singleton; tauto.
  - intros u Hu Iu A B. split; [apply kpush_thread; [done|by apply A]|].
    eapply plain_apart; [done| |done..]. intros e He. left. rewrite Ho. by right.
Qed.

(** A page of its own after a change of its flags. *)
Lemma upd_own s a f e : is_Some (k_live s !! e) -> is_Some (k_live (upd a f s) !! e).
Proof. intros [p Hp]. apply lookup_alter_is_Some. by eexists. Qed.

Lemma upd_flag s a f e p :
  k_live (upd a f s) !! e = Some p ->
  exists q, k_live s !! e = Some q /\ p = if decide (e = a) then f q else q.
Proof.
  cbn. rewrite lookup_alter. destruct (decide (e = a)) as [->|Hn].
  - rewrite decide_True by done. intros (q & Hq & ->)%fmap_Some. eauto.
  - rewrite decide_False by done. eauto.
Qed.

(** Nobody has a page that Stage-2 has unlinked and locked. *)
Lemma unlinked_unseen s c u a :
  thread_inv s c -> thread_inv s u -> apart c u -> unlinked c = Some a -> page_held c = Some a ->
  sees u <> Some a.
Proof.
  intros Hc Iu A Hun Hp [Hs|[b Hf]]%sees_split.
  - by apply (proj1 (proj2 A) a Hp).
  - apply (th_unlinked _ _ Hc a Hun). by apply (th_found _ _ Iu b a).
Qed.

(** A fresh page. *)
Lemma fresh_keeps ts s b a :
  k_live s !! a = None ->
  keeps ts s (KLookup b)
    (mk_k (<[a := mk_kpage b false false]> (k_live s)) ({[a]} ∪ k_linked s) (k_q1 s) (k_q2 s))
    (KFound b a true).
Proof.
  intros Hn Hs Hc. split; [split|].
  - destruct Hs as [I1 I2 I3]. assert (Hne : forall e p, k_live s !! e = Some p -> e <> a) by congruence.
    split; cbn; [done|..].
    + intros e He. destruct (I2 e He) as (p & Hp & Hq). exists p.
      rewrite lookup_insert_ne by (symmetry; by eapply Hne). done.
    + intros e [->%elem_of_singleton|He]%elem_of_union; [rewrite lookup_insert_eq; eauto|].
      destruct (I3 e He) as (p & Hp & Hq). exists p.
      rewrite lookup_insert_ne by (symmetry; by eapply Hne). done.
  - owns_none.
    + intros e [= <-]. rewrite lookup_insert_eq. eauto.
    + intros b' e [= <- <-]. split; [set_solver|]. rewrite lookup_insert_eq. eauto.
  - intros u Hu Iu A B.
    assert (Ho : forall e, e ∈ owned u \/ sees u = Some e -> e <> a).
    { intros e [He|He] ->; [destruct (th_owned _ _ Iu _ He) as ([p Hp] & _)|destruct (th_sees _ _ Iu _ He) as [p Hp]]; congruence. }
    split.
    + eapply thread_frame; [exact Iu|..]; cbn; try done.
      * intros e He. apply lookup_insert_ne. symmetry. by apply Ho.
      * intros e [->%elem_of_singleton|He]%elem_of_union; [right|by left]. intros Ha. by apply (Ho a); [left|].
      * set_solver.
    + same_apart. intros e [= <-]. right. intros Hd. apply (Ho a); [left; by apply doomed_owned|done].
Qed.

(** A page enqueued by the caller that holds it. *)
Lemma enqueue_keeps ts s b a cr second det s' :
  kenqueue second a s = Some s' -> keeps ts s (KMerge b a cr) s' (KLeave b a det).
Proof.
  intros He Hs Hc. unfold kenqueue in He. destruct (k_live s !! a) as [p|] eqn:Hp; [|done].
  cbn in He. injection He as <-. destruct (k_queued p) eqn:Hq.
  { split; [split; [done|same_thread]|]. intros u Hu Iu A B. split; [done|same_apart]. }
  pose proof (unqueued _ _ _ Hs Hp Hq) as Hnq. split; [split|].
  - pose proof Hnq as [N1 N2]%not_elem_of_app. apply kpush_shared; [|done..|].
    + apply upd_shared; [done..|by right].
    + cbn. rewrite lookup_alter_eq, Hp. eexists. by split.
  - owns_none. intros e [= <-]. destruct second; cbn; rewrite lookup_alter_eq, Hp; by eexists.
  - intros u Hu Iu A B.
    assert (Ho : a ∉ owned u).
    { intros Hin. pose proof (th_queued _ _ Iu _ _ Hin Hp Hq) as Hd. by apply (proj2 (proj2 (proj2 B)) a Hd). }
    split; [by apply kpush_thread, Ho; apply upd_thread|same_apart].
Qed.

Lemma caller_move_keeps ts s c s' c' :
  caller_move (shard_free ts) (page_free ts) s c s' c' -> keeps ts s c s' c'.
Proof.
  intros Hm. destruct Hm as [s b Hf|s b a p Hl Hp Hb|s b Hm|s b a Hm Hn|s b a cr Hf|s b a cr|s b a cr
    |s b a cr second det s' H1 H2 He|s b a|s b a det|s b a Hf|s b a].
  1: same.
  2: same.
  3: same.
  3: same.
  3: same.
  4: same.
  4: destruct det; same.
  4: same.
  - intros Hs Hc. split; [split; [done|]|].
    + owns_none; naive_solver.
    + intros u Hu Iu A B. split; [done|]. eapply apart_change; [exact Hu|exact A|exact B|..]; cbn; try done; try set_solver.
      intros e [= <-]. right. intros Hd. by apply (th_doomed _ _ Iu a).
  - by apply fresh_keeps.
  - by eapply enqueue_keeps.
  - intros Hs Hc. split; [split; [by apply kunlink_shared|]|].
    + owns_none.
    + intros u Hu Iu A B. split; [|same_apart]. by eapply kunlink_thread; [|exact A|].
Qed.

Lemma stage1_move_keeps ts s c s' c' :
  stage1_move (page_free ts) s c s' c' -> keeps ts s c s' c'.
Proof.
  intros Hm. destruct Hm as [s a r Hq|s a Hf|s a|s a|s a|s a Hf|s a|s a|s second a].
  2: same.
  2: same.
  2: same.
  2: same.
  2: same.
  2: same.
  - apply (keeps_pop _ _ _ _ a); try done. by rewrite Hq.
  - intros Hs Hc. destruct (th_owned _ _ Hc a) as ([p Hp] & N1 & N2); [by left|]. split; [split|].
    + apply upd_shared; [done|by apply not_elem_of_app|by right].
    + owns_none.
    + intros u Hu Iu A B. assert (Ho : a ∉ owned u) by (apply A; by left).
      split; [by apply upd_thread|same_apart].
  - by apply keeps_push.
Qed.

(** Stage-2 unlinks a page. *)
Lemma unlink_keeps ts s b a todo done :
  keeps ts s (K2Unlink b a todo done) (upd a mark_detached (kunlink b a s)) (K2Lock a todo done).
Proof.
  intros Hs Hc. destruct (th_unlinking _ _ Hc b a) as (p & Hp & Hb); [done|].
  destruct (th_owned _ _ Hc a) as (_ & N1 & N2); [by left|].
  pose proof (th_nodup _ _ Hc) as Hnd.
  assert (Hk : kunlink b a s = mk_k (k_live s) (k_linked s ∖ {[a]}) (k_q1 s) (k_q2 s)).
  { unfold kunlink. by rewrite Hp, Hb, Z.eqb_refl. }
  assert (Hna : a ∉ k_linked (kunlink b a s)) by (rewrite Hk; cbn; set_solver).
  split; [split|].
  - apply upd_shared; [by apply kunlink_shared|rewrite Hk; by apply not_elem_of_app|by left].
  - rewrite Hk in Hna |- *. split; cbn [owned doomed sees found unlinked unlinking]; try done.
    + intros e He. destruct (th_owned _ _ Hc e He) as (Hl & ? & ?). split; [by apply upd_own|done].
    + intros e q He (q' & Hq' & ->)%upd_flag. intros Hqd. apply (th_queued _ _ Hc e q' He Hq').
      by case_decide.
    + by intros ? [= <-].
    + intros e He [Hl _]%elem_of_difference. by apply (th_doomed _ _ Hc e).
  - intros u Hu Iu A B. assert (Ho : a ∉ owned u) by (apply A; by left). split; [|same_apart].
    apply upd_thread; [|done..]. by eapply kunlink_thread; [|exact A|].
Qed.

(** Stage-2 marks it, with its mutex: whoever had it is gone. *)
Lemma mark_keeps ts s a todo done :
  keeps ts s (K2Mark a todo done) (upd a (set_queued false) s) (K2Detach todo (done ++ [a])).
Proof.
  intros Hs Hc. destruct (th_owned _ _ Hc a) as (_ & N1 & N2); [by left|].
  assert (Ho : todo ++ done ++ [a] ≡ₚ a :: todo ++ done) by (rewrite Permutation_middle; solve_Permutation).
  split; [split|].
  - apply upd_shared; [done|by apply not_elem_of_app|by right].
  - split; cbn [owned doomed sees found unlinked unlinking]; try done.
    + rewrite Ho. apply Hc.
    + intros e He. rewrite Ho in He. destruct (th_owned _ _ Hc e He) as (Hl & ? & ?).
      split; [by apply upd_own|done].
    + intros e q He (q' & Hq' & ->)%upd_flag Hqd. rewrite Ho in He. case_decide; [set_solver|].
      apply elem_of_app. left. by apply (th_queued _ _ Hc e q').
    + intros e [He| ->%list_elem_of_singleton]%elem_of_app; [by apply (th_doomed _ _ Hc)|].
      by apply (th_unlinked _ _ Hc).
  - intros u Hu Iu A B. assert (Hou : a ∉ owned u) by (apply A; by left).
    split; [by apply upd_thread|]. eapply apart_change; [exact Hu|exact A|exact B|..]; try done.
    + intros e He. left. cbn in He. by rewrite Ho in He.
    + intros e [He| ->%list_elem_of_singleton]%elem_of_app; [by left|right].
      by apply (unlinked_unseen s (K2Mark a todo done)).
Qed.

(** Stage-2 frees it. *)
Lemma free_keeps ts s a done :
  keeps ts s (K2Free (a :: done))
    (mk_k (delete a (k_live s)) (k_linked s) (k_q1 s) (k_q2 s)) (K2Free done).
Proof.
  intros Hs Hc. destruct (th_owned _ _ Hc a) as (_ & N1 & N2); [by left|].
  pose proof (th_nodup _ _ Hc) as Hnd. apply NoDup_cons in Hnd as [Hna Hnd].
  assert (Hl : a ∉ k_linked s) by (apply (th_doomed _ _ Hc); by left).
  assert (Hne : forall e, e ∈ done -> k_live s !! e = delete a (k_live s) !! e).
  { intros e He. rewrite lookup_delete_ne; [done|]. by intros ->. }
  split; [split|].
  - destruct Hs as [I1 I2 I3]. split; cbn; [done|..].
    + intros e He. rewrite lookup_delete_ne; [eauto|]. intros <-. apply elem_of_app in He as [|]; done.
    + intros e He. rewrite lookup_delete_ne; [eauto|]. by intros <-.
  - split; cbn [owned doomed sees found unlinked unlinking k_live k_q1 k_q2 k_linked]; try done.
    + intros e He. rewrite <- Hne by done. apply (th_owned _ _ Hc). by right.
    + intros e He. apply (th_doomed _ _ Hc). by right.
  - intros u Hu Iu A B. assert (Hou : a ∉ owned u) by (apply A; by left).
    assert (Hsu : sees u <> Some a) by (apply A; by left). split.
    + eapply thread_frame; [exact Iu|..]; cbn; try done; [|by left].
      intros e [He|He]; apply lookup_delete_ne; congruence.
    + same_apart.
Qed.

Lemma stage2_move_keeps ts s c s' c' :
  stage2_move (shard_free ts) (page_free ts) s c s' c' -> keeps ts s c s' c'.
Proof.
  intros Hm. destruct Hm as [s a r Hq|s a|s a|s a|s batch a r Hlen Hq|s batch a Hf|s batch a|s batch a
    |s batch a|s batch|s a p todo done Hp Hd Hf|s a p todo done Hp Hd|s b a todo done|s a todo done Hf
    |s a todo done|s done|s a done|s].
  2: by apply keeps_own.
  3: by apply keeps_own.
  4: (apply keeps_own; cbn; try done; intros ? [= <-]; by right).
  4: (apply keeps_own; cbn; try done; by rewrite Permutation_app_comm).
  4: by apply keeps_own.
  5: (apply keeps_own; cbn; try done; by rewrite app_nil_r).
  5: (apply keeps_own; cbn; try done; [intros ? [= <-]; by right|intros ? ? [= <- <-]; eauto]).
  5: { apply keeps_own; cbn; try done. intros ? [= <-] Hs _ Hin.
       destruct (sh_linked _ Hs _ Hin) as (q & Hq & Hdq). congruence. }
  6: (apply keeps_own; cbn; try done; [intros ? [= <-]; by right|intros ? [= <-] _ Hc; by apply (th_unlinked _ _ Hc)]).
  7: by apply keeps_own; cbn; rewrite ?app_nil_l.
  8: same.
  - apply (keeps_pop _ _ _ _ a); try done. cbn. by rewrite Hq, Permutation_middle.
  - by apply keeps_push.
  - apply (keeps_pop _ _ _ _ a); try done. by rewrite Hq, Permutation_middle.
  - apply keeps_push; try done. cbn. by rewrite app_nil_r.
  - apply unlink_keeps.
  - apply mark_keeps.
  - apply free_keeps.
Qed.

Lemma kstep_inv x x' : coupling_inv x -> kstep x x' -> coupling_inv x'.
Proof.
  destruct x as [s ts], x' as [s' ts']. intros Hi (i & c & c' & Hc & Hm & E). cbn in *. subst ts'.
  eapply step_coupling; [done..|]. destruct Hm as [Hm|[Hm|Hm]];
    [by apply caller_move_keeps|by apply stage1_move_keeps|by apply stage2_move_keeps].
Qed.

(** A thread at its start has nothing. *)
Definition at_rest (c : pc) : Prop := c = KIdle \/ c = K1Pop \/ c = K2Pop.

Lemma coupling_start_inv callers n1 n2 : coupling_inv (k_start callers n1 n2).
Proof.
  assert (Hrest : forall c, c ∈ (k_start callers n1 n2).2 -> at_rest c).
  { intros c. cbn. rewrite !elem_of_app, !elem_of_replicate. unfold at_rest. naive_solver. }
  split; [split; cbn; [constructor|by intros ? ?%elem_of_nil|set_solver]|]. split.
  - apply Forall_forall. intros c Hc. apply Hrest in Hc as [-> |[-> | ->]]; owns_none.
  - intros i j u v _ Hu Hv. apply list_elem_of_lookup_2, Hrest in Hu, Hv.
    destruct Hu as [-> |[-> | ->]], Hv as [-> |[-> | ->]]; unfold apart; cbn;
      split_and!; try done; by intros ? ?%elem_of_nil.
Qed.

(** C12: Lock coupling keeps pages alive. Take an engine with any number of callers, of Stage-1
    threads and of Stage-2 threads, and interleave them at every single acquisition and release of
    the mutex of a shard or of a page, with any contents of the pages, any failed allocation or
    read, and addresses of freed pages used again. In every state they reach: a page whose mutex a
    thread holds or is about to take, or that a background thread has taken from a queue, has not
    been freed; no page is in two places of the queues and the background threads at once; and
    from when Stage-2 has detached and marked a page, through the write of its batch and until it
    has freed the page and its mutex, no other thread holds that mutex, waits for it or has the
    page, and neither the index nor a queue leads to it: nothing is merged into a page that is
    being written. *)
Theorem coupling_keeps_pages (callers n1 n2 : nat) (s : kshared) (ts : list pc) :
  rtc kstep (k_start callers n1 n2) (s, ts) ->
  (forall i c a, ts !! i = Some c -> reaches c a -> is_Some (k_live s !! a)) /\
  (forall i j u v a, i <> j -> ts !! i = Some u -> ts !! j = Some v -> a ∈ owned u -> a ∉ owned v) /\
  (forall i c a, ts !! i = Some c -> a ∈ owned c -> a ∉ k_q1 s ++ k_q2 s) /\
  NoDup (k_q1 s ++ k_q2 s) /\
  (forall i c a, ts !! i = Some c -> a ∈ doomed c ->
     (a ∉ k_linked s) /\ (a ∉ k_q1 s ++ k_q2 s) /\
     forall j c', i <> j -> ts !! j = Some c' -> ~ reaches c' a).
Proof.
  intros Hr. assert (Hi : coupling_inv (s, ts)).
  { pose proof (coupling_start_inv callers n1 n2) as H0. revert H0.
    remember (s, ts) as x eqn:Ex. clear Ex. induction Hr; eauto using kstep_inv. }
  destruct Hi as (Hs & Ht & Ha). cbn in *. rewrite Forall_lookup in Ht.
  assert (Hheld : forall c a, page_held c = Some a -> sees c = Some a \/ a ∈ owned c).
  { intros c e. destruct c; cbn; intros [= ->]; auto; right; by left. }
  assert (Hown : forall i c a, ts !! i = Some c -> a ∈ owned c -> a ∉ k_q1 s ++ k_q2 s).
  { intros i c a Hc Ho. apply not_elem_of_app. by apply (th_owned _ _ (Ht i c Hc)). }
  split_and!.
  - intros i c a Hc. unfold reaches. intros Hra. assert (sees c = Some a \/ a ∈ owned c) as [Hx|Hx]
      by (destruct Hra as [?|[?|?]]; auto).
    + by apply (th_sees _ _ (Ht i c Hc)).
    + by apply (th_owned _ _ (Ht i c Hc)).
  - intros i j u v a Hij Hu Hv. by apply (Ha i j u v Hij Hu Hv).
  - exact Hown.
  - apply Hs.
  - intros i c a Hc Hd. pose proof (doomed_owned _ _ Hd) as Ho.
    split_and!; [by apply (th_doomed _ _ (Ht i _ Hc) a)|by apply (Hown i _ a Hc)|].
    intros j c' Hij Hj Hra. pose proof (Ha i j _ _ Hij Hc Hj) as (_ & _ & A3 & A4).
    assert (sees c' = Some a \/ a ∈ owned c') as [Hx|Hx] by (destruct Hra as [?|[?|?]]; auto).
    + by apply (A4 a).
    + by apply (A3 a).
Qed.

(** One step of thread [i], by the given rule. *)
Ltac kgo i rule :=
  eapply (rtc_l _ _ (_, _)); [exists i; do 2 eexists; split; [reflexivity|]; cbn [fst snd]; split; [rule|reflexivity]|];
  cbn [fst snd list_insert insert].

Ltac nobody := repeat (apply Forall_cons; split; [done|]); by apply Forall_nil.

(** A page is born, queued, filled, collected, detached and marked, and is about to be freed. *)
Lemma coupling_keeps_pages_witness :
  exists s ts, rtc kstep (k_start 1 1 1) (s, ts) /\ ts !! 2%nat = Some (K2Free [1%positive]) /\
    is_Some (k_live s !! 1%positive) /\ (1%positive ∉ k_linked s).
Proof.
  assert (Hr : exists s, rtc kstep (k_start 1 1 1) (s, [KIdle; K1Pop; K2Free [1%positive]])).
  { eexists. unfold k_start. cbn [replicate app].
    kgo 0%nat ltac:(left; apply (c_enter _ _ _ 0); nobody).
    kgo 0%nat ltac:(left; apply (c_fresh _ _ _ 0 1%positive); [by intros ? ? ?%elem_of_empty|reflexivity]).
    kgo 0%nat ltac:(left; apply c_lock; nobody).
    kgo 0%nat ltac:(left; apply c_couple).
    kgo 0%nat ltac:(left; apply (c_enqueue _ _ _ _ _ _ false false); [done|done|reflexivity]).
    kgo 0%nat ltac:(left; apply c_unlock).
    kgo 1%nat ltac:(right; left; eapply s1_pop; reflexivity).
    kgo 1%nat ltac:(right; left; apply s1_lock; nobody).
    kgo 1%nat ltac:(right; left; apply s1_full).
    kgo 1%nat ltac:(right; left; apply s1_push).
    kgo 2%nat ltac:(right; right; eapply s2_pop; reflexivity).
    kgo 2%nat ltac:(right; right; apply s2_start).
    kgo 2%nat ltac:(right; right; apply s2_collected).
    kgo 2%nat ltac:(right; right; eapply s2_detach; [reflexivity|reflexivity|nobody]).
    kgo 2%nat ltac:(right; right; apply s2_unlink).
    kgo 2%nat ltac:(right; right; apply s2_lock; nobody).
    kgo 2%nat ltac:(right; right; apply s2_mark).
    kgo 2%nat ltac:(right; right; apply s2_write).
    apply rtc_refl. }
  destruct Hr as [s Hr]. exists s, [KIdle; K1Pop; K2Free [1%positive]].
  split; [exact Hr|]. split; [reflexivity|].
  destruct (coupling_keeps_pages 1 1 1 s _ Hr) as (Hl & _ & _ & _ & Hfree).
  split; [by apply (Hl 2%nat (K2Free [1%positive])); [|right; right; left]|].
  apply (Hfree 2%nat (K2Free [1%positive])); [done|by left].
Defined.
